(* ===== verification/_CoqProject ===== *)
-Q . S2P
Prelude.v
Errors.v
World.v
Hoare.v
Model.v
ByteCodec.v
Crc32c.v
KeyCodec.v
OrdMap.v
View.v
MemTable.v
WalRecord.v
FileIo.v
WalFile.v
Platforms.v
WalRecovery.v
SegmentBlock.v
Manifest.v
SegmentFile.v
SegmentFormat.v
BlocksView.v
SegmentQuery.v
StorageEngine.v
Database.v
EngineView.v
EngineBlocks.v
EngineState.v
EngineWrite.v
EngineRecovery.v
EngineFlush.v
EngineCompact.v
EngineSafety.v
EngineContract.v
EngineTheorems.v
EngineWindows.v
Text.v
Tools.v
Cli.v
DatabaseRules.v
DatabaseOpen.v
Guards.v
LockHeld.v
Seen.v
SeenEngine.v
DatabaseTheorems.v
DatabaseRuns.v
DatabaseRestarts.v
CliTheorems.v
Termination.v
ChronoView.v
ChronoViewText.v
ChronoViewTheorems.v
ChronoViewDraw.v
ChronoViewFrames.v
Benchmark.v
BenchmarkTheorems.v
BasicUsage.v
