(* ===== verification/Prelude.v ===== *)
(** * ChronoStore: a verification development

    ChronoStore is an embedded time-series store.  A [Database] owns a directory with
    a lock file, a write-ahead log, a manifest and segment files; a [StorageEngine]
    keeps the newest samples in a MemTable, logs every write, flushes the MemTable into
    a segment that the manifest names, and merges segments by compaction.  Four programs
    use the public interface: a command-line tool, a graphical one, a benchmark and an
    example.
    The development models all of them, down to the system calls, and proves what they
    promise for every behaviour of the operating system: short writes, interrupted and
    failing calls, and a power loss inside any call.

    ** How the code is modelled

    - A computation that may throw is a [result] (Errors.v); one that also calls the
      operating system is in the monad [M S] (World.v), on a state that holds the
      [world] and the object whose member function it is.  Exceptions are the
      constructors of [exn], one for each class the sources throw.
    - The world is a file system and a script.  A file system keeps, for every name
      and every inode, the values since the last synchronization, and a power loss
      ([crash]) picks any of them, name by name and inode by inode.  Every system call
      takes one outcome from the script; when the script is used up every further call
      succeeds.  A theorem for every script is a theorem for every behaviour of the
      system, and [script w <> []] (or [faulty w]) in a conclusion reads "the operating
      system has failed".
    - Integers are [Z] with the wrap-around of their width written out ([u8] to [u64],
      [i64]); sizes are [Z]; bytes are [Byte.byte]; a [double] is its 64-bit pattern.
      A [std::map] is the sorted list of its entries (OrdMap.v).
    - Each member function that takes the engine's mutex is one step, so interleavings
      of threads are sequences of such steps.
    - What is not under src/ is a parameter: [std::from_chars] and [operator<<] of a
      [double], floating-point arithmetic, the clock and the version string; ImGui and
      the Windows API are classes, with what their documentation says as laws, and so is
      F_FULLFSYNC of macOS, where [fsync] alone makes nothing permanent.

    ** The files

    - Prelude.v (this file): notation, tactics, the hint databases [chrono] and
      [chrono_size], lemmas on lists, sizes and machine words.  Errors.v: exceptions
      and [result].  World.v: the file system, the system calls and [M].  Hoare.v:
      [wp], the rules of the system calls, and what a power loss can leave.
    - Model.v (model.hpp, model.cpp): tags, series keys, timestamps, samples.
      OrdMap.v: ordered maps.  View.v: the abstract specification, a [view] from
      series and time to a value.
    - ByteCodec.v (byte_codec.cpp), Crc32c.v (crc32c.cpp), KeyCodec.v (the encoding of
      series keys in wal_record.cpp, segment_block_codec.cpp and segment_file.cpp),
      WalRecord.v (wal_record.cpp), SegmentBlock.v (segment_block.cpp,
      segment_block_codec.cpp), Manifest.v (manifest.cpp), SegmentFile.v,
      SegmentFormat.v and SegmentQuery.v (segment_file.cpp), BlocksView.v (what a list
      of blocks holds).
    - MemTable.v (memtable.cpp), FileIo.v (file_io.cpp), WalFile.v (wal_file.cpp),
      WalRecovery.v (wal_recovery.cpp): the POSIX build, which everything else is built
      on.  Platforms.v: what Windows and macOS have in place of it in file_io.cpp,
      wal_file.cpp and database_lock.cpp.
    - StorageEngine.v (storage_engine.cpp): the class.  Its proofs: EngineView.v (the
      queries), EngineBlocks.v (blocks from snapshots), EngineState.v (the invariant
      [engine_ok]), EngineWrite.v ([put], [sync]), EngineRecovery.v (the constructor),
      EngineFlush.v and EngineCompact.v, EngineSafety.v (what survives a power loss),
      EngineContract.v (each operation on the view; runs with power losses),
      EngineTheorems.v, and EngineWindows.v (four runs that lose more than one might
      expect).
    - Database.v (database.cpp, database_lock.cpp), with DatabaseRules.v and
      DatabaseOpen.v (its operations), Guards.v (a logic for invariants of
      computations; the queries change nothing), LockHeld.v (the lock from the
      constructor to the destructor, and the class [Gentle] of what the engine leaves
      alone), DatabaseTheorems.v and DatabaseRuns.v (clients over time: calls, closes,
      kills, power losses), Seen.v and SeenEngine.v (no call can tell what is on stable
      storage: [oblivious]) and DatabaseRestarts.v (processes that end and start again
      while the machine runs on).
    - Text.v and Tools.v (what the tools share), Cli.v and CliTheorems.v
      (chronostore_cli/main.cpp), ChronoView.v, ChronoViewText.v and
      ChronoViewTheorems.v (chronoview/main.cpp: the state and the events),
      ChronoViewDraw.v and ChronoViewFrames.v (the frames), Benchmark.v and BenchmarkTheorems.v
      (chronostore_benchmark/main.cpp), BasicUsage.v (examples/basic_usage.cpp).
    - Termination.v: every loop ends by itself.

    ** What is proved

    - Codecs: WAL records, blocks, segment files and the manifest decode to what was
      encoded; the decoders accept nothing but encodings (the WAL decoder: records in
      any tag order), throw no other exception than their format error, and notice
      every change confined to four consecutive bytes.
    - Files: [atomic_write_file] is atomic and durable on POSIX, durable on Windows and
      atomic on macOS ([atomic_write_file_platforms]); the
      log's [append], [sync] and [reset] leave what they say whatever the system does;
      chunked replay equals decoding the whole file, and repair cuts the torn tail
      durably.
    - Storage: MemTable, segments and engine answer [get], [latest] and [range] from
      their view; [put], [flush], [compact] and opening are operations on the view on
      every path, with the failed state after an error.
    - Durability ([engine_durability]): over any sequence of openings, synced puts,
      syncs, flushes, compactions, reads, failures and power losses, a running engine
      shows every acknowledged put, and nothing but puts.  Two conditions are part of
      [step]: a put comes while the log's own name is on stable storage ([log_named]), and
      an engine that has crashed, is marked or did not open is opened again only after a
      power loss.  The invariant behind it is [phase_ok], kept by every [step].
    - The database ([database_durability]): the same through [Database], with the
      automatic flush, closing, kills between calls and other openers, under the same two
      conditions (closes and kills too need [log_named]); the invariant is
      [run_ok], kept by every [run_step].  What [put], [flush] and [compact] promise of a
      power loss inside them is for synced appends ([settled_engine], [db_settled]).  The lock is held from the constructor to the
      destructor, so there is one database at a time, and closing gives it back.
    - Restarts ([database_restarts]): while the machine keeps its power nothing is lost in
      any durability mode, however often a process fails, closes the database or is
      killed, in a call or between two; the invariant is [restart_ok].
    - The tools: exit codes, what [chronostore put] leaves on the disk, the exceptions
      and the state of ChronoView, what its frames show and that they do what its events
      do ([frames_are_events]), what the benchmark reads.
    - Termination: the bounds below are never reached.

    ** Bounds and fuel

    [write_all_loop] has one turn more than the script has outcomes: each turn but the
    last uses one.  [replay_loop] has twice the file's length and two: each turn
    consumes a record's bytes, reads bytes of the file or finds its end.
    [snapshot_blocks] has as many turns as samples: each takes one at least.
    [retry_interrupted] has the script's length: each interruption uses an outcome.
    Termination.v and [World.retry_interrupted_loop] show that they are enough.
    [draw_series] has as many turns as there are series; running out would be a misuse,
    which [frames_are_events] excludes.
    Decimal numbers are printed with at most 20 digits, as 64-bit numbers have.

    ** Assumptions that theorems state

    [fs_ok]: no two names are one inode, which a power loss between the two names of a
    rename is assumed to keep.  [closed R]: the specification does not tell equal views
    apart.  [leaves dir R f]: the disk is one that a power loss (or a process that has
    ended after its last call) leaves of a database.  [log_named]: the log's own name is
    on stable storage, which EngineWindows.v shows to be necessary.  The database
    directory itself, once created, is taken to be permanent: the sources do not
    synchronize its parent.  A script is finite, so a system that interrupts a call for
    ever is not one of them.

    ** Not modelled

    - The engine on other platforms: its theorems are about the POSIX build, where a
      published name is permanent and so is every other name in its directory.  On Windows
      MoveFileExW makes permanent only the names it moves, and nothing is documented about
      one that a power loss interrupts; on macOS the name is still in the drive's cache
      ([apple_name_can_be_lost]).
    - The set-up of ChronoView's window, and the sizes, colours and places of what it
      shows: calls of ImGui, GLFW and OpenGL without logic of the program's own.
    - The mutex itself and the move operations' memory; a moved-from [Database] is
      modelled by its null pointer.
    - Allocation failures, and what the operating system adds to the text of a
      [std::system_error].
    - A power loss after a restart that followed a failed or killed call: the restarted
      process builds on what it sees, not on what is on stable storage, and there it can
      go wrong ([restart_can_lose_segments], [shown_put_can_be_lost]).  With no such power
      loss [database_restarts] covers it, and with restarts after a close or between calls
      [database_durability] covers both.
    - The tests and the build files. *)

From stdpp Require Import base tactics option numbers list strings sorting.
From Stdlib Require Import ZArith Lia Ascii Strings.Byte Permutation Sorted.

Open Scope Z_scope.

Declare Scope chrono_scope.
Delimit Scope chrono_scope with chrono.

(** ** Tactics *)

(** Case analysis on the scrutinee of a [match] of the goal or of a hypothesis. *)
Ltac case_match_goal :=
  match goal with
  | |- context [match ?x with _ => _ end] => destruct x eqn:?
  end.

Ltac case_match_in H :=
  match type of H with
  | context [match ?x with _ => _ end] => destruct x eqn:?
  end.

(** Turns the boolean comparisons of [Z] in the context into propositions. *)
Ltac bool_to_prop :=
  repeat match goal with
  | H : (_ <? _)%Z = true |- _ => apply Z.ltb_lt in H
  | H : (_ <? _)%Z = false |- _ => apply Z.ltb_ge in H
  | H : (_ <=? _)%Z = true |- _ => apply Z.leb_le in H
  | H : (_ <=? _)%Z = false |- _ => apply Z.leb_gt in H
  | H : (_ =? _)%Z = true |- _ => apply Z.eqb_eq in H
  | H : (_ =? _)%Z = false |- _ => apply Z.eqb_neq in H
  | H : negb _ = true |- _ => apply negb_true_iff in H
  | H : negb _ = false |- _ => apply negb_false_iff in H
  | H : (_ || _)%bool = false |- _ => apply orb_false_iff in H; destruct H
  | H : (_ && _)%bool = true |- _ => apply andb_true_iff in H; destruct H
  end.

(** ** Sizes and machine words *)

(** [std::size_t] sizes are compared with 64-bit quantities all over the code,
    so a size is a [Z]. *)
Definition size {A} (l : list A) : Z := Z.of_nat (length l).

Definition u8 (z : Z) : Z := z mod 2 ^ 8.
Definition u16 (z : Z) : Z := z mod 2 ^ 16.
Definition u32 (z : Z) : Z := z mod 2 ^ 32.
Definition u64 (z : Z) : Z := z mod 2 ^ 64.

(** [std::bit_cast<std::int64_t>] of a 64-bit pattern. *)
Definition i64 (z : Z) : Z := if z <? 2 ^ 63 then z else z - 2 ^ 64.

(** [std::numeric_limits<std::uint32_t>::max()] and its 64-bit counterpart. *)
Definition max_u32 : Z := 4294967295.
Definition max_u64 : Z := 18446744073709551615.

Definition in_u (w z : Z) : Prop := 0 <= z < 2 ^ w.
Definition in_i64 (z : Z) : Prop := - 2 ^ 63 <= z < 2 ^ 63.

#[global] Arguments Z.land : simpl never.
#[global] Arguments Z.lor : simpl never.
#[global] Arguments Z.lxor : simpl never.
#[global] Arguments Z.shiftl : simpl never.
#[global] Arguments Z.shiftr : simpl never.
#[global] Arguments Z.pow : simpl never.
#[global] Arguments Z.modulo : simpl never.
#[global] Arguments Z.div : simpl never.
#[global] Arguments u8 : simpl never.
#[global] Arguments u16 : simpl never.
#[global] Arguments u32 : simpl never.
#[global] Arguments u64 : simpl never.
#[global] Arguments i64 : simpl never.
#[global] Arguments size : simpl never.

(** Bytes: the code's [std::uint8_t] elements of a vector or span. *)
Abbreviation byte := (Byte.byte : Type).

Definition Z_of_byte (b : byte) : Z := Z.of_N (Byte.to_N b).
Definition byte_of_Z (z : Z) : byte :=
  match Byte.of_N (Z.to_N z) with Some b => b | None => Byte.x00 end.

(** [std::vector::operator[]] and [std::span::operator[]] below the size. *)
Definition byte_at (bytes : list byte) (i : Z) : Z :=
  Z_of_byte (nth (Z.to_nat i) bytes Byte.x00).

(** [std::span::first], [last] and [subspan] within bounds. *)
Definition first (n : Z) (bytes : list byte) : list byte := take (Z.to_nat n) bytes.
Definition last_bytes (n : Z) (bytes : list byte) : list byte :=
  drop (length bytes - Z.to_nat n) bytes.
Definition subspan (off n : Z) (bytes : list byte) : list byte :=
  take (Z.to_nat n) (drop (Z.to_nat off) bytes).

(** ** Three-way comparison ([operator<=>]) *)

Class Ord (A : Type) := {
  cmp : A -> A -> comparison;
  cmp_eq : forall x y, cmp x y = Eq <-> x = y;
  cmp_antisym : forall x y, cmp y x = CompOpp (cmp x y);
  cmp_lt_trans : forall x y z, cmp x y = Lt -> cmp y z = Lt -> cmp x z = Lt;
}.

#[global] Arguments cmp : simpl never.

Definition lt_of {A} `{Ord A} (x y : A) : Prop := cmp x y = Lt.
Definition ltb {A} `{Ord A} (x y : A) : bool :=
  match cmp x y with Lt => true | _ => false end.
Definition leb {A} `{Ord A} (x y : A) : bool :=
  match cmp x y with Gt => false | _ => true end.
Definition eqb {A} `{Ord A} (x y : A) : bool :=
  match cmp x y with Eq => true | _ => false end.

Infix "≺" := lt_of (at level 70) : chrono_scope.
Infix "≺?" := ltb (at level 70) : chrono_scope.
Infix "≼?" := leb (at level 70) : chrono_scope.
Infix "≡?" := eqb (at level 70) : chrono_scope.
Open Scope chrono_scope.

Fixpoint list_cmp {A} `{Ord A} (l1 l2 : list A) : comparison :=
  match l1, l2 with
  | [], [] => Eq
  | [], _ :: _ => Lt
  | _ :: _, [] => Gt
  | x :: l1', y :: l2' =>
    match cmp x y with Eq => list_cmp l1' l2' | Lt => Lt | Gt => Gt end
  end.

Fixpoint string_cmp (s1 s2 : string) : comparison :=
  match s1, s2 with
  | EmptyString, EmptyString => Eq
  | EmptyString, String _ _ => Lt
  | String _ _, EmptyString => Gt
  | String c1 s1', String c2 s2' =>
    match N.compare (N_of_ascii c1) (N_of_ascii c2) with
    | Eq => string_cmp s1' s2'
    | Lt => Lt
    | Gt => Gt
    end
  end.

Definition lex_cmp (c1 c2 : comparison) : comparison :=
  match c1 with Eq => c2 | Lt => Lt | Gt => Gt end.

(** [std::sort] on a totally ordered element type: the standard fixes the
    result (the ordered permutation), not the algorithm. *)
Fixpoint sort_insert {A} `{Ord A} (x : A) (l : list A) : list A :=
  match l with
  | [] => [x]
  | y :: l' => if x ≼? y then x :: l else y :: sort_insert x l'
  end.

Definition sort {A} `{Ord A} (l : list A) : list A := foldr sort_insert [] l.

(** [std::lower_bound]/[std::upper_bound] on a partitioned range return the
    partition point: the index of the first element where [p] fails. *)
Fixpoint partition_point {A} (p : A -> bool) (l : list A) : nat :=
  match l with
  | [] => O
  | x :: l' => if p x then S (partition_point p l') else O
  end.

(** * Lemmas *)

(** ** Sizes, words, bytes *)

Lemma size_nil {A} : size (@nil A) = 0.
Proof. reflexivity. Qed.
Lemma size_cons {A} (x : A) l : size (x :: l) = size l + 1.
Proof. unfold size. simpl. lia. Qed.
Lemma size_app {A} (l k : list A) : size (l ++ k) = size l + size k.
Proof. unfold size. rewrite length_app. lia. Qed.
Lemma size_nonneg {A} (l : list A) : 0 <= size l.
Proof. unfold size. lia. Qed.
Lemma size_take {A} n (l : list A) : 0 <= n <= size l -> size (take (Z.to_nat n) l) = n.
Proof. unfold size. intros. rewrite length_take. lia. Qed.
Lemma size_drop {A} n (l : list A) :
  0 <= n <= size l -> size (drop (Z.to_nat n) l) = size l - n.
Proof. unfold size. intros. rewrite length_drop. lia. Qed.
Lemma size_0_nil {A} (l : list A) : size l = 0 -> l = [].
Proof. destruct l; [done|]. rewrite size_cons. pose proof (size_nonneg l). lia. Qed.
Lemma to_nat_size {A} (l : list A) : Z.to_nat (size l) = length l.
Proof. unfold size. lia. Qed.

Create HintDb chrono.
Create Rewrite HintDb chrono_size.
#[export] Hint Rewrite @size_nil @size_cons @size_app : chrono_size.
#[export] Hint Resolve size_nonneg : chrono.

Lemma take_size_app {A} (l k : list A) n :
  n = size l -> take (Z.to_nat n) (l ++ k) = l.
Proof. intros ->. rewrite to_nat_size. by rewrite take_app_length. Qed.
Lemma drop_size_app {A} (l k : list A) n :
  n = size l -> drop (Z.to_nat n) (l ++ k) = k.
Proof. intros ->. rewrite to_nat_size. by rewrite drop_app_length. Qed.

(** ** Frames: a header, a payload, a checksum *)

Lemma first_add h n (bytes : list byte) :
  0 <= h -> 0 <= n -> first (h + n) bytes = first h bytes ++ subspan h n bytes.
Proof.
  intros. unfold first, subspan. rewrite take_take_drop. f_equal. lia.
Qed.

Lemma first_app h (x y : list byte) : h = size x -> first h (x ++ y) = x.
Proof. apply take_size_app. Qed.

Lemma subspan_app h n (x y : list byte) : h = size x -> subspan h n (x ++ y) = first n y.
Proof. intros. unfold subspan, first. by rewrite drop_size_app. Qed.

Lemma subspan_add o m n (bytes : list byte) :
  0 <= o -> 0 <= m -> 0 <= n -> subspan o (m + n) bytes = subspan o m bytes ++ subspan (o + m) n bytes.
Proof.
  intros. unfold subspan. rewrite !Z2Nat.inj_add by done.
  by rewrite <-drop_drop, take_take_drop.
Qed.

Lemma subspan_middle h n (x y z : list byte) :
  h = size x -> n = size y -> subspan h n (x ++ y ++ z) = y.
Proof. intros. rewrite subspan_app by done. by apply first_app. Qed.

(** Any bytes, cut where a frame of [n] payload bytes has its parts. *)
Lemma frame_cut h n (bytes : list byte) :
  0 <= h -> 0 <= n ->
  bytes = first h bytes ++ subspan h n bytes ++ subspan (h + n) 4 bytes ++
    drop (Z.to_nat (h + n + 4)) bytes.
Proof.
  intros. rewrite (app_assoc (first h bytes)), <-first_add by done.
  rewrite app_assoc, <-first_add by lia. symmetry. apply take_drop.
Qed.

Lemma size_subspan h n (bytes : list byte) :
  0 <= h -> 0 <= n -> h + n <= size bytes -> size (subspan h n bytes) = n.
Proof.
  intros. unfold subspan. apply size_take. rewrite size_drop by lia. lia.
Qed.

Lemma size_first h (bytes : list byte) : 0 <= h <= size bytes -> size (first h bytes) = h.
Proof. apply size_take. Qed.

Lemma last_bytes_drop n (bytes : list byte) :
  0 <= n <= size bytes -> last_bytes n bytes = drop (Z.to_nat (size bytes - n)) bytes.
Proof. intros. unfold last_bytes. f_equal. unfold size in *. lia. Qed.

(** The last bytes of a frame are its checksum. *)
Lemma last_bytes_app n (x y : list byte) : n = size y -> last_bytes n (x ++ y) = y.
Proof.
  intros ->. unfold last_bytes. rewrite to_nat_size, length_app.
  replace (length x + length y - length y)%nat with (length x) by lia. by apply drop_app_length.
Qed.

Lemma first_last n (bytes : list byte) :
  0 <= n <= size bytes -> bytes = first (size bytes - n) bytes ++ last_bytes n bytes.
Proof. intros. rewrite last_bytes_drop by done. symmetry. apply take_drop. Qed.

Lemma u8_small z : in_u 8 z -> u8 z = z.
Proof. apply Z.mod_small. Qed.
Lemma u16_small z : in_u 16 z -> u16 z = z.
Proof. apply Z.mod_small. Qed.
Lemma u32_small z : in_u 32 z -> u32 z = z.
Proof. apply Z.mod_small. Qed.
Lemma u64_small z : in_u 64 z -> u64 z = z.
Proof. apply Z.mod_small. Qed.
Lemma u32_range z : in_u 32 (u32 z).
Proof. apply Z.mod_pos_bound. lia. Qed.
Lemma u64_range z : in_u 64 (u64 z).
Proof. apply Z.mod_pos_bound. lia. Qed.
#[export] Hint Resolve u32_range u64_range : chrono.

Lemma i64_range z : in_u 64 z -> in_i64 (i64 z).
Proof. unfold in_u, in_i64, i64. intros. destruct (z <? 2 ^ 63) eqn:E; bool_to_prop; lia. Qed.

(** [bit_cast] there and back. *)
Lemma i64_u64 z : in_i64 z -> i64 (u64 z) = z.
Proof.
  unfold in_i64, i64, u64. intros Hz.
  destruct (decide (0 <= z)).
  - rewrite Z.mod_small by lia. destruct (z <? 2 ^ 63) eqn:E; bool_to_prop; lia.
  - replace (z mod 2 ^ 64) with (z + 2 ^ 64)
      by (apply (Z.mod_unique_pos _ _ (-1)); lia).
    destruct (z + 2 ^ 64 <? 2 ^ 63) eqn:E; bool_to_prop; lia.
Qed.

Lemma u64_i64 z : in_u 64 z -> u64 (i64 z) = z.
Proof.
  unfold in_u, i64, u64. intros Hz. destruct (z <? 2 ^ 63) eqn:E; bool_to_prop.
  - apply Z.mod_small; lia.
  - symmetry. apply (Z.mod_unique_pos _ _ (-1)); lia.
Qed.

Lemma Z_of_byte_range b : 0 <= Z_of_byte b < 256.
Proof. unfold Z_of_byte. pose proof (Byte.to_N_bounded b). lia. Qed.

Lemma byte_of_Z_of_byte b : byte_of_Z (Z_of_byte b) = b.
Proof. unfold byte_of_Z, Z_of_byte. by rewrite N2Z.id, Byte.of_to_N. Qed.

Lemma Z_of_byte_of_Z z : in_u 8 z -> Z_of_byte (byte_of_Z z) = z.
Proof.
  unfold in_u, byte_of_Z, Z_of_byte. intros Hz.
  pose proof (Byte.to_of_N_option_map (Z.to_N z)) as Hm.
  destruct (Byte.of_N (Z.to_N z)) as [b|] eqn:E; simpl in Hm.
  - apply Byte.to_of_N in E. rewrite E. lia.
  - assert ((Z.to_N z <=? 255)%N = true) as Hle by (apply N.leb_le; lia).
    by rewrite Hle in Hm.
Qed.

Lemma Z_of_byte_inj b1 b2 : Z_of_byte b1 = Z_of_byte b2 -> b1 = b2.
Proof.
  intros H. by rewrite <-(byte_of_Z_of_byte b1), <-(byte_of_Z_of_byte b2), H.
Qed.

Lemma ascii_of_byte_inj b1 b2 : ascii_of_byte b1 = ascii_of_byte b2 -> b1 = b2.
Proof.
  intros H. by rewrite <-(byte_of_ascii_of_byte b1), <-(byte_of_ascii_of_byte b2), H.
Qed.

Lemma string_length_app (s t : string) :
  String.length (s +:+ t) = (String.length s + String.length t)%nat.
Proof. induction s as [|c s IH]; [done|]. exact (f_equal S IH). Qed.

(** ** Orders *)

Section OrdFacts.
Context {A : Type} `{Ord A}.
Implicit Types x y z : A.

Lemma cmp_refl x : cmp x x = Eq.
Proof. by apply cmp_eq. Qed.

Lemma cmp_gt_lt x y : cmp x y = Gt <-> y ≺ x.
Proof. unfold lt_of. rewrite (cmp_antisym x y). destruct (cmp x y); simpl; split; congruence. Qed.

Lemma lt_irrefl x : ~ x ≺ x.
Proof. unfold lt_of. by rewrite cmp_refl. Qed.

Lemma lt_trans x y z : x ≺ y -> y ≺ z -> x ≺ z.
Proof. apply cmp_lt_trans. Qed.

Lemma lt_asym x y : x ≺ y -> ~ y ≺ x.
Proof. intros H1 H2. eapply lt_irrefl, lt_trans; eauto. Qed.

Lemma lt_ne x y : x ≺ y -> x <> y.
Proof. intros Hlt ->. by eapply lt_irrefl. Qed.

(** Trichotomy in the shape proofs by case analysis use. *)
Lemma cmp_spec x y : CompareSpec (x = y) (x ≺ y) (y ≺ x) (cmp x y).
Proof.
  destruct (cmp x y) eqn:E; constructor; [by apply cmp_eq | done | by apply cmp_gt_lt].
Qed.

Lemma ltb_lt x y : (x ≺? y) = true <-> x ≺ y.
Proof. unfold ltb, lt_of. destruct (cmp x y); split; congruence. Qed.

Lemma ltb_ge x y : (x ≺? y) = false <-> y ≺ x \/ x = y.
Proof.
  unfold ltb. destruct (cmp_spec x y) as [->|Hl|Hl]; split; try congruence; auto.
  intros [Hr| ->]; exfalso; [by eapply lt_asym | by eapply lt_irrefl].
Qed.

Lemma leb_le x y : (x ≼? y) = true <-> x ≺ y \/ x = y.
Proof.
  unfold leb. destruct (cmp_spec x y) as [->|Hl|Hl]; split; try congruence; auto.
  intros [Hr| ->]; exfalso; [by eapply lt_asym | by eapply lt_irrefl].
Qed.

Lemma leb_gt x y : (x ≼? y) = false <-> y ≺ x.
Proof. unfold leb, lt_of. rewrite (cmp_antisym x y). destruct (cmp x y); simpl; split; congruence. Qed.

Lemma eqb_eq x y : (x ≡? y) = true <-> x = y.
Proof. unfold eqb. rewrite <-cmp_eq. destruct (cmp x y); split; congruence. Qed.

Lemma eqb_neq x y : (x ≡? y) = false <-> x <> y.
Proof. rewrite <-eqb_eq. destruct (x ≡? y); split; congruence. Qed.

Lemma eqb_refl x : (x ≡? x) = true.
Proof. by apply eqb_eq. Qed.

Lemma not_lt x y : ~ x ≺ y -> y ≺ x \/ x = y.
Proof. intros Hn. apply ltb_ge. destruct (x ≺? y) eqn:E; [|done]. by apply ltb_lt in E. Qed.

Lemma ltb_ge_not x y : (x ≺? y) = false <-> ~ x ≺ y.
Proof. rewrite <-ltb_lt. destruct (x ≺? y); split; congruence. Qed.

#[export] Instance lt_of_Transitive : Transitive (@lt_of A _).
Proof. intros x y z. apply lt_trans. Qed.
End OrdFacts.

Ltac ord_to_prop :=
  repeat match goal with
  | H : (_ ≺? _) = true |- _ => apply ltb_lt in H
  | H : (_ ≺? _) = false |- _ => apply ltb_ge in H
  | H : (_ ≼? _) = true |- _ => apply leb_le in H
  | H : (_ ≼? _) = false |- _ => apply leb_gt in H
  | H : (_ ≡? _) = true |- _ => apply eqb_eq in H
  | H : (_ ≡? _) = false |- _ => apply eqb_neq in H
  end.

Lemma lex_cmp_antisym c1 c2 :
  lex_cmp (CompOpp c1) (CompOpp c2) = CompOpp (lex_cmp c1 c2).
Proof. by destruct c1. Qed.

(** Lexicographic composition of two comparisons (members compared in order by
    a defaulted [operator<=>]). *)
Lemma lex_lt_trans {A B} `{Ord A} (x1 x2 x3 : A) (f : B -> B -> comparison) y1 y2 y3 :
  (f y1 y2 = Lt -> f y2 y3 = Lt -> f y1 y3 = Lt) ->
  lex_cmp (cmp x1 x2) (f y1 y2) = Lt ->
  lex_cmp (cmp x2 x3) (f y2 y3) = Lt ->
  lex_cmp (cmp x1 x3) (f y1 y3) = Lt.
Proof.
  intros Hf. unfold lex_cmp.
  destruct (cmp_spec x1 x2) as [->|H12|H12]; destruct (cmp_spec x2 x3) as [->|H23|H23];
    try discriminate; intros H1 H2.
  - auto.
  - done.
  - unfold lt_of in *. by rewrite H12.
  - by rewrite (lt_trans _ _ _ H12 H23).
Qed.

#[export] Program Instance Z_Ord : Ord Z := {| cmp := Z.compare |}.
Next Obligation. apply Z.compare_eq_iff. Qed.
Next Obligation. intros. apply Z.compare_antisym. Qed.
Next Obligation. intros x y z. rewrite !Z.compare_lt_iff. lia. Qed.

#[export] Program Instance N_Ord : Ord N := {| cmp := N.compare |}.
Next Obligation. apply N.compare_eq_iff. Qed.
Next Obligation. intros. apply N.compare_antisym. Qed.
Next Obligation. intros x y z. rewrite !N.compare_lt_iff. lia. Qed.

Lemma Z_lt_of (x y : Z) : x ≺ y <-> x < y.
Proof. apply Z.compare_lt_iff. Qed.

Lemma list_cmp_lex {A} `{Ord A} (x y : A) l k :
  list_cmp (x :: l) (y :: k) = lex_cmp (cmp x y) (list_cmp l k).
Proof. reflexivity. Qed.

#[export] Program Instance list_Ord {A} `{Ord A} : Ord (list A) := {| cmp := list_cmp |}.
Next Obligation.
  intros A H l. induction l as [|x l IH]; intros [|y k]; simpl; try (split; congruence).
  destruct (cmp_spec x y) as [->|Hl|Hl].
  - rewrite IH. split; congruence.
  - split; [done|]. intros [= -> _]. by apply lt_irrefl in Hl.
  - split; [done|]. intros [= -> _]. by apply lt_irrefl in Hl.
Qed.
Next Obligation.
  intros A H l. induction l as [|x l IH]; intros [|y k]; try done.
  rewrite !list_cmp_lex, IH, (cmp_antisym x y). apply lex_cmp_antisym.
Qed.
Next Obligation.
  intros A H l. induction l as [|x l IH]; intros [|y k] [|z m]; try done.
  rewrite !list_cmp_lex. apply lex_lt_trans, IH.
Qed.

Lemma string_cmp_lex a b s t :
  string_cmp (String a s) (String b t) =
  lex_cmp (cmp (N_of_ascii a) (N_of_ascii b)) (string_cmp s t).
Proof. done. Qed.

#[export] Program Instance string_Ord : Ord string := {| cmp := string_cmp |}.
Next Obligation.
  intros s. induction s as [|a s IH]; intros [|b t]; simpl; try (split; congruence).
  destruct (N.compare_spec (N_of_ascii a) (N_of_ascii b)) as [E|E|E].
  - rewrite IH. apply (f_equal ascii_of_N) in E. rewrite !ascii_N_embedding in E.
    split; congruence.
  - split; [done|]. intros [= -> _]. lia.
  - split; [done|]. intros [= -> _]. lia.
Qed.
Next Obligation.
  intros s. induction s as [|a s IH]; intros [|b t]; try done.
  rewrite !string_cmp_lex, IH, (cmp_antisym (N_of_ascii a)). apply lex_cmp_antisym.
Qed.
Next Obligation.
  intros s. induction s as [|a s IH]; intros [|b t] [|c u]; try done.
  rewrite !string_cmp_lex. apply lex_lt_trans, IH.
Qed.

(** ** Sorting *)

Section SortFacts.
Context {A : Type} `{Ord A}.
Implicit Types (x y : A) (l : list A).

Definition le_of x y : Prop := x ≺ y \/ x = y.

Lemma not_lt_le x y : le_of x y -> ~ y ≺ x.
Proof. intros [Hl| ->]; [by intros ?%lt_asym|apply lt_irrefl]. Qed.

Lemma lt_le_trans x y z : x ≺ y -> le_of y z -> x ≺ z.
Proof. by intros Hl [Hr| <-]; [eapply lt_trans|]. Qed.

Lemma le_lt_trans x y z : le_of x y -> y ≺ z -> x ≺ z.
Proof. by intros [Hl| ->] Hr; [eapply lt_trans|]. Qed.

Lemma le_of_trans x y z : le_of x y -> le_of y z -> le_of x z.
Proof. intros [H1| ->] [H2| ->]; unfold le_of; eauto using lt_trans. Qed.

Lemma sort_insert_perm x l : Permutation (sort_insert x l) (x :: l).
Proof.
  induction l as [|y l IH]; simpl; [done|]. destruct (x ≼? y); [done|].
  rewrite IH. apply perm_swap.
Qed.

Lemma sort_perm l : Permutation (sort l) l.
Proof.
  induction l as [|x l IH]; [done|]. cbn [sort foldr]. fold (sort l).
  by rewrite sort_insert_perm, IH.
Qed.

Lemma sort_insert_sorted x l :
  StronglySorted le_of l -> StronglySorted le_of (sort_insert x l).
Proof.
  induction 1 as [|y l Hs IH Hall]; simpl; [repeat constructor|].
  destruct (x ≼? y) eqn:E; ord_to_prop.
  - constructor; [by constructor|]. constructor; [done|].
    eapply Forall_impl; [exact Hall|]. intros z Hz. by eapply le_of_trans.
  - constructor; [done|]. apply Forall_forall. intros z Hz.
    rewrite list_elem_of_In, sort_insert_perm, <-list_elem_of_In in Hz.
    rewrite Forall_forall in Hall.
    apply elem_of_cons in Hz as [->|Hz]; [by left | by apply Hall].
Qed.

Lemma sort_sorted l : StronglySorted le_of (sort l).
Proof.
  induction l as [|x l IH]; [constructor|]. by apply sort_insert_sorted.
Qed.

(** The ordered permutation is unique, so [sort] is [std::sort]'s result. *)
Lemma sorted_perm_unique l k :
  StronglySorted le_of l -> StronglySorted le_of k -> Permutation l k -> l = k.
Proof.
  intros Hl. revert k. induction Hl as [|x l Hl IH Hx]; intros k Hk Hp.
  - by apply Permutation_nil in Hp.
  - destruct Hk as [|y k Hk Hy]; [by apply Permutation_sym, Permutation_nil in Hp|].
    rewrite Forall_forall in Hx, Hy.
    assert (x = y) as ->.
    { assert (x ∈ y :: k) as Hin1 by (rewrite <-Hp; by left).
      assert (y ∈ x :: l) as Hin2 by (rewrite Hp; by left).
      apply elem_of_cons in Hin1 as [->|Hin1]; [done|].
      apply elem_of_cons in Hin2 as [->|Hin2]; [done|].
      destruct (Hx y Hin2) as [H1| ->]; [|done].
      destruct (Hy x Hin1) as [H2| ->]; [|done].
      exfalso. by eapply lt_asym. }
    f_equal. apply IH; [done|]. by eapply Permutation_cons_inv.
Qed.

Lemma sort_perm_eq l k : Permutation l k -> sort l = sort k.
Proof.
  intros Hp. apply sorted_perm_unique; [apply sort_sorted..|].
  by rewrite !sort_perm.
Qed.

Lemma sort_of_sorted l : StronglySorted le_of l -> sort l = l.
Proof. intros Hl. apply sorted_perm_unique; [apply sort_sorted | done | apply sort_perm]. Qed.

Lemma strongly_sorted_le l : StronglySorted lt_of l -> StronglySorted le_of l.
Proof.
  induction 1 as [|x l Hl IH Hx]; constructor; [done|].
  eapply Forall_impl; [exact Hx|]. by left.
Qed.
End SortFacts.

(** ** Partition points *)

Section PartitionFacts.
Context {A : Type} (p : A -> bool).

Lemma partition_point_le l : (partition_point p l <= length l)%nat.
Proof. induction l; simpl; [lia|]. destruct (p a); lia. Qed.

Lemma partition_point_take l : Forall (fun x => p x = true) (take (partition_point p l) l).
Proof.
  induction l as [|x l IH]; simpl; [constructor|].
  destruct (p x) eqn:E; simpl; [by constructor | constructor].
Qed.

(** On a range where [p] never holds again after failing, the suffix from the
    partition point is exactly where [p] fails. *)
Lemma partition_point_drop l :
  (forall l1 x l2, l = l1 ++ x :: l2 -> p x = false -> Forall (fun y => p y = false) l2) ->
  Forall (fun x => p x = false) (drop (partition_point p l) l).
Proof.
  induction l as [|x l IH]; intros Hmono; simpl; [constructor|].
  destruct (p x) eqn:E; simpl.
  - apply IH. intros l1 y l2 ->. apply (Hmono (x :: l1)). done.
  - constructor; [done|]. by apply (Hmono [] x l).
Qed.
End PartitionFacts.
