(* ===== verification/Errors.v ===== *)
(** * Exceptions and the computations that can throw them

    The C++ code reports failures with exceptions.  [exn] has one constructor
    per exception class the sources throw or catch, with the [what()] text (the
    operating-system suffix and the file name that some messages append are left
    out).  [result] is a pure computation that may throw; [outcome] is the end of
    a computation that also runs system calls, which a power loss may cut short. *)

From stdpp Require Import base tactics option numbers list strings.
From Stdlib Require Import ZArith Lia.
From S2P Require Import Prelude.

(** [enum class WalDecodeError] (wal_record.hpp). *)
Module WalDecodeError.
Inductive t :=
| none
| incomplete_record
| invalid_magic
| unsupported_version
| unsupported_record_type
| invalid_length
| checksum_mismatch
| invalid_payload.

#[global] Instance t_eq_dec : EqDecision t.
Proof. solve_decision. Defined.
End WalDecodeError.

Inductive exn :=
| invalid_argument (what : string)
| length_error (what : string)
| overflow_error (what : string)
| logic_error (what : string)
| runtime_error (what : string)
| system_error (code : Z) (what : string)
| ManifestFormatError (what : string)
| SegmentFormatError (what : string)
| WalFormatError (offset : Z) (decode_error : WalDecodeError.t)
| DatabaseBusyError (what : string)
| DatabaseCorruptionError (what : string).

#[export] Instance exn_eq_dec : EqDecision exn.
Proof. intros x y. unfold Decision. decide equality; first [apply String.eq_dec | apply Z.eq_dec | apply WalDecodeError.t_eq_dec]. Defined.

(** What a loop with a bound on its turns ends with when it exceeds the bound.
    The loops' theorems show that none of them does. *)
Definition out_of_fuel : exn := logic_error "loop bound exceeded".

(** A pure computation that returns or throws. *)
Inductive result (A : Type) :=
| Ok (a : A)
| Err (e : exn).
Arguments Ok {A} a.
Arguments Err {A} e.

#[export] Instance result_ret : MRet result := fun A => Ok.
#[export] Instance result_bind : MBind result := fun A B f m =>
  match m with Ok a => f a | Err e => Err e end.
#[export] Instance result_fmap : FMap result := fun A B f m =>
  match m with Ok a => Ok (f a) | Err e => Err e end.

(** [if (condition) { throw e; }] *)
Definition throw_if (condition : bool) (e : exn) : result unit :=
  if condition then Err e else Ok tt.

Definition is_ok {A} (r : result A) : bool :=
  match r with Ok _ => true | Err _ => false end.

(** A loop over the elements of a vector whose body may throw. *)
Fixpoint result_foldl {A B} (f : A -> B -> result A) (a : A) (l : list B) : result A :=
  match l with
  | [] => Ok a
  | x :: l' => a' ← f a x; result_foldl f a' l'
  end.

Fixpoint result_map {A B} (f : A -> result B) (l : list A) : result (list B) :=
  match l with
  | [] => Ok []
  | x :: l' => y ← f x; ys ← result_map f l'; Ok (y :: ys)
  end.

(** ** Lemmas *)

Lemma bind_Ok {A B} (f : A -> result B) m b :
  m ≫= f = Ok b <-> exists a, m = Ok a /\ f a = Ok b.
Proof.
  destruct m as [a|e]; simpl; split.
  - intros H. by exists a.
  - by intros (a' & [= ->] & H).
  - done.
  - by intros (a' & [=] & _).
Qed.

Lemma throw_if_Ok c e u : throw_if c e = Ok u <-> c = false.
Proof. destruct c, u; simpl; split; congruence. Qed.

(** Splits a successful [result] computation into its successful steps. *)
Ltac result_inv :=
  repeat match goal with
  | H : _ ≫= _ = Ok _ |- _ =>
      let a := fresh "a" in let Ha := fresh "Ha" in
      apply bind_Ok in H; destruct H as (a & Ha & H)
  | H : throw_if _ _ = Ok _ |- _ => apply throw_if_Ok in H
  | H : Ok _ = Ok _ |- _ => injection H as H
  | H : Err _ = Ok _ |- _ => discriminate H
  | H : mret _ = Ok _ |- _ => unfold mret, result_ret in H
  | u : unit |- _ => destruct u
  end.

Lemma result_foldl_app {A B} (f : A -> B -> result A) a l k :
  result_foldl f a (l ++ k) = a' ← result_foldl f a l; result_foldl f a' k.
Proof.
  revert a. induction l as [|x l IH]; intros a; simpl; [done|].
  destruct (f a x); simpl; [apply IH | done].
Qed.

Lemma result_map_Ok {A B} (f : A -> result B) l ys :
  result_map f l = Ok ys <-> Forall2 (fun x y => f x = Ok y) l ys.
Proof.
  revert ys. induction l as [|x l IH]; intros ys; simpl; split; intros H.
  - injection H as <-. constructor.
  - by inversion H.
  - result_inv. subst. constructor; [done|]. by apply IH.
  - inversion H as [|? y ? ys' Hx Hl]; subst. rewrite Hx. simpl.
    apply IH in Hl. by rewrite Hl.
Qed.
