(* ===== verification/World.v ===== *)
(** * System calls and the file system

    The sources call the operating system through POSIX functions
    ([open], [write], [fsync], [ftruncate], [lseek], [flock]) and through the
    standard library ([std::filesystem], [std::ifstream], [std::ofstream]).  This
    file models what they use of them:

    - a file system maps a path to an inode and an inode to its bytes; both keep
      the history of their values since the last synchronization, because a power
      loss may bring back any of them ([crash]);
    - every call consumes one [sys_outcome] of the world's [script], so a script
      is one behaviour of the operating system: short writes, interrupted calls,
      failures, and the loss of power inside a call.  An exhausted script lets
      every further call succeed;
    - [M S A] is the monad of computations on a state [S] that return, throw or
      lose power. *)

From stdpp Require Import base tactics option numbers list strings gmap.
From Stdlib Require Import ZArith Lia Ascii.
From S2P Require Import Prelude Errors.

(** ** Paths: a directory and a leaf name in it *)

Record path := Path { parent_path : string; filename : string }.

#[export] Instance path_eq_dec : EqDecision path.
Proof. solve_decision. Defined.
#[export] Instance path_countable : Countable path :=
  inj_countable' (fun p => (parent_path p, filename p))
    (fun p => Path p.1 p.2) ltac:(by intros []).

(** [temporary += ".tmp"] *)
Definition path_append (p : path) (suffix : string) : path :=
  Path (parent_path p) (filename p +:+ suffix).

(** The part of a leaf name from its last dot on. *)
Fixpoint last_dot (s : string) : option string :=
  match s with
  | EmptyString => None
  | String c s' =>
    match last_dot s' with
    | Some e => Some e
    | None => if Ascii.eqb c "."%char then Some s else None
    end
  end.

(** [std::filesystem::path::extension] of a leaf name: a leading dot does not
    start an extension, and [.] and [..] have none. *)
Definition extension (leaf : string) : string :=
  match leaf with
  | EmptyString => EmptyString
  | String _ rest =>
    if decide (leaf = "..") then EmptyString
    else default EmptyString (last_dot rest)
  end.

(** [std::string::starts_with] *)
Fixpoint starts_with (prefix s : string) : bool :=
  match prefix, s with
  | EmptyString, _ => true
  | String a p', String b s' => Ascii.eqb a b && starts_with p' s'
  | String _ _, EmptyString => false
  end.

(** ** Values with a history *)

(** [now] is the current value, [before] the earlier values a power loss may
    restore. *)
Record hist (A : Type) := Hist { now : A; before : list A }.
Arguments Hist {A} now before.
Arguments now {A} h.
Arguments before {A} h.

Definition settled {A} (v : A) : hist A := Hist v [].
Definition push {A} (v : A) (h : hist A) : hist A := Hist v (now h :: before h).
Definition settle {A} (h : hist A) : hist A := settled (now h).
Definition possible {A} (h : hist A) : list A := now h :: before h.

(** Bytes reach the end of a file one after the other: every prefix of an
    append is a value the file had. *)
Definition append_hist (h : hist (list byte)) (bytes : list byte) : hist (list byte) :=
  foldl (fun h b => push (now h ++ [b]) h) h bytes.

(** ** The file system *)

Record fsys := Fsys {
  entries : gmap path (hist (option nat));
  inodes : gmap nat (hist (list byte));
  next_inode : nat;
  locks : gset nat;                     (* inodes that are [flock]ed *)
  places : gmap string bool;            (* existing places; [true] for a directory *)
}.

Definition entry (fs : fsys) (p : path) : hist (option nat) :=
  default (settled None) (entries fs !! p).
Definition inode (fs : fsys) (i : nat) : hist (list byte) :=
  default (settled []) (inodes fs !! i).

Definition set_entry (p : path) (e : hist (option nat)) (fs : fsys) : fsys :=
  Fsys (<[p := e]> (entries fs)) (inodes fs) (next_inode fs) (locks fs) (places fs).
Definition set_inode (i : nat) (h : hist (list byte)) (fs : fsys) : fsys :=
  Fsys (entries fs) (<[i := h]> (inodes fs)) (next_inode fs) (locks fs) (places fs).

(** The bytes a reader of the path finds. *)
Definition file_of (fs : fsys) (p : path) : option (list byte) :=
  match now (entry fs p) with
  | Some i => Some (now (inode fs i))
  | None => None
  end.

(** A power loss picks one possible value per name and per inode. *)
Definition crash_pick (pick_entry : path -> nat) (pick_inode : nat -> nat) (fs : fsys) : fsys :=
  Fsys (map_imap (fun p h => Some (settled
          (default (now h) (possible h !! pick_entry p)))) (entries fs))
       (map_imap (fun i h => Some (settled
          (default (now h) (possible h !! pick_inode i)))) (inodes fs))
       (next_inode fs) ∅ (places fs).

Definition crash (fs fs' : fsys) : Prop :=
  exists pick_entry pick_inode, fs' = crash_pick pick_entry pick_inode fs.

(** ** The world and the monad *)

Inductive sys_outcome :=
| Succeeds
| Short (n : nat)      (* [write] transfers at most [n] bytes, at least one *)
| ZeroBytes            (* [write] returns 0 *)
| Fails (error_number : Z)
| PowerLoss.

Record world := World { fs : fsys; script : list sys_outcome }.

Inductive outcome (A : Type) :=
| Done (a : A)
| Raised (e : exn)
| Crashed.
Arguments Done {A} a.
Arguments Raised {A} e.
Arguments Crashed {A}.

Definition M (S A : Type) : Type := S -> outcome A * S.

#[export] Instance M_ret S : MRet (M S) := fun A a s => (Done a, s).
#[export] Instance M_bind S : MBind (M S) := fun A B f m s =>
  match m s with
  | (Done a, s') => f a s'
  | (Raised e, s') => (Raised e, s')
  | (Crashed, s') => (Crashed, s')
  end.

Definition throw {S A} (e : exn) : M S A := fun s => (Raised e, s).
Definition lift {S A} (r : result A) : M S A := fun s =>
  match r with Ok a => (Done a, s) | Err e => (Raised e, s) end.
Definition get {S} : M S S := fun s => (Done s, s).
Definition modify {S} (f : S -> S) : M S unit := fun s => (Done tt, f s).

(** [if (condition) { throw e; }] *)
Definition throw_when {S} (condition : bool) (e : exn) : M S unit :=
  if condition then throw e else mret tt.

(** [try { m } catch (...) { handler; throw; }]: a power loss is not caught. *)
Definition on_exception {S A} (m : M S A) (handler : M S unit) : M S A := fun s =>
  match m s with
  | (Raised e, s') =>
    match handler s' with
    | (Done _, s'') => (Raised e, s'')
    | (Raised e', s'') => (Raised e', s'')
    | (Crashed, s'') => (Crashed, s'')
    end
  | r => r
  end.

(** Runs a computation on a part of the state. *)
Definition zoom {S T A} (view : S -> T) (update : T -> S -> S) (m : M T A) : M S A := fun s =>
  let '(r, t) := m (view s) in (r, update t s).

(** ** System calls *)

Definition EINTR : Z := 4.
Definition EAGAIN : Z := 11.
Definition EIO : Z := 5.
Definition ENOENT : Z := 2.

(** What a call returns: a value, or [-1] with [errno]. *)
Inductive sysret (A : Type) :=
| SysOk (a : A)
| SysErr (error_number : Z).
Arguments SysOk {A} a.
Arguments SysErr {A} error_number.

Definition next_outcome : M world sys_outcome := fun w =>
  match script w with
  | [] => (Done Succeeds, w)
  | o :: rest => (Done o, World (fs w) rest)
  end.

Definition modify_fs (f : fsys -> fsys) : M world unit :=
  modify (fun w => World (f (fs w)) (script w)).
Definition read_fs {A} (f : fsys -> A) : M world A := fun w => (Done (f (fs w)), w).
Definition lose_power {A} : M world A := fun w => (Crashed, w).

(** A call that changes the file system.  The change is recorded in the
    histories before a power loss, which may or may not keep it. *)
Definition sys_change {A} (f : fsys -> sysret A * fsys) : M world (sysret A) :=
  o ← next_outcome;
  match o with
  | Fails e => mret (SysErr e)
  | PowerLoss => modify_fs (fun fs => (f fs).2);; lose_power
  | _ => r ← read_fs (fun fs => (f fs).1); modify_fs (fun fs => (f fs).2);; mret r
  end.

(** A call that makes earlier changes permanent: only when it succeeds. *)
Definition sys_settle (f : fsys -> fsys) : M world (sysret unit) :=
  o ← next_outcome;
  match o with
  | Fails e => mret (SysErr e)
  | PowerLoss => lose_power
  | _ => modify_fs f;; mret (SysOk tt)
  end.

Definition sys_query {A} (f : fsys -> sysret A) : M world (sysret A) :=
  o ← next_outcome;
  match o with
  | Fails e => mret (SysErr e)
  | PowerLoss => lose_power
  | _ => read_fs f
  end.

(** [open(path, O_CREAT | ...)]: the descriptor is the inode opened. *)
Definition create_if_missing (p : path) (fs : fsys) : sysret nat * fsys :=
  match now (entry fs p) with
  | Some i => (SysOk i, fs)
  | None =>
    let i := next_inode fs in
    (SysOk i, Fsys (<[p := push (Some i) (entry fs p)]> (entries fs))
                   (<[i := settled []]> (inodes fs)) (S i) (locks fs) (places fs))
  end.

Definition sys_open_create (p : path) : M world (sysret nat) :=
  sys_change (create_if_missing p).

(** [open(path, O_CREAT | O_TRUNC | ...)] *)
Definition sys_open_truncate (p : path) : M world (sysret nat) :=
  sys_change (fun fs =>
    match create_if_missing p fs with
    | (SysOk i, fs) => (SysOk i, set_inode i (push [] (inode fs i)) fs)
    | r => r
    end).

(** [write(fd, bytes, n)] on a descriptor opened with [O_APPEND]: the number of
    bytes taken.  A power loss leaves some prefix. *)
Definition append_inode (i : nat) (bytes : list byte) (fs : fsys) : fsys :=
  set_inode i (append_hist (inode fs i) bytes) fs.

Definition sys_write (i : nat) (bytes : list byte) : M world (sysret nat) :=
  o ← next_outcome;
  match o with
  | Fails e => mret (SysErr e)
  | ZeroBytes => mret (SysOk 0%nat)
  | Short n =>
    let n := Nat.min (Nat.max 1 n) (length bytes) in
    modify_fs (append_inode i (take n bytes));; mret (SysOk n)
  | Succeeds => modify_fs (append_inode i bytes);; mret (SysOk (length bytes))
  | PowerLoss => modify_fs (append_inode i bytes);; lose_power
  end.

Definition sys_fsync (i : nat) : M world (sysret unit) :=
  sys_settle (fun fs => set_inode i (settle (inode fs i)) fs).

(** [fsync] of a directory: the names in it become permanent.  A name without a
    directory is in the working directory. *)
Definition directory_of (p : path) : string :=
  if decide (parent_path p = EmptyString) then "." else parent_path p.
Definition settle_directory (directory : string) (fs : fsys) : fsys :=
  Fsys (map_imap (fun p h => Some (if decide (directory_of p = directory) then settle h else h))
         (entries fs))
       (inodes fs) (next_inode fs) (locks fs) (places fs).
Definition sys_fsync_directory (directory : string) : M world (sysret unit) :=
  sys_settle (settle_directory directory).

Definition sys_ftruncate (i : nat) (n : nat) : M world (sysret unit) :=
  sys_change (fun fs => (SysOk tt, set_inode i (push (take n (now (inode fs i))) (inode fs i)) fs)).

Definition sys_lseek_end (i : nat) : M world (sysret Z) :=
  sys_query (fun fs => SysOk (size (now (inode fs i)))).

(** [std::filesystem::exists], [file_size], [resize_file], [rename], [remove]. *)
Definition sys_exists (p : path) : M world (sysret bool) :=
  sys_query (fun fs => SysOk (bool_decide (is_Some (now (entry fs p))))).

Definition sys_file_size (p : path) : M world (sysret Z) :=
  sys_query (fun fs => match file_of fs p with Some b => SysOk (size b) | None => SysErr ENOENT end).

Definition sys_resize_file (p : path) (n : Z) : M world (sysret unit) :=
  sys_change (fun fs =>
    match now (entry fs p) with
    | Some i =>
      let old := now (inode fs i) in
      let resized := take (Z.to_nat n) old ++ replicate (Z.to_nat n - length old) Byte.x00 in
      (SysOk tt, set_inode i (push resized (inode fs i)) fs)
    | None => (SysErr ENOENT, fs)
    end).

Definition sys_rename (from to : path) : M world (sysret unit) :=
  sys_change (fun fs =>
    match now (entry fs from) with
    | Some i =>
      (SysOk tt, set_entry from (push None (entry fs from))
                   (set_entry to (push (Some i) (entry fs to)) fs))
    | None => (SysErr ENOENT, fs)
    end).

Definition sys_remove (p : path) : M world (sysret bool) :=
  sys_change (fun fs =>
    match now (entry fs p) with
    | Some _ => (SysOk true, set_entry p (push None (entry fs p)) fs)
    | None => (SysOk false, fs)
    end).

(** [std::filesystem::directory_iterator]: the names present, in some order. *)
Definition names_in (directory : string) (fs : fsys) : list path :=
  filter (fun p => parent_path p = directory /\ is_Some (now (entry fs p)))
    (map_to_list (entries fs)).*1.
Definition sys_list_directory (directory : string) : M world (sysret (list path)) :=
  sys_query (fun fs => SysOk (names_in directory fs)).

(** [open(path, flags)] of an existing file, for [fsync] or for reading. *)
Definition sys_open (p : path) : M world (sysret nat) :=
  sys_query (fun fs => match now (entry fs p) with Some i => SysOk i | None => SysErr ENOENT end).

(** [open] of a directory, for its [fsync]. *)
Definition sys_open_directory (directory : string) : M world (sysret unit) :=
  sys_query (fun _ => SysOk tt).

(** [std::filesystem::exists], [create_directories] and [is_directory] of the
    place a database is opened at. *)
Definition sys_place_exists (place : string) : M world (sysret bool) :=
  sys_query (fun fs => SysOk (bool_decide (is_Some (places fs !! place)))).
Definition sys_create_directories (place : string) : M world (sysret unit) :=
  sys_change (fun fs => (SysOk tt,
    Fsys (entries fs) (inodes fs) (next_inode fs) (locks fs) (<[place := true]> (places fs)))).
Definition sys_is_directory (place : string) : M world (sysret bool) :=
  sys_query (fun fs => SysOk (default false (places fs !! place))).

(** Reading [count] bytes at [offset]: fewer at the end of the file. *)
Definition sys_read (i : nat) (offset count : Z) : M world (sysret (list byte)) :=
  sys_query (fun fs => SysOk (subspan offset count (now (inode fs i)))).

(** [close(fd)] *)
Definition sys_close : M world (sysret unit) := sys_query (fun _ => SysOk tt).

(** [lseek(fd, offset, SEEK_SET)]: a position past the end is no error. *)
Definition sys_lseek (i : nat) : M world (sysret unit) := sys_query (fun _ => SysOk tt).

(** [std::ofstream]: whether the stream is still good after a [write] and after
    the [flush] and [close].  A write the system cuts short leaves it bad. *)
Definition stream_write (i : nat) (bytes : list byte) : M world bool :=
  written ← sys_write i bytes;
  mret (match written with SysOk n => bool_decide (n = length bytes) | SysErr _ => false end).
Definition stream_close : M world bool :=
  closed ← sys_close;
  mret (match closed with SysOk _ => true | SysErr _ => false end).

(** [flock(fd, LOCK_EX | LOCK_NB)] and [flock(fd, LOCK_UN)]: a lock excludes every
    other open of the file, in this process and in others. *)
Definition set_locks (l : gset nat) (fs : fsys) : fsys :=
  Fsys (entries fs) (inodes fs) (next_inode fs) l (places fs).
Definition sys_flock (i : nat) : M world (sysret unit) :=
  sys_change (fun fs =>
    if decide (i ∈ locks fs) then (SysErr EAGAIN, fs)
    else (SysOk tt, set_locks ({[i]} ∪ locks fs) fs)).
Definition sys_unlock (i : nat) : M world (sysret unit) :=
  sys_change (fun fs => (SysOk tt, set_locks (locks fs ∖ {[i]}) fs)).

(** ** Objects next to the world *)

(** A member function runs on the world and its object. *)
Definition in_world {T A} (m : M world A) : M (world * T) A :=
  zoom fst (fun w s => (w, s.2)) m.
Definition this {T} : M (world * T) T := fun s => (Done s.2, s).
Definition set_this {T} (f : T -> T) : M (world * T) unit := modify (fun s => (s.1, f s.2)).

(** A member function of a local object, dropped at the end of its scope. *)
Definition with_object {T A} (object : T) (m : M (world * T) A) : M world A := fun w =>
  let '(o, s) := m (w, object) in (o, s.1).

(** [do { r = call(); } while (r < 0 && errno == EINTR);]: an interrupted call
    uses up one outcome of the script, so the script's length bounds the turns
    ([retry_interrupted_loop] below). *)
Fixpoint retry_loop {A} (fuel : nat) (call : M world (sysret A)) : M world (sysret A) :=
  r ← call;
  match r, fuel with
  | SysErr e, S fuel => if e =? EINTR then retry_loop fuel call else mret r
  | _, _ => mret r
  end.
Definition retry_interrupted {A} (call : M world (sysret A)) : M world (sysret A) :=
  fun w => retry_loop (length (script w)) call w.

(** * Lemmas *)

Lemma M_bind_Done {S A B} (m : M S A) (f : A -> M S B) s b s' :
  (m ≫= f) s = (Done b, s') <-> exists a s1, m s = (Done a, s1) /\ f a s1 = (Done b, s').
Proof.
  unfold mbind, M_bind. destruct (m s) as [[a|e|] s1]; split.
  - eauto.
  - by intros (? & ? & [= <- <-] & ?).
  - done.
  - by intros (? & ? & [=] & _).
  - done.
  - by intros (? & ? & [=] & _).
Qed.

(** [one_call call]: every run of [call] uses exactly one outcome of the script. *)
Definition one_call {A} (call : M world (sysret A)) : Prop :=
  forall w, script (call w).2 = tail (script w) /\
    (script w = [] -> exists r w', call w = (Done r, w') /\ r <> SysErr EINTR).

(** The bound is never what ends the loop. *)
Lemma retry_interrupted_loop {A} (call : M world (sysret A)) w :
  one_call call ->
  retry_interrupted call w =
  (r ← call;
   match r with
   | SysErr e => if e =? EINTR then retry_interrupted call else mret r
   | _ => mret r
   end) w.
Proof.
  intros Hone. unfold retry_interrupted. destruct (Hone w) as [Hs Hempty].
  destruct (script w) as [|o rest] eqn:Hw; cbn [length retry_loop].
  - destruct (Hempty eq_refl) as (r & w' & Hc & Hr). unfold mbind, M_bind. rewrite Hc.
    destruct r as [a|e]; [done|]. destruct (e =? EINTR) eqn:E; bool_to_prop; [by subst|done].
  - unfold mbind, M_bind. destruct (call w) as [[r|e|] w'] eqn:Hc; [|done..].
    simpl in Hs. destruct r as [a|e]; [done|]. destruct (e =? EINTR); [|done]. by rewrite Hs.
Qed.
