(* ===== verification/Hoare.v ===== *)
(** * Reasoning about computations on the world

    [wp m s Q]: run from [s], [m] ends in an outcome and a state that satisfy
    [Q].  The rules of the system calls quantify over everything the operating
    system may answer, so a [wp] fact holds for every script; [faulty] records
    that an answer came from the script, so that the same fact says what happens
    when nothing fails.  The last part states what a power loss can leave of a
    file. *)

From stdpp Require Import base tactics option numbers list strings gmap.
From Stdlib Require Import ZArith Lia.
From S2P Require Import Prelude Errors World.

Definition wp {S A} (m : M S A) (s : S) (Q : outcome A -> S -> Prop) : Prop :=
  Q (m s).1 (m s).2.

(** The postcondition of the first half of a sequence. *)
Definition and_then {S A B} (f : A -> M S B) (Q : outcome B -> S -> Prop) :
    outcome A -> S -> Prop := fun o s =>
  match o with
  | Done a => wp (f a) s Q
  | Raised e => Q (Raised e) s
  | Crashed => Q Crashed s
  end.

(** The script still had something to say. *)
Definition faulty (w : world) : Prop := script w <> [].

Section Rules.
Context {S : Type}.

Lemma wp_mono {A} (m : M S A) s (P Q : outcome A -> S -> Prop) :
  wp m s P -> (forall o s', P o s' -> Q o s') -> wp m s Q.
Proof. unfold wp. auto. Qed.

Lemma wp_bind {A B} (m : M S A) (f : A -> M S B) s Q :
  wp (m ≫= f) s Q <-> wp m s (and_then f Q).
Proof. unfold wp, mbind, M_bind. by destruct (m s) as [[a|e|] s']. Qed.

Lemma wp_ret {A} (a : A) s (Q : outcome A -> S -> Prop) : wp (mret a) s Q <-> Q (Done a) s.
Proof. done. Qed.

Lemma wp_throw {A} e s (Q : outcome A -> S -> Prop) : wp (throw e) s Q <-> Q (Raised e) s.
Proof. done. Qed.

Lemma wp_throw_when c e s (Q : outcome unit -> S -> Prop) :
  (c = true -> Q (Raised e) s) -> (c = false -> Q (Done tt) s) -> wp (throw_when c e) s Q.
Proof. unfold wp. destruct c; simpl; auto. Qed.

Lemma wp_throw_when_false e s (Q : outcome unit -> S -> Prop) :
  wp (throw_when false e) s Q <-> Q (Done tt) s.
Proof. done. Qed.

Lemma wp_lift {A} (r : result A) s (Q : outcome A -> S -> Prop) :
  (forall a, r = Ok a -> Q (Done a) s) -> (forall e, r = Err e -> Q (Raised e) s) ->
  wp (lift r) s Q.
Proof. unfold wp, lift. destruct r; simpl; auto. Qed.

Lemma wp_on_exception {A} (m : M S A) h s Q :
  wp m s (fun o s' =>
    match o with
    | Raised e => wp h s' (and_then (fun _ => throw e) Q)
    | _ => Q o s'
    end) ->
  wp (on_exception m h) s Q.
Proof.
  unfold wp, on_exception. destruct (m s) as [[a|e|] s']; simpl; [done| |done].
  by destruct (h s') as [[u|e'|] s''].
Qed.
End Rules.

Lemma wp_in_world {T A} (m : M world A) (s : world * T) Q :
  wp m s.1 (fun o w => Q o (w, s.2)) -> wp (in_world m) s Q.
Proof. unfold wp, in_world, zoom. simpl. by destruct (m s.1) as [o w]. Qed.

(** One step of a sequence in a goal [wp (m ≫= f) s Q], and the reduction of the
    postcondition a step leaves behind. *)
Ltac wp_step := rewrite wp_bind.
Ltac wp_go :=
  cbn [and_then];
  repeat (first [rewrite wp_ret | rewrite wp_throw]; cbn [and_then]).

(** ** System calls *)

Lemma wp_next_outcome w Q :
  (forall o w1, fs w1 = fs w -> (faulty w1 -> faulty w) -> (o = Succeeds \/ faulty w) ->
     Q (Done o) w1) ->
  wp next_outcome w Q.
Proof.
  intros H. unfold wp, next_outcome, faulty in *. destruct w as [f [|o sc]]; simpl in *; apply H; auto.
Qed.

Lemma wp_sys_change {A} (f : fsys -> sysret A * fsys) w Q :
  (forall w1, fs w1 = (f (fs w)).2 -> (faulty w1 -> faulty w) -> Q (Done (f (fs w)).1) w1) ->
  (forall e w1, fs w1 = fs w -> faulty w -> Q (Done (SysErr e)) w1) ->
  (forall w1, fs w1 = (f (fs w)).2 -> faulty w -> Q Crashed w1) ->
  wp (sys_change f) w Q.
Proof.
  intros H1 H2 H3. unfold sys_change. wp_step. apply wp_next_outcome.
  intros o w1 Hfs Hf Ho. unfold and_then, wp.
  destruct o; simpl; unfold read_fs, modify_fs, modify, mbind, M_bind; simpl; rewrite ?Hfs;
    try (by apply H1; [done|exact Hf]).
  - by destruct Ho as [|Ho]; [done|apply H2].
  - by destruct Ho as [|Ho]; [done|apply H3].
Qed.

Lemma wp_sys_settle f w Q :
  (forall w1, fs w1 = f (fs w) -> (faulty w1 -> faulty w) -> Q (Done (SysOk tt)) w1) ->
  (forall e w1, fs w1 = fs w -> faulty w -> Q (Done (SysErr e)) w1) ->
  (forall w1, fs w1 = fs w -> faulty w -> Q Crashed w1) ->
  wp (sys_settle f) w Q.
Proof.
  intros H1 H2 H3. unfold sys_settle. wp_step. apply wp_next_outcome.
  intros o w1 Hfs Hf Ho. unfold and_then, wp.
  destruct o; simpl; unfold modify_fs, modify, mbind, M_bind; simpl;
    try (by apply H1; [simpl; rewrite Hfs|exact Hf]).
  - by destruct Ho as [|Ho]; [done|apply H2].
  - by destruct Ho as [|Ho]; [done|apply H3].
Qed.

Lemma wp_sys_query {A} (f : fsys -> sysret A) w Q :
  (forall w1, fs w1 = fs w -> (faulty w1 -> faulty w) -> Q (Done (f (fs w))) w1) ->
  (forall e w1, fs w1 = fs w -> faulty w -> Q (Done (SysErr e)) w1) ->
  (forall w1, fs w1 = fs w -> faulty w -> Q Crashed w1) ->
  wp (sys_query f) w Q.
Proof.
  intros H1 H2 H3. unfold sys_query. wp_step. apply wp_next_outcome.
  intros o w1 Hfs Hf Ho. unfold and_then, wp.
  destruct o; simpl; unfold read_fs; simpl; rewrite ?Hfs; try (by apply H1).
  - by destruct Ho as [|Ho]; [done|apply H2].
  - by destruct Ho as [|Ho]; [done|apply H3].
Qed.

(** A write takes some prefix, everything when nothing fails. *)
Lemma wp_sys_write i bytes w Q :
  (forall n w1, (n <= length bytes)%nat -> (n = length bytes \/ faulty w) -> (0 < n \/ bytes = [])%nat ->
     fs w1 = append_inode i (take n bytes) (fs w) -> (faulty w1 -> faulty w) ->
     length (script w1) = pred (length (script w)) -> Q (Done (SysOk n)) w1) ->
  (forall w1, fs w1 = fs w -> faulty w -> Q (Done (SysOk 0%nat)) w1) ->
  (forall e w1, fs w1 = fs w -> faulty w -> S (length (script w1)) = length (script w) ->
     Q (Done (SysErr e)) w1) ->
  (forall w1, fs w1 = append_inode i bytes (fs w) -> faulty w -> Q Crashed w1) ->
  wp (sys_write i bytes) w Q.
Proof.
  intros H1 H0 H2 H3. unfold wp, sys_write, next_outcome, mbind, M_bind.
  assert ((0 < length bytes)%nat \/ bytes = []) as Hb by (destruct bytes; simpl; [auto|left; lia]).
  destruct w as [f [|o sc]]; simpl.
  { apply H1; auto. simpl. by rewrite firstn_all. }
  assert (faulty (World f (o :: sc))) as Hf by done.
  destruct o; simpl; unfold modify_fs, modify; simpl.
  - apply H1; auto. simpl. by rewrite firstn_all.
  - apply H1; auto; [lia|]. destruct Hb; [left; lia|by right].
  - by apply H0.
  - by apply H2.
  - by apply H3.
Qed.

(** ** The file system's setters *)

Lemma entry_set_entry p e f p' :
  entry (set_entry p e f) p' = if decide (p' = p) then e else entry f p'.
Proof.
  unfold entry, set_entry. simpl. destruct (decide (p' = p)) as [->|].
  - by rewrite lookup_insert_eq.
  - by rewrite lookup_insert_ne.
Qed.
Lemma entry_set_inode i h f p : entry (set_inode i h f) p = entry f p.
Proof. done. Qed.
Lemma inode_set_entry p e f i : inode (set_entry p e f) i = inode f i.
Proof. done. Qed.
Lemma inode_set_inode i h f i' :
  inode (set_inode i h f) i' = if decide (i' = i) then h else inode f i'.
Proof.
  unfold inode, set_inode. simpl. destruct (decide (i' = i)) as [->|].
  - by rewrite lookup_insert_eq.
  - by rewrite lookup_insert_ne.
Qed.
Lemma entry_append_inode i b f p : entry (append_inode i b f) p = entry f p.
Proof. done. Qed.
Lemma inode_append_inode i b f i' :
  inode (append_inode i b f) i' =
  if decide (i' = i) then append_hist (inode f i) b else inode f i'.
Proof. apply inode_set_inode. Qed.

Lemma entry_settle_directory d f p :
  entry (settle_directory d f) p =
  if decide (directory_of p = d) then settle (entry f p) else entry f p.
Proof.
  unfold entry, settle_directory. simpl. rewrite map_lookup_imap.
  destruct (entries f !! p) as [h|]; simpl; by destruct (decide _).
Qed.
Lemma inode_settle_directory d f i : inode (settle_directory d f) i = inode f i.
Proof. done. Qed.

Create Rewrite HintDb chrono_fs.
#[export] Hint Rewrite entry_set_entry entry_set_inode inode_set_entry inode_set_inode
  entry_append_inode inode_append_inode entry_settle_directory inode_settle_directory : chrono_fs.
#[global] Arguments set_entry : simpl never.
#[global] Arguments set_inode : simpl never.
#[global] Arguments append_inode : simpl never.
#[global] Arguments settle_directory : simpl never.

(** ** Histories *)

Lemma now_append_hist h b : now (append_hist h b) = now h ++ b.
Proof.
  unfold append_hist. revert h. induction b as [|x b IH]; intros h; simpl; [by rewrite app_nil_r|].
  rewrite IH. simpl. by rewrite <-app_assoc.
Qed.

(** An append adds exactly the prefixes. *)
Lemma possible_append_hist h b v :
  v ∈ possible (append_hist h b) <->
  v ∈ possible h \/ exists k, (k <= length b)%nat /\ v = now h ++ take k b.
Proof.
  unfold append_hist. revert h. induction b as [|x b IH]; intros h; simpl.
  - split; [auto|]. intros [|(k & Hk & ->)]; [done|]. rewrite take_nil, app_nil_r. left.
  - rewrite IH. unfold possible, push. simpl. rewrite !elem_of_cons. split.
    + intros [[->|Hv]|(k & Hk & ->)].
      * right. exists 1%nat. split; [lia|done].
      * by left.
      * right. exists (S k). split; [lia|]. simpl. by rewrite <-app_assoc.
    + intros [Hv|(k & Hk & ->)]; [auto|]. destruct k as [|k].
      * left. right. left. simpl. by rewrite app_nil_r.
      * right. exists k. split; [lia|]. simpl. by rewrite <-app_assoc.
Qed.

Lemma possible_now {A} (h : hist A) : now h ∈ possible h.
Proof. left. Qed.
Lemma possible_settled {A} (x v : A) : x ∈ possible (settled v) <-> x = v.
Proof. unfold possible, settled. simpl. by rewrite list_elem_of_singleton. Qed.
Lemma possible_push {A} (x v : A) h : x ∈ possible (push v h) <-> x = v \/ x ∈ possible h.
Proof. unfold possible, push. simpl. by rewrite elem_of_cons. Qed.
#[export] Hint Resolve possible_now : chrono.

(** ** Power loss *)

(** What a reader of [p] may find after a power loss: the file some earlier
    binding of the name points to, with some earlier contents. *)
Definition after_crash (f : fsys) (p : path) (r : option (list byte)) : Prop :=
  exists e, e ∈ possible (entry f p) /\
    match e with
    | None => r = None
    | Some i => exists v, v ∈ possible (inode f i) /\ r = Some v
    end.

Lemma default_possible {A} (h : hist A) k : default (now h) (possible h !! k) ∈ possible h.
Proof.
  destruct (possible h !! k) as [v|] eqn:E; simpl; [by eapply list_elem_of_lookup_2|left].
Qed.

Lemma entry_crash f f' p :
  crash f f' -> exists e, e ∈ possible (entry f p) /\ entry f' p = settled e.
Proof.
  intros (pe & pi & ->). unfold entry, crash_pick. simpl. rewrite map_lookup_imap.
  destruct (entries f !! p) as [h|]; simpl.
  - eexists. split; [apply default_possible|done].
  - exists None. split; [left|done].
Qed.

Lemma inode_crash f f' i :
  crash f f' -> exists v, v ∈ possible (inode f i) /\ inode f' i = settled v.
Proof.
  intros (pe & pi & ->). unfold inode, crash_pick. simpl. rewrite map_lookup_imap.
  destruct (inodes f !! i) as [h|]; simpl.
  - eexists. split; [apply default_possible|done].
  - exists []. split; [left|done].
Qed.

Lemma crash_file_of f f' p : crash f f' -> after_crash f p (file_of f' p).
Proof.
  intros Hc. destruct (entry_crash f f' p Hc) as (e & He & Heq). exists e. split; [done|].
  unfold file_of. rewrite Heq. simpl. destruct e as [i|]; [|done].
  destruct (inode_crash f f' i Hc) as (v & Hv & ->). by exists v.
Qed.

(** Conversely each of these is what some power loss leaves. *)
Lemma after_crash_possible f p r :
  after_crash f p r -> exists f', crash f f' /\ file_of f' p = r.
Proof.
  intros (e & He & Hr). apply list_elem_of_lookup_1 in He as (k & Hk).
  assert (exists m, match e with Some i => r = Some (default (now (inode f i))
            (possible (inode f i) !! m)) | None => r = None end) as (m & Hm).
  { destruct e as [i|]; [|by exists 0%nat]. destruct Hr as (v & Hv & ->).
    apply list_elem_of_lookup_1 in Hv as (m & Hm). exists m. by rewrite Hm. }
  exists (crash_pick (fun _ => k) (fun _ => m) f). split; [by eexists _, _|].
  assert (entry (crash_pick (fun _ => k) (fun _ => m) f) p = settled e) as He.
  { unfold entry, crash_pick in *. simpl. rewrite map_lookup_imap.
    destruct (entries f !! p) as [h|]; simpl in *; [by rewrite Hk|].
    by destruct k; simpl in Hk; [injection Hk as <-|]. }
  unfold file_of. rewrite He. simpl. destruct e as [i|]; [|done]. rewrite Hm. f_equal.
  unfold inode, crash_pick. simpl. rewrite map_lookup_imap.
  destruct (inodes f !! i) as [h|]; simpl; [done|]. by destruct m as [|[]].
Qed.

(** ** Interrupted calls *)

Definition interrupted {A} (o : outcome (sysret A)) : Prop := o = Done (SysErr EINTR).

Lemma wp_retry {A} (call : M world (sysret A)) w Q :
  one_call call ->
  (forall w1, fs w1 = fs w -> (faulty w1 -> faulty w) ->
     wp call w1 (fun o w2 => interrupted o /\ fs w2 = fs w \/ ~ interrupted o /\ Q o w2)) ->
  wp (retry_interrupted call) w Q.
Proof.
  intros Hone. remember (length (script w)) as n eqn:Hn. revert w Hn.
  induction n as [n IH] using lt_wf_ind. intros w Hn Hcall.
  unfold wp. rewrite retry_interrupted_loop by done. fold (wp (r ← call; match r with
    | SysErr e => if e =? EINTR then retry_interrupted call else mret r | _ => mret r end) w Q).
  wp_step. destruct (Hone w) as [Hs Hempty]. pose proof (Hcall w eq_refl id) as Hw.
  unfold wp in Hw |- *. destruct (call w) as [[r|e|] w'] eqn:Hc; simpl in *;
    [|by destruct Hw as [[[=] _]|[_ ?]]..].
  destruct r as [a|e]; [by destruct Hw as [[[=] _]|[_ ?]]|].
  destruct (e =? EINTR) eqn:E; bool_to_prop; [subst e|].
  - destruct Hw as [[_ Hfs]|[Hn' _]]; [|by destruct Hn'].
    destruct (script w) as [|o sc] eqn:Hsc.
    { by destruct (Hempty eq_refl) as (r & w'' & [= <- <-] & Hr). }
    assert (faulty w' -> faulty w) as Hf by (unfold faulty; congruence).
    apply (IH (length (script w'))); [rewrite Hs, Hn; simpl; lia|done|].
    intros w1 Hfs1 Hf1. rewrite Hfs in Hfs1 |- *. apply Hcall; auto.
  - by destruct Hw as [[[=] _]|[_ ?]].
Qed.

Lemma one_call_settle f : one_call (sys_settle f).
Proof.
  intros [fs0 [|o sc]]; split; try done.
  - intros _. by eexists _, _.
  - by destruct o.
Qed.
Lemma one_call_query {A} (f : fsys -> sysret A) :
  (forall fs, f fs <> SysErr EINTR) -> one_call (sys_query f).
Proof.
  intros Hf [fs0 [|o sc]]; split; try done.
  - intros _. eexists _, _. split; [done|]. apply Hf.
  - by destruct o.
Qed.
Lemma one_call_change {A} (f : fsys -> sysret A * fsys) :
  (forall fs, (f fs).1 <> SysErr EINTR) -> one_call (sys_change f).
Proof.
  intros Hf [fs0 [|o sc]]; split; try done.
  - intros _. eexists _, _. split; [done|]. apply Hf.
  - by destruct o.
Qed.

Lemma wp_retry_settle f w Q :
  (forall w1, fs w1 = f (fs w) -> (faulty w1 -> faulty w) -> Q (Done (SysOk tt)) w1) ->
  (forall e w1, e <> EINTR -> fs w1 = fs w -> faulty w -> Q (Done (SysErr e)) w1) ->
  (forall w1, fs w1 = fs w -> faulty w -> Q Crashed w1) ->
  wp (retry_interrupted (sys_settle f)) w Q.
Proof.
  intros H1 H2 H3. apply wp_retry; [apply one_call_settle|]. intros w1 Hfs Hf.
  apply wp_sys_settle; rewrite ?Hfs; intros.
  - right. split; [done|]. auto.
  - destruct (decide (e = EINTR)) as [->|]; [left; split; [done|congruence]|right].
    split; [by intros [= ->]|]. apply H2; [done|congruence|auto].
  - right. split; [done|]. apply H3; [congruence|auto].
Qed.

Lemma wp_retry_query {A} (f : fsys -> sysret A) w Q :
  (forall fs, f fs <> SysErr EINTR) ->
  (forall w1, fs w1 = fs w -> (faulty w1 -> faulty w) -> Q (Done (f (fs w))) w1) ->
  (forall e w1, e <> EINTR -> fs w1 = fs w -> faulty w -> Q (Done (SysErr e)) w1) ->
  (forall w1, fs w1 = fs w -> faulty w -> Q Crashed w1) ->
  wp (retry_interrupted (sys_query f)) w Q.
Proof.
  intros Hne H1 H2 H3. apply wp_retry; [by apply one_call_query|]. intros w1 Hfs Hf.
  apply wp_sys_query; rewrite ?Hfs; intros.
  - right. split; [|auto]. intros Hi. by injection Hi as ?%Hne.
  - destruct (decide (e = EINTR)) as [->|]; [left; split; [done|congruence]|right].
    split; [by intros [= ->]|]. apply H2; [done|congruence|auto].
  - right. split; [done|]. apply H3; [congruence|auto].
Qed.

Lemma wp_retry_change {A} (f : fsys -> sysret A * fsys) w Q :
  (forall fs, (f fs).1 <> SysErr EINTR) ->
  (forall w1, fs w1 = (f (fs w)).2 -> (faulty w1 -> faulty w) -> Q (Done (f (fs w)).1) w1) ->
  (forall e w1, e <> EINTR -> fs w1 = fs w -> faulty w -> Q (Done (SysErr e)) w1) ->
  (forall w1, fs w1 = (f (fs w)).2 -> faulty w -> Q Crashed w1) ->
  wp (retry_interrupted (sys_change f)) w Q.
Proof.
  intros Hne H1 H2 H3. apply wp_retry; [by apply one_call_change|]. intros w1 Hfs Hf.
  apply wp_sys_change; rewrite ?Hfs; intros.
  - right. split; [|auto]. intros Hi. by injection Hi as ?%Hne.
  - destruct (decide (e = EINTR)) as [->|]; [left; split; [done|congruence]|right].
    split; [by intros [= ->]|]. apply H2; [done|congruence|auto].
  - right. split; [done|]. apply H3; [congruence|auto].
Qed.

(** ** Well-formed and durable files *)

(** Names bind allocated inodes, and no two names the same one. *)
Definition fs_ok (f : fsys) : Prop :=
  (forall p i, Some i ∈ possible (entry f p) -> (i < next_inode f)%nat) /\
  (forall p q i, now (entry f p) = Some i -> now (entry f q) = Some i -> p = q).

(** A power loss leaves exactly [c] of [p]. *)
Definition durable (f : fsys) (p : path) (c : option (list byte)) : Prop :=
  match c with
  | None => entry f p = settled None
  | Some bytes => exists i, entry f p = settled (Some i) /\ inode f i = settled bytes
  end.

Lemma durable_after_crash f p c r : durable f p c -> after_crash f p r -> r = c.
Proof.
  intros Hd (e & He & Hr). destruct c as [bytes|]; simpl in Hd.
  - destruct Hd as (i & Hi & Hb). rewrite Hi in He. apply possible_settled in He as ->.
    destruct Hr as (v & Hv & ->). rewrite Hb in Hv. by apply possible_settled in Hv as ->.
  - rewrite Hd in He. by apply possible_settled in He as ->.
Qed.

Lemma durable_crash f f' p c : durable f p c -> crash f f' -> durable f' p c.
Proof.
  intros Hd Hc. destruct (entry_crash f f' p Hc) as (e & He & Heq).
  destruct c as [bytes|]; simpl in *.
  - destruct Hd as (i & Hi & Hb). rewrite Hi in He. apply possible_settled in He as ->.
    destruct (inode_crash f f' i Hc) as (v & Hv & Hv'). rewrite Hb in Hv.
    apply possible_settled in Hv as ->. by exists i.
  - rewrite Hd in He. by apply possible_settled in He as ->.
Qed.

Lemma durable_file_of f p c : durable f p c -> file_of f p = c.
Proof.
  unfold file_of. destruct c as [bytes|]; simpl.
  - intros (i & -> & Hb). simpl. by rewrite Hb.
  - by intros ->.
Qed.

Lemma now_after_crash f p : after_crash f p (file_of f p).
Proof.
  exists (now (entry f p)). split; [auto with chrono|]. unfold file_of.
  destruct (now (entry f p)) as [i|]; [|done]. exists (now (inode f i)). auto with chrono.
Qed.

(** The file's inode is not one [f] allocates or [tmp] is bound to. *)
Lemma durable_inode f p bytes :
  fs_ok f -> durable f p (Some bytes) ->
  exists i, entry f p = settled (Some i) /\ inode f i = settled bytes /\ (i < next_inode f)%nat /\
    forall q, q <> p -> now (entry f q) <> Some i.
Proof.
  intros [Hlt Hinj] (i & Hi & Hb). exists i. split_and!; [done|done| |].
  - apply (Hlt p). rewrite Hi. left.
  - intros q Hq Hn. apply Hq, (Hinj _ _ i); [done|]. by rewrite Hi.
Qed.

(** ** Names that are left alone

    [kept f0 f q]: the name has its binding, perhaps made permanent, and the file
    it is bound to has its contents and their history. *)

Definition kept (f0 f : fsys) (q : path) : Prop :=
  (entry f q = entry f0 q \/ entry f q = settle (entry f0 q)) /\
  forall j, now (entry f0 q) = Some j -> inode f j = inode f0 j.

Lemma kept_refl f q : kept f f q.
Proof. split; [by left|done]. Qed.

Lemma kept_now f0 f q : kept f0 f q -> now (entry f q) = now (entry f0 q).
Proof. by intros [[->| ->] _]. Qed.

Lemma kept_trans f0 f1 f2 q : kept f0 f1 q -> kept f1 f2 q -> kept f0 f2 q.
Proof.
  intros H1 [He2 Hi2]. pose proof (kept_now _ _ _ H1) as Hnow. destruct H1 as [He1 Hi1]. split.
  - destruct He2 as [->| ->], He1 as [->| ->]; auto.
  - intros j Hj. rewrite Hi2 by congruence. by apply Hi1.
Qed.

Lemma kept_file_of f0 f q : kept f0 f q -> file_of f q = file_of f0 q.
Proof.
  intros H. unfold file_of. rewrite (kept_now _ _ _ H). destruct H as [_ Hi].
  destruct (now (entry f0 q)) as [j|]; [|done]. by rewrite Hi.
Qed.

Lemma kept_durable f0 f q c : kept f0 f q -> durable f0 q c -> durable f q c.
Proof.
  intros [He Hi] Hd. destruct c as [bytes|]; simpl in *.
  - destruct Hd as (i & Hs & Hb). exists i. rewrite Hi by by rewrite Hs.
    split; [|done]. by destruct He as [->| ->]; rewrite Hs.
  - by destruct He as [->| ->]; rewrite Hd.
Qed.

Lemma kept_possible f0 f q e : kept f0 f q -> e ∈ possible (entry f q) -> e ∈ possible (entry f0 q).
Proof.
  intros [[->| ->] _]; [done|]. unfold settle. rewrite possible_settled. intros ->. apply possible_now.
Qed.

(** ** Computations that only read

    [reading P R]: the file system stays as it is; a result satisfies [P]; an
    exception that is not the operating system's doing satisfies [R]. *)
Definition reading {A} (P : A -> Prop) (R : exn -> Prop) (w0 : world) (o : outcome A) (w : world) : Prop :=
  fs w = fs w0 /\
  match o with
  | Done a => P a /\ (faulty w -> faulty w0)
  | Raised e => faulty w0 \/ R e
  | Crashed => faulty w0
  end.

Definition no_throw (_ : exn) : Prop := False.

Lemma reading_from {A} (P : A -> Prop) R w0 w1 o w :
  fs w1 = fs w0 -> (faulty w1 -> faulty w0) -> reading P R w1 o w -> reading P R w0 o w.
Proof.
  intros Hf Hs [Hfs Ho]. split; [by rewrite Hfs|]. destruct o as [a|e|]; destruct_and?; intuition auto.
Qed.

Lemma wp_reading_bind {A B} (m : M world A) (f : A -> M world B) w P R (Q : B -> Prop) :
  wp m w (reading P R w) ->
  (forall a w1, P a -> fs w1 = fs w -> (faulty w1 -> faulty w) -> wp (f a) w1 (reading Q R w1)) ->
  wp (m ≫= f) w (reading Q R w).
Proof.
  intros Hm Hf. wp_step. eapply wp_mono; [exact Hm|]. intros o w1 [Hfs Ho].
  destruct o as [a|e|]; cbn [and_then]; [|by split..].
  destruct Ho as [Ha Hs]. eapply wp_mono; [by apply Hf|]. intros o w2. by apply reading_from.
Qed.

Lemma wp_reading_ret {A} (a : A) (P : A -> Prop) R w : P a -> wp (mret a) w (reading P R w).
Proof. intros. rewrite wp_ret. by split_and!. Qed.

Lemma wp_reading_throw {A} e (P : A -> Prop) (R : exn -> Prop) w :
  R e -> wp (throw e) w (reading P R w).
Proof. intros. rewrite wp_throw. split; [done|by right]. Qed.

Lemma wp_reading_throw_when c e (R : exn -> Prop) w :
  (c = true -> R e) -> wp (throw_when c e) w (reading (fun _ => c = false) R w).
Proof.
  intros H. unfold throw_when. destruct c; [apply wp_reading_throw; auto|by apply wp_reading_ret].
Qed.

Lemma wp_reading_lift {A} (r : result A) (P : A -> Prop) (R : exn -> Prop) w :
  (forall a, r = Ok a -> P a) -> (forall e, r = Err e -> R e) -> wp (lift r) w (reading P R w).
Proof.
  intros H1 H2. apply wp_lift; intros; [by split_and!; [|apply H1|]|split; [done|right; auto]].
Qed.

(** A query, the throw of its failure, and the use of its answer. *)
Lemma wp_reading_query {A B} (f : fsys -> sysret A) (k : sysret A -> M world B) w (Q : B -> Prop) R :
  (forall w1, fs w1 = fs w -> (faulty w1 -> faulty w) -> wp (k (f (fs w))) w1 (reading Q R w1)) ->
  (forall e, exists x, k (SysErr e) = throw x) ->
  wp (sys_query f ≫= k) w (reading Q R w).
Proof.
  intros Hk He. wp_step. apply wp_sys_query.
  - intros w1 Hf Hs. cbn [and_then]. eapply wp_mono; [by apply Hk|]. intros o w2. by apply reading_from.
  - intros e w1 Hf Hs. cbn [and_then]. destruct (He e) as (x & ->). rewrite wp_throw.
    split; [done|by left].
  - intros w1 Hf Hs. by split.
Qed.

Lemma wp_reading_mono {A} (m : M world A) w (P P' : A -> Prop) R (R' : exn -> Prop) :
  wp m w (reading P R w) -> (forall a, P a -> P' a) -> (forall e, R e -> R' e) ->
  wp m w (reading P' R' w).
Proof.
  intros Hm HP HR. eapply wp_mono; [exact Hm|]. intros o w' [Hf Ho]. split; [done|].
  destruct o as [a|e|]; [|destruct Ho; auto|done]. destruct Ho. auto.
Qed.

(** ** Example file systems *)

(** One file, settled. *)
Definition single_file (p : path) (bytes : list byte) : fsys :=
  Fsys {[p := settled (Some 0%nat)]} {[0%nat := settled bytes]} 1 ∅ ∅.

Lemma single_file_entry p bytes q :
  entry (single_file p bytes) q = if decide (q = p) then settled (Some 0%nat) else settled None.
Proof.
  unfold entry, single_file. simpl. destruct (decide (q = p)) as [->|].
  - by rewrite lookup_singleton_eq.
  - by rewrite lookup_singleton_ne.
Qed.

Lemma single_file_ok p bytes : fs_ok (single_file p bytes).
Proof.
  split.
  - intros q i. rewrite single_file_entry. case_decide; rewrite possible_settled; [|done].
    intros [= ->]. simpl. lia.
  - intros q r i. rewrite !single_file_entry. repeat case_decide; simpl; congruence.
Qed.

Lemma single_file_durable p bytes : durable (single_file p bytes) p (Some bytes).
Proof.
  exists 0%nat. rewrite single_file_entry, decide_True by done. split; [done|].
  unfold inode, single_file. simpl. by rewrite lookup_singleton_eq.
Qed.
