(* ===== verification/Model.v ===== *)
(** * The data model (include/chronostore/model.hpp, src/model.cpp)

    Tags, series keys, timestamps and samples, with the constructors' checks.
    A [double] is its 64-bit IEEE 754 pattern, the value [std::bit_cast] moves to
    and from the disk. *)

From stdpp Require Import base tactics option numbers list strings.
From Stdlib Require Import ZArith Lia Permutation Sorted.
From S2P Require Import Prelude Errors.

(** ** Data *)

Record Tag := MkTag { key : string; value : string }.

Record SeriesKey := MkSeriesKey { measurement : string; tags : list Tag }.

Record Timestamp := MkTimestamp { nanoseconds_since_epoch : Z }.

(** [double], by its bit pattern. *)
Record double := MkDouble { bits : Z }.

Record Sample := MkSample { timestamp : Timestamp; sample_value : double }.

#[export] Instance Tag_eq_dec : EqDecision Tag.
Proof. solve_decision. Defined.
#[export] Instance SeriesKey_eq_dec : EqDecision SeriesKey.
Proof. solve_decision. Defined.
#[export] Instance Timestamp_eq_dec : EqDecision Timestamp.
Proof. solve_decision. Defined.
#[export] Instance double_eq_dec : EqDecision double.
Proof. solve_decision. Defined.
#[export] Instance Sample_eq_dec : EqDecision Sample.
Proof. solve_decision. Defined.

(** The defaulted [operator<=>]s compare the members in declaration order. *)
Definition Tag_cmp (a b : Tag) : comparison :=
  lex_cmp (cmp (key a) (key b)) (cmp (value a) (value b)).

#[export] Program Instance Tag_Ord : Ord Tag := {| cmp := Tag_cmp |}.
Next Obligation.
  intros [k1 v1] [k2 v2]. unfold Tag_cmp, lex_cmp. cbn [key value].
  destruct (cmp_spec k1 k2) as [->|Hl|Hl].
  - rewrite (cmp_eq v1 v2). split; congruence.
  - split; [done|]. intros [= -> _]. by apply lt_irrefl in Hl.
  - split; [done|]. intros [= -> _]. by apply lt_irrefl in Hl.
Qed.
Next Obligation.
  intros [k1 v1] [k2 v2]. unfold Tag_cmp. cbn [key value].
  rewrite (cmp_antisym k1), (cmp_antisym v1). apply lex_cmp_antisym.
Qed.
Next Obligation.
  intros [k1 v1] [k2 v2] [k3 v3]. unfold Tag_cmp. cbn [key value].
  apply lex_lt_trans, cmp_lt_trans.
Qed.

Definition SeriesKey_cmp (a b : SeriesKey) : comparison :=
  lex_cmp (cmp (measurement a) (measurement b)) (cmp (tags a) (tags b)).

#[export] Program Instance SeriesKey_Ord : Ord SeriesKey := {| cmp := SeriesKey_cmp |}.
Next Obligation.
  intros [m1 t1] [m2 t2]. unfold SeriesKey_cmp, lex_cmp. cbn [measurement tags].
  destruct (cmp_spec m1 m2) as [->|Hl|Hl].
  - rewrite (cmp_eq t1 t2). split; congruence.
  - split; [done|]. intros [= -> _]. by apply lt_irrefl in Hl.
  - split; [done|]. intros [= -> _]. by apply lt_irrefl in Hl.
Qed.
Next Obligation.
  intros [m1 t1] [m2 t2]. unfold SeriesKey_cmp. cbn [measurement tags].
  rewrite (cmp_antisym m1), (cmp_antisym t1). apply lex_cmp_antisym.
Qed.
Next Obligation.
  intros [m1 t1] [m2 t2] [m3 t3]. unfold SeriesKey_cmp. cbn [measurement tags].
  apply lex_lt_trans, cmp_lt_trans.
Qed.

Definition Timestamp_cmp (a b : Timestamp) : comparison :=
  cmp (nanoseconds_since_epoch a) (nanoseconds_since_epoch b).

#[export] Program Instance Timestamp_Ord : Ord Timestamp := {| cmp := Timestamp_cmp |}.
Next Obligation.
  intros [a] [b]. unfold Timestamp_cmp. rewrite cmp_eq. simpl. split; congruence.
Qed.
Next Obligation. intros [a] [b]. apply cmp_antisym. Qed.
Next Obligation. intros [a] [b] [c]. apply cmp_lt_trans. Qed.

(** ** Constructors *)

(** [Tag::Tag] *)
Definition make_Tag (k v : string) : result Tag :=
  throw_if (bool_decide (k = EmptyString)) (invalid_argument "tag key cannot be empty");;
  Ok (MkTag k v).

(** The loop of [SeriesKey::SeriesKey] over adjacent tags: the first key that
    equals its predecessor's. *)
Fixpoint adjacent_duplicate (ts : list Tag) : option string :=
  match ts with
  | previous :: ((current :: _) as rest) =>
    if decide (key previous = key current) then Some (key current)
    else adjacent_duplicate rest
  | _ => None
  end.

(** [SeriesKey::SeriesKey] *)
Definition make_SeriesKey (m : string) (ts : list Tag) : result SeriesKey :=
  throw_if (bool_decide (m = EmptyString)) (invalid_argument "measurement cannot be empty");;
  let sorted := sort ts in
  match adjacent_duplicate sorted with
  | Some k => Err (invalid_argument ("duplicate tag key: " +:+ k))
  | None => Ok (MkSeriesKey m sorted)
  end.

(** [std::isfinite]: the exponent field is not all ones. *)
Definition isfinite (d : double) : bool :=
  negb (Z.land (Z.shiftr (bits d) 52) 2047 =? 2047).

(** [Sample::Sample] *)
Definition make_Sample (t : Timestamp) (v : double) : result Sample :=
  throw_if (negb (isfinite v)) (invalid_argument "sample value must be finite");;
  Ok (MkSample t v).

#[global] Opaque isfinite.
#[global] Arguments make_Tag : simpl never.
#[global] Arguments make_SeriesKey : simpl never.
#[global] Arguments make_Sample : simpl never.

(** ** Type invariants *)

Definition keys_sorted (ts : list Tag) : Prop :=
  StronglySorted (fun a b => key a ≺ key b) ts.

Definition Tag_ok (t : Tag) : Prop := key t <> EmptyString.

(** What construction guarantees of a series key: a measurement, and tags with
    non-empty keys in strictly increasing order. *)
Definition SeriesKey_ok (s : SeriesKey) : Prop :=
  measurement s <> EmptyString /\ Forall Tag_ok (tags s) /\ keys_sorted (tags s).

Definition Timestamp_ok (t : Timestamp) : Prop := in_i64 (nanoseconds_since_epoch t).

Definition Sample_ok (s : Sample) : Prop :=
  Timestamp_ok (timestamp s) /\ in_u 64 (bits (sample_value s)) /\
  isfinite (sample_value s) = true.

(** ** Lemmas *)

Lemma Timestamp_lt (a b : Timestamp) :
  a ≺ b <-> nanoseconds_since_epoch a < nanoseconds_since_epoch b.
Proof. apply Z_lt_of. Qed.

Lemma Timestamp_eta (t : Timestamp) : MkTimestamp (nanoseconds_since_epoch t) = t.
Proof. by destruct t. Qed.

Lemma adjacent_duplicate_cons a b ts :
  adjacent_duplicate (a :: b :: ts) =
  if decide (key a = key b) then Some (key b) else adjacent_duplicate (b :: ts).
Proof. done. Qed.

Lemma keys_sorted_lt (ts : list Tag) : keys_sorted ts -> StronglySorted lt_of ts.
Proof.
  induction 1 as [|t ts Hs IH Ht]; constructor; [done|].
  eapply Forall_impl; [exact Ht|]. intros u Hu.
  unfold lt_of in *. change (cmp t u) with (Tag_cmp t u). unfold Tag_cmp. by rewrite Hu.
Qed.

Lemma sort_keys_sorted (ts : list Tag) : keys_sorted ts -> sort ts = ts.
Proof. intros Hs. by apply sort_of_sorted, strongly_sorted_le, keys_sorted_lt. Qed.

Lemma keys_sorted_no_duplicate (ts : list Tag) :
  keys_sorted ts -> adjacent_duplicate ts = None.
Proof.
  induction 1 as [|t ts Hs IH Ht]; [done|]. destruct ts as [|u ts]; [done|].
  rewrite adjacent_duplicate_cons. inversion Ht as [|? ? Htu]; subst.
  rewrite decide_False; [done|]. by apply lt_ne.
Qed.

(** Tags sorted as the constructor sorts them, without equal neighbours, have
    strictly increasing keys. *)
Lemma no_duplicate_keys_sorted (ts : list Tag) :
  StronglySorted le_of ts -> adjacent_duplicate ts = None -> keys_sorted ts.
Proof.
  induction 1 as [|t ts Hs IH Ht]; intros Hd; [constructor|].
  destruct ts as [|u ts]; [repeat constructor|].
  rewrite adjacent_duplicate_cons in Hd. destruct (decide (key t = key u)) as [|Hne]; [done|].
  specialize (IH Hd). constructor; [done|].
  assert (key t ≺ key u) as Htu.
  { apply Forall_inv in Ht as [Hlt| ->]; [|done].
    unfold lt_of in Hlt. change (Tag_cmp t u = Lt) in Hlt. unfold Tag_cmp in Hlt.
    destruct (cmp_spec (key t) (key u)) as [E|E|E]; [by destruct Hne | done | done]. }
  constructor; [done|]. inversion IH as [|? ? _ Hu]; subst.
  eapply Forall_impl; [exact Hu|]. intros w Hw. by etrans.
Qed.

Lemma keys_sorted_NoDup (ts : list Tag) : keys_sorted ts -> NoDup (map key ts).
Proof.
  induction 1 as [|t ts Hs IH Ht]; simpl; constructor; [|done].
  intros Hin. apply list_elem_of_fmap in Hin as (u & Heq & Hu).
  rewrite Forall_forall in Ht. specialize (Ht u Hu). rewrite Heq in Ht.
  by apply lt_irrefl in Ht.
Qed.

Lemma adjacent_duplicate_NoDup (ts : list Tag) :
  NoDup (map key ts) -> adjacent_duplicate ts = None.
Proof.
  induction ts as [|t ts IH]; intros Hd; [done|]. destruct ts as [|u ts]; [done|].
  rewrite adjacent_duplicate_cons. simpl in Hd.
  apply NoDup_cons in Hd as [Hn Hd]. rewrite decide_False; [by apply IH|].
  intros Heq. apply Hn. rewrite Heq. left.
Qed.

(** What the constructor does on each branch. *)
Lemma make_SeriesKey_Ok m ts s :
  make_SeriesKey m ts = Ok s <->
  m <> EmptyString /\ NoDup (map key ts) /\ s = MkSeriesKey m (sort ts).
Proof.
  unfold make_SeriesKey, throw_if. case_bool_decide as Hm; simpl.
  { split; [done|]. by intros (? & _). }
  destruct (adjacent_duplicate (sort ts)) as [k|] eqn:E; split.
  - done.
  - intros (_ & Hnd & _). exfalso. rewrite adjacent_duplicate_NoDup in E; [done|].
    by rewrite sort_perm.
  - intros [= <-]. split_and!; [done| |done].
    rewrite <-(sort_perm ts). apply keys_sorted_NoDup, no_duplicate_keys_sorted; [|done].
    apply sort_sorted.
  - by intros (_ & _ & ->).
Qed.

Lemma make_SeriesKey_id s : SeriesKey_ok s -> make_SeriesKey (measurement s) (tags s) = Ok s.
Proof.
  destruct s as [m ts]. intros (Hm & _ & Hs). apply make_SeriesKey_Ok. simpl in *.
  rewrite sort_keys_sorted by done. split_and!; auto using keys_sorted_NoDup.
Qed.

Lemma make_Tag_id t : Tag_ok t -> make_Tag (key t) (value t) = Ok t.
Proof. destruct t as [k v]. unfold Tag_ok, make_Tag. simpl. intros. by rewrite bool_decide_false. Qed.

Lemma make_Tag_ok k v t : make_Tag k v = Ok t -> t = MkTag k v /\ Tag_ok t.
Proof. unfold make_Tag. intros H. result_inv. subst. by apply bool_decide_eq_false in Ha. Qed.

Lemma make_Sample_Ok t v s :
  make_Sample t v = Ok s <-> isfinite v = true /\ s = MkSample t v.
Proof.
  unfold make_Sample, throw_if. destruct (isfinite v); simpl; split;
    try done; intros; destruct_and?; naive_solver.
Qed.

Lemma make_Sample_id s : Sample_ok s -> make_Sample (timestamp s) (sample_value s) = Ok s.
Proof. intros (_ & _ & Hf). apply make_Sample_Ok. by destruct s. Qed.

Lemma make_Sample_pair t v :
  Sample_ok (MkSample t v) -> make_Sample t v = Ok (MkSample t v).
Proof. apply (make_Sample_id (MkSample t v)). Qed.

(** ** Example values *)

Definition example_key : SeriesKey := MkSeriesKey "cpu" [MkTag "host" "a"].
Definition example_sample (t : Z) : Sample := MkSample (MkTimestamp t) (MkDouble 4607182418800017408).

Lemma example_key_ok : SeriesKey_ok example_key.
Proof. vm_compute. repeat (split || constructor || discriminate || intros ?). Qed.

Lemma example_sample_ok : Sample_ok (example_sample (-1)).
Proof. vm_compute. repeat (split || discriminate). Qed.
