(* ===== verification/ByteCodec.v ===== *)
(** * Byte writer and byte reader (src/byte_codec.cpp)

    [ByteWriter] appends little-endian integers to a vector; [ByteReader] walks
    over a span with a position that no read moves past the end.  The decoders of
    the other files are written in the [Parser] monad: a read that returns [false]
    ends the decoder with [reject], and an exception thrown inside it (by a model
    constructor) is [Err].

    The little-endian reference encoding [le]/[unle] and the string encoding
    [le_string] specify them; [reads] and [consumed] are the interface the
    codecs' round-trip and canonicity proofs use. *)

From stdpp Require Import base tactics option numbers list strings.
From Stdlib Require Import ZArith Lia Ascii.
From S2P Require Import Prelude Errors.

(** ** [ByteWriter] *)

Record ByteWriter := MkByteWriter { writer_data : list byte }.

Definition new_writer : ByteWriter := MkByteWriter [].

Definition push_back (w : ByteWriter) (b : byte) : ByteWriter :=
  MkByteWriter (writer_data w ++ [b]).

Fixpoint write_unsigned (w : ByteWriter) (v : Z) (byte_count : nat) : ByteWriter :=
  match byte_count with
  | O => w
  | S n =>
    let b := byte_of_Z (u8 (Z.land v 255)) in
    write_unsigned (push_back w b) (Z.shiftr v 8) n
  end.

Definition write_u8 (w : ByteWriter) (v : Z) : ByteWriter := write_unsigned w v 1.
Definition write_u16 (w : ByteWriter) (v : Z) : ByteWriter := write_unsigned w v 2.
Definition write_u32 (w : ByteWriter) (v : Z) : ByteWriter := write_unsigned w v 4.
Definition write_u64 (w : ByteWriter) (v : Z) : ByteWriter := write_unsigned w v 8.

Definition write_bytes (w : ByteWriter) (bytes : list byte) : ByteWriter :=
  foldl push_back w bytes.

(** ** [ByteReader] *)

Record ByteReader := MkByteReader { reader_data : list byte; position : Z }.

Definition new_reader (bytes : list byte) : ByteReader := MkByteReader bytes 0.

Definition remaining (r : ByteReader) : Z := size (reader_data r) - position r.

Definition can_read (r : ByteReader) (count : Z) : bool := count <=? remaining r.

Definition advance (r : ByteReader) (n : Z) : ByteReader :=
  MkByteReader (reader_data r) (position r + n).

(** The loop of [read_unsigned]. *)
Fixpoint read_unsigned_loop (r : ByteReader) (index count : nat) (decoded : Z) : Z :=
  match count with
  | O => decoded
  | S n =>
    let b := byte_at (reader_data r) (position r + Z.of_nat index) in
    let shift := Z.of_nat index * 8 in
    read_unsigned_loop r (S index) n (Z.lor decoded (u64 (Z.shiftl b shift)))
  end.

(** A decoder: [Ok None] is the C++ function returning [false] (or
    [std::nullopt]), [Err] an exception. *)
Definition Parser (A : Type) : Type := ByteReader -> result (option (A * ByteReader)).

#[export] Instance Parser_ret : MRet Parser := fun A a r => Ok (Some (a, r)).
#[export] Instance Parser_bind : MBind Parser := fun A B f p r =>
  match p r with
  | Ok (Some (a, r')) => f a r'
  | Ok None => Ok None
  | Err e => Err e
  end.

Definition reject {A} : Parser A := fun _ => Ok None.
Definition p_lift {A} (m : result A) : Parser A := fun r =>
  match m with Ok a => Ok (Some (a, r)) | Err e => Err e end.
Definition p_remaining : Parser Z := fun r => Ok (Some (remaining r, r)).
(** [if (condition) { return std::nullopt; }] *)
Definition reject_if (condition : bool) : Parser unit :=
  if condition then reject else mret tt.

Definition read_unsigned (byte_count : nat) : Parser Z := fun r =>
  if 8 <? Z.of_nat byte_count then Ok None
  else if negb (can_read r (Z.of_nat byte_count)) then Ok None
  else Ok (Some (read_unsigned_loop r 0 byte_count 0, advance r (Z.of_nat byte_count))).

Definition read_u8 : Parser Z := decoded ← read_unsigned 1; mret (u8 decoded).
Definition read_u16 : Parser Z := decoded ← read_unsigned 2; mret (u16 decoded).
Definition read_u32 : Parser Z := decoded ← read_unsigned 4; mret (u32 decoded).
Definition read_u64 : Parser Z := decoded ← read_unsigned 8; mret decoded.

Definition read_bytes (count : Z) : Parser (list byte) := fun r =>
  if negb (can_read r count) then Ok None
  else Ok (Some (map (fun index => nth (Z.to_nat (position r) + index) (reader_data r) Byte.x00)
                   (seq 0 (Z.to_nat count)),
                 advance r count)).

(** ** Strings: a 32-bit length and the characters

    Each codec file has its own copy of these two functions; the copies differ in
    the text of the [length_error] only. *)

Fixpoint write_chars (w : ByteWriter) (s : string) : ByteWriter :=
  match s with
  | EmptyString => w
  | String c s' => write_chars (write_u8 w (Z_of_byte (byte_of_ascii c))) s'
  end.

Definition string_size (s : string) : Z := Z.of_nat (String.length s).

Definition write_string_or (too_large : string) (w : ByteWriter) (s : string) : result ByteWriter :=
  throw_if (max_u32 <? string_size s) (length_error too_large);;
  Ok (write_chars (write_u32 w (u32 (string_size s))) s).

Fixpoint read_chars (length : nat) (decoded : string) : Parser string :=
  match length with
  | O => mret decoded
  | S n =>
    b ← read_u8;
    read_chars n (decoded +:+ String (ascii_of_byte (byte_of_Z b)) EmptyString)
  end.

Definition read_string : Parser string :=
  encoded_length ← read_u32;
  rem ← p_remaining;
  reject_if (rem <? encoded_length);;
  read_chars (Z.to_nat encoded_length) EmptyString.

(** * Specification *)

(** The little-endian encoding of the low [n] bytes of [v], and its inverse. *)
Fixpoint le (n : nat) (v : Z) : list byte :=
  match n with
  | O => []
  | S n => byte_of_Z (v mod 256) :: le n (v / 256)
  end.

Fixpoint unle (bytes : list byte) : Z :=
  match bytes with
  | [] => 0
  | b :: rest => Z_of_byte b + 256 * unle rest
  end.

Fixpoint string_bytes (s : string) : list byte :=
  match s with
  | EmptyString => []
  | String c s' => byte_of_ascii c :: string_bytes s'
  end.

Definition le_string (s : string) : list byte := le 4 (string_size s) ++ string_bytes s.

(** The bytes a reader has not consumed yet, and its class invariant. *)
Definition unread (r : ByteReader) : list byte := drop (Z.to_nat (position r)) (reader_data r).
Definition reader_ok (r : ByteReader) : Prop := 0 <= position r <= size (reader_data r).

(** [reads p bytes a]: wherever [bytes] come next, [p] consumes them and returns [a]. *)
Definition reads {A} (p : Parser A) (bytes : list byte) (a : A) : Prop :=
  forall r rest, reader_ok r -> unread r = bytes ++ rest ->
  p r = Ok (Some (a, advance r (size bytes))).

(** [reads_all p bytes a]: the same when nothing follows [bytes]. *)
Definition reads_all {A} (p : Parser A) (bytes : list byte) (a : A) : Prop :=
  forall r, reader_ok r -> unread r = bytes -> p r = Ok (Some (a, advance r (size bytes))).

(** [consumed r bytes r']: from [r] to [r'] the reader moved over [bytes]. *)
Definition consumed (r : ByteReader) (bytes : list byte) (r' : ByteReader) : Prop :=
  reader_ok r' /\ unread r = bytes ++ unread r'.

(** [quiet p]: [p] throws nothing. *)
Definition quiet {A} (p : Parser A) : Prop := forall r e, p r <> Err e.

(** * Lemmas *)

(** ** The reference encoding *)

Lemma length_le n v : length (le n v) = n.
Proof. revert v. induction n; simpl; auto. Qed.

Lemma size_le n v : size (le n v) = Z.of_nat n.
Proof. unfold size. by rewrite length_le. Qed.
#[export] Hint Rewrite size_le : chrono_size.

Lemma unle_range bytes : 0 <= unle bytes < 256 ^ size bytes.
Proof.
  induction bytes as [|b bytes IH]; [done|].
  cbn [unle]. rewrite size_cons, Z.pow_add_r, Z.pow_1_r by (auto with chrono || lia).
  pose proof (Z_of_byte_range b). lia.
Qed.

Lemma unle_le n v : unle (le n v) = v mod 256 ^ Z.of_nat n.
Proof.
  revert v. induction n as [|n IH]; intros v; [by rewrite Z.mod_1_r|].
  cbn [le unle]. rewrite IH, Z_of_byte_of_Z by (apply Z.mod_pos_bound; lia).
  replace (Z.of_nat (S n)) with (1 + Z.of_nat n) by lia.
  rewrite Z.pow_add_r, Z.pow_1_r by lia. rewrite Z.rem_mul_r by lia. lia.
Qed.

Lemma unle_le_small n v : 0 <= v < 256 ^ Z.of_nat n -> unle (le n v) = v.
Proof. intros. rewrite unle_le. by apply Z.mod_small. Qed.

Lemma le_unle bytes : le (length bytes) (unle bytes) = bytes.
Proof.
  induction bytes as [|b bytes IH]; [done|]. cbn [length unle le].
  pose proof (Z_of_byte_range b).
  replace (Z_of_byte b + 256 * unle bytes) with (Z_of_byte b + unle bytes * 256) by lia.
  rewrite Z.mod_add, Z.div_add by lia.
  rewrite Z.mod_small, Z.div_small, Z.add_0_l, byte_of_Z_of_byte, IH by lia. done.
Qed.

Lemma le_unle_n n bytes : length bytes = n -> le n (unle bytes) = bytes.
Proof. intros <-. apply le_unle. Qed.

Lemma le_mod n v : le n (v mod 256 ^ Z.of_nat n) = le n v.
Proof.
  rewrite <-unle_le. apply le_unle_n, length_le.
Qed.

Lemma length_string_bytes s : length (string_bytes s) = String.length s.
Proof. induction s; simpl; auto. Qed.

Lemma size_string_bytes s : size (string_bytes s) = string_size s.
Proof. unfold size, string_size. by rewrite length_string_bytes. Qed.

Lemma string_size_nonneg s : 0 <= string_size s.
Proof. unfold string_size. lia. Qed.
#[export] Hint Resolve string_size_nonneg : chrono.

Lemma size_le_string s : size (le_string s) = 4 + string_size s.
Proof. unfold le_string. rewrite size_app, size_le, size_string_bytes. lia. Qed.
#[export] Hint Rewrite size_le_string size_string_bytes : chrono_size.

Lemma string_bytes_inj s t : string_bytes s = string_bytes t -> s = t.
Proof.
  revert t. induction s as [|a s IH]; intros [|b t]; simpl; try congruence.
  intros [= Hab Hst]. f_equal; [|auto].
  by rewrite <-(ascii_of_byte_of_ascii a), <-(ascii_of_byte_of_ascii b), Hab.
Qed.

Lemma string_bytes_app s t : string_bytes (s +:+ t) = string_bytes s ++ string_bytes t.
Proof. induction s as [|c s IH]; [done|]. simpl. by rewrite IH. Qed.

(** ** The writer appends the reference encoding *)

Lemma write_unsigned_le w v n :
  0 <= v -> writer_data (write_unsigned w v n) = writer_data w ++ le n v.
Proof.
  revert w v. induction n as [|n IH]; intros w v Hv; cbn [write_unsigned le].
  { by rewrite app_nil_r. }
  rewrite IH by (apply Z.shiftr_nonneg; lia).
  unfold push_back. simpl writer_data. rewrite <-app_assoc. simpl. do 2 f_equal.
  - f_equal. change 255 with (Z.ones 8). rewrite Z.land_ones by lia.
    unfold u8. change (2 ^ 8) with 256. by rewrite Z.mod_mod by lia.
  - rewrite Z.shiftr_div_pow2 by lia. done.
Qed.

Lemma write_u8_le w v : 0 <= v -> writer_data (write_u8 w v) = writer_data w ++ le 1 v.
Proof. apply write_unsigned_le. Qed.
Lemma write_u16_le w v : 0 <= v -> writer_data (write_u16 w v) = writer_data w ++ le 2 v.
Proof. apply write_unsigned_le. Qed.
Lemma write_u32_le w v : 0 <= v -> writer_data (write_u32 w v) = writer_data w ++ le 4 v.
Proof. apply write_unsigned_le. Qed.
Lemma write_u64_le w v : 0 <= v -> writer_data (write_u64 w v) = writer_data w ++ le 8 v.
Proof. apply write_unsigned_le. Qed.

Lemma write_bytes_app w bytes : writer_data (write_bytes w bytes) = writer_data w ++ bytes.
Proof.
  unfold write_bytes. revert w. induction bytes as [|b bytes IH]; intros w; simpl.
  - by rewrite app_nil_r.
  - rewrite IH. unfold push_back. simpl. by rewrite <-app_assoc.
Qed.

Lemma write_chars_app w s : writer_data (write_chars w s) = writer_data w ++ string_bytes s.
Proof.
  revert w. induction s as [|c s IH]; intros w; simpl; [by rewrite app_nil_r|].
  pose proof (Z_of_byte_range (byte_of_ascii c)).
  rewrite IH, write_u8_le by lia. cbn [le].
  rewrite Z.mod_small, byte_of_Z_of_byte by lia. by rewrite <-app_assoc.
Qed.

Lemma write_string_spec what w s w' :
  write_string_or what w s = Ok w' <->
  string_size s <= max_u32 /\ w' = write_chars (write_u32 w (u32 (string_size s))) s.
Proof.
  unfold write_string_or, throw_if. destruct (max_u32 <? string_size s) eqn:E; bool_to_prop; simpl.
  - split; [done|]. lia.
  - split; [intros [= <-]; auto | by intros (_ & ->)].
Qed.

Lemma write_string_throws what w s e :
  write_string_or what w s = Err e -> exists text, e = length_error text.
Proof.
  unfold write_string_or, throw_if. destruct (max_u32 <? _); simpl; [|done].
  intros [= <-]. eauto.
Qed.

Lemma write_string_data what w s w' :
  write_string_or what w s = Ok w' ->
  string_size s <= max_u32 /\ writer_data w' = writer_data w ++ le_string s.
Proof.
  rewrite write_string_spec. intros (Hle & ->). split; [done|].
  pose proof (string_size_nonneg s).
  rewrite write_chars_app, u32_small, write_u32_le by (unfold in_u, max_u32 in *; lia).
  unfold le_string. by rewrite app_assoc.
Qed.

(** ** The reader decodes the reference encoding *)

Lemma lor_shiftl_add a b n :
  0 <= n -> 0 <= a < 2 ^ n -> Z.lor a (Z.shiftl b n) = a + b * 2 ^ n.
Proof.
  intros Hn Ha. rewrite <-Z.shiftl_mul_pow2 by done. symmetry. apply Z.add_nocarry_lor.
  apply Z.bits_inj'. intros i Hi. rewrite Z.land_spec, Z.bits_0.
  destruct (decide (i < n)).
  - by rewrite Z.shiftl_spec_low, andb_false_r.
  - rewrite (Z.testbit_eqb a i) by lia. rewrite Z.div_small; [done|].
    split; [lia|]. apply Z.lt_le_trans with (2 ^ n); [lia|]. apply Z.pow_le_mono_r; lia.
Qed.

Lemma byte_at_drop bytes i b rest :
  0 <= i -> drop (Z.to_nat i) bytes = b :: rest -> byte_at bytes i = Z_of_byte b.
Proof.
  intros Hi Hd. unfold byte_at.
  rewrite <-(take_drop (Z.to_nat i) bytes), Hd.
  assert (length (take (Z.to_nat i) bytes) = Z.to_nat i) as Hl.
  { rewrite length_take. apply (f_equal length) in Hd. rewrite length_drop in Hd.
    simpl in Hd. lia. }
  rewrite app_nth2 by lia. by rewrite Hl, Nat.sub_diag.
Qed.

Lemma read_unsigned_loop_spec r index count decoded bytes rest :
  reader_ok r -> (index + count <= 8)%nat -> length bytes = count ->
  0 <= decoded < 256 ^ Z.of_nat index ->
  drop (Z.to_nat (position r + Z.of_nat index)) (reader_data r) = bytes ++ rest ->
  read_unsigned_loop r index count decoded = decoded + 256 ^ Z.of_nat index * unle bytes.
Proof.
  intros Hr. revert index decoded bytes.
  induction count as [|n IH]; intros index decoded bytes Hlen Hb Hdec Hd.
  { destruct bytes; [|done]. cbn [unle read_unsigned_loop]. lia. }
  destruct bytes as [|b bytes]; [done|]. cbn [read_unsigned_loop unle].
  unfold reader_ok in Hr. rewrite <-app_comm_cons in Hd.
  rewrite (byte_at_drop _ _ b (bytes ++ rest)) by (done || lia). pose proof (Z_of_byte_range b).
  assert (256 ^ Z.of_nat (S index) = 256 ^ Z.of_nat index * 256) as Hpow.
  { rewrite Nat2Z.inj_succ, Z.pow_succ_r by lia. lia. }
  assert (2 ^ (Z.of_nat index * 8) = 256 ^ Z.of_nat index) as H256.
  { rewrite Z.mul_comm, Z.pow_mul_r by lia. done. }
  assert (256 ^ Z.of_nat index <= 256 ^ 7) by (apply Z.pow_le_mono_r; lia).
  assert (0 < 256 ^ Z.of_nat index) by (apply Z.pow_pos_nonneg; lia).
  assert (in_u 64 (Z.shiftl (Z_of_byte b) (Z.of_nat index * 8))).
  { unfold in_u. rewrite Z.shiftl_mul_pow2, H256 by lia. nia. }
  rewrite u64_small, lor_shiftl_add by (rewrite ?H256; done || lia).
  rewrite H256. simpl length in Hb. rewrite IH with (bytes := bytes); [|lia|lia| |].
  - rewrite Hpow. lia.
  - rewrite Hpow. nia.
  - replace (Z.to_nat (position r + Z.of_nat (S index)))
      with (S (Z.to_nat (position r + Z.of_nat index))) by lia.
    rewrite <-Nat.add_1_r, <-drop_drop, Hd. done.
Qed.

Lemma remaining_unread r : reader_ok r -> remaining r = size (unread r).
Proof. unfold reader_ok, remaining, unread. intros. rewrite size_drop; lia. Qed.

Lemma advance_ok r n : reader_ok r -> 0 <= n <= size (unread r) -> reader_ok (advance r n).
Proof.
  unfold reader_ok, advance, unread. simpl. intros Hr Hn. rewrite size_drop in Hn by lia. lia.
Qed.

Lemma unread_advance r n :
  reader_ok r -> 0 <= n -> unread (advance r n) = drop (Z.to_nat n) (unread r).
Proof.
  unfold reader_ok, unread, advance. simpl. intros Hr Hn. rewrite drop_drop. f_equal. lia.
Qed.

Lemma unread_advance_app r bytes rest :
  reader_ok r -> unread r = bytes ++ rest -> unread (advance r (size bytes)) = rest.
Proof.
  intros Hr Hu. rewrite unread_advance by (auto with chrono). rewrite Hu.
  by apply drop_size_app.
Qed.

Lemma advance_app_ok r bytes rest :
  reader_ok r -> unread r = bytes ++ rest -> reader_ok (advance r (size bytes)).
Proof.
  intros Hr Hu. apply advance_ok; [done|]. rewrite Hu, size_app.
  pose proof (size_nonneg bytes). pose proof (size_nonneg rest). lia.
Qed.

Lemma advance_advance r n m : advance (advance r n) m = advance r (n + m).
Proof. unfold advance. simpl. f_equal. lia. Qed.

Lemma advance_0 r : advance r 0 = r.
Proof. destruct r. unfold advance. simpl. f_equal. lia. Qed.

Lemma new_reader_ok bytes : reader_ok (new_reader bytes).
Proof. unfold reader_ok. simpl. auto with chrono. split; [lia|]. apply size_nonneg. Qed.

Lemma unread_new bytes : unread (new_reader bytes) = bytes.
Proof. done. Qed.
#[export] Hint Resolve new_reader_ok advance_ok advance_app_ok : chrono.

(** [read_unsigned] on every branch. *)
Lemma read_unsigned_spec n r :
  reader_ok r -> (n <= 8)%nat ->
  read_unsigned n r =
  if size (unread r) <? Z.of_nat n then Ok None
  else Ok (Some (unle (take n (unread r)), advance r (Z.of_nat n))).
Proof.
  intros Hr Hn. unfold read_unsigned, can_read. rewrite remaining_unread by done.
  assert ((8 <? Z.of_nat n) = false) as -> by (apply Z.ltb_ge; lia).
  destruct (size (unread r) <? Z.of_nat n) eqn:E; bool_to_prop.
  - assert ((Z.of_nat n <=? size (unread r)) = false) as -> by (apply Z.leb_gt; lia). done.
  - assert ((Z.of_nat n <=? size (unread r)) = true) as -> by (apply Z.leb_le; lia). simpl.
    do 3 f_equal.
    rewrite (read_unsigned_loop_spec _ _ _ _ (take n (unread r)) (drop n (unread r)));
      [lia | done | lia | | simpl; lia |].
    + rewrite length_take. unfold size in *. lia.
    + rewrite take_drop. unfold unread. f_equal. lia.
Qed.

(** ** [reads]: composing round trips *)

Lemma reads_ret {A} (a : A) : reads (mret a) [] a.
Proof. intros r rest Hr _. change (size (@nil byte)) with 0. by rewrite advance_0. Qed.

Lemma reads_bind {A B} (p : Parser A) (f : A -> Parser B) b1 b2 a c :
  reads p b1 a -> reads (f a) b2 c -> reads (p ≫= f) (b1 ++ b2) c.
Proof.
  intros Hp Hf r rest Hr Hu. rewrite <-app_assoc in Hu.
  unfold mbind, Parser_bind. rewrite (Hp r (b2 ++ rest)) by done.
  rewrite (Hf _ rest), advance_advance, size_app; eauto with chrono.
  by eapply unread_advance_app.
Qed.

Lemma reads_bind_nil {A B} (p : Parser A) (f : A -> Parser B) b a c :
  reads p [] a -> reads (f a) b c -> reads (p ≫= f) b c.
Proof. intros Hp Hf. by apply (reads_bind p f [] b a c). Qed.

Lemma reads_lift {A} (m : result A) a : m = Ok a -> reads (p_lift m) [] a.
Proof.
  intros -> r rest Hr _. unfold p_lift. change (size (@nil byte)) with 0.
  by rewrite advance_0.
Qed.

Lemma reads_reject_if c : c = false -> reads (reject_if c) [] tt.
Proof. intros ->. apply reads_ret. Qed.

Lemma reads_reads_all {A} (p : Parser A) bytes a : reads p bytes a -> reads_all p bytes a.
Proof. intros Hp r Hr Hu. apply (Hp r []); [done|]. by rewrite app_nil_r. Qed.

Lemma reads_all_bind {A B} (p : Parser A) (f : A -> Parser B) b1 b2 a c :
  reads p b1 a -> reads_all (f a) b2 c -> reads_all (p ≫= f) (b1 ++ b2) c.
Proof.
  intros Hp Hf r Hr Hu. unfold mbind, Parser_bind. rewrite (Hp r b2) by done.
  rewrite Hf, advance_advance, size_app; eauto with chrono. by eapply unread_advance_app.
Qed.

(** [remaining()] sees everything that is left. *)
Lemma reads_all_remaining {A} (f : Z -> Parser A) bytes a :
  reads_all (f (size bytes)) bytes a -> reads_all (p_remaining ≫= f) bytes a.
Proof.
  intros Hf r Hr Hu. unfold mbind, Parser_bind, p_remaining.
  rewrite remaining_unread, Hu by done. by apply Hf.
Qed.

Lemma reads_remaining {A} (f : Z -> Parser A) bytes a :
  (forall n, size bytes <= n -> reads (f n) bytes a) -> reads (p_remaining ≫= f) bytes a.
Proof.
  intros Hf r rest Hr Hu. unfold mbind, Parser_bind, p_remaining.
  rewrite remaining_unread, Hu, size_app by done. pose proof (size_nonneg rest).
  apply (Hf (size bytes + size rest)) with (rest := rest); [lia|done|done].
Qed.

Lemma reads_all_reject_if {A} c (p : Parser A) bytes a :
  c = false -> reads_all p bytes a -> reads_all (reject_if c ≫= fun _ => p) bytes a.
Proof. intros -> Hp r Hr Hu. by apply Hp. Qed.

Lemma reads_all_lift {A} (m : result A) a : m = Ok a -> reads_all (p_lift m) [] a.
Proof. intros. by apply reads_reads_all, reads_lift. Qed.

Lemma reads_all_ret {A} (a : A) : reads_all (mret a) [] a.
Proof. apply reads_reads_all, reads_ret. Qed.

Lemma reads_all_new {A} (p : Parser A) bytes a :
  reads_all p bytes a -> exists r, p (new_reader bytes) = Ok (Some (a, r)) /\ unread r = [].
Proof.
  intros Hp. eexists. split; [apply Hp; auto with chrono|].
  rewrite <-(unread_advance_app (new_reader bytes) bytes []); auto with chrono.
  by rewrite unread_new, app_nil_r.
Qed.

Lemma reads_unsigned n v :
  (n <= 8)%nat -> 0 <= v < 256 ^ Z.of_nat n -> reads (read_unsigned n) (le n v) v.
Proof.
  intros Hn Hv r rest Hr Hu. rewrite read_unsigned_spec, Hu, size_app, size_le by done.
  pose proof (size_nonneg rest).
  assert ((Z.of_nat n + size rest <? Z.of_nat n) = false) as -> by (apply Z.ltb_ge; lia).
  by rewrite take_app_length', unle_le_small by (rewrite ?length_le; done).
Qed.

Lemma reads_u8 v : in_u 8 v -> reads read_u8 (le 1 v) v.
Proof.
  intros Hv. rewrite <-(app_nil_r (le 1 v)). eapply reads_bind; [by apply reads_unsigned; [lia|]|].
  rewrite u8_small by done. apply reads_ret.
Qed.
Lemma reads_u16 v : in_u 16 v -> reads read_u16 (le 2 v) v.
Proof.
  intros Hv. rewrite <-(app_nil_r (le 2 v)). eapply reads_bind; [by apply reads_unsigned; [lia|]|].
  rewrite u16_small by done. apply reads_ret.
Qed.
Lemma reads_u32 v : in_u 32 v -> reads read_u32 (le 4 v) v.
Proof.
  intros Hv. rewrite <-(app_nil_r (le 4 v)). eapply reads_bind; [by apply reads_unsigned; [lia|]|].
  rewrite u32_small by done. apply reads_ret.
Qed.
Lemma reads_u64 v : in_u 64 v -> reads read_u64 (le 8 v) v.
Proof.
  intros Hv. rewrite <-(app_nil_r (le 8 v)). eapply reads_bind; [by apply reads_unsigned; [lia|]|].
  apply reads_ret.
Qed.
#[export] Hint Resolve reads_u8 reads_u16 reads_u32 reads_u64 : chrono.

Lemma string_append_assoc (s t u : string) : (s +:+ t) +:+ u = s +:+ (t +:+ u).
Proof. induction s as [|c s IH]; [done|]. exact (f_equal (String c) IH). Qed.

Lemma string_append_nil (s : string) : s +:+ EmptyString = s.
Proof. induction s as [|c s IH]; [done|]. exact (f_equal (String c) IH). Qed.

Lemma reads_chars s acc :
  reads (read_chars (String.length s) acc) (string_bytes s) (acc +:+ s).
Proof.
  revert acc. induction s as [|c s IH]; intros acc; cbn [String.length read_chars string_bytes].
  { rewrite string_append_nil. apply reads_ret. }
  pose proof (Z_of_byte_range (byte_of_ascii c)) as Hc.
  replace (byte_of_ascii c :: string_bytes s)
    with (le 1 (Z_of_byte (byte_of_ascii c)) ++ string_bytes s).
  2:{ cbn [le]. by rewrite Z.mod_small, byte_of_Z_of_byte. }
  eapply reads_bind; [by apply reads_u8|].
  rewrite byte_of_Z_of_byte, ascii_of_byte_of_ascii.
  replace (acc +:+ String c s) with ((acc +:+ String c EmptyString) +:+ s); [apply IH|].
  by rewrite string_append_assoc.
Qed.

Lemma reads_string s : string_size s <= max_u32 -> reads read_string (le_string s) s.
Proof.
  intros Hs r rest Hr Hu. unfold read_string, le_string in *.
  pose proof (string_size_nonneg s).
  rewrite <-app_assoc in Hu.
  unfold mbind at 1, Parser_bind at 1.
  rewrite (reads_u32 (string_size s)) with (rest := string_bytes s ++ rest);
    [|unfold in_u, max_u32 in *; lia|done|done].
  set (r1 := advance r (size (le 4 (string_size s)))).
  assert (reader_ok r1) as Hr1 by eauto with chrono.
  assert (unread r1 = string_bytes s ++ rest) as Hu1 by (by eapply unread_advance_app).
  unfold mbind at 1, Parser_bind at 1, p_remaining.
  rewrite remaining_unread, Hu1, size_app, size_string_bytes by done.
  pose proof (size_nonneg rest).
  assert ((string_size s + size rest <? string_size s) = false) as -> by (apply Z.ltb_ge; lia).
  unfold reject_if, mbind at 1, Parser_bind at 1, mret, Parser_ret at 1.
  replace (Z.to_nat (string_size s)) with (String.length s) by (unfold string_size; lia).
  rewrite (reads_chars s EmptyString r1 rest) by done.
  unfold r1. rewrite advance_advance, size_app. done.
Qed.
#[export] Hint Resolve reads_string reads_ret reads_all_ret : chrono.

(** ** [consumed]: inverting a successful decoder *)

Lemma p_bind_Some {A B} (p : Parser A) (f : A -> Parser B) r b r' :
  (p ≫= f) r = Ok (Some (b, r')) <->
  exists a r1, p r = Ok (Some (a, r1)) /\ f a r1 = Ok (Some (b, r')).
Proof.
  unfold mbind, Parser_bind. destruct (p r) as [[[a r1]|]|e]; split.
  - intros H. eauto.
  - intros (? & ? & [= <- <-] & H). done.
  - done.
  - by intros (? & ? & [=] & _).
  - done.
  - by intros (? & ? & [=] & _).
Qed.

Lemma p_lift_Some {A} (m : result A) r a r' :
  p_lift m r = Ok (Some (a, r')) <-> m = Ok a /\ r' = r.
Proof.
  unfold p_lift. destruct m; split.
  - by intros [= -> ->].
  - by intros ([= ->] & ->).
  - done.
  - by intros ([=] & _).
Qed.

Lemma reject_if_Some c r u r' :
  reject_if c r = Ok (Some (u, r')) <-> c = false /\ r' = r.
Proof.
  unfold reject_if, reject. destruct c, u; split.
  - done.
  - by intros ([=] & _).
  - by intros [= ->].
  - by intros (_ & ->).
Qed.

Lemma p_remaining_Some r n r' :
  p_remaining r = Ok (Some (n, r')) <-> n = remaining r /\ r' = r.
Proof. unfold p_remaining. split; [by intros [= -> ->] | by intros (-> & ->)]. Qed.

Lemma p_ret_Some {A} (a b : A) r r' :
  (mret a : Parser A) r = Ok (Some (b, r')) <-> b = a /\ r' = r.
Proof. unfold mret, Parser_ret. split; [by intros [= -> ->] | by intros (-> & ->)]. Qed.

(** Splits a successful decoder into its steps. *)
Ltac parser_inv :=
  repeat match goal with
  | H : (_ ≫= _) _ = Ok (Some _) |- _ =>
      let a := fresh "a" in let r := fresh "r" in let Ha := fresh "Hp" in
      apply p_bind_Some in H; destruct H as (a & r & Ha & H)
  | H : p_lift _ _ = Ok (Some _) |- _ => apply p_lift_Some in H as [? ->]
  | H : reject_if _ _ = Ok (Some _) |- _ => apply reject_if_Some in H as [? ->]
  | H : p_remaining _ = Ok (Some _) |- _ => apply p_remaining_Some in H as [-> ->]
  | H : mret _ _ = Ok (Some _) |- _ => apply p_ret_Some in H as [-> ->]
  | H : reject _ = Ok (Some _) |- _ => discriminate H
  | u : unit |- _ => destruct u
  end.

Lemma consumed_refl r : reader_ok r -> consumed r [] r.
Proof. by split. Qed.

Lemma consumed_trans r1 b1 r2 b2 r3 :
  consumed r1 b1 r2 -> consumed r2 b2 r3 -> consumed r1 (b1 ++ b2) r3.
Proof. intros [Hr2 H1] [Hr3 H2]. split; [done|]. by rewrite H1, H2, app_assoc. Qed.

Lemma consumed_ok r b r' : consumed r b r' -> reader_ok r'.
Proof. by intros [? _]. Qed.
#[export] Hint Resolve consumed_refl consumed_trans consumed_ok : chrono.

Lemma read_unsigned_inv n r v r' :
  reader_ok r -> (n <= 8)%nat -> read_unsigned n r = Ok (Some (v, r')) ->
  0 <= v < 256 ^ Z.of_nat n /\ consumed r (le n v) r'.
Proof.
  intros Hr Hn. rewrite read_unsigned_spec by done.
  destruct (size (unread r) <? Z.of_nat n) eqn:E; [done|]. bool_to_prop. intros [= <- <-].
  assert (length (take n (unread r)) = n) as Hl.
  { rewrite length_take. unfold size in E. lia. }
  split.
  - pose proof (unle_range (take n (unread r))) as Hu. unfold size in Hu. by rewrite Hl in Hu.
  - split; [apply advance_ok; [done|lia]|].
    rewrite le_unle_n, unread_advance, Nat2Z.id by (done || lia). by rewrite take_drop.
Qed.

Lemma read_u8_inv r v r' :
  reader_ok r -> read_u8 r = Ok (Some (v, r')) -> in_u 8 v /\ consumed r (le 1 v) r'.
Proof.
  intros Hr H. unfold read_u8 in H. parser_inv.
  apply read_unsigned_inv in Hp as [Hv Hc]; [|done|lia]. by rewrite u8_small.
Qed.
Lemma read_u16_inv r v r' :
  reader_ok r -> read_u16 r = Ok (Some (v, r')) -> in_u 16 v /\ consumed r (le 2 v) r'.
Proof.
  intros Hr H. unfold read_u16 in H. parser_inv.
  apply read_unsigned_inv in Hp as [Hv Hc]; [|done|lia]. by rewrite u16_small.
Qed.
Lemma read_u32_inv r v r' :
  reader_ok r -> read_u32 r = Ok (Some (v, r')) -> in_u 32 v /\ consumed r (le 4 v) r'.
Proof.
  intros Hr H. unfold read_u32 in H. parser_inv.
  apply read_unsigned_inv in Hp as [Hv Hc]; [|done|lia]. by rewrite u32_small.
Qed.
Lemma read_u64_inv r v r' :
  reader_ok r -> read_u64 r = Ok (Some (v, r')) -> in_u 64 v /\ consumed r (le 8 v) r'.
Proof.
  intros Hr H. unfold read_u64 in H. parser_inv.
  by apply read_unsigned_inv in Hp as [Hv Hc]; [|done|lia].
Qed.

Lemma read_chars_inv n acc r s r' :
  reader_ok r -> read_chars n acc r = Ok (Some (s, r')) ->
  exists t, s = acc +:+ t /\ String.length t = n /\ consumed r (string_bytes t) r'.
Proof.
  revert acc r. induction n as [|n IH]; intros acc r Hr H; cbn [read_chars] in H; parser_inv.
  - exists EmptyString. rewrite string_append_nil. auto with chrono.
  - apply read_u8_inv in Hp as [Ha Hc]; [|done].
    apply IH in H as (t & -> & <- & Ht); [|eauto with chrono].
    exists (String (ascii_of_byte (byte_of_Z a)) t). rewrite string_append_assoc.
    split_and!; [done..|]. cbn [string_bytes]. rewrite byte_of_ascii_of_byte.
    replace (byte_of_Z a :: string_bytes t) with (le 1 a ++ string_bytes t); [by eapply consumed_trans|].
    cbn [le]. by rewrite Z.mod_small.
Qed.

Lemma read_string_inv r s r' :
  reader_ok r -> read_string r = Ok (Some (s, r')) ->
  string_size s <= max_u32 /\ consumed r (le_string s) r'.
Proof.
  intros Hr H. unfold read_string in H. parser_inv.
  apply read_u32_inv in Hp as [Ha Hc]; [|done].
  apply read_chars_inv in H as (t & -> & Ht & Hc'); [|eauto with chrono].
  change (EmptyString +:+ t) with t.
  assert (string_size t = a) as <-.
  { unfold string_size, in_u in *. lia. }
  unfold in_u, max_u32 in *. split; [lia|]. unfold le_string. eauto with chrono.
Qed.

(** [read_bytes] is the span's next [count] bytes, or fails without moving. *)
Lemma read_bytes_spec count r :
  reader_ok r -> 0 <= count ->
  read_bytes count r =
  if size (unread r) <? count then Ok None
  else Ok (Some (take (Z.to_nat count) (unread r), advance r count)).
Proof.
  intros Hr Hcount. unfold read_bytes, can_read. rewrite remaining_unread by done.
  destruct (size (unread r) <? count) eqn:E; bool_to_prop.
  - by rewrite (proj2 (Z.leb_gt _ _)) by lia.
  - rewrite (proj2 (Z.leb_le _ _)) by lia. simpl. do 3 f_equal.
    apply list_eq. intros i. rewrite list_lookup_fmap.
    destruct (decide (i < Z.to_nat count)%nat) as [Hi|Hi].
    + rewrite lookup_seq_lt, lookup_take_lt by done. simpl.
      unfold unread. rewrite lookup_drop, nth_lookup.
      unfold unread in E. rewrite size_drop in E by apply Hr.
      destruct (lookup_lt_is_Some_2 (reader_data r) (Z.to_nat (position r) + i)) as [b Hb];
        [unfold reader_ok, size in *; lia|].
      by rewrite Hb.
    + rewrite lookup_seq_ge, lookup_take_ge by lia. done.
Qed.

(** ** [quiet] *)

Lemma quiet_bind {A B} (p : Parser A) (f : A -> Parser B) :
  quiet p -> (forall a, quiet (f a)) -> quiet (p ≫= f).
Proof.
  intros Hp Hf r e. unfold mbind, Parser_bind. destruct (p r) as [[[a r']|]|e'] eqn:E.
  - apply Hf.
  - done.
  - by apply Hp in E.
Qed.

Lemma quiet_ret {A} (a : A) : quiet (mret a).
Proof. done. Qed.
Lemma quiet_remaining : quiet p_remaining.
Proof. done. Qed.
Lemma quiet_reject_if c : quiet (reject_if c).
Proof. by destruct c. Qed.
Lemma quiet_reject {A} : quiet (@reject A).
Proof. done. Qed.
Lemma quiet_read_unsigned n : quiet (read_unsigned n).
Proof. intros r e. unfold read_unsigned. by repeat case_match_goal. Qed.
#[export] Hint Resolve quiet_bind quiet_ret quiet_remaining quiet_reject_if quiet_reject
  quiet_read_unsigned : chrono.
Lemma quiet_read_u8 : quiet read_u8.
Proof. unfold read_u8. auto with chrono. Qed.
Lemma quiet_read_u16 : quiet read_u16.
Proof. unfold read_u16. auto with chrono. Qed.
Lemma quiet_read_u32 : quiet read_u32.
Proof. unfold read_u32. auto with chrono. Qed.
Lemma quiet_read_u64 : quiet read_u64.
Proof. unfold read_u64. auto with chrono. Qed.
#[export] Hint Resolve quiet_read_u8 quiet_read_u16 quiet_read_u32 quiet_read_u64 : chrono.
Lemma quiet_read_chars n acc : quiet (read_chars n acc).
Proof. revert acc. induction n; intros acc; simpl; auto with chrono. Qed.
#[export] Hint Resolve quiet_read_chars : chrono.
Lemma quiet_read_string : quiet read_string.
Proof. unfold read_string. auto 10 with chrono. Qed.
#[export] Hint Resolve quiet_read_string : chrono.

(** ** Frames: the checksum field *)

(** A 32-bit field read from exactly its bytes. *)
Lemma read_u32_new bytes :
  size bytes = 4 -> exists r, read_u32 (new_reader bytes) = Ok (Some (unle bytes, r)).
Proof.
  intros Hs. pose proof (unle_range bytes) as Hu. rewrite Hs in Hu.
  eexists. apply (reads_u32 (unle bytes) Hu (new_reader bytes) []); [apply new_reader_ok|].
  rewrite app_nil_r, le_unle_n by (unfold size in Hs; lia). apply unread_new.
Qed.

Lemma le_4_unle (bytes : list byte) : size bytes = 4 -> le 4 (unle bytes) = bytes.
Proof. intros Hs. apply le_unle_n. unfold size in Hs. lia. Qed.

(** What a parser consumed from the start of a span. *)
Lemma consumed_new bytes b r :
  consumed (new_reader bytes) b r -> b = first (size b) bytes /\ size b <= size bytes.
Proof.
  intros [_ H]. rewrite unread_new in H. rewrite H. split; [by rewrite first_app|].
  rewrite size_app. pose proof (size_nonneg (unread r)). lia.
Qed.

(** Later files use the lemmas above, never the bodies. *)
#[global] Opaque le le_string read_string write_string_or.
