(* ===== verification/Crc32c.v ===== *)
(** * CRC32C (src/crc32c.cpp)

    The bitwise checksum of the sources, the division of the whole message it
    computes ([crc32c_division]), and what it detects: any change confined to four
    consecutive bytes ([crc32c_burst]). *)

From stdpp Require Import base tactics option numbers list strings.
From Stdlib Require Import ZArith Lia Strings.Byte.
From S2P Require Import Prelude ByteCodec.

Definition initial_value : Z := 4294967295.        (* 0xFFFFFFFF *)
Definition final_xor_value : Z := 4294967295.      (* 0xFFFFFFFF *)
Definition reflected_polynomial : Z := 2197175160. (* 0x82F63B78 *)
Definition bits_per_byte : nat := 8.

(** One turn of the inner loop. *)
Definition crc_bit (checksum : Z) : Z :=
  let lowest_bit_is_set := negb (Z.land checksum 1 =? 0) in
  let checksum := Z.shiftr checksum 1 in
  if lowest_bit_is_set then Z.lxor checksum reflected_polynomial else checksum.

(** One turn of the outer loop. *)
Definition crc_byte (checksum : Z) (b : byte) : Z :=
  Nat.iter bits_per_byte crc_bit (Z.lxor checksum (Z_of_byte b)).

Definition crc32c (bytes : list byte) : Z :=
  Z.lxor (foldl crc_byte initial_value bytes) final_xor_value.

(** ** Lemmas: one bit *)

Lemma crc_bit_odd x :
  crc_bit x = Z.lxor (Z.shiftr x 1) (if Z.odd x then reflected_polynomial else 0).
Proof.
  unfold crc_bit. change 1 with (Z.ones 1) at 1. rewrite Z.land_ones by lia.
  change (2 ^ 1) with 2. rewrite Zmod_odd. destruct (Z.odd x); simpl; [done|]. by rewrite Z.lxor_0_r.
Qed.

Lemma odd_lxor x y : Z.odd (Z.lxor x y) = xorb (Z.odd x) (Z.odd y).
Proof. rewrite <-!Z.bit0_odd. apply Z.lxor_spec. Qed.

(** The step is linear over exclusive or. *)
Lemma crc_bit_lxor x y : crc_bit (Z.lxor x y) = Z.lxor (crc_bit x) (crc_bit y).
Proof.
  rewrite !crc_bit_odd, odd_lxor, Z.shiftr_lxor.
  apply Z.bits_inj'. intros i Hi. rewrite !Z.lxor_spec.
  destruct (Z.odd x), (Z.odd y); simpl; rewrite ?Z.bits_0;
    destruct (Z.testbit (Z.shiftr x 1) i), (Z.testbit (Z.shiftr y 1) i),
      (Z.testbit reflected_polynomial i); done.
Qed.

Lemma crc_bits_lxor n x y :
  Nat.iter n crc_bit (Z.lxor x y) = Z.lxor (Nat.iter n crc_bit x) (Nat.iter n crc_bit y).
Proof. induction n as [|n IH]; simpl; [done|]. by rewrite IH, crc_bit_lxor. Qed.

Lemma iter_succ_inside {A} n (f : A -> A) x : Nat.iter (S n) f x = Nat.iter n f (f x).
Proof. induction n as [|n IH]; [done|]. simpl in *. by rewrite IH. Qed.

Lemma iter_plus {A} n m (f : A -> A) x : Nat.iter (n + m) f x = Nat.iter n f (Nat.iter m f x).
Proof. induction n as [|n IH]; simpl; [done|]. by rewrite IH. Qed.

(** An even state is only shifted. *)
Lemma crc_bit_double x : crc_bit (2 * x) = x.
Proof.
  rewrite crc_bit_odd, Z.odd_mul. simpl. rewrite Z.lxor_0_r, Z.shiftr_div_pow2 by lia.
  change (2 ^ 1) with 2. rewrite Z.mul_comm. by apply Z.div_mul.
Qed.

Lemma crc_bits_shiftl n x : Nat.iter n crc_bit (Z.shiftl x (Z.of_nat n)) = x.
Proof.
  induction n as [|n IH]; [apply Z.shiftl_0_r|].
  rewrite iter_succ_inside, Nat2Z.inj_succ, Z.shiftl_mul_pow2, Z.pow_succ_r by lia.
  replace (x * (2 * 2 ^ Z.of_nat n)) with (2 * (x * 2 ^ Z.of_nat n)) by lia.
  by rewrite crc_bit_double, <-Z.shiftl_mul_pow2 by lia.
Qed.

Lemma in_u_lxor w x y : 0 <= w -> in_u w x -> in_u w y -> in_u w (Z.lxor x y).
Proof.
  unfold in_u. intros Hw Hx Hy.
  assert (0 <= Z.lxor x y) by (apply Z.lxor_nonneg; lia).
  split; [done|]. destruct (decide (Z.lxor x y = 0)) as [->|Hn]; [lia|].
  apply Z.log2_lt_pow2; [lia|].
  eapply Z.le_lt_trans; [apply Z.log2_lxor; lia|].
  assert (forall z, 0 <= z < 2 ^ w -> z = 0 \/ Z.log2 z < w) as Hlog.
  { intros z Hz. destruct (decide (z = 0)); [by left|]. right. apply Z.log2_lt_pow2; lia. }
  pose proof (Z.log2_nonneg x). pose proof (Z.log2_nonneg y).
  destruct (Hlog x Hx) as [->|], (Hlog y Hy) as [->|]; [done|..];
    change (Z.log2 0) with 0 in *; lia.
Qed.

Lemma crc_bit_range x : in_u 32 x -> in_u 32 (crc_bit x).
Proof.
  intros Hx. rewrite crc_bit_odd. apply in_u_lxor; [lia| |].
  - unfold in_u in *. rewrite Z.shiftr_div_pow2 by lia. change (2 ^ 1) with 2.
    split; [apply Z.div_pos; lia|]. apply Z.div_lt_upper_bound; lia.
  - by destruct (Z.odd x).
Qed.

Lemma crc_bits_range n x : in_u 32 x -> in_u 32 (Nat.iter n crc_bit x).
Proof. intros Hx. induction n; simpl; auto using crc_bit_range. Qed.

(** The polynomial has its top bit, so no 32-bit state but 0 is sent to 0. *)
Lemma crc_bit_zero x : in_u 32 x -> crc_bit x = 0 -> x = 0.
Proof.
  intros Hx. rewrite crc_bit_odd. unfold in_u in Hx. intros H0.
  assert (Z.testbit (Z.shiftr x 1) 31 = false) as Htop.
  { rewrite Z.testbit_eqb by lia. rewrite Z.shiftr_div_pow2 by lia.
    rewrite (Z.div_small (x / 2 ^ 1)); [done|].
    split; [apply Z.div_pos; lia|]. apply Z.div_lt_upper_bound; lia. }
  destruct (Z.odd x) eqn:Ho.
  - apply (f_equal (fun z => Z.testbit z 31)) in H0.
    rewrite Z.lxor_spec, Htop in H0. done.
  - rewrite Z.lxor_0_r, Z.shiftr_div_pow2 in H0 by lia. change (2 ^ 1) with 2 in H0.
    pose proof (Z.div_mod x 2 ltac:(lia)) as Hd. rewrite Zmod_odd, Ho, H0 in Hd. lia.
Qed.

Lemma crc_bit_inj x y : in_u 32 x -> in_u 32 y -> crc_bit x = crc_bit y -> x = y.
Proof.
  intros Hx Hy Heq. apply Z.lxor_eq, crc_bit_zero; [by apply in_u_lxor|].
  by rewrite crc_bit_lxor, Heq, Z.lxor_nilpotent.
Qed.

Lemma crc_bits_inj n x y :
  in_u 32 x -> in_u 32 y -> Nat.iter n crc_bit x = Nat.iter n crc_bit y -> x = y.
Proof.
  intros Hx Hy. induction n as [|n IH]; simpl; [done|]. intros Heq.
  apply IH. apply crc_bit_inj in Heq; auto using crc_bits_range.
Qed.

(** ** Lemmas: bytes *)

Lemma in_u_byte b : in_u 32 (Z_of_byte b).
Proof. pose proof (Z_of_byte_range b). unfold in_u. lia. Qed.

Lemma crc_byte_range s b : in_u 32 s -> in_u 32 (crc_byte s b).
Proof. intros. apply crc_bits_range, in_u_lxor; auto using in_u_byte. lia. Qed.

Lemma crc_fold_range bytes s : in_u 32 s -> in_u 32 (foldl crc_byte s bytes).
Proof. revert s. induction bytes; simpl; auto using crc_byte_range. Qed.

Lemma crc_byte_inj s t b : in_u 32 s -> in_u 32 t -> crc_byte s b = crc_byte t b -> s = t.
Proof.
  intros Hs Ht Heq. apply crc_bits_inj in Heq; [|apply in_u_lxor; auto using in_u_byte; lia..].
  apply (f_equal (fun z => Z.lxor z (Z_of_byte b))) in Heq.
  by rewrite !Z.lxor_assoc, Z.lxor_nilpotent, !Z.lxor_0_r in Heq.
Qed.

Lemma crc_fold_inj bytes s t :
  in_u 32 s -> in_u 32 t -> foldl crc_byte s bytes = foldl crc_byte t bytes -> s = t.
Proof.
  revert s t. induction bytes as [|b bytes IH]; simpl; intros s t Hs Ht; [done|].
  intros Heq. apply IH in Heq; eauto using crc_byte_range, crc_byte_inj.
Qed.

(** Adding a byte in front of the rest of the message commutes with the steps. *)
Lemma unle_cons_lxor b bytes :
  unle (b :: bytes) = Z.lxor (Z_of_byte b) (Z.shiftl (unle bytes) 8).
Proof.
  pose proof (Z_of_byte_range b). cbn [unle].
  rewrite <-Z.add_nocarry_lxor; [rewrite Z.shiftl_mul_pow2; lia|].
  apply Z.bits_inj'. intros i Hi. rewrite Z.land_spec, Z.bits_0.
  destruct (decide (i < 8)).
  - by rewrite Z.shiftl_spec_low, andb_false_r.
  - rewrite Z.testbit_eqb by lia. rewrite Z.div_small; [done|].
    split; [lia|]. apply Z.lt_le_trans with (2 ^ 8); [lia|]. apply Z.pow_le_mono_r; lia.
Qed.

Lemma crc_fold_division bytes s :
  foldl crc_byte s bytes = Nat.iter (8 * length bytes) crc_bit (Z.lxor s (unle bytes)).
Proof.
  revert s. induction bytes as [|b bytes IH]; intros s; [by rewrite Z.lxor_0_r|].
  cbn [foldl length]. rewrite IH, unle_cons_lxor.
  replace (8 * S (length bytes))%nat with (8 * length bytes + 8)%nat by lia.
  rewrite iter_plus. f_equal. rewrite <-Z.lxor_assoc, crc_bits_lxor.
  change 8 with (Z.of_nat 8) at 1. by rewrite crc_bits_shiftl.
Qed.

Lemma initial_value_range : in_u 32 initial_value.
Proof. by unfold in_u, initial_value. Qed.

Lemma crc32c_in_u32 bytes : in_u 32 (crc32c bytes).
Proof.
  apply in_u_lxor; [lia| |done]. apply crc_fold_range, initial_value_range.
Qed.

Lemma crc32c_eq_fold l k :
  crc32c l = crc32c k <-> foldl crc_byte initial_value l = foldl crc_byte initial_value k.
Proof.
  unfold crc32c. split; [|by intros ->]. intros H.
  apply (f_equal (fun z => Z.lxor z final_xor_value)) in H.
  by rewrite !Z.lxor_assoc, Z.lxor_nilpotent, !Z.lxor_0_r in H.
Qed.

(** Equal checksums of messages that differ inside a window of at most four bytes
    force equal windows. *)
Lemma crc_burst prefix window window' suffix :
  length window = length window' -> (length window <= 4)%nat ->
  crc32c (prefix ++ window ++ suffix) = crc32c (prefix ++ window' ++ suffix) ->
  window = window'.
Proof.
  intros Hlen H4 Heq. apply crc32c_eq_fold in Heq. rewrite !foldl_app in Heq.
  pose proof (crc_fold_range prefix _ initial_value_range) as Hs.
  apply crc_fold_inj in Heq; [|by apply crc_fold_range..].
  set (state := foldl crc_byte initial_value prefix) in *.
  rewrite (crc_fold_division window), (crc_fold_division window'), Hlen in Heq.
  assert (forall w : list byte, (length w <= 4)%nat -> in_u 32 (unle w)) as Hw.
  { intros w Hl. pose proof (unle_range w). unfold in_u.
    assert (256 ^ size w <= 256 ^ 4) by (apply Z.pow_le_mono_r; unfold size; lia). lia. }
  apply crc_bits_inj in Heq; [|apply in_u_lxor; [lia|exact Hs|apply Hw; lia]..].
  apply (f_equal (Z.lxor state)) in Heq.
  rewrite <-!Z.lxor_assoc, Z.lxor_nilpotent, !Z.lxor_0_l in Heq.
  by rewrite <-(le_unle window), <-(le_unle window'), Heq, Hlen.
Qed.


(** ** Properties *)

(** C37: the bitwise routine divides the message, read as one little-endian
    integer and whitened by the initial value, by the reflected polynomial:
    processing byte by byte changes nothing. *)
Theorem crc32c_division bytes :
  crc32c bytes =
  Z.lxor (Nat.iter (8 * length bytes) crc_bit (Z.lxor initial_value (unle bytes)))
         final_xor_value.
Proof. unfold crc32c. by rewrite crc_fold_division. Qed.

(** C36: two messages that differ only inside a window of at most four
    consecutive bytes never have the same checksum. *)
Theorem crc32c_burst prefix window window' suffix :
  length window = length window' -> (length window <= 4)%nat -> window <> window' ->
  crc32c (prefix ++ window ++ suffix) <> crc32c (prefix ++ window' ++ suffix).
Proof. intros Hlen H4 Hne Heq. by apply Hne, (crc_burst prefix _ _ suffix). Qed.

Lemma crc32c_burst_witness :
  crc32c ([Byte.x31; Byte.x32] ++ [Byte.x33] ++ [Byte.x34]) <>
  crc32c ([Byte.x31; Byte.x32] ++ [Byte.x35] ++ [Byte.x34]).
Proof. apply crc32c_burst; [reflexivity | simpl; lia | discriminate]. Defined.

(** The published check value: CRC32C of the ASCII digits "123456789". *)
Example crc32c_check_value : crc32c (string_bytes "123456789") = 3808858755.
Proof. vm_compute. reflexivity. Qed.
