(* ===== verification/KeyCodec.v ===== *)
(** * Series keys on disk

    WAL records, segment blocks and the segment index share one encoding of a
    series key: the measurement, the number of tags, and the tags' keys and
    values.  The three encoders write the same loop; the WAL decoder accepts tags
    in any order, the two segment decoders only in strictly increasing key order. *)

From stdpp Require Import base tactics option numbers list strings.
From Stdlib Require Import ZArith Lia Sorted.
From S2P Require Import Prelude Errors Model ByteCodec.

(** The encoders' loop over the tags. *)
Definition write_tags_or (too_large : string) (w : ByteWriter) (ts : list Tag) : result ByteWriter :=
  result_foldl (fun w tag =>
    w ← write_string_or too_large w (key tag);
    write_string_or too_large w (value tag)) w ts.

(** Measurement, tag count, tags: the statements the segment encoders share. *)
Definition write_key_or (too_large too_many : string) (w : ByteWriter) (s : SeriesKey)
    : result ByteWriter :=
  w ← write_string_or too_large w (measurement s);
  throw_if (max_u32 <? size (tags s)) (length_error too_many);;
  write_tags_or too_large (write_u32 w (u32 (size (tags s)))) (tags s).

(** The WAL decoder's loop. *)
Fixpoint read_tags (tag_count : nat) (ts : list Tag) : Parser (list Tag) :=
  match tag_count with
  | O => mret ts
  | S n =>
    k ← read_string;
    v ← read_string;
    t ← p_lift (make_Tag k v);
    read_tags n (ts ++ [t])
  end.

(** [!tags.empty() && key <= tags.back().key()] *)
Definition not_increasing (ts : list Tag) (k : string) : bool :=
  match last ts with
  | Some back => k ≼? key back
  | None => false
  end.

(** The segment decoders' loop. *)
Fixpoint read_sorted_tags (tag_count : nat) (ts : list Tag) : Parser (list Tag) :=
  match tag_count with
  | O => mret ts
  | S n =>
    k ← read_string;
    v ← read_string;
    reject_if (not_increasing ts k);;
    t ← p_lift (make_Tag k v);
    read_sorted_tags n (ts ++ [t])
  end.

(** * Specification *)

Fixpoint le_tags (ts : list Tag) : list byte :=
  match ts with
  | [] => []
  | t :: ts' => le_string (key t) ++ le_string (value t) ++ le_tags ts'
  end.

Definition le_series_key (s : SeriesKey) : list byte :=
  le_string (measurement s) ++ le 4 (size (tags s)) ++ le_tags (tags s).

(** The lengths fit their 32-bit fields. *)
Definition Tag_fits (t : Tag) : Prop :=
  string_size (key t) <= max_u32 /\ string_size (value t) <= max_u32.
Definition SeriesKey_fits (s : SeriesKey) : Prop :=
  string_size (measurement s) <= max_u32 /\ size (tags s) <= max_u32 /\
  Forall Tag_fits (tags s).

(** ** Lemmas *)

Lemma le_tags_app ts us : le_tags (ts ++ us) = le_tags ts ++ le_tags us.
Proof. induction ts as [|t ts IH]; simpl; [done|]. by rewrite IH, <-!app_assoc. Qed.

(** Every tag takes at least its two length fields. *)
Lemma size_le_tags ts : 8 * size ts <= size (le_tags ts).
Proof.
  induction ts as [|t ts IH]; [done|]. cbn [le_tags].
  autorewrite with chrono_size.
  pose proof (string_size_nonneg (key t)). pose proof (string_size_nonneg (value t)). lia.
Qed.

Lemma write_tags_data what w ts w' :
  write_tags_or what w ts = Ok w' ->
  Forall Tag_fits ts /\ writer_data w' = writer_data w ++ le_tags ts.
Proof.
  unfold write_tags_or. revert w. induction ts as [|t ts IH]; intros w H; cbn [result_foldl] in H.
  - injection H as <-. split; [constructor|]. by rewrite app_nil_r.
  - result_inv. apply write_string_data in Ha0 as (Hk & Hd).
    apply write_string_data in Ha as (Hv & Hd').
    apply IH in H as (Hf & ->). split; [by constructor|].
    rewrite Hd', Hd. cbn [le_tags]. by rewrite <-!app_assoc.
Qed.

Lemma write_tags_throws what w ts e :
  write_tags_or what w ts = Err e -> exists text, e = length_error text.
Proof.
  unfold write_tags_or. revert w. induction ts as [|t ts IH]; intros w; cbn [result_foldl]; [done|].
  destruct (write_string_or what w (key t)) as [w1|] eqn:E1; simpl.
  2:{ intros [= <-]. by eapply write_string_throws. }
  destruct (write_string_or what w1 (value t)) as [w2|] eqn:E2; simpl; [apply IH|].
  intros [= <-]. by eapply write_string_throws.
Qed.

Lemma write_string_Ok what w s :
  string_size s <= max_u32 -> exists w', write_string_or what w s = Ok w'.
Proof. intros. eexists. by apply write_string_spec. Qed.

Lemma write_tags_Ok what w ts :
  Forall Tag_fits ts -> exists w', write_tags_or what w ts = Ok w'.
Proof.
  unfold write_tags_or. intros Hf. revert w. induction Hf as [|t ts [Hk Hv] _ IH]; intros w.
  - by eexists.
  - cbn [result_foldl]. destruct (write_string_Ok what w (key t) Hk) as (w1 & ->). simpl.
    destruct (write_string_Ok what w1 (value t) Hv) as (w2 & ->). apply IH.
Qed.

Lemma reads_tags ts acc :
  Forall Tag_fits ts -> Forall Tag_ok ts ->
  reads (read_tags (length ts) acc) (le_tags ts) (acc ++ ts).
Proof.
  intros Hf. revert acc. induction Hf as [|t ts [Hk Hv] _ IH]; intros acc Hok.
  - rewrite app_nil_r. apply reads_ret.
  - apply Forall_cons in Hok as [Ht Hok]. cbn [length read_tags le_tags].
    eapply reads_bind; [by apply reads_string|].
    eapply reads_bind; [by apply reads_string|].
    eapply reads_bind_nil; [by apply reads_lift, make_Tag_id|].
    replace (acc ++ t :: ts) with ((acc ++ [t]) ++ ts); [by apply IH|].
    by rewrite <-app_assoc.
Qed.

Lemma not_increasing_snoc ts t k : not_increasing (ts ++ [t]) k = (k ≼? key t).
Proof. unfold not_increasing. by rewrite last_snoc. Qed.

Lemma keys_sorted_app_inv ts us :
  keys_sorted (ts ++ us) ->
  keys_sorted ts /\ keys_sorted us /\ forall t u, t ∈ ts -> u ∈ us -> key t ≺ key u.
Proof.
  unfold keys_sorted. induction ts as [|t ts IH]; simpl; intros Hs.
  { split_and!; [constructor|done|]. intros t u Ht. by apply elem_of_nil in Ht. }
  inversion Hs as [|? ? Hs' Hall]; subst. apply IH in Hs' as (H1 & H2 & H12).
  rewrite Forall_forall in Hall. split_and!; [|done|].
  - constructor; [done|]. apply Forall_forall. intros b Hb. apply Hall, elem_of_app. by left.
  - intros a b. rewrite elem_of_cons. intros [->|Ha] Hb; [|by apply H12].
    apply Hall, elem_of_app. by right.
Qed.

Lemma not_increasing_false ts k us :
  keys_sorted (ts ++ us) -> k ∈ map key us -> not_increasing ts k = false.
Proof.
  intros Hs Hk. apply list_elem_of_fmap in Hk as (u & -> & Hu).
  apply keys_sorted_app_inv in Hs as (_ & _ & Hlt).
  unfold not_increasing. destruct (last ts) as [b|] eqn:E; [|done].
  apply leb_gt, Hlt; [|done]. apply last_Some in E as (l & ->).
  rewrite elem_of_app, list_elem_of_singleton. by right.
Qed.

Lemma reads_sorted_tags ts acc :
  Forall Tag_fits ts -> Forall Tag_ok ts -> keys_sorted (acc ++ ts) ->
  reads (read_sorted_tags (length ts) acc) (le_tags ts) (acc ++ ts).
Proof.
  intros Hf. revert acc. induction Hf as [|t ts [Hk Hv] _ IH]; intros acc Hok Hs.
  - rewrite app_nil_r. apply reads_ret.
  - apply Forall_cons in Hok as [Ht Hok]. cbn [length read_sorted_tags le_tags].
    eapply reads_bind; [by apply reads_string|].
    eapply reads_bind; [by apply reads_string|].
    eapply reads_bind_nil.
    { apply reads_reject_if, (not_increasing_false _ _ (t :: ts)); [done|]. simpl. left. }
    eapply reads_bind_nil; [by apply reads_lift, make_Tag_id|].
    replace (acc ++ t :: ts) with ((acc ++ [t]) ++ ts) in * by by rewrite <-app_assoc.
    by apply IH.
Qed.

Lemma read_tags_inv n acc r ts r' :
  reader_ok r -> Forall Tag_ok acc -> read_tags n acc r = Ok (Some (ts, r')) ->
  exists us, ts = acc ++ us /\ length us = n /\ Forall Tag_ok ts /\ Forall Tag_fits us /\
    consumed r (le_tags us) r'.
Proof.
  revert acc r. induction n as [|n IH]; intros acc r Hr Hacc H; cbn [read_tags] in H; parser_inv.
  - exists []. rewrite app_nil_r. split_and!; done.
  - apply read_string_inv in Hp as [Hk Hc]; [|done].
    apply read_string_inv in Hp0 as [Hv Hc']; [|eauto with chrono].
    match goal with H : make_Tag _ _ = _ |- _ => apply make_Tag_ok in H as [-> Ht] end.
    apply IH in H as (us & -> & <- & Hok & Hf & Hc''); 
      [|by eapply consumed_ok|apply Forall_app; split; [exact Hacc|constructor; [exact Ht|constructor]]].
    eexists (_ :: us). rewrite <-app_assoc in *. split_and!; [done|done|done|by constructor|].
    cbn [le_tags]. simpl. eauto with chrono.
Qed.

Lemma keys_sorted_snoc ts t :
  keys_sorted ts -> not_increasing ts (key t) = false -> keys_sorted (ts ++ [t]).
Proof.
  unfold keys_sorted. induction 1 as [|u ts Hs IH Hall]; intros Hn; [repeat constructor|].
  simpl. assert (ts <> [] -> not_increasing ts (key t) = false) as Hn'.
  { intros Hne. by destruct ts. }
  assert (StronglySorted (fun a b => key a ≺ key b) (ts ++ [t])) as Hst.
  { destruct ts; [repeat constructor|]. by apply IH, Hn'. }
  constructor; [done|]. apply Forall_app. split; [done|]. constructor; [|constructor].
  destruct ts as [|w ts].
  - unfold not_increasing in Hn. simpl in Hn. by apply leb_gt.
  - apply Forall_inv in Hall. etrans; [exact Hall|].
    inversion Hst as [|? ? _ Hwt]; subst. rewrite Forall_forall in Hwt.
    apply Hwt, elem_of_app. right. by apply list_elem_of_singleton.
Qed.

Lemma read_sorted_tags_inv n acc r ts r' :
  reader_ok r -> Forall Tag_ok acc -> keys_sorted acc ->
  read_sorted_tags n acc r = Ok (Some (ts, r')) ->
  exists us, ts = acc ++ us /\ length us = n /\ Forall Tag_ok ts /\ keys_sorted ts /\
    Forall Tag_fits us /\ consumed r (le_tags us) r'.
Proof.
  revert acc r. induction n as [|n IH]; intros acc r Hr Hacc Hs H;
    cbn [read_sorted_tags] in H; parser_inv.
  - exists []. rewrite app_nil_r. split_and!; done.
  - apply read_string_inv in Hp as [Hk Hc]; [|done].
    apply read_string_inv in Hp0 as [Hv Hc']; [|eauto with chrono].
    match goal with H : make_Tag _ _ = _ |- _ => apply make_Tag_ok in H as [-> Ht] end.
    apply IH in H as (us & -> & <- & Hok & Hsorted & Hf & Hc'');
      [|by eapply consumed_ok|apply Forall_app; split; [exact Hacc|constructor; [exact Ht|constructor]]
      |by apply keys_sorted_snoc].
    eexists (_ :: us). rewrite <-app_assoc in *.
    split_and!; [done|done|done|done|by constructor|].
    cbn [le_tags]. simpl. eauto with chrono.
Qed.

Lemma make_Tag_throws k v e :
  make_Tag k v = Err e -> exists what, e = invalid_argument what.
Proof. unfold make_Tag, throw_if. case_bool_decide; simpl; [|done]. intros [= <-]. eauto. Qed.

Lemma make_SeriesKey_throws m ts e :
  make_SeriesKey m ts = Err e -> exists what, e = invalid_argument what.
Proof.
  unfold make_SeriesKey, throw_if. case_bool_decide; simpl; [intros [= <-]; eauto|].
  case_match; [|done]. intros [= <-]. eauto.
Qed.

Lemma make_Sample_throws t v e :
  make_Sample t v = Err e -> exists what, e = invalid_argument what.
Proof. unfold make_Sample, throw_if. destruct (isfinite v); simpl; [done|]. intros [= <-]. eauto. Qed.

(** [only_invalid p]: the only exception [p] throws is [invalid_argument]. *)
Definition only_invalid {A} (p : Parser A) : Prop :=
  forall r e, p r = Err e -> exists what, e = invalid_argument what.

Lemma only_invalid_quiet {A} (p : Parser A) : quiet p -> only_invalid p.
Proof. intros Hq r e He. by apply Hq in He. Qed.

Lemma only_invalid_bind {A B} (p : Parser A) (f : A -> Parser B) :
  only_invalid p -> (forall a, only_invalid (f a)) -> only_invalid (p ≫= f).
Proof.
  intros Hp Hf r e. unfold mbind, Parser_bind. destruct (p r) as [[[a r']|]|e'] eqn:E.
  - apply Hf.
  - done.
  - intros [= <-]. by eapply Hp.
Qed.

Lemma only_invalid_lift {A} (m : result A) :
  (forall e, m = Err e -> exists what, e = invalid_argument what) -> only_invalid (p_lift m).
Proof. intros Hm r e. unfold p_lift. destruct m; [done|]. intros [= <-]. by apply Hm. Qed.

Create HintDb chrono_throws.
#[export] Hint Resolve only_invalid_quiet only_invalid_bind only_invalid_lift
  make_Tag_throws make_SeriesKey_throws make_Sample_throws
  quiet_ret quiet_remaining quiet_reject_if quiet_reject quiet_read_u8 quiet_read_u16
  quiet_read_u32 quiet_read_u64 quiet_read_string : chrono_throws.

Lemma only_invalid_read_tags n ts : only_invalid (read_tags n ts).
Proof. revert ts. induction n; intros ts; simpl; eauto 15 with chrono_throws. Qed.

Lemma only_invalid_read_sorted_tags n ts : only_invalid (read_sorted_tags n ts).
Proof. revert ts. induction n; intros ts; simpl; eauto 15 with chrono_throws. Qed.
#[export] Hint Resolve only_invalid_read_tags only_invalid_read_sorted_tags : chrono_throws.

(** [write_key_or] appends the encoding of exactly the keys that fit. *)
Lemma write_key_Ok what many w s :
  SeriesKey_fits s ->
  exists w', write_key_or what many w s = Ok w' /\ writer_data w' = writer_data w ++ le_series_key s.
Proof.
  intros (Hm & Ht & Htags). unfold write_key_or.
  destruct (write_string_Ok what w _ Hm) as (w1 & Hw1).
  rewrite Hw1. cbn [mbind result_bind]. apply write_string_data in Hw1 as [_ Hd1].
  unfold throw_if. rewrite (proj2 (Z.ltb_ge _ _)) by done. cbn [mbind result_bind].
  pose proof (size_nonneg (tags s)).
  destruct (write_tags_Ok what (write_u32 w1 (u32 (size (tags s)))) _ Htags) as (w2 & Hw2).
  exists w2. split; [done|]. apply write_tags_data in Hw2 as [_ ->].
  rewrite u32_small by (unfold in_u, max_u32 in *; lia).
  rewrite write_u32_le, Hd1 by lia. unfold le_series_key. by rewrite <-!app_assoc.
Qed.

Lemma write_key_fits what many w s w' : write_key_or what many w s = Ok w' -> SeriesKey_fits s.
Proof.
  unfold write_key_or. intros H. result_inv. bool_to_prop.
  apply write_string_data in Ha as [? _]. apply write_tags_data in H as [? _]. by split_and!.
Qed.

Lemma write_key_throws what many w s e :
  write_key_or what many w s = Err e -> exists text, e = length_error text.
Proof.
  unfold write_key_or. destruct (write_string_or _ _ _) as [w1|] eqn:E1; simpl.
  2:{ intros [= <-]. by eapply write_string_throws. }
  unfold throw_if. destruct (max_u32 <? _); simpl; [intros [= <-]; eauto|].
  apply write_tags_throws.
Qed.
