(* ===== verification/OrdMap.v ===== *)
(** * Ordered maps ([std::map])

    The MemTable, range merging and compaction iterate over [std::map]s in key
    order.  A map is the list of its entries in strictly increasing key order;
    that list is determined by the lookups ([map_ext]). *)

From stdpp Require Import base tactics option numbers list strings.
From Stdlib Require Import ZArith Lia Sorted.
From S2P Require Import Prelude Errors.

Section OrdMap.
Context {K V : Type} `{Ord K}.
Implicit Types (m : list (K * V)) (k : K) (v : V).

(** [find]: the mapped value, or [None] for [end()]. *)
Fixpoint map_find k m : option V :=
  match m with
  | [] => None
  | (k', v) :: m' => if k ≡? k' then Some v else map_find k m'
  end.

(** [emplace] of a missing key and [operator[]=] of any key. *)
Fixpoint map_set k v m : list (K * V) :=
  match m with
  | [] => [(k, v)]
  | (k', v') :: m' =>
    match cmp k k' with
    | Lt => (k, v) :: m
    | Eq => (k, v) :: m'
    | Gt => (k', v') :: map_set k v m'
    end
  end.

(** [lower_bound]: the entries from the first key not below [k] on. *)
Definition map_lower_bound k m : list (K * V) :=
  drop (partition_point (fun e => e.1 ≺? k) m) m.

Definition map_sorted m : Prop := StronglySorted (fun a b => a.1 ≺ b.1) m.

(** ** Lookups *)

Lemma map_find_set k v k' m :
  map_find k' (map_set k v m) = if k' ≡? k then Some v else map_find k' m.
Proof.
  induction m as [|[k0 v0] m IH]; [done|]. cbn [map_set].
  destruct (cmp_spec k k0) as [->|Hl|Hl]; cbn [map_find].
  - by destruct (k' ≡? k0).
  - done.
  - rewrite IH. destruct (k' ≡? k0) eqn:E0, (k' ≡? k) eqn:E; ord_to_prop; [|done..].
    subst. subst. by apply lt_irrefl in Hl.
Qed.

Lemma map_find_elem k v m : map_find k m = Some v -> (k, v) ∈ m.
Proof.
  induction m as [|[k0 v0] m IH]; [done|]. cbn [map_find].
  destruct (k ≡? k0) eqn:E; ord_to_prop.
  - intros [= <-]. subst. left.
  - intros Hf. right. auto.
Qed.

Lemma map_find_None k m : map_find k m = None <-> forall v, (k, v) ∉ m.
Proof.
  induction m as [|[k0 v0] m IH]; cbn [map_find].
  { split; [|done]. intros _ v Hin. by apply elem_of_nil in Hin. }
  destruct (k ≡? k0) eqn:E; ord_to_prop.
  - subst. split; [done|]. intros Hn. exfalso. apply (Hn v0). left.
  - rewrite IH. split; intros Hn v.
    + rewrite elem_of_cons. intros [[= <- <-]|Hin]; [done|]. by apply (Hn v).
    + intros Hin. apply (Hn v). by right.
Qed.

Lemma map_sorted_elem_find k v m : map_sorted m -> (k, v) ∈ m -> map_find k m = Some v.
Proof.
  induction 1 as [|[k0 v0] m Hs IH Hall]; [by rewrite elem_of_nil|].
  rewrite elem_of_cons. cbn [map_find]. intros [[= <- <-]|Hin].
  - by rewrite eqb_refl.
  - rewrite Forall_forall in Hall. specialize (Hall _ Hin). simpl in Hall.
    apply lt_ne in Hall. rewrite (proj2 (eqb_neq k k0)) by done. auto.
Qed.

Lemma map_find_elem_iff k v m : map_sorted m -> map_find k m = Some v <-> (k, v) ∈ m.
Proof. split; auto using map_find_elem, map_sorted_elem_find. Qed.

Lemma map_set_set k v v' m : map_set k v (map_set k v' m) = map_set k v m.
Proof.
  induction m as [|[k0 v0] m IH]; cbn [map_set]; [by rewrite cmp_refl|].
  destruct (cmp k k0) eqn:E; cbn [map_set]; rewrite ?cmp_refl, ?E; [done..|].
  by rewrite IH.
Qed.

(** ** Order *)

Lemma map_set_elem k v m e : e ∈ map_set k v m -> e = (k, v) \/ e ∈ m.
Proof.
  induction m as [|[k0 v0] m IH]; cbn [map_set].
  - rewrite list_elem_of_singleton. auto.
  - destruct (cmp k k0); rewrite !elem_of_cons; intros Hin; destruct_or?; auto.
    apply IH in Hin as [->|]; auto.
Qed.

Lemma map_set_sorted k v m : map_sorted m -> map_sorted (map_set k v m).
Proof.
  unfold map_sorted. induction 1 as [|[k0 v0] m Hs IH Hall]; cbn [map_set].
  { repeat constructor. }
  rewrite Forall_forall in Hall.
  destruct (cmp_spec k k0) as [->|Hl|Hl]; constructor; try done.
  - by apply Forall_forall.
  - by constructor; [|apply Forall_forall].
  - apply Forall_forall. intros e. rewrite elem_of_cons. intros [->|Hin]; [done|].
    etrans; [exact Hl|]. by apply Hall.
  - apply Forall_forall. intros e Hin. apply map_set_elem in Hin as [->|Hin]; [done|].
    by apply Hall.
Qed.

Lemma map_set_length k v m :
  map_sorted m ->
  length (map_set k v m) = if map_find k m is Some _ then length m else S (length m).
Proof.
  induction 1 as [|[k0 v0] m Hs IH Hall]; [done|]. cbn [map_set map_find].
  destruct (cmp_spec k k0) as [->|Hl|Hl].
  - by rewrite eqb_refl.
  - rewrite (proj2 (eqb_neq k k0)) by by apply lt_ne.
    assert (map_find k m = None) as ->; [|done].
    apply map_find_None. intros v' Hin. rewrite Forall_forall in Hall.
    specialize (Hall _ Hin). simpl in Hall. by eapply lt_asym.
  - rewrite (proj2 (eqb_neq k k0)) by (intros ->; by eapply lt_irrefl).
    simpl. rewrite IH. by destruct (map_find k m).
Qed.

(** A sorted map is determined by its lookups. *)
Lemma map_ext m1 m2 :
  map_sorted m1 -> map_sorted m2 -> (forall k, map_find k m1 = map_find k m2) -> m1 = m2.
Proof.
  intros H1. revert m2. induction H1 as [|[k1 v1] m1 H1 IH Hall1]; intros m2 H2 Heq.
  { destruct m2 as [|[k2 v2] m2]; [done|]. specialize (Heq k2). cbn [map_find] in Heq.
    by rewrite eqb_refl in Heq. }
  destruct H2 as [|[k2 v2] m2 H2 Hall2].
  { specialize (Heq k1). cbn [map_find] in Heq. by rewrite eqb_refl in Heq. }
  rewrite Forall_forall in Hall1, Hall2.
  assert (k1 = k2) as ->.
  { destruct (cmp_spec k1 k2) as [|Hl|Hl]; [done|exfalso..].
    - pose proof (Heq k1) as Hk. cbn [map_find] in Hk. rewrite eqb_refl in Hk.
      rewrite (proj2 (eqb_neq k1 k2)) in Hk by by apply lt_ne.
      symmetry in Hk. apply map_find_elem, Hall2 in Hk. by eapply lt_asym.
    - pose proof (Heq k2) as Hk. cbn [map_find] in Hk. rewrite eqb_refl in Hk.
      rewrite (proj2 (eqb_neq k2 k1)) in Hk by by apply lt_ne.
      apply map_find_elem, Hall1 in Hk. by eapply lt_asym. }
  pose proof (Heq k2) as Hk. cbn [map_find] in Hk. rewrite eqb_refl in Hk.
  injection Hk as ->. f_equal. apply IH; [done|]. intros k.
  specialize (Heq k). cbn [map_find] in Heq. destruct (k ≡? k2) eqn:E; [|done].
  ord_to_prop. subst. transitivity (@None V); [|symmetry]; apply map_find_None; intros v Hin.
  - apply Hall1 in Hin. by eapply lt_irrefl.
  - apply Hall2 in Hin. by eapply lt_irrefl.
Qed.

Lemma map_sorted_app_inv m1 m2 :
  map_sorted (m1 ++ m2) ->
  map_sorted m1 /\ map_sorted m2 /\ forall a b, a ∈ m1 -> b ∈ m2 -> a.1 ≺ b.1.
Proof.
  unfold map_sorted. induction m1 as [|e m1 IH]; simpl; intros Hs.
  { split_and!; [constructor|done|]. intros a b Ha. by apply elem_of_nil in Ha. }
  inversion Hs as [|? ? Hs' Hall]; subst. apply IH in Hs' as (H1 & H2 & H12).
  rewrite Forall_forall in Hall. split_and!; [|done|].
  - constructor; [done|]. apply Forall_forall. intros b Hb. apply Hall, elem_of_app. by left.
  - intros a b. rewrite elem_of_cons. intros [->|Ha] Hb; [|by apply H12].
    apply Hall, elem_of_app. by right.
Qed.

(** [lower_bound] splits the entries at [k]. *)
Lemma map_lower_bound_elem k e m :
  map_sorted m -> e ∈ map_lower_bound k m <-> e ∈ m /\ ~ e.1 ≺ k.
Proof.
  intros Hs. unfold map_lower_bound.
  set (p := fun e : K * V => e.1 ≺? k). set (n := partition_point p m).
  assert (Forall (fun e => p e = false) (drop n m)) as Hd.
  { apply partition_point_drop. intros l1 x l2 -> Hx.
    apply map_sorted_app_inv in Hs as (_ & Hs & _).
    inversion Hs as [|? ? _ Hall]; subst. eapply Forall_impl; [exact Hall|].
    intros y Hxy. simpl in Hxy. unfold p in *. apply ltb_ge. apply ltb_ge in Hx.
    left. destruct Hx as [Hx| <-]; [by etrans|done]. }
  pose proof (partition_point_take p m) as Ht. fold n in Ht.
  rewrite Forall_forall in Hd, Ht. split.
  - intros Hin. split; [rewrite <-(take_drop n m), elem_of_app; by right|].
    apply Hd in Hin. unfold p in Hin. intros Hlt. apply ltb_lt in Hlt. congruence.
  - intros (Hin & Hn). rewrite <-(take_drop n m), elem_of_app in Hin.
    destruct Hin as [Hin|]; [|done]. apply Ht, ltb_lt in Hin. done.
Qed.

Lemma map_lower_bound_sorted k m : map_sorted m -> map_sorted (map_lower_bound k m).
Proof.
  intros Hs. unfold map_lower_bound.
  rewrite <-(take_drop (partition_point (fun e => e.1 ≺? k) m) m) in Hs.
  by apply map_sorted_app_inv in Hs as (_ & Hs & _).
Qed.

(** The last entry has the greatest key. *)
Lemma map_last_max m e :
  map_sorted m -> last m = Some e -> e ∈ m /\ forall e', e' ∈ m -> le_of e'.1 e.1.
Proof.
  intros Hs Hl. apply last_Some in Hl as (m' & ->).
  apply map_sorted_app_inv in Hs as (_ & _ & Hlt). split.
  - rewrite elem_of_app, list_elem_of_singleton. by right.
  - intros e'. rewrite elem_of_app, list_elem_of_singleton. intros [Hin| ->].
    + left. apply Hlt; [done|]. by apply list_elem_of_singleton.
    + by right.
Qed.
End OrdMap.

#[export] Hint Resolve map_set_sorted map_lower_bound_sorted : chrono.
