(* ===== verification/View.v ===== *)
(** * What the store holds: the abstract specification

    Every component that stores samples is specified by a [view], the value it
    holds at each series and timestamp.  Writes are pointwise updates, layers are
    merged with the newer one winning, and the three queries are specified by
    [is_get], [is_latest] and [is_range].  Views are compared pointwise. *)

From stdpp Require Import base tactics option numbers list strings.
From Stdlib Require Import ZArith Lia Sorted.
From S2P Require Import Prelude Errors Model OrdMap.

Definition view : Type := SeriesKey -> Timestamp -> option double.

#[export] Instance view_equiv : Equiv view := fun f g => forall s t, f s t = g s t.

#[export] Instance view_equivalence : Equivalence (≡@{view}).
Proof.
  split.
  - by intros f s t.
  - intros f g H s t. by rewrite H.
  - intros f g h H1 H2 s t. by rewrite H1, H2.
Qed.

Definition view_empty : view := fun _ _ => None.

(** Last write wins. *)
Definition view_put (s : SeriesKey) (x : Sample) (f : view) : view := fun s' t' =>
  if decide (s' = s /\ t' = timestamp x) then Some (sample_value x) else f s' t'.

(** [newer] over [older]. *)
Definition view_merge (newer older : view) : view := fun s t =>
  match newer s t with Some v => Some v | None => older s t end.

#[export] Instance view_put_proper s x : Proper ((≡) ==> (≡)) (view_put s x).
Proof. intros f g H s' t'. unfold view_put. by rewrite H. Qed.

#[export] Instance view_merge_proper : Proper ((≡) ==> (≡) ==> (≡)) view_merge.
Proof. intros f f' Hf g g' Hg s t. unfold view_merge. by rewrite Hf, Hg. Qed.

(** ** Query specifications *)

Definition at_ (f : view) (s : SeriesKey) (x : Sample) : Prop :=
  f s (timestamp x) = Some (sample_value x).

Definition is_get (f : view) (s : SeriesKey) (t : Timestamp) (r : option Sample) : Prop :=
  r = MkSample t <$> f s t.

Definition is_latest (f : view) (s : SeriesKey) (r : option Sample) : Prop :=
  match r with
  | None => forall t, f s t = None
  | Some x => at_ f s x /\ forall t v, f s t = Some v -> le_of t (timestamp x)
  end.

Definition samples_sorted (l : list Sample) : Prop :=
  StronglySorted (fun x y => timestamp x ≺ timestamp y) l.

(** Exactly the samples of the half-open interval, in timestamp order. *)
Definition is_range (f : view) (s : SeriesKey) (start end_ : Timestamp) (l : list Sample) : Prop :=
  samples_sorted l /\
  forall x, x ∈ l <-> at_ f s x /\ ~ timestamp x ≺ start /\ timestamp x ≺ end_.

(** [n] pairs of series and timestamp hold a sample. *)
Definition view_count (f : view) (n : nat) : Prop :=
  exists l : list (SeriesKey * Timestamp),
    NoDup l /\ length l = n /\ forall s t, (s, t) ∈ l <-> is_Some (f s t).

(** ** Lemmas *)

Lemma view_put_same s x f : view_put s x f s (timestamp x) = Some (sample_value x).
Proof. unfold view_put. by rewrite decide_True. Qed.

Lemma view_put_other s x f s' t' :
  s' <> s \/ t' <> timestamp x -> view_put s x f s' t' = f s' t'.
Proof.
  intros Hn. unfold view_put. rewrite decide_False; [done|].
  intros [-> ->]. by destruct Hn.
Qed.

Lemma view_merge_put s x f g :
  view_merge (view_put s x f) g ≡ view_put s x (view_merge f g).
Proof. intros s' t'. unfold view_merge, view_put. by destruct (decide _). Qed.

Lemma view_merge_empty_l f : view_merge view_empty f ≡ f.
Proof. done. Qed.

Lemma view_merge_empty_r f : view_merge f view_empty ≡ f.
Proof. intros s t. unfold view_merge, view_empty. by destruct (f s t). Qed.

Lemma view_merge_assoc f g h :
  view_merge f (view_merge g h) ≡ view_merge (view_merge f g) h.
Proof. intros s t. unfold view_merge. by destruct (f s t). Qed.

Lemma view_merge_idemp f g : view_merge f (view_merge f g) ≡ view_merge f g.
Proof. intros s t. unfold view_merge. by destruct (f s t). Qed.

#[export] Instance is_latest_proper : Proper ((≡) ==> eq ==> eq ==> iff) is_latest.
Proof.
  intros f g H s _ <- [x|] _ <-; unfold is_latest, at_; unfold equiv, view_equiv in H.
  - rewrite H. by setoid_rewrite H.
  - by setoid_rewrite H.
Qed.

#[export] Instance is_range_proper : Proper ((≡) ==> eq ==> eq ==> eq ==> eq ==> iff) is_range.
Proof.
  intros f g H s _ <- a _ <- b _ <- l _ <-. unfold is_range, at_.
  unfold equiv, view_equiv in H. by setoid_rewrite H.
Qed.

#[export] Instance view_count_proper : Proper ((≡) ==> eq ==> iff) view_count.
Proof.
  intros f g H n _ <-. unfold view_count. unfold equiv, view_equiv in H. by setoid_rewrite H.
Qed.

(** The specifications determine the answers. *)
Lemma samples_sorted_ext l k :
  samples_sorted l -> samples_sorted k -> (forall x, x ∈ l <-> x ∈ k) -> l = k.
Proof.
  intros Hl. revert k. induction Hl as [|x l Hl IH Hx]; intros k Hk Heq.
  { destruct k as [|y k]; [done|]. assert (y ∈ []) as Hin by (apply Heq; left).
    by apply elem_of_nil in Hin. }
  destruct Hk as [|y k Hk Hy].
  { assert (x ∈ []) as Hin by (apply Heq; left). by apply elem_of_nil in Hin. }
  rewrite Forall_forall in Hx, Hy.
  assert (x = y) as ->.
  { assert (x ∈ y :: k) as H1 by (apply Heq; left).
    assert (y ∈ x :: l) as H2 by (apply Heq; left).
    apply elem_of_cons in H1 as [->|H1]; [done|]. apply elem_of_cons in H2 as [->|H2]; [done|].
    exfalso. by eapply lt_asym; [apply Hx|apply Hy]. }
  f_equal. apply IH; [done|]. intros z. specialize (Heq z). rewrite !elem_of_cons in Heq.
  split; intros Hz.
  - destruct (proj1 Heq (or_intror Hz)) as [->|]; [|done]. apply Hx in Hz. by apply lt_irrefl in Hz.
  - destruct (proj2 Heq (or_intror Hz)) as [->|]; [|done]. apply Hy in Hz. by apply lt_irrefl in Hz.
Qed.

Lemma is_range_unique f s a b l k : is_range f s a b l -> is_range f s a b k -> l = k.
Proof.
  intros [Hl Hl'] [Hk Hk']. apply samples_sorted_ext; [done..|]. intros x. by rewrite Hl', Hk'.
Qed.

Lemma is_latest_unique f s r r' : is_latest f s r -> is_latest f s r' -> r = r'.
Proof.
  unfold is_latest, at_. destruct r as [[t v]|], r' as [[t' v']|]; simpl; try done.
  - intros [H1 H1'] [H2 H2']. apply H2' in H1 as Hle. apply H1' in H2 as Hle'.
    assert (t = t') as ->; [|congruence].
    destruct Hle as [Hle| ->], Hle' as [Hle'|]; try done. exfalso. by eapply lt_asym.
  - intros [H1 _] H2. by rewrite H2 in H1.
  - intros H1 [H2 _]. by rewrite H1 in H2.
Qed.

Lemma view_count_unique f n m : view_count f n -> view_count f m -> n = m.
Proof.
  intros (l & Hl & <- & Hl') (k & Hk & <- & Hk').
  apply Nat.le_antisymm; apply NoDup_incl_length; try (by apply NoDup_ListNoDup);
    intros [s t]; rewrite <-!list_elem_of_In; rewrite Hl', Hk'; done.
Qed.

Lemma view_count_empty : view_count view_empty 0.
Proof.
  exists []. split_and!; [constructor|done|]. intros s t. rewrite elem_of_nil.
  split; [done|]. by intros [v Hv].
Qed.

(** A write adds one pair exactly when the pair was absent. *)
Lemma view_count_put f n s x :
  view_count f n ->
  view_count (view_put s x f) (if f s (timestamp x) is Some _ then n else S n).
Proof.
  intros (l & Hd & <- & Hl). destruct (f s (timestamp x)) as [v|] eqn:E.
  - exists l. split_and!; [done..|]. intros s' t'. rewrite Hl. unfold view_put.
    destruct (decide _) as [[-> ->]|]; [|done]. rewrite E. split; eauto.
  - exists ((s, timestamp x) :: l). split_and!; [|done|].
    + constructor; [|done]. rewrite Hl, E. by intros [? [=]].
    + intros s' t'. rewrite elem_of_cons, Hl. unfold view_put.
      destruct (decide _) as [[-> ->]|Hn]; [split; eauto|].
      split; [|auto]. intros [[= -> ->]|]; [|done]. by destruct Hn.
Qed.
