(* ===== verification/MemTable.v ===== *)
(** * The MemTable (src/memtable.cpp)

    [map<SeriesKey, map<Timestamp, double>>] with a sample counter.  Queries build
    their [Sample]s with the checking constructor, so they are computations that
    could throw; [MemTable_ok], which every operation preserves, rules that out,
    and under it each operation is the one of [View] on [memtable_view]. *)

From stdpp Require Import base tactics option numbers list strings.
From Stdlib Require Import ZArith Lia Sorted.
From S2P Require Import Prelude Errors Model OrdMap View.

Record MemTableSeriesSnapshot := MkSnapshot {
  snapshot_series : SeriesKey;
  snapshot_samples : list Sample;
}.

Abbreviation SamplesByTimestamp := (list (Timestamp * double)).

Record MemTable := MkMemTable {
  series_ : list (SeriesKey * SamplesByTimestamp);
  sample_count_ : Z;
}.

Definition empty_memtable : MemTable := MkMemTable [] 0.

(** [MemTable::put] *)
Definition memtable_put (m : MemTable) (series : SeriesKey) (sample : Sample) : MemTable :=
  let series_map :=
    match map_find series (series_ m) with
    | None => map_set series [] (series_ m)
    | Some _ => series_ m
    end in
  let samples := default [] (map_find series series_map) in
  let ts := timestamp sample in
  let v := sample_value sample in
  match map_find ts samples with
  | None => MkMemTable (map_set series (map_set ts v samples) series_map) (u64 (sample_count_ m + 1))
  | Some _ => MkMemTable (map_set series (map_set ts v samples) series_map) (sample_count_ m)
  end.

(** [MemTable::latest] *)
Definition memtable_latest (m : MemTable) (series : SeriesKey) : result (option Sample) :=
  match map_find series (series_ m) with
  | None => Ok None
  | Some samples =>
    match last samples with
    | None => Ok None
    | Some (t, v) => s ← make_Sample t v; Ok (Some s)
    end
  end.

(** [MemTable::get] *)
Definition memtable_get (m : MemTable) (series : SeriesKey) (ts : Timestamp)
    : result (option Sample) :=
  match map_find series (series_ m) with
  | None => Ok None
  | Some samples =>
    match map_find ts samples with
    | None => Ok None
    | Some v => s ← make_Sample ts v; Ok (Some s)
    end
  end.

(** The loop of [MemTable::range] from an iterator on. *)
Fixpoint range_from (it : SamplesByTimestamp) (end_ : Timestamp) : result (list Sample) :=
  match it with
  | [] => Ok []
  | (t, v) :: next =>
    if negb (t ≺? end_) then Ok []
    else s ← make_Sample t v; rest ← range_from next end_; Ok (s :: rest)
  end.

(** [MemTable::range] *)
Definition memtable_range (m : MemTable) (series : SeriesKey) (start end_ : Timestamp)
    : result (list Sample) :=
  throw_if (end_ ≺? start) (invalid_argument "range end cannot be before start");;
  match map_find series (series_ m) with
  | None => Ok []
  | Some samples => range_from (map_lower_bound start samples) end_
  end.

(** [MemTable::sample_count], [MemTable::empty], [MemTable::series] *)
Definition memtable_sample_count (m : MemTable) : Z := sample_count_ m.
Definition memtable_empty (m : MemTable) : bool := sample_count_ m =? 0.
Definition memtable_series (m : MemTable) : list SeriesKey := map fst (series_ m).

(** [MemTable::snapshot] *)
Definition memtable_snapshot (m : MemTable) : result (list MemTableSeriesSnapshot) :=
  result_map (fun '(series, samples_by_timestamp) =>
    samples ← result_map (fun '(t, v) => make_Sample t v) samples_by_timestamp;
    Ok (MkSnapshot series samples)) (series_ m).

(** [MemTable::clear] *)
Definition memtable_clear (_ : MemTable) : MemTable := MkMemTable [] 0.

(** * Specification *)

Definition memtable_view (m : MemTable) : view := fun s t =>
  match map_find s (series_ m) with
  | None => None
  | Some samples => map_find t samples
  end.

Fixpoint total_samples (l : list (SeriesKey * SamplesByTimestamp)) : nat :=
  match l with
  | [] => O
  | (_, samples) :: l' => length samples + total_samples l'
  end.

Definition samples_ok (l : SamplesByTimestamp) : Prop :=
  map_sorted l /\ l <> [] /\ Forall (fun e => Sample_ok (MkSample e.1 e.2)) l.

Definition MemTable_ok (m : MemTable) : Prop :=
  map_sorted (series_ m) /\
  Forall (fun e => SeriesKey_ok e.1 /\ samples_ok e.2) (series_ m) /\
  sample_count_ m = u64 (Z.of_nat (total_samples (series_ m))).

(** ** Lemmas *)

Lemma MemTable_ok_find m s samples :
  MemTable_ok m -> map_find s (series_ m) = Some samples -> SeriesKey_ok s /\ samples_ok samples.
Proof.
  intros (_ & Hall & _) Hf. apply map_find_elem in Hf.
  rewrite Forall_forall in Hall. by apply Hall in Hf.
Qed.

Lemma samples_ok_elem l t v :
  samples_ok l -> (t, v) ∈ l -> Sample_ok (MkSample t v).
Proof. intros (_ & _ & Hall) Hin. rewrite Forall_forall in Hall. by apply Hall in Hin. Qed.

Lemma samples_ok_find l t v :
  samples_ok l -> map_find t l = Some v -> make_Sample t v = Ok (MkSample t v).
Proof.
  intros Hok Hf. apply map_find_elem in Hf.
  by apply (make_Sample_pair t v), (samples_ok_elem l).
Qed.

(** [put] is one [map_set] in the outer and one in the inner map. *)
Definition put_inner (m : MemTable) (s : SeriesKey) (x : Sample) : SamplesByTimestamp :=
  map_set (timestamp x) (sample_value x) (default [] (map_find s (series_ m))).

Lemma memtable_put_series m s x :
  series_ (memtable_put m s x) = map_set s (put_inner m s x) (series_ m).
Proof.
  unfold memtable_put, put_inner. destruct (map_find s (series_ m)) as [l|] eqn:E.
  - rewrite E. simpl. by destruct (map_find (timestamp x) l).
  - rewrite map_find_set, eqb_refl. simpl. by rewrite map_set_set.
Qed.

Lemma memtable_put_count m s x :
  sample_count_ (memtable_put m s x) =
  if memtable_view m s (timestamp x) is Some _ then sample_count_ m
  else u64 (sample_count_ m + 1).
Proof.
  unfold memtable_put, memtable_view. destruct (map_find s (series_ m)) as [l|] eqn:E.
  - rewrite E. simpl. by destruct (map_find (timestamp x) l).
  - by rewrite map_find_set, eqb_refl.
Qed.

Lemma memtable_put_view m s x : memtable_view (memtable_put m s x) ≡ view_put s x (memtable_view m).
Proof.
  intros s' t'. unfold memtable_view, view_put. rewrite memtable_put_series, map_find_set.
  destruct (s' ≡? s) eqn:Es; ord_to_prop.
  - subst. unfold put_inner. rewrite map_find_set. destruct (t' ≡? timestamp x) eqn:Et; ord_to_prop.
    + by rewrite decide_True.
    + rewrite decide_False by (by intros [_ ?]). by destruct (map_find s (series_ m)).
  - by rewrite decide_False by (by intros [? _]).
Qed.

Lemma total_samples_set l s samples :
  map_sorted l ->
  (total_samples (map_set s samples l) + length (default [] (map_find s l)) =
   total_samples l + length samples)%nat.
Proof.
  induction 1 as [|[s0 l0] l Hs IH Hall]; simpl; [lia|].
  destruct (cmp_spec s s0) as [->|Hl|Hl]; simpl.
  - rewrite eqb_refl. simpl. lia.
  - rewrite (proj2 (eqb_neq s s0)) by by apply lt_ne.
    assert (map_find s l = None) as ->; simpl; [|lia].
    apply map_find_None. intros v' Hin. rewrite Forall_forall in Hall.
    specialize (Hall _ Hin). simpl in Hall. exact (lt_asym _ _ Hl Hall).
  - rewrite (proj2 (eqb_neq s s0)) by (intros ->; exact (lt_irrefl _ Hl)). lia.
Qed.

Lemma memtable_put_total m s x :
  MemTable_ok m ->
  total_samples (series_ (memtable_put m s x)) =
  if memtable_view m s (timestamp x) is Some _ then total_samples (series_ m)
  else S (total_samples (series_ m)).
Proof.
  intros Hok. pose proof Hok as (Hs & _ & _). rewrite memtable_put_series.
  pose proof (total_samples_set _ s (put_inner m s x) Hs) as Ht.
  unfold memtable_view, put_inner in *.
  destruct (map_find s (series_ m)) as [l|] eqn:E; simpl in *; [|lia].
  destruct (MemTable_ok_find _ _ _ Hok E) as (_ & Hsorted & _).
  rewrite map_set_length in Ht by done. case_match; lia.
Qed.

Lemma Forall_map_set {K V} `{Ord K} (P : K * V -> Prop) k v m :
  P (k, v) -> Forall P m -> Forall P (map_set k v m).
Proof.
  intros Hkv. rewrite !Forall_forall. intros Hm e He.
  by apply map_set_elem in He as [->|He]; [|apply Hm].
Qed.

Lemma range_from_spec it end_ :
  map_sorted it -> Forall (fun e => Sample_ok (MkSample e.1 e.2)) it ->
  exists l, range_from it end_ = Ok l /\ samples_sorted l /\
    forall x, x ∈ l <-> (timestamp x, sample_value x) ∈ it /\ timestamp x ≺ end_.
Proof.
  induction 1 as [|[t v] it Hs IH Hall]; intros Hok.
  { exists []. split_and!; [done|constructor|]. intros x. rewrite !elem_of_nil. tauto. }
  apply Forall_cons in Hok as [Hx Hok]. rewrite Forall_forall in Hall. cbn [range_from].
  destruct (t ≺? end_) eqn:E; ord_to_prop; simpl.
  - rewrite (make_Sample_pair t v) by done. simpl.
    destruct (IH Hok) as (l & -> & Hl & Hin). simpl. exists (MkSample t v :: l).
    split_and!; [done| |].
    + constructor; [done|]. apply Forall_forall. intros y Hy. apply Hin in Hy as [Hy _].
      by apply (Hall _ Hy).
    + intros y. rewrite !elem_of_cons, Hin. split.
      * intros [->|(? & ?)]; simpl; auto.
      * intros ([[= <- <-]|Hy] & Hlt); [left; by destruct y|auto].
  - exists []. split_and!; [done|constructor|]. intros x. rewrite elem_of_nil.
    split; [done|]. rewrite elem_of_cons. intros ([[= <- <-]|Hy] & Hlt).
    + destruct E as [E|E]; [exact (lt_asym _ _ E Hlt)|].
      rewrite E in Hlt. exact (lt_irrefl _ Hlt).
    + specialize (Hall _ Hy). simpl in Hall. pose proof (lt_trans _ _ _ Hall Hlt) as Ht.
      destruct E as [E| ->]; [exact (lt_asym _ _ E Ht)|exact (lt_irrefl _ Ht)].
Qed.

(** The pairs that hold a sample. *)
Definition pairs_of (l : list (SeriesKey * SamplesByTimestamp)) : list (SeriesKey * Timestamp) :=
  flat_map (fun e => map (fun p => (e.1, p.1)) e.2) l.

Lemma length_pairs_of l : length (pairs_of l) = total_samples l.
Proof.
  induction l as [|[s samples] l IH]; [done|]. cbn [pairs_of flat_map total_samples].
  rewrite length_app, length_map. unfold pairs_of in IH. by rewrite IH.
Qed.

Lemma elem_of_pairs_of l s t :
  (s, t) ∈ pairs_of l <-> exists samples v, (s, samples) ∈ l /\ (t, v) ∈ samples.
Proof.
  unfold pairs_of. rewrite list_elem_of_In, in_flat_map. split.
  - intros ([s0 samples] & Hin & Hp). apply in_map_iff in Hp as ([t0 v] & [= <- <-] & Hp).
    exists samples, v. by rewrite !list_elem_of_In.
  - intros (samples & v & Hin & Hp). exists (s, samples). rewrite list_elem_of_In in Hin.
    split; [done|]. apply in_map_iff. exists (t, v). by rewrite <-list_elem_of_In.
Qed.

Lemma map_sorted_NoDup_keys {K V} `{Ord K} (m : list (K * V)) :
  map_sorted m -> NoDup (map fst m).
Proof.
  induction 1 as [|e m Hs IH Hall]; simpl; constructor; [|done].
  intros Hin. apply list_elem_of_fmap in Hin as (e' & He & Hin).
  rewrite Forall_forall in Hall. apply Hall in Hin. rewrite He in Hin. by apply lt_irrefl in Hin.
Qed.

Lemma NoDup_pairs_of l :
  map_sorted l -> Forall (fun e => map_sorted e.2) l -> NoDup (pairs_of l).
Proof.
  induction 1 as [|[s samples] l Hs IH Hall]; intros Hin; [constructor|].
  apply Forall_cons in Hin as [Hsamples Hin]. cbn [pairs_of flat_map].
  apply NoDup_app. split_and!.
  - apply map_sorted_NoDup_keys in Hsamples. simpl. rewrite <-(map_map fst (pair s)).
    apply (NoDup_fmap_2 (pair s)) in Hsamples. exact Hsamples.
  - intros [s' t] H1 H2. apply list_elem_of_fmap in H1 as ([t' v] & [= -> ->] & _).
    apply elem_of_pairs_of in H2 as (samples' & v' & H2 & _).
    rewrite Forall_forall in Hall. apply Hall in H2. exact (lt_irrefl _ H2).
  - by apply IH.
Qed.

Lemma memtable_view_elem m s t v :
  MemTable_ok m ->
  memtable_view m s t = Some v <-> exists samples, (s, samples) ∈ series_ m /\ (t, v) ∈ samples.
Proof.
  intros Hok. pose proof Hok as (Hs & _ & _). unfold memtable_view. split.
  - destruct (map_find s (series_ m)) as [samples|] eqn:E; [|done]. intros Hf.
    exists samples. split; by apply map_find_elem.
  - intros (samples & H1 & H2). apply map_sorted_elem_find in H1; [|done]. rewrite H1.
    apply MemTable_ok_find in H1 as (_ & Hl & _); [|done]. by apply map_sorted_elem_find.
Qed.

Lemma memtable_view_count m :
  MemTable_ok m -> view_count (memtable_view m) (total_samples (series_ m)).
Proof.
  intros Hok. pose proof Hok as (Hs & Hall & _). exists (pairs_of (series_ m)). split_and!.
  - apply NoDup_pairs_of; [done|]. eapply Forall_impl; [exact Hall|]. by intros e (_ & ? & _).
  - apply length_pairs_of.
  - intros s t. rewrite elem_of_pairs_of. split.
    + intros (samples & v & H1 & H2). exists v. apply memtable_view_elem; eauto.
    + intros [v Hv]. apply memtable_view_elem in Hv as (samples & H1 & H2); eauto.
Qed.

Lemma memtable_snapshot_spec m :
  MemTable_ok m ->
  memtable_snapshot m =
  Ok (map (fun e => MkSnapshot e.1 (map (fun p => MkSample p.1 p.2) e.2)) (series_ m)).
Proof.
  intros (_ & Hall & _). apply result_map_Ok, Forall2_fmap_r, Forall_Forall2_diag.
  eapply Forall_impl; [exact Hall|]. intros [s samples] (_ & _ & _ & Hok). simpl.
  assert (result_map (fun '(t, v) => make_Sample t v) samples =
          Ok (map (fun p => MkSample p.1 p.2) samples)) as ->; [|done].
  apply result_map_Ok, Forall2_fmap_r, Forall_Forall2_diag.
  eapply Forall_impl; [exact Hok|]. intros [t v] Ht. by apply make_Sample_pair.
Qed.

(** ** Properties *)

(** The invariant is established and preserved by every operation. *)
Lemma empty_memtable_ok : MemTable_ok empty_memtable.
Proof. split_and!; [constructor|constructor|done]. Qed.

Lemma memtable_clear_ok m : MemTable_ok (memtable_clear m).
Proof. exact empty_memtable_ok. Qed.

Lemma put_inner_ok m s x : MemTable_ok m -> Sample_ok x -> samples_ok (put_inner m s x).
Proof.
  intros Hok Hx. unfold put_inner. destruct (map_find s (series_ m)) as [l|] eqn:E; simpl.
  - destruct (MemTable_ok_find _ _ _ Hok E) as (_ & H1 & H2 & H3). split_and!.
    + auto with chrono.
    + destruct l as [|[t v] l]; [done|]. cbn [map_set]. by destruct (cmp _ _).
    + apply Forall_map_set; [by destruct x|done].
  - split_and!; [repeat constructor|done|]. constructor; [by destruct x|constructor].
Qed.

Lemma u64_succ n : u64 (u64 (Z.of_nat n) + 1) = u64 (Z.of_nat (S n)).
Proof. unfold u64. rewrite Z.add_mod_idemp_l by lia. f_equal. lia. Qed.

Lemma memtable_put_ok m s x :
  MemTable_ok m -> SeriesKey_ok s -> Sample_ok x -> MemTable_ok (memtable_put m s x).
Proof.
  intros Hok Hs Hx. pose proof Hok as (Hsorted & Hall & Hcount). split_and!.
  - rewrite memtable_put_series. by apply map_set_sorted.
  - rewrite memtable_put_series. apply Forall_map_set; [|done].
    split; [done|by apply put_inner_ok].
  - rewrite memtable_put_total, memtable_put_count, Hcount by done.
    case_match; [done|]. apply u64_succ.
Qed.

(** A put changes the stored value at its series and timestamp and nothing
    else, and the counter grows exactly when the pair is new. *)
Theorem memtable_put_spec m s x :
  memtable_view (memtable_put m s x) ≡ view_put s x (memtable_view m) /\
  memtable_sample_count (memtable_put m s x) =
    (if memtable_view m s (timestamp x) is Some _ then memtable_sample_count m
     else u64 (memtable_sample_count m + 1)).
Proof. split; [apply memtable_put_view | apply memtable_put_count]. Qed.

Lemma memtable_get_spec m s t :
  MemTable_ok m -> memtable_get m s t = Ok (MkSample t <$> memtable_view m s t).
Proof.
  intros Hok. unfold memtable_get, memtable_view.
  destruct (map_find s (series_ m)) as [l|] eqn:E; [|done].
  destruct (map_find t l) as [v|] eqn:Et; [|done].
  apply MemTable_ok_find in E as [_ Hl]; [|done]. by rewrite (samples_ok_find l t v).
Qed.

Lemma memtable_latest_spec m s :
  MemTable_ok m -> exists r, memtable_latest m s = Ok r /\ is_latest (memtable_view m) s r.
Proof.
  intros Hok. unfold memtable_latest, is_latest, memtable_view, at_.
  destruct (map_find s (series_ m)) as [l|] eqn:E; [|by exists None].
  apply MemTable_ok_find in E as [_ Hl]; [|done]. pose proof Hl as (Hsorted & Hne & _).
  destruct (last l) as [[t v]|] eqn:Elast; [|by apply last_None in Elast].
  apply map_last_max in Elast as [Hin Hmax]; [|done].
  rewrite (make_Sample_pair t v) by by eapply samples_ok_elem. simpl.
  eexists. split; [done|]. simpl. split; [by apply map_sorted_elem_find|].
  intros t' v' Hf. by apply map_find_elem, Hmax in Hf.
Qed.

Lemma memtable_range_spec m s start end_ :
  MemTable_ok m ->
  memtable_range m s start end_ =
    Err (invalid_argument "range end cannot be before start") /\ end_ ≺ start \/
  exists l, memtable_range m s start end_ = Ok l /\ ~ end_ ≺ start /\
            is_range (memtable_view m) s start end_ l.
Proof.
  intros Hok. unfold memtable_range, throw_if.
  destruct (end_ ≺? start) eqn:E; simpl; [left; split; [done|by apply ltb_lt]|right].
  assert (~ end_ ≺ start) as Hle by (intros Hlt; apply ltb_lt in Hlt; congruence).
  unfold is_range, memtable_view, at_. destruct (map_find s (series_ m)) as [l|] eqn:Ef.
  - apply MemTable_ok_find in Ef as [_ Hl]; [|done]. pose proof Hl as (Hsorted & _ & Hall).
    destruct (range_from_spec (map_lower_bound start l) end_) as (r & -> & Hr & Hin).
    + auto with chrono.
    + rewrite Forall_forall in Hall |- *. intros e He.
      apply map_lower_bound_elem in He as [He _]; [|done]. by apply Hall.
    + exists r. split_and!; [done..|]. intros x.
      rewrite Hin, map_lower_bound_elem, map_find_elem_iff by done. simpl. tauto.
  - exists []. split_and!; [done|done|constructor|]. intros x. rewrite elem_of_nil.
    split; [done|by intros ([=] & _)].
Qed.

(** C33: under the invariant no query throws (but for reversed bounds), and each
    answers from the stored view: the exact match, the sample with the greatest
    timestamp, and the samples of the half-open interval in order. *)
Theorem memtable_queries m s t start end_ :
  MemTable_ok m ->
  memtable_get m s t = Ok (MkSample t <$> memtable_view m s t) /\
  (exists r, memtable_latest m s = Ok r /\ is_latest (memtable_view m) s r) /\
  (end_ ≺ start ->
     memtable_range m s start end_ =
     Err (invalid_argument "range end cannot be before start")) /\
  (~ end_ ≺ start ->
     exists l, memtable_range m s start end_ = Ok l /\
               is_range (memtable_view m) s start end_ l).
Proof.
  intros Hok. split_and!.
  - by apply memtable_get_spec.
  - by apply memtable_latest_spec.
  - intros Hlt. destruct (memtable_range_spec m s start end_ Hok) as [[? _]|(? & _ & Hn & _)]; done.
  - intros Hn. destruct (memtable_range_spec m s start end_ Hok) as [[_ ?]|(l & ? & _ & ?)]; [done|eauto].
Qed.

Definition example_memtable : MemTable :=
  memtable_put (memtable_put empty_memtable example_key (example_sample 5)) example_key (example_sample (-1)).

Lemma example_memtable_ok : MemTable_ok example_memtable.
Proof.
  apply memtable_put_ok; [apply memtable_put_ok| |]; try apply empty_memtable_ok;
    try apply example_key_ok; vm_compute; repeat (split || discriminate).
Qed.

Lemma memtable_queries_witness :
  memtable_get example_memtable example_key (MkTimestamp 5) = Ok (Some (example_sample 5)) /\
  exists l, memtable_range example_memtable example_key (MkTimestamp (-1)) (MkTimestamp 5) = Ok l /\
    is_range (memtable_view example_memtable) example_key (MkTimestamp (-1)) (MkTimestamp 5) l.
Proof.
  destruct (memtable_queries example_memtable example_key (MkTimestamp 5) (MkTimestamp (-1)) (MkTimestamp 5)
    example_memtable_ok) as (Hget & _ & _ & Hrange).
  split; [rewrite Hget; vm_compute; reflexivity|]. apply Hrange. vm_compute. discriminate.
Defined.

(** The counter is the number of distinct series/timestamp pairs stored
    (modulo 2^64), and [empty] says whether it is zero. *)
Theorem memtable_counts m :
  MemTable_ok m ->
  exists n, view_count (memtable_view m) n /\
    memtable_sample_count m = u64 (Z.of_nat n) /\
    (Z.of_nat n < 2 ^ 64 -> memtable_empty m = true <-> memtable_view m ≡ view_empty).
Proof.
  intros Hok. pose proof (memtable_view_count m Hok) as Hc. pose proof Hok as (_ & _ & Hcount).
  eexists. split_and!; [exact Hc|exact Hcount|]. intros Hn.
  unfold memtable_empty. rewrite Hcount, u64_small by (unfold in_u; lia). split.
  - intros H0. bool_to_prop. destruct Hc as (l & _ & Hl & Hin). intros s t.
    destruct l; [|simpl in Hl; lia].
    destruct (memtable_view m s t) eqn:E; [|done].
    assert ((s, t) ∈ []) as Hnil by (apply Hin; by rewrite E). by apply elem_of_nil in Hnil.
  - intros Hv. apply Z.eqb_eq. rewrite Hv in Hc.
    by rewrite (view_count_unique _ _ _ Hc view_count_empty).
Qed.

Lemma memtable_counts_witness :
  exists n, view_count (memtable_view example_memtable) n /\ Z.of_nat n = 2.
Proof.
  destruct (memtable_counts example_memtable example_memtable_ok) as (n & Hn & Hc & _).
  exists n. split; [exact Hn|].
  assert (n = 2%nat) as ->; [|reflexivity]. eapply view_count_unique; [exact Hn|].
  apply (memtable_view_count example_memtable example_memtable_ok).
Defined.
