(* ===== verification/WalRecord.v ===== *)
(** * WAL records (src/wal_record.cpp)

    Framing: magic, version, type, payload length and its inverse, payload,
    CRC32C.  [encode_wal_record] and [decode_wal_record] are the sources' two
    functions; the theorems state the round trip, what a prefix of a record and a
    damaged record decode to, and that a decision never changes when more bytes
    arrive, which is what log replay relies on ([FrameCodec]). *)

From stdpp Require Import base tactics option numbers list strings.
From Stdlib Require Import ZArith Lia Strings.Byte.
From S2P Require Import Prelude Errors Model ByteCodec Crc32c KeyCodec.

Definition wal_magic : Z := 1280791363.          (* 0x4C575343 *)
Definition wal_version : Z := 1.
Definition max_payload_size : Z := 16 * 1024 * 1024.
Definition wal_header_size : Z := 14.
Definition wal_checksum_size : Z := 4.

(** [WalRecordType::put] *)
Definition record_type_put : Z := 1.

Record WalPutRecord := MkWalPutRecord { series : SeriesKey; sample : Sample }.

#[export] Instance WalPutRecord_eq_dec : EqDecision WalPutRecord.
Proof. solve_decision. Defined.

Record WalDecodeResult := MkWalDecodeResult {
  record : option WalPutRecord;
  error : WalDecodeError.t;
  bytes_consumed : Z;
}.

(** [WalDecodeResult::success] *)
Definition success (r : WalDecodeResult) : bool :=
  bool_decide (is_Some (record r)) && bool_decide (error r = WalDecodeError.none).

(** ** Encoding *)

Definition write_string : ByteWriter -> string -> result ByteWriter :=
  write_string_or "WAL string is too large".

Definition encode_payload (r : WalPutRecord) : result (list byte) :=
  w ← write_string new_writer (measurement (series r));
  let ts := tags (series r) in
  throw_if (max_u32 <? size ts) (length_error "too many WAL tags");;
  let w := write_u32 w (u32 (size ts)) in
  w ← write_tags_or "WAL string is too large" w ts;
  let timestamp_bits := u64 (nanoseconds_since_epoch (timestamp (sample r))) in
  let value_bits := bits (sample_value (sample r)) in
  let w := write_u64 w timestamp_bits in
  let w := write_u64 w value_bits in
  Ok (writer_data w).

Definition encode_wal_record (r : WalPutRecord) : result (list byte) :=
  payload ← encode_payload r;
  throw_if (max_payload_size <? size payload) (length_error "WAL payload is too large");;
  let payload_length := u32 (size payload) in
  let inverted_length := Z.lxor payload_length max_u32 in
  let w := write_u32 new_writer wal_magic in
  let w := write_u8 w wal_version in
  let w := write_u8 w record_type_put in
  let w := write_u32 w payload_length in
  let w := write_u32 w inverted_length in
  let w := write_bytes w payload in
  let checksum := crc32c (writer_data w) in
  let w := write_u32 w checksum in
  Ok (writer_data w).

(** ** Decoding *)

Definition make_decode_error (e : WalDecodeError.t) : WalDecodeResult :=
  MkWalDecodeResult None e 0.

Definition read_string : Parser string := ByteCodec.read_string.

(** The body of [decode_payload]'s [try] block. *)
Definition decode_payload_body : Parser WalPutRecord :=
  m ← read_string;
  tag_count ← read_u32;
  ts ← read_tags (Z.to_nat tag_count) [];
  timestamp_bits ← read_u64;
  value_bits ← read_u64;
  rem ← p_remaining;
  reject_if (negb (rem =? 0));;
  let t := i64 timestamp_bits in
  let v := MkDouble value_bits in
  s ← p_lift (make_SeriesKey m ts);
  x ← p_lift (make_Sample (MkTimestamp t) v);
  mret (MkWalPutRecord s x).

Definition decode_payload (payload : list byte) : result (option WalPutRecord) :=
  match decode_payload_body (new_reader payload) with
  | Ok (Some (r, _)) => Ok (Some r)
  | Ok None => Ok None
  | Err (invalid_argument _) => Ok None
  | Err e => Err e
  end.

(** The header reads of [decode_wal_record]. *)
Definition read_wal_header : Parser (Z * Z * Z * Z * Z) :=
  magic ← read_u32;
  version ← read_u8;
  record_type ← read_u8;
  payload_length ← read_u32;
  inverted_length ← read_u32;
  mret (magic, version, record_type, payload_length, inverted_length).

Definition decode_wal_record (bytes : list byte) : result WalDecodeResult :=
  if size bytes <? wal_header_size then
    Ok (make_decode_error WalDecodeError.incomplete_record)
  else
  header ← read_wal_header (new_reader bytes);
  match header with
  | None => Ok (make_decode_error WalDecodeError.incomplete_record)
  | Some ((magic, version, record_type, payload_length, inverted_length), _) =>
    if negb (magic =? wal_magic) then
      Ok (make_decode_error WalDecodeError.invalid_magic)
    else
    let expected_inverted_length := Z.lxor payload_length max_u32 in
    if negb (inverted_length =? expected_inverted_length) then
      Ok (make_decode_error WalDecodeError.invalid_length)
    else
    let payload_size := payload_length in
    if max_payload_size <? payload_size then
      Ok (make_decode_error WalDecodeError.invalid_length)
    else
    let protected_size := wal_header_size + payload_size in
    let total_record_size := protected_size + wal_checksum_size in
    if size bytes <? total_record_size then
      Ok (make_decode_error WalDecodeError.incomplete_record)
    else
    let protected_bytes := first protected_size bytes in
    let checksum_bytes := subspan protected_size wal_checksum_size bytes in
    stored ← read_u32 (new_reader checksum_bytes);
    match stored with
    | None => Ok (make_decode_error WalDecodeError.incomplete_record)
    | Some (stored_checksum, _) =>
      let calculated_checksum := crc32c protected_bytes in
      if negb (stored_checksum =? calculated_checksum) then
        Ok (make_decode_error WalDecodeError.checksum_mismatch)
      else if negb (version =? wal_version) then
        Ok (make_decode_error WalDecodeError.unsupported_version)
      else if negb (record_type =? record_type_put) then
        Ok (make_decode_error WalDecodeError.unsupported_record_type)
      else
      let payload := subspan wal_header_size payload_size bytes in
      decoded_record ← decode_payload payload;
      match decoded_record with
      | None => Ok (make_decode_error WalDecodeError.invalid_payload)
      | Some r => Ok (MkWalDecodeResult (Some r) WalDecodeError.none total_record_size)
      end
    end
  end.

(** * Specification *)

(** What the API's constructors guarantee of a record. *)
Definition WalPutRecord_ok (r : WalPutRecord) : Prop :=
  SeriesKey_ok (series r) /\ Sample_ok (sample r).

Definition wal_payload (r : WalPutRecord) : list byte :=
  le_series_key (series r) ++
  le 8 (u64 (nanoseconds_since_epoch (timestamp (sample r)))) ++
  le 8 (bits (sample_value (sample r))).

(** A record the encoder accepts: every length fits its field. *)
Definition WalPutRecord_fits (r : WalPutRecord) : Prop :=
  SeriesKey_fits (series r) /\ size (wal_payload r) <= max_payload_size.

Definition wal_header (magic version record_type payload_length inverted_length : Z) : list byte :=
  le 4 magic ++ le 1 version ++ le 1 record_type ++ le 4 payload_length ++ le 4 inverted_length.

Definition wal_protected (payload : list byte) : list byte :=
  wal_header wal_magic wal_version record_type_put
    (size payload) (Z.lxor (size payload) max_u32) ++ payload.

Definition wal_frame (payload : list byte) : list byte :=
  wal_protected payload ++ le 4 (crc32c (wal_protected payload)).

(** ** Lemmas: framing *)

Lemma size_wal_header a b c d e : size (wal_header a b c d e) = 14.
Proof. unfold wal_header. by autorewrite with chrono_size. Qed.

Lemma size_wal_frame payload : size (wal_frame payload) = 18 + size payload.
Proof.
  unfold wal_frame, wal_protected. rewrite !size_app, size_wal_header, size_le. lia.
Qed.

Lemma encode_payload_Ok r :
  SeriesKey_fits (series r) -> Sample_ok (sample r) -> encode_payload r = Ok (wal_payload r).
Proof.
  intros (Hm & Ht & Htags) (_ & Hv & _). unfold encode_payload, wal_payload, write_string.
  destruct (write_string_Ok "WAL string is too large" new_writer _ Hm) as (w1 & Hw1).
  rewrite Hw1. cbn [mbind result_bind]. apply write_string_data in Hw1 as [_ Hd1].
  unfold throw_if. rewrite (proj2 (Z.ltb_ge _ _)) by done. cbn [mbind result_bind].
  pose proof (size_nonneg (tags (series r))).
  destruct (write_tags_Ok "WAL string is too large"
    (write_u32 w1 (u32 (size (tags (series r))))) _ Htags) as (w2 & Hw2).
  rewrite Hw2. cbn [mbind result_bind]. apply write_tags_data in Hw2 as [_ Hd2]. f_equal.
  unfold in_u in Hv.
  pose proof (u64_range (nanoseconds_since_epoch (timestamp (sample r)))) as Hts.
  unfold in_u in Hts.
  rewrite !write_u64_le by lia. rewrite Hd2, u32_small by (unfold in_u, max_u32 in *; lia).
  rewrite write_u32_le, Hd1 by lia. unfold le_series_key. simpl. by rewrite <-!app_assoc.
Qed.

Lemma encode_wal_record_frame r :
  WalPutRecord_fits r -> Sample_ok (sample r) ->
  encode_wal_record r = Ok (wal_frame (wal_payload r)).
Proof.
  intros [Hk Hsize] Hs. unfold encode_wal_record. rewrite encode_payload_Ok by done.
  cbn [mbind result_bind]. unfold throw_if. rewrite (proj2 (Z.ltb_ge _ _)) by done.
  cbn [mbind result_bind]. pose proof (size_nonneg (wal_payload r)) as Hn.
  set (payload := wal_payload r) in *.
  assert (in_u 32 (size payload)) as H32 by (unfold in_u, max_payload_size in *; lia).
  rewrite u32_small by done.
  assert (in_u 32 (Z.lxor (size payload) max_u32)) as Hinv
    by (apply in_u_lxor; [lia|done|done]).
  pose proof (crc32c_in_u32 (wal_protected payload)) as Hcrc. unfold in_u in *.
  f_equal. rewrite write_u32_le by apply crc32c_in_u32. rewrite write_bytes_app.
  rewrite !write_u32_le, !write_u8_le by (unfold wal_version, record_type_put; lia).
  rewrite write_u32_le by (unfold wal_magic; lia).
  unfold wal_frame, wal_protected, wal_header. simpl. by rewrite <-!app_assoc.
Qed.

Lemma encode_payload_fits r bytes : encode_payload r = Ok bytes -> SeriesKey_fits (series r).
Proof.
  unfold encode_payload, write_string. intros H. result_inv. bool_to_prop.
  repeat match goal with
  | H : write_string_or _ _ _ = Ok _ |- _ => apply write_string_data in H as [? _]
  | H : write_tags_or _ _ _ = Ok _ |- _ => apply write_tags_data in H as [? _]
  end. by split_and!.
Qed.

(** The encoder fails exactly on records that do not fit. *)
Lemma encode_wal_record_inv r bytes :
  Sample_ok (sample r) -> encode_wal_record r = Ok bytes ->
  WalPutRecord_fits r /\ bytes = wal_frame (wal_payload r).
Proof.
  intros Hs H. assert (WalPutRecord_fits r) as Hf.
  { unfold encode_wal_record in H. destruct (encode_payload r) as [p|] eqn:Hp; [|done].
    apply encode_payload_fits in Hp as Hk. rewrite encode_payload_Ok in Hp by done.
    injection Hp as <-. cbn [mbind result_bind] in H. result_inv. bool_to_prop. by split. }
  split; [done|]. rewrite encode_wal_record_frame in H by done. by injection H.
Qed.

(** Any 14 bytes are a header of in-range fields. *)
Lemma split_le n bytes :
  Z.of_nat n <= size bytes ->
  exists v rest, bytes = le n v ++ rest /\ 0 <= v < 256 ^ Z.of_nat n.
Proof.
  intros Hn. exists (unle (take n bytes)), (drop n bytes).
  assert (length (take n bytes) = n) as Hl by (rewrite length_take; unfold size in *; lia).
  split.
  - rewrite le_unle_n by done. by rewrite take_drop.
  - pose proof (unle_range (take n bytes)) as Hu. unfold size in Hu. by rewrite Hl in Hu.
Qed.

Lemma split_wal_header bytes :
  14 <= size bytes ->
  exists m v t l i rest, bytes = wal_header m v t l i ++ rest /\
    in_u 32 m /\ in_u 8 v /\ in_u 8 t /\ in_u 32 l /\ in_u 32 i.
Proof.
  intros H. unfold wal_header.
  destruct (split_le 4 bytes ltac:(lia)) as (m & r1 & -> & Hm). rewrite size_app, size_le in H.
  destruct (split_le 1 r1 ltac:(lia)) as (v & r2 & -> & Hv). rewrite size_app, size_le in H.
  destruct (split_le 1 r2 ltac:(lia)) as (t & r3 & -> & Ht). rewrite size_app, size_le in H.
  destruct (split_le 4 r3 ltac:(lia)) as (l & r4 & -> & Hl). rewrite size_app, size_le in H.
  destruct (split_le 4 r4 ltac:(lia)) as (i & r5 & -> & Hi).
  exists m, v, t, l, i, r5. rewrite <-!app_assoc. split_and!; done.
Qed.

Lemma read_wal_header_reads m v t l i :
  in_u 32 m -> in_u 8 v -> in_u 8 t -> in_u 32 l -> in_u 32 i ->
  reads read_wal_header (wal_header m v t l i) (m, v, t, l, i).
Proof.
  intros. unfold read_wal_header, wal_header.
  eapply reads_bind; [by apply reads_u32|]. eapply reads_bind; [by apply reads_u8|].
  eapply reads_bind; [by apply reads_u8|]. eapply reads_bind; [by apply reads_u32|].
  rewrite <-(app_nil_r (le 4 i)). eapply reads_bind; [by apply reads_u32|]. apply reads_ret.
Qed.

(** The decoder as a function of the header's fields and what follows them. *)
Lemma decode_wal_record_fields m v t l i rest :
  in_u 32 m -> in_u 8 v -> in_u 8 t -> in_u 32 l -> in_u 32 i ->
  decode_wal_record (wal_header m v t l i ++ rest) =
  if negb (m =? wal_magic) then Ok (make_decode_error WalDecodeError.invalid_magic)
  else if negb (i =? Z.lxor l max_u32) then Ok (make_decode_error WalDecodeError.invalid_length)
  else if max_payload_size <? l then Ok (make_decode_error WalDecodeError.invalid_length)
  else if size rest <? l + 4 then Ok (make_decode_error WalDecodeError.incomplete_record)
  else
    let payload := take (Z.to_nat l) rest in
    let stored := unle (take 4 (drop (Z.to_nat l) rest)) in
    if negb (stored =? crc32c (wal_header m v t l i ++ payload)) then
      Ok (make_decode_error WalDecodeError.checksum_mismatch)
    else if negb (v =? wal_version) then
      Ok (make_decode_error WalDecodeError.unsupported_version)
    else if negb (t =? record_type_put) then
      Ok (make_decode_error WalDecodeError.unsupported_record_type)
    else
      decoded ← decode_payload payload;
      match decoded with
      | None => Ok (make_decode_error WalDecodeError.invalid_payload)
      | Some r => Ok (MkWalDecodeResult (Some r) WalDecodeError.none (18 + l))
      end.
Proof.
  intros Hm Hv Ht Hl Hi. unfold decode_wal_record.
  pose proof (size_wal_header m v t l i) as Hh. pose proof (size_nonneg rest).
  rewrite size_app, Hh. unfold wal_header_size at 1. rewrite (proj2 (Z.ltb_ge _ _)) by lia.
  rewrite (read_wal_header_reads m v t l i Hm Hv Ht Hl Hi _ rest) by (done || apply new_reader_ok).
  cbn [mbind result_bind].
  destruct (negb (m =? wal_magic)); [done|].
  destruct (negb (i =? Z.lxor l max_u32)); [done|].
  destruct (max_payload_size <? l) eqn:Emax; [done|]. bool_to_prop. unfold in_u in Hl.
  unfold wal_header_size, wal_checksum_size.
  replace (14 + size rest <? 14 + l + 4) with (size rest <? l + 4)
    by (apply eq_true_iff_eq; rewrite !Z.ltb_lt; lia).
  destruct (size rest <? l + 4) eqn:Esize; [done|]. bool_to_prop.
  assert (forall n, 0 <= n -> drop (Z.to_nat (14 + n)) (wal_header m v t l i ++ rest) =
                              drop (Z.to_nat n) rest) as Hdrop.
  { intros n Hn. replace (Z.to_nat (14 + n)) with (14 + Z.to_nat n)%nat by lia.
    rewrite <-drop_drop. f_equal. }
  assert (first (14 + l) (wal_header m v t l i ++ rest) =
          wal_header m v t l i ++ take (Z.to_nat l) rest) as ->.
  { unfold first. assert (length (wal_header m v t l i) = 14%nat) as Hlen
      by (unfold size in Hh; lia).
    rewrite take_app_ge by lia. f_equal. f_equal. lia. }
  assert (subspan 14 l (wal_header m v t l i ++ rest) = take (Z.to_nat l) rest) as ->.
  { unfold subspan. by rewrite (drop_size_app (wal_header m v t l i) rest 14). }
  assert (subspan (14 + l) 4 (wal_header m v t l i ++ rest) = take 4 (drop (Z.to_nat l) rest)) as ->.
  { unfold subspan. by rewrite Hdrop by lia. }
  set (stored := take 4 (drop (Z.to_nat l) rest)).
  assert (length stored = 4%nat) as Hstored.
  { unfold stored. rewrite length_take, length_drop. unfold size in *. lia. }
  pose proof (unle_range stored) as Hu. unfold size in Hu. rewrite Hstored in Hu.
  rewrite (reads_u32 (unle stored) Hu (new_reader stored) []);
    [|apply new_reader_ok|by rewrite le_unle_n, app_nil_r].
  cbn [mbind result_bind]. by replace (14 + l + 4) with (18 + l) by lia.
Qed.

(** ** Lemmas: payloads *)

Lemma decode_payload_body_reads r :
  WalPutRecord_ok r -> SeriesKey_fits (series r) ->
  reads_all decode_payload_body (wal_payload r) r.
Proof.
  intros [Hk Hs] (Hm & Ht & Htags). pose proof Hk as (_ & Hok & Hsorted).
  pose proof Hs as (Hts & Hv & _).
  unfold decode_payload_body, wal_payload, le_series_key. rewrite <-!app_assoc.
  pose proof (size_nonneg (tags (series r))).
  eapply reads_all_bind; [by apply reads_string|].
  eapply reads_all_bind; [apply reads_u32; unfold in_u, max_u32 in *; lia|].
  rewrite to_nat_size. eapply reads_all_bind; [by apply reads_tags|]. simpl app.
  eapply reads_all_bind; [by apply reads_u64, u64_range|].
  rewrite <-(app_nil_r (le 8 (bits _))). eapply reads_all_bind; [by apply reads_u64|].
  apply reads_all_remaining. apply reads_all_reject_if; [done|].
  rewrite <-(app_nil_r []). eapply reads_all_bind; [by apply reads_lift, make_SeriesKey_id|].
  rewrite i64_u64, Timestamp_eta by done.
  rewrite <-(app_nil_r []). eapply reads_all_bind.
  { apply reads_lift. destruct (sample_value (sample r)) eqn:E. simpl. rewrite <-E.
    by apply make_Sample_id. }
  destruct r. apply reads_all_ret.
Qed.

Lemma decode_payload_Ok r :
  WalPutRecord_ok r -> SeriesKey_fits (series r) -> decode_payload (wal_payload r) = Ok (Some r).
Proof.
  intros Hr Hf. unfold decode_payload.
  by destruct (reads_all_new _ _ _ (decode_payload_body_reads r Hr Hf)) as (r' & -> & _).
Qed.

Lemma decode_payload_body_throws : only_invalid decode_payload_body.
Proof. unfold decode_payload_body. eauto 25 with chrono_throws. Qed.

(** [decode_payload] catches everything its body throws. *)
Lemma decode_payload_total payload : exists o, decode_payload payload = Ok o.
Proof.
  unfold decode_payload. destruct (decode_payload_body (new_reader payload)) as [[[r ?]|]|e] eqn:E.
  - eauto.
  - eauto.
  - destruct (decode_payload_body_throws _ _ E) as (what & ->). eauto.
Qed.

(** What the decoder accepts: the fields, whatever the order of the tags. *)
Lemma decode_payload_inv payload r :
  decode_payload payload = Ok (Some r) ->
  exists ts, payload = le_string (measurement (series r)) ++ le 4 (size ts) ++ le_tags ts ++
      le 8 (u64 (nanoseconds_since_epoch (timestamp (sample r)))) ++
      le 8 (bits (sample_value (sample r))) /\
    make_SeriesKey (measurement (series r)) ts = Ok (series r) /\ WalPutRecord_ok r.
Proof.
  unfold decode_payload. intros H.
  destruct (decode_payload_body (new_reader payload)) as [[[r0 r']|]|e] eqn:E; [|done|by destruct e].
  injection H as ->. unfold decode_payload_body in E. parser_inv.
  pose proof (new_reader_ok payload) as Hc0.
  apply read_string_inv in Hp as [Hm Hc1]; [|done].
  apply read_u32_inv in Hp0 as [Hn Hc2]; [|by eapply consumed_ok].
  apply read_tags_inv in Hp1 as (ts & -> & Hlen & Hok & _ & Hc3); [|by eapply consumed_ok|constructor].
  apply read_u64_inv in Hp2 as [Htb Hc4]; [|by eapply consumed_ok].
  apply read_u64_inv in Hp3 as [Hvb Hc5]; [|by eapply consumed_ok].
  match goal with H : negb _ = false |- _ => rename H into Hrem end. bool_to_prop.
  rewrite remaining_unread in Hrem by by eapply consumed_ok. apply size_0_nil in Hrem.
  match goal with H : make_SeriesKey _ _ = Ok _ |- _ => rename H into Hkey end.
  match goal with H : make_Sample _ _ = Ok _ |- _ => apply make_Sample_Ok in H as [Hfin ->] end.
  apply make_SeriesKey_Ok in Hkey as Hkey'. destruct Hkey' as (Hne & Hnd & ->).
  simpl in Hkey, Hok |- *. exists ts. split_and!.
  - rewrite u64_i64 by done. unfold in_u in Hn.
    assert (size ts = a0) as -> by (unfold size; lia).
    pose proof (consumed_trans _ _ _ _ _ Hc1 (consumed_trans _ _ _ _ _ Hc2
      (consumed_trans _ _ _ _ _ Hc3 (consumed_trans _ _ _ _ _ Hc4 Hc5)))) as [_ Hall].
    by rewrite Hrem, app_nil_r in Hall.
  - done.
  - split; [split_and!; simpl; [done| |]|split_and!; simpl; [by apply i64_range|done|done]].
    + by rewrite sort_perm.
    + apply no_duplicate_keys_sorted; [apply sort_sorted|].
      apply adjacent_duplicate_NoDup. by rewrite sort_perm.
Qed.

Lemma wal_protected_header payload :
  wal_protected payload =
  wal_header wal_magic wal_version record_type_put (size payload)
    (Z.lxor (size payload) max_u32) ++ payload.
Proof. done. Qed.

Lemma wal_payload_u32 (payload : list byte) :
  size payload <= max_payload_size ->
  in_u 32 (size payload) /\ in_u 32 (Z.lxor (size payload) max_u32).
Proof.
  intros Hp. pose proof (size_nonneg payload).
  assert (in_u 32 (size payload)) by (unfold in_u, max_payload_size in *; lia).
  split; [done|]. apply in_u_lxor; [lia|done|done].
Qed.

(** A frame decodes to its payload's record, whatever follows it. *)
Lemma decode_wal_frame payload rest :
  size payload <= max_payload_size ->
  decode_wal_record (wal_frame payload ++ rest) =
    decoded ← decode_payload payload;
    match decoded with
    | None => Ok (make_decode_error WalDecodeError.invalid_payload)
    | Some r => Ok (MkWalDecodeResult (Some r) WalDecodeError.none (size (wal_frame payload)))
    end.
Proof.
  intros Hp. destruct (wal_payload_u32 payload Hp) as [H32 Hinv].
  rewrite size_wal_frame. unfold wal_frame, wal_protected. rewrite <-!app_assoc.
  set (crc := crc32c _).
  rewrite decode_wal_record_fields by done. rewrite !Z.eqb_refl. simpl negb. cbv beta iota.
  rewrite (proj2 (Z.ltb_ge _ _)) by done. rewrite !size_app, size_le.
  pose proof (size_nonneg rest).
  rewrite (proj2 (Z.ltb_ge _ _)) by lia.
  rewrite (take_size_app payload _ (size payload)), (drop_size_app payload _ (size payload)) by done.
  rewrite (take_app_length' (le 4 crc)) by by rewrite length_le.
  rewrite unle_le_small by apply crc32c_in_u32. unfold crc at 1. by rewrite Z.eqb_refl.
Qed.

(** ** Lemmas: the decoder as replay uses it *)

Lemma decode_wal_record_cases bytes :
  exists d, decode_wal_record bytes = Ok d /\
    ((exists r n, d = MkWalDecodeResult (Some r) WalDecodeError.none n /\ WalPutRecord_ok r /\
        0 < n <= size bytes) \/
     (exists e, d = make_decode_error e /\ e <> WalDecodeError.none)).
Proof.
  assert (forall e, e <> WalDecodeError.none -> exists d, Ok (make_decode_error e) = Ok d /\
    ((exists r n, d = MkWalDecodeResult (Some r) WalDecodeError.none n /\ WalPutRecord_ok r /\
        0 < n <= size bytes) \/
     (exists e, d = make_decode_error e /\ e <> WalDecodeError.none))) as Herr by eauto 6.
  destruct (decide (size bytes < 14)) as [Hs14|Hs14].
  { unfold decode_wal_record, wal_header_size. rewrite (proj2 (Z.ltb_lt _ _)) by done. by apply Herr. }
  destruct (split_wal_header bytes ltac:(lia)) as (m & v & t & l & i & rest & -> & ?).
  destruct_and?. rewrite decode_wal_record_fields by done.
  repeat (case_match; [by apply Herr|]). cbv zeta.
  repeat (case_match; [by apply Herr|]). bool_to_prop.
  destruct (decode_payload_total (take (Z.to_nat l) rest)) as ([r|] & Hd); rewrite Hd;
    cbn [mbind result_bind]; [|by apply Herr].
  eexists. split; [done|]. left. eexists r, _. apply decode_payload_inv in Hd as (_ & _ & _ & Hr).
  split_and!; try done; simpl; rewrite ?size_app, ?size_wal_header; unfold in_u in *; lia.
Qed.

Lemma decode_wal_record_stable bytes more d :
  decode_wal_record bytes = Ok d -> error d <> WalDecodeError.incomplete_record ->
  decode_wal_record (bytes ++ more) = Ok d.
Proof.
  intros Hd He. destruct (decide (size bytes < 14)) as [Hs14|Hs14].
  { unfold decode_wal_record, wal_header_size in Hd. rewrite (proj2 (Z.ltb_lt _ _)) in Hd by done.
    by injection Hd as <-. }
  destruct (split_wal_header bytes ltac:(lia)) as (m & v & t & l & i & rest & -> & ?).
  destruct_and?. rewrite <-app_assoc. rewrite decode_wal_record_fields in Hd |- * by done.
  destruct (negb (m =? wal_magic)); [done|].
  destruct (negb (i =? Z.lxor l max_u32)); [done|].
  destruct (max_payload_size <? l); [done|].
  destruct (size rest <? l + 4) eqn:E; [by injection Hd as <-|]. bool_to_prop.
  rewrite size_app. pose proof (size_nonneg more). rewrite (proj2 (Z.ltb_ge _ _)) by lia.
  unfold in_u in *. unfold size in *.
  by rewrite take_app_le, drop_app_le, (take_app_le (drop _ _)) by (rewrite ?length_drop; lia).
Qed.

(** What log replay needs of a record decoder: it decides, a record lies within
    the bytes, and a decision is not revised when more bytes arrive. *)
Class RecordDecoder (decode : list byte -> result WalDecodeResult) := {
  decoder_cases bytes :
    exists d, decode bytes = Ok d /\
      ((exists r n, d = MkWalDecodeResult (Some r) WalDecodeError.none n /\ WalPutRecord_ok r /\
          0 < n <= size bytes) \/
       (exists e, d = make_decode_error e /\ e <> WalDecodeError.none));
  decoder_stable bytes more d :
    decode bytes = Ok d -> error d <> WalDecodeError.incomplete_record ->
    decode (bytes ++ more) = Ok d;
}.

#[export] Instance wal_record_decoder : RecordDecoder decode_wal_record.
Proof. split; [apply decode_wal_record_cases | apply decode_wal_record_stable]. Qed.

(** An encoded record decodes to itself, whatever follows it. *)
Lemma decode_encoded r bytes rest :
  WalPutRecord_ok r -> encode_wal_record r = Ok bytes ->
  decode_wal_record (bytes ++ rest) =
    Ok (MkWalDecodeResult (Some r) WalDecodeError.none (size bytes)).
Proof.
  intros Hr He. apply encode_wal_record_inv in He as [[Hk Hp] ->]; [|apply Hr].
  by rewrite decode_wal_frame, decode_payload_Ok.
Qed.

(** A proper prefix of an encoded record is incomplete. *)
Lemma decode_encoded_prefix r prefix rest :
  Sample_ok (sample r) -> encode_wal_record r = Ok (prefix ++ rest) -> rest <> [] ->
  decode_wal_record prefix = Ok (make_decode_error WalDecodeError.incomplete_record).
Proof.
  intros Hs He Hne. apply encode_wal_record_inv in He as [[Hk Hp] He]; [|done].
  set (payload := wal_payload r) in *. destruct (wal_payload_u32 payload Hp) as [H32 Hinv].
  assert (size prefix < 18 + size payload) as Hlt.
  { rewrite <-size_wal_frame, <-He, size_app. destruct rest; [done|]. rewrite size_cons.
    pose proof (size_nonneg rest). lia. }
  destruct (decide (size prefix < 14)) as [Hs14|Hs14].
  { unfold decode_wal_record, wal_header_size. by rewrite (proj2 (Z.ltb_lt _ _)). }
  unfold wal_frame, wal_protected in He.
  set (header := wal_header _ _ _ _ _) in He.
  assert (exists more, prefix = header ++ more) as (more & ->).
  { exists (drop 14 prefix). rewrite <-app_assoc in He.
    assert (length header = 14%nat) as Hl.
    { pose proof (size_wal_header wal_magic wal_version record_type_put (size payload)
        (Z.lxor (size payload) max_u32)) as Hh. fold header in Hh. unfold size in Hh. lia. }
    rewrite <-(take_drop 14 prefix) at 1. f_equal.
    apply (f_equal (take 14)) in He. rewrite take_app_le in He by (unfold size in *; lia).
    by rewrite take_app_length' in He. }
  unfold header in *. rewrite decode_wal_record_fields by done. rewrite !Z.eqb_refl.
  simpl negb. cbv beta iota. rewrite (proj2 (Z.ltb_ge _ _)) by done.
  rewrite size_app, size_wal_header in Hlt. by rewrite (proj2 (Z.ltb_lt _ _)) by lia.
Qed.

(** ** Lemmas: damage *)

Lemma unle_app (x y : list byte) : unle (x ++ y) = unle x + 256 ^ size x * unle y.
Proof.
  induction x as [|b x IH]; [change (size (@nil byte)) with 0; simpl; lia|].
  cbn [app unle]. rewrite IH, size_cons, Z.pow_add_r by (lia || apply size_nonneg). lia.
Qed.

Lemma unle_take j (bytes : list byte) :
  (j <= length bytes)%nat -> unle (take j bytes) = unle bytes mod 256 ^ Z.of_nat j.
Proof.
  intros Hj. rewrite <-(take_drop j bytes) at 2. rewrite unle_app.
  assert (size (take j bytes) = Z.of_nat j) as Hs by (unfold size; rewrite length_take; lia).
  pose proof (unle_range (take j bytes)) as Hr. rewrite Hs in Hr |- *.
  rewrite (Z.mul_comm (256 ^ _)), Z.mod_add by lia. symmetry. by apply Z.mod_small.
Qed.

Lemma unle_drop j (bytes : list byte) :
  (j <= length bytes)%nat -> unle (drop j bytes) = unle bytes / 256 ^ Z.of_nat j.
Proof.
  intros Hj. rewrite <-(take_drop j bytes) at 2. rewrite unle_app.
  assert (size (take j bytes) = Z.of_nat j) as Hs by (unfold size; rewrite length_take; lia).
  pose proof (unle_range (take j bytes)) as Hr. rewrite Hs in Hr |- *.
  rewrite (Z.mul_comm (256 ^ _)), Z.div_add by lia. by rewrite Z.div_small.
Qed.

(** The fields are four bytes apart, so a burst leaves the low bytes of one and
    the high bytes of the other alone for some split. *)
Lemma lxor_split j l l' m :
  l mod 256 ^ Z.of_nat j = l' mod 256 ^ Z.of_nat j ->
  Z.lxor l m / 256 ^ Z.of_nat j = Z.lxor l' m / 256 ^ Z.of_nat j -> l = l'.
Proof.
  assert (256 ^ Z.of_nat j = 2 ^ (8 * Z.of_nat j)) as -> by (by rewrite Z.pow_mul_r by lia).
  rewrite <-!Z.shiftr_div_pow2, !Z.shiftr_lxor by lia. intros Hlow Hhigh.
  apply (f_equal (fun z => Z.lxor z (Z.shiftr m (8 * Z.of_nat j)))) in Hhigh.
  rewrite !Z.lxor_assoc, Z.lxor_nilpotent, !Z.lxor_0_r, !Z.shiftr_div_pow2 in Hhigh by lia.
  rewrite (Z.div_mod l (2 ^ (8 * Z.of_nat j))), (Z.div_mod l' (2 ^ (8 * Z.of_nat j))) by lia.
  congruence.
Qed.

(** The checksum of protected bytes followed by their checksum is a constant. *)
Lemma crc_residue (bytes : list byte) :
  foldl crc_byte initial_value (bytes ++ le 4 (crc32c bytes)) =
  Nat.iter 32 crc_bit final_xor_value.
Proof.
  rewrite foldl_app, crc_fold_division, length_le, unle_le_small by apply crc32c_in_u32.
  f_equal. unfold crc32c. by rewrite <-Z.lxor_assoc, Z.lxor_nilpotent.
Qed.

Lemma crc_residue_burst p p' (a w w' b : list byte) :
  p ++ le 4 (crc32c p) = a ++ w ++ b -> p' ++ le 4 (crc32c p') = a ++ w' ++ b ->
  length w = length w' -> (length w <= 4)%nat -> w = w'.
Proof.
  intros Hp Hp' Hl H4. apply (crc_burst a w w' b Hl H4), crc32c_eq_fold.
  by rewrite <-Hp, <-Hp', !crc_residue.
Qed.

(** Success means that a frame was read. *)
Lemma decode_wal_record_success bytes d r :
  decode_wal_record bytes = Ok d -> record d = Some r ->
  exists payload tail, bytes = wal_frame payload ++ tail /\
    size payload <= max_payload_size /\ decode_payload payload = Ok (Some r) /\
    d = MkWalDecodeResult (Some r) WalDecodeError.none (size (wal_frame payload)).
Proof.
  intros Hd Hr. destruct (decide (size bytes < 14)) as [Hs14|Hs14].
  { unfold decode_wal_record, wal_header_size in Hd. rewrite (proj2 (Z.ltb_lt _ _)) in Hd by done.
    by injection Hd as <-. }
  destruct (split_wal_header bytes ltac:(lia)) as (m & v & t & l & i & rest & -> & ?).
  destruct_and?. rewrite decode_wal_record_fields in Hd by done.
  do 4 (case_match; [by injection Hd as <-|]). cbv zeta in Hd.
  do 3 (case_match; [by injection Hd as <-|]). bool_to_prop. subst.
  unfold in_u in *. set (payload := take (Z.to_nat l) rest) in *.
  assert (size payload = l) as Hl by (apply size_take; lia).
  destruct (decode_payload payload) as [[r'|]|] eqn:Hp; [| |done];
    injection Hd as <-; [|done]. injection Hr as <-.
  exists payload, (drop (Z.to_nat (l + 4)) rest).
  split_and!; [|lia|done|by rewrite size_wal_frame, Hl].
  unfold wal_frame. rewrite wal_protected_header, Hl, <-!app_assoc. f_equal.
  match goal with H : unle _ = crc32c _ |- _ => rewrite <-H end.
  rewrite le_unle_n by (rewrite length_take, length_drop; unfold size in *; lia).
  rewrite <-(take_drop (Z.to_nat l) rest) at 1. f_equal.
  replace (Z.to_nat (l + 4)) with (Z.to_nat l + 4)%nat by lia. by rewrite <-drop_drop, take_drop.
Qed.

(** The two length fields. *)
Definition length_field (bytes : list byte) : Z := unle (take 4 (drop 6 bytes)).
Definition inverse_field (bytes : list byte) : Z := unle (take 4 (drop 10 bytes)).

Lemma wal_header_fields m v t l i rest :
  in_u 32 l -> in_u 32 i ->
  length_field (wal_header m v t l i ++ rest) = l /\
  inverse_field (wal_header m v t l i ++ rest) = i.
Proof.
  intros Hl Hi. unfold length_field, inverse_field, wal_header. rewrite <-!app_assoc.
  rewrite (app_assoc (le 4 _) (le 1 _)), (app_assoc (_ ++ _) (le 1 _)).
  rewrite (drop_app_length' (_ ++ _) _ 6) by done.
  split; [by rewrite take_app_length', unle_le_small by (rewrite ?length_le; done)|].
  rewrite (app_assoc (_ ++ _) (le 4 l)).
  rewrite (drop_app_length' (_ ++ _) _ 10) by done.
  by rewrite take_app_length', unle_le_small by (rewrite ?length_le; done).
Qed.

(** Bytes that differ inside a short window and both have inverse length fields
    have the same length. *)
Lemma burst_length_field (a w w' b : list byte) :
  (14 <= length (a ++ w ++ b))%nat -> length w = length w' -> (length w <= 4)%nat ->
  inverse_field (a ++ w ++ b) = Z.lxor (length_field (a ++ w ++ b)) max_u32 ->
  inverse_field (a ++ w' ++ b) = Z.lxor (length_field (a ++ w' ++ b)) max_u32 ->
  length_field (a ++ w ++ b) = length_field (a ++ w' ++ b).
Proof.
  intros H14 Hl H4 H2 H2'. set (j := (Nat.min 4 (length a - 6))%nat).
  assert (14 <= length (a ++ w' ++ b))%nat as H14' by (rewrite !length_app in *; lia).
  apply (lxor_split j _ _ max_u32).
  - unfold length_field.
    rewrite <-!unle_take by (rewrite length_take, length_drop; lia).
    rewrite !take_take, !take_drop_commute. f_equal.
    destruct (decide (j = 0%nat)) as [->|]; [|by rewrite !take_app_le by lia].
    rewrite !drop_ge; [done|rewrite length_take; lia..].
  - rewrite <-H2, <-H2'. unfold inverse_field.
    rewrite <-!unle_drop by (rewrite length_take, length_drop; lia).
    rewrite !skipn_firstn_comm, !drop_drop.
    destruct (decide (j = 4%nat)) as [->|]; [done|]. f_equal. f_equal.
    rewrite !(app_assoc a). by rewrite !drop_app_ge, !length_app, Hl by (rewrite length_app; lia).
Qed.

Lemma wal_frame_header payload :
  size payload <= max_payload_size ->
  exists rest, wal_frame payload = wal_header wal_magic wal_version record_type_put
      (size payload) (Z.lxor (size payload) max_u32) ++ rest /\
    size rest = size payload + 4.
Proof.
  intros Hp. exists (payload ++ le 4 (crc32c (wal_protected payload))).
  split; [unfold wal_frame, wal_protected; by rewrite <-app_assoc|].
  by rewrite size_app, size_le.
Qed.

(** Damage inside a short window of a complete frame is seen as such. *)
Lemma decode_burst payload (a w w' b rest : list byte) :
  size payload <= max_payload_size -> wal_frame payload = a ++ w ++ b ->
  length w = length w' -> (length w <= 4)%nat -> w <> w' ->
  exists e, decode_wal_record (a ++ w' ++ b ++ rest) = Ok (make_decode_error e) /\
    e <> WalDecodeError.none /\ e <> WalDecodeError.incomplete_record.
Proof.
  intros Hp He Hl H4 Hne. destruct (wal_payload_u32 payload Hp) as [H32 Hinv].
  destruct (wal_frame_header payload Hp) as (fr & Hfr & Hfrsize).
  pose proof (size_wal_frame payload) as Hframe. pose proof (size_nonneg payload).
  assert (size (a ++ w' ++ b ++ rest) = 18 + size payload + size rest) as Hsize.
  { rewrite <-Hframe, He, !size_app. unfold size. lia. }
  pose proof (size_nonneg rest).
  assert (forall bytes', a ++ w' ++ b ++ rest = bytes' ->
    inverse_field bytes' = Z.lxor (length_field bytes') max_u32 ->
    length_field bytes' = size payload) as Hlength.
  { intros bytes' <- Hi.
    destruct (wal_header_fields wal_magic wal_version record_type_put _ _ (fr ++ rest) H32 Hinv) as [H1 H2].
    rewrite app_assoc, <-Hfr, He, <-!app_assoc in H1, H2. rewrite <-H1. symmetry.
    apply burst_length_field; [|done|done|by rewrite H1|done].
    apply Nat2Z.inj_le. change (14 <= size (a ++ w ++ b ++ rest)).
    rewrite (app_assoc w), (app_assoc a), size_app, <-He, Hframe. lia. }
  destruct (decode_wal_record_cases (a ++ w' ++ b ++ rest)) as (d & Hd & [(r & n & -> & _ & _)|(e & -> & Hnone)]).
  - exfalso. destruct (decode_wal_record_success _ _ _ Hd eq_refl) as (p & tail & He' & Hp' & _).
    destruct (wal_payload_u32 p Hp') as [H32' Hinv'].
    destruct (wal_frame_header p Hp') as (fr' & Hfr' & _).
    destruct (wal_header_fields wal_magic wal_version record_type_put _ _ (fr' ++ tail) H32' Hinv') as [H1 H2].
    rewrite app_assoc, <-Hfr' in H1, H2.
    specialize (Hlength _ He'). rewrite H1 in Hlength. specialize (Hlength H2).
    rewrite (app_assoc w'), (app_assoc a) in He'. apply app_inj_1 in He' as [He' _].
    + apply Hne, (crc_residue_burst _ _ a w w' b He (eq_sym He')); done.
    + apply Nat2Z.inj. change (size (a ++ w' ++ b) = size (wal_frame p)).
      rewrite size_wal_frame, Hlength, <-Hframe, He, !size_app. unfold size. lia.
  - exists e. split_and!; [done|done|]. intros ->.
    destruct (split_wal_header (a ++ w' ++ b ++ rest) ltac:(lia)) as (m & v & t & l & i & more & Hb & ?).
    destruct_and?. rewrite Hb in Hd. rewrite decode_wal_record_fields in Hd by done.
    do 3 (case_match; [discriminate Hd|]). bool_to_prop. subst i.
    destruct (wal_header_fields m v t l (Z.lxor l max_u32) more) as [H1' H2']; [done..|].
    specialize (Hlength _ Hb). rewrite H1', H2' in Hlength. specialize (Hlength eq_refl). subst l.
    rewrite Hb, size_app, size_wal_header in Hsize.
    rewrite (proj2 (Z.ltb_ge (size more) _)) in Hd by lia.
    cbv zeta in Hd. do 3 (case_match; [discriminate Hd|]).
    destruct (decode_payload _) as [[r|]|]; discriminate Hd.
Qed.

(** ** Properties *)

Definition example_record : WalPutRecord := MkWalPutRecord example_key (example_sample (-1)).
Definition example_bytes : list byte :=
  match encode_wal_record example_record with Ok bytes => bytes | Err _ => [] end.

Lemma example_record_ok : WalPutRecord_ok example_record.
Proof. split; [apply example_key_ok|apply example_sample_ok]. Qed.

Lemma example_encoded : encode_wal_record example_record = Ok example_bytes.
Proof. vm_compute. reflexivity. Qed.

(** C34: a record the encoder accepts decodes to itself, consuming exactly its
    bytes and ignoring what follows. *)
Theorem wal_record_roundtrip r bytes rest :
  WalPutRecord_ok r -> encode_wal_record r = Ok bytes ->
  decode_wal_record (bytes ++ rest) =
    Ok (MkWalDecodeResult (Some r) WalDecodeError.none (size bytes)).
Proof. apply decode_encoded. Qed.

Lemma wal_record_roundtrip_witness :
  size example_bytes = 58 /\
  decode_wal_record (example_bytes ++ [Byte.x43]) =
    Ok (MkWalDecodeResult (Some example_record) WalDecodeError.none (size example_bytes)).
Proof.
  split; [vm_compute; reflexivity|].
  apply wal_record_roundtrip; [apply example_record_ok|apply example_encoded].
Defined.

(** A proper prefix of an encoded record is reported as incomplete, never as
    corrupt. *)
Theorem wal_record_prefix r prefix rest :
  Sample_ok (sample r) -> encode_wal_record r = Ok (prefix ++ rest) -> rest <> [] ->
  decode_wal_record prefix = Ok (make_decode_error WalDecodeError.incomplete_record).
Proof. apply decode_encoded_prefix. Qed.

Lemma wal_record_prefix_witness :
  decode_wal_record (take 30 example_bytes) = Ok (make_decode_error WalDecodeError.incomplete_record).
Proof.
  apply (wal_record_prefix example_record _ (drop 30 example_bytes)); [apply example_sample_ok| |].
  - vm_compute. reflexivity.
  - vm_compute. discriminate.
Defined.

(** The decoder throws nothing; success means a well-formed record within the
    bytes given, anything else carries no record and consumes nothing; and once it
    has decided, more bytes do not change the decision. *)
Theorem decode_wal_record_total bytes :
  exists d, decode_wal_record bytes = Ok d /\
    ((exists r, record d = Some r /\ error d = WalDecodeError.none /\ WalPutRecord_ok r /\
        0 < bytes_consumed d <= size bytes) \/
     (record d = None /\ error d <> WalDecodeError.none /\ bytes_consumed d = 0)) /\
    (error d = WalDecodeError.incomplete_record \/
     forall more, decode_wal_record (bytes ++ more) = Ok d).
Proof.
  destruct (decode_wal_record_cases bytes) as (d & Hd & Hcase). exists d. split_and!; [done| |].
  - destruct Hcase as [(r & n & -> & Hr & Hn)|(e & -> & He)]; [left; by exists r|right; done].
  - destruct (decide (error d = WalDecodeError.incomplete_record)); [by left|right].
    intros more. by apply decode_wal_record_stable.
Qed.

(** Changing an encoded record inside a window of at most four bytes (any
    burst of up to 25 bits, and any single byte) is always noticed: whatever
    follows, the decoder reports damage, neither returning a record nor taking the
    record for an incomplete one that recovery would silently drop. *)
Theorem wal_record_burst r (a w w' b rest : list byte) :
  Sample_ok (sample r) -> encode_wal_record r = Ok (a ++ w ++ b) ->
  length w = length w' -> (length w <= 4)%nat -> w <> w' ->
  exists e, decode_wal_record (a ++ w' ++ b ++ rest) = Ok (make_decode_error e) /\
    e <> WalDecodeError.none /\ e <> WalDecodeError.incomplete_record.
Proof.
  intros Hs He. apply encode_wal_record_inv in He as [[_ Hp] He]; [|done].
  intros. by eapply (decode_burst (wal_payload r)).
Qed.

Lemma wal_record_burst_witness :
  exists e, decode_wal_record (take 20 example_bytes ++ [Byte.xff] ++ drop 21 example_bytes ++ [Byte.x43]) =
      Ok (make_decode_error e) /\
    e <> WalDecodeError.none /\ e <> WalDecodeError.incomplete_record.
Proof.
  apply (wal_record_burst example_record _ (take 1 (drop 20 example_bytes)) [Byte.xff]);
    [apply example_sample_ok|vm_compute; reflexivity|vm_compute; reflexivity|vm_compute; lia|vm_compute; discriminate].
Defined.
