(* ===== verification/FileIo.v ===== *)
(** * File input and output (src/file_io.cpp)

    The POSIX branch: [sync_file], [replace_file] and, built from them,
    [atomic_write_file]; [file_size_bytes] and [read_file_bytes].  The theorem on
    [atomic_write_file] covers every behaviour of the system calls and a power
    loss at every point.  It goes through [atomic_write_stages], which says how far the
    function has come on any platform whose two functions of its own are in the class
    [Publishes]; the other platforms are in Platforms.v. *)

From stdpp Require Import base tactics option numbers list strings gmap.
From Stdlib Require Import ZArith Lia.
From S2P Require Import Prelude Errors World Hoare.

Definition file_error (action : string) : exn := runtime_error action.

(** [std::numeric_limits<std::streamoff>::max()], and of [std::streamsize]. *)
Definition max_stream : Z := 2 ^ 63 - 1.

(** [open_for_sync], for a file and for a directory *)
Definition open_for_sync (p : path) : M world (sysret nat) := retry_interrupted (sys_open p).
Definition open_directory_for_sync (directory : string) : M world (sysret unit) :=
  retry_interrupted (sys_open_directory directory).

Definition close_descriptor : M world unit :=
  closed ← sys_close;
  match closed with
  | SysOk _ => mret tt
  | SysErr errno =>
    if negb (errno =? EINTR) then throw (system_error errno "failed to close file") else mret tt
  end.

(** [static_cast<void>(::close(descriptor))] *)
Definition ignored_close : M world unit := sys_close;; mret tt.

Definition sync_descriptor (i : nat) : M world unit :=
  synced ← retry_interrupted (sys_fsync i);
  match synced with
  | SysOk _ => mret tt
  | SysErr errno => throw (system_error errno "failed to synchronize file")
  end.

(** [sync_file], with the [sync_descriptor] the preprocessor chooses *)
Definition sync_file_with (sync_descriptor : nat -> M world unit) (p : path) : M world unit :=
  descriptor ← open_for_sync p;
  match descriptor with
  | SysErr errno => throw (system_error errno "failed to open file for synchronization")
  | SysOk i => on_exception (sync_descriptor i;; close_descriptor) ignored_close
  end.

Definition sync_file : path -> M world unit := sync_file_with sync_descriptor.

(** [replace_file], with what [fsync] of a directory does on the system *)
Definition replace_file_with (sys_fsync_directory : string -> M world (sysret unit))
    (temporary final_path : path) : M world unit :=
  renamed ← sys_rename temporary final_path;
  match renamed with
  | SysErr error => throw (system_error error "failed to publish atomic file")
  | SysOk _ =>
    let parent := directory_of final_path in
    descriptor ← open_directory_for_sync parent;
    match descriptor with
    | SysErr errno =>
      throw (system_error errno "failed to open parent directory for synchronization")
    | SysOk _ =>
      on_exception
        (synced ← retry_interrupted (sys_fsync_directory parent);
         match synced with
         | SysOk _ => close_descriptor
         | SysErr errno => throw (system_error errno "failed to synchronize parent directory")
         end)
        ignored_close
    end
  end.

Definition replace_file : path -> path -> M world unit := replace_file_with sys_fsync_directory.

Definition file_size_bytes (p : path) : M world Z :=
  sized ← sys_file_size p;
  match sized with
  | SysErr error => throw (system_error error "failed to inspect file size")
  | SysOk n => throw_when (max_u64 <? n) (file_error "file is too large");; mret n
  end.

Definition read_file_bytes (p : path) (offset count : Z) : M world (list byte) :=
  throw_when (max_stream <? offset) (file_error "file offset is too large");;
  throw_when (max_stream <? count) (file_error "file read is too large");;
  opened ← sys_open p;
  match opened with
  | SysErr _ => throw (file_error "failed to open file")
  | SysOk i =>
    sought ← sys_lseek i;
    match sought with
    | SysErr _ => throw (file_error "failed to seek file")
    | SysOk _ =>
      if count =? 0 then mret []
      else
        bytes ← sys_read i offset count;
        match bytes with
        | SysErr _ => throw (file_error "failed to read complete file range")
        | SysOk bytes =>
          throw_when (negb (size bytes =? count)) (file_error "failed to read complete file range");;
          mret bytes
        end
    end
  end.

Section AtomicWriteFile.
(** What the preprocessor chooses. *)
Context (sync_file : path -> M world unit) (replace_file : path -> path -> M world unit).

Definition atomic_write_file_with (p : path) (bytes : list byte) : M world unit :=
  let temporary := path_append p ".tmp" in
  output ← sys_open_truncate temporary;
  match output with
  | SysErr _ => throw (file_error "failed to open temporary file")
  | SysOk i =>
    written ←
      match bytes with
      | [] => mret true
      | _ =>
        throw_when (max_stream <? size bytes) (file_error "atomic write is too large");;
        stream_write i bytes
      end;
    closed ← stream_close;
    throw_when (negb (written && closed)) (file_error "failed to write temporary file");;
    sync_file temporary;;
    replace_file temporary p
  end.
End AtomicWriteFile.

Definition atomic_write_file : path -> list byte -> M world unit := atomic_write_file_with sync_file replace_file.

(** * Specification *)

Definition keeps (ps : list path) (f0 f : fsys) : Prop :=
  forall q, q ∉ ps -> kept f0 f q.

(** The directory is synchronized, with every other name in it. *)
Definition same_directory (p q : path) : Prop := directory_of q = directory_of p.

Definition atomic_write_post (w0 : world) (p : path) (bytes : list byte) (o : outcome unit) (w : world) : Prop :=
  let temporary := path_append p ".tmp" in
  fs_ok (fs w) /\ keeps [p; temporary] (fs w0) (fs w) /\
  match o with
  | Done _ =>
    durable (fs w) p (Some bytes) /\ durable (fs w) temporary None /\ (faulty w -> faulty w0) /\
    forall q, q ∉ [p; temporary] -> same_directory p q -> entry (fs w) q = settle (entry (fs w0) q)
  | _ =>
    (faulty w0 \/ max_stream < size bytes) /\
    forall old r, durable (fs w0) p old -> after_crash (fs w) p r -> r = old \/ r = Some bytes
  end.

(** ** Lemmas: building the temporary file *)

(** Between the opening of [tmp] and the renaming only the inode of [tmp] changes. *)
Definition only_tmp (f0 f : fsys) (tmp : path) (i : nat) : Prop :=
  fs_ok f /\ now (entry f tmp) = Some i /\
  (forall q, q <> tmp -> entry f q = entry f0 q) /\
  (forall j, j <> i -> (j < next_inode f0)%nat -> inode f j = inode f0 j).

Lemma only_tmp_open f0 tmp i f :
  fs_ok f0 -> create_if_missing tmp f0 = (SysOk i, f) ->
  only_tmp f0 (set_inode i (push [] (inode f i)) f) tmp i.
Proof.
  intros [Hlt Hinj]. unfold create_if_missing. destruct (now (entry f0 tmp)) as [j|] eqn:E.
  - intros [= <- <-]. split_and!; [split|done|done|]; try done.
    intros k Hk _. autorewrite with chrono_fs. by rewrite decide_False.
  - intros [= <- <-]. set (i := next_inode f0).
    set (f := Fsys _ _ _ _ _).
    assert (forall q, entry f q = if decide (q = tmp) then push (Some i) (entry f0 tmp) else entry f0 q) as He.
    { intros q. unfold entry at 1. simpl. destruct (decide (q = tmp)) as [->|].
      - by rewrite lookup_insert_eq.
      - by rewrite lookup_insert_ne. }
    split_and!; [split| | |].
    + intros p k. rewrite entry_set_inode, He. simpl. destruct (decide (p = tmp)) as [->|].
      * rewrite possible_push. intros [[= ->]|Hk]; [unfold i; lia|]. specialize (Hlt _ _ Hk). lia.
      * intros Hk. specialize (Hlt _ _ Hk). lia.
    + intros p q k. rewrite !entry_set_inode, !He.
      assert (forall q, q <> tmp -> now (entry f0 q) = Some i -> False) as Hnew.
      { intros q' _ Hq'. specialize (Hlt q' i). rewrite <-Hq' in Hlt.
        specialize (Hlt (possible_now _)). unfold i in Hlt. lia. }
      destruct (decide (p = tmp)) as [->|], (decide (q = tmp)) as [->|]; simpl; [done| | |].
      * intros [= <-] Hq. by destruct (Hnew q).
      * intros Hp [= <-]. by destruct (Hnew p).
      * apply Hinj.
    + rewrite entry_set_inode, He. by rewrite decide_True.
    + intros q Hq. rewrite entry_set_inode, He. by rewrite decide_False.
    + intros k Hk Hk'. autorewrite with chrono_fs. rewrite decide_False by done.
      unfold inode. simpl. by rewrite lookup_insert_ne.
Qed.

Lemma only_tmp_set_inode f0 f tmp i h : only_tmp f0 f tmp i -> only_tmp f0 (set_inode i h f) tmp i.
Proof.
  intros (Hok & Hi & He & Hj). split_and!; [done|done|done|].
  intros k Hk Hk'. autorewrite with chrono_fs. rewrite decide_False by done. auto.
Qed.

Lemma only_tmp_kept f0 f tmp i q :
  fs_ok f0 -> only_tmp f0 f tmp i -> q <> tmp -> kept f0 f q.
Proof.
  intros [Hlt _] ([_ Hinj] & Hi & He & Hj) Hq. split; [left; auto|]. intros j Hn. apply Hj.
  - intros ->. apply Hq, (Hinj _ _ i); [|done]. by rewrite He.
  - apply (Hlt q). rewrite <-Hn. apply possible_now.
Qed.

(** ** Lemmas: publishing it *)

Definition renamed (f : fsys) (tmp p : path) (i : nat) : fsys :=
  set_entry tmp (push None (entry f tmp)) (set_entry p (push (Some i) (entry f p)) f).

Lemma renamed_ok f tmp p i :
  fs_ok f -> now (entry f tmp) = Some i -> tmp <> p -> fs_ok (renamed f tmp p i).
Proof.
  intros [Hlt Hinj] Hi Hne. unfold renamed. split.
  - intros q k. autorewrite with chrono_fs. simpl.
    destruct (decide (q = tmp)) as [->|]; [|destruct (decide (q = p)) as [->|]];
      rewrite ?possible_push; [intros [[=]|Hk]|intros [[= ->]|Hk]|intros Hk]; eauto.
    apply (Hlt tmp). rewrite <-Hi. apply possible_now.
  - intros q q' k. autorewrite with chrono_fs.
    destruct (decide (q = tmp)) as [->|], (decide (q' = tmp)) as [->|]; try done.
    destruct (decide (q = p)) as [->|], (decide (q' = p)) as [->|]; simpl; try done.
    + intros [= <-] Hq'. by pose proof (Hinj _ _ _ Hi Hq').
    + intros Hq [= <-]. by pose proof (Hinj _ _ _ Hi Hq).
    + apply Hinj.
Qed.

(** The names for which [P] holds become permanent. *)
Definition settle_where (P : path -> Prop) `{!forall q, Decision (P q)} (f : fsys) : fsys :=
  Fsys (map_imap (fun q h => Some (if decide (P q) then settle h else h)) (entries f))
    (inodes f) (next_inode f) (locks f) (places f).

Section SettleWhere.
Context (P : path -> Prop) {Hdec : forall q, Decision (P q)}.

Lemma entry_settle_where f q : entry (settle_where P f) q = if decide (P q) then settle (entry f q) else entry f q.
Proof.
  unfold entry, settle_where. simpl. rewrite map_lookup_imap.
  destruct (entries f !! q) as [h|]; simpl; by destruct (decide _).
Qed.

Lemma settle_where_ok f : fs_ok f -> fs_ok (settle_where P f).
Proof.
  intros [Hlt Hinj]. split.
  - intros p i. rewrite entry_settle_where. cbn [next_inode settle_where]. case_decide; [|apply Hlt].
    unfold settle. rewrite possible_settled. intros He. apply (Hlt p). rewrite He. apply possible_now.
  - intros p q i. rewrite !entry_settle_where. do 2 case_decide; apply Hinj.
Qed.

Lemma settle_where_kept f q : kept f (settle_where P f) q.
Proof.
  split; [|done]. rewrite entry_settle_where. case_decide; [by right|by left].
Qed.
End SettleWhere.

Lemma renamed_kept f tmp p i q : q <> p -> q <> tmp -> kept f (renamed f tmp p i) q.
Proof.
  intros Hp Ht. split; [|done]. left. unfold renamed. autorewrite with chrono_fs. by rewrite !decide_False.
Qed.

Lemma renamed_after_crash f tmp p i bytes old r :
  tmp <> p -> inode f i = settled bytes -> durable f p old ->
  after_crash (renamed f tmp p i) p r -> r = old \/ r = Some bytes.
Proof.
  intros Hne Hi Hd (e & He & Hr). unfold renamed in He.
  rewrite entry_set_entry, decide_False, entry_set_entry, decide_True in He by done.
  apply possible_push in He as [->|He].
  - right. destruct Hr as (v & Hv & ->). change (inode _ i) with (inode f i) in Hv.
    rewrite Hi in Hv. by apply possible_settled in Hv as ->.
  - left. eapply durable_after_crash; [exact Hd|]. by exists e.
Qed.

(** ** Lemmas: the calls, whatever the operating system answers *)

(** A part that may change nothing but what [synced] says: it ends normally, or it
    fails because of the script. *)
Definition ends_in (w0 : world) (f1 f2 : fsys) (o : outcome unit) (w : world) : Prop :=
  match o with
  | Done _ => fs w = f2 /\ (faulty w -> faulty w0)
  | _ => (fs w = f1 \/ fs w = f2) /\ faulty w0
  end.

Lemma wp_close_descriptor w : wp close_descriptor w (ends_in w (fs w) (fs w)).
Proof.
  unfold close_descriptor. wp_step. apply wp_sys_query.
  - intros w1 Hf Hs. by split.
  - intros e w1 Hf Hs. unfold and_then, ends_in, wp. destruct (negb (e =? EINTR)); simpl; auto.
  - intros w1 Hf Hs. simpl. auto.
Qed.

Lemma wp_ignored_close {A} (e : exn) w (Q : outcome A -> world -> Prop) :
  (forall w', fs w' = fs w -> Q (Raised e) w') -> (forall w', fs w' = fs w -> Q Crashed w') ->
  wp ignored_close w (and_then (fun _ => throw e) Q).
Proof.
  intros H1 H2. unfold ignored_close. wp_step. apply wp_sys_query; intros;
    unfold and_then, wp; simpl; auto.
Qed.

Lemma wp_sync_descriptor i w :
  wp (sync_descriptor i) w (ends_in w (fs w) (set_inode i (settle (inode (fs w) i)) (fs w))).
Proof.
  unfold sync_descriptor. wp_step. apply wp_retry_settle.
  - intros w2 Hf2 Hs2. wp_go. by split.
  - intros e w2 He Hf2 Hs2. wp_go. simpl. auto.
  - intros w2 Hf2 Hs2. simpl. auto.
Qed.

Lemma wp_sync_file_with sync_descriptor p w i :
  (forall w1, wp (sync_descriptor i) w1 (ends_in w1 (fs w1) (set_inode i (settle (inode (fs w1) i)) (fs w1)))) ->
  now (entry (fs w) p) = Some i ->
  wp (sync_file_with sync_descriptor p) w
     (ends_in w (fs w) (set_inode i (settle (inode (fs w) i)) (fs w))).
Proof.
  intros Hsync Hi. unfold sync_file_with, open_for_sync. wp_step. apply wp_retry_query.
  { intros f. by destruct (now (entry f p)). }
  - intros w1 Hf Hs. rewrite Hi. simpl. apply wp_on_exception. wp_step.
    eapply wp_mono; [apply Hsync|]. rewrite Hf. intros [u|e|] w2; cbn [and_then ends_in].
    + intros [Hf2 Hs2]. eapply wp_mono; [apply wp_close_descriptor|]. intros [u'|e|] w3; simpl.
      * intros [-> Hs3]. split; [done|auto].
      * intros [Hf3 Hs3]. apply wp_ignored_close; intros w4 Hf4; simpl; rewrite Hf4;
          destruct Hf3 as [->| ->]; auto.
      * intros [[->| ->] Hs3]; auto.
    + intros [Hf2 Hs2]. apply wp_ignored_close; intros w3 Hf3; simpl; rewrite Hf3; destruct Hf2 as [->| ->]; auto.
    + intros [[->| ->] Hs2]; simpl; auto.
  - intros e w1 He Hf Hs. wp_go. simpl. auto.
  - intros w1 Hf Hs. simpl. auto.
Qed.

Lemma wp_sync_file p w i :
  now (entry (fs w) p) = Some i ->
  wp (sync_file p) w
     (ends_in w (fs w) (set_inode i (settle (inode (fs w) i)) (fs w))).
Proof. apply wp_sync_file_with, wp_sync_descriptor. Qed.

Lemma wp_replace_file_with settles tmp p w i :
  now (entry (fs w) tmp) = Some i ->
  let f1 := renamed (fs w) tmp p i in
  let f2 := settles (directory_of p) f1 in
  wp (replace_file_with (fun d => sys_settle (settles d)) tmp p) w (fun o w' =>
    match o with
    | Done _ => fs w' = f2 /\ (faulty w' -> faulty w)
    | _ => (fs w' = fs w \/ fs w' = f1 \/ fs w' = f2) /\ faulty w
    end).
Proof.
  intros Hi f1 f2. unfold replace_file_with, open_directory_for_sync. wp_step.
  apply wp_sys_change; rewrite ?Hi; cbn [fst snd]; fold (renamed (fs w) tmp p i); fold f1.
  - intros w1 Hf Hs. wp_go. wp_step. apply wp_retry_query; [done| | |].
    + intros w2 Hf2 Hs2. wp_go. apply wp_on_exception. wp_step. apply wp_retry_settle.
      * intros w3 Hf3 Hs3. wp_go. rewrite Hf2, Hf in Hf3. fold f2 in Hf3.
        eapply wp_mono; [apply wp_close_descriptor|]. intros [u|e|] w4; simpl; rewrite ?Hf3.
        -- intros [-> ?]. auto 10.
        -- intros [Hf4 Hs4]. apply wp_ignored_close; intros w5 Hf5; simpl; rewrite Hf5;
             destruct Hf4 as [->| ->]; auto 10.
        -- intros [[->| ->] ?]; auto 10.
      * intros e w3 He Hf3 Hs3. wp_go. apply wp_ignored_close; intros w4 Hf4; simpl;
          rewrite Hf4, Hf3, Hf2, Hf; auto 10.
      * intros w3 Hf3 Hs3. simpl. rewrite Hf3, Hf2, Hf; auto 10.
    + intros e w2 He Hf2 Hs2. wp_go. rewrite Hf2, Hf; auto 10.
    + intros w2 Hf2 Hs2. simpl. rewrite Hf2, Hf; auto 10.
  - intros e w1 Hf Hs. wp_go. auto 10.
  - intros w1 Hf Hs. simpl. auto 10.
Qed.

Lemma wp_stream_write i bytes w :
  bytes <> [] ->
  wp (stream_write i bytes) w (fun o w' =>
    match o with
    | Done true => fs w' = append_inode i bytes (fs w) /\ (faulty w' -> faulty w)
    | Raised _ => False
    | _ => (fs w' = fs w \/ exists k, fs w' = append_inode i (take k bytes) (fs w)) /\ faulty w
    end).
Proof.
  intros Hne. unfold stream_write. wp_step. apply wp_sys_write.
  - intros n w1 Hn Hc _ Hf Hs Hl. wp_go. case_bool_decide as Hd.
    + subst n. rewrite firstn_all in Hf. auto.
    + split; [eauto|]. by destruct Hc.
  - intros w1 Hf Hs. wp_go. rewrite bool_decide_false; [auto|]. by destruct bytes.
  - intros e w1 Hf Hs _. wp_go. auto.
  - intros w1 Hf Hs. simpl. split; [|done]. right. exists (length bytes). by rewrite firstn_all.
Qed.

Lemma wp_stream_close w :
  wp stream_close w (fun o w' =>
    match o with
    | Done true => fs w' = fs w /\ (faulty w' -> faulty w)
    | Raised _ => False
    | _ => fs w' = fs w /\ faulty w
    end).
Proof.
  unfold stream_close. wp_step. apply wp_sys_query; intros; wp_go; simpl; auto.
Qed.

(** The contents of the temporary file when it is complete. *)
Lemma append_to_empty i bytes f :
  now (inode f i) = [] -> now (inode (append_inode i bytes f) i) = bytes.
Proof. intros H. autorewrite with chrono_fs. rewrite decide_True by done. by rewrite now_append_hist, H. Qed.

(** How far [atomic_write_file] has come: it has at most touched the temporary file, or
    this is complete and on stable storage. *)
Definition untouched (f0 f : fsys) (tmp : path) : Prop := f = f0 \/ exists i, only_tmp f0 f tmp i.
Definition complete (f0 f : fsys) (tmp : path) (i : nat) (bytes : list byte) : Prop :=
  only_tmp f0 f tmp i /\ inode f i = settled bytes.

(** [moved], [stopped]: what moving the file of inode [i] over [p] makes of a file system
    when it succeeds, and when it does not. *)
Definition atomic_write_stages (moved stopped : path -> nat -> fsys -> fsys -> Prop) (w0 : world) (p : path)
    (bytes : list byte) (o : outcome unit) (w : world) : Prop :=
  let temporary := path_append p ".tmp" in
  match o with
  | Done _ => (exists f i, complete (fs w0) f temporary i bytes /\ moved p i f (fs w)) /\ (faulty w -> faulty w0)
  | _ =>
    (faulty w0 \/ max_stream < size bytes) /\
    (untouched (fs w0) (fs w) temporary \/
     exists f i, complete (fs w0) f temporary i bytes /\ stopped p i f (fs w))
  end.

(** What a platform promises: to make the contents of a file permanent, and to move a file
    over another as [moved] and [stopped] say. *)
Class Publishes (moved stopped : path -> nat -> fsys -> fsys -> Prop)
    (sync_file : path -> M world unit) (replace_file : path -> path -> M world unit) : Prop := {
  sync_file_ends : forall p w i, now (entry (fs w) p) = Some i ->
    wp (sync_file p) w (ends_in w (fs w) (set_inode i (settle (inode (fs w) i)) (fs w)));
  replace_file_ends : forall p w i,
    let tmp := path_append p ".tmp" in
    fs_ok (fs w) -> now (entry (fs w) tmp) = Some i ->
    wp (replace_file tmp p) w (fun o w' =>
      match o with
      | Done _ => moved p i (fs w) (fs w') /\ (faulty w' -> faulty w)
      | _ => stopped p i (fs w) (fs w') /\ faulty w
      end);
}.

#[export] Instance same_directory_dec p q : Decision (same_directory p q) := decide (directory_of q = directory_of p).

Lemma directory_of_append p suffix : directory_of (path_append p suffix) = directory_of p.
Proof. done. Qed.

(** On POSIX the new names are permanent once the directory is synchronized, with every
    other name in it; until then each name may be what it was. *)
Definition posix_moved (p : path) (i : nat) (f f' : fsys) : Prop :=
  f' = settle_where (same_directory p) (renamed f (path_append p ".tmp") p i).
Definition posix_stopped (p : path) (i : nat) (f f' : fsys) : Prop :=
  f' = f \/ f' = renamed f (path_append p ".tmp") p i \/ posix_moved p i f f'.

#[export] Instance posix_publishes : Publishes posix_moved posix_stopped sync_file replace_file.
Proof.
  split; [apply wp_sync_file|]. intros p w i tmp _ Hi.
  by apply (wp_replace_file_with settle_directory).
Qed.

(** What a power loss leaves when [atomic_write_file] has come so far. *)
Definition old_or_new (f0 f : fsys) (p : path) (bytes : list byte) : Prop :=
  fs_ok f /\ keeps [p; path_append p ".tmp"] f0 f /\
  forall old r, durable f0 p old -> after_crash f p r -> r = old \/ r = Some bytes.

Lemma tmp_ne p : path_append p ".tmp" <> p.
Proof.
  destruct p as [d leaf]. intros [= H]. apply (f_equal String.length) in H.
  rewrite string_length_app in H. simpl in H. lia.
Qed.

Lemma ne_tmp p : p <> path_append p ".tmp".
Proof. intros H. by apply (tmp_ne p). Qed.
#[local] Hint Resolve tmp_ne ne_tmp : core.

Section Stages.
Context (f0 f : fsys) (p : path) (bytes : list byte).
Hypothesis (Hok : fs_ok f0).
Let tmp := path_append p ".tmp".

Lemma untouched_kept q : untouched f0 f tmp -> q <> tmp -> kept f0 f q.
Proof. intros [->|(j & Hj)] Hq; [apply kept_refl|by eapply only_tmp_kept]. Qed.

Lemma untouched_after_crash old r : untouched f0 f tmp -> durable f0 p old -> after_crash f p r -> r = old.
Proof. intros Hf Hd. apply durable_after_crash. eapply kept_durable; [|done]. apply untouched_kept; [done|apply ne_tmp]. Qed.

Lemma untouched_old_or_new : untouched f0 f tmp -> old_or_new f0 f p bytes.
Proof.
  intros Hf. split_and!; [by destruct Hf as [->|(j & Hj & _)]|intros q Hq; apply untouched_kept; [done|set_solver]|].
  intros old r Hd Hr. left. by apply untouched_after_crash.
Qed.

Context (i : nat).
Hypothesis (Hf : complete f0 f tmp i bytes).
Let f1 := renamed f tmp p i.

Lemma complete_untouched : untouched f0 f tmp.
Proof. right. exists i. apply Hf. Qed.

Lemma entry_renamed q :
  entry f1 q =
  if decide (q = tmp) then push None (entry f tmp) else if decide (q = p) then push (Some i) (entry f p) else entry f0 q.
Proof.
  unfold f1, renamed. autorewrite with chrono_fs. do 2 (case_decide; [done|]). destruct Hf as ((_ & _ & He & _) & _). by apply He.
Qed.

Lemma renamed_old_or_new : old_or_new f0 f1 p bytes.
Proof.
  destruct Hf as [(Hfok & Hnow & He & Hj) Hi]. split_and!.
  - apply renamed_ok; [done|done|apply tmp_ne].
  - intros q Hq. eapply kept_trans; [apply untouched_kept; [apply complete_untouched|set_solver]|].
    apply renamed_kept; set_solver.
  - intros old r Hd. apply renamed_after_crash; [apply tmp_ne|done|].
    eapply kept_durable; [|exact Hd]. apply untouched_kept; [apply complete_untouched|apply ne_tmp].
Qed.

(** A move that is permanent for the names of [P] *)
Context (P : path -> Prop) `{!forall q, Decision (P q)}.

Lemma permanent_old_or_new : old_or_new f0 (settle_where P f1) p bytes.
Proof.
  destruct renamed_old_or_new as (Hok1 & Hk & Hr). split_and!; [by apply settle_where_ok| |].
  - intros q Hq. eapply kept_trans; [by apply Hk|apply settle_where_kept].
  - intros old r Hd (e & He & Hv). eapply Hr; [exact Hd|]. exists e. split; [|done].
    rewrite entry_settle_where in He. case_decide; [|done].
    unfold settle in He. apply possible_settled in He as ->. apply possible_now.
Qed.

Lemma permanent_durable : P p -> durable (settle_where P f1) p (Some bytes).
Proof.
  intros Hp. exists i. rewrite entry_settle_where, decide_True by done. rewrite entry_renamed.
  rewrite decide_False, decide_True by (done || apply ne_tmp). split; [done|]. exact (proj2 Hf).
Qed.

Lemma permanent_tmp : P tmp -> durable (settle_where P f1) tmp None.
Proof. intros Hp. unfold durable. rewrite entry_settle_where, decide_True by done. by rewrite entry_renamed, decide_True. Qed.

Lemma permanent_entry q : q ∉ [p; tmp] -> P q -> entry (settle_where P f1) q = settle (entry f0 q).
Proof.
  intros Hq HP. rewrite entry_settle_where, decide_True by done. rewrite entry_renamed.
  by rewrite !decide_False by set_solver.
Qed.
End Stages.

Lemma create_if_missing_Ok p f : exists i f1, create_if_missing p f = (SysOk i, f1).
Proof. unfold create_if_missing. destruct (now (entry f p)); eauto. Qed.

(** The file system after [sys_open_truncate]. *)
Lemma wp_sys_open_truncate p w Q :
  fs_ok (fs w) ->
  (forall i w1, only_tmp (fs w) (fs w1) p i -> now (inode (fs w1) i) = [] ->
     (faulty w1 -> faulty w) -> Q (Done (SysOk i)) w1) ->
  (forall e w1, fs w1 = fs w -> faulty w -> Q (Done (SysErr e)) w1) ->
  (forall i w1, only_tmp (fs w) (fs w1) p i -> faulty w -> Q Crashed w1) ->
  wp (sys_open_truncate p) w Q.
Proof.
  intros Hok H1 H2 H3. unfold sys_open_truncate.
  destruct (create_if_missing_Ok p (fs w)) as (i & f1 & Hf1).
  apply wp_sys_change; rewrite ?Hf1; cbn [fst snd].
  - intros w1 Hf Hs. apply H1; rewrite ?Hf; [by apply only_tmp_open| |done].
    autorewrite with chrono_fs. by rewrite decide_True.
  - auto.
  - intros w1 Hf Hs. apply (H3 i); rewrite ?Hf; [by apply only_tmp_open|done].
Qed.

Lemma append_only_tmp f0 f tmp i b :
  only_tmp f0 f tmp i -> only_tmp f0 (append_inode i b f) tmp i.
Proof. apply only_tmp_set_inode. Qed.

(** The stream's writes and its end. *)
Lemma wp_fill w0 p bytes w i :
  fs_ok (fs w0) -> only_tmp (fs w0) (fs w) (path_append p ".tmp") i ->
  now (inode (fs w) i) = [] -> (faulty w -> faulty w0) -> 
  wp (match bytes with
      | [] => mret true
      | _ =>
        throw_when (max_stream <? size bytes) (file_error "atomic write is too large");;
        stream_write i bytes
      end) w (fun o w1 =>
    match o with
    | Done true => only_tmp (fs w0) (fs w1) (path_append p ".tmp") i /\
        now (inode (fs w1) i) = bytes /\ (faulty w1 -> faulty w0)
    | _ => only_tmp (fs w0) (fs w1) (path_append p ".tmp") i /\
        (faulty w0 \/ max_stream < size bytes)
    end).
Proof.
  intros Hok Hw Hi Hs. destruct bytes as [|b bytes']; [by split_and!|].
  set (bytes := b :: bytes') in *. wp_step. apply wp_throw_when; intros Hsize; bool_to_prop; cbn [and_then].
  { auto. }
  eapply wp_mono; [by apply wp_stream_write|]. intros o w1.
  destruct o as [[]|e|]; [intros [-> Hs1]|intros [Hf Hs1]|done|intros [Hf Hs1]].
  - split_and!; [by apply append_only_tmp|by apply append_to_empty|auto].
  - split; [|auto]. destruct Hf as [->|(k & ->)]; auto using append_only_tmp.
  - split; [|auto]. destruct Hf as [->|(k & ->)]; auto using append_only_tmp.
Qed.

Section AtomicWrite.
Context {moved stopped : path -> nat -> fsys -> fsys -> Prop}
  {sync_file : path -> M world unit} {replace_file : path -> path -> M world unit}
  `{!Publishes moved stopped sync_file replace_file}.
Context (w0 : world) (p : path) (bytes : list byte).
Hypothesis (Hok : fs_ok (fs w0)).
Abbreviation stages := (atomic_write_stages moved stopped w0 p bytes).
Let tmp := path_append p ".tmp".

Lemma not_moved w o :
  untouched (fs w0) (fs w) tmp -> (forall u, o <> Done u) -> faulty w0 \/ max_stream < size bytes -> stages o w.
Proof. intros Hw Ho Hc. destruct o as [u|e|]; [by destruct (Ho u)|split; auto..]. Qed.

(** From the complete temporary file on. *)
Lemma wp_publish w i :
  only_tmp (fs w0) (fs w) tmp i -> now (inode (fs w) i) = bytes -> (faulty w -> faulty w0) ->
  wp (sync_file tmp;; replace_file tmp p) w stages.
Proof.
  intros Hw Hbytes Hs. pose proof Hw as (_ & Hnow & _).
  wp_step. eapply wp_mono; [by apply sync_file_ends|]. intros o w1 H1.
  assert (fs w1 = fs w \/ fs w1 = set_inode i (settle (inode (fs w) i)) (fs w) ->
          only_tmp (fs w0) (fs w1) tmp i) as Hw1.
  { intros [->| ->]; [done|by apply only_tmp_set_inode]. }
  destruct o as [u|e|]; simpl in H1; destruct H1 as [Hf Hs1]; cbn [and_then];
    [|apply not_moved; [right; eauto|done|auto]..].
  specialize (Hw1 (or_intror Hf)). pose proof Hw1 as (_ & Hnow1 & _).
  assert (complete (fs w0) (fs w1) tmp i bytes) as Hi.
  { split; [done|]. rewrite Hf. autorewrite with chrono_fs. rewrite decide_True by done.
    unfold settle. by rewrite Hbytes. }
  eapply wp_mono; [apply replace_file_ends; [apply Hw1|done]|]. intros [u'|e|] w2 [Hm Hs2]; (split; [|try solve [auto|right; eauto]]); eauto.
Qed.

Lemma wp_atomic_write_file_with :
  wp (atomic_write_file_with sync_file replace_file p bytes) w0 stages.
Proof.
  unfold atomic_write_file_with. fold tmp.
  wp_step. apply wp_sys_open_truncate; [done| | |].
  - intros i w1 Hw1 Hi Hs1. wp_go. wp_step. eapply wp_mono; [by apply (wp_fill w0 p)|].
    intros o w2 H2. destruct o as [good|e|]; cbn [and_then];
      [|destruct H2; apply not_moved; [right; eauto|done..]..].
    wp_step. eapply wp_mono; [apply wp_stream_close|]. intros o w3 H3.
    assert (fs w3 = fs w2) as Hf3 by by destruct o as [[]|?|]; destruct H3.
    assert (only_tmp (fs w0) (fs w3) tmp i) as Hw3 by (rewrite Hf3; destruct good; apply H2).
    assert (untouched (fs w0) (fs w3) tmp) as Hu by (right; eauto).
    destruct o as [closed|e|]; cbn [and_then]; [|done|].
    2:{ apply not_moved; [done|done|]. destruct good; destruct H2 as [_ H2]; [|done]. left. apply H2, H3. }
    wp_step. apply wp_throw_when; intros Hgood; cbn [and_then].
    + apply not_moved; [done|done|]. destruct good, closed; try done; destruct H2 as (_ & H2); try done.
      left. apply H2, H3.
    + apply negb_false_iff, andb_true_iff in Hgood as [-> ->].
      destruct H2 as (_ & Hb & Hs2), H3 as [_ Hs3].
      apply (wp_publish w3 i); rewrite ?Hf3; auto. by rewrite <-Hf3.
  - intros e w1 Hf Hs. wp_go. apply not_moved; [by left|done|auto].
  - intros i w1 Hw1 Hs. cbn [and_then]. apply not_moved; [right; eauto|done|auto].
Qed.
End AtomicWrite.

Lemma posix_stopped_old_or_new f0 f f' p i bytes :
  fs_ok f0 -> complete f0 f (path_append p ".tmp") i bytes -> posix_stopped p i f f' -> old_or_new f0 f' p bytes.
Proof.
  intros Hok Hf [->|[->| ->]]; [|by apply renamed_old_or_new|by apply permanent_old_or_new].
  apply untouched_old_or_new; [done|by eapply complete_untouched].
Qed.

Lemma wp_atomic_write_file p bytes w :
  fs_ok (fs w) -> wp (atomic_write_file p bytes) w (atomic_write_post w p bytes).
Proof.
  intros Hok. eapply wp_mono; [by apply wp_atomic_write_file_with|]. intros o w'. unfold atomic_write_post.
  assert (untouched (fs w) (fs w') (path_append p ".tmp") \/
    (exists f i, complete (fs w) f (path_append p ".tmp") i bytes /\ posix_stopped p i f (fs w')) ->
    old_or_new (fs w) (fs w') p bytes) as Hfail.
  { intros [Hu|(f & i & Hf & Hm)]; [by apply untouched_old_or_new|by eapply posix_stopped_old_or_new]. }
  destruct o as [u|e|]; [intros [(f & i & Hf & ->) Hs]|intros [Hs (Hok' & Hk & Hr)%Hfail]; by split_and!..].
  destruct (permanent_old_or_new (fs w) f p bytes Hok i Hf (same_directory p)) as (Hok' & Hk & _).
  split_and!; [done|done|by eapply permanent_durable|by eapply permanent_tmp|done|].
  intros q Hq. by eapply permanent_entry.
Qed.

(** ** Lemmas: reading *)

Lemma wp_file_size_bytes p w bytes :
  file_of (fs w) p = Some bytes -> size bytes <= max_u64 ->
  wp (file_size_bytes p) w (reading (fun n => n = size bytes) no_throw w).
Proof.
  intros Hfile Hmax. unfold file_size_bytes. apply wp_reading_query; [|by eexists].
  intros w1 Hf Hs. rewrite Hfile.
  eapply wp_reading_bind; [apply wp_reading_throw_when; intros Hc; bool_to_prop; lia|].
  intros u w2 _ Hf2 Hs2. by apply wp_reading_ret.
Qed.

(** Within the file, a read returns the bytes asked for. *)
Lemma wp_read_file_bytes p offset count w bytes :
  file_of (fs w) p = Some bytes -> 0 <= offset -> 0 <= count -> offset + count <= size bytes ->
  size bytes <= max_stream ->
  wp (read_file_bytes p offset count) w
     (reading (fun b => b = subspan offset count bytes) no_throw w).
Proof.
  intros Hfile Ho Hc Hsum Hmax. unfold read_file_bytes.
  eapply wp_reading_bind; [apply wp_reading_throw_when; intros Hb; bool_to_prop; lia|].
  intros u w1 _ Hf1 Hs1.
  eapply wp_reading_bind; [apply wp_reading_throw_when; intros Hb; bool_to_prop; lia|].
  intros u' w2 _ Hf2 Hs2. apply wp_reading_query; [|by eexists]. intros w3 Hf3 Hs3.
  unfold file_of in Hfile. rewrite Hf2, Hf1.
  destruct (now (entry (fs w) p)) as [i|]; [|done]. injection Hfile as Hfile.
  apply wp_reading_query; [|by eexists]. intros w4 Hf4 Hs4.
  destruct (count =? 0) eqn:E; bool_to_prop; [subst; by apply wp_reading_ret|].
  apply wp_reading_query; [|by eexists]. intros w5 Hf5 Hs5. rewrite Hf4, Hf3, Hf2, Hf1, Hfile.
  eapply wp_reading_bind; [apply wp_reading_throw_when; rewrite size_subspan by lia;
    by rewrite Z.eqb_refl|].
  intros u'' w6 _ Hf6 Hs6. by apply wp_reading_ret.
Qed.

(** ** Properties *)

(** C23: [atomic_write_file] is atomic and durable for every behaviour of the
    system calls and a power loss at any point: it changes no other durable file;
    if it returns, a power loss leaves the new contents and no temporary file; if
    it throws or power is lost inside it, a power loss leaves the old or the new
    contents; and when the script is empty it returns. *)
Theorem atomic_write_file_spec p bytes w o w' old :
  fs_ok (fs w) -> durable (fs w) p old -> atomic_write_file p bytes w = (o, w') ->
  fs_ok (fs w') /\
  (forall q c, q <> p -> q <> path_append p ".tmp" -> durable (fs w) q c -> durable (fs w') q c) /\
  match o with
  | Done _ =>
    forall f, crash (fs w') f -> file_of f p = Some bytes /\ file_of f (path_append p ".tmp") = None
  | _ =>
    (script w <> [] \/ max_stream < size bytes) /\
    forall f, crash (fs w') f -> file_of f p = old \/ file_of f p = Some bytes
  end.
Proof.
  intros Hok Hold Hrun. pose proof (wp_atomic_write_file p bytes w Hok) as Hw.
  unfold wp in Hw. rewrite Hrun in Hw. destruct Hw as (Hok' & Hk & Ho). split_and!; [done| |].
  - intros q c Hq Hq' Hd. eapply kept_durable; [apply Hk; set_solver|done].
  - destruct o as [u|e|].
    + destruct Ho as (Hp & Ht & _). intros f Hf. split; apply durable_file_of; by eapply durable_crash.
    + destruct Ho as [Hs Hr]. split; [done|]. intros f Hf. by eapply Hr, crash_file_of.
    + destruct Ho as [Hs Hr]. split; [done|]. intros f Hf. by eapply Hr, crash_file_of.
Qed.

(** Power is lost while the temporary file is written: the old file survives. *)
Lemma atomic_write_file_spec_witness :
  let p := Path "db" "MANIFEST" in
  let r := atomic_write_file p [Byte.x02] (World (single_file p [Byte.x01]) [Succeeds; PowerLoss]) in
  r.1 = Crashed /\
  forall f, crash (fs r.2) f -> file_of f p = Some [Byte.x01] \/ file_of f p = Some [Byte.x02].
Proof.
  intros p r. split; [vm_compute; reflexivity|].
  destruct (atomic_write_file_spec p [Byte.x02] (World (single_file p [Byte.x01]) [Succeeds; PowerLoss]) r.1 r.2
    (Some [Byte.x01]) (single_file_ok _ _) (single_file_durable _ _) (surjective_pairing _)) as (_ & _ & H).
  replace (r.1) with (@Crashed unit) in H by (vm_compute; reflexivity). apply H.
Defined.
