(* ===== verification/WalFile.v ===== *)
(** * The WAL writer (src/wal_file.cpp)

    [WalWriter] owns the file descriptor of the log.  [append], [sync] and
    [reset] are modelled with their retry loops and their failed state; the
    theorems say, for every behaviour of the system calls, what the log holds
    after each of them and what a power loss can leave of it. *)

From stdpp Require Import base tactics option numbers list strings gmap.
From Stdlib Require Import ZArith Lia.
From S2P Require Import Prelude Errors World Hoare Model ByteCodec WalRecord.

Inductive WalDurability := buffered | sync_on_append.

#[export] Instance WalDurability_eq_dec : EqDecision WalDurability.
Proof. solve_decision. Defined.

(** [file_descriptor_] is the inode opened; [None] is [invalid_file_descriptor]. *)
Record WalWriter := MkWalWriter {
  path_ : path;
  file_descriptor_ : option nat;
  durability_ : WalDurability;
  size_bytes_ : Z;
  failed_ : bool;
}.

(** ** System calls with their retries *)

Definition throw_file_error {S A} (operation : string) (errno : Z) : M S A :=
  throw (system_error errno operation).

Definition open_for_append (p : path) : M world (sysret nat) := sys_open_create p.

Definition find_file_end (i : nat) : M world Z :=
  end_position ← sys_lseek_end i;
  match end_position with
  | SysErr errno => throw_file_error "failed to inspect WAL" errno
  | SysOk n => mret (u64 n)
  end.

(** The loop of [write_all]; each turn but the last uses an outcome of the script. *)
Fixpoint write_all_loop (fuel : nat) (i : nat) (bytes : list byte) (total_written : Z)
    : M world unit :=
  if negb (total_written <? size bytes) then mret tt
  else
    match fuel with
    | O => throw out_of_fuel
    | S fuel =>
      written ← sys_write i (drop (Z.to_nat total_written) bytes);
      match written with
      | SysErr errno =>
        if errno =? EINTR then write_all_loop fuel i bytes total_written
        else throw_file_error "failed to append WAL" errno
      | SysOk O => throw (runtime_error "zero-byte write while appending WAL")
      | SysOk n => write_all_loop fuel i bytes (total_written + Z.of_nat n)
      end
    end.

Definition write_all (i : nat) (bytes : list byte) : M world unit := fun w =>
  write_all_loop (S (length (script w))) i bytes 0 w.

Definition synchronize_file (i : nat) : M world (sysret unit) :=
  retry_interrupted (sys_fsync i).

Definition truncate_file (i : nat) : M world (sysret unit) :=
  retry_interrupted (sys_ftruncate i 0).

(** ** The class *)

(** [WalWriter::close] *)
Definition wal_close : M (world * WalWriter) unit :=
  this ← this;
  match file_descriptor_ this with
  | None => mret tt
  | Some i =>
    in_world sys_close;;
    set_this (fun this => MkWalWriter (path_ this) None (durability_ this) (size_bytes_ this) (failed_ this))
  end.

(** The constructor; the object it leaves when it throws is dropped. *)
Definition wal_open (p : path) (durability : WalDurability) : M world WalWriter :=
  opened ← open_for_append p;
  match opened with
  | SysErr errno => throw_file_error "failed to open WAL" errno
  | SysOk i =>
    size_bytes ← on_exception (find_file_end i) (sys_close;; mret tt);
    mret (MkWalWriter p (Some i) durability size_bytes false)
  end.

Definition set_failed : M (world * WalWriter) unit :=
  set_this (fun this =>
    MkWalWriter (path_ this) (file_descriptor_ this) (durability_ this) (size_bytes_ this) true).

Definition set_size_bytes (n : Z) : M (world * WalWriter) unit :=
  set_this (fun this =>
    MkWalWriter (path_ this) (file_descriptor_ this) (durability_ this) n (failed_ this)).

(** [WalWriter::ensure_usable]; returns the descriptor it has checked. *)
Definition wal_ensure_usable : M (world * WalWriter) nat :=
  this ← this;
  match file_descriptor_ this with
  | None => throw (logic_error "WAL writer is closed")
  | Some i =>
    throw_when (failed_ this) (runtime_error "WAL writer is in a failed state");;
    mret i
  end.

(** [WalWriter::sync] *)
Definition wal_sync : M (world * WalWriter) unit :=
  i ← wal_ensure_usable;
  synced ← in_world (synchronize_file i);
  match synced with
  | SysOk _ => mret tt
  | SysErr errno => set_failed;; throw_file_error "failed to synchronize WAL" errno
  end.

(** [WalWriter::append] *)
Definition wal_append (r : WalPutRecord) : M (world * WalWriter) unit :=
  i ← wal_ensure_usable;
  encoded ← lift (encode_wal_record r);
  let encoded_size := size encoded in
  before ← this;
  throw_when (max_u64 - size_bytes_ before <? encoded_size)
    (length_error "WAL size would overflow");;
  on_exception
    (in_world (write_all i encoded);;
     set_size_bytes (size_bytes_ before + encoded_size);;
     match durability_ before with
     | sync_on_append => wal_sync
     | buffered => mret tt
     end)
    set_failed.

(** [WalWriter::reset] *)
Definition wal_reset : M (world * WalWriter) unit :=
  i ← wal_ensure_usable;
  truncated ← in_world (truncate_file i);
  match truncated with
  | SysErr errno => set_failed;; throw_file_error "failed to reset WAL" errno
  | SysOk _ =>
    synced ← in_world (synchronize_file i);
    match synced with
    | SysErr errno => set_failed;; throw_file_error "failed to reset WAL" errno
    | SysOk _ => set_size_bytes 0
    end
  end.

(** [WalWriter::size_bytes] *)
Definition wal_size_bytes (this : WalWriter) : Z := size_bytes_ this.

(** * Specification *)

(** [f'] is [f] with [b] appended to inode [i]. *)
Definition appended (f : fsys) (i : nat) (b : list byte) (f' : fsys) : Prop :=
  (forall p, entry f' p = entry f p) /\ next_inode f' = next_inode f /\
  forall j, inode f' j = if decide (j = i) then append_hist (inode f i) b else inode f j.

(** [f'] is [f] with the history of inode [i] forgotten. *)
Definition synced (f : fsys) (i : nat) (f' : fsys) : Prop :=
  (forall p, entry f' p = entry f p) /\ next_inode f' = next_inode f /\
  forall j, inode f' j = if decide (j = i) then settle (inode f i) else inode f j.

Definition usable (this : WalWriter) (i : nat) : Prop :=
  file_descriptor_ this = Some i /\ failed_ this = false.

(** The exceptions of a failing append. *)
Definition append_error (e : exn) : Prop :=
  (exists errno, errno <> EINTR /\ e = system_error errno "failed to append WAL") \/
  e = runtime_error "zero-byte write while appending WAL".

(** ** Lemmas *)

Lemma appended_refl f i : appended f i [] f.
Proof. split_and!; [done..|]. intros j. by case_decide; subst. Qed.

Lemma append_inode_appended f i b : appended f i b (append_inode i b f).
Proof. split_and!; [done..|]. intros j. by rewrite inode_append_inode. Qed.

Lemma appended_trans f1 f2 f3 i b c :
  appended f1 i b f2 -> appended f2 i c f3 -> appended f1 i (b ++ c) f3.
Proof.
  intros (He1 & Hn1 & Hi1) (He2 & Hn2 & Hi2). split_and!.
  - intros p. by rewrite He2.
  - by rewrite Hn2.
  - intros j. rewrite Hi2. case_decide; [subst|by rewrite Hi1, decide_False].
    rewrite Hi1, decide_True by done. unfold append_hist. by rewrite foldl_app.
Qed.

Lemma set_inode_synced f i : synced f i (set_inode i (settle (inode f i)) f).
Proof. split_and!; [done..|]. intros j. by rewrite inode_set_inode. Qed.

Lemma drop_nonempty {A} (l : list A) n : 0 <= n < size l -> drop (Z.to_nat n) l <> [].
Proof.
  intros Hn H. apply (f_equal length) in H. rewrite length_drop in H. unfold size in Hn.
  simpl in H. lia.
Qed.

(** The loop from [total] bytes on, with enough turns left. *)
Lemma wp_write_all_loop w0 f0 i bytes fuel total w :
  (length (script w) < fuel)%nat -> 0 <= total <= size bytes ->
  appended f0 i (take (Z.to_nat total) bytes) (fs w) -> (faulty w -> faulty w0) ->
  wp (write_all_loop fuel i bytes total) w (fun o w' =>
    match o with
    | Done _ => appended f0 i bytes (fs w') /\ (faulty w' -> faulty w0)
    | Raised e => (append_error e /\ exists k, appended f0 i (take k bytes) (fs w')) /\ faulty w0
    | Crashed => (exists k, appended f0 i (take k bytes) (fs w')) /\ faulty w0
    end).
Proof.
  revert total w. induction fuel as [|fuel IH]; intros total w Hfuel Ht Hw Hs; [lia|].
  cbn [write_all_loop]. destruct (total <? size bytes) eqn:E; bool_to_prop; simpl negb; cbv iota.
  2:{ rewrite wp_ret. assert (total = size bytes) as -> by lia.
      by rewrite to_nat_size, firstn_all in Hw. }
  set (rest := drop (Z.to_nat total) bytes).
  assert (forall n, take (Z.to_nat total) bytes ++ take n rest = take (Z.to_nat total + n) bytes) as Htake.
  { intros n. apply take_take_drop. }
  assert (rest <> []) as Hne by (apply drop_nonempty; lia).
  wp_step. apply wp_sys_write.
  - intros n w1 Hn Hc Hpos Hf Hs1 Hl. destruct Hpos as [Hpos|]; [|done].
    assert (appended f0 i (take (Z.to_nat total + n) bytes) (fs w1)) as Hw1.
    { rewrite <-Htake, Hf. eapply appended_trans; [done|]. apply append_inode_appended. }
    assert (length rest = length bytes - Z.to_nat total)%nat as Hrest by apply length_drop.
    destruct n as [|n]; [lia|]. cbn [and_then].
    destruct (decide (script w = [])) as [Hempty|Hscript].
    + destruct Hc as [Hc|Hc]; [|done].
      assert (total + Z.of_nat (S n) = size bytes) as -> by (unfold size in *; lia).
      rewrite firstn_all2 in Hw1 by (unfold size in *; lia).
      destruct fuel as [|fuel']; cbn [write_all_loop]; rewrite Z.ltb_irrefl; simpl negb; cbv iota;
        rewrite wp_ret; auto.
    + apply IH; [|unfold size in *; lia| |auto].
      * rewrite Hl. destruct (script w); [done|]. simpl in *. lia.
      * by replace (Z.to_nat (total + Z.of_nat (S n))) with (Z.to_nat total + S n)%nat by lia.
  - intros w1 Hf Hs1. wp_go. split; [|auto]. split; [by right|]. eexists. by rewrite Hf.
  - intros e w1 Hf Hs1 Hl. cbn [and_then]. destruct (e =? EINTR) eqn:He; bool_to_prop.
    + apply IH; [lia|lia|by rewrite Hf|auto].
    + unfold throw_file_error. rewrite wp_throw. split; [|auto]. split; [left; eauto|].
      eexists. by rewrite Hf.
  - intros w1 Hf Hs1. cbn [and_then]. split; [|auto]. exists (length bytes).
    rewrite firstn_all, Hf. rewrite <-(take_drop (Z.to_nat total) bytes) at 1.
    eapply appended_trans; [done|]. apply append_inode_appended.
Qed.

Lemma wp_write_all i bytes w :
  wp (write_all i bytes) w (fun o w' =>
    match o with
    | Done _ => appended (fs w) i bytes (fs w') /\ (faulty w' -> faulty w)
    | Raised e => (append_error e /\ exists k, appended (fs w) i (take k bytes) (fs w')) /\ faulty w
    | Crashed => (exists k, appended (fs w) i (take k bytes) (fs w')) /\ faulty w
    end).
Proof.
  apply (wp_write_all_loop w (fs w) i bytes); [lia|pose proof (size_nonneg bytes); lia|
    apply appended_refl|done].
Qed.

Lemma wp_set_this {T} (f : T -> T) (s : world * T) (Q : outcome unit -> world * T -> Prop) :
  Q (Done tt) (s.1, f s.2) -> wp (set_this f) s Q.
Proof. done. Qed.

Lemma wp_ensure_usable i s (Q : outcome nat -> world * WalWriter -> Prop) :
  usable s.2 i -> Q (Done i) s -> wp wal_ensure_usable s Q.
Proof.
  intros [Hi Hf] HQ. unfold wal_ensure_usable. wp_step.
  unfold this, wp at 1. simpl. rewrite Hi, Hf. exact HQ.
Qed.

(** A failed operation marks the writer and changes nothing else of it. *)
Definition marked_failed (this this' : WalWriter) : Prop :=
  failed_ this' = true /\ path_ this' = path_ this /\
  file_descriptor_ this' = file_descriptor_ this.

(** [wal_sync] on a usable writer. *)
Lemma wp_wal_sync i s :
  usable s.2 i ->
  wp wal_sync s (fun o s' =>
    match o with
    | Done _ => synced (fs s.1) i (fs s'.1) /\ s'.2 = s.2 /\ (faulty s'.1 -> faulty s.1)
    | Raised e => (exists errno, errno <> EINTR /\
        e = system_error errno "failed to synchronize WAL") /\
        fs s'.1 = fs s.1 /\ marked_failed s.2 s'.2 /\ faulty s.1
    | Crashed => fs s'.1 = fs s.1 /\ faulty s.1
    end).
Proof.
  intros Hu. unfold wal_sync. wp_step. apply (wp_ensure_usable i); [done|]. cbn [and_then].
  wp_step. apply wp_in_world. apply wp_retry_settle.
  - intros w1 Hf Hs. wp_go. cbn [fst snd]. rewrite Hf. split_and!; [apply set_inode_synced|done|done].
  - intros e w1 He Hf Hs. cbn [and_then]. wp_step. apply wp_set_this. cbn [and_then].
    unfold throw_file_error. rewrite wp_throw. simpl.
    split_and!; eauto. by split_and!.
  - intros w1 Hf Hs. simpl. auto.
Qed.

(** The writer's part of an append's outcome. *)
Definition append_post (r : WalPutRecord) (encoded : list byte) (i : nat)
    (s : world * WalWriter) (o : outcome unit) (s' : world * WalWriter) : Prop :=
  match o with
  | Done _ =>
    s'.2 = MkWalWriter (path_ s.2) (Some i) (durability_ s.2)
             (size_bytes_ s.2 + size encoded) false /\
    (faulty s'.1 -> faulty s.1) /\
    exists f, appended (fs s.1) i encoded f /\
      match durability_ s.2 with
      | sync_on_append => synced f i (fs s'.1)
      | buffered => fs s'.1 = f
      end
  | Raised e =>
    marked_failed s.2 s'.2 /\ (exists k, appended (fs s.1) i (take k encoded) (fs s'.1)) /\
    (append_error e \/ exists errno, errno <> EINTR /\
        e = system_error errno "failed to synchronize WAL") /\ faulty s.1
  | Crashed => (exists k, appended (fs s.1) i (take k encoded) (fs s'.1)) /\ faulty s.1
  end.

Lemma wp_wal_append r encoded i s :
  usable s.2 i -> encode_wal_record r = Ok encoded ->
  size_bytes_ s.2 + size encoded <= max_u64 ->
  wp (wal_append r) s (append_post r encoded i s).
Proof.
  intros Hu He Hmax. unfold wal_append. wp_step. apply (wp_ensure_usable i); [done|].
  cbn [and_then]. rewrite He. wp_step. unfold lift, wp at 1. cbn [fst snd and_then].
  wp_step. unfold this, wp at 1. cbn [fst snd and_then].
  wp_step. apply wp_throw_when; intros Hc; bool_to_prop; [lia|]. cbn [and_then].
  apply wp_on_exception. wp_step. apply wp_in_world.
  eapply wp_mono; [apply wp_write_all|]. intros o w1 H1. destruct o as [u|e|]; cbn [and_then].
  - destruct H1 as [Ha Hs1]. wp_step. apply wp_set_this. cbn [and_then fst snd].
    destruct Hu as [Hi Hf]. rewrite Hi, Hf.
    destruct (durability_ s.2) eqn:Hd.
    + rewrite wp_ret. split; simpl; [by rewrite Hd|]. split; [done|]. exists (fs w1). by rewrite Hd.
    + set (s1 := (w1, _)).
      eapply wp_mono; [apply (wp_wal_sync i s1); done|]. intros o s2 H2.
      destruct o as [u'|e|].
      * destruct H2 as (H2 & Heq & Hs2). split; [by rewrite Heq; simpl; rewrite Hd|].
        split; [auto|]. exists (fs w1). by rewrite Hd.
      * destruct H2 as (He2 & Hfs2 & (Hm1 & Hm2 & Hm3) & Hs2). apply wp_set_this.
        cbn [and_then]. rewrite wp_throw. split_and!; cbn [fst snd].
        -- split_and!; simpl; [done|by rewrite Hm2|by rewrite Hm3].
        -- exists (length encoded). rewrite firstn_all. by rewrite Hfs2.
        -- auto.
        -- auto.
      * destruct H2 as (Hfs2 & Hs2). split; [|auto]. exists (length encoded).
        rewrite firstn_all. by rewrite Hfs2.
  - destruct H1 as ((He1 & k & Hk) & Hs1). apply wp_set_this.
    cbn [and_then]. rewrite wp_throw. split_and!; cbn [fst snd]; eauto. by split_and!.
  - destruct H1 as ((k & Hk) & Hs1). simpl. eauto.
Qed.

(** Opening binds the name to an inode, empty if it is new, and throws only
    because of the script. *)
Lemma wp_wal_open p d w :
  wp (wal_open p d) w (fun o w' =>
    exists i f, create_if_missing p (fs w) = (SysOk i, f) /\
    match o with
    | Done this => fs w' = f /\ (faulty w' -> faulty w) /\
        this = MkWalWriter p (Some i) d (u64 (size (now (inode f i)))) false
    | _ => (fs w' = fs w \/ fs w' = f) /\ faulty w
    end).
Proof.
  assert (exists i f, create_if_missing p (fs w) = (SysOk i, f)) as (i & f & Hf).
  { unfold create_if_missing. destruct (now (entry (fs w) p)); eauto. }
  unfold wal_open, open_for_append, sys_open_create. wp_step.
  apply wp_sys_change; rewrite ?Hf; cbn [fst snd].
  - intros w1 H1 Hs1. cbn [and_then]. wp_step. apply wp_on_exception. unfold find_file_end.
    wp_step. apply wp_sys_query.
    + intros w2 H2 Hs2. wp_go. exists i, f. split; [done|]. rewrite H2, H1. auto.
    + intros e w2 H2 Hs2. cbn [and_then]. unfold throw_file_error. rewrite wp_throw.
      wp_step. apply wp_sys_query; intros; wp_go; exists i, f; (split; [done|]);
        (split; [right; congruence|auto]).
    + intros w2 H2 Hs2. cbn [and_then]. exists i, f. split; [done|]. split; [right; congruence|auto].
  - intros e w1 H1 Hs1. cbn [and_then]. unfold throw_file_error. rewrite wp_throw.
    exists i, f. auto.
  - intros w1 H1 Hs1. simpl. exists i, f. auto.
Qed.

(** [f'] is [f] with inode [i] emptied. *)
Definition emptied (f : fsys) (i : nat) (f' : fsys) : Prop :=
  (forall p, entry f' p = entry f p) /\ next_inode f' = next_inode f /\
  forall j, inode f' j = if decide (j = i) then push [] (inode f i) else inode f j.

Lemma wp_wal_reset i s :
  usable s.2 i ->
  wp wal_reset s (fun o s' =>
    match o with
    | Done _ =>
      (exists f, emptied (fs s.1) i f /\ synced f i (fs s'.1)) /\
      s'.2 = MkWalWriter (path_ s.2) (Some i) (durability_ s.2) 0 false /\
      (faulty s'.1 -> faulty s.1)
    | Raised e =>
      (exists errno, errno <> EINTR /\ e = system_error errno "failed to reset WAL") /\
      (fs s'.1 = fs s.1 \/ emptied (fs s.1) i (fs s'.1)) /\ marked_failed s.2 s'.2 /\ faulty s.1
    | Crashed => (fs s'.1 = fs s.1 \/ emptied (fs s.1) i (fs s'.1)) /\ faulty s.1
    end).
Proof.
  intros Hu. unfold wal_reset. wp_step. apply (wp_ensure_usable i); [done|]. cbn [and_then].
  assert (forall w1 : world, fs w1 = set_inode i (push (take 0 (now (inode (fs s.1) i)))
            (inode (fs s.1) i)) (fs s.1) -> emptied (fs s.1) i (fs w1)) as Hempty.
  { intros w1 ->. split_and!; [done..|]. intros j. by rewrite inode_set_inode. }
  wp_step. apply wp_in_world, wp_retry_change; [done| | |]; cbn [fst snd].
  - intros w1 H1 Hs1. apply Hempty in H1. cbn [and_then]. wp_step. apply wp_in_world, wp_retry_settle.
    + intros w2 H2 Hs2. cbn [and_then]. apply wp_set_this. destruct Hu as [Hi Hf]. cbn [fst snd].
      split_and!; [|by rewrite Hi, Hf|auto]. exists (fs w1). split; [done|].
      rewrite H2. apply set_inode_synced.
    + intros e w2 He H2 Hs2. cbn [and_then]. wp_step. apply wp_set_this. cbn [and_then].
      unfold throw_file_error. rewrite wp_throw. cbn [fst snd] in *. rewrite H2.
      split_and!; eauto. by split_and!.
    + intros w2 H2 Hs2. cbn [and_then fst snd] in *. rewrite H2. auto.
  - intros e w1 He H1 Hs1. cbn [and_then]. wp_step. apply wp_set_this. cbn [and_then].
    unfold throw_file_error. rewrite wp_throw. cbn [fst snd]. split_and!; eauto. by split_and!.
  - intros w1 H1 Hs1. cbn [and_then fst snd]. auto.
Qed.

(** What a power loss can leave of an inode. *)
Lemma crash_inode f f' i : crash f f' -> now (inode f' i) ∈ possible (inode f i).
Proof. intros Hc. by destruct (inode_crash f f' i Hc) as (v & Hv & ->). Qed.

Lemma appended_now f i b f' : appended f i b f' -> now (inode f' i) = now (inode f i) ++ b.
Proof. intros (_ & _ & H). rewrite H, decide_True by done. apply now_append_hist. Qed.

Lemma appended_possible f i b f' v :
  appended f i b f' -> v ∈ possible (inode f' i) ->
  v ∈ possible (inode f i) \/ exists k, v = now (inode f i) ++ take k b.
Proof.
  intros (_ & _ & H). rewrite H, decide_True by done. rewrite possible_append_hist.
  intros [|(k & _ & ->)]; eauto.
Qed.

Lemma synced_possible f i f' v : synced f i f' -> v ∈ possible (inode f' i) -> v = now (inode f i).
Proof. intros (_ & _ & H). rewrite H, decide_True by done. apply possible_settled. Qed.

Lemma synced_now f i f' : synced f i f' -> now (inode f' i) = now (inode f i).
Proof. intros (_ & _ & H). by rewrite H, decide_True. Qed.

(** ** Properties *)

(** C25: whatever the system calls answer, an append that returns has put exactly
    the record's bytes after the log and counted them, and with
    [sync_on_append] a power loss cannot take them back; an append that throws
    (the system calls failed) has put a prefix of them there and left the writer
    failed; and a power loss leaves an earlier log or the log followed by a
    prefix of the record. *)
Theorem wal_append_spec r encoded i w this o w' this' :
  usable this i -> encode_wal_record r = Ok encoded ->
  size_bytes_ this + size encoded <= max_u64 ->
  wal_append r (w, this) = (o, (w', this')) ->
  let log := now (inode (fs w) i) in
  match o with
  | Done _ => now (inode (fs w') i) = log ++ encoded /\
      size_bytes_ this' = size_bytes_ this + size encoded /\ usable this' i /\
      (durability_ this = sync_on_append ->
       forall f, crash (fs w') f -> now (inode f i) = log ++ encoded)
  | Raised _ => script w <> [] /\ failed_ this' = true /\
      exists k, now (inode (fs w') i) = log ++ take k encoded
  | Crashed => script w <> []
  end /\
  forall f, crash (fs w') f ->
    now (inode f i) ∈ possible (inode (fs w) i) \/ exists k, now (inode f i) = log ++ take k encoded.
Proof.
  intros Hu He Hmax Hrun log. pose proof (wp_wal_append r encoded i (w, this) Hu He Hmax) as Hw.
  unfold wp in Hw. rewrite Hrun in Hw. destruct o as [u|e|]; cbn [append_post fst snd] in Hw.
  - destruct Hw as (-> & _ & f & Ha & Hd). apply appended_now in Ha as Hnow. split_and!; try done.
    + destruct (durability_ this); [by rewrite Hd|by rewrite (synced_now _ _ _ Hd)].
    + intros Hsync f' Hc. rewrite Hsync in Hd. apply crash_inode with (i := i) in Hc.
      by rewrite (synced_possible _ _ _ _ Hd Hc).
    + intros f' Hc. apply crash_inode with (i := i) in Hc. destruct (durability_ this).
      * rewrite Hd in Hc. by eapply appended_possible.
      * rewrite (synced_possible _ _ _ _ Hd Hc). right. exists (length encoded).
        by rewrite firstn_all, Hnow.
  - destruct Hw as ((Hf & _) & (k & Ha) & _ & Hs). split_and!; [done|done| |].
    + exists k. by apply appended_now.
    + intros f Hc. apply crash_inode with (i := i) in Hc.
      destruct (appended_possible _ _ _ _ _ Ha Hc) as [|(m & Hm)]; [by left|right].
      rewrite take_take in Hm. eauto.
  - destruct Hw as ((k & Ha) & Hs). split; [done|].
    intros f Hc. apply crash_inode with (i := i) in Hc.
    destruct (appended_possible _ _ _ _ _ Ha Hc) as [|(m & Hm)]; [by left|right].
    rewrite take_take in Hm. eauto.
Qed.

Definition example_log : path := Path "db" "chronostore.wal".
Definition example_writer : WalWriter := MkWalWriter example_log (Some 0%nat) sync_on_append 1 false.
Definition example_world : world := World (single_file example_log [Byte.x01]) [Short 3; Fails EINTR].

(** A short write and an interrupted one do not lose a record. *)
Lemma wal_append_spec_witness :
  let r := wal_append example_record (example_world, example_writer) in
  r.1 = Done tt /\
  forall f, crash (fs r.2.1) f -> now (inode f 0) = Byte.x01 :: example_bytes.
Proof.
  intros r. split; [vm_compute; reflexivity|].
  destruct (wal_append_spec example_record example_bytes 0 example_world example_writer r.1 r.2.1 r.2.2)
    as (H & _); [split; reflexivity|apply example_encoded|vm_compute; discriminate| |].
  - fold r. by destruct r as [o [w this]].
  - replace (r.1) with (@Done unit tt) in H by (vm_compute; reflexivity).
    apply H. reflexivity.
Defined.

(** The checks before the first system call throw the exceptions of the
    source and change neither the log nor the writer. *)
Theorem wal_append_rejects r w this :
  (file_descriptor_ this = None ->
     wal_append r (w, this) = (Raised (logic_error "WAL writer is closed"), (w, this))) /\
  (forall i, file_descriptor_ this = Some i -> failed_ this = true ->
     wal_append r (w, this) =
       (Raised (runtime_error "WAL writer is in a failed state"), (w, this))) /\
  (forall i e, usable this i -> encode_wal_record r = Err e ->
     wal_append r (w, this) = (Raised e, (w, this))) /\
  (forall i encoded, usable this i -> encode_wal_record r = Ok encoded ->
     max_u64 < size_bytes_ this + size encoded ->
     wal_append r (w, this) = (Raised (length_error "WAL size would overflow"), (w, this))).
Proof.
  unfold wal_append, wal_ensure_usable, usable, mbind, M_bind, World.this.
  split_and!.
  - intros H. simpl. by rewrite H.
  - intros i H Hf. simpl. by rewrite H, Hf.
  - intros i e [H Hf] He. simpl. rewrite H, Hf. simpl. unfold lift. by rewrite He.
  - intros i encoded [H Hf] He Hmax. simpl. rewrite H, Hf. simpl. unfold lift. rewrite He. simpl.
    by rewrite (proj2 (Z.ltb_lt _ _)) by lia.
Qed.

Lemma wal_append_rejects_witness :
  let closed := MkWalWriter example_log None buffered 0 false in
  wal_append example_record (example_world, closed) =
    (Raised (logic_error "WAL writer is closed"), (example_world, closed)).
Proof. intros closed. apply wal_append_rejects. reflexivity. Defined.

(** A reset that returns has emptied the log for good; one that throws or is
    cut short by a power loss leaves the old log or an empty one, and after a
    throw the writer is failed. *)
Theorem wal_reset_spec i w this o w' this' :
  usable this i -> wal_reset (w, this) = (o, (w', this')) ->
  match o with
  | Done _ => size_bytes_ this' = 0 /\ usable this' i /\
      forall f, crash (fs w') f -> now (inode f i) = []
  | _ => script w <> [] /\ (forall e, o = Raised e -> failed_ this' = true) /\
      forall f, crash (fs w') f ->
        now (inode f i) = [] \/ now (inode f i) ∈ possible (inode (fs w) i)
  end.
Proof.
  intros Hu Hrun. pose proof (wp_wal_reset i (w, this) Hu) as Hw. unfold wp in Hw.
  rewrite Hrun in Hw. cbn [fst snd] in Hw.
  assert (fs w' = fs w \/ emptied (fs w) i (fs w') -> forall f, crash (fs w') f ->
            now (inode f i) = [] \/ now (inode f i) ∈ possible (inode (fs w) i)) as Hcrash.
  { intros Hw' f Hc. apply crash_inode with (i := i) in Hc.
    destruct Hw' as [Hw'|(_ & _ & He)]; [right; by rewrite <-Hw'|].
    rewrite He, decide_True in Hc by done. by apply possible_push. }
  destruct o as [u|e|].
  - destruct Hw as ((f & (_ & _ & He) & Hs) & -> & _). split_and!; try done.
    intros f' Hc. apply crash_inode with (i := i) in Hc. rewrite (synced_possible _ _ _ _ Hs Hc).
    by rewrite He, decide_True.
  - destruct Hw as (_ & Hf & (Hm & _) & Hs). split_and!; auto.
  - destruct Hw as (Hf & Hs). split_and!; auto. by intros ? [=].
Qed.

(** The truncation happens, its synchronization fails. *)
Lemma wal_reset_spec_witness :
  let r := wal_reset (World (single_file example_log [Byte.x01]) [Succeeds; Fails EIO], example_writer) in
  failed_ r.2.2 = true /\
  forall f, crash (fs r.2.1) f -> now (inode f 0) = [] \/ now (inode f 0) = [Byte.x01].
Proof.
  intros r. pose proof (wal_reset_spec 0 (World (single_file example_log [Byte.x01]) [Succeeds; Fails EIO])
    example_writer r.1 r.2.1 r.2.2) as H.
  assert (r.1 = Raised (system_error EIO "failed to reset WAL")) as Ho by (vm_compute; reflexivity).
  rewrite Ho in H. destruct H as (_ & Hfailed & Hcrash).
  - split; reflexivity.
  - rewrite <-Ho. fold r. by destruct r as [o [w this]].
  - split; [by eapply Hfailed|]. intros f Hf. destruct (Hcrash f Hf) as [->|Hin]; [by left|right].
    vm_compute in Hin. by apply list_elem_of_singleton in Hin.
Defined.
