(* ===== verification/Platforms.v ===== *)
(** * The other platforms (src/file_io.cpp, src/wal_file.cpp, src/database_lock.cpp)

    What the preprocessor chooses on Windows and on macOS in place of the POSIX calls.
    The C runtime of Windows is modelled as the calls it stands for ([_wopen] is [open],
    [_commit] is [fsync], and so on); [MoveFileExW], [LockFileEx] and [_write] for more
    bytes than an [int] counts are the class [Win32], with laws that say what their
    documentation says and no more: nothing is promised about a move that fails or that a
    power loss interrupts.  On macOS [fsync] hands the data to the drive, which keeps it in
    a cache that a power loss empties; only F_FULLFSYNC (the class [Apple]) makes it
    permanent.  The theorems: what [atomic_write_file] keeps of its promise on either
    system, and, on macOS, what it does not; the log is written by the same function; and
    the lock excludes. *)

From stdpp Require Import base tactics option numbers list strings gmap.
From Stdlib Require Import ZArith Lia.
From S2P Require Import Prelude Errors World Hoare Model ByteCodec WalRecord FileIo WalFile.

(** ** macOS *)

Definition ENOTSUP : Z := 45.
Definition EINVAL : Z := 22.

(** [fsync] of a file and of a directory: the data reaches the drive, which may write it
    at any later time and in any order, so nothing becomes permanent. *)
Definition sys_fsync_apple (i : nat) : M world (sysret unit) := sys_settle (fun f => f).
Definition sys_fsync_directory_apple (directory : string) : M world (sysret unit) := sys_settle (fun f => f).

Class Apple := {
  (** whether the file system has F_FULLFSYNC *)
  full_fsync_available : bool;
  (** [fcntl(descriptor, F_FULLFSYNC)] *)
  sys_full_fsync : nat -> M world (sysret unit);
}.

(** F_FULLFSYNC does what [fsync] does and asks the drive to write all it has; where there
    is none it is an error of its own. *)
Class AppleLaws `{Apple} : Prop := {
  full_fsync_call : forall i, one_call (sys_full_fsync i);
  full_fsync_settles : forall i w,
    wp (sys_full_fsync i) w (fun o w' =>
      match o with
      | Done (SysOk _) => fs w' = set_inode i (settle (inode (fs w) i)) (fs w) /\ (faulty w' -> faulty w)
      | Done (SysErr errno) => fs w' = fs w /\ (faulty w' -> faulty w) /\
          (full_fsync_available = true -> faulty w /\ errno <> ENOTSUP /\ errno <> EINVAL)
      | Raised _ => False
      | Crashed => fs w' = fs w /\ faulty w
      end);
}.

Section Apple.
Context `{Apple}.

(** [sync_descriptor] *)
Definition sync_descriptor_apple (i : nat) : M world unit :=
  full ← sys_full_fsync i;
  match full with
  | SysOk _ => mret tt
  | SysErr errno =>
    throw_when (negb (errno =? ENOTSUP) && negb (errno =? EINVAL)) (system_error errno "failed to synchronize file");;
    synced ← retry_interrupted (sys_fsync_apple i);
    match synced with
    | SysOk _ => mret tt
    | SysErr errno => throw (system_error errno "failed to synchronize file")
    end
  end.

Definition sync_file_apple : path -> M world unit := sync_file_with sync_descriptor_apple.
Definition replace_file_apple : path -> path -> M world unit := replace_file_with sys_fsync_directory_apple.
Definition atomic_write_file_apple : path -> list byte -> M world unit :=
  atomic_write_file_with sync_file_apple replace_file_apple.

(** [synchronize_file] of the log *)
Definition synchronize_file_apple (i : nat) : M world (sysret unit) :=
  full ← retry_interrupted (sys_full_fsync i);
  match full with
  | SysOk _ => mret (SysOk tt)
  | SysErr errno =>
    if negb (errno =? EINVAL) && negb (errno =? ENOTSUP) then mret (SysErr errno)
    else retry_interrupted (sys_fsync_apple i)
  end.
End Apple.

(** ** Windows *)

Definition ERROR_LOCK_VIOLATION : Z := 33.
Definition ERROR_IO_PENDING : Z := 997.
(** [std::numeric_limits<unsigned int>::max()], and the largest [int] *)
Definition uint_max : Z := 2 ^ 32 - 1.
Definition int_max : Z := 2 ^ 31 - 1.

(** The calls of Windows; an error is what [GetLastError] gives. *)
Class Win32 := {
  (** with [MOVEFILE_REPLACE_EXISTING | MOVEFILE_WRITE_THROUGH] *)
  MoveFileExW : path -> path -> M world (sysret unit);
  (** with [OPEN_ALWAYS], shared *)
  CreateFileW : path -> M world (sysret nat);
  (** with [LOCKFILE_EXCLUSIVE_LOCK | LOCKFILE_FAIL_IMMEDIATELY], of the first byte *)
  LockFileEx : nat -> M world (sysret unit);
  UnlockFileEx : nat -> M world (sysret unit);
  CloseHandle : M world (sysret unit);
  _write : nat -> list byte -> M world (sysret nat);
}.

(** The names [MoveFileExW] writes through. *)
Definition written_through (p q : path) : Prop := q = p \/ q = path_append p ".tmp".
#[export] Instance written_through_dec p q : Decision (written_through p q) :=
  decide (q = p \/ q = path_append p ".tmp").

(** [MoveFileExW] does not return from a move before it is on the disk; when it fails or
    power is lost inside it, it has touched nothing but the two names.  [CreateFileW] opens
    the file or a new one; [LockFileEx] locks what nobody has locked, and otherwise says
    so; [_write] is [write] while the count is an [int]. *)
Class Win32Laws `{Win32} : Prop := {
  MoveFileExW_moves : forall p w i, let tmp := path_append p ".tmp" in
    fs_ok (fs w) -> now (entry (fs w) tmp) = Some i ->
    wp (MoveFileExW tmp p) w (fun o w' =>
      match o with
      | Done (SysOk _) => fs w' = settle_where (written_through p) (renamed (fs w) tmp p i) /\ (faulty w' -> faulty w)
      | Raised _ => False
      | _ => fs_ok (fs w') /\ keeps [p; tmp] (fs w) (fs w') /\ faulty w
      end);
  CreateFileW_opens : forall p w,
    wp (CreateFileW p) w (fun o w' =>
      match o with
      | Done (SysOk i) => create_if_missing p (fs w) = (SysOk i, fs w') /\ (faulty w' -> faulty w)
      | Done (SysErr _) => fs w' = fs w /\ faulty w
      | Raised _ => False
      | Crashed => faulty w
      end);
  LockFileEx_excludes : forall i w,
    wp (LockFileEx i) w (fun o w' =>
      match o with
      | Done (SysOk _) => (i ∉ locks (fs w)) /\ fs w' = set_locks ({[i]} ∪ locks (fs w)) (fs w) /\ (faulty w' -> faulty w)
      | Done (SysErr error) => fs w' = fs w /\ (faulty w' -> faulty w) /\
          (faulty w \/ i ∈ locks (fs w) /\ (error = ERROR_LOCK_VIOLATION \/ error = ERROR_IO_PENDING))
      | Raised _ => False
      | Crashed => faulty w
      end);
  CloseHandle_closes : forall w,
    wp CloseHandle w (fun o w' => fs w' = fs w /\ match o with Done _ => (faulty w' -> faulty w) | Raised _ => False | Crashed => faulty w end);
  _write_writes : forall i bytes w, size bytes <= int_max -> _write i bytes w = sys_write i bytes w;
}.

Section Windows.
Context `{Win32}.

(** *** file_io.cpp *)

Definition sync_file_windows (p : path) : M world unit :=
  descriptor ← sys_open p;
  match descriptor with
  | SysErr errno => throw (system_error errno "failed to open file for synchronization")
  | SysOk i =>
    sync_result ← sys_fsync i;
    close_result ← sys_close;
    match sync_result, close_result with
    | SysErr sync_error, _ => throw (system_error sync_error "failed to synchronize file")
    | SysOk _, SysErr close_error => throw (system_error close_error "failed to close synchronized file")
    | SysOk _, SysOk _ => mret tt
    end
  end.

Definition replace_file_windows (temporary final_path : path) : M world unit :=
  moved ← MoveFileExW temporary final_path;
  match moved with
  | SysErr error => throw (system_error error "failed to publish atomic file")
  | SysOk _ => mret tt
  end.

Definition atomic_write_file_windows : path -> list byte -> M world unit :=
  atomic_write_file_with sync_file_windows replace_file_windows.

(** *** wal_file.cpp *)

(** [_wopen] with [_O_CREAT | _O_APPEND], and [_commit] with its retries *)
Definition open_for_append_windows (p : path) : M world (sysret nat) := sys_open_create p.
Definition synchronize_file_windows (i : nat) : M world (sysret unit) := retry_interrupted (sys_fsync i).

Fixpoint write_all_windows_loop (fuel : nat) (i : nat) (bytes : list byte) (total_written : Z) : M world unit :=
  if negb (total_written <? size bytes) then mret tt
  else
    match fuel with
    | O => throw out_of_fuel
    | S fuel =>
      let remaining := size bytes - total_written in
      let request_size := if uint_max <? remaining then uint_max else remaining in
      written ← _write i (take (Z.to_nat request_size) (drop (Z.to_nat total_written) bytes));
      match written with
      | SysErr errno =>
        if errno =? EINTR then write_all_windows_loop fuel i bytes total_written
        else throw_file_error "failed to append WAL" errno
      | SysOk O => throw (runtime_error "zero-byte write while appending WAL")
      | SysOk n => write_all_windows_loop fuel i bytes (total_written + Z.of_nat n)
      end
    end.

Definition write_all_windows (i : nat) (bytes : list byte) : M world unit := fun w =>
  write_all_windows_loop (S (length (script w))) i bytes 0 w.

(** [_chsize_s] is not repeated when it is interrupted. *)
Definition truncate_file_windows (i : nat) : M world (sysret unit) := sys_ftruncate i 0.

(** *** database_lock.cpp *)

Definition lock_acquire_windows (p : path) : M world nat :=
  handle ← CreateFileW p;
  match handle with
  | SysErr error => throw (system_error error "failed to open database lock file")
  | SysOk i =>
    locked ← LockFileEx i;
    match locked with
    | SysOk _ => mret i
    | SysErr error =>
      CloseHandle;;
      throw_when ((error =? ERROR_LOCK_VIOLATION) || (error =? ERROR_IO_PENDING))
        (DatabaseBusyError "database directory is already open");;
      throw (system_error error "failed to lock database directory")
    end
  end.

Definition lock_release_windows (i : nat) : M world unit := UnlockFileEx i;; CloseHandle;; mret tt.
End Windows.

(** * Lemmas *)

Section AppleLemmas.
Context `{AppleLaws}.
Hypothesis (Havailable : full_fsync_available = true).

(** Where F_FULLFSYNC is available the fallback is not reached. *)
Lemma wp_sync_descriptor_apple i w :
  wp (sync_descriptor_apple i) w (ends_in w (fs w) (set_inode i (settle (inode (fs w) i)) (fs w))).
Proof.
  unfold sync_descriptor_apple. wp_step. eapply wp_mono; [apply full_fsync_settles|].
  intros [[u|errno]|e|] w1; cbn [and_then]; [intros [Hf Hs]; by rewrite wp_ret| |done|simpl; tauto].
  intros (Hf & Hs & Hno). destruct (Hno Havailable) as (Hw & H1 & H2).
  rewrite (proj2 (Z.eqb_neq _ _) H1), (proj2 (Z.eqb_neq _ _) H2). cbn [negb andb].
  wp_step. apply wp_throw_when; [|done]. intros _. simpl. auto.
Qed.

(** The names [replace_file] moves are not permanent when it returns. *)
Definition apple_moved (p : path) (i : nat) (f f' : fsys) : Prop := f' = renamed f (path_append p ".tmp") p i.
Definition apple_stopped (p : path) (i : nat) (f f' : fsys) : Prop := f' = f \/ apple_moved p i f f'.

#[export] Instance apple_publishes : Publishes apple_moved apple_stopped sync_file_apple replace_file_apple.
Proof.
  split.
  - intros p w i. apply wp_sync_file_with, wp_sync_descriptor_apple.
  - intros p w i tmp _ Hi. eapply wp_mono; [by apply (wp_replace_file_with (fun _ f => f))|].
    unfold apple_stopped, apple_moved. intros [u|e|] w'; [done|tauto..].
Qed.

Lemma wp_atomic_write_file_apple p bytes w :
  fs_ok (fs w) ->
  wp (atomic_write_file_apple p bytes) w (fun o w' =>
    old_or_new (fs w) (fs w') p bytes /\
    match o with
    | Done _ => file_of (fs w') p = Some bytes /\ file_of (fs w') (path_append p ".tmp") = None /\ (faulty w' -> faulty w)
    | _ => faulty w \/ max_stream < size bytes
    end).
Proof.
  intros Hok. eapply wp_mono; [by apply wp_atomic_write_file_with|]. intros o w' Hw.
  assert (untouched (fs w) (fs w') (path_append p ".tmp") \/
    (exists f i, complete (fs w) f (path_append p ".tmp") i bytes /\ apple_stopped p i f (fs w')) ->
    old_or_new (fs w) (fs w') p bytes) as Hfail.
  { intros [Hu|(f & i & Hf & [->| ->])]; [by apply untouched_old_or_new| |by apply renamed_old_or_new].
    apply untouched_old_or_new; [done|by eapply complete_untouched]. }
  destruct o as [u|e|]; [|destruct Hw as [Hs Hw]; split; [by apply Hfail|done]..].
  destruct Hw as [(f & i & Hf & Hm) Hs]. split; [apply Hfail; right; exists f, i; split; [done|by right]|].
  rewrite Hm. unfold file_of. rewrite !(entry_renamed _ _ _ _ _ Hf).
  rewrite (decide_False (P := p = path_append p ".tmp")), !decide_True by (done || apply ne_tmp).
  split_and!; [|done|done]. simpl. unfold renamed. autorewrite with chrono_fs. by rewrite (proj2 Hf).
Qed.

(** The log: a return of 0 means that what it holds is permanent. *)
Lemma wp_synchronize_file_apple i w :
  wp (synchronize_file_apple i) w (fun o w' =>
    match o with
    | Done (SysOk _) => fs w' = set_inode i (settle (inode (fs w) i)) (fs w) /\ (faulty w' -> faulty w)
    | Raised _ => False
    | _ => fs w' = fs w /\ faulty w
    end).
Proof.
  unfold synchronize_file_apple. wp_step. apply wp_retry; [apply full_fsync_call|]. intros w1 H1 Hs1.
  eapply wp_mono; [apply full_fsync_settles|]. rewrite H1. intros [[u|errno]|e|] w2; [| |done|intros [H2 Hs2]; right; split; [done|simpl; auto]].
  - intros [H2 Hs2]. right. split; [done|]. cbn [and_then]. rewrite wp_ret. auto.
  - intros (H2 & Hs2 & Hno). destruct (Hno Havailable) as (Hw & Hn1 & Hn2).
    destruct (decide (errno = EINTR)) as [->|He]; [left; split; [done|done]|right].
    split; [by intros [= ->]|]. cbn [and_then].
    rewrite (proj2 (Z.eqb_neq _ _) Hn1), (proj2 (Z.eqb_neq _ _) Hn2). cbn [negb andb]. rewrite wp_ret. auto.
Qed.
End AppleLemmas.

Section WindowsLemmas.
Context `{Win32Laws}.

Lemma wp_sync_file_windows p w i :
  now (entry (fs w) p) = Some i ->
  wp (sync_file_windows p) w (ends_in w (fs w) (set_inode i (settle (inode (fs w) i)) (fs w))).
Proof.
  intros Hi. unfold sync_file_windows, sys_open, sys_fsync, sys_close. wp_step. apply wp_sys_query.
  - intros w1 H1 Hs1. rewrite Hi. cbn [and_then]. wp_step. apply wp_sys_settle.
    + intros w2 H2 Hs2. rewrite H1 in H2. cbn [and_then]. wp_step. apply wp_sys_query; intros; wp_go; simpl; rewrite ?H3; auto.
    + intros e w2 H2 Hs2. rewrite H1 in H2. cbn [and_then]. wp_step. apply wp_sys_query; intros; wp_go; simpl; rewrite ?H3; auto.
    + intros w2 H2 Hs2. simpl. rewrite H2, H1. auto.
  - intros e w1 H1 Hs1. wp_go. simpl. auto.
  - intros w1 H1 Hs1. simpl. auto.
Qed.

(** The move itself has failed, or power was lost inside it. *)
Definition move_stopped (p : path) (f f' : fsys) : Prop :=
  exists w o w', MoveFileExW (path_append p ".tmp") p w = (o, w') /\ (forall u, o <> Done (SysOk u)) /\ fs w = f /\ fs w' = f'.
(** That has happened with the new contents complete under the temporary name. *)
Definition stopped_in_move (p : path) (bytes : list byte) (f0 f' : fsys) : Prop :=
  exists f i, complete f0 f (path_append p ".tmp") i bytes /\ move_stopped p f f'.
Definition windows_moved (p : path) (i : nat) (f f' : fsys) : Prop :=
  f' = settle_where (written_through p) (renamed f (path_append p ".tmp") p i).
Definition windows_stopped (p : path) (i : nat) (f f' : fsys) : Prop :=
  fs_ok f' /\ keeps [p; path_append p ".tmp"] f f' /\ move_stopped p f f'.

#[export] Instance windows_publishes : Publishes windows_moved windows_stopped sync_file_windows replace_file_windows.
Proof.
  split; [apply wp_sync_file_windows|].
  intros p w i tmp Hok Hi. unfold replace_file_windows. wp_step.
  assert (forall o w', MoveFileExW tmp p w = (o, w') -> (forall u, o <> Done (SysOk u)) -> move_stopped p (fs w) (fs w')) as Hstop
    by (intros o w' Hm Ho; by exists w, o, w').
  pose proof (MoveFileExW_moves p w i Hok Hi) as Hm. fold tmp in Hm. unfold wp in Hm |- *.
  destruct (MoveFileExW tmp p w) as [[[u|e]|e|] w'] eqn:E; simpl in Hm |- *; [done| |done|].
  - destruct Hm as (Hok' & Hk & Hs). split; [|done]. split_and!; [done|done|by eapply Hstop].
  - destruct Hm as (Hok' & Hk & Hs). split; [|done]. split_and!; [done|done|by eapply Hstop].
Qed.

Lemma wp_atomic_write_file_windows p bytes w :
  fs_ok (fs w) ->
  wp (atomic_write_file_windows p bytes) w (fun o w' =>
    fs_ok (fs w') /\ keeps [p; path_append p ".tmp"] (fs w) (fs w') /\
    match o with
    | Done _ => durable (fs w') p (Some bytes) /\ durable (fs w') (path_append p ".tmp") None /\ (faulty w' -> faulty w)
    | _ =>
      (faulty w \/ max_stream < size bytes) /\
      ((forall old r, durable (fs w) p old -> after_crash (fs w') p r -> r = old) \/ stopped_in_move p bytes (fs w) (fs w'))
    end).
Proof.
  intros Hok. eapply wp_mono; [by apply wp_atomic_write_file_with|]. intros o w' Hw. unfold atomic_write_stages in Hw.
  set (tmp := path_append p ".tmp") in *.
  assert (forall f i, complete (fs w) f tmp i bytes -> windows_stopped p i f (fs w') ->
    fs_ok (fs w') /\ keeps [p; tmp] (fs w) (fs w') /\ stopped_in_move p bytes (fs w) (fs w')) as Hstop.
  { intros f i Hf (Hok' & Hk & Hm). split_and!; [done| |by exists f, i]. intros q Hq.
    eapply kept_trans; [|by apply Hk]. apply (untouched_kept _ _ p); [done|by eapply complete_untouched|set_solver]. }
  destruct o as [u|e|]; [|destruct Hw as [Hs [Hu|(f & i & Hf & Hm)]]..].
  - destruct Hw as [(f & i & Hf & Hm) Hs]. unfold windows_moved in Hm. rewrite Hm.
    destruct (permanent_old_or_new (fs w) f p bytes Hok i Hf (written_through p)) as (Hok' & Hk & _).
    split_and!; [done|done|by eapply permanent_durable; [..|left]|by eapply permanent_tmp; [..|right]|done].
  - destruct (untouched_old_or_new (fs w) (fs w') p bytes Hok Hu) as (Hok' & Hk & _). split_and!; [done..|].
    left. intros old r. by apply untouched_after_crash.
  - destruct (Hstop f i Hf Hm) as (Hok' & Hk & Hm'). split_and!; [done..|]. by right.
  - destruct (untouched_old_or_new (fs w) (fs w') p bytes Hok Hu) as (Hok' & Hk & _). split_and!; [done..|].
    left. intros old r. by apply untouched_after_crash.
  - destruct (Hstop f i Hf Hm) as (Hok' & Hk & Hm'). split_and!; [done..|]. by right.
Qed.

(** Up to the largest [int] every request is for all that remains. *)
Lemma write_all_windows_loop_same fuel i bytes total w :
  size bytes <= int_max -> 0 <= total -> write_all_windows_loop fuel i bytes total w = write_all_loop fuel i bytes total w.
Proof.
  intros Hn. revert total w. induction fuel as [|fuel IH]; intros total w Ht; cbn [write_all_windows_loop write_all_loop]; [done|].
  destruct (total <? size bytes) eqn:E; bool_to_prop; cbn [negb]; [|done]. cbv zeta.
  rewrite (proj2 (Z.ltb_ge uint_max _)) by (unfold uint_max, int_max in *; lia).
  rewrite take_ge by (rewrite length_drop; unfold size in *; lia).
  unfold mbind, M_bind. rewrite _write_writes.
  2: { unfold size in *. rewrite length_drop. lia. }
  destruct (sys_write i (drop (Z.to_nat total) bytes) w) as [[[[|n]|e]|e|] w1]; [done| |destruct (e =? EINTR); [by apply IH|done]|done|done].
  apply IH. lia.
Qed.
End WindowsLemmas.

(** ** A Windows that behaves *)

(** The calls made of those of World.v: a move that is on the disk when it returns. *)
#[export] Instance simple_windows : Win32 := {
  MoveFileExW from to :=
    moved ← sys_rename from to;
    match moved with
    | SysOk _ => modify_fs (settle_where (fun q => q = to \/ q = from));; mret moved
    | SysErr _ => mret moved
    end;
  CreateFileW := sys_open_create;
  LockFileEx i := sys_change (fun f =>
    if decide (i ∈ locks f) then (SysErr ERROR_LOCK_VIOLATION, f) else (SysOk tt, set_locks ({[i]} ∪ locks f) f));
  UnlockFileEx := sys_unlock;
  CloseHandle := sys_close;
  _write := sys_write;
}.

#[export] Instance simple_windows_laws : Win32Laws.
Proof.
  split; cbn [MoveFileExW CreateFileW LockFileEx CloseHandle _write simple_windows]; [| | | |done].
  - intros p w i Hok Hi. wp_step. unfold sys_rename. apply wp_sys_change; rewrite ?Hi; cbn [fst snd].
    + intros w1 H1 Hs1. unfold wp, modify_fs, modify, mbind, M_bind. cbn [fst snd fs script and_then]. split; [by rewrite H1|exact Hs1].
    + intros e w1 H1 Hs1. cbn [and_then]. rewrite wp_ret, H1. split_and!; [done|intros q _; apply kept_refl|done].
    + intros w1 H1 Hs1. cbn [and_then]. rewrite H1. split_and!; [by apply renamed_ok; [..|apply tmp_ne]| |done].
      intros q Hq. apply renamed_kept; set_solver.
  - intros p w. unfold sys_open_create. destruct (create_if_missing_Ok p (fs w)) as (i & f & Hc).
    apply wp_sys_change; rewrite ?Hc; cbn [fst snd]; [intros w1 -> Hs1; by split|intros e w1 -> Hs1; by split|by intros w1 _ Hs1].
  - intros i w. destruct (decide (i ∈ locks (fs w))) as [Hi|Hi].
    + apply wp_sys_change; rewrite ?decide_True by done; cbn [fst snd]; [|auto..].
      intros w1 H1 Hs1. auto 10.
    + apply wp_sys_change; rewrite ?decide_False by done; cbn [fst snd]; [|auto..].
      intros w1 H1 Hs1. auto.
  - intros w. apply wp_sys_query; auto.
Qed.

(** ** A macOS that behaves *)

(** A call whose answer is changed afterwards is a call. *)
Lemma one_call_map {A B} (call : M world (sysret A)) (g : sysret A -> sysret B) :
  one_call call -> (forall r, r <> SysErr EINTR -> g r <> SysErr EINTR) -> one_call (r ← call; mret (g r)).
Proof.
  intros Hcall Hg w. destruct (Hcall w) as [Hs Hempty]. unfold mbind, M_bind.
  destruct (call w) as [[r|e|] w']; (split; [done|]); intros (r' & w1 & Hr & Hne)%Hempty; [|done..].
  injection Hr as <- <-. eexists _, _. split; [done|]. by apply Hg.
Qed.

Section SimpleApple.
Context (available : bool).

#[export] Instance simple_apple : Apple := {
  full_fsync_available := available;
  sys_full_fsync i :=
    if available then
      synced ← sys_fsync i;
      mret (match synced with
            | SysErr errno => SysErr (if (errno =? ENOTSUP) || (errno =? EINVAL) then EIO else errno)
            | SysOk _ => synced
            end)
    else sys_query (fun _ => SysErr ENOTSUP);
}.

#[export] Instance simple_apple_laws : AppleLaws.
Proof.
  split; intros i; cbn [sys_full_fsync full_fsync_available simple_apple]; destruct available.
  - apply one_call_map; [apply one_call_settle|]. intros [u|e] Hr; [done|]. intros [= H].
    destruct (_ || _); [done|congruence].
  - by apply one_call_query.
  - intros w. wp_step. apply wp_sys_settle; [intros; wp_go; auto| |intros; simpl; auto].
    intros e w1 H1 Hs1. wp_go. split_and!; [done|done|]. intros _. split; [done|].
    destruct ((e =? ENOTSUP) || (e =? EINVAL)) eqn:E; [done|]. apply orb_false_iff in E as [H2 H3]. by bool_to_prop.
  - intros w. apply wp_sys_query; [by intros w1 H1 Hs1; split_and!|intros e w1 H1 Hs1; by split_and!|auto].
Qed.
End SimpleApple.

(** ** Theorems *)

(** C24: [atomic_write_file] on the other platforms, for every behaviour of the system and
    a power loss at any point; on both it changes no other durable file.  On Windows, if it
    returns, a power loss leaves the new contents and no temporary file; otherwise a power
    loss leaves the old contents, unless the new contents were complete and on the disk
    under the temporary name and the move itself has failed or was interrupted, of which
    nothing is documented.  On macOS, where the file system has F_FULLFSYNC, a power loss
    leaves the old or the new contents, and never a part of them, at every moment and also
    once it has returned; who looks at the file then, with the power on, finds the new
    contents. *)
Theorem atomic_write_file_platforms `{Win32Laws} `{AppleLaws} p bytes w old :
  fs_ok (fs w) -> durable (fs w) p old ->
  (forall o w', atomic_write_file_windows p bytes w = (o, w') ->
    fs_ok (fs w') /\
    (forall q c, q <> p -> q <> path_append p ".tmp" -> durable (fs w) q c -> durable (fs w') q c) /\
    match o with
    | Done _ => forall f, crash (fs w') f -> file_of f p = Some bytes /\ file_of f (path_append p ".tmp") = None
    | _ =>
      (script w <> [] \/ max_stream < size bytes) /\
      ((forall f, crash (fs w') f -> file_of f p = old) \/ stopped_in_move p bytes (fs w) (fs w'))
    end) /\
  (full_fsync_available = true -> forall o w', atomic_write_file_apple p bytes w = (o, w') ->
    fs_ok (fs w') /\
    (forall q c, q <> p -> q <> path_append p ".tmp" -> durable (fs w) q c -> durable (fs w') q c) /\
    (forall f, crash (fs w') f -> file_of f p = old \/ file_of f p = Some bytes) /\
    match o with
    | Done _ => file_of (fs w') p = Some bytes /\ file_of (fs w') (path_append p ".tmp") = None
    | _ => script w <> [] \/ max_stream < size bytes
    end).
Proof.
  intros Hok Hold. split.
  - intros o w' Hrun. pose proof (wp_atomic_write_file_windows p bytes w Hok) as Hw. unfold wp in Hw. rewrite Hrun in Hw.
    destruct Hw as (Hok' & Hk & Ho). split_and!; [done|intros q c Hq Hq' Hd; eapply kept_durable; [apply Hk; set_solver|done]|].
    destruct o as [u|e|]; [|destruct Ho as [Hs [Hr|Hm]]; (split; [done|]); [left; intros f Hf; by eapply Hr, crash_file_of|by right]..].
    destruct Ho as (Hp & Ht & _). intros f Hf. split; apply durable_file_of; by eapply durable_crash.
  - intros Havailable o w' Hrun. pose proof (wp_atomic_write_file_apple Havailable p bytes w Hok) as Hw. unfold wp in Hw. rewrite Hrun in Hw.
    destruct Hw as ((Hok' & Hk & Hr) & Ho).
    split_and!; [done|intros q c Hq Hq' Hd; eapply kept_durable; [apply Hk; set_solver|done]| |by destruct o; naive_solver].
    intros f Hf. by eapply Hr, crash_file_of.
Qed.

(** On Windows it returns; on macOS power is lost inside the renaming. *)
Lemma atomic_write_file_platforms_witness :
  let p := Path "db" "MANIFEST" in
  let w script := World (single_file p [Byte.x01]) script in
  let windows := atomic_write_file_windows p [Byte.x02] (w []) in
  let apple := atomic_write_file_apple (H := simple_apple true) p [Byte.x02] (w (replicate 6 Succeeds ++ [PowerLoss])) in
  windows.1 = Done tt /\ (forall f, crash (fs windows.2) f -> file_of f p = Some [Byte.x02]) /\
  apple.1 = Crashed /\ file_of (fs apple.2) p = Some [Byte.x02] /\
  forall f, crash (fs apple.2) f -> file_of f p = Some [Byte.x01] \/ file_of f p = Some [Byte.x02].
Proof.
  intros p w windows apple. split; [vm_compute; reflexivity|]. split; [|split; [vm_compute; reflexivity|split; [vm_compute; reflexivity|]]].
  - intros f Hf. destruct (atomic_write_file_platforms (H1 := simple_apple true) p [Byte.x02] (w []) (Some [Byte.x01])
      (single_file_ok _ _) (single_file_durable _ _)) as [Hw _].
    destruct (Hw windows.1 windows.2 (surjective_pairing _)) as (_ & _ & Hd).
    replace (windows.1) with (Done tt) in Hd by (vm_compute; reflexivity). by apply Hd.
  - destruct (atomic_write_file_platforms (H1 := simple_apple true) p [Byte.x02] (w (replicate 6 Succeeds ++ [PowerLoss])) (Some [Byte.x01])
      (single_file_ok _ _) (single_file_durable _ _)) as [_ Ha].
    destruct (Ha eq_refl apple.1 apple.2 (surjective_pairing _)) as (_ & _ & Hd & _). exact Hd.
Defined.

(** On macOS returning is no promise: the name [replace_file] has moved is still in the
    drive's cache, and a power loss may bring the old file back. *)
Theorem apple_name_can_be_lost :
  let p := Path "db" "MANIFEST" in
  let run := atomic_write_file_apple (H := simple_apple true) p [Byte.x02] (World (single_file p [Byte.x01]) []) in
  run.1 = Done tt /\ exists f, crash (fs run.2) f /\ file_of f p = Some [Byte.x01].
Proof.
  intros p run. split; [vm_compute; reflexivity|].
  exists (crash_pick (fun _ => 1%nat) (fun _ => 0%nat) (fs run.2)). split; [by eexists _, _|vm_compute; reflexivity].
Qed.

(** And where there is no F_FULLFSYNC, the new name may come with none of the contents. *)
Theorem apple_fallback_can_tear :
  let p := Path "db" "MANIFEST" in
  let run := atomic_write_file_apple (H := simple_apple false) p [Byte.x02] (World (single_file p [Byte.x01]) []) in
  run.1 = Done tt /\ exists f, crash (fs run.2) f /\ file_of f p = Some [].
Proof.
  intros p run. split; [vm_compute; reflexivity|].
  exists (crash_pick (fun _ => 0%nat) (fun _ => 1%nat) (fs run.2)). split; [by eexists _, _|vm_compute; reflexivity].
Qed.

(** The log on Windows: for what the encoder makes of a record, which is less than an
    [int] counts, the loop over [_write] is the loop over [write]. *)
Theorem windows_append_same `{Win32Laws} r encoded i w :
  Sample_ok (sample r) -> encode_wal_record r = Ok encoded -> write_all_windows i encoded w = write_all i encoded w.
Proof.
  intros Hr He. apply encode_wal_record_inv in He as [[_ Hsize] ->]; [|done]. unfold write_all_windows, write_all.
  apply write_all_windows_loop_same; [|done]. rewrite size_wal_frame. unfold max_payload_size, int_max in *. lia.
Qed.

(** The lock on Windows: who gets it holds it and nobody did before; who does not is told
    so only when somebody holds it or the system has failed. *)
Theorem windows_lock_excludes `{Win32Laws} p w o w' :
  lock_acquire_windows p w = (o, w') ->
  match o with
  | Done i => i ∈ locks (fs w') /\ ~ i ∈ locks (fs w) /\ exists f, create_if_missing p (fs w) = (SysOk i, f)
  | Raised e => faulty w \/ e = DatabaseBusyError "database directory is already open" /\
      exists i f, create_if_missing p (fs w) = (SysOk i, f) /\ i ∈ locks (fs w)
  | Crashed => faulty w
  end.
Proof.
  intros Hrun. assert (wp (lock_acquire_windows p) w (fun o w' =>
    match o with
    | Done i => i ∈ locks (fs w') /\ ~ i ∈ locks (fs w) /\ exists f, create_if_missing p (fs w) = (SysOk i, f)
    | Raised e => faulty w \/ e = DatabaseBusyError "database directory is already open" /\
        exists i f, create_if_missing p (fs w) = (SysOk i, f) /\ i ∈ locks (fs w)
    | Crashed => faulty w
    end)) as Hw; [|unfold wp in Hw; by rewrite Hrun in Hw].
  unfold lock_acquire_windows. wp_step. eapply wp_mono; [apply CreateFileW_opens|]. intros [[i|e]|e|] w1; cbn [and_then]; [|intros [_ Hs]; rewrite wp_throw; by left|done|done].
  intros [Hc Hs1]. assert (locks (fs w1) = locks (fs w)) as Hlocks.
  { revert Hc. unfold create_if_missing. destruct (now (entry (fs w) p)); [by intros [= _ ->]|by intros [= _ <-]]. }
  wp_step. eapply wp_mono; [apply LockFileEx_excludes|]. rewrite Hlocks. intros [[u|e]|e|] w2; cbn [and_then]; [| |done|auto].
  - intros (Hfree & H2 & _). rewrite wp_ret, H2. split; [simpl; set_solver|]. eauto.
  - intros (H2 & Hs2 & He). wp_step. eapply wp_mono; [apply CloseHandle_closes|]. intros [c|e'|] w3; cbn [and_then]; [|by intros [_ []]|].
    + intros [_ Hs3]. wp_step. assert (faulty w \/ i ∈ locks (fs w) /\ (e = ERROR_LOCK_VIOLATION \/ e = ERROR_IO_PENDING)) as [Hf|[Hi Hbusy]] by tauto.
      * apply wp_throw_when; intros _; cbn [and_then]; [auto|rewrite wp_throw; auto].
      * apply wp_throw_when; intros Hb; cbn [and_then]; [right; eauto|]. by destruct Hbusy as [-> | ->].
    + intros [_ Hs3]. auto.
Qed.
