(* ===== verification/WalRecovery.v ===== *)
(** * Log replay (src/wal_recovery.cpp)

    [replay_wal] decodes the log from a buffer it refills chunk by chunk.  Its
    specification [log_parse] decodes the whole file at once; that the two agree
    rests on the decoder never revising a decision ([RecordDecoder]).  The loop is
    proved for any such decoder and any chunk size. *)

From stdpp Require Import base tactics option numbers list strings gmap pretty.
From Stdlib Require Import ZArith Lia Ascii.
From S2P Require Import Prelude Errors World Hoare Model ByteCodec WalRecord WalFile.

Definition read_chunk_size : Z := 64 * 1024.

Record WalReplayResult := MkWalReplayResult {
  records_replayed : Z;
  valid_bytes : Z;
  incomplete_tail_bytes : Z;
}.

(** [WalReplayResult::had_incomplete_tail] *)
Definition had_incomplete_tail (r : WalReplayResult) : bool := negb (incomplete_tail_bytes r =? 0).

Definition decode_error_name (e : WalDecodeError.t) : string :=
  match e with
  | WalDecodeError.none => "no error"
  | WalDecodeError.incomplete_record => "incomplete record"
  | WalDecodeError.invalid_magic => "invalid magic"
  | WalDecodeError.unsupported_version => "unsupported version"
  | WalDecodeError.unsupported_record_type => "unsupported record type"
  | WalDecodeError.invalid_length => "invalid length"
  | WalDecodeError.checksum_mismatch => "checksum mismatch"
  | WalDecodeError.invalid_payload => "invalid payload"
  end.

Definition make_format_error_message (offset : Z) (error : WalDecodeError.t) : string :=
  "invalid WAL record at byte " +:+ pretty (Z.to_N offset) +:+ ": " +:+ decode_error_name error.

(** [errno], or [std::errc::io_error] when the library left it 0 *)
Definition throw_read_error {S A} (errno : Z) : M S A :=
  throw (system_error (if negb (errno =? 0) then errno else EIO) "failed to read WAL").

Definition remove_consumed_prefix (buffer : list byte) (consumed : Z) : list byte :=
  if consumed =? 0 then buffer
  else if consumed =? size buffer then []
  else drop (Z.to_nat consumed) buffer.

Section Replay.
Context (decode : list byte -> result WalDecodeResult) (chunk_size : Z).
(** The state the callback updates, and the callback, which may itself read
    files and throw. *)
Context {A : Type} (replay : WalPutRecord -> M (world * A) unit).

(** [read_next_chunk], with the stream's position: whether the end was reached,
    the new buffer, the new position. *)
Definition read_next_chunk (i : nat) (offset : Z) (buffer : list byte)
    : M world (bool * list byte * Z) :=
  chunk ← sys_read i offset chunk_size;
  match chunk with
  | SysErr errno => throw_read_error errno
  | SysOk chunk =>
    mret (size chunk <? chunk_size, buffer ++ chunk, offset + size chunk)
  end.

(** The [while (true)] loop. *)
Fixpoint replay_loop (fuel : nat) (i : nat) (offset : Z) (buffer : list byte) (consumed : Z)
    (reached_end : bool) (result : WalReplayResult) : M (world * A) WalReplayResult :=
  match fuel with
  | O => throw out_of_fuel
  | S fuel =>
    let refill :=
      let buffer := remove_consumed_prefix buffer consumed in
      '(reached_end, buffer, offset) ← in_world (read_next_chunk i offset buffer);
      replay_loop fuel i offset buffer 0 reached_end result in
    if consumed <? size buffer then
      let available := drop (Z.to_nat consumed) buffer in
      decoded ← lift (decode available);
      if success decoded then
        throw_when ((bytes_consumed decoded =? 0) || (size available <? bytes_consumed decoded))
          (logic_error "WAL decoder reported an invalid size");;
        match record decoded with
        | None => throw (logic_error "bad optional access")
        | Some r =>
          replay r;;
          let consumed := consumed + bytes_consumed decoded in
          let result := MkWalReplayResult (u64 (records_replayed result + 1))
            (u64 (valid_bytes result + bytes_consumed decoded)) (incomplete_tail_bytes result) in
          if consumed =? size buffer then replay_loop fuel i offset [] 0 reached_end result
          else replay_loop fuel i offset buffer consumed reached_end result
        end
      else if negb (bool_decide (error decoded = WalDecodeError.incomplete_record)) then
        throw (WalFormatError (valid_bytes result) (error decoded))
      else if reached_end then
        mret (MkWalReplayResult (records_replayed result) (valid_bytes result)
                (size buffer - consumed))
      else refill
    else if reached_end then mret result
    else refill
  end.

(** Each turn takes a record from the buffer, or bytes from the file to the
    buffer, or finds the end. *)
Definition replay_fuel (file : list byte) : nat := 2 * length file + 2.

Definition replay_file (p : path) : M (world * A) WalReplayResult :=
  opened ← in_world (sys_open p);
  match opened with
  | SysErr errno => throw_read_error errno
  | SysOk i =>
    file ← in_world (read_fs (fun fs => now (inode fs i)));
    replay_loop (replay_fuel file) i 0 [] 0 false (MkWalReplayResult 0 0 0)
  end.
End Replay.

(** [replay_wal]; [None] is an empty [std::function]. *)
Definition replay_wal {A} (p : path) (replay : option (WalPutRecord -> M (world * A) unit))
    : M (world * A) WalReplayResult :=
  match replay with
  | None => throw (invalid_argument "WAL replay callback cannot be empty")
  | Some replay => replay_file decode_wal_record read_chunk_size replay p
  end.

(** [repair_wal_tail] *)
Definition repair_wal_tail (p : path) (r : WalReplayResult) : M world unit :=
  if negb (had_incomplete_tail r) then mret tt
  else
    throw_when (max_u64 - valid_bytes r <? incomplete_tail_bytes r)
      (overflow_error "recovered WAL size would overflow");;
    let expected_file_size := valid_bytes r + incomplete_tail_bytes r in
    sized ← sys_file_size p;
    match sized with
    | SysErr error => throw (system_error error "failed to inspect WAL before repair")
    | SysOk current_file_size =>
      throw_when (negb (current_file_size =? expected_file_size))
        (runtime_error "WAL changed after recovery");;
      resized ← sys_resize_file p (valid_bytes r);
      match resized with
      | SysErr error => throw (system_error error "failed to truncate WAL")
      | SysOk _ =>
        writer ← wal_open p buffered;
        throw_when (negb (wal_size_bytes writer =? valid_bytes r))
          (runtime_error "WAL size mismatch after repair");;
        with_object writer wal_sync
      end
    end.

(** * Specification *)

(** How a log ends: after its last record, in the middle of one, or at bytes that
    are no record. *)
Inductive log_end :=
| log_clean
| log_tail (n : Z)
| log_bad (e : WalDecodeError.t).

(** The records of a log, the bytes they take, and its end. *)
Inductive log_parse (decode : list byte -> result WalDecodeResult) :
    list byte -> list WalPutRecord -> Z -> log_end -> Prop :=
| log_parse_nil : log_parse decode [] [] 0 log_clean
| log_parse_record bytes r n rest records valid e :
    decode (bytes ++ rest) = Ok (MkWalDecodeResult (Some r) WalDecodeError.none n) ->
    n = size bytes -> 0 < n ->
    log_parse decode rest records valid e ->
    log_parse decode (bytes ++ rest) (r :: records) (n + valid) e
| log_parse_tail bytes :
    bytes <> [] -> decode bytes = Ok (make_decode_error WalDecodeError.incomplete_record) ->
    log_parse decode bytes [] 0 (log_tail (size bytes))
| log_parse_bad bytes e :
    bytes <> [] -> decode bytes = Ok (make_decode_error e) ->
    e <> WalDecodeError.incomplete_record -> e <> WalDecodeError.none ->
    log_parse decode bytes [] 0 (log_bad e).

(** A callback that only updates its own state. *)
Definition updating {A} (step : WalPutRecord -> A -> A) : WalPutRecord -> M (world * A) unit :=
  fun r => set_this (step r).

Definition apply_all {A} (replay : WalPutRecord -> A -> A) (records : list WalPutRecord) (a : A) : A :=
  foldl (fun a r => replay r a) a records.

(** ** Lemmas: the specification *)

Section LogParse.
Context {decode : list byte -> result WalDecodeResult} `{!RecordDecoder decode}.

(** Every file parses. *)
Lemma log_parse_total bytes : exists records valid e, log_parse decode bytes records valid e.
Proof.
  remember (length bytes) as n eqn:Hn. revert bytes Hn.
  induction n as [n IH] using lt_wf_ind. intros bytes ->.
  destruct (decide (bytes = [])) as [->|Hne]; [eexists _, _, _; constructor|].
  destruct (decoder_cases bytes) as (d & Hd & [(r & m & -> & _ & Hm)|(e & -> & He)]).
  - rewrite <-(take_drop (Z.to_nat m) bytes) in Hd |- *.
    destruct (IH (length (drop (Z.to_nat m) bytes))) with (bytes := drop (Z.to_nat m) bytes)
      as (records & valid & e & Hp); [rewrite length_drop; unfold size in Hm; lia|done|].
    eexists _, _, _. eapply log_parse_record; [exact Hd| |lia|exact Hp].
    symmetry. apply size_take. lia.
  - destruct (decide (e = WalDecodeError.incomplete_record)) as [->|];
      eexists _, _, _; [by apply log_parse_tail|by eapply log_parse_bad].
Qed.

Lemma decode_nil_no_record r n :
  decode [] <> Ok (MkWalDecodeResult (Some r) WalDecodeError.none n).
Proof.
  intros H. destruct (decoder_cases []) as (d & Hd & Hc). rewrite H in Hd. injection Hd as <-.
  destruct Hc as [(r' & m & [= _ <-] & _ & Hm)|(e & [=] & _)].
  change (size (@nil byte)) with 0 in Hm. lia.
Qed.

(** What the parse of a file says once the decoder has decided its beginning. *)
Lemma log_parse_record_inv bytes records valid e r n :
  log_parse decode bytes records valid e ->
  decode bytes = Ok (MkWalDecodeResult (Some r) WalDecodeError.none n) ->
  exists records' valid', records = r :: records' /\ valid = n + valid' /\
    log_parse decode (drop (Z.to_nat n) bytes) records' valid' e.
Proof.
  destruct 1 as [|bytes r' n' rest records valid e Hd Hn _ Hp| |]; intros Hd';
    unfold make_decode_error in *; try congruence.
  - by apply decode_nil_no_record in Hd'.
  - rewrite Hd' in Hd. injection Hd as <- <-. rewrite drop_size_app by done. eauto.
Qed.

Lemma log_parse_error_inv bytes records valid e err :
  bytes <> [] -> log_parse decode bytes records valid e ->
  decode bytes = Ok (make_decode_error err) ->
  records = [] /\ valid = 0 /\
  e = (if decide (err = WalDecodeError.incomplete_record) then log_tail (size bytes) else log_bad err).
Proof.
  intros Hne. destruct 1 as [|bytes r' n' rest records valid e Hd Hn _ Hp|bytes ? Hd|bytes e ? Hd];
    intros Hd'; unfold make_decode_error in *; [done|congruence| |];
    rewrite Hd in Hd'; injection Hd' as <-.
  - by rewrite decide_True.
  - by rewrite decide_False.
Qed.

(** The parse is unique. *)
Lemma log_parse_unique bytes rs1 v1 e1 rs2 v2 e2 :
  log_parse decode bytes rs1 v1 e1 -> log_parse decode bytes rs2 v2 e2 ->
  rs1 = rs2 /\ v1 = v2 /\ e1 = e2.
Proof.
  intros H1. revert rs2 v2 e2.
  induction H1 as [|bytes r n rest records valid e Hd Hn Hpos H1 IH|bytes Hne Hd|bytes e Hne Hd Hi Hnone];
    intros rs2 v2 e2 H2.
  - inversion H2 as [|bytes r n rest ? ? ? Hd Hn Hpos _ Heq| |]; subst; try done.
    apply app_eq_nil in Heq as [-> ->]. change (size (@nil byte)) with 0 in Hpos. lia.
  - destruct (log_parse_record_inv _ _ _ _ _ _ H2 Hd) as (rs' & v' & -> & -> & Hp).
    rewrite drop_size_app in Hp by done. by destruct (IH _ _ _ Hp) as (-> & -> & ->).
  - destruct (log_parse_error_inv _ _ _ _ _ Hne H2 Hd) as (-> & -> & ->). by rewrite decide_True.
  - destruct (log_parse_error_inv _ _ _ _ _ Hne H2 Hd) as (-> & -> & ->). by rewrite decide_False.
Qed.

Lemma log_parse_bounds bytes records valid e :
  log_parse decode bytes records valid e ->
  0 <= valid /\ valid + match e with log_tail n => n | _ => 0 end <= size bytes /\
  (match e with log_bad _ => True | log_tail n => valid + n = size bytes /\ 0 < n
   | log_clean => valid = size bytes end).
Proof.
  induction 1 as [|bytes r n rest records valid e Hd Hn Hpos H1 IH|bytes Hne Hd|bytes e Hne Hd Hi Hnone].
  - done.
  - rewrite size_app. destruct e; lia.
  - assert (size bytes <> 0) by by intros ?%size_0_nil.
    pose proof (size_nonneg bytes). lia.
  - pose proof (size_nonneg bytes). lia.
Qed.
End LogParse.

(** ** Lemmas: the loop *)

Lemma remove_consumed_prefix_drop buffer consumed :
  0 <= consumed <= size buffer ->
  remove_consumed_prefix buffer consumed = drop (Z.to_nat consumed) buffer.
Proof.
  intros Hc. unfold remove_consumed_prefix. destruct (consumed =? 0) eqn:E0; bool_to_prop.
  { by subst. }
  destruct (consumed =? size buffer) eqn:E; bool_to_prop; [|done].
  subst. rewrite to_nat_size. by rewrite drop_all.
Qed.

Section ReplayLoop.
Context {decode : list byte -> result WalDecodeResult} `{!RecordDecoder decode}.
Context (chunk_size : Z) (Hchunk : 0 < chunk_size).
Context {A : Type} (replay : WalPutRecord -> M (world * A) unit).
(** What the callback does to its state while the file system is [f0]: [step],
    under an invariant, unless a system call or [thrown] stops it. *)
Context (f0 : fsys) (step : WalPutRecord -> A -> A) (inv : A -> Prop) (thrown : exn -> Prop).
Hypothesis (Hcallback : forall r s, fs s.1 = f0 -> inv s.2 -> WalPutRecord_ok r ->
  wp (replay r) s (fun o s' =>
    fs s'.1 = f0 /\
    match o with
    | Done _ => s'.2 = step r s.2 /\ inv (step r s.2) /\ (faulty s'.1 -> faulty s.1)
    | Raised x => s'.2 = s.2 /\ faulty s.1 /\ thrown x
    | Crashed => s'.2 = s.2 /\ faulty s.1
    end)).

(** The outcome of a replay, from a state and a partial result, of what parses as
    [records], [valid], [e]. *)
Definition replay_post (s : world * A) (result : WalReplayResult)
    (records : list WalPutRecord) (valid : Z) (e : log_end)
    (o : outcome WalReplayResult) (s' : world * A) : Prop :=
  let interrupted := faulty s.1 /\ exists k, s'.2 = apply_all step (take k records) s.2 in
  fs s'.1 = fs s.1 /\
  match o with
  | Done r =>
    s'.2 = apply_all step records s.2 /\ inv s'.2 /\ (faulty s'.1 -> faulty s.1) /\
    records_replayed r = u64 (records_replayed result + size records) /\
    valid_bytes r = u64 (valid_bytes result + valid) /\
    (e = log_clean /\ incomplete_tail_bytes r = incomplete_tail_bytes result \/
     e = log_tail (incomplete_tail_bytes r))
  | Raised x =>
    (exists err, e = log_bad err /\ x = WalFormatError (u64 (valid_bytes result + valid)) err /\
       s'.2 = apply_all step records s.2) \/
    ((exists errno, x = system_error errno "failed to read WAL") \/ thrown x) /\ interrupted
  | Crashed => interrupted
  end.

(** One more record in front. *)
Lemma replay_post_cons s w1 result r n records valid e o s' :
  fs w1 = fs s.1 -> (faulty w1 -> faulty s.1) ->
  replay_post (w1, step r s.2)
    (MkWalReplayResult (u64 (records_replayed result + 1)) (u64 (valid_bytes result + n))
       (incomplete_tail_bytes result)) records valid e o s' ->
  replay_post s result (r :: records) (n + valid) e o s'.
Proof.
  intros Hfs Hs [Hfs' Ho]. split; [by rewrite Hfs'|]. cbn [fst snd] in *.
  assert (forall a b c, u64 (u64 (a + b) + c) = u64 (a + (b + c))) as Hu64.
  { intros a b c. unfold u64. rewrite Z.add_mod_idemp_l by lia. f_equal. lia. }
  destruct o as [res|x|]; cbn [records_replayed valid_bytes incomplete_tail_bytes] in Ho.
  - destruct Ho as (Ha & Hi & Hs' & Hr & Hv & He). split; [done|]. split; [done|].
    split; [auto|]. split; [|split; [|done]].
    + rewrite Hr, Hu64, size_cons. f_equal. lia.
    + by rewrite Hv, Hu64.
  - destruct Ho as [(err & -> & -> & Ha)|(Hx & Hw & k & Ha)].
    + left. exists err. by rewrite Hu64.
    + right. split; [done|]. split; [auto|]. by exists (S k).
  - destruct Ho as (Hw & k & Ha). split; [auto|]. by exists (S k).
Qed.

Definition measure (file buffer : list byte) (offset consumed : Z) (reached_end : bool) : Z :=
  2 * (size file - offset) + (size buffer - consumed) + (if reached_end then 0 else 1).

(** A refill keeps what is pending and comes closer to the end. *)
Lemma wp_refill file i offset buffer consumed s records valid e result
    (next : bool -> list byte -> Z -> M (world * A) WalReplayResult) :
  now (inode (fs s.1) i) = file -> 0 <= offset <= size file -> 0 <= consumed <= size buffer ->
  (forall w1 reached_end chunk,
     fs w1 = fs s.1 -> (faulty w1 -> faulty s.1) ->
     let buffer' := drop (Z.to_nat consumed) buffer ++ chunk in
     let offset' := offset + size chunk in
     offset' <= size file -> (reached_end = true -> offset' = size file) ->
     buffer' ++ drop (Z.to_nat offset') file =
       drop (Z.to_nat consumed) buffer ++ drop (Z.to_nat offset) file ->
     measure file buffer' offset' 0 reached_end < measure file buffer offset consumed false ->
     wp (next reached_end buffer' offset') (w1, s.2)
        (replay_post (w1, s.2) result records valid e)) ->
  wp ('(reached_end, buffer, offset) ← in_world (read_next_chunk chunk_size i offset
        (remove_consumed_prefix buffer consumed));
      next reached_end buffer offset) s (replay_post s result records valid e).
Proof.
  intros Hfile Ho Hc Hnext. rewrite remove_consumed_prefix_drop by done.
  wp_step. apply wp_in_world. unfold read_next_chunk. wp_step. apply wp_sys_query.
  - intros w1 Hf Hs. rewrite Hfile. wp_go. cbn [fst snd].
    set (chunk := subspan offset chunk_size file).
    assert (chunk = take (Z.to_nat chunk_size) (drop (Z.to_nat offset) file)) as Hdef by done.
    assert (size chunk = Z.min chunk_size (size file - offset)) as Hsize.
    { rewrite Hdef. unfold size in *. rewrite length_take, length_drop. lia. }
    eapply wp_mono; [apply Hnext; [done|done|lia| | |]|].
    + intros Hlt. bool_to_prop. lia.
    + rewrite <-app_assoc. f_equal. rewrite <-(take_drop (Z.to_nat chunk_size) (drop (Z.to_nat offset) file)).
      rewrite <-Hdef. f_equal. rewrite drop_drop.
      destruct (decide (size file - offset <= chunk_size)).
      * rewrite !drop_ge by (unfold size in *; lia). done.
      * f_equal. lia.
    + unfold measure. rewrite size_app, size_drop by done.
      destruct (size chunk <? chunk_size) eqn:E; bool_to_prop; lia.
    + intros o s' [Hfs' Hpost]. split; [by rewrite Hfs'|]. cbn [fst snd] in *.
      destruct o as [res|x|].
      * destruct Hpost as (? & ? & ? & ?). split; [done|]. split; [done|]. split; [auto|done].
      * destruct Hpost as [?|(? & ? & ?)]; auto.
      * destruct Hpost as (? & ?). auto.
  - intros errno w1 Hf Hs. cbn [and_then]. unfold throw_read_error. rewrite wp_throw. cbn [fst snd].
    split; [done|]. right. split; [eauto|]. split; [done|]. by exists 0%nat.
  - intros w1 Hf Hs. split; [done|]. split; [done|]. by exists 0%nat.
Qed.

(** Nothing is left of the file. *)
Lemma replay_post_clean s result records valid e :
  fs s.1 = f0 -> inv s.2 -> in_u 64 (records_replayed result) -> in_u 64 (valid_bytes result) ->
  log_parse decode [] records valid e -> replay_post s result records valid e (Done result) s.
Proof.
  intros Hf0 Hinv Hr64 Hv64 Hparse.
  inversion Hparse as [|bytes r n rest ? ? ? Hd Hn Hpos _ Heq|?|?]; subst; try done.
  - split; [done|]. rewrite !Z.add_0_r. split; [done|]. split; [done|]. split_and!; [done|..|auto];
      change (size (@nil WalPutRecord)) with 0; rewrite ?Z.add_0_r, u64_small; done.
  - apply app_eq_nil in Heq as [-> ->]. change (size (@nil byte)) with 0 in Hpos. lia.
Qed.

(** Only a torn record is left. *)
Lemma replay_post_tail s result records valid e available :
  fs s.1 = f0 -> inv s.2 -> in_u 64 (records_replayed result) -> in_u 64 (valid_bytes result) ->
  available <> [] -> log_parse decode available records valid e ->
  decode available = Ok (make_decode_error WalDecodeError.incomplete_record) ->
  replay_post s result records valid e
    (Done (MkWalReplayResult (records_replayed result) (valid_bytes result) (size available))) s.
Proof.
  intros Hf0 Hinv Hr64 Hv64 Hne Hparse Hd.
  destruct (log_parse_error_inv _ _ _ _ _ Hne Hparse Hd) as (-> & -> & ->).
  rewrite decide_True by done. split; [done|]. rewrite Z.add_0_r.
  split; [done|]. split; [done|]. split_and!; [done|..|by right]; simpl;
    change (size (@nil WalPutRecord)) with 0; rewrite ?Z.add_0_r, u64_small; done.
Qed.

(** The next bytes are no record, whatever follows them. *)
Lemma replay_post_bad s result records valid e available rest err :
  in_u 64 (valid_bytes result) -> available ++ rest <> [] -> log_parse decode (available ++ rest) records valid e ->
  decode available = Ok (make_decode_error err) -> err <> WalDecodeError.incomplete_record ->
  replay_post s result records valid e (Raised (WalFormatError (valid_bytes result) err)) s.
Proof.
  intros Hv64 Hne Hparse Hd Hinc. pose proof (decoder_stable _ rest _ Hd Hinc) as Hd'.
  destruct (log_parse_error_inv _ _ _ _ _ Hne Hparse Hd') as (-> & -> & ->).
  rewrite decide_False by done. split; [done|]. left. exists err. by rewrite Z.add_0_r, u64_small.
Qed.

(** A record is next: the callback gets it, and what goes on sees the rest. *)
Lemma wp_replay_record s result records valid e available rest r n (next : M (world * A) WalReplayResult) :
  fs s.1 = f0 -> inv s.2 -> WalPutRecord_ok r ->
  log_parse decode (available ++ rest) records valid e ->
  decode available = Ok (MkWalDecodeResult (Some r) WalDecodeError.none n) ->
  (forall w1 records' valid', fs w1 = f0 -> inv (step r s.2) ->
     log_parse decode (drop (Z.to_nat n) (available ++ rest)) records' valid' e ->
     wp next (w1, step r s.2) (replay_post (w1, step r s.2)
       (MkWalReplayResult (u64 (records_replayed result + 1)) (u64 (valid_bytes result + n))
          (incomplete_tail_bytes result)) records' valid' e)) ->
  wp (replay r;; next) s (replay_post s result records valid e).
Proof.
  intros Hf0 Hinv Hrok Hparse Hd Hnext. wp_step. eapply wp_mono; [by apply Hcallback|]. intros oc s1 [Hfs1 Hoc].
  pose proof (decoder_stable _ rest _ Hd ltac:(done)) as Hd'.
  destruct (log_parse_record_inv _ _ _ _ _ _ Hparse Hd') as (records' & valid' & -> & -> & Hp).
  destruct oc as [u|x|]; cbn [and_then].
  - destruct Hoc as (Hs2 & Hinv' & Hs1). destruct s1 as [w1 a1]. cbn [fst snd] in *. subst a1.
    eapply wp_mono; [by apply Hnext|]. intros o s'. apply (replay_post_cons s w1); [congruence|done].
  - destruct Hoc as (Hs2 & Hs1 & Hx). split; [congruence|]. right. split; [by right|]. split; [done|]. by exists 0%nat.
  - destruct Hoc as (Hs2 & Hs1). split; [congruence|]. split; [done|]. by exists 0%nat.
Qed.

Lemma wp_replay_loop fuel : forall i file offset buffer consumed reached_end result records valid e s,
  fs s.1 = f0 -> inv s.2 ->
  now (inode f0 i) = file -> 0 <= offset <= size file -> 0 <= consumed <= size buffer ->
  (reached_end = true -> offset = size file) ->
  in_u 64 (records_replayed result) -> in_u 64 (valid_bytes result) ->
  log_parse decode (drop (Z.to_nat consumed) buffer ++ drop (Z.to_nat offset) file) records valid e ->
  measure file buffer offset consumed reached_end < Z.of_nat fuel ->
  wp (replay_loop decode chunk_size replay fuel i offset buffer consumed reached_end result) s
     (replay_post s result records valid e).
Proof.
  induction fuel as [|fuel IH];
    intros i file offset buffer consumed reached_end result records valid e s
      Hf0 Hinv Hfile Ho Hc Hend Hr64 Hv64 Hparse Hfuel.
  { unfold measure in Hfuel. destruct reached_end; lia. }
  assert (wp ('(reached_end, buffer, offset) ← in_world (read_next_chunk chunk_size i offset
        (remove_consumed_prefix buffer consumed));
      replay_loop decode chunk_size replay fuel i offset buffer 0 reached_end result) s
      (replay_post s result records valid e) \/ reached_end = true) as Hrefill.
  { destruct reached_end; [by right|left].
    apply (wp_refill file i offset buffer consumed s records valid e result
      (fun reached_end buffer offset =>
         replay_loop decode chunk_size replay fuel i offset buffer 0 reached_end result)); try done.
    { by rewrite Hf0. }
    intros w1 reached_end chunk Hf Hs buffer' offset' Ho' Hend' Hpending Hm.
    pose proof (size_nonneg chunk). pose proof (size_nonneg buffer').
    apply (IH i file); cbn [fst snd]; try (done || lia || congruence).
    by rewrite drop_0, Hpending. }
  cbn [replay_loop]. destruct (consumed <? size buffer) eqn:E; bool_to_prop.
  2:{ destruct reached_end; [|by destruct Hrefill]. rewrite wp_ret.
      rewrite Hend, !drop_ge in Hparse by (done || (unfold size in *; lia)). by apply replay_post_clean. }
  set (available := drop (Z.to_nat consumed) buffer) in *. set (rest := drop (Z.to_nat offset) file) in *.
  assert (size available = size buffer - consumed) as Hsize by (apply size_drop; lia).
  assert (available <> []) as Hne by (intros Hnil; rewrite Hnil in Hsize; change (size (@nil byte)) with 0 in Hsize; lia).
  assert (available ++ rest <> []) as Hne' by by intros [Hnil _]%app_eq_nil.
  destruct (decoder_cases available) as (d & Hd & [(r & n & -> & Hrok & Hn)|(err & -> & Herr)]);
    wp_step; rewrite Hd; unfold lift, wp at 1; cbn [fst snd and_then].
  - unfold success. rewrite !bool_decide_true by (done || eauto). cbn [andb bytes_consumed record].
    wp_step. rewrite (proj2 (Z.eqb_neq n 0)), (proj2 (Z.ltb_ge (size available) n)) by lia.
    cbn [orb]. rewrite wp_throw_when_false. cbn [and_then].
    apply (wp_replay_record s result records valid e available rest r n); try done.
    intros w1 records' valid' Hf1 Hinv' Hp.
    rewrite drop_app_le in Hp by (unfold size in *; lia). unfold available in Hp. rewrite drop_drop in Hp.
    replace (Z.to_nat consumed + Z.to_nat n)%nat with (Z.to_nat (consumed + n)) in Hp by lia.
    destruct (consumed + n =? size buffer) eqn:Eend; bool_to_prop; apply (IH i file); try (done || lia || apply u64_range).
    + rewrite Eend, to_nat_size, drop_all in Hp. exact Hp.
    + unfold measure in *. change (size (@nil byte)) with 0. lia.
    + unfold measure in *. lia.
  - unfold success. cbn [record error make_decode_error]. rewrite bool_decide_false by by intros [? [=]]. cbn [andb].
    destruct (decide (err = WalDecodeError.incomplete_record)) as [->|Hinc].
    + rewrite bool_decide_true by done. cbn [negb]. destruct reached_end; [|by destruct Hrefill]. rewrite wp_ret, <-Hsize.
      unfold rest in Hparse. rewrite Hend, drop_ge, app_nil_r in Hparse by (done || (unfold size; lia)). by apply replay_post_tail.
    + rewrite bool_decide_false by done. cbn [negb]. rewrite wp_throw. by eapply replay_post_bad.
Qed.
Lemma wp_replay_file p s bytes records valid e :
  fs s.1 = f0 -> inv s.2 ->
  file_of f0 p = Some bytes -> log_parse decode bytes records valid e ->
  wp (replay_file decode chunk_size replay p) s
     (replay_post s (MkWalReplayResult 0 0 0) records valid e).
Proof.
  intros Hf0 Hinv Hfile Hparse. unfold file_of in Hfile.
  destruct (now (entry f0 p)) as [i|] eqn:Hi; [|done]. injection Hfile as Hfile.
  unfold replay_file. wp_step. apply wp_in_world, wp_sys_query.
  - intros w1 Hf Hs. rewrite Hf0, Hi. cbn [and_then]. wp_step. apply wp_in_world.
    unfold read_fs, wp at 1. cbn [fst snd and_then]. rewrite Hf, Hf0, Hfile.
    pose proof (size_nonneg bytes).
    eapply wp_mono; [apply (wp_replay_loop _ i bytes) with
      (records := records) (valid := valid) (e := e); cbn [fst snd]; try (done || congruence || (cbn; lia))|].
    + unfold measure, replay_fuel, size. simpl. lia.
    + intros o s' [Hfs' Hpost]. cbn [fst snd] in *. split; [by rewrite Hfs'|].
      destruct o as [res|x|].
      * destruct Hpost as (? & ? & ? & ?). split; [done|]. split; [done|]. split; [auto|done].
      * destruct Hpost as [?|(? & ? & ?)]; [by left|right; by split_and!; [|auto|]].
      * destruct Hpost as (? & ?). by split; [auto|].
  - intros errno w1 Hf Hs. cbn [and_then]. unfold throw_read_error. rewrite wp_throw. cbn [fst snd].
    split; [done|]. right. split; [eauto|]. split; [done|]. by exists 0%nat.
  - intros w1 Hf Hs. split; [done|]. split; [done|]. by exists 0%nat.
Qed.
End ReplayLoop.

(** A callback that only updates its state. *)
Lemma wp_replay_updating {A} (step : WalPutRecord -> A -> A) p s bytes records valid e :
  file_of (fs s.1) p = Some bytes -> log_parse decode_wal_record bytes records valid e ->
  wp (replay_wal p (Some (updating step))) s
     (replay_post step (fun _ => True) (fun _ => False) s (MkWalReplayResult 0 0 0) records valid e).
Proof.
  intros Hfile Hparse. unfold replay_wal.
  eapply (wp_replay_file read_chunk_size ltac:(done) (updating step) (fs s.1)); [|done..].
  intros r s' Hf _ _. unfold updating. apply wp_set_this. by split_and!.
Qed.

(** A log written by [WalWriter::append]: whole records, then a torn one or nothing. *)
Lemma log_parse_encoded records encoded tail more last_record :
  Forall2 (fun r bytes => WalPutRecord_ok r /\ encode_wal_record r = Ok bytes) records encoded ->
  WalPutRecord_ok last_record -> encode_wal_record last_record = Ok (tail ++ more) -> more <> [] ->
  log_parse decode_wal_record (concat encoded ++ tail) records (size (concat encoded))
    (if decide (tail = []) then log_clean else log_tail (size tail)).
Proof.
  intros H Hok Hlast Hmore. induction H as [|r bytes records encoded [Hr He] _ IH]; simpl.
  - destruct (decide (tail = [])) as [->|]; [constructor|].
    apply log_parse_tail; [done|]. eapply decode_encoded_prefix; [apply Hok|done..].
  - rewrite <-app_assoc, size_app. eapply log_parse_record; [by apply decode_encoded|done| |done].
    destruct (decode_wal_record_cases bytes) as (d & Hd & Hc).
    rewrite <-(app_nil_r bytes) in Hd. rewrite (decode_encoded _ _ [] Hr He) in Hd.
    injection Hd as <-. destruct Hc as [(r' & n & [= -> <-] & _ & Hn)|(e & [=] & _)]. lia.
Qed.

Lemma wp_repair_wal_tail p r i bytes w :
  now (entry (fs w) p) = Some i -> now (inode (fs w) i) = bytes ->
  had_incomplete_tail r = true -> 0 <= valid_bytes r -> 0 <= incomplete_tail_bytes r ->
  valid_bytes r + incomplete_tail_bytes r = size bytes -> size bytes <= max_u64 ->
  let f1 := set_inode i (push (take (Z.to_nat (valid_bytes r)) bytes) (inode (fs w) i)) (fs w) in
  wp (repair_wal_tail p r) w (fun o w' =>
    match o with
    | Done _ => synced f1 i (fs w') /\ (faulty w' -> faulty w)
    | _ => (fs w' = fs w \/ fs w' = f1) /\ faulty w
    end).
Proof.
  intros Hi Hb Htail Hv0 Hn0 Hsum Hmax f1. unfold repair_wal_tail. rewrite Htail. cbn [negb].
  wp_step. apply wp_throw_when; intros Hc; bool_to_prop; [lia|]. cbn [and_then].
  assert (file_of (fs w) p = Some bytes) as Hfile by (unfold file_of; by rewrite Hi, Hb).
  wp_step. apply wp_sys_query.
  2:{ intros e w1 Hf Hs. wp_go. auto. }
  2:{ intros w1 Hf Hs. cbn [and_then]. auto. }
  intros w1 Hf Hs. rewrite Hfile. cbn [and_then]. rewrite Hsum, Z.eqb_refl. cbn [negb].
  wp_step. rewrite wp_throw_when_false. cbn [and_then].
  wp_step. apply wp_sys_change; rewrite ?Hf, ?Hi; cbn [fst snd].
  2:{ intros e w2 Hf2 Hs2. wp_go. split; [by left|auto]. }
  2:{ intros w2 Hf2 Hs2. cbn [and_then]. split; [|auto]. right. rewrite Hf2, Hb. unfold f1.
      assert (Z.to_nat (valid_bytes r) - length bytes = 0)%nat as -> by (unfold size in *; lia).
      by rewrite app_nil_r. }
  intros w2 Hf2 Hs2. rewrite Hb in Hf2.
  assert (Z.to_nat (valid_bytes r) - length bytes = 0)%nat as Hz by (unfold size in *; lia).
  rewrite Hz, app_nil_r in Hf2. fold f1 in Hf2. cbn [and_then].
  assert (create_if_missing p f1 = (SysOk i, f1)) as Hcreate.
  { unfold create_if_missing, f1. by rewrite entry_set_inode, Hi. }
  wp_step. eapply wp_mono; [apply wp_wal_open|]. intros o w3 (i' & f' & Hc' & H3).
  rewrite Hf2, Hcreate in Hc'. injection Hc' as <- <-.
  destruct o as [writer|e|]; cbn [and_then];
    [|destruct H3 as [Hf3 Hs3]; rewrite Hf2 in Hf3; split; [right; by destruct Hf3|auto]..].
  destruct H3 as (Hf3 & Hs3 & ->).
  assert (u64 (size (now (inode f1 i))) = valid_bytes r) as Hsize.
  { unfold f1. rewrite inode_set_inode, decide_True by done. simpl. rewrite size_take by lia.
    apply u64_small. unfold in_u, max_u64 in *. lia. }
  unfold wal_size_bytes. cbn [size_bytes_]. rewrite Hsize, Z.eqb_refl. cbn [negb].
  wp_step. rewrite wp_throw_when_false. cbn [and_then].
  pose proof (wp_wal_sync i (w3, MkWalWriter p (Some i) buffered (valid_bytes r) false)
    ltac:(done)) as Hsync.
  unfold wp, with_object in *. destruct (wal_sync _) as [o [w4 this4]]. cbn [fst snd] in *.
  rewrite Hf3 in Hsync. destruct o as [u|e|].
  - destruct Hsync as (Hsync & _ & Hs4). split; [exact Hsync|auto].
  - destruct Hsync as (_ & -> & _ & Hs4). auto.
  - destruct Hsync as (-> & Hs4). auto.
Qed.

(** ** Properties *)

(** Two records and the first bytes of a third. *)
Definition example_torn : list byte := take 7 example_bytes.
Definition example_log_bytes : list byte := concat [example_bytes; example_bytes] ++ example_torn.
Definition count_records : WalPutRecord -> nat -> nat := fun _ n => S n.

Lemma example_log_records :
  Forall2 (fun r bytes => WalPutRecord_ok r /\ encode_wal_record r = Ok bytes)
    [example_record; example_record] [example_bytes; example_bytes].
Proof.
  pose proof (conj example_record_ok example_encoded) as H.
  constructor; [exact H|constructor; [exact H|constructor]].
Qed.

Lemma example_torn_encoded : encode_wal_record example_record = Ok (example_torn ++ drop 7 example_bytes).
Proof. rewrite example_encoded. unfold example_torn. by rewrite take_drop. Qed.

Lemma example_log_parse :
  log_parse decode_wal_record example_log_bytes [example_record; example_record] 116 (log_tail 7).
Proof.
  pose proof (log_parse_encoded _ _ example_torn (drop 7 example_bytes) example_record
    example_log_records example_record_ok example_torn_encoded) as H.
  replace (size (concat [example_bytes; example_bytes])) with 116 in H by (vm_compute; reflexivity).
  replace (size example_torn) with 7 in H by (vm_compute; reflexivity).
  rewrite decide_False in H by (vm_compute; discriminate). apply H. vm_compute. discriminate.
Qed.

(** C26: reading the log in chunks is decoding the whole file.  If the file parses
    as some records and an end, a replay that the system calls do not interrupt
    hands exactly these records to the callback, in order, and returns their
    count, their bytes and the size of the torn tail, or throws [WalFormatError]
    with the offset of the damage; an interrupted one has replayed the first few
    records.  The file system is not changed. *)
Theorem replay_wal_spec {A} p (replay : WalPutRecord -> A -> A) w a o w' a' bytes records valid e :
  file_of (fs w) p = Some bytes -> log_parse decode_wal_record bytes records valid e ->
  replay_wal p (Some (updating replay)) (w, a) = (o, (w', a')) ->
  fs w' = fs w /\
  match o with
  | Done r =>
    a' = apply_all replay records a /\
    records_replayed r = u64 (size records) /\ valid_bytes r = u64 valid /\
    e = (if had_incomplete_tail r then log_tail (incomplete_tail_bytes r) else log_clean)
  | Raised x =>
    (exists err, e = log_bad err /\ x = WalFormatError (u64 valid) err /\
       a' = apply_all replay records a) \/
    (exists errno, x = system_error errno "failed to read WAL") /\ script w <> [] /\
      exists k, a' = apply_all replay (take k records) a
  | Crashed => script w <> [] /\ exists k, a' = apply_all replay (take k records) a
  end.
Proof.
  intros Hfile Hparse Hrun.
  pose proof (wp_replay_updating replay p (w, a) bytes records valid e Hfile Hparse) as Hw.
  unfold wp in Hw.
  rewrite Hrun in Hw. destruct Hw as [Hfs Ho]. cbn [fst snd] in *. split; [done|].
  destruct o as [r|x|].
  - destruct Ho as (Ha & _ & _ & Hr & Hv & He). split_and!; [done|done|done|].
    unfold had_incomplete_tail. destruct He as [[-> ->]| ->]; [done|].
    apply log_parse_bounds in Hparse as (_ & _ & Hpos). by rewrite (proj2 (Z.eqb_neq _ 0)) by lia.
  - destruct Ho as [Ho|([Hx|[]] & Ho)]; [by left|by right].
  - exact Ho.
Qed.

Lemma replay_wal_spec_witness :
  let r := replay_wal example_log (Some (updating count_records))
             (World (single_file example_log example_log_bytes) [], 0%nat) in
  r.1 = Done (MkWalReplayResult 2 116 7) /\ r.2.2 = 2%nat.
Proof.
  intros r.
  destruct (replay_wal_spec example_log count_records (World (single_file example_log example_log_bytes) [])
    0%nat r.1 r.2.1 r.2.2 example_log_bytes _ _ _ eq_refl example_log_parse) as [_ H].
  - fold r. by destruct r as [o [w a]].
  - assert (r.1 = Done (MkWalReplayResult 2 116 7)) as Ho by (vm_compute; reflexivity).
    rewrite Ho in H. destruct H as [Ha _]. by split.
Defined.

(** A log of appended records with the last one torn at any point, which is
    what a power loss leaves, replays to exactly the whole records and reports
    the torn bytes. *)
Theorem replay_appended_log {A} p (replay : WalPutRecord -> A -> A) w a records encoded
    torn more last_record :
  Forall2 (fun r bytes => WalPutRecord_ok r /\ encode_wal_record r = Ok bytes) records encoded ->
  WalPutRecord_ok last_record -> encode_wal_record last_record = Ok (torn ++ more) -> more <> [] ->
  file_of (fs w) p = Some (concat encoded ++ torn) -> script w = [] ->
  size (concat encoded ++ torn) <= max_u64 -> size records <= max_u64 ->
  exists w', replay_wal p (Some (updating replay)) (w, a) =
    (Done (MkWalReplayResult (size records) (size (concat encoded)) (size torn)),
     (w', apply_all replay records a)) /\ fs w' = fs w.
Proof.
  intros Hall Hok Hlast Hmore Hfile Hscript Hmax Hcount.
  pose proof (log_parse_encoded _ _ _ _ _ Hall Hok Hlast Hmore) as Hparse.
  pose proof (wp_replay_updating replay p (w, a) _ _ _ _ Hfile Hparse) as Hw. unfold wp in Hw.
  destruct (replay_wal p (Some (updating replay)) (w, a)) as [o [w' a']]. destruct Hw as [Hfs Ho].
  cbn [fst snd] in *. destruct o as [[n v t]|x|].
  - destruct Ho as (-> & _ & _ & Hn & Hv & He). simpl in Hn, Hv, He. exists w'. split; [|done].
    rewrite size_app in Hmax. pose proof (size_nonneg torn). pose proof (size_nonneg records).
    pose proof (size_nonneg (concat encoded)).
    rewrite u64_small in Hn, Hv by (unfold in_u, max_u64 in *; lia). subst.
    do 3 f_equal. destruct (decide (torn = [])) as [->|]; [by destruct He as [[_ ->]|]|].
    destruct He as [[? _]|[= ->]]; done.
  - destruct Ho as [(err & Hbad & _)|(_ & Hf & _)]; [by destruct (decide _)|by destruct Hf].
  - by destruct Ho as [Hf _].
Qed.

Lemma replay_appended_log_witness :
  exists w', replay_wal example_log (Some (updating count_records))
      (World (single_file example_log example_log_bytes) [], 0%nat) =
    (Done (MkWalReplayResult 2 116 7), (w', 2%nat)) /\ fs w' = single_file example_log example_log_bytes.
Proof.
  pose proof (replay_appended_log example_log count_records (World (single_file example_log example_log_bytes) [])
    0%nat _ _ example_torn (drop 7 example_bytes) example_record
    example_log_records example_record_ok example_torn_encoded) as H.
  replace (size (concat [example_bytes; example_bytes])) with 116 in H by (vm_compute; reflexivity).
  replace (size example_torn) with 7 in H by (vm_compute; reflexivity).
  apply H; [vm_compute; discriminate|apply durable_file_of, single_file_durable|reflexivity|
    vm_compute; discriminate|vm_compute; discriminate].
Defined.

(** C27: repairing a log whose size is the one replay saw cuts it back to its valid
    bytes: for good when it returns, and otherwise a power loss leaves an earlier
    log or the repaired one.  It touches nothing when there is no torn tail. *)
Theorem repair_wal_tail_spec p r i bytes w o w' :
  now (entry (fs w) p) = Some i -> now (inode (fs w) i) = bytes ->
  0 <= valid_bytes r -> 0 <= incomplete_tail_bytes r ->
  valid_bytes r + incomplete_tail_bytes r = size bytes -> size bytes <= max_u64 ->
  repair_wal_tail p r w = (o, w') ->
  let repaired := take (Z.to_nat (valid_bytes r)) bytes in
  if had_incomplete_tail r then
    match o with
    | Done _ => forall f, crash (fs w') f -> now (inode f i) = repaired
    | _ => script w <> [] /\ forall f, crash (fs w') f ->
        now (inode f i) = repaired \/ now (inode f i) ∈ possible (inode (fs w) i)
    end
  else o = Done tt /\ w' = w /\ repaired = bytes.
Proof.
  intros Hi Hb Hv Hn Hsum Hmax Hrun repaired. destruct (had_incomplete_tail r) eqn:Htail.
  - pose proof (wp_repair_wal_tail p r i bytes w Hi Hb Htail Hv Hn Hsum Hmax) as Hw.
    unfold wp in Hw. rewrite Hrun in Hw. cbn [fst snd] in Hw. fold repaired in Hw.
    set (f1 := set_inode i (push repaired (inode (fs w) i)) (fs w)) in *.
    assert (inode f1 i = push repaired (inode (fs w) i)) as Hi1.
    { unfold f1. by rewrite inode_set_inode, decide_True. }
    assert (fs w' = fs w \/ fs w' = f1 -> forall f, crash (fs w') f ->
        now (inode f i) = repaired \/ now (inode f i) ∈ possible (inode (fs w) i)) as Hcrash.
    { intros Hfs f Hc. apply crash_inode with (i := i) in Hc.
      destruct Hfs as [Hfs|Hfs]; rewrite Hfs in Hc; [by right|].
      rewrite Hi1 in Hc. by apply possible_push in Hc. }
    destruct o as [u|e|].
    + intros f Hc. apply crash_inode with (i := i) in Hc.
      rewrite (synced_possible _ _ _ _ (proj1 Hw) Hc). by rewrite Hi1.
    + destruct Hw as [Hfs Hs]. auto.
    + destruct Hw as [Hfs Hs]. auto.
  - unfold repair_wal_tail in Hrun. rewrite Htail in Hrun. injection Hrun as <- <-.
    split_and!; [done|done|]. unfold had_incomplete_tail in Htail. bool_to_prop.
    unfold repaired. rewrite firstn_all2; [done|]. unfold size in *. lia.
Qed.

Lemma repair_wal_tail_spec_witness :
  let w := World (single_file example_log example_log_bytes) [] in
  let r := repair_wal_tail example_log (MkWalReplayResult 2 116 7) w in
  r.1 = Done tt /\ forall f, crash (fs r.2) f -> now (inode f 0) = take 116 example_log_bytes.
Proof.
  intros w r. assert (r.1 = Done tt) as Ho by (vm_compute; reflexivity). split; [exact Ho|].
  pose proof (repair_wal_tail_spec example_log (MkWalReplayResult 2 116 7) 0 example_log_bytes w r.1 r.2) as H.
  rewrite Ho in H. apply H; try (vm_compute; discriminate); try (vm_compute; reflexivity).
Defined.
