(* ===== verification/SegmentBlock.v ===== *)
(** * Segment blocks (src/segment_block.cpp, src/segment_block_codec.cpp)

    A block holds up to 256 samples of one series in strictly increasing timestamp
    order.  The codec frames it like a WAL record, with the sample count in the
    header; unlike the WAL decoder it accepts tags in one order only, so a block
    has exactly one encoding ([segment_block_canonical]). *)

From stdpp Require Import base tactics option numbers list strings.
From Stdlib Require Import ZArith Lia Strings.Byte Sorted.
From S2P Require Import Prelude Errors Model ByteCodec Crc32c KeyCodec View.

Definition max_samples_per_segment_block : Z := 256.

Record SegmentBlock := MkSegmentBlock { block_series : SeriesKey; block_samples : list Sample }.

#[export] Instance SegmentBlock_eq_dec : EqDecision SegmentBlock.
Proof. solve_decision. Defined.

(** The constructor's loop: some timestamp is not greater than its predecessor. *)
Fixpoint adjacent_not_increasing (l : list Sample) : bool :=
  match l with
  | previous :: ((current :: _) as rest) =>
    (timestamp current ≼? timestamp previous) || adjacent_not_increasing rest
  | _ => false
  end.

(** [SegmentBlock::SegmentBlock] *)
Definition make_SegmentBlock (s : SeriesKey) (l : list Sample) : result SegmentBlock :=
  throw_if (bool_decide (l = [])) (invalid_argument "segment block cannot be empty");;
  throw_if (max_samples_per_segment_block <? size l)
    (length_error "segment block contains too many samples");;
  throw_if (adjacent_not_increasing l)
    (invalid_argument "segment block timestamps must be strictly increasing");;
  Ok (MkSegmentBlock s l).

(** Accessors; [front] and [back] are of a non-empty vector. *)
Definition block_sample_count (b : SegmentBlock) : Z := size (block_samples b).
Definition default_sample : Sample := MkSample (MkTimestamp 0) (MkDouble 0).
Definition first_timestamp (b : SegmentBlock) : Timestamp :=
  timestamp (hd default_sample (block_samples b)).
Definition last_timestamp (b : SegmentBlock) : Timestamp :=
  timestamp (List.last (block_samples b) default_sample).

(** ** Codec *)

Module SegmentBlockDecodeError.
Inductive t :=
| none
| incomplete_block
| invalid_magic
| unsupported_version
| unsupported_flags
| invalid_length
| invalid_sample_count
| checksum_mismatch
| invalid_payload.

#[global] Instance t_eq_dec : EqDecision t.
Proof. solve_decision. Defined.
End SegmentBlockDecodeError.

Definition segment_block_magic : Z := 1262637891.     (* 0x4B425343 *)
Definition segment_block_version : Z := 1.
Definition segment_block_flags : Z := 0.
Definition max_segment_block_payload_size : Z := 16 * 1024 * 1024.
Definition segment_block_header_size : Z := 20.
Definition segment_block_checksum_size : Z := 4.
Definition encoded_sample_size : Z := 16.
Definition minimum_encoded_tag_size : Z := 8.

Record SegmentBlockDecodeResult := MkBlockResult {
  block : option SegmentBlock;
  block_error : SegmentBlockDecodeError.t;
  block_bytes_consumed : Z;
}.

(** [SegmentBlockDecodeResult::success] *)
Definition block_success (r : SegmentBlockDecodeResult) : bool :=
  bool_decide (is_Some (block r)) && bool_decide (block_error r = SegmentBlockDecodeError.none).

(** The loop over the samples. *)
Definition write_samples (w : ByteWriter) (l : list Sample) : ByteWriter :=
  foldl (fun w sample =>
    let timestamp_bits := u64 (nanoseconds_since_epoch (timestamp sample)) in
    let value_bits := bits (sample_value sample) in
    write_u64 (write_u64 w timestamp_bits) value_bits) w l.

Definition encode_block_payload (b : SegmentBlock) : result (list byte) :=
  w ← write_key_or "segment block string is too large" "segment block contains too many tags"
    new_writer (block_series b);
  Ok (writer_data (write_samples w (block_samples b))).

Definition make_block_decode_error (e : SegmentBlockDecodeError.t) : SegmentBlockDecodeResult :=
  MkBlockResult None e 0.

Fixpoint read_samples (sample_count : nat) (samples : list Sample) : Parser (list Sample) :=
  match sample_count with
  | O => mret samples
  | S n =>
    timestamp_bits ← read_u64;
    value_bits ← read_u64;
    let t := i64 timestamp_bits in
    let v := MkDouble value_bits in
    x ← p_lift (make_Sample (MkTimestamp t) v);
    read_samples n (samples ++ [x])
  end.

Definition decode_block_payload_body (sample_count : Z) : Parser SegmentBlock :=
  m ← read_string;
  tag_count ← read_u32;
  let sample_bytes := sample_count * encoded_sample_size in
  rem ← p_remaining;
  reject_if (rem <? sample_bytes);;
  let bytes_available_for_tags := rem - sample_bytes in
  reject_if (bytes_available_for_tags / minimum_encoded_tag_size <? tag_count);;
  ts ← read_sorted_tags (Z.to_nat tag_count) [];
  samples ← read_samples (Z.to_nat sample_count) [];
  rem ← p_remaining;
  reject_if (negb (rem =? 0));;
  s ← p_lift (make_SeriesKey m ts);
  p_lift (make_SegmentBlock s samples).

Definition decode_block_payload (payload : list byte) (sample_count : Z)
    : result (option SegmentBlock) :=
  match decode_block_payload_body sample_count (new_reader payload) with
  | Ok (Some (b, _)) => Ok (Some b)
  | Ok None => Ok None
  | Err (invalid_argument _) => Ok None
  | Err (length_error _) => Ok None
  | Err e => Err e
  end.

Definition encode_segment_block (b : SegmentBlock) : result (list byte) :=
  payload ← encode_block_payload b;
  throw_if (max_segment_block_payload_size <? size payload)
    (length_error "segment block payload is too large");;
  let payload_length := u32 (size payload) in
  let inverted_length := Z.lxor payload_length max_u32 in
  let sample_count := u32 (block_sample_count b) in
  let w := write_u32 new_writer segment_block_magic in
  let w := write_u16 w segment_block_version in
  let w := write_u16 w segment_block_flags in
  let w := write_u32 w payload_length in
  let w := write_u32 w inverted_length in
  let w := write_u32 w sample_count in
  let w := write_bytes w payload in
  let checksum := crc32c (writer_data w) in
  let w := write_u32 w checksum in
  Ok (writer_data w).

(** The header reads of [decode_segment_block]. *)
Definition read_block_header : Parser (Z * Z * Z * Z * Z * Z) :=
  magic ← read_u32;
  version ← read_u16;
  flags ← read_u16;
  payload_length ← read_u32;
  inverted_length ← read_u32;
  sample_count ← read_u32;
  mret (magic, version, flags, payload_length, inverted_length, sample_count).

Definition decode_segment_block (bytes : list byte) : result SegmentBlockDecodeResult :=
  if size bytes <? segment_block_header_size then
    Ok (make_block_decode_error SegmentBlockDecodeError.incomplete_block)
  else
  header ← read_block_header (new_reader bytes);
  match header with
  | None => Ok (make_block_decode_error SegmentBlockDecodeError.incomplete_block)
  | Some ((magic, version, flags, payload_length, inverted_length, sample_count), _) =>
    if negb (magic =? segment_block_magic) then
      Ok (make_block_decode_error SegmentBlockDecodeError.invalid_magic)
    else
    let expected_inverted_length := Z.lxor payload_length max_u32 in
    if negb (inverted_length =? expected_inverted_length)
       || (max_segment_block_payload_size <? payload_length) then
      Ok (make_block_decode_error SegmentBlockDecodeError.invalid_length)
    else
    let payload_size := payload_length in
    let protected_size := segment_block_header_size + payload_size in
    let total_block_size := protected_size + segment_block_checksum_size in
    if size bytes <? total_block_size then
      Ok (make_block_decode_error SegmentBlockDecodeError.incomplete_block)
    else
    let protected_bytes := first protected_size bytes in
    let checksum_bytes := subspan protected_size segment_block_checksum_size bytes in
    stored ← read_u32 (new_reader checksum_bytes);
    match stored with
    | None => Ok (make_block_decode_error SegmentBlockDecodeError.incomplete_block)
    | Some (stored_checksum, _) =>
      if negb (stored_checksum =? crc32c protected_bytes) then
        Ok (make_block_decode_error SegmentBlockDecodeError.checksum_mismatch)
      else if negb (version =? segment_block_version) then
        Ok (make_block_decode_error SegmentBlockDecodeError.unsupported_version)
      else if negb (flags =? segment_block_flags) then
        Ok (make_block_decode_error SegmentBlockDecodeError.unsupported_flags)
      else if (sample_count =? 0) || (max_samples_per_segment_block <? sample_count) then
        Ok (make_block_decode_error SegmentBlockDecodeError.invalid_sample_count)
      else
      let payload := subspan segment_block_header_size payload_size bytes in
      decoded_block ← decode_block_payload payload sample_count;
      match decoded_block with
      | None => Ok (make_block_decode_error SegmentBlockDecodeError.invalid_payload)
      | Some b => Ok (MkBlockResult (Some b) SegmentBlockDecodeError.none total_block_size)
      end
    end
  end.

(** * Specification *)

(** What the constructor guarantees. *)
Definition SegmentBlock_ok (b : SegmentBlock) : Prop :=
  SeriesKey_ok (block_series b) /\ block_samples b <> [] /\
  size (block_samples b) <= max_samples_per_segment_block /\
  samples_sorted (block_samples b) /\ Forall Sample_ok (block_samples b).

Fixpoint le_samples (l : list Sample) : list byte :=
  match l with
  | [] => []
  | x :: l' =>
    le 8 (u64 (nanoseconds_since_epoch (timestamp x))) ++ le 8 (bits (sample_value x)) ++ le_samples l'
  end.

Definition block_payload (b : SegmentBlock) : list byte :=
  le_series_key (block_series b) ++ le_samples (block_samples b).

(** A block the encoder accepts. *)
Definition SegmentBlock_fits (b : SegmentBlock) : Prop :=
  SeriesKey_fits (block_series b) /\ size (block_payload b) <= max_segment_block_payload_size.

Definition block_header (magic version flags payload_length inverted_length sample_count : Z)
    : list byte :=
  le 4 magic ++ le 2 version ++ le 2 flags ++ le 4 payload_length ++ le 4 inverted_length ++
  le 4 sample_count.

Definition block_protected (payload : list byte) (sample_count : Z) : list byte :=
  block_header segment_block_magic segment_block_version segment_block_flags
    (size payload) (Z.lxor (size payload) max_u32) sample_count ++ payload.

Definition block_frame (payload : list byte) (sample_count : Z) : list byte :=
  block_protected payload sample_count ++ le 4 (crc32c (block_protected payload sample_count)).

(** ** Lemmas: the constructor *)

Lemma adjacent_not_increasing_false l :
  adjacent_not_increasing l = false <-> samples_sorted l.
Proof.
  unfold samples_sorted. induction l as [|x l IH]; [split; [constructor|done]|].
  destruct l as [|y l]; [split; [repeat constructor|done]|].
  change (adjacent_not_increasing (x :: y :: l)) with
    ((timestamp y ≼? timestamp x) || adjacent_not_increasing (y :: l)).
  rewrite orb_false_iff, IH, leb_gt. split.
  - intros [Hxy Hs]. constructor; [done|]. inversion Hs as [|? ? _ Hall]; subst.
    constructor; [done|]. eapply Forall_impl; [exact Hall|]. intros z Hz. by etrans.
  - intros Hs. inversion Hs as [|? ? Hs' Hall]; subst. split; [|done]. by inversion Hall.
Qed.

Lemma make_SegmentBlock_Ok s l b :
  make_SegmentBlock s l = Ok b <->
  b = MkSegmentBlock s l /\ l <> [] /\ size l <= max_samples_per_segment_block /\ samples_sorted l.
Proof.
  rewrite <-adjacent_not_increasing_false. unfold make_SegmentBlock, throw_if.
  case_bool_decide; simpl; [split; [done|by intros (_ & ? & _)]|].
  destruct (max_samples_per_segment_block <? size l) eqn:E; bool_to_prop; simpl.
  { split; [done|]. intros (_ & _ & ? & _). lia. }
  destruct (adjacent_not_increasing l); simpl.
  { split; [done|]. by intros (_ & _ & _ & ?). }
  split; [intros [= <-]; done|]. by intros (-> & _).
Qed.

Lemma make_SegmentBlock_throws s l e :
  make_SegmentBlock s l = Err e ->
  (exists what, e = invalid_argument what) \/ (exists what, e = length_error what).
Proof.
  unfold make_SegmentBlock, throw_if. case_bool_decide; simpl; [intros [= <-]; eauto|].
  destruct (_ <? _); simpl; [intros [= <-]; eauto|].
  destruct (adjacent_not_increasing l); simpl; [intros [= <-]; eauto|done].
Qed.

(** ** Lemmas: the encoder *)

Lemma le_samples_app l k : le_samples (l ++ k) = le_samples l ++ le_samples k.
Proof. induction l as [|x l IH]; [done|]. simpl. by rewrite IH, <-!app_assoc. Qed.

Lemma size_le_samples l : size (le_samples l) = 16 * size l.
Proof.
  induction l as [|x l IH]; [done|]. cbn [le_samples]. rewrite !size_app, !size_le, IH, size_cons. lia.
Qed.

Lemma write_samples_data w l :
  Forall Sample_ok l -> writer_data (write_samples w l) = writer_data w ++ le_samples l.
Proof.
  unfold write_samples. intros Hl. revert w.
  induction Hl as [|x l (_ & Hv & _) _ IH]; intros w; [by rewrite app_nil_r|].
  cbn [foldl le_samples]. rewrite IH.
  pose proof (u64_range (nanoseconds_since_epoch (timestamp x))) as Ht. unfold in_u in *.
  rewrite !write_u64_le by lia. by rewrite <-!app_assoc.
Qed.

Lemma size_block_header a b c d e f : size (block_header a b c d e f) = 20.
Proof. unfold block_header. by autorewrite with chrono_size. Qed.

Lemma size_block_frame payload n : size (block_frame payload n) = 24 + size payload.
Proof. unfold block_frame, block_protected. rewrite !size_app, size_block_header, size_le. lia. Qed.

Lemma encode_block_payload_Ok b :
  SeriesKey_fits (block_series b) -> Forall Sample_ok (block_samples b) ->
  encode_block_payload b = Ok (block_payload b).
Proof.
  intros Hk Hs. unfold encode_block_payload, block_payload.
  edestruct (write_key_Ok) as (w & Hw & Hd); [exact Hk|]. rewrite Hw. cbn [mbind result_bind].
  by rewrite write_samples_data, Hd.
Qed.

Lemma block_counts b :
  SegmentBlock_ok b -> in_u 32 (block_sample_count b) /\ 1 <= block_sample_count b <= 256.
Proof.
  intros (_ & Hne & Hmax & _). unfold block_sample_count, in_u, max_samples_per_segment_block in *.
  destruct (block_samples b) as [|x l]; [done|]. rewrite size_cons in *. pose proof (size_nonneg l). lia.
Qed.

Lemma block_payload_u32 (payload : list byte) :
  size payload <= max_segment_block_payload_size ->
  in_u 32 (size payload) /\ in_u 32 (Z.lxor (size payload) max_u32).
Proof.
  intros Hp. pose proof (size_nonneg payload).
  assert (in_u 32 (size payload)) by (unfold in_u, max_segment_block_payload_size in *; lia).
  split; [done|]. apply in_u_lxor; [lia|done|done].
Qed.

Lemma encode_segment_block_frame b :
  SegmentBlock_ok b -> SegmentBlock_fits b ->
  encode_segment_block b = Ok (block_frame (block_payload b) (block_sample_count b)).
Proof.
  intros Hb [Hk Hsize]. destruct (block_counts b Hb) as [Hcount _].
  unfold encode_segment_block. rewrite encode_block_payload_Ok by (done || apply Hb).
  cbn [mbind result_bind]. unfold throw_if. rewrite (proj2 (Z.ltb_ge _ _)) by done.
  cbn [mbind result_bind]. destruct (block_payload_u32 _ Hsize) as [H32 Hinv].
  set (payload := block_payload b) in *. rewrite !u32_small by done.
  pose proof (crc32c_in_u32 (block_protected payload (block_sample_count b))) as Hcrc.
  unfold in_u in *. f_equal. rewrite write_u32_le by apply crc32c_in_u32. rewrite write_bytes_app.
  rewrite !write_u32_le, !write_u16_le by (unfold segment_block_version, segment_block_flags; lia).
  rewrite write_u32_le by (unfold segment_block_magic; lia).
  unfold block_frame, block_protected, block_header. simpl. by rewrite <-!app_assoc.
Qed.

(** The encoder accepts exactly the blocks that fit. *)
Lemma encode_segment_block_inv b bytes :
  SegmentBlock_ok b -> encode_segment_block b = Ok bytes ->
  SegmentBlock_fits b /\ bytes = block_frame (block_payload b) (block_sample_count b).
Proof.
  intros Hb H. assert (SegmentBlock_fits b) as Hf.
  { unfold encode_segment_block in H. destruct (encode_block_payload b) as [p|] eqn:Hp; [|done].
    assert (SeriesKey_fits (block_series b)) as Hk.
    { unfold encode_block_payload in Hp. result_inv. by eapply write_key_fits. }
    rewrite encode_block_payload_Ok in Hp by (done || apply Hb). injection Hp as <-.
    cbn [mbind result_bind] in H. result_inv. bool_to_prop. by split. }
  split; [done|]. rewrite encode_segment_block_frame in H by done. by injection H.
Qed.

(** ** Lemmas: payloads *)

Lemma reads_samples l acc :
  Forall Sample_ok l -> reads (read_samples (length l) acc) (le_samples l) (acc ++ l).
Proof.
  intros Hl. revert acc. induction Hl as [|x l Hx _ IH]; intros acc.
  - rewrite app_nil_r. apply reads_ret.
  - cbn [length read_samples le_samples]. pose proof Hx as (Ht & Hv & _).
    eapply reads_bind; [by apply reads_u64, u64_range|]. eapply reads_bind; [by apply reads_u64|].
    eapply reads_bind_nil.
    { apply reads_lift. rewrite i64_u64, Timestamp_eta by done.
      destruct (sample_value x) eqn:E. simpl. rewrite <-E. by apply make_Sample_id. }
    replace (acc ++ x :: l) with ((acc ++ [x]) ++ l) by by rewrite <-app_assoc. apply IH.
Qed.

Lemma read_samples_inv n acc r l r' :
  reader_ok r -> Forall Sample_ok acc -> read_samples n acc r = Ok (Some (l, r')) ->
  exists k, l = acc ++ k /\ length k = n /\ Forall Sample_ok l /\ consumed r (le_samples k) r'.
Proof.
  revert acc r. induction n as [|n IH]; intros acc r Hr Hacc H; cbn [read_samples] in H; parser_inv.
  - exists []. rewrite app_nil_r. split_and!; auto with chrono.
  - apply read_u64_inv in Hp as [Ht Hc]; [|done].
    apply read_u64_inv in Hp0 as [Hv Hc']; [|by eapply consumed_ok].
    match goal with H : make_Sample _ _ = Ok _ |- _ => apply make_Sample_Ok in H as [Hfin ->] end.
    apply IH in H as (k & -> & <- & Hok & Hc'').
    + eexists (_ :: k). rewrite <-app_assoc in *. split_and!; [done|done|done|].
      cbn [le_samples timestamp sample_value nanoseconds_since_epoch bits].
      rewrite u64_i64 by done. eauto with chrono.
    + by eapply consumed_ok.
    + apply Forall_app. split; [done|]. constructor; [|constructor].
      split_and!; simpl; [by apply i64_range|done|done].
Qed.

Lemma only_invalid_read_samples n l : only_invalid (read_samples n l).
Proof. revert l. induction n; intros l; simpl; eauto 15 with chrono_throws. Qed.
#[export] Hint Resolve only_invalid_read_samples : chrono_throws.

Lemma decode_block_payload_body_reads b :
  SegmentBlock_ok b -> SeriesKey_fits (block_series b) ->
  reads_all (decode_block_payload_body (block_sample_count b)) (block_payload b) b.
Proof.
  intros (Hk & Hne & Hmax & Hsorted & Hs) (Hm & Ht & Htags). pose proof Hk as (_ & Hok & Hkeys).
  unfold decode_block_payload_body, block_payload, le_series_key, block_sample_count.
  rewrite <-!app_assoc. pose proof (size_nonneg (tags (block_series b))).
  pose proof (size_le_tags (tags (block_series b))).
  eapply reads_all_bind; [by apply reads_string|].
  eapply reads_all_bind; [apply reads_u32; unfold in_u, max_u32 in *; lia|].
  apply reads_all_remaining. rewrite size_app, size_le_samples.
  unfold encoded_sample_size, minimum_encoded_tag_size.
  apply reads_all_reject_if; [apply Z.ltb_ge; lia|].
  apply reads_all_reject_if; [apply Z.ltb_ge, Z.div_le_lower_bound; lia|].
  rewrite !to_nat_size. eapply reads_all_bind; [by apply reads_sorted_tags|]. simpl app.
  rewrite <-(app_nil_r (le_samples _)).
  eapply reads_all_bind; [by apply reads_samples|]. simpl app.
  apply reads_all_remaining. apply reads_all_reject_if; [done|].
  rewrite <-(app_nil_r []). eapply reads_all_bind; [by apply reads_lift, make_SeriesKey_id|].
  apply reads_all_lift, make_SegmentBlock_Ok. by destruct b.
Qed.

Lemma decode_block_payload_Ok b :
  SegmentBlock_ok b -> SeriesKey_fits (block_series b) ->
  decode_block_payload (block_payload b) (block_sample_count b) = Ok (Some b).
Proof.
  intros Hb Hf. unfold decode_block_payload.
  by destruct (reads_all_new _ _ _ (decode_block_payload_body_reads b Hb Hf)) as (r' & -> & _).
Qed.

(** A payload that decodes is the encoding of its block. *)
Lemma decode_block_payload_inv payload n b :
  0 <= n -> decode_block_payload payload n = Ok (Some b) ->
  SegmentBlock_ok b /\ SeriesKey_fits (block_series b) /\ block_sample_count b = n /\
  payload = block_payload b.
Proof.
  unfold decode_block_payload. intros Hn H.
  destruct (decode_block_payload_body n (new_reader payload)) as [[[b0 r']|]|e] eqn:E;
    [|done|by destruct e].
  injection H as ->. unfold decode_block_payload_body in E. parser_inv.
  pose proof (new_reader_ok payload) as Hc0.
  apply read_string_inv in Hp as [Hm Hc1]; [|done].
  apply read_u32_inv in Hp0 as [Htc Hc2]; [|by eapply consumed_ok].
  match goal with H : read_sorted_tags _ _ _ = _ |- _ => rename H into Hrt end.
  match goal with H : read_samples _ _ _ = _ |- _ => rename H into Hrs end.
  apply read_sorted_tags_inv in Hrt as (ts & -> & Hlen & Hok & Hsorted & Hfits & Hc3);
    [|by eapply consumed_ok|constructor|constructor].
  apply read_samples_inv in Hrs as (l & -> & Hl & Hsok & Hc4); [|by eapply consumed_ok|constructor].
  match goal with H : negb _ = false |- _ => rename H into Hrem end. bool_to_prop.
  rewrite remaining_unread in Hrem by by eapply consumed_ok. apply size_0_nil in Hrem.
  match goal with H : make_SeriesKey _ _ = Ok _ |- _ => rename H into Hkey end.
  match goal with H : make_SegmentBlock _ _ = Ok _ |- _ => rename H into Hblock end.
  apply make_SeriesKey_Ok in Hkey as (Hne & _ & ->). simpl in Hok, Hsorted, Hsok, Hblock.
  rewrite sort_keys_sorted in Hblock by done.
  apply make_SegmentBlock_Ok in Hblock as (-> & Hne' & Hmax & Hinc).
  unfold in_u in Htc. assert (size ts = a0) as Hts by (unfold size; lia).
  split_and!; simpl; [split_and!|split_and!|unfold block_sample_count, size; simpl; lia|]; try done.
  - unfold max_u32. simpl. lia.
  - pose proof (consumed_trans _ _ _ _ _ Hc1 (consumed_trans _ _ _ _ _ Hc2
      (consumed_trans _ _ _ _ _ Hc3 Hc4))) as [_ Hall].
    rewrite unread_new, Hrem, app_nil_r in Hall. rewrite Hall.
    unfold block_payload, le_series_key. simpl. by rewrite Hts, <-!app_assoc.
Qed.

(** It throws nothing: both constructors' exceptions are caught. *)
Lemma decode_block_payload_total payload n : exists o, decode_block_payload payload n = Ok o.
Proof.
  unfold decode_block_payload.
  destruct (decode_block_payload_body n (new_reader payload)) as [[[b ?]|]|e] eqn:E; eauto.
  assert ((exists what, e = invalid_argument what) \/ (exists what, e = length_error what))
    as [[what ->]|[what ->]]; eauto.
  revert E. unfold decode_block_payload_body. unfold mbind, Parser_bind.
  assert (only_invalid (
    m ← read_string; tag_count ← read_u32; rem ← p_remaining;
    reject_if (rem <? n * encoded_sample_size);;
    reject_if ((rem - n * encoded_sample_size) / minimum_encoded_tag_size <? tag_count);;
    ts ← read_sorted_tags (Z.to_nat tag_count) []; samples ← read_samples (Z.to_nat n) [];
    rem ← p_remaining; reject_if (negb (rem =? 0));; s ← p_lift (make_SeriesKey m ts);
    mret (s, samples))) as Hbody by eauto 40 with chrono_throws.
  specialize (Hbody (new_reader payload) e). unfold mbind, Parser_bind in Hbody.
  repeat (case_match; try (intros [= <-]; left; by apply Hbody)); try done.
  intros Hl. unfold p_lift in Hl. destruct (make_SegmentBlock _ _) eqn:Hb; [done|].
  injection Hl as <-. by eapply make_SegmentBlock_throws.
Qed.

(** ** Lemmas: frames *)

Lemma read_block_header_reads m v f l i c :
  in_u 32 m -> in_u 16 v -> in_u 16 f -> in_u 32 l -> in_u 32 i -> in_u 32 c ->
  reads read_block_header (block_header m v f l i c) (m, v, f, l, i, c).
Proof.
  intros. unfold read_block_header, block_header.
  eapply reads_bind; [by apply reads_u32|]. eapply reads_bind; [by apply reads_u16|].
  eapply reads_bind; [by apply reads_u16|]. eapply reads_bind; [by apply reads_u32|].
  eapply reads_bind; [by apply reads_u32|].
  rewrite <-(app_nil_r (le 4 c)). eapply reads_bind; [by apply reads_u32|]. apply reads_ret.
Qed.

Lemma read_block_header_inv bytes m v f l i c r :
  read_block_header (new_reader bytes) = Ok (Some ((m, v, f, l, i, c), r)) ->
  first 20 bytes = block_header m v f l i c /\ in_u 32 l /\ in_u 32 c.
Proof.
  remember (m, v, f, l, i, c) as fields eqn:Hfields.
  unfold read_block_header. intros H. pose proof (new_reader_ok bytes) as Hc0. parser_inv.
  apply read_u32_inv in Hp as [Hm Hc1]; [|done].
  apply read_u16_inv in Hp0 as [Hv Hc2]; [|by eapply consumed_ok].
  apply read_u16_inv in Hp1 as [Hf Hc3]; [|by eapply consumed_ok].
  apply read_u32_inv in Hp2 as [Hl Hc4]; [|by eapply consumed_ok].
  apply read_u32_inv in Hp3 as [Hi Hc5]; [|by eapply consumed_ok].
  apply read_u32_inv in Hp4 as [Hc Hc6]; [|by eapply consumed_ok].
  injection Hfields as <- <- <- <- <- <-.
  pose proof (consumed_trans _ _ _ _ _ Hc1 (consumed_trans _ _ _ _ _ Hc2
    (consumed_trans _ _ _ _ _ Hc3 (consumed_trans _ _ _ _ _ Hc4
    (consumed_trans _ _ _ _ _ Hc5 Hc6))))) as Hall.
  apply consumed_new in Hall as [Hall _]. split; [|done].
  fold (block_header a a0 a1 a2 a3 a4) in Hall. by rewrite size_block_header in Hall.
Qed.

Lemma quiet_read_block_header : quiet read_block_header.
Proof. unfold read_block_header. auto 20 with chrono. Qed.

(** Every branch of the decoder. *)
Lemma decode_segment_block_cases bytes :
  exists d, decode_segment_block bytes = Ok d /\
    ((exists b payload tail, bytes = block_frame payload (block_sample_count b) ++ tail /\
        SegmentBlock_ok b /\ SegmentBlock_fits b /\ payload = block_payload b /\
        d = MkBlockResult (Some b) SegmentBlockDecodeError.none
              (size (block_frame payload (block_sample_count b)))) \/
     (exists e, d = make_block_decode_error e /\ e <> SegmentBlockDecodeError.none)).
Proof.
  assert (forall e (P : SegmentBlockDecodeResult -> Prop), e <> SegmentBlockDecodeError.none ->
    exists d, Ok (make_block_decode_error e) = Ok d /\
    (P d \/ (exists e, d = make_block_decode_error e /\ e <> SegmentBlockDecodeError.none)))
    as Herr by eauto 6.
  unfold decode_segment_block, segment_block_header_size, segment_block_checksum_size.
  destruct (size bytes <? 20) eqn:E20; [by apply Herr|]. bool_to_prop.
  destruct (read_block_header (new_reader bytes)) as [[[[[[[[m v] f] l] i] c] r]|]|e] eqn:Eh;
    [|by apply Herr|by apply quiet_read_block_header in Eh].
  cbn [mbind result_bind]. apply read_block_header_inv in Eh as (Hheader & Hl & Hc).
  destruct (negb (m =? segment_block_magic)) eqn:Em; [by apply Herr|].
  destruct (negb (i =? _) || _) eqn:Ei; [by apply Herr|].
  destruct (size bytes <? 20 + l + 4) eqn:Es; [by apply Herr|].
  bool_to_prop. unfold in_u in Hl, Hc. subst.
  assert (size (subspan (20 + l) 4 bytes) = 4) as H4 by (apply size_subspan; lia).
  destruct (read_u32_new _ H4) as (r' & ->). cbn [mbind result_bind].
  destruct (negb (_ =? crc32c _)) eqn:Ecrc; [by apply Herr|].
  destruct (negb (v =? _)) eqn:Ev; [by apply Herr|].
  destruct (negb (f =? _)) eqn:Ef; [by apply Herr|].
  destruct ((c =? 0) || _) eqn:Ec; [by apply Herr|]. bool_to_prop. subst.
  set (payload := subspan 20 l bytes) in *.
  assert (size payload = l) as Hpl by (apply size_subspan; lia).
  destruct (decode_block_payload_total payload c) as ([b|] & Hd); rewrite Hd;
    cbn [mbind result_bind]; [|by apply Herr].
  eexists. split; [done|]. left.
  apply decode_block_payload_inv in Hd as (Hb & Hk & Hcount & Hp); [|lia].
  exists b, payload, (drop (Z.to_nat (20 + l + 4)) bytes). rewrite Hcount.
  assert (first (20 + l) bytes = block_protected payload c) as Hprot.
  { rewrite first_add, Hheader by lia. unfold block_protected. by rewrite Hpl. }
  split_and!; [|done| |done|].
  - rewrite (frame_cut 20 l bytes) at 1 by lia.
    rewrite (app_assoc (first 20 bytes)), <-first_add, Hprot by lia.
    unfold block_frame. rewrite <-app_assoc. f_equal. f_equal.
    rewrite <-Hprot. match goal with H : unle _ = crc32c _ |- _ => rewrite <-H end.
    by rewrite le_4_unle.
  - split; [done|]. rewrite <-Hp. lia.
  - f_equal. rewrite size_block_frame. lia.
Qed.

Lemma decode_block_frame b rest :
  SegmentBlock_ok b -> SegmentBlock_fits b ->
  decode_segment_block (block_frame (block_payload b) (block_sample_count b) ++ rest) =
    Ok (MkBlockResult (Some b) SegmentBlockDecodeError.none
          (size (block_frame (block_payload b) (block_sample_count b)))).
Proof.
  intros Hb [Hk Hsize]. destruct (block_counts b Hb) as [Hcount Hrange].
  destruct (block_payload_u32 _ Hsize) as [H32 Hinv].
  set (payload := block_payload b) in *. set (n := block_sample_count b) in *.
  pose proof (size_nonneg payload). pose proof (size_nonneg rest).
  unfold decode_segment_block, segment_block_header_size, segment_block_checksum_size.
  rewrite size_app, size_block_frame. rewrite (proj2 (Z.ltb_ge _ 20)) by lia.
  unfold block_frame, block_protected. rewrite <-!app_assoc.
  set (crc := crc32c _).
  assert (in_u 32 segment_block_magic /\ in_u 16 segment_block_version /\
          in_u 16 segment_block_flags) as (Hm & Hv & Hfl) by done.
  rewrite (read_block_header_reads _ _ _ _ _ _ Hm Hv Hfl H32 Hinv Hcount
    _ (payload ++ le 4 crc ++ rest)) by (apply new_reader_ok || apply unread_new).
  cbn [mbind result_bind]. rewrite !Z.eqb_refl. cbn [negb orb].
  rewrite (proj2 (Z.ltb_ge _ (size payload))) by done.
  rewrite (proj2 (Z.ltb_ge (24 + _ + _) _)) by lia.
  set (header := block_header _ _ _ _ _ _) in *.
  assert (20 = size header) as H20 by done.
  rewrite (first_add 20), first_app, subspan_middle by (done || lia).
  assert (subspan (20 + size payload) 4 (header ++ payload ++ le 4 crc ++ rest) = le 4 crc) as ->.
  { rewrite app_assoc. apply subspan_middle; [|done]. rewrite size_app. lia. }
  destruct (read_u32_new (le 4 crc) ltac:(done)) as (r & ->). cbn [mbind result_bind].
  rewrite unle_le_small by apply crc32c_in_u32. unfold crc at 1. rewrite Z.eqb_refl. cbn [negb].
  unfold max_samples_per_segment_block.
  rewrite (proj2 (Z.eqb_neq n 0)), (proj2 (Z.ltb_ge _ n)) by lia. cbn [orb].
  assert (decode_block_payload payload n = Ok (Some b)) as -> by by apply decode_block_payload_Ok.
  cbn [mbind result_bind]. do 2 f_equal. unfold header, block_header. autorewrite with chrono_size. lia.
Qed.

Lemma decode_encoded_block b bytes rest :
  SegmentBlock_ok b -> encode_segment_block b = Ok bytes ->
  decode_segment_block (bytes ++ rest) =
    Ok (MkBlockResult (Some b) SegmentBlockDecodeError.none (size bytes)).
Proof.
  intros Hb He. apply encode_segment_block_inv in He as [Hf ->]; [|done].
  by apply decode_block_frame.
Qed.

(** ** Properties *)

(** The block constructor accepts exactly the non-empty lists of at most 256
    samples in strictly increasing timestamp order; it reports an empty or
    unordered list as [invalid_argument] and a longer one as [length_error]. *)
Theorem make_SegmentBlock_spec s l :
  match make_SegmentBlock s l with
  | Ok b => b = MkSegmentBlock s l /\ l <> [] /\ size l <= 256 /\ samples_sorted l
  | Err (invalid_argument _) => l = [] \/ size l <= 256 /\ ~ samples_sorted l
  | Err (length_error _) => 256 < size l
  | Err _ => False
  end.
Proof.
  destruct (make_SegmentBlock s l) as [b|e] eqn:E; [by apply make_SegmentBlock_Ok in E|].
  revert E. unfold make_SegmentBlock, throw_if, max_samples_per_segment_block.
  case_bool_decide; simpl; [intros [= <-]; by left|].
  destruct (256 <? size l) eqn:Es; bool_to_prop; simpl; [by intros [= <-]|].
  destruct (adjacent_not_increasing l) eqn:Ea; simpl; [|done]. intros [= <-]. right.
  split; [done|]. intros Hs%adjacent_not_increasing_false. congruence.
Qed.

Definition example_block : SegmentBlock := MkSegmentBlock example_key [example_sample (-1); example_sample 5].
Definition example_block_bytes : list byte :=
  match encode_segment_block example_block with Ok bytes => bytes | Err _ => [] end.

Lemma example_block_ok : SegmentBlock_ok example_block.
Proof.
  split; [apply example_key_ok|]. split; [discriminate|]. split; [vm_compute; discriminate|].
  split; [by apply adjacent_not_increasing_false|].
  repeat constructor; vm_compute; discriminate || reflexivity.
Qed.

(** A block the encoder accepts decodes to itself, consuming exactly its
    bytes and ignoring what follows. *)
Theorem segment_block_roundtrip b bytes rest :
  SegmentBlock_ok b -> encode_segment_block b = Ok bytes ->
  decode_segment_block (bytes ++ rest) =
    Ok (MkBlockResult (Some b) SegmentBlockDecodeError.none (size bytes)).
Proof. apply decode_encoded_block. Qed.

Lemma segment_block_roundtrip_witness :
  size example_block_bytes = 80 /\
  decode_segment_block (example_block_bytes ++ [Byte.x00]) =
    Ok (MkBlockResult (Some example_block) SegmentBlockDecodeError.none (size example_block_bytes)).
Proof.
  split; [vm_compute; reflexivity|].
  apply segment_block_roundtrip; [apply example_block_ok|vm_compute; reflexivity].
Defined.

(** C35: the block decoder throws nothing, and it accepts canonical encodings
    only: what it decodes is well formed, and encoding that gives back exactly
    the bytes it consumed. *)
Theorem segment_block_canonical bytes :
  exists d, decode_segment_block bytes = Ok d /\
    match block d with
    | Some b => block_success d = true /\ SegmentBlock_ok b /\
        block_bytes_consumed d <= size bytes /\
        encode_segment_block b = Ok (first (block_bytes_consumed d) bytes)
    | None => block_error d <> SegmentBlockDecodeError.none /\ block_bytes_consumed d = 0
    end.
Proof.
  destruct (decode_segment_block_cases bytes)
    as (d & Hd & [(b & payload & tail & -> & Hb & Hf & -> & ->)|(e & -> & He)]);
    (eexists; split; [exact Hd|]); simpl.
  - split_and!; [done|done| |].
    + rewrite size_app. pose proof (size_nonneg tail). lia.
    + rewrite encode_segment_block_frame by done. by rewrite first_app.
  - done.
Qed.
