(* ===== verification/Manifest.v ===== *)
(** * The manifest (src/manifest.cpp)

    The manifest names the live segments.  Encoding and decoding are inverse to
    each other ([manifest_codec]), the decoder's only exception is
    [ManifestFormatError], and what [store_manifest] has returned from is what
    [load_manifest] finds after a power loss. *)

From stdpp Require Import base tactics option numbers list strings gmap.
From Stdlib Require Import ZArith Lia Ascii Strings.Byte.
From S2P Require Import Prelude Errors World Hoare ByteCodec Crc32c FileIo.

Definition manifest_magic : Z := 1179472707.        (* 0x464D5343 *)
Definition manifest_version : Z := 1.
Definition manifest_flags : Z := 0.
Definition manifest_header_size : Z := 36.
Definition manifest_checksum_size : Z := 4.
Definition max_manifest_payload_size : Z := 16 * 1024 * 1024.
Definition max_manifest_segments : Z := 100000.

Record ManifestState := MkManifestState {
  generation : Z;
  logical_sample_count : Z;
  segment_files : list string;
}.

#[export] Instance ManifestState_eq_dec : EqDecision ManifestState.
Proof. solve_decision. Defined.

(** A default-initialized [ManifestState]. *)
Definition empty_manifest : ManifestState := MkManifestState 0 0 [].

Fixpoint contains_char (c : ascii) (s : string) : bool :=
  match s with
  | EmptyString => false
  | String a s' => Ascii.eqb a c || contains_char c s'
  end.

(** A name without separators has no parent path and is its own file name. *)
Definition valid_segment_filename (filename : string) : bool :=
  if bool_decide (filename = EmptyString) || contains_char "/" filename
     || contains_char "\" filename
  then false
  else bool_decide (extension filename = ".cst").

(** The loop of [validate_state]. *)
Fixpoint validate_names (unique_names : gset string) (names : list string) : result unit :=
  match names with
  | [] => Ok tt
  | filename :: names' =>
    throw_if (negb (valid_segment_filename filename) || bool_decide (filename ∈ unique_names))
      (invalid_argument "manifest contains an invalid segment filename");;
    validate_names ({[filename]} ∪ unique_names) names'
  end.

Definition validate_state (state : ManifestState) : result unit :=
  throw_if (max_manifest_segments <? size (segment_files state))
    (length_error "manifest contains too many segments");;
  validate_names ∅ (segment_files state).

Definition write_string : ByteWriter -> string -> result ByteWriter :=
  write_string_or "manifest filename is too long".

Definition read_string : Parser string := ByteCodec.read_string.

Definition write_filenames (w : ByteWriter) (names : list string) : result ByteWriter :=
  result_foldl write_string w names.

Definition encode_manifest (state : ManifestState) : result (list byte) :=
  validate_state state;;
  payload ← write_filenames new_writer (segment_files state);
  throw_if (max_manifest_payload_size <? size (writer_data payload))
    (length_error "manifest payload is too large");;
  let payload_size := u32 (size (writer_data payload)) in
  let inverted_size := Z.lxor payload_size max_u32 in
  let w := write_u32 new_writer manifest_magic in
  let w := write_u16 w manifest_version in
  let w := write_u16 w manifest_flags in
  let w := write_u64 w (generation state) in
  let w := write_u64 w (logical_sample_count state) in
  let w := write_u32 w (u32 (size (segment_files state))) in
  let w := write_u32 w payload_size in
  let w := write_u32 w inverted_size in
  let w := write_bytes w (writer_data payload) in
  let w := write_u32 w (crc32c (writer_data w)) in
  Ok (writer_data w).

(** The header reads of [decode_manifest]. *)
Definition read_manifest_header : Parser (Z * Z * Z * Z * Z * Z * Z * Z) :=
  magic ← read_u32;
  version ← read_u16;
  flags ← read_u16;
  generation ← read_u64;
  logical_sample_count ← read_u64;
  segment_count ← read_u32;
  payload_size ← read_u32;
  inverted_size ← read_u32;
  mret (magic, version, flags, generation, logical_sample_count, segment_count,
        payload_size, inverted_size).

Fixpoint read_filenames (segment_count : nat) (names : list string) : Parser (list string) :=
  match segment_count with
  | O => mret names
  | S n => filename ← read_string; read_filenames n (names ++ [filename])
  end.

(** [error.what()] of what [validate_state] throws *)
Definition what_of (e : exn) : string :=
  match e with
  | invalid_argument what | length_error what => what
  | _ => EmptyString
  end.

Definition decode_manifest (bytes : list byte) : result ManifestState :=
  throw_if (size bytes <? manifest_header_size + manifest_checksum_size)
    (ManifestFormatError "manifest is incomplete");;
  header ← read_manifest_header (new_reader bytes);
  match header with
  | None => Err (ManifestFormatError "manifest header is incomplete")
  | Some ((magic, version, flags, generation, logical_sample_count, segment_count,
           payload_size, inverted_size), _) =>
    throw_if (negb (magic =? manifest_magic)) (ManifestFormatError "manifest magic is invalid");;
    throw_if (negb (version =? manifest_version) || negb (flags =? manifest_flags))
      (ManifestFormatError "manifest version or flags are unsupported");;
    throw_if ((max_manifest_segments <? segment_count)
              || (max_manifest_payload_size <? payload_size)
              || negb (inverted_size =? Z.lxor payload_size max_u32))
      (ManifestFormatError "manifest metadata is invalid");;
    let expected_size := manifest_header_size + payload_size + manifest_checksum_size in
    throw_if (negb (size bytes =? expected_size))
      (ManifestFormatError "manifest size is inconsistent");;
    let protected_size := size bytes - manifest_checksum_size in
    stored ← read_u32 (new_reader (last_bytes manifest_checksum_size bytes));
    throw_if
      (match stored with
       | None => true
       | Some (stored_checksum, _) => negb (stored_checksum =? crc32c (first protected_size bytes))
       end)
      (ManifestFormatError "manifest checksum mismatch");;
    names ← read_filenames (Z.to_nat segment_count) []
              (new_reader (subspan manifest_header_size payload_size bytes));
    match names with
    | None => Err (ManifestFormatError "manifest filename is incomplete")
    | Some (names, payload_reader) =>
      throw_if (negb (remaining payload_reader =? 0))
        (ManifestFormatError "manifest contains trailing payload bytes");;
      let state := MkManifestState generation logical_sample_count names in
      match validate_state state with
      | Ok _ => Ok state
      | Err e => Err (ManifestFormatError (what_of e))
      end
    end
  end.

Definition manifest_path (directory : string) : path := Path directory "MANIFEST".

Definition load_manifest (directory : string) : M world ManifestState :=
  let path := manifest_path directory in
  exists_ ← sys_exists path;
  match exists_ with
  | SysErr error => throw (system_error error "failed to inspect manifest")
  | SysOk exists_ =>
    if negb exists_ then mret empty_manifest
    else
      n ← file_size_bytes path;
      throw_when (max_manifest_payload_size + manifest_header_size + manifest_checksum_size <? n)
        (ManifestFormatError "manifest file is too large");;
      bytes ← read_file_bytes path 0 n;
      lift (decode_manifest bytes)
  end.

Definition store_manifest (directory : string) (state : ManifestState) : M world unit :=
  encoded ← lift (encode_manifest state);
  atomic_write_file (manifest_path directory) encoded.

(** * Specification *)

Fixpoint le_filenames (names : list string) : list byte :=
  match names with
  | [] => []
  | f :: names' => le_string f ++ le_filenames names'
  end.

Definition names_ok (names : list string) : Prop :=
  NoDup names /\ Forall (fun f => valid_segment_filename f = true) names.

Definition ManifestState_ok (s : ManifestState) : Prop :=
  in_u 64 (generation s) /\ in_u 64 (logical_sample_count s) /\
  size (segment_files s) <= max_manifest_segments /\ names_ok (segment_files s).

(** A state the encoder accepts. *)
Definition ManifestState_fits (s : ManifestState) : Prop :=
  Forall (fun f => string_size f <= max_u32) (segment_files s) /\
  size (le_filenames (segment_files s)) <= max_manifest_payload_size.

Definition manifest_header (magic version flags generation logical segments payload inverted : Z)
    : list byte :=
  le 4 magic ++ le 2 version ++ le 2 flags ++ le 8 generation ++ le 8 logical ++ le 4 segments ++
  le 4 payload ++ le 4 inverted.

Definition manifest_protected (s : ManifestState) : list byte :=
  let payload := le_filenames (segment_files s) in
  manifest_header manifest_magic manifest_version manifest_flags (generation s)
    (logical_sample_count s) (size (segment_files s)) (size payload)
    (Z.lxor (size payload) max_u32) ++ payload.

Definition manifest_bytes (s : ManifestState) : list byte :=
  manifest_protected s ++ le 4 (crc32c (manifest_protected s)).

(** ** Lemmas: validation *)

Lemma validate_names_spec seen names :
  (validate_names seen names = Ok tt /\
   NoDup names /\ (forall f, f ∈ names -> f ∉ seen) /\
   Forall (fun f => valid_segment_filename f = true) names) \/
  (validate_names seen names =
     Err (invalid_argument "manifest contains an invalid segment filename") /\
   ~ (NoDup names /\ (forall f, f ∈ names -> f ∉ seen) /\
      Forall (fun f => valid_segment_filename f = true) names)).
Proof.
  revert seen. induction names as [|f names IH]; intros seen; cbn [validate_names].
  { left. split_and!; [done|constructor|by intros f ?%elem_of_nil|constructor]. }
  destruct (valid_segment_filename f) eqn:Hv; cbn [negb orb throw_if].
  2:{ right. split; [done|]. intros (_ & _ & Hall). inversion Hall; congruence. }
  case_bool_decide as Hf; cbn [throw_if mbind result_bind].
  { right. split; [done|]. intros (_ & Hn & _). apply (Hn f); [left|done]. }
  destruct (IH ({[f]} ∪ seen)) as [(-> & Hnd & Hseen & Hall)|(-> & Hn)]; [left|right].
  - split_and!; [done| | |by constructor].
    + constructor; [|done]. intros Hin. apply (Hseen f Hin). set_solver.
    + intros g. rewrite elem_of_cons. intros [->|Hg]; [done|]. apply Hseen in Hg. set_solver.
  - split; [done|]. intros (Hnd & Hseen & Hall). apply Hn.
    apply NoDup_cons in Hnd as [Hnot Hnd]. inversion Hall; subst. split_and!; [done| |done].
    intros g Hg. rewrite elem_of_union, elem_of_singleton. intros [->|Hg']; [done|].
    by apply (Hseen g); [right|].
Qed.

Lemma validate_state_Ok s :
  validate_state s = Ok tt <->
  size (segment_files s) <= max_manifest_segments /\ names_ok (segment_files s).
Proof.
  unfold validate_state, throw_if, names_ok.
  destruct (max_manifest_segments <? size (segment_files s)) eqn:E; bool_to_prop; simpl.
  { split; [done|lia]. }
  assert (forall f, f ∈ segment_files s -> f ∉ (∅ : gset string)) as Hempty by set_solver.
  destruct (validate_names_spec ∅ (segment_files s)) as [(-> & Hnd & _ & Hall)|(-> & Hn)].
  - done.
  - split; [done|]. intros (_ & Hnd & Hall). by destruct Hn.
Qed.

(** ** Lemmas: the encoder *)

Lemma write_filenames_data w names w' :
  write_filenames w names = Ok w' ->
  Forall (fun f => string_size f <= max_u32) names /\ writer_data w' = writer_data w ++ le_filenames names.
Proof.
  unfold write_filenames. revert w. induction names as [|f names IH]; intros w H; cbn [result_foldl] in H.
  - injection H as <-. by rewrite app_nil_r.
  - result_inv. apply write_string_data in Ha as (Hf & Hd). apply IH in H as (Hall & ->).
    split; [by constructor|]. rewrite Hd. cbn [le_filenames]. by rewrite <-app_assoc.
Qed.

Lemma write_filenames_Ok w names :
  Forall (fun f => string_size f <= max_u32) names -> exists w', write_filenames w names = Ok w'.
Proof.
  unfold write_filenames. intros Hf. revert w. induction Hf as [|f names Hf _ IH]; intros w; [by eexists|].
  cbn [result_foldl].
  destruct (write_string w f) as [w1|e] eqn:E; simpl; [apply IH|].
  unfold write_string in E. exfalso. pose proof (proj2 (write_string_spec "manifest filename is too long" w f _) (conj Hf eq_refl)).
  congruence.
Qed.

Lemma size_manifest_header a b c d e f g h : size (manifest_header a b c d e f g h) = 36.
Proof. unfold manifest_header. by autorewrite with chrono_size. Qed.

Lemma manifest_u32 (s : ManifestState) :
  ManifestState_ok s -> ManifestState_fits s ->
  let n := size (le_filenames (segment_files s)) in
  in_u 32 n /\ in_u 32 (Z.lxor n max_u32) /\ in_u 32 (size (segment_files s)).
Proof.
  intros (_ & _ & Hc & _) [_ Hp] n. pose proof (size_nonneg (le_filenames (segment_files s))).
  pose proof (size_nonneg (segment_files s)).
  assert (in_u 32 n) by (unfold n, in_u, max_manifest_payload_size in *; lia).
  split_and!; [done|apply in_u_lxor; [lia|done|done]|].
  unfold in_u, max_manifest_segments in *. lia.
Qed.

Lemma encode_manifest_Ok s :
  ManifestState_ok s -> ManifestState_fits s -> encode_manifest s = Ok (manifest_bytes s).
Proof.
  intros Hs Hfits. pose proof Hs as (Hg & Hl & Hcount). destruct Hfits as [Hf Hsize].
  destruct (manifest_u32 s Hs (conj Hf Hsize)) as (H32 & Hinv & Hc32).
  unfold encode_manifest. rewrite (proj2 (validate_state_Ok s)) by done. cbn [mbind result_bind].
  destruct (write_filenames_Ok new_writer _ Hf) as (w & Hw). rewrite Hw. cbn [mbind result_bind].
  apply write_filenames_data in Hw as [_ ->]. simpl (writer_data new_writer ++ _).
  unfold throw_if. rewrite (proj2 (Z.ltb_ge _ _)) by done. cbn [mbind result_bind].
  rewrite !u32_small by done. f_equal. rewrite write_u32_le by apply crc32c_in_u32.
  rewrite write_bytes_app. unfold in_u in *.
  rewrite !write_u32_le, !write_u64_le, !write_u16_le
    by (unfold manifest_version, manifest_flags; lia).
  rewrite write_u32_le by (unfold manifest_magic; lia).
  unfold manifest_bytes, manifest_protected, manifest_header. simpl. by rewrite <-!app_assoc.
Qed.

Lemma encode_manifest_inv s bytes :
  in_u 64 (generation s) -> in_u 64 (logical_sample_count s) -> encode_manifest s = Ok bytes ->
  ManifestState_ok s /\ ManifestState_fits s /\ bytes = manifest_bytes s.
Proof.
  intros Hg Hl H.
  assert (ManifestState_ok s /\ ManifestState_fits s) as [Hs Hf].
  { unfold encode_manifest in H. result_inv. bool_to_prop.
    match goal with H : validate_state _ = _ |- _ => apply validate_state_Ok in H as [? ?] end.
    match goal with H : write_filenames _ _ = _ |- _ => apply write_filenames_data in H as [? Hd] end.
    rewrite Hd in *. by split_and!. }
  split_and!; [done..|]. rewrite encode_manifest_Ok in H by done. by injection H.
Qed.

(** ** Lemmas: the decoder *)

Lemma read_manifest_header_reads m v f g l c p i :
  in_u 32 m -> in_u 16 v -> in_u 16 f -> in_u 64 g -> in_u 64 l -> in_u 32 c -> in_u 32 p ->
  in_u 32 i -> reads read_manifest_header (manifest_header m v f g l c p i) (m, v, f, g, l, c, p, i).
Proof.
  intros. unfold read_manifest_header, manifest_header.
  eapply reads_bind; [by apply reads_u32|]. eapply reads_bind; [by apply reads_u16|].
  eapply reads_bind; [by apply reads_u16|]. eapply reads_bind; [by apply reads_u64|].
  eapply reads_bind; [by apply reads_u64|]. eapply reads_bind; [by apply reads_u32|].
  eapply reads_bind; [by apply reads_u32|].
  rewrite <-(app_nil_r (le 4 i)). eapply reads_bind; [by apply reads_u32|]. apply reads_ret.
Qed.

Lemma read_manifest_header_inv bytes m v f g l c p i r :
  read_manifest_header (new_reader bytes) = Ok (Some ((m, v, f, g, l, c, p, i), r)) ->
  first 36 bytes = manifest_header m v f g l c p i /\
  in_u 64 g /\ in_u 64 l /\ in_u 32 c /\ in_u 32 p.
Proof.
  remember (m, v, f, g, l, c, p, i) as fields eqn:Hfields.
  unfold read_manifest_header. intros H. pose proof (new_reader_ok bytes) as Hc0. parser_inv.
  apply read_u32_inv in Hp as [? Hc1]; [|done].
  apply read_u16_inv in Hp0 as [? Hc2]; [|by eapply consumed_ok].
  apply read_u16_inv in Hp1 as [? Hc3]; [|by eapply consumed_ok].
  apply read_u64_inv in Hp2 as [? Hc4]; [|by eapply consumed_ok].
  apply read_u64_inv in Hp3 as [? Hc5]; [|by eapply consumed_ok].
  apply read_u32_inv in Hp4 as [? Hc6]; [|by eapply consumed_ok].
  apply read_u32_inv in Hp5 as [? Hc7]; [|by eapply consumed_ok].
  apply read_u32_inv in Hp6 as [? Hc8]; [|by eapply consumed_ok].
  injection Hfields as <- <- <- <- <- <- <- <-.
  pose proof (consumed_trans _ _ _ _ _ Hc1 (consumed_trans _ _ _ _ _ Hc2
    (consumed_trans _ _ _ _ _ Hc3 (consumed_trans _ _ _ _ _ Hc4 (consumed_trans _ _ _ _ _ Hc5
    (consumed_trans _ _ _ _ _ Hc6 (consumed_trans _ _ _ _ _ Hc7 Hc8))))))) as Hall.
  apply consumed_new in Hall as [Hall _]. split; [|done].
  fold (manifest_header a a0 a1 a2 a3 a4 a5 a6) in Hall. by rewrite size_manifest_header in Hall.
Qed.

Lemma quiet_read_manifest_header : quiet read_manifest_header.
Proof. unfold read_manifest_header. auto 20 with chrono. Qed.

Lemma reads_filenames names acc :
  Forall (fun f => string_size f <= max_u32) names ->
  reads (read_filenames (length names) acc) (le_filenames names) (acc ++ names).
Proof.
  intros Hf. revert acc. induction Hf as [|f names Hf _ IH]; intros acc.
  - rewrite app_nil_r. apply reads_ret.
  - cbn [length read_filenames le_filenames]. eapply reads_bind; [by apply reads_string|].
    replace (acc ++ f :: names) with ((acc ++ [f]) ++ names) by by rewrite <-app_assoc. apply IH.
Qed.

Lemma read_filenames_inv n acc r names r' :
  reader_ok r -> read_filenames n acc r = Ok (Some (names, r')) ->
  exists fs, names = acc ++ fs /\ length fs = n /\ Forall (fun f => string_size f <= max_u32) fs /\
    consumed r (le_filenames fs) r'.
Proof.
  revert acc r. induction n as [|n IH]; intros acc r Hr H; cbn [read_filenames] in H; parser_inv.
  - exists []. rewrite app_nil_r. split_and!; auto with chrono.
  - apply read_string_inv in Hp as [Hs Hc]; [|done].
    apply IH in H as (fs & -> & <- & Hf & Hc'); [|by eapply consumed_ok].
    eexists (_ :: fs). rewrite <-app_assoc. split_and!; [done|done|by constructor|].
    cbn [le_filenames]. eauto with chrono.
Qed.

Lemma quiet_read_filenames n names : quiet (read_filenames n names).
Proof. revert names. induction n; intros names; simpl; auto 10 with chrono. Qed.

Lemma decode_manifest_bytes s :
  ManifestState_ok s -> ManifestState_fits s -> decode_manifest (manifest_bytes s) = Ok s.
Proof.
  intros Hs Hfits. pose proof Hs as (Hg & Hl & Hcount & Hnames). pose proof Hfits as [Hf Hsize].
  destruct (manifest_u32 s Hs Hfits) as (H32 & Hinv & Hc32).
  set (payload := le_filenames (segment_files s)) in *. pose proof (size_nonneg payload).
  assert (size (manifest_bytes s) = 40 + size payload) as Htotal.
  { unfold manifest_bytes, manifest_protected. rewrite !size_app, size_manifest_header, size_le.
    fold payload. lia. }
  unfold decode_manifest, manifest_header_size, manifest_checksum_size. rewrite Htotal.
  rewrite (proj2 (Z.ltb_ge _ (36 + 4))) by lia. cbn [throw_if mbind result_bind].
  set (crc := crc32c (manifest_protected s)).
  set (header := manifest_header manifest_magic manifest_version manifest_flags (generation s)
    (logical_sample_count s) (size (segment_files s)) (size payload) (Z.lxor (size payload) max_u32)).
  assert (manifest_bytes s = header ++ payload ++ le 4 crc) as Hbytes.
  { unfold manifest_bytes, manifest_protected. fold crc payload. by rewrite <-app_assoc. }
  assert (in_u 32 manifest_magic /\ in_u 16 manifest_version /\ in_u 16 manifest_flags)
    as (Hm & Hv & Hfl) by done.
  rewrite Hbytes. unfold header at 1.
  rewrite (read_manifest_header_reads _ _ _ _ _ _ _ _ Hm Hv Hfl Hg Hl Hc32 H32 Hinv
    _ (payload ++ le 4 crc)) by (apply new_reader_ok || apply unread_new).
  cbn [mbind result_bind]. rewrite !Z.eqb_refl. cbn [negb orb].
  rewrite (proj2 (Z.ltb_ge _ (size (segment_files s)))), (proj2 (Z.ltb_ge _ (size payload))) by done.
  cbn [orb throw_if mbind result_bind].
  replace (40 + size payload =? 36 + size payload + 4) with true by (symmetry; apply Z.eqb_eq; lia).
  cbn [negb throw_if mbind result_bind].
  assert (last_bytes 4 (header ++ payload ++ le 4 crc) = le 4 crc) as ->.
  { rewrite app_assoc. by apply last_bytes_app. }
  destruct (read_u32_new (le 4 crc) ltac:(done)) as (r & ->). cbn [mbind result_bind].
  assert (first (40 + size payload - 4) (header ++ payload ++ le 4 crc) = manifest_protected s) as ->.
  { rewrite app_assoc. apply first_app. unfold manifest_protected. rewrite size_app.
    rewrite size_manifest_header. fold payload. lia. }
  rewrite unle_le_small by apply crc32c_in_u32. unfold crc at 1. rewrite Z.eqb_refl.
  cbn [negb throw_if mbind result_bind].
  rewrite subspan_middle by done. rewrite to_nat_size.
  rewrite (reads_filenames (segment_files s) [] Hf (new_reader payload) [])
    by (apply new_reader_ok || by rewrite app_nil_r, unread_new).
  cbn [mbind result_bind app]. fold payload.
  assert (remaining (advance (new_reader payload) (size payload)) = 0) as ->.
  { unfold remaining, advance. simpl. lia. }
  cbn [Z.eqb negb throw_if mbind result_bind]. destruct s as [g l names].
  by rewrite (proj2 (validate_state_Ok _)).
Qed.

(** Every branch of the decoder. *)
Lemma decode_manifest_cases bytes :
  (exists s, decode_manifest bytes = Ok s /\ ManifestState_ok s /\ ManifestState_fits s /\
     bytes = manifest_bytes s) \/
  (exists what, decode_manifest bytes = Err (ManifestFormatError what)).
Proof.
  unfold decode_manifest, manifest_header_size, manifest_checksum_size.
  destruct (size bytes <? 36 + 4) eqn:E40; cbn [throw_if mbind result_bind]; [eauto|]. bool_to_prop.
  destruct (read_manifest_header (new_reader bytes)) as [[[[[[[[[[m v] f] g] l] c] p] i] r]|]|e] eqn:Eh;
    cbn [mbind result_bind]; [|eauto|by apply quiet_read_manifest_header in Eh].
  apply read_manifest_header_inv in Eh as (Hheader & Hg & Hl & Hc & Hp).
  destruct (negb (m =? _)) eqn:Em; cbn [throw_if mbind result_bind]; [eauto|].
  destruct (negb (v =? _) || _) eqn:Ev; cbn [throw_if mbind result_bind]; [eauto|].
  destruct (_ || _ || negb (i =? _)) eqn:Ei; cbn [throw_if mbind result_bind]; [eauto|].
  destruct (negb (size bytes =? _)) eqn:Es; cbn [throw_if mbind result_bind]; [eauto|].
  bool_to_prop. unfold in_u in Hc, Hp. subst.
  assert (size (last_bytes 4 bytes) = 4) as H4.
  { rewrite last_bytes_drop by lia. rewrite size_drop by lia. lia. }
  destruct (read_u32_new _ H4) as (r' & ->). cbn [mbind result_bind].
  destruct (negb (_ =? crc32c _)) eqn:Ecrc; cbn [throw_if mbind result_bind]; [eauto|]. bool_to_prop.
  set (payload := subspan 36 p bytes) in *.
  assert (size payload = p) as Hpl by (apply size_subspan; lia).
  destruct (read_filenames _ _ (new_reader payload)) as [[[names pr]|]|e] eqn:En;
    cbn [mbind result_bind]; [|eauto|by apply quiet_read_filenames in En].
  apply read_filenames_inv in En as (names' & -> & Hlen & Hf & Hcons); [|apply new_reader_ok].
  destruct (negb (remaining pr =? 0)) eqn:Er; cbn [throw_if mbind result_bind]; [eauto|]. bool_to_prop.
  destruct (validate_state _) as [u|e] eqn:Eval; [destruct u|eauto]. left.
  apply validate_state_Ok in Eval. eexists. split; [done|].
  rewrite remaining_unread in Er by by eapply consumed_ok. apply size_0_nil in Er.
  destruct Hcons as [_ Hcons]. rewrite unread_new, Er, app_nil_r in Hcons.
  assert (size names' = c) as Hcount by (unfold size; lia).
  split; [exact (conj Hg (conj Hl Eval))|].
  split; [split; [exact Hf|simpl; by rewrite <-Hcons, Hpl]|].
  unfold manifest_bytes.
  assert (manifest_protected (MkManifestState g l names') = first (size bytes - 4) bytes) as Hprot.
  { unfold manifest_protected. simpl. rewrite <-Hcons, Hpl, Hcount, <-Hheader.
    unfold payload. rewrite <-first_add by lia. f_equal. lia. }
  simpl in *. rewrite Hprot. match goal with H : unle _ = crc32c _ |- _ => rewrite <-H end.
  rewrite le_4_unle by done. apply first_last. lia.
Qed.

(** ** Lemmas: files *)

Lemma size_manifest_bytes s :
  ManifestState_fits s -> size (manifest_bytes s) <= max_manifest_payload_size + 40.
Proof.
  intros [_ Hp]. unfold manifest_bytes, manifest_protected.
  rewrite !size_app, size_manifest_header, size_le. lia.
Qed.

(** Loading decodes the file, and a missing file is the empty state. *)
Lemma wp_load_manifest directory w :
  (forall bytes, file_of (fs w) (manifest_path directory) = Some bytes -> size bytes <= max_stream) ->
  wp (load_manifest directory) w (reading
    (fun s => match file_of (fs w) (manifest_path directory) with
              | None => s = empty_manifest
              | Some bytes => decode_manifest bytes = Ok s
              end)
    (fun e => exists what bytes, e = ManifestFormatError what /\
       file_of (fs w) (manifest_path directory) = Some bytes /\ forall s, decode_manifest bytes <> Ok s) w).
Proof.
  intros Hmax. unfold load_manifest. set (p := manifest_path directory) in *.
  apply wp_reading_query; [|by eexists]. intros w1 Hf1 Hs1.
  destruct (file_of (fs w) p) as [bytes|] eqn:Hfile; pose proof Hfile as Hfile0;
    unfold file_of in Hfile; destruct (now (entry (fs w) p)) as [i|] eqn:Hi; try done.
  rewrite bool_decide_true by eauto. cbn [negb]. specialize (Hmax bytes eq_refl).
  assert (file_of (fs w1) p = Some bytes) as Hfile1 by by rewrite Hf1.
  assert (forall w2, fs w2 = fs w1 -> file_of (fs w2) p = Some bytes) as Hfile2 by by intros w2 ->.
  eapply wp_reading_bind.
  { eapply wp_reading_mono; [apply wp_file_size_bytes; [done|]|intros n Hn; exact Hn|done].
    unfold max_stream, max_u64 in *. lia. }
  intros n w2 -> Hf2 Hs2. eapply wp_reading_bind.
  { apply wp_reading_throw_when. intros Hc. bool_to_prop. eexists _, bytes. split_and!; [done|done|].
    intros s Hs. destruct (decode_manifest_cases bytes) as [(s' & _ & _ & Hfits & ->)|(what & He)].
    - apply size_manifest_bytes in Hfits. unfold manifest_header_size, manifest_checksum_size in Hc. lia.
    - by rewrite He in Hs. }
  intros u w3 Hc Hf3 Hs3. bool_to_prop. pose proof (size_nonneg bytes).
  eapply wp_reading_bind.
  { eapply wp_reading_mono; [apply wp_read_file_bytes; [apply Hfile2; congruence|lia|lia|lia|done]
      |intros b Hb; exact Hb|done]. }
  intros b w4 -> Hf4 Hs4. unfold subspan. change (Z.to_nat 0) with 0%nat.
  rewrite drop_0, to_nat_size, firstn_all. apply wp_reading_lift; [done|].
  intros e He. destruct (decode_manifest_cases bytes) as [(s' & Hs' & _)|(what & He')]; [congruence|].
  rewrite He' in He. injection He as <-. eexists what, bytes. split_and!; [done|done|]. by rewrite He'.
Qed.

(** ** Properties *)

(** C32: the codec is exact: bytes decode to a state if and only if the state, with
    its counters in range, encodes to these bytes; anything else is reported as a
    [ManifestFormatError]. *)
Theorem manifest_codec bytes :
  (forall s, decode_manifest bytes = Ok s <->
     in_u 64 (generation s) /\ in_u 64 (logical_sample_count s) /\ encode_manifest s = Ok bytes) /\
  (forall e, decode_manifest bytes = Err e -> exists what, e = ManifestFormatError what).
Proof.
  split; [intros s; split|].
  - intros H. destruct (decode_manifest_cases bytes) as [(s' & Hs' & Hok & Hf & ->)|(what & He)];
      rewrite H in *; [|done]. injection Hs' as <-. rewrite encode_manifest_Ok by done.
    split_and!; [apply Hok|apply Hok|done].
  - intros (Hg & Hl & He). apply encode_manifest_inv in He as (Hok & Hf & ->); [|done..].
    by apply decode_manifest_bytes.
  - intros e He. destruct (decode_manifest_cases bytes) as [(s' & Hs' & _)|(what & He')];
      rewrite He in *; [done|]. injection He' as ->. eauto.
Qed.

Definition example_manifest : ManifestState :=
  MkManifestState 1 2 ["segment-00000000000000000001.cst"].
Definition example_manifest_bytes : list byte :=
  match encode_manifest example_manifest with Ok bytes => bytes | Err _ => [] end.

Lemma manifest_codec_witness :
  decode_manifest example_manifest_bytes = Ok example_manifest /\
  (forall e, decode_manifest (tail example_manifest_bytes) = Err e -> exists what, e = ManifestFormatError what).
Proof.
  split; [|apply manifest_codec].
  apply manifest_codec. split; [by vm_compute|]. split; [by vm_compute|]. vm_compute. reflexivity.
Defined.

(** C31: once [store_manifest] has returned, [load_manifest] finds the state again,
    after a power loss too; if it has not returned, the file is still the old one
    or already the new one. *)
Theorem store_load_manifest directory state w o w' old f :
  fs_ok (fs w) -> durable (fs w) (manifest_path directory) old ->
  in_u 64 (generation state) -> in_u 64 (logical_sample_count state) ->
  store_manifest directory state w = (o, w') -> crash (fs w') f ->
  match o with
  | Done _ => load_manifest directory (World f []) = (Done state, World f [])
  | _ => file_of f (manifest_path directory) = old \/
         exists bytes, encode_manifest state = Ok bytes /\
           file_of f (manifest_path directory) = Some bytes
  end.
Proof.
  intros Hok Hold Hg Hl Hrun Hcrash. unfold store_manifest in Hrun.
  destruct (encode_manifest state) as [bytes|e] eqn:He; unfold lift, mbind, M_bind in Hrun.
  2:{ injection Hrun as <- <-. left. eapply durable_after_crash; [done|]. by apply crash_file_of. }
  pose proof (wp_atomic_write_file (manifest_path directory) bytes w Hok) as Hw.
  unfold wp in Hw. rewrite Hrun in Hw. destruct Hw as (_ & _ & Ho).
  destruct o as [u|e|].
  - destruct Ho as [Hd _]. apply (durable_crash _ f) in Hd; [|done]. apply durable_file_of in Hd.
    apply encode_manifest_inv in He as (Hs & Hf & ->); [|done..].
    pose proof (wp_load_manifest directory (World f [])) as Hload. cbn [fs] in Hload.
    rewrite Hd in Hload. unfold wp in Hload.
    destruct (load_manifest directory (World f [])) as [o' [f' sc']]. cbn [fst snd] in Hload.
    destruct Hload as [Hfs Ho'].
    { intros b [= <-]. apply size_manifest_bytes in Hf. unfold max_stream, max_manifest_payload_size in *.
      lia. }
    cbn [fs] in Hfs. subst f'. pose proof (decode_manifest_bytes state Hs Hf) as Hdec.
    destruct o' as [s'|e|]; [|exfalso..].
    + destruct Ho' as [Hs' Hfaulty]. rewrite Hdec in Hs'. injection Hs' as ->.
      unfold faulty in Hfaulty. cbn [script] in Hfaulty. destruct sc'; [done|by destruct Hfaulty].
    + destruct Ho' as [Ho'|(what & b & _ & [= <-] & Hn)]; [by apply Ho'|by destruct (Hn state)].
    + by apply Ho'.
  - destruct Ho as [_ Hr]. destruct (Hr old _ Hold (crash_file_of _ _ _ Hcrash)); eauto.
  - destruct Ho as [_ Hr]. destruct (Hr old _ Hold (crash_file_of _ _ _ Hcrash)); eauto.
Qed.

(** The new manifest is there after any power loss that follows. *)
Lemma store_load_manifest_witness :
  let w := World (single_file (manifest_path "db") [Byte.x00]) [] in
  let r := store_manifest "db" example_manifest w in
  r.1 = Done tt /\
  forall f, crash (fs r.2) f -> load_manifest "db" (World f []) = (Done example_manifest, World f []).
Proof.
  intros w r. assert (r.1 = Done tt) as Ho by (vm_compute; reflexivity). split; [exact Ho|].
  intros f Hf. pose proof (store_load_manifest "db" example_manifest w r.1 r.2 (Some [Byte.x00]) f) as H.
  rewrite Ho in H. apply H; [apply single_file_ok|apply single_file_durable|by vm_compute|by vm_compute| |exact Hf].
  rewrite <-Ho. apply surjective_pairing.
Defined.
