(* ===== verification/SegmentFile.v ===== *)
(** * Segment files (src/segment_file.cpp): the format

    Header, blocks, index, footer.  This file models the encoders and decoders of
    the parts, [write_segment_file], and [SegmentReader] with its four queries;
    the theorems about them are in SegmentFormat.v (the bytes) and SegmentQuery.v
    (the queries). *)

From stdpp Require Import base tactics option numbers list strings.
From Stdlib Require Import ZArith Lia Strings.Byte.
From S2P Require Import Prelude Errors World Model ByteCodec Crc32c KeyCodec FileIo SegmentBlock.

Definition segment_file_magic : Z := 1179079491.     (* 0x46475343 *)
Definition segment_footer_magic : Z := 1413894979.   (* 0x54465343 *)
Definition segment_index_magic : Z := 1481200451.    (* 0x58495343 *)
Definition segment_file_version : Z := 1.
Definition segment_file_flags : Z := 0.
Definition segment_header_size : Z := 32.
Definition segment_footer_size : Z := 32.
Definition segment_index_header_size : Z := 20.
Definition checksum_size : Z := 4.
Definition max_index_payload_size : Z := 64 * 1024 * 1024.
Definition max_segment_block_count : Z := 1000000.

Record SegmentEnvelope := MkSegmentEnvelope {
  block_count : Z;
  index_offset : Z;
  index_size : Z;
}.

Record SegmentIndexEntry := MkSegmentIndexEntry {
  entry_series : SeriesKey;
  entry_first_timestamp : Timestamp;
  entry_last_timestamp : Timestamp;
  block_offset : Z;
  block_size : Z;
  entry_sample_count : Z;
}.

#[export] Instance SegmentIndexEntry_eq_dec : EqDecision SegmentIndexEntry.
Proof. solve_decision. Defined.

Record SegmentFileMetadata := MkSegmentFileMetadata {
  metadata_file_size : Z;
  metadata_sample_count : Z;
  metadata_block_count : Z;
}.

(** ** Series keys in the index *)

Definition write_string : ByteWriter -> string -> result ByteWriter :=
  write_string_or "segment index string is too large".

Definition read_string : Parser string := ByteCodec.read_string.

Definition write_series_key (w : ByteWriter) (s : SeriesKey) : result ByteWriter :=
  w ← write_string w (measurement s);
  throw_if (max_u32 <? size (tags s)) (length_error "segment index contains too many tags");;
  let w := write_u32 w (u32 (size (tags s))) in
  result_foldl (fun w tag => w ← write_string w (key tag); write_string w (value tag)) w (tags s).

(** The statements the segment encoders share. *)
Lemma write_series_key_or :
  write_series_key = write_key_or "segment index string is too large" "segment index contains too many tags".
Proof. reflexivity. Qed.

(** The body of [read_series_key]'s [try] block. *)
Definition read_series_key_body : Parser SeriesKey :=
  m ← read_string;
  tag_count ← read_u32;
  rem ← p_remaining;
  reject_if (rem / 8 <? tag_count);;
  ts ← read_sorted_tags (Z.to_nat tag_count) [];
  p_lift (make_SeriesKey m ts).

Definition read_series_key : Parser SeriesKey := fun r =>
  match read_series_key_body r with
  | Err (invalid_argument _) => Ok None
  | o => o
  end.

(** ** Header and footer *)

Definition encode_header (block_count index_offset index_size : Z) : list byte :=
  let w := write_u32 new_writer segment_file_magic in
  let w := write_u16 w segment_file_version in
  let w := write_u16 w segment_file_flags in
  let w := write_u32 w block_count in
  let w := write_u64 w index_offset in
  let w := write_u64 w index_size in
  let w := write_u32 w (crc32c (writer_data w)) in
  writer_data w.

Definition encode_footer (block_count index_offset index_size : Z) : list byte :=
  let w := write_u32 new_writer segment_footer_magic in
  let w := write_u16 w segment_file_version in
  let w := write_u16 w segment_file_flags in
  let w := write_u64 w index_offset in
  let w := write_u64 w index_size in
  let w := write_u32 w block_count in
  let w := write_u32 w (crc32c (writer_data w)) in
  writer_data w.

Definition read_header_fields : Parser (Z * Z * Z * Z * Z * Z * Z) :=
  magic ← read_u32;
  version ← read_u16;
  flags ← read_u16;
  block_count ← read_u32;
  index_offset ← read_u64;
  index_size ← read_u64;
  stored_checksum ← read_u32;
  mret (magic, version, flags, block_count, index_offset, index_size, stored_checksum).

Definition decode_header (bytes : list byte) : result SegmentEnvelope :=
  throw_if (negb (size bytes =? segment_header_size))
    (SegmentFormatError "invalid segment header size");;
  fields ← read_header_fields (new_reader bytes);
  match fields with
  | None => Err (SegmentFormatError "incomplete segment header")
  | Some ((magic, version, flags, block_count, index_offset, index_size, stored_checksum), _) =>
    throw_if (negb (magic =? segment_file_magic))
      (SegmentFormatError "invalid segment header magic");;
    throw_if (negb (stored_checksum =? crc32c (first (segment_header_size - checksum_size) bytes)))
      (SegmentFormatError "segment header checksum mismatch");;
    throw_if (negb (version =? segment_file_version) || negb (flags =? segment_file_flags))
      (SegmentFormatError "unsupported segment header version or flags");;
    throw_if ((block_count =? 0) || (max_segment_block_count <? block_count))
      (SegmentFormatError "invalid segment block count");;
    Ok (MkSegmentEnvelope block_count index_offset index_size)
  end.

Definition read_footer_fields : Parser (Z * Z * Z * Z * Z * Z * Z) :=
  magic ← read_u32;
  version ← read_u16;
  flags ← read_u16;
  index_offset ← read_u64;
  index_size ← read_u64;
  block_count ← read_u32;
  stored_checksum ← read_u32;
  mret (magic, version, flags, index_offset, index_size, block_count, stored_checksum).

Definition decode_footer (bytes : list byte) : result SegmentEnvelope :=
  throw_if (negb (size bytes =? segment_footer_size))
    (SegmentFormatError "invalid segment footer size");;
  fields ← read_footer_fields (new_reader bytes);
  match fields with
  | None => Err (SegmentFormatError "incomplete segment footer")
  | Some ((magic, version, flags, index_offset, index_size, block_count, stored_checksum), _) =>
    throw_if (negb (magic =? segment_footer_magic))
      (SegmentFormatError "invalid segment footer magic");;
    throw_if (negb (stored_checksum =? crc32c (first (segment_footer_size - checksum_size) bytes)))
      (SegmentFormatError "segment footer checksum mismatch");;
    throw_if (negb (version =? segment_file_version) || negb (flags =? segment_file_flags))
      (SegmentFormatError "unsupported segment footer version or flags");;
    Ok (MkSegmentEnvelope block_count index_offset index_size)
  end.

(** ** The index *)

(** One turn of [encode_index]'s loop. *)
Definition write_entry (w : ByteWriter) (e : SegmentIndexEntry) : result ByteWriter :=
  let w := write_u64 w (block_offset e) in
  let w := write_u32 w (block_size e) in
  let w := write_u32 w (entry_sample_count e) in
  let w := write_u64 w (u64 (nanoseconds_since_epoch (entry_first_timestamp e))) in
  let w := write_u64 w (u64 (nanoseconds_since_epoch (entry_last_timestamp e))) in
  write_series_key w (entry_series e).

Definition encode_index (entries : list SegmentIndexEntry) : result (list byte) :=
  payload ← result_foldl write_entry new_writer entries;
  throw_if (max_index_payload_size <? size (writer_data payload))
    (length_error "segment index payload is too large");;
  let payload_size := u32 (size (writer_data payload)) in
  let inverted_size := Z.lxor payload_size max_u32 in
  let w := write_u32 new_writer segment_index_magic in
  let w := write_u16 w segment_file_version in
  let w := write_u16 w segment_file_flags in
  let w := write_u32 w (u32 (size entries)) in
  let w := write_u32 w payload_size in
  let w := write_u32 w inverted_size in
  let w := write_bytes w (writer_data payload) in
  let w := write_u32 w (crc32c (writer_data w)) in
  Ok (writer_data w).

(** [entry.series < previous.series || (entry.series == previous.series &&
    entry.first_timestamp <= previous.last_timestamp)] *)
Definition misordered (previous_series : SeriesKey) (previous_last : Timestamp)
    (series : SeriesKey) (first : Timestamp) : bool :=
  (series ≺? previous_series) || ((series ≡? previous_series) && (first ≼? previous_last)).

(** The loop of [validate_index]: the final [expected_offset]. *)
Fixpoint validate_entries (previous : option SegmentIndexEntry) (expected_offset : Z)
    (entries : list SegmentIndexEntry) (index_offset : Z) : result Z :=
  match entries with
  | [] => Ok expected_offset
  | entry :: entries' =>
    throw_if (negb (block_offset entry =? expected_offset) || (index_offset <? block_offset entry)
              || (block_size entry =? 0) || (entry_sample_count entry =? 0)
              || (max_samples_per_segment_block <? entry_sample_count entry)
              || (entry_last_timestamp entry ≺? entry_first_timestamp entry))
      (SegmentFormatError "invalid segment index entry");;
    throw_if (index_offset - block_offset entry <? block_size entry)
      (SegmentFormatError "segment block extends into index");;
    throw_if
      (match previous with
       | Some previous => misordered (entry_series previous) (entry_last_timestamp previous)
                            (entry_series entry) (entry_first_timestamp entry)
       | None => false
       end)
      (SegmentFormatError "segment index is not strictly ordered");;
    validate_entries (Some entry) (u64 (expected_offset + block_size entry)) entries' index_offset
  end.

Definition validate_index (entries : list SegmentIndexEntry) (index_offset : Z) : result unit :=
  expected_offset ← validate_entries None segment_header_size entries index_offset;
  throw_if (negb (expected_offset =? index_offset))
    (SegmentFormatError "segment block region has an invalid size").

Definition read_index_header : Parser (Z * Z * Z * Z * Z * Z) :=
  magic ← read_u32;
  version ← read_u16;
  flags ← read_u16;
  entry_count ← read_u32;
  payload_size ← read_u32;
  inverted_size ← read_u32;
  mret (magic, version, flags, entry_count, payload_size, inverted_size).

Definition read_entry_fields : Parser (Z * Z * Z * Z * Z) :=
  block_offset ← read_u64;
  block_size ← read_u32;
  sample_count ← read_u32;
  first_timestamp_bits ← read_u64;
  last_timestamp_bits ← read_u64;
  mret (block_offset, block_size, sample_count, first_timestamp_bits, last_timestamp_bits).

(** The loop of [decode_index]. *)
Fixpoint read_entries (entry_count : nat) (entries : list SegmentIndexEntry) (r : ByteReader)
    : result (list SegmentIndexEntry * ByteReader) :=
  match entry_count with
  | O => Ok (entries, r)
  | S n =>
    fields ← read_entry_fields r;
    match fields with
    | None => Err (SegmentFormatError "segment index entry is incomplete")
    | Some ((block_offset, block_size, sample_count, first_bits, last_bits), r) =>
      series ← read_series_key r;
      match series with
      | None => Err (SegmentFormatError "segment index contains an invalid series key")
      | Some (series, r) =>
        read_entries n (entries ++ [MkSegmentIndexEntry series (MkTimestamp (i64 first_bits))
          (MkTimestamp (i64 last_bits)) block_offset block_size sample_count]) r
      end
    end
  end.

Definition decode_index (bytes : list byte) (expected_entry_count index_offset : Z)
    : result (list SegmentIndexEntry) :=
  throw_if (size bytes <? segment_index_header_size + checksum_size)
    (SegmentFormatError "segment index is incomplete");;
  header ← read_index_header (new_reader bytes);
  match header with
  | None => Err (SegmentFormatError "segment index header is incomplete")
  | Some ((magic, version, flags, entry_count, payload_size, inverted_size), _) =>
    throw_if (negb (magic =? segment_index_magic) || negb (version =? segment_file_version)
              || negb (flags =? segment_file_flags))
      (SegmentFormatError "invalid or unsupported segment index header");;
    throw_if (negb (entry_count =? expected_entry_count) || (entry_count =? 0)
              || (max_segment_block_count <? entry_count)
              || negb (inverted_size =? Z.lxor payload_size max_u32)
              || (max_index_payload_size <? payload_size))
      (SegmentFormatError "invalid segment index metadata");;
    let expected_size := segment_index_header_size + payload_size + checksum_size in
    throw_if (negb (size bytes =? expected_size))
      (SegmentFormatError "segment index size mismatch");;
    let protected_size := size bytes - checksum_size in
    stored ← read_u32 (new_reader (last_bytes checksum_size bytes));
    throw_if
      (match stored with
       | None => true
       | Some (stored_checksum, _) => negb (stored_checksum =? crc32c (first protected_size bytes))
       end)
      (SegmentFormatError "segment index checksum mismatch");;
    '(entries, payload_reader) ← read_entries (Z.to_nat entry_count) []
        (new_reader (subspan segment_index_header_size payload_size bytes));
    throw_if (negb (remaining payload_reader =? 0))
      (SegmentFormatError "segment index contains trailing payload bytes");;
    validate_index entries index_offset;;
    Ok entries
  end.

(** ** Writing *)

(** The loop of [validate_blocks]. *)
Fixpoint adjacent_misordered (blocks : list SegmentBlock) : bool :=
  match blocks with
  | previous :: ((current :: _) as rest) =>
    misordered (block_series previous) (last_timestamp previous)
      (block_series current) (first_timestamp current)
    || adjacent_misordered rest
  | _ => false
  end.

Definition validate_blocks (blocks : list SegmentBlock) : result unit :=
  throw_if (bool_decide (blocks = [])) (invalid_argument "cannot write an empty segment");;
  throw_if (max_segment_block_count <? size blocks)
    (length_error "segment contains too many blocks");;
  throw_if (adjacent_misordered blocks)
    (invalid_argument "segment blocks must be strictly ordered").

(** One turn of [write_segment_file]'s loop, on the file, the index and the count. *)
Definition append_block (acc : list byte * list SegmentIndexEntry * Z) (b : SegmentBlock)
    : result (list byte * list SegmentIndexEntry * Z) :=
  let '(file_bytes, entries, sample_count) := acc in
  encoded ← encode_segment_block b;
  throw_if (max_u32 <? size encoded) (length_error "encoded segment block is too large");;
  let offset := size file_bytes in
  let encoded_size := u32 (size encoded) in
  let samples := u32 (block_sample_count b) in
  Ok (file_bytes ++ encoded,
      entries ++ [MkSegmentIndexEntry (block_series b) (first_timestamp b) (last_timestamp b)
                    offset encoded_size samples],
      u64 (sample_count + samples)).

(** The bytes [write_segment_file] builds, and the metadata it returns. *)
Definition segment_file_bytes (blocks : list SegmentBlock)
    : result (list byte * SegmentFileMetadata) :=
  validate_blocks blocks;;
  acc ← result_foldl append_block (replicate 32 Byte.x00, [], 0) blocks;
  let '(file_bytes, entries, sample_count) := acc in
  let index_offset := size file_bytes in
  encoded_index ← encode_index entries;
  let index_size := size encoded_index in
  let file_bytes := file_bytes ++ encoded_index in
  let footer := encode_footer (u32 (size blocks)) index_offset index_size in
  let file_bytes := file_bytes ++ footer in
  let header := encode_header (u32 (size blocks)) index_offset index_size in
  throw_if (negb (size header =? segment_header_size) || negb (size footer =? segment_footer_size))
    (logic_error "segment envelope has an unexpected encoded size");;
  let file_bytes := header ++ drop (length header) file_bytes in
  Ok (file_bytes, MkSegmentFileMetadata (size file_bytes) sample_count (u32 (size blocks))).

Definition write_segment_file (p : path) (blocks : list SegmentBlock) : M world SegmentFileMetadata :=
  built ← lift (segment_file_bytes blocks);
  let '(file_bytes, metadata) := built in
  atomic_write_file p file_bytes;;
  mret metadata.

(** ** [SegmentReader] *)

Record SegmentReader := MkSegmentReader {
  reader_path : path;
  reader_file_size : Z;
  reader_sample_count : Z;
  reader_index : list SegmentIndexEntry;
}.

(** [SegmentReader::block_count] *)
Definition reader_block_count (r : SegmentReader) : Z := size (reader_index r).

(** [SegmentReader::SegmentReader] *)
Definition open_segment (p : path) : M world SegmentReader :=
  file_size ← file_size_bytes p;
  throw_when (file_size <? segment_header_size + segment_footer_size
                           + segment_index_header_size + checksum_size)
    (SegmentFormatError "segment file is too small");;
  header_bytes ← read_file_bytes p 0 segment_header_size;
  footer_bytes ← read_file_bytes p (file_size - segment_footer_size) segment_footer_size;
  header ← lift (decode_header header_bytes);
  footer ← lift (decode_footer footer_bytes);
  throw_when (negb (block_count header =? block_count footer)
              || negb (index_offset header =? index_offset footer)
              || negb (index_size header =? index_size footer))
    (SegmentFormatError "segment header and footer disagree");;
  throw_when ((index_offset header <? segment_header_size)
              || (index_size header <? segment_index_header_size + checksum_size)
              || (max_index_payload_size + segment_index_header_size + checksum_size <? index_size header)
              || (file_size <? index_offset header)
              || (file_size - index_offset header <? index_size header)
              || negb (index_offset header + index_size header + segment_footer_size =? file_size))
    (SegmentFormatError "segment index bounds are invalid");;
  index_bytes ← read_file_bytes p (index_offset header) (index_size header);
  index ← lift (decode_index index_bytes (block_count header) (index_offset header));
  mret (MkSegmentReader p file_size
          (foldl (fun n e => u64 (n + entry_sample_count e)) 0 index) index).

Definition block_mismatch : exn := SegmentFormatError "segment block does not match its index entry".

(** [SegmentReader::read_block] *)
Definition read_block (r : SegmentReader) (e : SegmentIndexEntry) : M world SegmentBlock :=
  bytes ← read_file_bytes (reader_path r) (block_offset e) (block_size e);
  decoded ← lift (decode_segment_block bytes);
  match block decoded with
  | Some b =>
    throw_when (negb (block_success decoded)
                || negb (block_bytes_consumed decoded =? size bytes)
                || negb (block_series b ≡? entry_series e)
                || negb (block_sample_count b =? entry_sample_count e)
                || negb (first_timestamp b ≡? entry_first_timestamp e)
                || negb (last_timestamp b ≡? entry_last_timestamp e))
      block_mismatch;;
    mret b
  | None => throw block_mismatch
  end.

(** [SegmentReader::latest] *)
Definition segment_latest (r : SegmentReader) (series : SeriesKey) : M world (option Sample) :=
  let end_ := partition_point (fun e => negb (series ≺? entry_series e)) (reader_index r) in
  match end_ with
  | O => mret None
  | S before_end =>
    match reader_index r !! before_end with
    | None => mret None
    | Some entry =>
      if negb (entry_series entry ≡? series) then mret None
      else
        b ← read_block r entry;
        mret (Some (List.last (block_samples b) default_sample))
    end
  end.

(** [std::lower_bound] of the series in the index, as the entries from there on. *)
Definition entries_from (r : SegmentReader) (series : SeriesKey) : list SegmentIndexEntry :=
  drop (partition_point (fun candidate => entry_series candidate ≺? series) (reader_index r))
    (reader_index r).

(** The loop of [SegmentReader::get]. *)
Fixpoint segment_get_loop (r : SegmentReader) (entries : list SegmentIndexEntry)
    (series : SeriesKey) (t : Timestamp) : M world (option Sample) :=
  match entries with
  | [] => mret None
  | entry :: next =>
    if negb (entry_series entry ≡? series) then mret None
    else if t ≺? entry_first_timestamp entry then mret None
    else if entry_last_timestamp entry ≺? t then segment_get_loop r next series t
    else
      b ← read_block r entry;
      match drop (partition_point (fun candidate => timestamp candidate ≺? t) (block_samples b))
              (block_samples b) with
      | sample :: _ => mret (if timestamp sample ≡? t then Some sample else None)
      | [] => mret None
      end
  end.

Definition segment_get (r : SegmentReader) (series : SeriesKey) (t : Timestamp)
    : M world (option Sample) :=
  segment_get_loop r (entries_from r series) series t.

(** The loop of [SegmentReader::range]. *)
Fixpoint segment_range_loop (r : SegmentReader) (entries : list SegmentIndexEntry)
    (series : SeriesKey) (start end_ : Timestamp) (acc : list Sample) : M world (list Sample) :=
  match entries with
  | [] => mret acc
  | entry :: next =>
    if negb (entry_series entry ≡? series) then mret acc
    else if entry_last_timestamp entry ≺? start then segment_range_loop r next series start end_ acc
    else if end_ ≼? entry_first_timestamp entry then mret acc
    else
      b ← read_block r entry;
      let from := drop (partition_point (fun s => timestamp s ≺? start) (block_samples b))
                    (block_samples b) in
      let upto := take (partition_point (fun s => timestamp s ≺? end_) from) from in
      segment_range_loop r next series start end_ (acc ++ upto)
  end.

Definition segment_range (r : SegmentReader) (series : SeriesKey) (start end_ : Timestamp)
    : M world (list Sample) :=
  throw_when (end_ ≺? start) (invalid_argument "range end must not precede range start");;
  if start ≡? end_ then mret []
  else segment_range_loop r (entries_from r series) series start end_ [].

(** The loop of [SegmentReader::blocks]. *)
Fixpoint read_blocks (r : SegmentReader) (entries : list SegmentIndexEntry) : M world (list SegmentBlock) :=
  match entries with
  | [] => mret []
  | entry :: entries' => b ← read_block r entry; bs ← read_blocks r entries'; mret (b :: bs)
  end.

Definition segment_blocks (r : SegmentReader) : M world (list SegmentBlock) :=
  read_blocks r (reader_index r).
