(* ===== verification/SegmentFormat.v ===== *)
(** * Segment files: the bytes

    [segment_bytes] is the reference layout.  [write_segment_file] produces it and
    nothing else; [open_segment] accepts a file exactly when it has this layout
    around its blocks, reports any other file as [SegmentFormatError], and
    [segment_blocks] gives the blocks back ([segment_roundtrip],
    [segment_exact]). *)

From stdpp Require Import base tactics option numbers list strings gmap.
From Stdlib Require Import ZArith Lia Strings.Byte.
From S2P Require Import Prelude Errors World Hoare Model ByteCodec Crc32c KeyCodec View FileIo SegmentBlock SegmentFile.

(** ** The reference layout *)

Definition block_bytes (b : SegmentBlock) : list byte :=
  block_frame (block_payload b) (block_sample_count b).

Definition entry_of (offset : Z) (b : SegmentBlock) : SegmentIndexEntry :=
  MkSegmentIndexEntry (block_series b) (first_timestamp b) (last_timestamp b) offset
    (size (block_bytes b)) (block_sample_count b).

Fixpoint entries_of (offset : Z) (blocks : list SegmentBlock) : list SegmentIndexEntry :=
  match blocks with
  | [] => []
  | b :: blocks' => entry_of offset b :: entries_of (offset + size (block_bytes b)) blocks'
  end.

Definition blocks_bytes (blocks : list SegmentBlock) : list byte := concat (map block_bytes blocks).

Definition le_entry (e : SegmentIndexEntry) : list byte :=
  le 8 (block_offset e) ++ le 4 (block_size e) ++ le 4 (entry_sample_count e) ++
  le 8 (u64 (nanoseconds_since_epoch (entry_first_timestamp e))) ++
  le 8 (u64 (nanoseconds_since_epoch (entry_last_timestamp e))) ++
  le_series_key (entry_series e).

Definition le_entries (entries : list SegmentIndexEntry) : list byte := concat (map le_entry entries).

(** Bytes followed by their checksum. *)
Definition with_crc (bytes : list byte) : list byte := bytes ++ le 4 (crc32c bytes).

Definition header_bytes (e : SegmentEnvelope) : list byte :=
  with_crc (le 4 segment_file_magic ++ le 2 segment_file_version ++ le 2 segment_file_flags ++
    le 4 (block_count e) ++ le 8 (index_offset e) ++ le 8 (index_size e)).

Definition footer_bytes (e : SegmentEnvelope) : list byte :=
  with_crc (le 4 segment_footer_magic ++ le 2 segment_file_version ++ le 2 segment_file_flags ++
    le 8 (index_offset e) ++ le 8 (index_size e) ++ le 4 (block_count e)).

Definition index_header (magic version flags count payload inverted : Z) : list byte :=
  le 4 magic ++ le 2 version ++ le 2 flags ++ le 4 count ++ le 4 payload ++ le 4 inverted.

Definition index_bytes (entries : list SegmentIndexEntry) : list byte :=
  let payload := le_entries entries in
  with_crc (index_header segment_index_magic segment_file_version segment_file_flags
    (size entries) (size payload) (Z.lxor (size payload) max_u32) ++ payload).

Definition envelope_of (blocks : list SegmentBlock) : SegmentEnvelope :=
  MkSegmentEnvelope (size blocks) (32 + size (blocks_bytes blocks))
    (size (index_bytes (entries_of 32 blocks))).

Definition segment_bytes (blocks : list SegmentBlock) : list byte :=
  header_bytes (envelope_of blocks) ++ blocks_bytes blocks ++ index_bytes (entries_of 32 blocks) ++
  footer_bytes (envelope_of blocks).

(** What [write_segment_file] accepts. *)
Definition blocks_ok (blocks : list SegmentBlock) : Prop :=
  blocks <> [] /\ size blocks <= max_segment_block_count /\
  Forall SegmentBlock_ok blocks /\ adjacent_misordered blocks = false.

Definition blocks_fit (blocks : list SegmentBlock) : Prop :=
  Forall SegmentBlock_fits blocks /\ size (le_entries (entries_of 32 blocks)) <= max_index_payload_size.

Definition envelope_ok (e : SegmentEnvelope) : Prop :=
  in_u 32 (block_count e) /\ in_u 64 (index_offset e) /\ in_u 64 (index_size e).

Definition entry_ok (e : SegmentIndexEntry) : Prop :=
  SeriesKey_ok (entry_series e) /\ SeriesKey_fits (entry_series e) /\
  Timestamp_ok (entry_first_timestamp e) /\ Timestamp_ok (entry_last_timestamp e) /\
  in_u 64 (block_offset e) /\ in_u 32 (block_size e) /\ in_u 32 (entry_sample_count e).

(** ** Lemmas: header and footer *)

Lemma size_with_crc bytes : size (with_crc bytes) = size bytes + 4.
Proof. unfold with_crc. by rewrite size_app, size_le. Qed.

Lemma size_header_bytes e : size (header_bytes e) = 32.
Proof. unfold header_bytes. rewrite size_with_crc. by autorewrite with chrono_size. Qed.
Lemma size_footer_bytes e : size (footer_bytes e) = 32.
Proof. unfold footer_bytes. rewrite size_with_crc. by autorewrite with chrono_size. Qed.

Lemma encode_header_bytes e :
  envelope_ok e -> encode_header (block_count e) (index_offset e) (index_size e) = header_bytes e.
Proof.
  intros (Hc & Ho & Hs). unfold encode_header, in_u in *. rewrite write_u32_le by apply crc32c_in_u32.
  rewrite !write_u64_le by lia. rewrite !write_u32_le by lia.
  rewrite !write_u16_le by (unfold segment_file_version, segment_file_flags; lia).
  rewrite write_u32_le by (unfold segment_file_magic; lia).
  unfold header_bytes, with_crc. simpl. by rewrite <-!app_assoc.
Qed.

Lemma encode_footer_bytes e :
  envelope_ok e -> encode_footer (block_count e) (index_offset e) (index_size e) = footer_bytes e.
Proof.
  intros (Hc & Ho & Hs). unfold encode_footer, in_u in *. rewrite write_u32_le by apply crc32c_in_u32.
  rewrite write_u32_le by lia. rewrite !write_u64_le by lia.
  rewrite !write_u16_le by (unfold segment_file_version, segment_file_flags; lia).
  rewrite write_u32_le by (unfold segment_footer_magic; lia).
  unfold footer_bytes, with_crc. simpl. by rewrite <-!app_assoc.
Qed.

Lemma segment_constants :
  in_u 32 segment_file_magic /\ in_u 32 segment_footer_magic /\ in_u 32 segment_index_magic /\
  in_u 16 segment_file_version /\ in_u 16 segment_file_flags.
Proof. done. Qed.

Lemma decode_header_bytes e :
  envelope_ok e -> 1 <= block_count e <= max_segment_block_count ->
  decode_header (header_bytes e) = Ok e.
Proof.
  intros (Hc & Ho & Hs) Hcount. destruct segment_constants as (Hm & _ & _ & Hv & Hf).
  unfold decode_header, segment_header_size, checksum_size.
  rewrite size_header_bytes. cbn [Z.eqb Pos.eqb negb throw_if mbind result_bind].
  set (p := le 4 segment_file_magic ++ le 2 segment_file_version ++ le 2 segment_file_flags ++
    le 4 (block_count e) ++ le 8 (index_offset e) ++ le 8 (index_size e)).
  assert (first (32 - 4) (header_bytes e) = p) as ->.
  { apply first_app. unfold p. by autorewrite with chrono_size. }
  assert (reads read_header_fields (header_bytes e)
    (segment_file_magic, segment_file_version, segment_file_flags, block_count e, index_offset e,
     index_size e, crc32c p)) as Hreads.
  { unfold read_header_fields, header_bytes, with_crc. fold p. unfold p at 1. rewrite <-!app_assoc.
    eapply reads_bind; [by apply reads_u32|]. eapply reads_bind; [by apply reads_u16|].
    eapply reads_bind; [by apply reads_u16|]. eapply reads_bind; [by apply reads_u32|].
    eapply reads_bind; [by apply reads_u64|]. eapply reads_bind; [by apply reads_u64|].
    rewrite <-(app_nil_r (le 4 (crc32c p))). eapply reads_bind; [by apply reads_u32, crc32c_in_u32|].
    apply reads_ret. }
  rewrite (Hreads (new_reader _) []) by (apply new_reader_ok || by rewrite app_nil_r, unread_new).
  cbn [mbind result_bind]. rewrite !Z.eqb_refl. cbn [negb orb throw_if mbind result_bind].
  rewrite (proj2 (Z.eqb_neq (block_count e) 0)), (proj2 (Z.ltb_ge _ (block_count e))) by lia.
  by destruct e.
Qed.

Lemma decode_footer_bytes e : envelope_ok e -> decode_footer (footer_bytes e) = Ok e.
Proof.
  intros (Hc & Ho & Hs). destruct segment_constants as (_ & Hm & _ & Hv & Hf).
  unfold decode_footer, segment_footer_size, checksum_size.
  rewrite size_footer_bytes. cbn [Z.eqb Pos.eqb negb throw_if mbind result_bind].
  set (p := le 4 segment_footer_magic ++ le 2 segment_file_version ++ le 2 segment_file_flags ++
    le 8 (index_offset e) ++ le 8 (index_size e) ++ le 4 (block_count e)).
  assert (first (32 - 4) (footer_bytes e) = p) as ->.
  { apply first_app. unfold p. by autorewrite with chrono_size. }
  assert (reads read_footer_fields (footer_bytes e)
    (segment_footer_magic, segment_file_version, segment_file_flags, index_offset e,
     index_size e, block_count e, crc32c p)) as Hreads.
  { unfold read_footer_fields, footer_bytes, with_crc. fold p. unfold p at 1. rewrite <-!app_assoc.
    eapply reads_bind; [by apply reads_u32|]. eapply reads_bind; [by apply reads_u16|].
    eapply reads_bind; [by apply reads_u16|]. eapply reads_bind; [by apply reads_u64|].
    eapply reads_bind; [by apply reads_u64|]. eapply reads_bind; [by apply reads_u32|].
    rewrite <-(app_nil_r (le 4 (crc32c p))). eapply reads_bind; [by apply reads_u32, crc32c_in_u32|].
    apply reads_ret. }
  rewrite (Hreads (new_reader _) []) by (apply new_reader_ok || by rewrite app_nil_r, unread_new).
  cbn [mbind result_bind]. rewrite !Z.eqb_refl. cbn [negb orb throw_if mbind result_bind].
  by destruct e.
Qed.

(** The decoders' other outcome. *)
Definition format_error {A} (r : result A) : Prop := exists what, r = Err (SegmentFormatError what).

(** All of a span's bytes consumed. *)
Lemma consumed_all bytes b r n :
  consumed (new_reader bytes) b r -> size bytes = n -> size b = n -> bytes = b.
Proof.
  intros [_ H] Hn Hb. rewrite unread_new in H. rewrite H in Hn. rewrite size_app in Hn.
  rewrite H, (size_0_nil (unread r)) by lia. by rewrite app_nil_r.
Qed.

(** Seven fields, the last of which is the checksum of what precedes it. *)
Lemma with_crc_intro bytes (f1 f2 f3 f4 f5 f6 : list byte) crc :
  bytes = f1 ++ f2 ++ f3 ++ f4 ++ f5 ++ f6 ++ le 4 crc ->
  size (f1 ++ f2 ++ f3 ++ f4 ++ f5 ++ f6) = 28 -> crc = crc32c (first (32 - 4) bytes) ->
  bytes = with_crc (f1 ++ f2 ++ f3 ++ f4 ++ f5 ++ f6).
Proof.
  intros Hb Hs Hcrc. assert (bytes = (f1 ++ f2 ++ f3 ++ f4 ++ f5 ++ f6) ++ le 4 crc) as ->
    by by rewrite <-!app_assoc.
  rewrite first_app in Hcrc by done. by subst crc.
Qed.

Lemma decode_header_cases bytes :
  (exists e, decode_header bytes = Ok e /\ envelope_ok e /\
     1 <= block_count e <= max_segment_block_count /\ bytes = header_bytes e) \/
  format_error (decode_header bytes).
Proof.
  unfold decode_header, segment_header_size, checksum_size, format_error.
  destruct (negb (size bytes =? 32)) eqn:Es; cbn [throw_if mbind result_bind]; [eauto|]. bool_to_prop.
  destruct (read_header_fields (new_reader bytes)) as [[[fields r]|]|e] eqn:E; cbn [mbind result_bind].
  2:{ eauto. }
  2:{ exfalso. revert E. assert (quiet read_header_fields) as Hq; [|apply Hq].
      unfold read_header_fields. auto 20 with chrono. }
  unfold read_header_fields in E. pose proof (new_reader_ok bytes) as Hc0. parser_inv.
  apply read_u32_inv in Hp as [? Hc1]; [|done].
  apply read_u16_inv in Hp0 as [? Hc2]; [|by eapply consumed_ok].
  apply read_u16_inv in Hp1 as [? Hc3]; [|by eapply consumed_ok].
  apply read_u32_inv in Hp2 as [? Hc4]; [|by eapply consumed_ok].
  apply read_u64_inv in Hp3 as [? Hc5]; [|by eapply consumed_ok].
  apply read_u64_inv in Hp4 as [? Hc6]; [|by eapply consumed_ok].
  apply read_u32_inv in Hp5 as [? Hc7]; [|by eapply consumed_ok].
  destruct (negb (a =? _)) eqn:Em; cbn [throw_if mbind result_bind]; [eauto|].
  destruct (negb (a5 =? _)) eqn:Ec; cbn [throw_if mbind result_bind]; [eauto|].
  destruct (negb (a0 =? _) || _) eqn:Ev; cbn [throw_if mbind result_bind]; [eauto|].
  destruct ((a2 =? 0) || _) eqn:Eb; cbn [throw_if mbind result_bind]; [eauto|].
  bool_to_prop. remember (crc32c (first (32 - 4) bytes)) as crc eqn:Hcrc. subst a a0 a1 a5.
  left. eexists. split; [done|]. split; [by split|]. unfold in_u in *. split; [simpl; lia|].
  pose proof (consumed_trans _ _ _ _ _ Hc1 (consumed_trans _ _ _ _ _ Hc2
    (consumed_trans _ _ _ _ _ Hc3 (consumed_trans _ _ _ _ _ Hc4 (consumed_trans _ _ _ _ _ Hc5
    (consumed_trans _ _ _ _ _ Hc6 Hc7)))))) as Hall.
  apply (consumed_all _ _ _ 32) in Hall; [|done|by autorewrite with chrono_size].
  eapply with_crc_intro; [exact Hall|by autorewrite with chrono_size|exact Hcrc].
Qed.

Lemma decode_footer_cases bytes :
  (exists e, decode_footer bytes = Ok e /\ envelope_ok e /\ bytes = footer_bytes e) \/
  format_error (decode_footer bytes).
Proof.
  unfold decode_footer, segment_footer_size, checksum_size, format_error.
  destruct (negb (size bytes =? 32)) eqn:Es; cbn [throw_if mbind result_bind]; [eauto|]. bool_to_prop.
  destruct (read_footer_fields (new_reader bytes)) as [[[fields r]|]|e] eqn:E; cbn [mbind result_bind].
  2:{ eauto. }
  2:{ exfalso. revert E. assert (quiet read_footer_fields) as Hq; [|apply Hq].
      unfold read_footer_fields. auto 20 with chrono. }
  unfold read_footer_fields in E. pose proof (new_reader_ok bytes) as Hc0. parser_inv.
  apply read_u32_inv in Hp as [? Hc1]; [|done].
  apply read_u16_inv in Hp0 as [? Hc2]; [|by eapply consumed_ok].
  apply read_u16_inv in Hp1 as [? Hc3]; [|by eapply consumed_ok].
  apply read_u64_inv in Hp2 as [? Hc4]; [|by eapply consumed_ok].
  apply read_u64_inv in Hp3 as [? Hc5]; [|by eapply consumed_ok].
  apply read_u32_inv in Hp4 as [? Hc6]; [|by eapply consumed_ok].
  apply read_u32_inv in Hp5 as [? Hc7]; [|by eapply consumed_ok].
  destruct (negb (a =? _)) eqn:Em; cbn [throw_if mbind result_bind]; [eauto|].
  destruct (negb (a5 =? _)) eqn:Ec; cbn [throw_if mbind result_bind]; [eauto|].
  destruct (negb (a0 =? _) || _) eqn:Ev; cbn [throw_if mbind result_bind]; [eauto|].
  bool_to_prop. remember (crc32c (first (32 - 4) bytes)) as crc eqn:Hcrc. subst a a0 a1 a5.
  left. eexists. split; [done|]. split; [by split|].
  pose proof (consumed_trans _ _ _ _ _ Hc1 (consumed_trans _ _ _ _ _ Hc2
    (consumed_trans _ _ _ _ _ Hc3 (consumed_trans _ _ _ _ _ Hc4 (consumed_trans _ _ _ _ _ Hc5
    (consumed_trans _ _ _ _ _ Hc6 Hc7)))))) as Hall.
  apply (consumed_all _ _ _ 32) in Hall; [|done|by autorewrite with chrono_size].
  eapply with_crc_intro; [exact Hall|by autorewrite with chrono_size|exact Hcrc].
Qed.

(** ** Lemmas: index entries *)

Lemma read_series_key_reads s :
  SeriesKey_ok s -> SeriesKey_fits s -> reads read_series_key (le_series_key s) s.
Proof.
  intros Hk (Hm & Ht & Htags). pose proof Hk as (_ & Hok & Hkeys).
  pose proof (size_nonneg (tags s)). pose proof (size_le_tags (tags s)).
  assert (reads read_series_key_body (le_series_key s) s) as Hbody.
  { unfold read_series_key_body, le_series_key. eapply reads_bind; [by apply reads_string|].
    eapply reads_bind; [apply reads_u32; unfold in_u, max_u32 in *; lia|].
    apply reads_remaining. intros n Hn.
    eapply reads_bind_nil; [apply reads_reject_if, Z.ltb_ge, Z.div_le_lower_bound; lia|].
    rewrite to_nat_size. rewrite <-(app_nil_r (le_tags _)).
    eapply reads_bind; [by apply reads_sorted_tags|]. by apply reads_lift, make_SeriesKey_id. }
  intros r rest Hr Hu. unfold read_series_key. by rewrite (Hbody r rest).
Qed.

Lemma read_series_key_body_throws : only_invalid read_series_key_body.
Proof. unfold read_series_key_body. eauto 25 with chrono_throws. Qed.

Lemma quiet_read_series_key : quiet read_series_key.
Proof.
  intros r e. unfold read_series_key. destruct (read_series_key_body r) as [o|e'] eqn:E; [done|].
  by destruct (read_series_key_body_throws _ _ E) as (what & ->).
Qed.

Lemma read_series_key_inv r s r' :
  reader_ok r -> read_series_key r = Ok (Some (s, r')) ->
  SeriesKey_ok s /\ SeriesKey_fits s /\ consumed r (le_series_key s) r'.
Proof.
  intros Hr H. unfold read_series_key in H.
  destruct (read_series_key_body r) as [o|e] eqn:E; [injection H as ->|by destruct e].
  unfold read_series_key_body in E. parser_inv.
  apply read_string_inv in Hp as [Hm Hc1]; [|done].
  apply read_u32_inv in Hp0 as [Htc Hc2]; [|by eapply consumed_ok].
  match goal with H : read_sorted_tags _ _ _ = _ |- _ => rename H into Hrt end.
  apply read_sorted_tags_inv in Hrt as (ts & -> & Hlen & Hok & Hsorted & Hfits & Hc3);
    [|by eapply consumed_ok|constructor|constructor].
  match goal with H : make_SeriesKey _ _ = Ok _ |- _ => apply make_SeriesKey_Ok in H as (Hne & _ & ->) end.
  simpl in Hok, Hsorted |- *. rewrite sort_keys_sorted by done.
  unfold in_u in Htc. assert (size ts = a0) as Hts by (unfold size; lia).
  split; [exact (conj Hne (conj Hok Hsorted))|].
  split; [split; [exact Hm|split; [unfold max_u32; simpl; lia|exact Hfits]]|].
  unfold le_series_key. simpl. rewrite Hts. eauto with chrono.
Qed.

Lemma read_entry_fields_reads o s c f l :
  in_u 64 o -> in_u 32 s -> in_u 32 c -> in_u 64 f -> in_u 64 l ->
  reads read_entry_fields (le 8 o ++ le 4 s ++ le 4 c ++ le 8 f ++ le 8 l) (o, s, c, f, l).
Proof.
  intros. unfold read_entry_fields.
  eapply reads_bind; [by apply reads_u64|]. eapply reads_bind; [by apply reads_u32|].
  eapply reads_bind; [by apply reads_u32|]. eapply reads_bind; [by apply reads_u64|].
  rewrite <-(app_nil_r (le 8 l)). eapply reads_bind; [by apply reads_u64|]. apply reads_ret.
Qed.

Lemma quiet_read_entry_fields : quiet read_entry_fields.
Proof. unfold read_entry_fields. auto 20 with chrono. Qed.

Lemma size_le_entry e : size (le_entry e) = 32 + size (le_series_key (entry_series e)).
Proof. unfold le_entry. autorewrite with chrono_size. lia. Qed.

(** The loop reads back the entries it is given, whatever follows. *)
Lemma read_entries_reads entries acc r rest :
  Forall entry_ok entries -> reader_ok r -> unread r = le_entries entries ++ rest ->
  read_entries (length entries) acc r = Ok (acc ++ entries, advance r (size (le_entries entries))).
Proof.
  intros Hall. revert acc r. induction Hall as [|e entries He _ IH]; intros acc r Hr Hu.
  { cbn [length read_entries le_entries map concat]. change (size (@nil byte)) with 0.
    by rewrite app_nil_r, advance_0. }
  destruct He as (Hk & Hkf & Hft & Hlt & Ho & Hs & Hc).
  cbn [length read_entries]. unfold le_entries in Hu |- *. cbn [map concat] in Hu |- *.
  fold (le_entries entries) in Hu |- *.
  set (fields := le 8 (block_offset e) ++ le 4 (block_size e) ++ le 4 (entry_sample_count e) ++
    le 8 (u64 (nanoseconds_since_epoch (entry_first_timestamp e))) ++
    le 8 (u64 (nanoseconds_since_epoch (entry_last_timestamp e)))).
  assert (le_entry e = fields ++ le_series_key (entry_series e)) as Hentry.
  { unfold le_entry, fields. by rewrite <-!app_assoc. }
  rewrite Hentry, <-!app_assoc in Hu.
  rewrite (read_entry_fields_reads _ _ _ _ _ Ho Hs Hc (u64_range _) (u64_range _) r _ Hr Hu).
  cbn [mbind result_bind]. fold fields. set (r1 := advance r (size fields)).
  assert (reader_ok r1) as Hr1 by eauto with chrono.
  assert (unread r1 = le_series_key (entry_series e) ++ le_entries entries ++ rest) as Hu1
    by by eapply unread_advance_app.
  rewrite (read_series_key_reads _ Hk Hkf r1 _ Hr1 Hu1). cbn [mbind result_bind].
  rewrite !i64_u64, !Timestamp_eta by done.
  set (r2 := advance r1 (size (le_series_key (entry_series e)))).
  rewrite (IH _ r2); [|by eauto with chrono|by eapply unread_advance_app].
  f_equal. f_equal; [rewrite <-app_assoc; by destruct e|].
  unfold r2, r1. rewrite !advance_advance, Hentry, !size_app. f_equal. lia.
Qed.

Lemma read_entries_cases n acc r :
  reader_ok r ->
  (exists entries r', read_entries n acc r = Ok (acc ++ entries, r') /\ length entries = n /\
     Forall entry_ok entries /\ consumed r (le_entries entries) r') \/
  format_error (read_entries n acc r).
Proof.
  revert acc r. induction n as [|n IH]; intros acc r Hr; cbn [read_entries].
  { left. exists [], r. rewrite app_nil_r. split_and!; auto with chrono. }
  destruct (read_entry_fields r) as [[[[[[[o s] c] f] l] r1]|]|e] eqn:E; cbn [mbind result_bind];
    [|right; by eexists|by apply quiet_read_entry_fields in E].
  remember (o, s, c, f, l) as fields eqn:Hfields.
  unfold read_entry_fields in E. parser_inv.
  apply read_u64_inv in Hp as [Ho Hc1]; [|done].
  apply read_u32_inv in Hp0 as [Hs Hc2]; [|by eapply consumed_ok].
  apply read_u32_inv in Hp1 as [Hc Hc3]; [|by eapply consumed_ok].
  apply read_u64_inv in Hp2 as [Hf Hc4]; [|by eapply consumed_ok].
  apply read_u64_inv in Hp3 as [Hl Hc5]; [|by eapply consumed_ok].
  injection Hfields as <- <- <- <- <-.
  pose proof (consumed_trans _ _ _ _ _ Hc1 (consumed_trans _ _ _ _ _ Hc2
    (consumed_trans _ _ _ _ _ Hc3 (consumed_trans _ _ _ _ _ Hc4 Hc5)))) as Hcf.
  pose proof (consumed_ok _ _ _ Hcf) as Hr1.
  match type of Hr1 with reader_ok ?x => set (rf := x) in * end.
  destruct (read_series_key rf) as [[[k rk]|]|e] eqn:Ek; cbn [mbind result_bind];
    [|right; by eexists|by apply quiet_read_series_key in Ek].
  apply read_series_key_inv in Ek as (Hk & Hkf & Hck); [|done].
  match goal with |- context [read_entries n (acc ++ [?e])] => set (entry := e) end.
  destruct (IH (acc ++ [entry]) rk) as [(es & re & -> & <- & Hall & Hce)|Herr]; [by eapply consumed_ok| |by right].
  left. exists (entry :: es), re. rewrite <-app_assoc. split_and!; [done|done| |].
  - constructor; [|done]. unfold entry, entry_ok, Timestamp_ok. simpl.
    pose proof (i64_range _ Hf). pose proof (i64_range _ Hl). by split_and!.
  - unfold le_entries. cbn [map concat]. fold (le_entries es).
    eapply consumed_trans; [|exact Hce]. unfold le_entry. simpl.
    rewrite !u64_i64 by done. rewrite !(app_assoc _ _ (le_series_key k)).
    eapply consumed_trans; [exact Hcf|exact Hck].
Qed.

(** ** Lemmas: the index *)

(** What [validate_index] checks: from [expected] on, the entries' blocks lie one
    after the other up to [last], below [off], in strict order. *)
Fixpoint index_chain (previous : option SegmentIndexEntry) (expected : Z)
    (entries : list SegmentIndexEntry) (off last : Z) : Prop :=
  match entries with
  | [] => last = expected
  | e :: entries' =>
    block_offset e = expected /\ 0 < block_size e /\ expected + block_size e <= off /\
    1 <= entry_sample_count e <= max_samples_per_segment_block /\
    ~ entry_last_timestamp e ≺ entry_first_timestamp e /\
    match previous with
    | Some p => misordered (entry_series p) (entry_last_timestamp p)
                  (entry_series e) (entry_first_timestamp e) = false
    | None => True
    end /\
    index_chain (Some e) (expected + block_size e) entries' off last
  end.

Lemma validate_entries_cases previous expected entries off :
  Forall entry_ok entries -> 0 <= expected -> off < 2 ^ 64 ->
  (exists last, validate_entries previous expected entries off = Ok last /\
     index_chain previous expected entries off last) \/
  format_error (validate_entries previous expected entries off).
Proof.
  intros Hall. revert previous expected. induction Hall as [|e entries He _ IH];
    intros previous expected Hexp Hoff; cbn [validate_entries index_chain]; [left; eauto|].
  destruct He as (_ & _ & _ & _ & Ho & Hs & Hc). unfold in_u in *.
  destruct (_ || _) eqn:E1; cbn [throw_if mbind result_bind]; [right; by eexists|].
  destruct (off - block_offset e <? block_size e) eqn:E2; cbn [throw_if mbind result_bind];
    [right; by eexists|].
  match goal with |- context [throw_if ?c _] => destruct c eqn:E3 end;
    cbn [throw_if mbind result_bind]; [right; by eexists|]. bool_to_prop.
  rewrite u64_small by (unfold in_u; lia).
  destruct (IH (Some e) (expected + block_size e)) as [(last & -> & Hchain)|Herr]; [lia|lia| |by right].
  left. exists last. split; [done|]. split_and!; try (done || lia).
  - by apply ltb_ge_not.
  - by destruct previous.
Qed.

Lemma validate_entries_Ok previous expected entries off last :
  Forall entry_ok entries -> 0 <= expected -> off < 2 ^ 64 ->
  index_chain previous expected entries off last ->
  validate_entries previous expected entries off = Ok last.
Proof.
  intros Hall. revert previous expected. induction Hall as [|e entries He _ IH];
    intros previous expected Hexp Hoff; cbn [validate_entries index_chain]; [by intros ->|].
  intros (Ho & Hs & Hsum & Hc & Hlast & Hprev & Hchain).
  rewrite (proj2 (Z.eqb_eq (block_offset e) expected)) by done.
  rewrite (proj2 (Z.ltb_ge off (block_offset e))) by lia.
  rewrite (proj2 (Z.eqb_neq (block_size e) 0)), (proj2 (Z.eqb_neq (entry_sample_count e) 0)) by lia.
  rewrite (proj2 (Z.ltb_ge _ (entry_sample_count e))) by lia.
  rewrite (proj2 (ltb_ge_not _ _) Hlast). cbn [negb orb throw_if mbind result_bind].
  rewrite (proj2 (Z.ltb_ge _ (block_size e))) by lia. cbn [throw_if mbind result_bind].
  assert ((match previous with
       | Some previous => misordered (entry_series previous) (entry_last_timestamp previous)
                            (entry_series e) (entry_first_timestamp e)
       | None => false
       end) = false) as -> by by destruct previous.
  cbn [throw_if mbind result_bind]. rewrite u64_small by (unfold in_u; lia). apply IH; [lia|lia|done].
Qed.

Lemma size_index_header a b c d e f : size (index_header a b c d e f) = 20.
Proof. unfold index_header. by autorewrite with chrono_size. Qed.

Lemma size_index_bytes entries : size (index_bytes entries) = 24 + size (le_entries entries).
Proof. unfold index_bytes. rewrite size_with_crc, size_app, size_index_header. lia. Qed.

Lemma write_entry_data w e w' :
  entry_ok e -> write_entry w e = Ok w' -> writer_data w' = writer_data w ++ le_entry e.
Proof.
  intros (_ & Hkf & _ & _ & Ho & Hs & Hc). unfold write_entry. rewrite write_series_key_or.
  destruct (write_key_Ok "segment index string is too large" "segment index contains too many tags"
    (write_u64 (write_u64 (write_u32 (write_u32 (write_u64 w (block_offset e)) (block_size e))
      (entry_sample_count e)) (u64 (nanoseconds_since_epoch (entry_first_timestamp e))))
      (u64 (nanoseconds_since_epoch (entry_last_timestamp e)))) _ Hkf) as (w1 & Hw1 & Hd).
  cbv zeta. rewrite Hw1. intros [= <-]. rewrite Hd.
  pose proof (u64_range (nanoseconds_since_epoch (entry_first_timestamp e))) as Hf.
  pose proof (u64_range (nanoseconds_since_epoch (entry_last_timestamp e))) as Hl. unfold in_u in *.
  rewrite !write_u64_le, !write_u32_le, write_u64_le by lia. unfold le_entry. by rewrite <-!app_assoc.
Qed.

Lemma write_entry_Ok w e : entry_ok e -> exists w', write_entry w e = Ok w'.
Proof.
  intros (_ & Hkf & _). unfold write_entry. rewrite write_series_key_or. cbv zeta.
  edestruct write_key_Ok as (w1 & -> & _); [exact Hkf|]. by eexists.
Qed.

Lemma write_entries_data entries w :
  Forall entry_ok entries ->
  exists w', result_foldl write_entry w entries = Ok w' /\
    writer_data w' = writer_data w ++ le_entries entries.
Proof.
  intros Hall. revert w. induction Hall as [|e entries He _ IH]; intros w.
  { exists w. by rewrite app_nil_r. }
  cbn [result_foldl]. destruct (write_entry_Ok w e He) as (w1 & Hw1). rewrite Hw1. simpl.
  destruct (IH w1) as (w2 & -> & Hd). exists w2. split; [done|].
  rewrite Hd, (write_entry_data _ _ _ He Hw1). unfold le_entries. cbn [map concat]. by rewrite <-app_assoc.
Qed.

Lemma index_u32 (payload : list byte) :
  size payload <= max_index_payload_size ->
  in_u 32 (size payload) /\ in_u 32 (Z.lxor (size payload) max_u32).
Proof.
  intros Hp. pose proof (size_nonneg payload).
  assert (in_u 32 (size payload)) by (unfold in_u, max_index_payload_size in *; lia).
  split; [done|]. apply in_u_lxor; [lia|done|done].
Qed.

Lemma encode_index_cases entries :
  Forall entry_ok entries -> in_u 32 (size entries) ->
  encode_index entries =
  if max_index_payload_size <? size (le_entries entries)
  then Err (length_error "segment index payload is too large")
  else Ok (index_bytes entries).
Proof.
  intros Hall Hcount. unfold encode_index.
  destruct (write_entries_data entries new_writer Hall) as (w & -> & Hd).
  cbn [mbind result_bind]. rewrite Hd. simpl (writer_data new_writer ++ _).
  destruct (_ <? _) eqn:E; cbn [throw_if mbind result_bind]; [done|]. bool_to_prop.
  destruct (index_u32 (le_entries entries) E) as [H32 Hinv].
  destruct segment_constants as (_ & _ & Hm & Hv & Hf).
  rewrite !u32_small by done. unfold in_u in *. f_equal. rewrite write_u32_le by apply crc32c_in_u32.
  rewrite write_bytes_app. rewrite !write_u32_le, !write_u16_le by lia. rewrite write_u32_le by lia.
  unfold index_bytes, with_crc, index_header. simpl. by rewrite <-!app_assoc.
Qed.

Lemma read_index_header_reads m v f c p i :
  in_u 32 m -> in_u 16 v -> in_u 16 f -> in_u 32 c -> in_u 32 p -> in_u 32 i ->
  reads read_index_header (index_header m v f c p i) (m, v, f, c, p, i).
Proof. apply read_block_header_reads. Qed.

Lemma read_index_header_inv bytes m v f c p i r :
  read_index_header (new_reader bytes) = Ok (Some ((m, v, f, c, p, i), r)) ->
  first 20 bytes = index_header m v f c p i /\ in_u 32 c /\ in_u 32 p.
Proof.
  remember (m, v, f, c, p, i) as fields eqn:Hfields.
  unfold read_index_header. intros H. pose proof (new_reader_ok bytes) as Hc0. parser_inv.
  apply read_u32_inv in Hp as [Hm Hc1]; [|done].
  apply read_u16_inv in Hp0 as [Hv Hc2]; [|by eapply consumed_ok].
  apply read_u16_inv in Hp1 as [Hf Hc3]; [|by eapply consumed_ok].
  apply read_u32_inv in Hp2 as [Hc Hc4]; [|by eapply consumed_ok].
  apply read_u32_inv in Hp3 as [Hpl Hc5]; [|by eapply consumed_ok].
  apply read_u32_inv in Hp4 as [Hi Hc6]; [|by eapply consumed_ok].
  injection Hfields as <- <- <- <- <- <-.
  pose proof (consumed_trans _ _ _ _ _ Hc1 (consumed_trans _ _ _ _ _ Hc2
    (consumed_trans _ _ _ _ _ Hc3 (consumed_trans _ _ _ _ _ Hc4
    (consumed_trans _ _ _ _ _ Hc5 Hc6))))) as Hall.
  apply consumed_new in Hall as [Hall _]. split; [|done].
  fold (index_header a a0 a1 a2 a3 a4) in Hall. by rewrite size_index_header in Hall.
Qed.

Lemma quiet_read_index_header : quiet read_index_header.
Proof. unfold read_index_header. auto 20 with chrono. Qed.

(** Entries the decoder accepts for an index at [off]. *)
Definition index_ok (entries : list SegmentIndexEntry) (off : Z) : Prop :=
  Forall entry_ok entries /\ 1 <= size entries <= max_segment_block_count /\
  size (le_entries entries) <= max_index_payload_size /\
  index_chain None 32 entries off off.

Lemma decode_index_bytes entries off :
  index_ok entries off -> off < 2 ^ 64 -> decode_index (index_bytes entries) (size entries) off = Ok entries.
Proof.
  intros (Hall & Hcount & Hp & Hchain) Hoff. destruct (index_u32 _ Hp) as [H32 Hinv].
  destruct segment_constants as (_ & _ & Hm & Hv & Hf).
  assert (in_u 32 (size entries)) as Hc32 by (unfold in_u, max_segment_block_count in *; lia).
  set (payload := le_entries entries) in *. pose proof (size_nonneg payload).
  unfold decode_index, segment_index_header_size, checksum_size.
  rewrite size_index_bytes. fold payload. rewrite (proj2 (Z.ltb_ge _ (20 + 4))) by lia.
  cbn [throw_if mbind result_bind].
  set (header := index_header segment_index_magic segment_file_version segment_file_flags
    (size entries) (size payload) (Z.lxor (size payload) max_u32)).
  set (crc := crc32c (header ++ payload)).
  assert (index_bytes entries = header ++ payload ++ le 4 crc) as ->.
  { unfold index_bytes, with_crc. fold payload header crc. by rewrite <-app_assoc. }
  unfold header at 1.
  rewrite (read_index_header_reads _ _ _ _ _ _ Hm Hv Hf Hc32 H32 Hinv _ (payload ++ le 4 crc))
    by (apply new_reader_ok || apply unread_new).
  cbn [mbind result_bind]. rewrite !Z.eqb_refl. cbn [negb orb throw_if mbind result_bind].
  rewrite (proj2 (Z.eqb_neq (size entries) 0)), (proj2 (Z.ltb_ge _ (size entries))),
    (proj2 (Z.ltb_ge _ (size payload))) by lia.
  cbn [orb throw_if mbind result_bind].
  replace (24 + size payload =? 20 + size payload + 4) with true by (symmetry; apply Z.eqb_eq; lia).
  cbn [negb throw_if mbind result_bind].
  assert (last_bytes 4 (header ++ payload ++ le 4 crc) = le 4 crc) as ->.
  { rewrite app_assoc. by apply last_bytes_app. }
  destruct (read_u32_new (le 4 crc) ltac:(done)) as (r & ->). cbn [mbind result_bind].
  assert (first (24 + size payload - 4) (header ++ payload ++ le 4 crc) = header ++ payload) as ->.
  { rewrite app_assoc. apply first_app. rewrite size_app. change (size header) with 20. lia. }
  rewrite unle_le_small by apply crc32c_in_u32. unfold crc at 1. rewrite Z.eqb_refl.
  cbn [negb throw_if mbind result_bind].
  rewrite subspan_middle by done. rewrite to_nat_size.
  rewrite (read_entries_reads entries [] (new_reader payload) [])
    by (done || apply new_reader_ok || by rewrite app_nil_r, unread_new).
  cbn [mbind result_bind app]. fold payload.
  assert (remaining (advance (new_reader payload) (size payload)) = 0) as ->.
  { unfold remaining, advance. simpl. lia. }
  cbn [Z.eqb negb throw_if mbind result_bind]. unfold validate_index.
  rewrite (validate_entries_Ok None segment_header_size entries off off) by done.
  cbn [mbind result_bind]. by rewrite Z.eqb_refl.
Qed.

Lemma decode_index_cases bytes count off :
  off < 2 ^ 64 ->
  (exists entries, decode_index bytes count off = Ok entries /\ index_ok entries off /\
     size entries = count /\ bytes = index_bytes entries) \/
  format_error (decode_index bytes count off).
Proof.
  intros Hoff. unfold decode_index, segment_index_header_size, checksum_size, format_error.
  destruct (size bytes <? 20 + 4) eqn:E24; cbn [throw_if mbind result_bind]; [eauto|]. bool_to_prop.
  destruct (read_index_header (new_reader bytes)) as [[[[[[[[m v] f] c] p] i] r]|]|e] eqn:Eh;
    cbn [mbind result_bind]; [|eauto|by apply quiet_read_index_header in Eh].
  apply read_index_header_inv in Eh as (Hheader & Hc & Hp).
  destruct (negb (m =? _) || _ || _) eqn:Em; cbn [throw_if mbind result_bind]; [eauto|].
  destruct (negb (c =? count) || _ || _ || _ || _) eqn:Ec; cbn [throw_if mbind result_bind]; [eauto|].
  destruct (negb (size bytes =? _)) eqn:Es; cbn [throw_if mbind result_bind]; [eauto|].
  bool_to_prop. unfold in_u in Hc, Hp. subst.
  assert (size (last_bytes 4 bytes) = 4) as H4.
  { rewrite last_bytes_drop by lia. rewrite size_drop by lia. lia. }
  destruct (read_u32_new _ H4) as (r' & ->). cbn [mbind result_bind].
  destruct (negb (_ =? crc32c _)) eqn:Ecrc; cbn [throw_if mbind result_bind]; [eauto|]. bool_to_prop.
  set (payload := subspan 20 p bytes) in *.
  assert (size payload = p) as Hpl by (apply size_subspan; lia).
  destruct (read_entries_cases (Z.to_nat count) [] (new_reader payload) (new_reader_ok _))
    as [(entries & pr & -> & Hlen & Hall & Hcons)|(what & ->)]; [|right; by eexists].
  cbn [mbind result_bind app].
  destruct (negb (remaining pr =? 0)) eqn:Er; cbn [throw_if mbind result_bind]; [eauto|]. bool_to_prop.
  rewrite remaining_unread in Er by by eapply consumed_ok. apply size_0_nil in Er.
  destruct Hcons as [_ Hcons]. rewrite unread_new, Er, app_nil_r in Hcons.
  assert (size entries = count) as Hcount by (unfold size; lia).
  unfold validate_index.
  destruct (validate_entries_cases None segment_header_size entries off) as [(last & -> & Hchain)|(what & ->)];
    [done|done|done| |right; by eexists]. cbn [mbind result_bind].
  destruct (negb (last =? off)) eqn:El; cbn [throw_if mbind result_bind]; [right; by eexists|].
  bool_to_prop. subst last. left. exists entries. split; [done|].
  split; [split_and!; [done|lia|lia|by rewrite <-Hcons, Hpl|done]|]. split; [done|].
  unfold index_bytes. rewrite <-Hcons, Hpl, Hcount, <-Hheader.
  assert (first 20 bytes ++ payload = first (size bytes - 4) bytes) as ->.
  { unfold payload. rewrite <-first_add by lia. f_equal. lia. }
  unfold with_crc. match goal with H : unle _ = crc32c _ |- _ => rewrite <-H end.
  rewrite le_4_unle by done. apply first_last. lia.
Qed.

(** ** Lemmas: what the writer builds *)

Lemma size_block_bytes b : size (block_bytes b) = 24 + size (block_payload b).
Proof. unfold block_bytes. by rewrite size_block_frame. Qed.

Lemma block_bytes_bounds b :
  SegmentBlock_fits b -> 0 < size (block_bytes b) <= max_segment_block_payload_size + 24.
Proof.
  intros [_ Hp]. rewrite size_block_bytes. pose proof (size_nonneg (block_payload b)). lia.
Qed.

Lemma blocks_bytes_cons b bs : blocks_bytes (b :: bs) = block_bytes b ++ blocks_bytes bs.
Proof. done. Qed.

Lemma size_blocks_bytes bs :
  Forall SegmentBlock_fits bs ->
  size (blocks_bytes bs) <= size bs * (max_segment_block_payload_size + 24).
Proof.
  induction 1 as [|b bs Hb _ IH]; [done|]. rewrite blocks_bytes_cons, size_app, size_cons.
  apply block_bytes_bounds in Hb. lia.
Qed.

Lemma size_entries_of off bs : size (entries_of off bs) = size bs.
Proof.
  revert off. induction bs as [|b bs IH]; intros off; [done|].
  cbn [entries_of]. by rewrite !size_cons, IH.
Qed.

Lemma last_In {A} (l : list A) d : l <> [] -> List.last l d ∈ l.
Proof.
  induction l as [|x l IH]; [done|]. intros _. destruct l as [|y l]; [left|].
  right. by apply IH.
Qed.

Lemma hd_In {A} (l : list A) d : l <> [] -> hd d l ∈ l.
Proof. destruct l; [done|]. left. Qed.

Lemma block_timestamps_ok b :
  SegmentBlock_ok b -> Timestamp_ok (first_timestamp b) /\ Timestamp_ok (last_timestamp b).
Proof.
  intros (_ & Hne & _ & _ & Hall). rewrite Forall_forall in Hall.
  split; apply Hall; [by apply hd_In|by apply last_In].
Qed.

Lemma sorted_hd_last l :
  samples_sorted l -> l <> [] ->
  le_of (timestamp (hd default_sample l)) (timestamp (List.last l default_sample)).
Proof.
  intros Hs Hne. destruct Hs as [|x l Hs Hall]; [done|]. destruct l as [|y l]; [by right|].
  left. rewrite Forall_forall in Hall. apply Hall. by apply (last_In (y :: l)).
Qed.

Lemma block_first_last b :
  SegmentBlock_ok b -> le_of (first_timestamp b) (last_timestamp b).
Proof. intros (_ & Hne & _ & Hs & _). by apply sorted_hd_last. Qed.

Lemma entries_of_ok off bs :
  Forall SegmentBlock_ok bs -> Forall SegmentBlock_fits bs ->
  0 <= off -> off + size (blocks_bytes bs) < 2 ^ 64 -> Forall entry_ok (entries_of off bs).
Proof.
  intros Hok. revert off. induction Hok as [|b bs Hb _ IH]; intros off Hfit Ho Hmax; [constructor|].
  apply Forall_cons in Hfit as [Hbf Hfit]. rewrite blocks_bytes_cons, size_app in Hmax.
  pose proof (size_nonneg (blocks_bytes bs)). pose proof (block_bytes_bounds b Hbf) as Hbb.
  unfold max_segment_block_payload_size in Hbb. constructor; [|apply IH; [done|lia|lia]].
  destruct (block_timestamps_ok b Hb) as [Hft Hlt]. destruct (block_counts b Hb) as [Hc _].
  unfold entry_ok, entry_of. simpl. split; [apply Hb|]. split; [apply Hbf|].
  split; [done|]. split; [done|]. unfold in_u. split; [lia|]. split; [lia|exact Hc].
Qed.

Lemma index_chain_entries_of previous off bs total :
  Forall SegmentBlock_ok bs -> Forall SegmentBlock_fits bs ->
  total = off + size (blocks_bytes bs) ->
  match previous, bs with
  | Some p, b :: _ => misordered (entry_series p) (entry_last_timestamp p)
                        (block_series b) (first_timestamp b) = false
  | _, _ => True
  end ->
  adjacent_misordered bs = false ->
  index_chain previous off (entries_of off bs) total total.
Proof.
  intros Hok. revert previous off. induction Hok as [|b bs Hb _ IH]; intros previous off Hfit Htotal Hprev Hadj.
  { change (blocks_bytes []) with (@nil byte) in Htotal. change (size (@nil byte)) with 0 in Htotal.
    cbn. lia. }
  apply Forall_cons in Hfit as [Hbf Hfit]. rewrite blocks_bytes_cons, size_app in Htotal.
  pose proof (size_nonneg (blocks_bytes bs)). pose proof (block_bytes_bounds b Hbf).
  destruct (block_counts b Hb) as [_ Hc].
  cbn [entries_of index_chain entry_of block_offset block_size entry_sample_count entry_series
       entry_first_timestamp entry_last_timestamp].
  split_and!; [done|lia|lia|lia|unfold max_samples_per_segment_block; lia| | |].
  - by apply not_lt_le, block_first_last.
  - by destruct previous.
  - apply IH; [done|lia| |]; destruct bs as [|b' bs]; try done.
    + cbn [adjacent_misordered] in Hadj. by apply orb_false_iff in Hadj as [? _].
    + cbn [adjacent_misordered] in Hadj. by apply orb_false_iff in Hadj as [_ ?].
Qed.

Definition sum_counts (n : Z) (bs : list SegmentBlock) : Z :=
  foldl (fun n b => u64 (n + block_sample_count b)) n bs.

Lemma append_blocks bs file entries n :
  Forall SegmentBlock_ok bs ->
  (Forall SegmentBlock_fits bs /\
   result_foldl append_block (file, entries, n) bs =
     Ok (file ++ blocks_bytes bs, entries ++ entries_of (size file) bs, sum_counts n bs)) \/
  (~ Forall SegmentBlock_fits bs /\
   exists what, result_foldl append_block (file, entries, n) bs = Err (length_error what)).
Proof.
  intros Hok. revert file entries n. induction Hok as [|b bs Hb _ IH]; intros file entries n.
  { left. split; [constructor|]. cbn. by rewrite !app_nil_r. }
  cbn [result_foldl append_block]. destruct (encode_segment_block b) as [bytes|e] eqn:E.
  - apply encode_segment_block_inv in E as [Hf ->]; [|done]. fold (block_bytes b).
    cbn [mbind result_bind]. pose proof (block_bytes_bounds b Hf) as Hbb.
    unfold max_segment_block_payload_size, max_u32 in *.
    rewrite (proj2 (Z.ltb_ge _ _)) by lia. cbn [throw_if mbind result_bind].
    destruct (block_counts b Hb) as [Hc _].
    rewrite !u32_small by (done || (unfold in_u; lia)).
    destruct (IH (file ++ block_bytes b) (entries ++ [entry_of (size file) b])
      (u64 (n + block_sample_count b))) as [[Hfit Hrun]|[Hn Hrun]].
    + left. split; [by constructor|]. unfold entry_of in Hrun. rewrite Hrun.
      cbn [entries_of]. rewrite size_app, blocks_bytes_cons, <-!app_assoc. done.
    + right. split; [by intros [_ ?]%Forall_cons|]. unfold entry_of in Hrun. exact Hrun.
  - right. split.
    + intros [Hf _]%Forall_cons. by rewrite encode_segment_block_frame in E.
    + unfold encode_segment_block in E.
      destruct (encode_block_payload b) as [p|e'] eqn:Ep; cbn [mbind result_bind] in E |- *.
      * destruct (_ <? _); cbn [throw_if mbind result_bind] in E; [injection E as <-; eauto|done].
      * injection E as ->. unfold encode_block_payload in Ep.
        destruct (write_key_or _ _ _ _) as [w|e''] eqn:Ew; [done|]. injection Ep as ->.
        apply write_key_throws in Ew as (what & ->). eauto.
Qed.

(** The writer's outcome on well-formed blocks. *)
Lemma segment_file_bytes_cases bs :
  Forall SegmentBlock_ok bs ->
  (blocks_ok bs /\ blocks_fit bs /\
   segment_file_bytes bs = Ok (segment_bytes bs,
     MkSegmentFileMetadata (size (segment_bytes bs)) (sum_counts 0 bs) (size bs))) \/
  (~ (blocks_ok bs /\ blocks_fit bs) /\
   exists e, segment_file_bytes bs = Err e /\
     ((exists what, e = invalid_argument what) \/ (exists what, e = length_error what))).
Proof.
  intros Hok. unfold segment_file_bytes, validate_blocks.
  case_bool_decide as Hne; cbn [throw_if mbind result_bind].
  { right. split; [by intros [[? _] _]|]. eauto. }
  destruct (max_segment_block_count <? size bs) eqn:Ec; cbn [throw_if mbind result_bind]; bool_to_prop.
  { right. split; [intros [(_ & ? & _) _]; lia|]. eauto. }
  destruct (adjacent_misordered bs) eqn:Ea; cbn [throw_if mbind result_bind].
  { right. split; [intros [(_ & _ & _ & Hf) _]; congruence|]. eauto. }
  assert (blocks_ok bs) as Hbs by (split_and!; done).
  destruct (append_blocks bs (replicate 32 Byte.x00) [] 0 Hok) as [[Hfit ->]|[Hn (what & ->)]];
    cbn [mbind result_bind].
  2:{ right. split; [by intros [_ [? _]]|]. eauto. }
  pose proof (size_blocks_bytes bs Hfit) as Hbytes. pose proof (size_nonneg (blocks_bytes bs)).
  pose proof (size_nonneg bs).
  assert (size (blocks_bytes bs) <= 1000000 * (max_segment_block_payload_size + 24)) as Hmax.
  { unfold max_segment_block_count, max_segment_block_payload_size in *. lia. }
  unfold max_segment_block_payload_size in Hmax.
  rewrite size_app. change (size (replicate 32 Byte.x00)) with 32. cbn [app].
  assert (Forall entry_ok (entries_of 32 bs)) as Hentries by (apply entries_of_ok; [done|done|lia|lia]).
  assert (in_u 32 (size bs)) as Hc32 by (unfold in_u, max_segment_block_count in *; lia).
  rewrite encode_index_cases by (done || by rewrite size_entries_of).
  destruct (_ <? _) eqn:Ei; cbn [throw_if mbind result_bind]; bool_to_prop.
  { right. split; [intros [_ [_ ?]]; lia|]. eauto. }
  left. split; [done|]. split; [done|]. rewrite u32_small by done.
  set (e := envelope_of bs).
  assert (envelope_ok e) as He.
  { unfold e, envelope_of, envelope_ok. cbn [block_count index_offset index_size].
    pose proof (size_nonneg (le_entries (entries_of 32 bs))).
    rewrite size_index_bytes. unfold max_index_payload_size, in_u in *. lia. }
  change (encode_footer _ _ _) with (encode_footer (block_count e) (index_offset e) (index_size e)).
  change (encode_header _ _ _) with (encode_header (block_count e) (index_offset e) (index_size e)).
  rewrite encode_footer_bytes, encode_header_bytes by done.
  rewrite size_header_bytes, size_footer_bytes. cbn [Z.eqb Pos.eqb negb orb throw_if mbind result_bind].
  assert (header_bytes e ++ drop (length (header_bytes e))
    (((replicate 32 Byte.x00 ++ blocks_bytes bs) ++ index_bytes (entries_of 32 bs)) ++ footer_bytes e) =
    segment_bytes bs) as ->; [|done].
  unfold segment_bytes. fold e. f_equal. rewrite <-!app_assoc. apply drop_app_length'.
  pose proof (size_header_bytes e) as Hh. unfold size in Hh. rewrite length_replicate. lia.
Qed.

(** ** Lemmas: opening *)

Definition layout_envelope (region : list byte) (entries : list SegmentIndexEntry) : SegmentEnvelope :=
  MkSegmentEnvelope (size entries) (32 + size region) (size (index_bytes entries)).

(** A file whose envelope and index are intact; the blocks may not be. *)
Definition layout (bytes : list byte) (entries : list SegmentIndexEntry) : Prop :=
  exists region, let e := layout_envelope region entries in
    bytes = header_bytes e ++ region ++ index_bytes entries ++ footer_bytes e /\
    index_ok entries (32 + size region).

Definition reader_of (p : path) (bytes : list byte) (entries : list SegmentIndexEntry) : SegmentReader :=
  MkSegmentReader p (size bytes) (foldl (fun n e => u64 (n + entry_sample_count e)) 0 entries) entries.

Lemma subspan_end off n (x y : list byte) : off = size x -> n = size y -> subspan off n (x ++ y) = y.
Proof. intros. rewrite subspan_app by done. subst n. unfold first. by rewrite to_nat_size, firstn_all. Qed.

Lemma subspan_0 n (bytes : list byte) : subspan 0 n bytes = first n bytes.
Proof. done. Qed.

(** Takes the postcondition of a step as it is. *)
Ltac result_is := let H := fresh in intros ? H; exact H.

Section OpenSegment.
Context (p : path) (bytes : list byte).
Hypothesis (Hmax : size bytes <= max_stream).

Let small : size bytes <= max_u64.
Proof. unfold max_stream, max_u64 in *. lia. Qed.

(** Reads within the file. *)
Lemma wp_read_part off n (R : exn -> Prop) w :
  file_of (fs w) p = Some bytes -> 0 <= off -> 0 <= n -> off + n <= size bytes ->
  wp (read_file_bytes p off n) w (reading (fun b => b = subspan off n bytes) R w).
Proof. intros ????. eapply wp_reading_mono; [by apply wp_read_file_bytes|result_is|done]. Qed.

(** The parts of a laid out file are where its header says. *)
Lemma parts_of_layout (h : SegmentEnvelope) (region : list byte) (entries : list SegmentIndexEntry) :
  bytes = header_bytes h ++ region ++ index_bytes entries ++ footer_bytes h ->
  size bytes = 64 + size region + size (index_bytes entries) /\
  subspan 0 32 bytes = header_bytes h /\
  subspan (size bytes - 32) 32 bytes = footer_bytes h /\
  subspan (32 + size region) (size (index_bytes entries)) bytes = index_bytes entries.
Proof.
  intros Hbytes.
  assert (size bytes = 64 + size region + size (index_bytes entries)) as Hsize.
  { rewrite Hbytes, !size_app, size_header_bytes, size_footer_bytes. lia. }
  split_and!; [done|..]; clear Hmax small.
  - rewrite Hbytes. by apply (first_app 32); rewrite size_header_bytes.
  - rewrite Hsize, Hbytes, !app_assoc. apply subspan_end; [|by rewrite size_footer_bytes].
    rewrite !size_app, size_header_bytes. lia.
  - rewrite Hbytes, app_assoc. apply subspan_middle; [|done]. by rewrite size_app, size_header_bytes.
Qed.

(** A file with the layout opens. *)
Lemma wp_open_layout w entries :
  file_of (fs w) p = Some bytes -> layout bytes entries ->
  wp (open_segment p) w (reading (fun r => r = reader_of p bytes entries) no_throw w).
Proof.
  intros Hfile (region & Hbytes & Hindex). set (e := layout_envelope region entries) in *.
  pose proof Hindex as (_ & Hcount & Hp & _). pose proof (size_nonneg region).
  pose proof (size_nonneg (le_entries entries)).
  pose proof (size_index_bytes entries) as Hsi.
  destruct (parts_of_layout _ _ _ Hbytes) as (Hsize & Hheader & Hfooter & Hindexed).
  assert (envelope_ok e) as He.
  { unfold e, layout_envelope, envelope_ok, in_u. cbn [block_count index_offset index_size].
    unfold max_segment_block_count, max_stream in *. lia. }
  unfold open_segment.
  eapply wp_reading_bind; [by apply wp_file_size_bytes|]. intros n w1 -> Hf1 ?.
  eapply wp_reading_bind.
  { apply wp_reading_throw_when. intros Hc. bool_to_prop.
    unfold segment_header_size, segment_footer_size, segment_index_header_size, checksum_size in Hc. lia. }
  intros ? w2 ? Hf2 ?. unfold segment_header_size, segment_footer_size, segment_index_header_size, checksum_size.
  eapply wp_reading_bind; [apply wp_read_part; [congruence|lia..]|].
  intros hb w3 -> Hf3 ?.
  eapply wp_reading_bind; [apply wp_read_part; [congruence|lia..]|].
  intros fb w4 -> Hf4 ?.
  rewrite Hheader, Hfooter.
  rewrite decode_header_bytes, decode_footer_bytes by done.
  eapply wp_reading_bind; [apply wp_reading_lift; [result_is|done]|].
  intros h w5 [= <-] Hf5 ?.
  eapply wp_reading_bind; [apply wp_reading_lift; [result_is|done]|].
  intros f w6 [= <-] Hf6 ?. rewrite !Z.eqb_refl. cbn [negb orb].
  eapply wp_reading_bind; [by apply wp_reading_throw_when|]. intros ? w7 ? Hf7 ?.
  change (block_count e) with (size entries). change (index_offset e) with (32 + size region).
  change (index_size e) with (size (index_bytes entries)).
  eapply wp_reading_bind.
  { apply wp_reading_throw_when. intros Hc. exfalso.
    repeat match goal with
    | H : (_ || _)%bool = true |- _ => apply orb_true_iff in H as [H|H]
    end; bool_to_prop; lia. }
  intros ? w8 ? Hf8 ?.
  eapply wp_reading_bind; [apply wp_read_part; [congruence|lia..]|].
  intros ib w9 -> Hf9 ?.
  rewrite Hindexed.
  rewrite decode_index_bytes by (done || (unfold max_stream in Hmax; lia)).
  eapply wp_reading_bind; [apply wp_reading_lift; [result_is|done]|].
  intros es w10 [= <-] Hf10 ?. by apply wp_reading_ret.
Qed.

(** A decoder whose answers are characterised, called on bytes read. *)
Lemma wp_reading_decoded {A} (r : result A) (P : A -> Prop) w :
  (exists a, r = Ok a /\ P a) \/ format_error r ->
  wp (lift r) w (reading P (fun e => exists what, e = SegmentFormatError what) w).
Proof.
  intros [(a & -> & Ha)|(what & ->)]; apply wp_reading_lift; [by intros ? [= <-]|done..|].
  intros e [= <-]. eauto.
Qed.

(** The parts of a file that the three decoders accept make a laid out file. *)
Lemma layout_of_parts (h : SegmentEnvelope) (entries : list SegmentIndexEntry) :
  32 <= index_offset h -> 0 <= index_size h -> index_offset h + index_size h + 32 = size bytes ->
  subspan 0 32 bytes = header_bytes h ->
  subspan (size bytes - 32) 32 bytes = footer_bytes h ->
  subspan (index_offset h) (index_size h) bytes = index_bytes entries ->
  size entries = block_count h -> index_ok entries (index_offset h) ->
  layout bytes entries.
Proof.
  intros Hoff Hsz Hend Hheader Hfooter Hindex Hcount Hok. exists (subspan 32 (index_offset h - 32) bytes).
  assert (size (subspan 32 (index_offset h - 32) bytes) = index_offset h - 32) as Hreg
    by (apply size_subspan; lia).
  assert (size (index_bytes entries) = index_size h) as Hisize.
  { rewrite <-Hindex. apply size_subspan; lia. }
  assert (layout_envelope (subspan 32 (index_offset h - 32) bytes) entries = h) as Henv.
  { unfold layout_envelope. rewrite Hreg, Hisize, Hcount. destruct h as [c o s]. simpl. f_equal. lia. }
  cbv zeta. rewrite Henv, Hreg. replace (32 + (index_offset h - 32)) with (index_offset h) by lia.
  split; [|done]. rewrite <-Hheader, <-Hfooter, <-Hindex, subspan_0.
  rewrite (app_assoc (first 32 bytes)), <-first_add by lia.
  replace (32 + (index_offset h - 32)) with (index_offset h) by lia.
  rewrite app_assoc, <-first_add by lia.
  replace (size bytes - 32) with (index_offset h + index_size h) by lia.
  replace 32 with (size bytes - (index_offset h + index_size h)) at 1 by lia.
  rewrite <-first_add by lia. unfold first. rewrite firstn_all2; [done|unfold size; lia].
Qed.

(** A file that opens has the layout; any other is reported as a format error. *)
Lemma wp_open_segment w :
  file_of (fs w) p = Some bytes ->
  wp (open_segment p) w (reading
    (fun r => exists entries, layout bytes entries /\ r = reader_of p bytes entries)
    (fun e => exists what, e = SegmentFormatError what) w).
Proof.
  intros Hfile. unfold open_segment.
  unfold segment_header_size, segment_footer_size, segment_index_header_size, checksum_size.
  eapply wp_reading_bind; [eapply wp_reading_mono; [by apply wp_file_size_bytes|result_is|done]|].
  intros n w1 -> Hf1 ?.
  eapply wp_reading_bind; [apply wp_reading_throw_when; eauto|]. intros ? w2 Hc Hf2 ?. cbv beta in *; bool_to_prop.
  eapply wp_reading_bind; [apply wp_read_part; [congruence|lia..]|]. intros hb w3 -> Hf3 ?.
  eapply wp_reading_bind; [apply wp_read_part; [congruence|lia..]|]. intros fb w4 -> Hf4 ?.
  eapply wp_reading_bind; [apply wp_reading_decoded, decode_header_cases|].
  intros h w5 (Hh1 & Hh2 & Hh3) Hf5 ?.
  eapply wp_reading_bind; [apply wp_reading_decoded, decode_footer_cases|].
  intros f w6 [Hfo1 Hfo2] Hf6 ?.
  eapply wp_reading_bind; [apply wp_reading_throw_when; eauto|]. intros ? w7 Hagree Hf7 ?.
  eapply wp_reading_bind; [apply wp_reading_throw_when; eauto|]. intros ? w8 Hbounds Hf8 ?.
  cbv beta in *; bool_to_prop. assert (f = h) as -> by (destruct f, h; simpl in *; congruence).
  eapply wp_reading_bind; [apply wp_read_part; [congruence|lia..]|]. intros ib w9 -> Hf9 ?.
  eapply wp_reading_bind; [apply wp_reading_decoded, decode_index_cases; unfold max_stream in Hmax; lia|].
  intros es w10 (Hiok & Hicount & Hibytes) Hf10 ?.
  apply wp_reading_ret. exists es. split; [|done]. apply (layout_of_parts h); [lia..|exact Hh3|exact Hfo2|exact Hibytes|exact Hicount|exact Hiok].
Qed.
End OpenSegment.

(** ** Lemmas: reading blocks *)

(** The entry describes the block found where it points. *)
Definition describes (bytes : list byte) (e : SegmentIndexEntry) (b : SegmentBlock) : Prop :=
  SegmentBlock_ok b /\ SegmentBlock_fits b /\ e = entry_of (block_offset e) b /\
  subspan (block_offset e) (block_size e) bytes = block_bytes b.

Lemma describes_fields bytes e b : describes bytes e b ->
  entry_series e = block_series b /\ entry_first_timestamp e = first_timestamp b /\
  entry_last_timestamp e = last_timestamp b /\ entry_sample_count e = block_sample_count b.
Proof. intros (_ & _ & -> & _). done. Qed.

Lemma describes_unique bytes e b b' : describes bytes e b -> describes bytes e b' -> b = b'.
Proof.
  intros (Hb & Hf & _ & Hs) (Hb' & Hf' & _ & Hs').
  pose proof (decode_block_frame b [] Hb Hf) as H1. pose proof (decode_block_frame b' [] Hb' Hf') as H2.
  unfold block_bytes in *. rewrite <-Hs in H1. rewrite <-Hs' in H2. rewrite H1 in H2. by injection H2.
Qed.

Section ReadBlock.
Context (r : SegmentReader) (bytes : list byte).
Hypothesis (Hmax : size bytes <= max_stream).

(** [read_block] gives the block its entry describes; it refuses an entry that
    describes none. *)
Lemma wp_read_block e w :
  file_of (fs w) (reader_path r) = Some bytes ->
  0 <= block_offset e -> 0 <= block_size e -> block_offset e + block_size e <= size bytes ->
  wp (read_block r e) w (reading (describes bytes e)
    (fun x => x = block_mismatch /\ forall b, ~ describes bytes e b) w).
Proof.
  intros Hfile Ho Hs Hsum. unfold read_block.
  eapply wp_reading_bind.
  { eapply wp_reading_mono; [by apply wp_read_file_bytes|result_is|done]. }
  intros eb w1 -> Hf1 _. set (sub := subspan (block_offset e) (block_size e) bytes).
  assert (size sub = block_size e) as Hsub by (by apply size_subspan).
  destruct (decode_segment_block_cases sub) as (d & Hd & Hcases). rewrite Hd.
  assert (forall b, describes bytes e b ->
    d = MkBlockResult (Some b) SegmentBlockDecodeError.none (size sub)) as Hdesc.
  { intros b (Hb & Hf & _ & Hx). fold sub in Hx. pose proof (decode_block_frame b [] Hb Hf) as H1.
    rewrite app_nil_r in H1. unfold block_bytes in Hx. rewrite <-Hx, Hd in H1. by injection H1. }
  eapply wp_reading_bind; [apply wp_reading_lift; [result_is|done]|]. intros d' w2 [= <-] Hf2 _.
  destruct Hcases as [(b & payload & tl & Hsubeq & Hb & Hf & -> & ->)|(x & -> & Hx)].
  2:{ apply wp_reading_throw. split; [done|]. by intros b ?%Hdesc. }
  cbn [block block_bytes_consumed block_success].
  eapply wp_reading_bind.
  { apply wp_reading_throw_when. intros Hbad. split; [done|]. intros b' Hb'.
    pose proof (Hdesc b' Hb') as [= <- Hc]. destruct Hb' as (_ & _ & He & _).
    rewrite He in Hbad. cbn [entry_of entry_series entry_sample_count entry_first_timestamp entry_last_timestamp] in Hbad.
    rewrite Hc, !eqb_refl, !Z.eqb_refl in Hbad. by cbn in Hbad. }
  intros u w3 Hgood Hf3 _. cbv beta in *. bool_to_prop. ord_to_prop.
  apply wp_reading_ret. split; [done|]. split; [done|].
  fold (block_bytes b) in *.
  assert (tl = []) as ->.
  { apply size_0_nil. pose proof (f_equal size Hsubeq) as Hz. rewrite size_app in Hz. lia. }
  rewrite app_nil_r in Hsubeq. split; [|done].
  unfold entry_of. destruct e as [s f l o z c]. simpl in *. f_equal; congruence.
Qed.
End ReadBlock.

(** The entries describe the blocks, one after the other from [off] on. *)
Lemma entries_of_describes bytes off bs region tail :
  Forall SegmentBlock_ok bs -> Forall SegmentBlock_fits bs ->
  bytes = region ++ blocks_bytes bs ++ tail -> size region = off ->
  Forall2 (describes bytes) (entries_of off bs) bs.
Proof.
  intros Hok. revert off region. induction Hok as [|b bs Hb _ IH]; intros off region Hfit Hbytes Hoff; [constructor|].
  apply Forall_cons in Hfit as [Hf Hfit]. rewrite blocks_bytes_cons, <-app_assoc in Hbytes.
  cbn [entries_of]. constructor.
  - split; [done|]. split; [done|]. split; [done|]. cbn [entry_of block_offset block_size].
    rewrite Hbytes. by apply subspan_middle.
  - apply (IH _ (region ++ block_bytes b)); [done|by rewrite <-app_assoc|].
    rewrite size_app. lia.
Qed.

(** Conversely, described blocks are laid out as the entries say. *)
Lemma describes_entries_of bytes entries bs previous off last :
  index_chain previous off entries last last -> 0 <= off -> last <= size bytes ->
  Forall2 (describes bytes) entries bs ->
  entries = entries_of off bs /\ subspan off (last - off) bytes = blocks_bytes bs /\ off <= last /\
  Forall SegmentBlock_ok bs /\ Forall SegmentBlock_fits bs /\ adjacent_misordered bs = false.
Proof.
  intros Hchain Ho Hl Hall. revert previous off Hchain Ho.
  induction Hall as [|e b entries bs He Hall IH]; intros previous off Hchain Ho; cbn [index_chain] in Hchain.
  { subst off. split; [done|]. replace (last - last) with 0 by lia. split; [done|].
    split; [lia|]. split; [constructor|]. by split. }
  destruct Hchain as (Hoff & Hpos & Hsum & Hcount & Hlast & Hprev & Hchain). subst off.
  destruct (IH _ _ Hchain) as (Hes & Hbytes & Hle & Hok & Hfit & Hadj); [lia|].
  destruct He as (Hb & Hf & Heq & Hsub).
  assert (block_size e = size (block_bytes b)) as Hsize by by rewrite Heq.
  cbn [entries_of]. split; [by rewrite <-Heq, <-Hsize, Hes|].
  split.
  { rewrite blocks_bytes_cons, <-Hsub, <-Hbytes, <-subspan_add by lia. f_equal. lia. }
  split; [lia|]. split; [by constructor|]. split; [by constructor|].
  destruct bs as [|b' bs]; [done|]. cbn [adjacent_misordered]. apply orb_false_iff. split; [|done].
  rewrite Hes in Hchain. destruct Hchain as (_ & _ & _ & _ & _ & Hmis & _). rewrite Heq in Hmis. exact Hmis.
Qed.

Lemma wp_read_blocks r bytes entries w :
  size bytes <= max_stream -> file_of (fs w) (reader_path r) = Some bytes ->
  Forall (fun e => 0 <= block_offset e /\ 0 <= block_size e /\ block_offset e + block_size e <= size bytes) entries ->
  wp (read_blocks r entries) w (reading (Forall2 (describes bytes) entries)
    (fun x => x = block_mismatch /\ forall bs, ~ Forall2 (describes bytes) entries bs) w).
Proof.
  intros Hmax Hfile Hall. revert w Hfile. induction Hall as [|e entries (Ho & Hs & Hsum) _ IH]; intros w Hfile;
    cbn [read_blocks]; [apply wp_reading_ret; constructor|].
  eapply wp_reading_bind.
  { eapply wp_reading_mono; [by apply wp_read_block|result_is|]. intros x [-> Hn]. split; [done|].
    intros bs Hbs. inversion Hbs; subst. by eapply Hn. }
  intros b w1 Hb Hf1 _. eapply wp_reading_bind.
  { eapply wp_reading_mono; [apply IH; congruence|result_is|]. intros x [-> Hn]. split; [done|].
    intros bs Hbs. inversion Hbs; subst. by eapply Hn. }
  intros bs w2 Hbs Hf2 _. apply wp_reading_ret. by constructor.
Qed.

(** Files the writer produces. *)
Definition segment_ok (bs : list SegmentBlock) : Prop := blocks_ok bs /\ blocks_fit bs.

Lemma size_segment_bytes bs : segment_ok bs ->
  size (segment_bytes bs) = 64 + size (blocks_bytes bs) + size (index_bytes (entries_of 32 bs)) /\
  size (segment_bytes bs) <= max_stream.
Proof.
  intros [(_ & Hcount & _ & _) [Hfit Hindex]]. unfold segment_bytes.
  rewrite !size_app, size_header_bytes, size_footer_bytes. split; [lia|].
  rewrite size_index_bytes. pose proof (size_blocks_bytes bs Hfit). pose proof (size_nonneg bs).
  unfold max_segment_block_count, max_segment_block_payload_size, max_index_payload_size, max_stream in *. lia.
Qed.

Lemma segment_layout bs : segment_ok bs -> layout (segment_bytes bs) (entries_of 32 bs).
Proof.
  intros Hbs. pose proof (size_segment_bytes bs Hbs) as [Hsize Hmax].
  destruct Hbs as [(Hne & Hcount & Hok & Hadj) [Hfit Hindex]]. unfold max_stream in *.
  pose proof (size_nonneg (blocks_bytes bs)). pose proof (size_nonneg (index_bytes (entries_of 32 bs))).
  exists (blocks_bytes bs). unfold layout_envelope. rewrite size_entries_of. split; [done|].
  split; [apply entries_of_ok; [done|done|lia|lia]|]. split.
  { rewrite size_entries_of. destruct bs; [done|]. rewrite size_cons in *. pose proof (size_nonneg bs). lia. }
  split; [done|]. by apply index_chain_entries_of.
Qed.

(** The index of a file with the layout stays inside the file. *)
Lemma layout_bounds bytes entries :
  layout bytes entries ->
  exists off, index_ok entries off /\ 32 <= off /\ off <= size bytes.
Proof.
  intros (region & Hbytes & Hok). exists (32 + size region). split; [done|].
  pose proof (size_nonneg region). split; [lia|]. rewrite Hbytes, !size_app, size_header_bytes.
  pose proof (size_nonneg (index_bytes entries)). rewrite size_footer_bytes. lia.
Qed.

Lemma index_chain_bounds previous expected entries off last :
  index_chain previous expected entries off last -> 0 <= expected ->
  Forall (fun e => 0 <= block_offset e /\ 0 <= block_size e /\ block_offset e + block_size e <= off) entries.
Proof.
  revert previous expected. induction entries as [|e entries IH]; intros previous expected; [constructor|].
  intros (Ho & Hs & Hsum & _ & _ & _ & Hchain) He. constructor; [lia|]. eapply IH; [exact Hchain|lia].
Qed.

(** A file with the layout whose entries describe blocks is a segment. *)
Lemma layout_segment bytes entries bs :
  layout bytes entries -> Forall2 (describes bytes) entries bs ->
  segment_ok bs /\ bytes = segment_bytes bs /\ entries = entries_of 32 bs.
Proof.
  intros Hlayout Hall. destruct (layout_bounds _ _ Hlayout) as (off & _ & Ho & Hle).
  destruct Hlayout as (region & Hbytes & _ & Hcount & Hindex & Hchain).
  pose proof (size_nonneg region). pose proof (size_nonneg (index_bytes entries)).
  assert (32 + size region <= size bytes) as Hreg.
  { rewrite Hbytes, !size_app, size_header_bytes. rewrite size_footer_bytes. lia. }
  destruct (describes_entries_of bytes entries bs _ _ _ Hchain) as (-> & Hsub & _ & Hok & Hfit & Hadj);
    [lia|done|done|].
  rewrite size_entries_of in Hcount.
  assert (segment_ok bs) as Hbs.
  { split; [|by split]. split; [|by split_and!; [lia|..]].
    intros ->. change (size (@nil SegmentBlock)) with 0 in Hcount. lia. }
  split; [done|]. split; [|done].
  assert (region = blocks_bytes bs) as ->.
  { rewrite <-Hsub. replace (32 + size region - 32) with (size region) by lia.
    rewrite Hbytes at 1. symmetry. apply subspan_middle; [|done]. symmetry. apply size_header_bytes. }
  rewrite Hbytes at 1. unfold segment_bytes, envelope_of, layout_envelope.
  rewrite size_entries_of. reflexivity.
Qed.

Lemma segment_describes bs : segment_ok bs -> Forall2 (describes (segment_bytes bs)) (entries_of 32 bs) bs.
Proof.
  intros [(_ & _ & Hok & _) [Hfit _]].
  eapply entries_of_describes; [done|done|unfold segment_bytes; reflexivity|]. apply size_header_bytes.
Qed.

Lemma describes_all_unique bytes entries bs bs' :
  Forall2 (describes bytes) entries bs -> Forall2 (describes bytes) entries bs' -> bs = bs'.
Proof.
  intros H. revert bs'. induction H as [|e b entries bs Hb _ IH]; intros bs' H'; inversion H'; subst; [done|].
  f_equal; [by eapply describes_unique|auto].
Qed.

Lemma layout_unique p f bytes entries entries' :
  file_of f p = Some bytes -> size bytes <= max_stream ->
  layout bytes entries -> layout bytes entries' -> entries = entries'.
Proof.
  intros Hfile Hmax H1 H2.
  pose proof (wp_open_layout p bytes Hmax (World f []) entries Hfile H1) as Hw1.
  pose proof (wp_open_layout p bytes Hmax (World f []) entries' Hfile H2) as Hw2.
  unfold wp in *. destruct (open_segment p (World f [])) as [[r|e|] w'];
    [|by destruct Hw1 as [_ [?|[]]]|by destruct Hw1].
  destruct Hw1 as (_ & -> & _), Hw2 as (_ & Heq & _). by injection Heq.
Qed.

(** Opening a file and reading all of it. *)
Definition read_segment (p : path) : M world (list SegmentBlock) :=
  r ← open_segment p; segment_blocks r.

(** A file that does not open has no layout. *)
Lemma wp_open_exact p bytes w :
  file_of (fs w) p = Some bytes -> size bytes <= max_stream ->
  wp (open_segment p) w (reading
    (fun r => exists entries, layout bytes entries /\ r = reader_of p bytes entries)
    (fun e => (exists what, e = SegmentFormatError what) /\ forall entries, ~ layout bytes entries) w).
Proof.
  intros Hfile Hmax. pose proof (wp_open_segment p bytes Hmax w Hfile) as Hw. unfold wp in *.
  destruct Hw as [Hfs Ho]. split; [done|].
  destruct (open_segment p w) as [[r|e|] w'] eqn:Hrun; simpl in *; [done| |done].
  destruct (decide (script w = [])) as [Hs|Hs]; [|by left]. destruct Ho as [Ho|Ho]; [done|].
  right. split; [done|]. intros entries Hl.
  pose proof (wp_open_layout p bytes Hmax w entries Hfile Hl) as Hw. unfold wp in Hw. rewrite Hrun in Hw.
  by destruct Hw as [_ [?|[]]].
Qed.

Lemma wp_read_segment p bytes w :
  file_of (fs w) p = Some bytes -> size bytes <= max_stream ->
  wp (read_segment p) w (reading (fun bs => segment_ok bs /\ bytes = segment_bytes bs)
    (fun e => (exists what, e = SegmentFormatError what) /\
              forall bs, segment_ok bs -> bytes <> segment_bytes bs) w).
Proof.
  intros Hfile Hmax. unfold read_segment. eapply wp_reading_bind.
  { eapply wp_reading_mono; [by apply wp_open_exact|result_is|]. intros e [He Hn]. split; [done|].
    intros bs Hbs ->. by eapply Hn, segment_layout. }
  intros r w1 (entries & Hl & ->) Hf1 _. unfold segment_blocks.
  destruct (layout_bounds _ _ Hl) as (off & (_ & _ & _ & Hchain) & Ho & Hle).
  eapply wp_reading_mono.
  - apply (wp_read_blocks _ bytes); [done|simpl; congruence|].
    eapply Forall_impl; [by eapply index_chain_bounds|]. cbv beta. intros e. lia.
  - intros bs Hbs. by destruct (layout_segment _ _ _ Hl Hbs) as (? & ? & _).
  - intros e [-> Hn]. split; [by eexists|]. intros bs Hbs ->. apply (Hn bs).
    assert (entries = entries_of 32 bs) as ->; [|by apply segment_describes].
    eapply layout_unique; [exact Hfile|done|done|by apply segment_layout].
Qed.

(** The reader of a file the writer produced. *)
Definition segment_reader (p : path) (bs : list SegmentBlock) : SegmentReader :=
  reader_of p (segment_bytes bs) (entries_of 32 bs).

Lemma foldl_entry_counts n off bs :
  foldl (fun n e => u64 (n + entry_sample_count e)) n (entries_of off bs) = sum_counts n bs.
Proof. revert n off. induction bs as [|b bs IH]; intros n off; [done|]. apply IH. Qed.

Lemma wp_open_segment_bytes p bs w :
  segment_ok bs -> file_of (fs w) p = Some (segment_bytes bs) ->
  wp (open_segment p) w (reading (fun r => r = segment_reader p bs) no_throw w).
Proof.
  intros Hbs Hfile. pose proof (size_segment_bytes bs Hbs) as [_ Hmax].
  eapply wp_open_layout; [done|done|by apply segment_layout].
Qed.

Lemma wp_segment_blocks p bs w :
  segment_ok bs -> file_of (fs w) p = Some (segment_bytes bs) ->
  wp (segment_blocks (segment_reader p bs)) w (reading (fun bs' => bs' = bs) no_throw w).
Proof.
  intros Hbs Hfile. pose proof (size_segment_bytes bs Hbs) as [_ Hmax].
  destruct (layout_bounds _ _ (segment_layout bs Hbs)) as (off & (_ & _ & _ & Hchain) & Ho & Hle).
  pose proof (segment_describes bs Hbs) as Hd.
  eapply wp_reading_mono.
  - apply (wp_read_blocks _ (segment_bytes bs)); [done|done|].
    eapply Forall_impl; [by eapply index_chain_bounds|]. cbv beta. intros e. lia.
  - intros bs' Hbs'. by eapply describes_all_unique.
  - intros e [_ Hn]. by eapply Hn.
Qed.

(** What a computation that only reads gives when nothing fails. *)
Lemma reading_calm {A} (m : M world A) f (P : A -> Prop) R :
  wp m (World f []) (reading P R (World f [])) ->
  (exists a, m (World f []) = (Done a, World f []) /\ P a) \/
  (exists e, (m (World f [])).1 = Raised e /\ fs (m (World f [])).2 = f /\ R e).
Proof.
  unfold wp. destruct (m (World f [])) as [[a|e|] [f' sc]]; intros [Hf Ho]; simpl in *; subst f'.
  - left. destruct Ho as [HP Hs]. exists a. split; [|done]. do 2 f_equal.
    destruct sc as [|o sc]; [done|]. exfalso. by apply Hs.
  - right. exists e. destruct Ho as [Ho|Ho]; [done|]. done.
  - done.
Qed.

(** The writer: the atomic write of the file's bytes, or an exception about the blocks. *)
Lemma wp_write_segment_file p bs w :
  fs_ok (fs w) -> Forall SegmentBlock_ok bs ->
  wp (write_segment_file p bs) w (fun o w' =>
    match o with
    | Done m =>
      segment_ok bs /\ m = MkSegmentFileMetadata (size (segment_bytes bs)) (sum_counts 0 bs) (size bs) /\
      atomic_write_post w p (segment_bytes bs) (Done tt) w'
    | _ =>
      (~ segment_ok bs /\ w' = w /\ exists e, o = Raised e) \/
      exists o', segment_ok bs /\ (forall u, o' <> Done u) /\ atomic_write_post w p (segment_bytes bs) o' w'
    end).
Proof.
  intros Hok Hall. unfold write_segment_file. wp_step. unfold wp at 1, lift.
  destruct (segment_file_bytes_cases bs Hall) as [(Hbs & Hfit & ->)|(Hn & e & -> & _)]; simpl; [|by left; split_and!; eauto].
  wp_step. eapply wp_mono; [by apply wp_atomic_write_file|]. intros o w1 Hpost.
  destruct o as [[]|e|]; cbn [and_then].
  - rewrite wp_ret. by split_and!.
  - right. by exists (Raised e).
  - right. by exists Crashed.
Qed.

(** ** Properties *)

Definition example_blocks : list SegmentBlock :=
  [example_block; MkSegmentBlock example_key [example_sample 7]].
Definition example_segment_bytes : list byte :=
  match segment_file_bytes example_blocks with Ok (bytes, _) => bytes | Err _ => [] end.
Definition example_segment : path := Path "db" "segment-00000000000000000001.cst".

Lemma example_blocks_ok : Forall SegmentBlock_ok example_blocks.
Proof.
  constructor; [apply example_block_ok|constructor; [|constructor]].
  split; [apply example_key_ok|]. split; [discriminate|]. split; [vm_compute; discriminate|].
  split; [by apply adjacent_not_increasing_false|].
  repeat constructor; vm_compute; discriminate || reflexivity.
Qed.

(** C28: a segment that was written is the segment that is read.  When
    [write_segment_file] returns, then after any power loss the file opens and
    [blocks] gives back exactly the blocks that were written; file size, sample
    count and block count of the reader are the ones the writer reported. *)
Theorem segment_roundtrip p bs w m w' f :
  fs_ok (fs w) -> Forall SegmentBlock_ok bs ->
  write_segment_file p bs w = (Done m, w') -> crash (fs w') f ->
  exists r, open_segment p (World f []) = (Done r, World f []) /\
    segment_blocks r (World f []) = (Done bs, World f []) /\
    m = MkSegmentFileMetadata (reader_file_size r) (reader_sample_count r) (reader_block_count r).
Proof.
  intros Hok Hall Hrun Hcrash. pose proof (wp_write_segment_file p bs w Hok Hall) as Hw.
  unfold wp in Hw. rewrite Hrun in Hw. destruct Hw as (Hbs & -> & (_ & _ & Hd & _)).
  assert (file_of (fs (World f [])) p = Some (segment_bytes bs)) as Hfile.
  { apply durable_file_of. by eapply durable_crash. }
  exists (segment_reader p bs).
  pose proof (reading_calm _ _ _ _ (wp_open_segment_bytes p bs _ Hbs Hfile)) as [(r & Hr & ->)|(e & _ & _ & [])].
  pose proof (reading_calm _ _ _ _ (wp_segment_blocks p bs _ Hbs Hfile)) as [(bs' & Hb & ->)|(e & _ & _ & [])].
  split; [done|]. split; [done|]. unfold segment_reader, reader_of, reader_block_count. simpl.
  by rewrite foldl_entry_counts, size_entries_of.
Qed.

Lemma segment_roundtrip_witness :
  let w := World (single_file (Path "db" "LOCK") []) [] in
  exists m w', write_segment_file example_segment example_blocks w = (Done m, w') /\
    forall f, crash (fs w') f ->
      exists r, open_segment example_segment (World f []) = (Done r, World f []) /\
        segment_blocks r (World f []) = (Done example_blocks, World f []) /\
        m = MkSegmentFileMetadata (reader_file_size r) (reader_sample_count r) (reader_block_count r).
Proof.
  intros w. set (r := write_segment_file example_segment example_blocks w).
  assert (r.1 = Done (MkSegmentFileMetadata 344 3 2)) as Ho by (vm_compute; reflexivity).
  exists (MkSegmentFileMetadata 344 3 2), r.2. rewrite <-Ho. split; [apply surjective_pairing|].
  intros f Hf. apply (segment_roundtrip example_segment example_blocks w _ r.2 f);
    [apply single_file_ok|apply example_blocks_ok|rewrite <-Ho; apply surjective_pairing|exact Hf].
Defined.

(** C29: the segment decoder accepts exactly the writer's files.  Reading a file
    that is what [write_segment_file] makes of some blocks gives these blocks;
    reading any other file is reported as [SegmentFormatError]. *)
Theorem segment_exact p bytes f :
  file_of f p = Some bytes -> size bytes <= max_stream ->
  (exists bs, segment_file_bytes bs = Ok (bytes, MkSegmentFileMetadata (size bytes) (sum_counts 0 bs) (size bs)) /\
     Forall SegmentBlock_ok bs /\
     read_segment p (World f []) = (Done bs, World f [])) \/
  ((forall bs m, Forall SegmentBlock_ok bs -> segment_file_bytes bs <> Ok (bytes, m)) /\
   exists what, (read_segment p (World f [])).1 = Raised (SegmentFormatError what)).
Proof.
  intros Hfile Hmax. pose proof (wp_read_segment p bytes (World f []) Hfile Hmax) as Hw.
  apply reading_calm in Hw as [(bs & Hrun & Hbs & ->)|(e & Hrun & _ & (what & ->) & Hn)].
  - left. exists bs. destruct (segment_file_bytes_cases bs) as [(_ & _ & ->)|(Hnot & _)]; [apply Hbs| |done].
    split; [done|]. split; [apply Hbs|done].
  - right. split; [|eauto]. intros bs m Hok Heq.
    destruct (segment_file_bytes_cases bs Hok) as [(Hbs & Hfit & Hrun')|(_ & e & Hrun' & _)].
    + rewrite Hrun' in Heq. injection Heq as <- _. by apply (Hn bs).
    + by rewrite Hrun' in Heq.
Qed.

Lemma segment_exact_witness :
  let bytes := tail example_segment_bytes in
  (forall bs m, Forall SegmentBlock_ok bs -> segment_file_bytes bs <> Ok (bytes, m)) /\
  exists what, (read_segment example_segment (World (single_file example_segment bytes) [])).1 =
                 Raised (SegmentFormatError what).
Proof.
  intros bytes. destruct (segment_exact example_segment bytes (single_file example_segment bytes))
    as [(bs & _ & _ & Hrun)|H].
  - apply durable_file_of, single_file_durable.
  - vm_compute. discriminate.
  - exfalso. apply (f_equal fst) in Hrun. vm_compute in Hrun. discriminate.
  - exact H.
Defined.
