(* ===== verification/BlocksView.v ===== *)
(** * What a list of segment blocks holds

    Blocks in strict order of series and time hold each sample once: the samples
    of a series, one block after the other, are sorted, and [blocks_view] is the
    [view] they stand for.  The segment queries and compaction are specified by it. *)

From stdpp Require Import base tactics option numbers list strings.
From Stdlib Require Import ZArith Lia Sorted.
From S2P Require Import Prelude Errors World Model OrdMap View SegmentBlock SegmentFile SegmentFormat.

(** ** Sorted samples *)

(** The value of the first sample at [t]. *)
Fixpoint value_at (t : Timestamp) (l : list Sample) : option double :=
  match l with
  | [] => None
  | x :: l' => if timestamp x ≡? t then Some (sample_value x) else value_at t l'
  end.

Definition in_window (start end_ : Timestamp) (x : Sample) : bool :=
  negb (timestamp x ≺? start) && (timestamp x ≺? end_).

Definition window (start end_ : Timestamp) (l : list Sample) : list Sample :=
  List.filter (in_window start end_) l.

(** ** Blocks *)

Definition samples_of (bs : list SegmentBlock) (s : SeriesKey) : list Sample :=
  concat (map (fun b => if block_series b ≡? s then block_samples b else []) bs).

Definition blocks_view (bs : list SegmentBlock) : view := fun s t => value_at t (samples_of bs s).

Definition precedes (b b' : SegmentBlock) : Prop :=
  block_series b ≺ block_series b' \/
  block_series b = block_series b' /\ last_timestamp b ≺ first_timestamp b'.

Definition blocks_ordered (bs : list SegmentBlock) : Prop :=
  Forall SegmentBlock_ok bs /\ StronglySorted precedes bs.

(** ** Lemmas: samples *)

Lemma value_at_None t l : value_at t l = None <-> forall x, x ∈ l -> timestamp x <> t.
Proof.
  induction l as [|x l IH]; simpl; [split; [|done]; intros _ x Hx; by apply elem_of_nil in Hx|].
  destruct (timestamp x ≡? t) eqn:E; ord_to_prop.
  - split; [done|]. intros Hn. by destruct (Hn x ltac:(left)).
  - rewrite IH. split.
    + intros Hn y [->|Hy]%elem_of_cons; auto.
    + intros Hn y Hy. apply Hn. by right.
Qed.

Lemma value_at_app t l k :
  value_at t (l ++ k) = match value_at t l with Some v => Some v | None => value_at t k end.
Proof. induction l as [|x l IH]; simpl; [done|]. by destruct (timestamp x ≡? t). Qed.

Lemma samples_sorted_app l k :
  samples_sorted (l ++ k) <->
  samples_sorted l /\ samples_sorted k /\ forall x y, x ∈ l -> y ∈ k -> timestamp x ≺ timestamp y.
Proof.
  unfold samples_sorted. induction l as [|a l IH]; simpl.
  { split; [|tauto]. intros Hk. split; [constructor|]. split; [done|].
    intros x y Hx. by apply elem_of_nil in Hx. }
  split.
  - intros [Hl Ha]%StronglySorted_inv. rewrite Forall_app in Ha. destruct Ha as [Ha Ha'].
    apply IH in Hl as (Hl & Hk & Hlk). split; [by constructor|]. split; [done|].
    intros x y [->|Hx]%elem_of_cons Hy; [|by apply Hlk]. rewrite Forall_forall in Ha'. by apply Ha'.
  - intros ([Hl Ha]%StronglySorted_inv & Hk & Hlk). constructor.
    + apply IH. split; [done|]. split; [done|]. intros x y Hx Hy. apply Hlk; [by right|done].
    + apply Forall_app. split; [done|]. apply Forall_forall. intros y Hy. apply Hlk; [left|done].
Qed.

Lemma value_at_elem t v l : samples_sorted l -> value_at t l = Some v <-> MkSample t v ∈ l.
Proof.
  induction 1 as [|x l Hl IH Hall]; simpl.
  { rewrite elem_of_nil. done. }
  rewrite elem_of_cons, Forall_forall in *. destruct (timestamp x ≡? t) eqn:E; ord_to_prop.
  - subst t. split.
    + intros [= <-]. left. by destruct x.
    + intros [<-|Hin]; [done|]. apply Hall in Hin. simpl in Hin. by apply lt_irrefl in Hin.
  - rewrite IH. split; [by right|]. intros [<-|]; done.
Qed.

Lemma window_elem a b l x :
  x ∈ window a b l <-> x ∈ l /\ ~ timestamp x ≺ a /\ timestamp x ≺ b.
Proof.
  unfold window. rewrite !list_elem_of_In, filter_In. unfold in_window.
  rewrite andb_true_iff, negb_true_iff, ltb_ge_not, ltb_lt. done.
Qed.

Lemma window_sorted a b l : samples_sorted l -> samples_sorted (window a b l).
Proof.
  unfold samples_sorted, window. induction 1 as [|x l Hl IH Hall]; simpl; [constructor|].
  destruct (in_window a b x); [|done]. constructor; [done|].
  rewrite Forall_forall in *. intros y Hy. apply Hall. apply (window_elem a b) in Hy. by destruct Hy.
Qed.

Lemma window_app a b l k : window a b (l ++ k) = window a b l ++ window a b k.
Proof. apply List.filter_app. Qed.

Lemma window_none a b l :
  (forall x, x ∈ l -> timestamp x ≺ a \/ ~ timestamp x ≺ b) -> window a b l = [].
Proof.
  intros H. destruct (window a b l) as [|x k] eqn:E; [done|]. exfalso.
  assert (x ∈ window a b l) as Hx by (rewrite E; left).
  apply window_elem in Hx as (Hin & Ha & Hb). by destruct (H x Hin).
Qed.

(** Two binary searches on sorted samples cut out the window. *)
Lemma window_search a b l :
  samples_sorted l ->
  let from := drop (partition_point (fun x => timestamp x ≺? a) l) l in
  take (partition_point (fun x => timestamp x ≺? b) from) from = window a b l.
Proof.
  intros Hs. cbv zeta. induction Hs as [|x l Hl IH Hall]; [done|]. cbn [partition_point window].
  unfold window. cbn [List.filter]. unfold in_window at 1.
  destruct (timestamp x ≺? a) eqn:Ea; cbn [drop negb andb]; [exact IH|].
  cbn [partition_point]. destruct (timestamp x ≺? b) eqn:Eb; cbn [take].
  - f_equal. assert (partition_point (fun y => timestamp y ≺? a) l = O) as Hz.
    { destruct Hall as [|y l Hy _]; [done|]. simpl. rewrite (proj2 (ltb_ge_not _ _)); [done|].
      apply ltb_ge_not in Ea. intros Hya. apply Ea. by etrans. }
    rewrite Hz in IH. exact IH.
  - symmetry. apply window_none. intros y Hy. right. rewrite Forall_forall in Hall.
    apply ltb_ge_not in Eb. intros Hyb. apply Eb. etrans; [by apply Hall|done].
Qed.

(** ** Lemmas: blocks *)

Lemma adjacent_ordered bs :
  Forall SegmentBlock_ok bs -> adjacent_misordered bs = false -> blocks_ordered bs.
Proof.
  intros Hok Hadj. split; [done|]. revert Hadj.
  induction Hok as [|b bs Hb Hok IH]; intros Hadj; [constructor|].
  destruct bs as [|b' bs]; [repeat constructor|].
  cbn [adjacent_misordered] in Hadj. apply orb_false_iff in Hadj as [Hmis Hadj].
  specialize (IH Hadj). constructor; [done|].
  assert (precedes b b') as Hbb'.
  { unfold misordered in Hmis. apply orb_false_iff in Hmis as [H1 H2]. ord_to_prop.
    destruct H1 as [H1|H1]; [by left|]. right. split; [done|].
    rewrite H1, eqb_refl in H2. simpl in H2. by ord_to_prop. }
  constructor; [done|]. apply StronglySorted_inv in IH as [_ Hall].
  eapply Forall_impl; [exact Hall|]. intros c Hc. apply Forall_inv in Hok.
  pose proof (block_first_last b' Hok) as Hle. unfold precedes in *.
  destruct Hbb' as [Hs|[Hs Ht]], Hc as [Hs'|[Hs' Ht']].
  - left. by etrans.
  - left. by rewrite <-Hs'.
  - left. by rewrite Hs.
  - right. split; [congruence|]. etrans; [exact Ht|]. by destruct Hle as [Hle| ->]; [etrans|].
Qed.

Lemma blocks_ordered_inv b bs :
  blocks_ordered (b :: bs) ->
  SegmentBlock_ok b /\ Forall (precedes b) bs /\ blocks_ordered bs.
Proof. intros [[Hb Hok]%Forall_cons [Hs Hall]%StronglySorted_inv]. split; [done|]. split; [done|]. by split. Qed.

Lemma segment_ordered bs : segment_ok bs -> blocks_ordered bs.
Proof. intros [(_ & _ & Hok & Hadj) _]. by apply adjacent_ordered. Qed.

Lemma samples_of_cons b bs s :
  samples_of (b :: bs) s = (if block_series b ≡? s then block_samples b else []) ++ samples_of bs s.
Proof. done. Qed.

Lemma samples_of_app bs bs' s : samples_of (bs ++ bs') s = samples_of bs s ++ samples_of bs' s.
Proof. unfold samples_of. by rewrite map_app, concat_app. Qed.

Lemma samples_of_elem bs s x :
  x ∈ samples_of bs s <-> exists b, b ∈ bs /\ block_series b = s /\ x ∈ block_samples b.
Proof.
  induction bs as [|b bs IH].
  { rewrite elem_of_nil. split; [done|]. by intros (b & Hb%elem_of_nil & _). }
  rewrite samples_of_cons, elem_of_app, IH. setoid_rewrite elem_of_cons.
  destruct (block_series b ≡? s) eqn:E; ord_to_prop.
  - split.
    + intros [Hx|(c & Hc & Hx)]; [exists b|exists c]; auto.
    + intros (c & [->|Hc] & Hs & Hx); [by left|right; by exists c].
  - rewrite elem_of_nil. split.
    + intros [[]|(c & Hc & Hx)]; exists c; auto.
    + intros (c & [->|Hc] & Hs & Hx); [done|right; by exists c].
Qed.

(** A block's samples lie between its first and its last timestamp. *)
Lemma block_sample_bounds b x :
  SegmentBlock_ok b -> x ∈ block_samples b ->
  le_of (first_timestamp b) (timestamp x) /\ le_of (timestamp x) (last_timestamp b).
Proof.
  intros (_ & _ & _ & Hs & _). unfold first_timestamp, last_timestamp.
  induction Hs as [|y l Hl IH Hall]; intros Hx; [by apply elem_of_nil in Hx|].
  rewrite Forall_forall in Hall. cbn [hd]. apply elem_of_cons in Hx as [->|Hx].
  - split; [by right|]. by apply (sorted_hd_last (y :: l)); [constructor; [|apply Forall_forall]|].
  - split; [left; by apply Hall|]. destruct l as [|z l]; [by apply elem_of_nil in Hx|]. by apply IH.
Qed.

(** The samples of the blocks after a block of the same series come after it. *)
Lemma precedes_last b bs y :
  blocks_ordered (b :: bs) -> y ∈ samples_of bs (block_series b) -> last_timestamp b ≺ timestamp y.
Proof.
  intros (Hb & Hall & [Hok _])%blocks_ordered_inv Hy.
  apply samples_of_elem in Hy as (c & Hc & Hs & Hy). rewrite Forall_forall in Hall, Hok.
  destruct (block_sample_bounds c y (Hok c Hc) Hy) as [H2 _].
  destruct (Hall c Hc) as [Hlt|[_ Hlt]]; [rewrite Hs in Hlt; by apply lt_irrefl in Hlt|].
  destruct H2 as [H2| <-]; [by etrans|done].
Qed.

Lemma precedes_samples b bs x y :
  blocks_ordered (b :: bs) -> x ∈ block_samples b -> y ∈ samples_of bs (block_series b) ->
  timestamp x ≺ timestamp y.
Proof.
  intros Hbs Hx Hy. apply precedes_last in Hy; [|done]. apply blocks_ordered_inv in Hbs as (Hb & _).
  destruct (block_sample_bounds b x Hb Hx) as [_ [H1| ->]]; [by etrans|done].
Qed.

Lemma first_bound b bs y :
  blocks_ordered (b :: bs) -> y ∈ samples_of (b :: bs) (block_series b) ->
  le_of (first_timestamp b) (timestamp y).
Proof.
  intros Hbs Hy. rewrite samples_of_cons, eqb_refl, elem_of_app in Hy.
  pose proof Hbs as (Hb & _)%blocks_ordered_inv. destruct Hy as [Hy|Hy]; [by apply block_sample_bounds|].
  apply precedes_last in Hy; [|done]. left.
  destruct (block_first_last b Hb) as [Hl| ->]; [by etrans|done].
Qed.

Lemma samples_of_sorted bs s : blocks_ordered bs -> samples_sorted (samples_of bs s).
Proof.
  induction bs as [|b bs IH]; [constructor|]. intros Hbs. rewrite samples_of_cons.
  pose proof Hbs as (Hb & _ & Hbs')%blocks_ordered_inv.
  destruct (block_series b ≡? s) eqn:E; [|by apply IH]. ord_to_prop. subst s.
  apply samples_sorted_app. split; [apply Hb|]. split; [by apply IH|].
  intros x y. by apply precedes_samples.
Qed.

Lemma blocks_view_elem bs s t v :
  blocks_ordered bs -> blocks_view bs s t = Some v <-> MkSample t v ∈ samples_of bs s.
Proof. intros Hbs. by apply value_at_elem, samples_of_sorted. Qed.

Lemma blocks_view_at bs s x : blocks_ordered bs -> at_ (blocks_view bs) s x <-> x ∈ samples_of bs s.
Proof. intros Hbs. unfold at_. rewrite blocks_view_elem by done. by destruct x. Qed.

Lemma window_is_range bs s a b :
  blocks_ordered bs -> is_range (blocks_view bs) s a b (window a b (samples_of bs s)).
Proof.
  intros Hbs. split; [by apply window_sorted, samples_of_sorted|]. intros x.
  rewrite window_elem, blocks_view_at by done. done.
Qed.

(** Series beyond [s] hold nothing of [s]. *)
Lemma samples_of_beyond bs s :
  Forall (fun b => block_series b <> s) bs -> samples_of bs s = [].
Proof.
  induction 1 as [|b bs Hb _ IH]; [done|]. rewrite samples_of_cons, IH, (proj2 (eqb_neq _ _)) by done. done.
Qed.

Lemma samples_of_past b bs s :
  blocks_ordered (b :: bs) -> block_series b <> s -> ~ block_series b ≺ s -> samples_of (b :: bs) s = [].
Proof.
  intros (_ & Hall & _)%blocks_ordered_inv Hne Hge. apply samples_of_beyond. constructor; [done|].
  apply not_lt in Hge as [Hlt|]; [|done]. eapply Forall_impl; [exact Hall|].
  intros c Hc <-. destruct Hc as [Hc|[Hc _]]; [by apply (lt_asym _ _ Hc)|].
  rewrite Hc in Hlt. by apply lt_irrefl in Hlt.
Qed.

(** [lower_bound] of a series leaves its blocks. *)
Lemma samples_of_lower_bound bs s :
  blocks_ordered bs ->
  let rest := drop (partition_point (fun b => block_series b ≺? s) bs) bs in
  samples_of rest s = samples_of bs s /\ blocks_ordered rest /\
  Forall (fun b => ~ block_series b ≺ s) rest.
Proof.
  intros Hbs. cbv zeta. induction bs as [|b bs IH]; [by split|].
  pose proof Hbs as (_ & Hall & Hbs')%blocks_ordered_inv. cbn [partition_point].
  destruct (block_series b ≺? s) eqn:E; cbn [drop].
  - destruct (IH Hbs') as (H1 & H2). split; [|done]. rewrite H1, samples_of_cons.
    apply ltb_lt, lt_ne in E. by rewrite (proj2 (eqb_neq _ _)).
  - split; [done|]. split; [done|]. apply ltb_ge_not in E. constructor; [done|].
    eapply Forall_impl; [exact Hall|]. intros c Hc Hcs. apply E.
    destruct Hc as [Hc|[-> _]]; [by etrans|done].
Qed.

(** [upper_bound] of a series: nothing of it lies beyond, and what there is of it
    ends with the block before. *)
Lemma samples_of_upper_bound bs s :
  blocks_ordered bs ->
  match partition_point (fun b => negb (s ≺? block_series b)) bs with
  | O => samples_of bs s = []
  | S k => exists b, bs !! k = Some b /\
      if block_series b ≡? s then exists l, samples_of bs s = l ++ block_samples b
      else samples_of bs s = []
  end.
Proof.
  intros Hbs. induction bs as [|b bs IH]; [done|].
  pose proof Hbs as (_ & Hall & Hbs')%blocks_ordered_inv. cbn [partition_point].
  destruct (s ≺? block_series b) eqn:E; cbn [negb]; ord_to_prop.
  { apply samples_of_past; [done| |by apply lt_asym].
    intros Heq. rewrite Heq in E. by apply lt_irrefl in E. }
  specialize (IH Hbs'). rewrite samples_of_cons.
  destruct (partition_point _ bs) as [|k] eqn:Hk.
  - exists b. split; [done|]. rewrite IH, app_nil_r. destruct (block_series b ≡? s); [|done]. by exists [].
  - destruct IH as (c & Hc & Hcase). exists c. split; [done|].
    destruct (block_series c ≡? s) eqn:Ec; ord_to_prop.
    + destruct Hcase as (l & ->). eexists. by rewrite app_assoc.
    + rewrite Hcase, app_nil_r. destruct (block_series b ≡? s) eqn:Eb; [|done]. exfalso. ord_to_prop.
      (* the block of [s] precedes [c], which is not beyond [s] *)
      assert (negb (s ≺? block_series c) = true) as Hcs.
      { pose proof (partition_point_take (fun b => negb (s ≺? block_series b)) bs) as Ht.
        rewrite Hk, Forall_forall in Ht. apply Ht. apply list_elem_of_lookup_2 with k.
        by rewrite lookup_take_lt by lia. }
      apply negb_true_iff, ltb_ge_not in Hcs. rewrite Forall_forall in Hall.
      destruct (Hall c) as [Hp|[Hp _]]; [by eapply list_elem_of_lookup_2| |]; [|congruence].
      apply Hcs. by rewrite <-Eb.
Qed.
