(* ===== verification/SegmentQuery.v ===== *)
(** * Segment files: the queries

    On a file the writer produced, [SegmentReader]'s [latest], [get] and [range]
    answer from [blocks_view]; they read only the blocks their index entries
    select. *)

From stdpp Require Import base tactics option numbers list strings.
From Stdlib Require Import ZArith Lia Sorted.
From S2P Require Import Prelude Errors World Hoare Model OrdMap View FileIo SegmentBlock SegmentFile SegmentFormat BlocksView.

(** ** Searching sorted lists *)

Lemma partition_point_Forall2 {A B} (p : A -> bool) (q : B -> bool) l k :
  Forall2 (fun x y => p x = q y) l k -> partition_point p l = partition_point q k.
Proof. induction 1 as [|x y l k Hxy _ IH]; [done|]. simpl. rewrite Hxy, IH. done. Qed.

(** [lower_bound] and the check of the timestamp found. *)
Lemma value_at_search t l :
  samples_sorted l ->
  match drop (partition_point (fun x => timestamp x ≺? t) l) l with
  | x :: _ => if timestamp x ≡? t then Some x else None
  | [] => None
  end = MkSample t <$> value_at t l.
Proof.
  induction 1 as [|x l Hl IH Hall]; [done|]. cbn [partition_point value_at].
  destruct (timestamp x ≺? t) eqn:E; cbn [drop].
  - rewrite IH. apply ltb_lt, lt_ne in E. by rewrite (proj2 (eqb_neq _ _)).
  - destruct (timestamp x ≡? t) eqn:E'; ord_to_prop; [subst; by destruct x|].
    rewrite (proj2 (value_at_None t l)); [done|]. intros y Hy <-.
    rewrite Forall_forall in Hall. apply Hall in Hy.
    destruct E as [E|E]; [by eapply lt_asym|by apply lt_irrefl in E || congruence].
Qed.

(** The last sample is the latest. *)
Lemma last_is_latest bs s l x :
  blocks_ordered bs -> samples_of bs s = l ++ [x] -> is_latest (blocks_view bs) s (Some x).
Proof.
  intros Hbs Heq. pose proof (samples_of_sorted bs s Hbs) as Hs. rewrite Heq in Hs.
  apply samples_sorted_app in Hs as (_ & _ & Hlt). split.
  - apply blocks_view_at; [done|]. rewrite Heq, elem_of_app. right. left.
  - intros t v Hv. apply blocks_view_elem in Hv; [|done]. rewrite Heq, elem_of_app in Hv.
    destruct Hv as [Hv|Hv%list_elem_of_singleton]; [|subst; by right].
    left. apply (Hlt (MkSample t v) x); [done|left].
Qed.

Lemma none_is_latest bs s : samples_of bs s = [] -> is_latest (blocks_view bs) s None.
Proof. intros H t. unfold blocks_view. by rewrite H. Qed.

(** ** Index entries and their blocks *)

Definition located (bytes : list byte) (e : SegmentIndexEntry) (b : SegmentBlock) : Prop :=
  describes bytes e b /\
  (0 <= block_offset e /\ 0 <= block_size e /\ block_offset e + block_size e <= size bytes).

Lemma Forall2_with_left {A B} (P : A -> Prop) (R : A -> B -> Prop) l k :
  Forall P l -> Forall2 R l k -> Forall2 (fun x y => R x y /\ P x) l k.
Proof. intros HP HR. induction HR; [constructor|]. apply Forall_cons in HP as [? ?]. constructor; auto. Qed.

Lemma segment_located bs :
  segment_ok bs -> Forall2 (located (segment_bytes bs)) (entries_of 32 bs) bs.
Proof.
  intros Hbs. destruct (layout_bounds _ _ (segment_layout bs Hbs)) as (off & (_ & _ & _ & Hchain) & Ho & Hle).
  apply Forall2_with_left; [|by apply segment_describes].
  eapply Forall_impl; [by eapply index_chain_bounds|]. cbv beta. intros e. lia.
Qed.

Section Queries.
Context (p : path) (bytes : list byte) (entries : list SegmentIndexEntry).
Hypothesis (Hmax : size bytes <= max_stream).
Let r := reader_of p bytes entries.

Lemma wp_read_located e b w :
  file_of (fs w) p = Some bytes -> located bytes e b ->
  wp (read_block r e) w (reading (fun b' => b' = b) no_throw w).
Proof.
  intros Hfile (Hd & Ho & Hs & Hsum). eapply wp_reading_mono; [by apply (wp_read_block r bytes)| |].
  - intros b' Hb'. by eapply describes_unique.
  - intros x [_ Hn]. by eapply Hn.
Qed.

Lemma wp_get_loop es bs s t w :
  Forall2 (located bytes) es bs -> blocks_ordered bs -> Forall (fun b => ~ block_series b ≺ s) bs ->
  file_of (fs w) p = Some bytes ->
  wp (segment_get_loop r es s t) w
     (reading (fun o => o = MkSample t <$> blocks_view bs s t) no_throw w).
Proof.
  intros Hloc. revert w. induction Hloc as [|e b es bs He Hloc IH]; intros w Hbs Hge Hfile;
    cbn [segment_get_loop]; [by apply wp_reading_ret|].
  destruct (describes_fields _ _ _ (proj1 He)) as (-> & -> & -> & _).
  pose proof Hbs as (Hb & Hall & Hbs')%blocks_ordered_inv. apply Forall_cons in Hge as [Hge Hge'].
  unfold blocks_view. destruct (block_series b ≡? s) eqn:E; ord_to_prop; cbn [negb].
  2:{ apply wp_reading_ret. by rewrite samples_of_past. }
  subst s. destruct (t ≺? first_timestamp b) eqn:Ef; ord_to_prop.
  { apply wp_reading_ret. rewrite (proj2 (value_at_None _ _)); [done|]. intros y Hy <-.
    apply first_bound in Hy as [Hy|Hy]; [by eapply lt_asym| |done].
    rewrite Hy in Ef. by apply lt_irrefl in Ef. }
  rewrite samples_of_cons, eqb_refl, value_at_app.
  destruct (last_timestamp b ≺? t) eqn:El.
  { rewrite (proj2 (value_at_None _ (block_samples b))); [by apply IH|]. ord_to_prop. intros y Hy <-.
    apply block_sample_bounds in Hy as [_ [Hy|Hy]]; [by eapply lt_asym| |done].
    rewrite Hy in El. by apply lt_irrefl in El. }
  rewrite (proj2 (value_at_None _ (samples_of bs _))).
  2:{ intros y Hy <-. apply precedes_last in Hy; [|done]. apply ltb_ge_not in El. done. }
  eapply wp_reading_bind; [by apply wp_read_located|]. intros b' w1 -> Hf1 _.
  assert (samples_sorted (block_samples b)) as Hsorted by apply Hb.
  pose proof (value_at_search t _ Hsorted) as Hsearch.
  destruct (drop _ (block_samples b)) as [|x l]; apply wp_reading_ret; rewrite Hsearch; by destruct value_at.
Qed.

Lemma wp_range_loop es bs s a c acc w :
  Forall2 (located bytes) es bs -> blocks_ordered bs -> Forall (fun b => ~ block_series b ≺ s) bs ->
  file_of (fs w) p = Some bytes ->
  wp (segment_range_loop r es s a c acc) w
     (reading (fun l => l = acc ++ window a c (samples_of bs s)) no_throw w).
Proof.
  intros Hloc. revert w acc. induction Hloc as [|e b es bs He Hloc IH]; intros w acc Hbs Hge Hfile;
    cbn [segment_range_loop]; [apply wp_reading_ret; by rewrite app_nil_r|].
  destruct (describes_fields _ _ _ (proj1 He)) as (-> & -> & -> & _).
  pose proof Hbs as (Hb & Hall & Hbs')%blocks_ordered_inv. apply Forall_cons in Hge as [Hge Hge'].
  destruct (block_series b ≡? s) eqn:E; ord_to_prop; cbn [negb].
  2:{ apply wp_reading_ret. by rewrite samples_of_past, app_nil_r. }
  subst s. rewrite samples_of_cons, eqb_refl, window_app.
  destruct (last_timestamp b ≺? a) eqn:El.
  { rewrite (window_none a c (block_samples b)); [by apply IH|]. ord_to_prop. intros y Hy. left.
    apply block_sample_bounds in Hy as [_ [Hy| ->]]; [by etrans|done|done]. }
  destruct (c ≼? first_timestamp b) eqn:Ef.
  { apply wp_reading_ret. rewrite <-window_app, window_none, app_nil_r; [done|]. intros y Hy. right.
    assert (le_of (first_timestamp b) (timestamp y)) as Hfy.
    { apply (first_bound b bs); [done|]. by rewrite samples_of_cons, eqb_refl. }
    apply leb_le in Ef. apply not_lt_le. by eapply le_of_trans. }
  eapply wp_reading_bind; [by apply wp_read_located|]. intros b' w1 -> Hf1 _.
  rewrite window_search by apply Hb. rewrite app_assoc. apply IH; [done|done|congruence].
Qed.
End Queries.

(** ** The three queries on a file the writer produced *)

Section SegmentQueries.
Context (p : path) (bs : list SegmentBlock).
Hypothesis (Hbs : segment_ok bs).
Let r := segment_reader p bs.

Let Hordered : blocks_ordered bs.
Proof. by apply segment_ordered. Qed.

Lemma located_from s :
  Forall2 (located (segment_bytes bs)) (entries_from r s)
    (drop (partition_point (fun b => block_series b ≺? s) bs) bs).
Proof.
  unfold entries_from. pose proof (segment_located bs Hbs) as Hloc.
  rewrite (partition_point_Forall2 _ (fun b => block_series b ≺? s) (reader_index r) bs).
  - by apply Forall2_drop.
  - eapply Forall2_impl; [exact Hloc|]. intros e b [Hd _]. by destruct (describes_fields _ _ _ Hd) as (-> & _).
Qed.

Lemma wp_segment_get s t w :
  file_of (fs w) p = Some (segment_bytes bs) ->
  wp (segment_get r s t) w (reading (is_get (blocks_view bs) s t) no_throw w).
Proof.
  intros Hfile. destruct (samples_of_lower_bound bs s Hordered) as (Hsame & Hord & Hge).
  eapply wp_reading_mono; [|intros o Ho; exact Ho|done].
  unfold segment_get, is_get, blocks_view. rewrite <-Hsame.
  apply (wp_get_loop p (segment_bytes bs)); [by apply size_segment_bytes|apply located_from|done..].
Qed.

Lemma wp_segment_range s a c w :
  file_of (fs w) p = Some (segment_bytes bs) ->
  wp (segment_range r s a c) w
    (reading (fun l => ~ c ≺ a /\ is_range (blocks_view bs) s a c l)
       (fun e => c ≺ a /\ e = invalid_argument "range end must not precede range start") w).
Proof.
  intros Hfile. destruct (samples_of_lower_bound bs s Hordered) as (Hsame & Hord & Hge).
  unfold segment_range. eapply wp_reading_bind.
  { apply wp_reading_throw_when. intros Hlt. split; [by apply ltb_lt|done]. }
  intros u w1 Hle Hf1 _. apply ltb_ge_not in Hle. destruct (a ≡? c) eqn:E; ord_to_prop.
  { apply wp_reading_ret. subst c. split; [done|].
    rewrite <-(window_none a a (samples_of bs s)); [by apply window_is_range|].
    intros x _. destruct (timestamp x ≺? a) eqn:E; ord_to_prop; [by left|right].
    by apply not_lt_le; destruct E; [left|right]. }
  eapply wp_reading_mono.
  - apply (wp_range_loop p (segment_bytes bs)); [by apply size_segment_bytes|apply located_from|done|done|congruence].
  - intros l ->. split; [done|]. cbn [app]. rewrite Hsame. by apply window_is_range.
  - done.
Qed.

Lemma wp_segment_latest s w :
  file_of (fs w) p = Some (segment_bytes bs) ->
  wp (segment_latest r s) w (reading (is_latest (blocks_view bs) s) no_throw w).
Proof.
  intros Hfile. unfold segment_latest. pose proof (segment_located bs Hbs) as Hloc.
  change (reader_index r) with (entries_of 32 bs).
  rewrite (partition_point_Forall2 _ (fun b => negb (s ≺? block_series b)) (entries_of 32 bs) bs).
  2:{ eapply Forall2_impl; [exact Hloc|]. intros e b [Hd _]. by destruct (describes_fields _ _ _ Hd) as (-> & _). }
  pose proof (samples_of_upper_bound bs s Hordered) as Hupper.
  destruct (partition_point _ bs) as [|k] eqn:Hk; [by apply wp_reading_ret, none_is_latest|].
  destruct Hupper as (b & Hb & Hcase).
  destruct (Forall2_lookup_r _ _ _ _ _ Hloc Hb) as (e & -> & He).
  destruct (describes_fields _ _ _ (proj1 He)) as (-> & _).
  destruct (block_series b ≡? s) eqn:E; cbn [negb]; [|by apply wp_reading_ret, none_is_latest].
  destruct Hcase as (l & Hl).
  eapply wp_reading_bind; [eapply wp_read_located; [by apply size_segment_bytes|done|exact He]|].
  intros b' w1 -> Hf1 _. apply wp_reading_ret.
  assert (SegmentBlock_ok b) as (_ & Hne & _) by apply He.
  apply (last_is_latest bs s (l ++ removelast (block_samples b))); [done|].
  rewrite Hl, <-app_assoc. f_equal. by apply app_removelast_last.
Qed.
End SegmentQueries.

(** ** Properties *)

(** C30: the queries of a segment file.  On a file [write_segment_file] made of
    [bs], opening succeeds, and without I/O failure [get], [latest] and [range]
    answer from [blocks_view bs]: the exact match, the sample with the greatest
    timestamp, the samples of the half-open interval in order; [range] refuses
    reversed bounds. *)
Theorem segment_queries p bs bytes m f s t a c :
  Forall SegmentBlock_ok bs -> segment_file_bytes bs = Ok (bytes, m) -> file_of f p = Some bytes ->
  exists r, open_segment p (World f []) = (Done r, World f []) /\
    segment_get r s t (World f []) = (Done (MkSample t <$> blocks_view bs s t), World f []) /\
    (exists x, segment_latest r s (World f []) = (Done x, World f []) /\ is_latest (blocks_view bs) s x) /\
    (c ≺ a -> (segment_range r s a c (World f [])).1 =
                Raised (invalid_argument "range end must not precede range start")) /\
    (~ c ≺ a -> exists l, segment_range r s a c (World f []) = (Done l, World f []) /\
                  is_range (blocks_view bs) s a c l).
Proof.
  intros Hok Hbuilt Hfile.
  destruct (segment_file_bytes_cases bs Hok) as [(Hbs & Hfit & Heq)|(_ & e & Heq & _)];
    rewrite Heq in Hbuilt; [|done]. injection Hbuilt as <- <-.
  assert (segment_ok bs) as Hseg by by split.
  exists (segment_reader p bs).
  pose proof (reading_calm _ _ _ _ (wp_open_segment_bytes p bs (World f []) Hseg Hfile)) as [(r & Hr & ->)|(e & _ & _ & [])].
  split; [done|].
  pose proof (reading_calm _ _ _ _ (wp_segment_get p bs Hseg s t (World f []) Hfile)) as [(g & Hg & ->)|(e & _ & _ & [])].
  split; [done|].
  pose proof (reading_calm _ _ _ _ (wp_segment_latest p bs Hseg s (World f []) Hfile)) as [(x & Hx & Hl)|(e & _ & _ & [])].
  split; [by exists x|].
  pose proof (reading_calm _ _ _ _ (wp_segment_range p bs Hseg s a c (World f []) Hfile)) as [(l & Hl' & Hn & Hrange)|(e & He & _ & Hlt & ->)].
  - split; [done|]. intros _. by exists l.
  - by split.
Qed.

Lemma segment_queries_witness :
  let f := single_file example_segment example_segment_bytes in
  exists r, open_segment example_segment (World f []) = (Done r, World f []) /\
    segment_get r example_key (MkTimestamp 7) (World f []) = (Done (Some (example_sample 7)), World f []).
Proof.
  intros f. destruct (segment_queries example_segment example_blocks example_segment_bytes
    (MkSegmentFileMetadata 344 3 2) f example_key (MkTimestamp 7) (MkTimestamp 0) (MkTimestamp 9))
    as (r & Hr & Hget & _).
  - apply example_blocks_ok.
  - vm_compute. reflexivity.
  - apply durable_file_of, single_file_durable.
  - exists r. split; [exact Hr|]. rewrite Hget. vm_compute. reflexivity.
Defined.
