(* ===== verification/StorageEngine.v ===== *)
(** * The storage engine (src/storage_engine.cpp)

    [StorageEngine] keeps the newest samples in the MemTable, logs every write,
    and flushes the MemTable into segments the manifest names.  This file models
    the class: recovery, [put], [sync], [flush], [compact] and the queries, each
    under the class's mutex and therefore as one step on the world and the
    object. *)

From stdpp Require Import base tactics option numbers list strings gmap.
From Stdlib Require Import ZArith Lia Ascii.
From S2P Require Import Prelude Errors World Model OrdMap MemTable WalRecord FileIo WalFile WalRecovery SegmentBlock Manifest SegmentFile.

Record StorageEngineStats := MkStats {
  stats_sample_count : Z;
  stats_memtable_sample_count : Z;
  stats_segment_count : Z;
  stats_wal_size_bytes : Z;
}.

Record StorageEngine := MkStorageEngine {
  database_directory_ : string;
  memtable_ : MemTable;
  manifest_ : ManifestState;
  segments_ : list SegmentReader;
  wal_writer_ : WalWriter;
  logical_sample_count_ : Z;
  engine_failed_ : bool;
}.

Record RecoveryState := MkRecoveryState {
  recovered_memtable : MemTable;
  recovered_manifest : ManifestState;
  recovered_segments : list SegmentReader;
  recovered_logical_sample_count : Z;
  recovered_wal_size : Z;
}.

(** ** Helpers *)

Definition database_directory_for (wal_path : path) : string := directory_of wal_path.

(** The loop of [contains_in_segments], over the reversed segments. *)
Fixpoint any_segment_has (segments : list SegmentReader) (s : SeriesKey) (t : Timestamp) : M world bool :=
  match segments with
  | [] => mret false
  | segment :: rest =>
    found ← segment_get segment s t;
    match found with
    | Some _ => mret true
    | None => any_segment_has rest s t
    end
  end.

Definition contains_in_segments (segments : list SegmentReader) (s : SeriesKey) (t : Timestamp) : M world bool :=
  any_segment_has (rev segments) s t.

(** The [while] loop of [blocks_from_snapshots]; every turn advances [begin]. *)
Fixpoint snapshot_blocks (fuel : nat) (s : SeriesKey) (samples : list Sample) (begin_ : Z)
    : result (list SegmentBlock) :=
  if negb (begin_ <? size samples) then Ok []
  else
    match fuel with
    | O => Err out_of_fuel
    | S fuel =>
      let remaining := size samples - begin_ in
      let count := Z.min remaining max_samples_per_segment_block in
      b ← make_SegmentBlock s (take (Z.to_nat count) (drop (Z.to_nat begin_) samples));
      rest ← snapshot_blocks fuel s samples (begin_ + count);
      Ok (b :: rest)
    end.

Fixpoint blocks_from_snapshots (snapshots : list MemTableSeriesSnapshot) : result (list SegmentBlock) :=
  match snapshots with
  | [] => Ok []
  | snapshot :: rest =>
    bs ← snapshot_blocks (length (snapshot_samples snapshot)) (snapshot_series snapshot)
           (snapshot_samples snapshot) 0;
    bs' ← blocks_from_snapshots rest;
    Ok (bs ++ bs')
  end.

Definition digit (n : Z) : ascii := ascii_of_nat (48 + Z.to_nat (n mod 10)).

(** [std::setfill('0') << std::setw(width)] of a number of at most [width] digits. *)
Fixpoint padded_decimal (width : nat) (n : Z) (acc : string) : string :=
  match width with
  | O => acc
  | S width => padded_decimal width (n / 10) (String (digit n) acc)
  end.

(** The name of the segment of a generation; a 64-bit number has at most 20 digits. *)
Definition segment_name (generation : Z) : string :=
  "segment-" +:+ padded_decimal 20 generation "" +:+ ".cst".

(** ** Recovery *)

(** The loop that opens the segments: the readers and [physical_segment_samples]. *)
Fixpoint open_segments (directory : string) (filenames : list string)
    (segments : list SegmentReader) (physical : Z) : M world (list SegmentReader * Z) :=
  match filenames with
  | [] => mret (segments, physical)
  | filename :: rest =>
    r ← open_segment (Path directory filename);
    open_segments directory rest (segments ++ [r]) (u64 (physical + reader_sample_count r))
  end.

(** [orphan_segment || stale_temporary] *)
Definition is_orphan (live_segments : list string) (leaf : string) : bool :=
  (bool_decide (extension leaf = ".cst") && starts_with "segment-" leaf
     && negb (bool_decide (leaf ∈ live_segments)))
  || (starts_with "segment-" leaf && bool_decide (extension leaf = ".tmp")).

(** [entry.increment(directory_error)] *)
Definition sys_next_entry : M world (sysret unit) := sys_query (fun _ => SysOk tt).

(** The loop over the directory's entries: its final [directory_error]. *)
Fixpoint remove_orphans (live_segments : list string) (entries : list path) : M world (option Z) :=
  match entries with
  | [] => mret None
  | entry :: rest =>
    (if is_orphan live_segments (filename entry) then sys_remove entry;; mret tt else mret tt);;
    next ← sys_next_entry;
    match next with
    | SysErr error => mret (Some error)
    | SysOk _ => remove_orphans live_segments rest
    end
  end.

(** The callback of [replay_wal] in [recover]. *)
Definition recover_record (r : WalPutRecord) : M (world * RecoveryState) unit :=
  recovered ← this;
  let s := series r in
  let t := timestamp (sample r) in
  memory ← lift (memtable_get (recovered_memtable recovered) s t);
  already_exists ←
    (match memory with
     | Some _ => mret true
     | None => in_world (contains_in_segments (recovered_segments recovered) s t)
     end : M (world * RecoveryState) bool);
  set_this (fun recovered =>
    MkRecoveryState (memtable_put (recovered_memtable recovered) s (sample r))
      (recovered_manifest recovered) (recovered_segments recovered)
      (if (already_exists : bool) then recovered_logical_sample_count recovered
       else u64 (recovered_logical_sample_count recovered + 1))
      (recovered_wal_size recovered)).

Definition recover (wal_path : path) : M world RecoveryState :=
  let directory := database_directory_for wal_path in
  manifest ← load_manifest directory;
  opened ← open_segments directory (segment_files manifest) [] 0;
  let '(segments, physical_segment_samples) := opened in
  let logical := logical_sample_count manifest in
  let recovered := MkRecoveryState empty_memtable manifest segments logical 0 in
  listed ← sys_list_directory directory;
  directory_error ←
    (match listed with
     | SysErr error => mret (Some error)
     | SysOk entries => remove_orphans (segment_files manifest) entries
     end : M world (option Z));
  match directory_error with
  | Some error => throw (system_error error "failed to inspect database directory")
  | None =>
    throw_when ((physical_segment_samples <? logical)
                || (bool_decide (segments = []) && negb (logical =? 0)))
      (ManifestFormatError "manifest logical sample count is inconsistent");;
    wal_exists ← sys_exists wal_path;
    match wal_exists with
    | SysErr error => throw (system_error error "failed to inspect WAL")
    | SysOk wal_exists =>
      if negb wal_exists then
        creator ← wal_open wal_path buffered;
        with_object creator wal_sync;;
        mret recovered
      else fun w =>
        let '(o, s) := replay_wal wal_path (Some recover_record) (w, recovered) in
        match o with
        | Done replay_result =>
          (repair_wal_tail wal_path replay_result;;
           mret (MkRecoveryState (recovered_memtable s.2) (recovered_manifest s.2)
                   (recovered_segments s.2) (recovered_logical_sample_count s.2)
                   (valid_bytes replay_result))) s.1
        | Raised e => (Raised e, s.1)
        | Crashed => (Crashed, s.1)
        end
    end
  end.

(** The constructors. *)
Definition engine_open (wal_path : path) (durability : WalDurability) : M world StorageEngine :=
  recovered ← recover wal_path;
  writer ← wal_open wal_path durability;
  throw_when (negb (wal_size_bytes writer =? recovered_wal_size recovered))
    (runtime_error "WAL changed while opening storage engine");;
  mret (MkStorageEngine (database_directory_for wal_path) (recovered_memtable recovered)
          (recovered_manifest recovered) (recovered_segments recovered) writer
          (recovered_logical_sample_count recovered) false).

(** ** Writes *)

(** A member function of [wal_writer_]. *)
Definition in_wal {A} (m : M (world * WalWriter) A) : M (world * StorageEngine) A :=
  zoom (fun s => (s.1, wal_writer_ s.2))
       (fun t s => (t.1, MkStorageEngine (database_directory_ s.2) (memtable_ s.2) (manifest_ s.2)
                           (segments_ s.2) t.2 (logical_sample_count_ s.2) (engine_failed_ s.2))) m.

Definition set_engine_failed : M (world * StorageEngine) unit :=
  set_this (fun e => MkStorageEngine (database_directory_ e) (memtable_ e) (manifest_ e)
    (segments_ e) (wal_writer_ e) (logical_sample_count_ e) true).
Definition set_memtable (f : MemTable -> MemTable) : M (world * StorageEngine) unit :=
  set_this (fun e => MkStorageEngine (database_directory_ e) (f (memtable_ e)) (manifest_ e)
    (segments_ e) (wal_writer_ e) (logical_sample_count_ e) (engine_failed_ e)).
Definition set_logical_sample_count (f : Z -> Z) : M (world * StorageEngine) unit :=
  set_this (fun e => MkStorageEngine (database_directory_ e) (memtable_ e) (manifest_ e)
    (segments_ e) (wal_writer_ e) (f (logical_sample_count_ e)) (engine_failed_ e)).
Definition set_segments (segments : list SegmentReader) (manifest : ManifestState)
    : M (world * StorageEngine) unit :=
  set_this (fun e => MkStorageEngine (database_directory_ e) (memtable_ e) manifest
    segments (wal_writer_ e) (logical_sample_count_ e) (engine_failed_ e)).

(** [StorageEngine::ensure_usable]; returns the object it has checked. *)
Definition ensure_usable : M (world * StorageEngine) StorageEngine :=
  e ← this;
  throw_when (engine_failed_ e)
    (runtime_error "storage engine is in a failed state; restart is required");;
  mret e.

(** [StorageEngine::contains] *)
Definition contains (s : SeriesKey) (t : Timestamp) : M (world * StorageEngine) bool :=
  e ← this;
  memory ← lift (memtable_get (memtable_ e) s t);
  match memory with
  | Some _ => mret true
  | None => in_world (contains_in_segments (segments_ e) s t)
  end.

Definition engine_put (s : SeriesKey) (x : Sample) : M (world * StorageEngine) unit :=
  ensure_usable;;
  already_exists ← contains s (timestamp x);
  on_exception
    (in_wal (wal_append (MkWalPutRecord s x));;
     set_memtable (fun m => memtable_put m s x);;
     if negb already_exists then set_logical_sample_count (fun n => u64 (n + 1)) else mret tt)
    set_engine_failed.

Definition engine_sync : M (world * StorageEngine) unit :=
  ensure_usable;;
  on_exception (in_wal wal_sync) set_engine_failed.

Definition make_memtable_blocks (e : StorageEngine) : result (list SegmentBlock) :=
  snapshots ← memtable_snapshot (memtable_ e);
  blocks_from_snapshots snapshots.

Definition next_segment_filename (e : StorageEngine) : result string :=
  throw_if (generation (manifest_ e) =? max_u64) (overflow_error "segment generation is exhausted");;
  Ok (segment_name (u64 (generation (manifest_ e) + 1))).

Definition engine_flush : M (world * StorageEngine) unit :=
  e ← ensure_usable;
  if memtable_empty (memtable_ e) then on_exception (in_wal wal_sync) set_engine_failed
  else
    on_exception
      (blocks ← lift (make_memtable_blocks e);
       filename ← lift (next_segment_filename e);
       let path := Path (database_directory_ e) filename in
       in_world (write_segment_file path blocks);;
       reader ← in_world (open_segment path);
       let next := MkManifestState (u64 (generation (manifest_ e) + 1)) (logical_sample_count_ e)
                     (segment_files (manifest_ e) ++ [filename]) in
       in_world (store_manifest (database_directory_ e) next);;
       set_segments (segments_ e ++ [reader]) next;;
       in_wal wal_reset;;
       set_memtable memtable_clear)
      set_engine_failed.

(** ** Compaction *)

Abbreviation Merged := (list (SeriesKey * list (Timestamp * double))).

(** [samples[sample.timestamp()] = sample.value()] over some samples *)
Definition merge_samples (m : list (Timestamp * double)) (samples : list Sample) : list (Timestamp * double) :=
  foldl (fun m x => map_set (timestamp x) (sample_value x) m) m samples.

Definition merge_block (merged : Merged) (b : SegmentBlock) : Merged :=
  let samples := default [] (map_find (block_series b) merged) in
  map_set (block_series b) (merge_samples samples (block_samples b)) merged.

(** The loop over the segments. *)
Fixpoint merge_segments (merged : Merged) (segments : list SegmentReader) : M world Merged :=
  match segments with
  | [] => mret merged
  | segment :: rest =>
    bs ← segment_blocks segment;
    merge_segments (foldl merge_block merged bs) rest
  end.

Fixpoint samples_from (l : list (Timestamp * double)) : result (list Sample) :=
  match l with
  | [] => Ok []
  | (t, v) :: l' => x ← make_Sample t v; xs ← samples_from l'; Ok (x :: xs)
  end.

(** The loop over [merged]: the snapshots and [compacted_sample_count]. *)
Fixpoint snapshots_of (merged : Merged) (snapshots : list MemTableSeriesSnapshot) (count : Z)
    : result (list MemTableSeriesSnapshot * Z) :=
  match merged with
  | [] => Ok (snapshots, count)
  | (s, samples_by_timestamp) :: rest =>
    samples ← samples_from samples_by_timestamp;
    snapshots_of rest (snapshots ++ [MkSnapshot s samples]) (u64 (count + size samples))
  end.

(** [std::filesystem::remove] with the error ignored. *)
Fixpoint remove_all (paths : list path) : M world unit :=
  match paths with
  | [] => mret tt
  | p :: rest => sys_remove p;; remove_all rest
  end.

Definition engine_compact : M (world * StorageEngine) unit :=
  e ← ensure_usable;
  if size (segments_ e) <=? 1 then mret tt
  else
    on_exception
      (merged ← in_world (merge_segments [] (segments_ e));
       '(snapshots, compacted_sample_count) ← lift (snapshots_of merged [] 0);
       throw_when (negb (compacted_sample_count =? logical_sample_count (manifest_ e)))
         (SegmentFormatError "compacted segment count disagrees with manifest");;
       blocks ← lift (blocks_from_snapshots snapshots);
       filename ← lift (next_segment_filename e);
       let path := Path (database_directory_ e) filename in
       in_world (write_segment_file path blocks);;
       reader ← in_world (open_segment path);
       let next := MkManifestState (u64 (generation (manifest_ e) + 1))
                     (logical_sample_count (manifest_ e)) [filename] in
       let obsolete := map (Path (database_directory_ e)) (segment_files (manifest_ e)) in
       in_world (store_manifest (database_directory_ e) next);;
       set_segments [reader] next;;
       in_world (remove_all obsolete))
      set_engine_failed.

(** ** Queries *)

(** [candidate.has_value() && (!result.has_value() ||
    candidate->timestamp() >= result->timestamp())] *)
Definition newer_sample (result candidate : option Sample) : option Sample :=
  match candidate, result with
  | Some c, None => Some c
  | Some c, Some r => if timestamp r ≼? timestamp c then Some c else Some r
  | None, _ => result
  end.

Fixpoint latest_in_segments (segments : list SegmentReader) (s : SeriesKey) (result : option Sample)
    : M world (option Sample) :=
  match segments with
  | [] => mret result
  | segment :: rest =>
    candidate ← segment_latest segment s;
    latest_in_segments rest s (newer_sample result candidate)
  end.

Definition engine_latest (s : SeriesKey) : M (world * StorageEngine) (option Sample) :=
  e ← ensure_usable;
  result ← in_world (latest_in_segments (segments_ e) s None);
  memory_candidate ← lift (memtable_latest (memtable_ e) s);
  mret (newer_sample result memory_candidate).

(** The loop of [get], over the reversed segments. *)
Fixpoint get_in_segments (segments : list SegmentReader) (s : SeriesKey) (t : Timestamp)
    : M world (option Sample) :=
  match segments with
  | [] => mret None
  | segment :: rest =>
    persisted_sample ← segment_get segment s t;
    match persisted_sample with
    | Some x => mret (Some x)
    | None => get_in_segments rest s t
    end
  end.

Definition engine_get (s : SeriesKey) (t : Timestamp) : M (world * StorageEngine) (option Sample) :=
  e ← ensure_usable;
  memory_sample ← lift (memtable_get (memtable_ e) s t);
  match memory_sample with
  | Some x => mret (Some x)
  | None => in_world (get_in_segments (rev (segments_ e)) s t)
  end.

Fixpoint merge_ranges (merged : list (Timestamp * double)) (segments : list SegmentReader)
    (s : SeriesKey) (start end_ : Timestamp) : M world (list (Timestamp * double)) :=
  match segments with
  | [] => mret merged
  | segment :: rest =>
    samples ← segment_range segment s start end_;
    merge_ranges (merge_samples merged samples) rest s start end_
  end.

Definition engine_range (s : SeriesKey) (start end_ : Timestamp) : M (world * StorageEngine) (list Sample) :=
  e ← ensure_usable;
  throw_when (end_ ≺? start) (invalid_argument "range end must not precede range start");;
  merged ← in_world (merge_ranges [] (segments_ e) s start end_);
  samples ← lift (memtable_range (memtable_ e) s start end_);
  lift (samples_from (merge_samples merged samples)).

(** A [std::set<SeriesKey>] is a map to nothing. *)
Definition insert_series (unique : list (SeriesKey * unit)) (s : SeriesKey) : list (SeriesKey * unit) :=
  map_set s tt unique.

Definition engine_series : M (world * StorageEngine) (list SeriesKey) :=
  e ← ensure_usable;
  let unique := foldl (fun u r => foldl (fun u entry => insert_series u (entry_series entry)) u
                                    (reader_index r)) [] (segments_ e) in
  let unique := foldl insert_series unique (memtable_series (memtable_ e)) in
  mret (map fst unique).

Definition engine_sample_count : M (world * StorageEngine) Z :=
  e ← ensure_usable;
  throw_when (max_u64 <? logical_sample_count_ e)
    (overflow_error "logical sample count exceeds size_t");;
  mret (logical_sample_count_ e).

Definition engine_memtable_sample_count : M (world * StorageEngine) Z :=
  e ← ensure_usable; mret (memtable_sample_count (memtable_ e)).

Definition engine_empty : M (world * StorageEngine) bool :=
  e ← ensure_usable; mret (logical_sample_count_ e =? 0).

Definition engine_segment_count : M (world * StorageEngine) Z :=
  e ← ensure_usable; mret (size (segments_ e)).

Definition engine_wal_size_bytes : M (world * StorageEngine) Z :=
  e ← ensure_usable; mret (wal_size_bytes (wal_writer_ e)).

Definition engine_stats : M (world * StorageEngine) StorageEngineStats :=
  e ← ensure_usable;
  throw_when (max_u64 <? logical_sample_count_ e)
    (overflow_error "logical sample count exceeds size_t");;
  mret (MkStats (logical_sample_count_ e) (memtable_sample_count (memtable_ e))
          (size (segments_ e)) (wal_size_bytes (wal_writer_ e))).
