(* ===== verification/Database.v ===== *)
(** * The public interface (src/database.cpp, src/database_lock.cpp)

    A [Database] owns the directory's lock and a [StorageEngine]; it opens them,
    forwards to the engine, reports damaged files as [DatabaseCorruptionError] and
    flushes when the MemTable reaches the configured size. *)

From stdpp Require Import base tactics option numbers list strings gmap.
From Stdlib Require Import ZArith Lia.
From S2P Require Import Prelude Errors World Model WalFile WalRecovery StorageEngine.

Module Durability.
Inductive t := buffered | sync_on_write.
End Durability.

Record DatabaseOptions := MkOptions {
  durability : Durability.t;
  memtable_flush_threshold_samples : Z;
}.

Definition default_options : DatabaseOptions := MkOptions Durability.sync_on_write 4096.

Record DatabaseStats := MkDatabaseStats {
  db_sample_count : Z;
  db_memtable_sample_count : Z;
  db_segment_count : Z;
  db_wal_size_bytes : Z;
}.

(** [Database::Impl]; the lock is the descriptor it is held on. *)
Record Impl := MkImpl {
  lock : nat;
  engine : StorageEngine;
  flush_threshold_samples : Z;
}.

(** [impl_] is null in a moved-from object. *)
Record Database := MkDatabase { impl_ : option Impl }.

Definition to_internal_durability (d : Durability.t) : WalDurability :=
  match d with
  | Durability.buffered => buffered
  | Durability.sync_on_write => sync_on_append
  end.

(** The three [catch] clauses; [what()] of a [WalFormatError] is the message it
    was built with. *)
Definition corruption_of (e : exn) : exn :=
  match e with
  | ManifestFormatError what => DatabaseCorruptionError what
  | SegmentFormatError what => DatabaseCorruptionError what
  | WalFormatError offset error => DatabaseCorruptionError (make_format_error_message offset error)
  | e => e
  end.

Definition translate_corruption {S A} (operation : M S A) : M S A := fun s =>
  match operation s with
  | (Raised e, s') => (Raised (corruption_of e), s')
  | r => r
  end.

Definition prepare_database_directory (directory : string) : M world path :=
  throw_when (bool_decide (directory = EmptyString))
    (invalid_argument "database directory cannot be empty");;
  already_exists ← sys_place_exists directory;
  match already_exists with
  | SysErr error => throw (system_error error "failed to inspect database directory")
  | SysOk already_exists =>
    (if negb already_exists then
       created ← sys_create_directories directory;
       match created with
       | SysErr error => throw (system_error error "failed to create database directory")
       | SysOk _ => mret tt
       end
     else mret tt);;
    is_directory ← sys_is_directory directory;
    match is_directory with
    | SysErr error => throw (system_error error "failed to inspect database path")
    | SysOk is_directory =>
      throw_when (negb is_directory) (invalid_argument "database path is not a directory");;
      mret (Path directory "chronostore.wal")
    end
  end.

(** ** The lock *)

(** [DatabaseLock::Impl::Impl] on POSIX; [EWOULDBLOCK] is [EAGAIN]. *)
Definition lock_acquire (p : path) : M world nat :=
  descriptor ← sys_open_create p;
  match descriptor with
  | SysErr errno => throw (system_error errno "failed to open database lock file")
  | SysOk i =>
    locked ← sys_flock i;
    match locked with
    | SysOk _ => mret i
    | SysErr error =>
      sys_close;;
      throw_when (error =? EAGAIN) (DatabaseBusyError "database directory is already open");;
      throw (system_error error "failed to lock database directory")
    end
  end.

(** [DatabaseLock::Impl::~Impl] *)
Definition lock_release (i : nat) : M world unit :=
  sys_unlock i;; sys_close;; mret tt.

(** ** Opening and closing *)

(** [Database::Database] with [Impl::Impl]: when the engine does not open, the
    lock already held is released. *)
Definition database_open (directory : string) (options : DatabaseOptions) : M world Database :=
  wal_path ← prepare_database_directory directory;
  translate_corruption
    (i ← lock_acquire (Path directory "LOCK");
     e ← on_exception (engine_open wal_path (to_internal_durability (durability options)))
           (lock_release i);
     mret (MkDatabase (Some (MkImpl i e (memtable_flush_threshold_samples options))))).

(** [Database::implementation] *)
Definition implementation : M (world * Database) Impl :=
  d ← this;
  match impl_ d with
  | None => throw (logic_error "database has been moved from")
  | Some impl => mret impl
  end.

(** A member function of [implementation().engine]. *)
Definition in_engine {A} (m : M (world * StorageEngine) A) : M (world * Database) A := fun s =>
  match impl_ s.2 with
  | None => (Raised (logic_error "database has been moved from"), s)
  | Some impl =>
    let '(o, t) := m (s.1, engine impl) in
    (o, (t.1, MkDatabase (Some (MkImpl (lock impl) t.2 (flush_threshold_samples impl)))))
  end.

(** [Database::~Database]: the members of [Impl] in reverse order. *)
Definition database_close : M (world * Database) unit :=
  d ← this;
  match impl_ d with
  | None => mret tt
  | Some impl => in_engine (in_wal wal_close);; in_world (lock_release (lock impl))
  end.

(** [Database::Database(Database&&)]: the new object; the old one is moved from. *)
Definition database_move : M (world * Database) Database :=
  d ← this;
  set_this (fun _ => MkDatabase None);;
  mret d.

(** ** Operations *)

Definition database_put (s : SeriesKey) (x : Sample) : M (world * Database) unit :=
  impl ← implementation;
  translate_corruption (in_engine (engine_put s x));;
  if flush_threshold_samples impl =? 0 then mret tt
  else
    count ← in_engine engine_memtable_sample_count;
    if flush_threshold_samples impl <=? count then translate_corruption (in_engine engine_flush)
    else mret tt.

Definition database_sync : M (world * Database) unit :=
  implementation;; in_engine engine_sync.

Definition database_flush : M (world * Database) unit :=
  implementation;; translate_corruption (in_engine engine_flush).

Definition database_compact : M (world * Database) unit :=
  implementation;; translate_corruption (in_engine engine_compact).

Definition database_latest (s : SeriesKey) : M (world * Database) (option Sample) :=
  implementation;; translate_corruption (in_engine (engine_latest s)).

Definition database_get (s : SeriesKey) (t : Timestamp) : M (world * Database) (option Sample) :=
  implementation;; translate_corruption (in_engine (engine_get s t)).

Definition database_range (s : SeriesKey) (start end_ : Timestamp) : M (world * Database) (list Sample) :=
  implementation;; translate_corruption (in_engine (engine_range s start end_)).

Definition database_series : M (world * Database) (list SeriesKey) :=
  implementation;; in_engine engine_series.

Definition database_sample_count : M (world * Database) Z :=
  implementation;; in_engine engine_sample_count.

Definition database_empty : M (world * Database) bool :=
  implementation;; in_engine engine_empty.

Definition database_stats : M (world * Database) DatabaseStats :=
  implementation;;
  stats ← in_engine engine_stats;
  mret (MkDatabaseStats (stats_sample_count stats) (stats_memtable_sample_count stats)
          (stats_segment_count stats) (stats_wal_size_bytes stats)).
