(* ===== verification/EngineView.v ===== *)
(** * The storage engine's contents

    The engine holds the MemTable's view over the views of its segments, newer
    segments first.  [engine_holds] is the part of the engine's invariant the
    queries need; under it they answer from [engine_view]. *)

From stdpp Require Import base tactics option numbers list strings gmap.
From Stdlib Require Import ZArith Lia Sorted.
From S2P Require Import Prelude Errors World Hoare Model OrdMap View MemTable FileIo SegmentBlock SegmentFile SegmentFormat BlocksView SegmentQuery StorageEngine.

(** ** The view of the segments *)

(** [newest_first bss]: earlier elements win. *)
Fixpoint newest_first (bss : list (list SegmentBlock)) : view :=
  match bss with
  | [] => view_empty
  | bs :: older => view_merge (blocks_view bs) (newest_first older)
  end.

(** The engine keeps its segments oldest first. *)
Definition segments_view (bss : list (list SegmentBlock)) : view := newest_first (rev bss).

Definition engine_view (e : StorageEngine) (bss : list (list SegmentBlock)) : view :=
  view_merge (memtable_view (memtable_ e)) (segments_view bss).

(** The reader stands for a segment file that is there. *)
Definition reader_holds (f : fsys) (r : SegmentReader) (bs : list SegmentBlock) : Prop :=
  segment_ok bs /\ exists p, r = segment_reader p bs /\ file_of f p = Some (segment_bytes bs).

Definition engine_holds (f : fsys) (e : StorageEngine) (bss : list (list SegmentBlock)) : Prop :=
  engine_failed_ e = false /\ MemTable_ok (memtable_ e) /\
  Forall2 (reader_holds f) (segments_ e) bss.

(** A view whose entries the checking constructors accept. *)
Definition view_ok (f : view) : Prop := forall s t v, f s t = Some v -> Sample_ok (MkSample t v).

(** ** Lemmas: views *)

Lemma segments_view_snoc bss bs : segments_view (bss ++ [bs]) = view_merge (blocks_view bs) (segments_view bss).
Proof. unfold segments_view. by rewrite rev_app_distr. Qed.

Lemma reader_holds_fs f f' r bs : f' = f -> reader_holds f r bs -> reader_holds f' r bs.
Proof. by intros ->. Qed.

Lemma engine_holds_segments f e bss : engine_holds f e bss -> Forall segment_ok bss.
Proof.
  intros (_ & _ & Hall). induction Hall as [|r bs rs bss [Hbs _] _ IH]; constructor; done.
Qed.

Lemma blocks_view_ok bs : segment_ok bs -> view_ok (blocks_view bs).
Proof.
  intros Hbs s t v Hv. apply blocks_view_elem in Hv; [|by apply segment_ordered].
  apply samples_of_elem in Hv as (b & Hb & _ & Hin). destruct Hbs as [(_ & _ & Hok & _) _].
  rewrite Forall_forall in Hok. destruct (Hok b Hb) as (_ & _ & _ & _ & Hall).
  rewrite Forall_forall in Hall. by apply Hall.
Qed.

Lemma view_merge_ok f g : view_ok f -> view_ok g -> view_ok (view_merge f g).
Proof.
  intros Hf Hg s t v. unfold view_merge. destruct (f s t) eqn:E; [|apply Hg].
  intros [= ->]. by eapply Hf.
Qed.

Lemma newest_first_ok bss : Forall segment_ok bss -> view_ok (newest_first bss).
Proof.
  induction 1 as [|bs bss Hbs _ IH]; [done|]. cbn [newest_first].
  apply view_merge_ok; [by apply blocks_view_ok|done].
Qed.

Lemma segments_view_ok bss : Forall segment_ok bss -> view_ok (segments_view bss).
Proof. intros H. apply newest_first_ok. by apply Forall_rev. Qed.

Lemma memtable_view_ok m : MemTable_ok m -> view_ok (memtable_view m).
Proof.
  intros Hok s t v Hv. unfold memtable_view in Hv. destruct (map_find s (series_ m)) as [l|] eqn:E; [|done].
  apply MemTable_ok_find in E as [_ Hl]; [|done]. apply map_find_elem in Hv. by eapply samples_ok_elem.
Qed.

Lemma engine_view_ok f e bss : engine_holds f e bss -> view_ok (engine_view e bss).
Proof.
  intros H. apply view_merge_ok; [apply memtable_view_ok, H|].
  by eapply segments_view_ok, engine_holds_segments.
Qed.

(** ** Lemmas: [latest] *)

Lemma newer_sample_latest f g s r c :
  is_latest f s r -> is_latest g s c -> is_latest (view_merge g f) s (newer_sample r c).
Proof.
  unfold is_latest, at_, view_merge. destruct c as [c|]; cbn [newer_sample].
  - intros Hr [Hc Hcmax].
    assert (forall t v, match g s t with Some v => Some v | None => f s t end = Some v ->
      le_of t (timestamp c) \/ g s t = None /\ f s t = Some v) as Hsplit.
    { intros t v Hv. destruct (g s t) as [v'|] eqn:E; [left; by eapply Hcmax|by right]. }
    destruct r as [r|]; [destruct Hr as [Hr Hrmax]; destruct (timestamp r ≼? timestamp c) eqn:E; ord_to_prop|].
    + split; [by rewrite Hc|]. intros t v Hv. destruct (Hsplit t v Hv) as [|[_ Hf]]; [done|].
      eapply le_of_trans; [by eapply Hrmax|]. exact E.
    + split.
      * destruct (g s (timestamp r)) as [v|] eqn:Eg; [|done]. exfalso.
        apply Hcmax in Eg. by eapply not_lt_le.
      * intros t v Hv. destruct (Hsplit t v Hv) as [Hle|[_ Hf]]; [|by eapply Hrmax].
        left. by eapply le_lt_trans.
    + split; [by rewrite Hc|]. intros t v Hv. destruct (Hsplit t v Hv) as [|[_ Hf]]; [done|].
      by rewrite Hr in Hf.
  - intros Hr Hc. destruct r as [r|]; cbn [newer_sample].
    + destruct Hr as [Hr Hmax]. split; [by rewrite Hc|]. intros t v. rewrite Hc. apply Hmax.
    + intros t. by rewrite Hc.
Qed.

(** ** Lemmas: [range] *)

(** A view cut to an interval, at one series. *)
Definition cut (a c : Timestamp) (f : view) (s : SeriesKey) (t : Timestamp) : option double :=
  if negb (t ≺? a) && (t ≺? c) then f s t else None.

Lemma cut_Some a c f s t v : cut a c f s t = Some v <-> f s t = Some v /\ ~ t ≺ a /\ t ≺ c.
Proof.
  unfold cut. destruct (negb (t ≺? a) && (t ≺? c)) eqn:E.
  - apply andb_true_iff in E as [Ha Hc]. apply negb_true_iff, ltb_ge_not in Ha. apply ltb_lt in Hc.
    split; [done|]. by intros [? _].
  - split; [done|]. intros (_ & Ha & Hc). apply ltb_ge_not in Ha. apply ltb_lt in Hc.
    by rewrite Ha, Hc in E.
Qed.

Lemma merge_samples_find l m t :
  samples_sorted l ->
  map_find t (merge_samples m l) = match value_at t l with Some v => Some v | None => map_find t m end.
Proof.
  intros Hs. revert m. induction Hs as [|x l Hl IH Hall]; intros m; [done|].
  cbn [merge_samples foldl value_at]. change (foldl _ _ l) with
    (merge_samples (map_set (timestamp x) (sample_value x) m) l).
  rewrite IH, map_find_set. destruct (timestamp x ≡? t) eqn:E; ord_to_prop.
  - subst t. rewrite eqb_refl. rewrite (proj2 (value_at_None _ l)); [done|].
    intros y Hy Heq. rewrite Forall_forall in Hall. apply Hall, lt_ne in Hy. by rewrite Heq in Hy.
  - by rewrite (proj2 (eqb_neq t (timestamp x))) by done.
Qed.

Lemma merge_samples_sorted m l : map_sorted m -> map_sorted (merge_samples m l).
Proof.
  revert m. induction l as [|x l IH]; intros m Hm; [done|]. apply IH. by apply map_set_sorted.
Qed.

Lemma is_range_value_at f s a c l t : is_range f s a c l -> value_at t l = cut a c f s t.
Proof.
  intros [Hs Hin]. destruct (value_at t l) as [v|] eqn:E; symmetry.
  - apply value_at_elem, Hin in E; [|done]. apply cut_Some. exact E.
  - destruct (cut a c f s t) as [v|] eqn:Ec; [|done]. apply cut_Some in Ec as (Hf & Ha & Hc).
    assert (value_at t l = Some v) as Hv; [|congruence]. apply value_at_elem; [done|]. by apply Hin.
Qed.

Lemma merge_range f g s a c m l :
  (forall t, map_find t m = cut a c f s t) -> is_range g s a c l ->
  forall t, map_find t (merge_samples m l) = cut a c (view_merge g f) s t.
Proof.
  intros Hm Hl t. rewrite merge_samples_find by apply Hl. rewrite (is_range_value_at _ _ _ _ _ t Hl), Hm.
  unfold cut, view_merge. destruct (_ && _); [|done]. by destruct (g s t).
Qed.

(** The samples of a map of finite values, in order. *)
Lemma samples_from_spec m :
  map_sorted m -> (forall t v, map_find t m = Some v -> Sample_ok (MkSample t v)) ->
  exists l, samples_from m = Ok l /\ samples_sorted l /\ forall x, x ∈ l <-> (timestamp x, sample_value x) ∈ m.
Proof.
  intros Hs Hok. assert (forall e, e ∈ m -> Sample_ok (MkSample e.1 e.2)) as Hall.
  { intros [t v] He. apply (Hok t v). by apply map_sorted_elem_find. }
  clear Hok. induction Hs as [|[t v] m Hs IH Hlt]; [exists []; split; [done|split; [constructor|]]|].
  { intros x. by rewrite !elem_of_nil. }
  destruct IH as (l & Hl & Hsl & Hin); [intros e He; apply Hall; by right|].
  cbn [samples_from]. rewrite make_Sample_pair by (apply (Hall (t, v)); left). cbn [mbind result_bind].
  rewrite Hl. cbn [mbind result_bind]. eexists. split; [done|]. split.
  - constructor; [done|]. apply Forall_forall. intros y Hy. apply Hin in Hy.
    rewrite Forall_forall in Hlt. apply (Hlt _ Hy).
  - intros x. rewrite !elem_of_cons, Hin. destruct x as [t' v']. simpl.
    split; (intros [[= <- <-]|?]; [by left|by right]).
Qed.

Lemma map_is_range f s a c m :
  view_ok f -> map_sorted m -> (forall t, map_find t m = cut a c f s t) ->
  exists l, samples_from m = Ok l /\ is_range f s a c l.
Proof.
  intros Hok Hs Hm. destruct (samples_from_spec m Hs) as (l & Hl & Hsl & Hin).
  - intros t v Hv. rewrite Hm in Hv. apply cut_Some in Hv as [Hv _]. by eapply Hok.
  - exists l. split; [done|]. split; [done|]. intros x. rewrite Hin, <-map_find_elem_iff by done.
    rewrite Hm, cut_Some. done.
Qed.

(** ** Computations that only read, on an object *)

(** Next to [reading]: the object stays as it is too. *)
Definition observing {T A} (P : A -> Prop) (R : exn -> Prop) (s : world * T) (o : outcome A) (s' : world * T) : Prop :=
  s'.2 = s.2 /\ reading P R s.1 o s'.1.

Lemma wp_observing_in_world {T A} (m : M world A) (s : world * T) (P : A -> Prop) R :
  wp m s.1 (reading P R s.1) -> wp (in_world m) s (observing P R s).
Proof. intros H. apply wp_in_world. eapply wp_mono; [exact H|]. by intros o w Hr. Qed.

Lemma wp_observing_bind {T A B} (m : M (world * T) A) (f : A -> M (world * T) B) s P R (Q : B -> Prop) :
  wp m s (observing P R s) ->
  (forall a s1, P a -> s1.2 = s.2 -> fs s1.1 = fs s.1 -> wp (f a) s1 (observing Q R s1)) ->
  wp (m ≫= f) s (observing Q R s).
Proof.
  intros Hm Hf. wp_step. eapply wp_mono; [exact Hm|]. intros o s1 [Hs [Hfs Ho]].
  destruct o as [a|e|]; cbn [and_then]; [|by repeat split..].
  destruct Ho as [Ha Hsc]. eapply wp_mono; [by apply Hf|]. intros o s2 [Hs2 Hr2].
  split; [congruence|]. by eapply reading_from.
Qed.

Lemma wp_observing_ret {T A} (a : A) (P : A -> Prop) R (s : world * T) : P a -> wp (mret a) s (observing P R s).
Proof. intros. rewrite wp_ret. repeat split; auto. Qed.

Lemma wp_observing_lift {T A} (r : result A) (P : A -> Prop) (R : exn -> Prop) (s : world * T) :
  (forall a, r = Ok a -> P a) -> (forall e, r = Err e -> R e) -> wp (lift r) s (observing P R s).
Proof.
  intros HP HR. apply wp_lift; intros x Hx; split; try done; split; try done; [|right; auto]. split; auto.
Qed.

Lemma wp_observing_throw_when {T} c e (R : exn -> Prop) (s : world * T) :
  (c = true -> R e) -> wp (throw_when c e) s (observing (fun _ => c = false) R s).
Proof.
  intros H. apply wp_throw_when; intros ->; split; try done; split; try done. right. auto.
Qed.

Lemma wp_observing_mono {T A} (m : M (world * T) A) (s : world * T) (P P' : A -> Prop) R (R' : exn -> Prop) :
  wp m s (observing P R s) -> (forall a, P a -> P' a) -> (forall e, R e -> R' e) ->
  wp m s (observing P' R' s).
Proof.
  intros Hm HP HR. eapply wp_mono; [exact Hm|]. intros o s' [Hs [Hf Ho]]. split; [done|]. split; [done|].
  destruct o as [a|e|]; [|destruct Ho; auto|done]. destruct Ho. auto.
Qed.

Lemma wp_engine_usable (s : world * StorageEngine) (Q : outcome StorageEngine -> world * StorageEngine -> Prop) :
  engine_failed_ s.2 = false -> Q (Done s.2) s -> wp ensure_usable s Q.
Proof. intros Hf HQ. unfold ensure_usable, wp, mbind, M_bind, this. simpl. by rewrite Hf. Qed.

Lemma wp_observing_usable (s : world * StorageEngine) R :
  engine_failed_ s.2 = false -> wp ensure_usable s (observing (fun e => e = s.2) R s).
Proof. intros Hf. apply wp_engine_usable; [done|]. by repeat split. Qed.

(** ** The loops over the segments *)

Lemma wp_get_in_segments rs bss s t w :
  Forall2 (reader_holds (fs w)) rs bss ->
  wp (get_in_segments rs s t) w (reading (fun o => o = MkSample t <$> newest_first bss s t) no_throw w).
Proof.
  intros Hall. remember (fs w) as f eqn:Hf. symmetry in Hf. revert w Hf.
  induction Hall as [|r bs rs bss (Hbs & p & -> & Hfile) _ IH]; intros w Hf; cbn [get_in_segments newest_first].
  { by apply wp_reading_ret. }
  eapply wp_reading_bind; [apply wp_segment_get; [done|by rewrite Hf]|].
  intros o w1 -> Hf1 _. unfold view_merge. destruct (blocks_view bs s t) as [v|]; simpl.
  - by apply wp_reading_ret.
  - apply IH. congruence.
Qed.

Lemma wp_any_segment_has rs bss s t w :
  Forall2 (reader_holds (fs w)) rs bss ->
  wp (any_segment_has rs s t) w
    (reading (fun b => b = bool_decide (is_Some (newest_first bss s t))) no_throw w).
Proof.
  intros Hall. remember (fs w) as f eqn:Hf. symmetry in Hf. revert w Hf.
  induction Hall as [|r bs rs bss (Hbs & p & -> & Hfile) _ IH]; intros w Hf; cbn [any_segment_has newest_first].
  { by apply wp_reading_ret. }
  eapply wp_reading_bind; [apply wp_segment_get; [done|by rewrite Hf]|].
  intros o w1 -> Hf1 _. unfold view_merge. destruct (blocks_view bs s t) as [v|]; cbn [fmap option_fmap option_map].
  - apply wp_reading_ret. symmetry. by apply bool_decide_eq_true_2.
  - apply IH. congruence.
Qed.

Lemma Forall2_rev' {A B} (P : A -> B -> Prop) l k : Forall2 P l k -> Forall2 P (rev l) (rev k).
Proof.
  induction 1 as [|x y l k Hxy _ IH]; [constructor|]. simpl. apply Forall2_app; [done|]. by constructor.
Qed.

Lemma wp_contains_in_segments rs bss s t w :
  Forall2 (reader_holds (fs w)) rs bss ->
  wp (contains_in_segments rs s t) w
    (reading (fun b => b = bool_decide (is_Some (segments_view bss s t))) no_throw w).
Proof. intros Hall. apply wp_any_segment_has. by apply Forall2_rev'. Qed.

Lemma wp_latest_in_segments rs bss s older r w :
  Forall2 (reader_holds (fs w)) rs bss -> is_latest older s r ->
  wp (latest_in_segments rs s r) w
    (reading (is_latest (foldl (fun v bs => view_merge (blocks_view bs) v) older bss) s) no_throw w).
Proof.
  intros Hall. remember (fs w) as f eqn:Hf. symmetry in Hf. revert w Hf older r.
  induction Hall as [|r0 bs rs bss (Hbs & p & -> & Hfile) _ IH]; intros w Hf older r Hr;
    cbn [latest_in_segments foldl]; [by apply wp_reading_ret|].
  eapply wp_reading_bind; [apply wp_segment_latest; [done|by rewrite Hf]|].
  intros c w1 Hc Hf1 _. apply IH; [congruence|]. by apply newer_sample_latest.
Qed.

Lemma wp_merge_ranges rs bss s a c older m w :
  Forall2 (reader_holds (fs w)) rs bss -> ~ c ≺ a ->
  map_sorted m -> (forall t, map_find t m = cut a c older s t) ->
  wp (merge_ranges m rs s a c) w
    (reading (fun m => map_sorted m /\ forall t, map_find t m =
        cut a c (foldl (fun v bs => view_merge (blocks_view bs) v) older bss) s t) no_throw w).
Proof.
  intros Hall Hac. remember (fs w) as f eqn:Hf. symmetry in Hf. revert w Hf older m.
  induction Hall as [|r bs rs bss (Hbs & p & -> & Hfile) _ IH]; intros w Hf older m Hm Hcut;
    cbn [merge_ranges foldl]; [by apply wp_reading_ret|].
  eapply wp_reading_bind.
  { eapply wp_reading_mono; [apply wp_segment_range; [done|by rewrite Hf]|result_is|].
    by intros e [? _]. }
  intros l w1 [_ Hl] Hf1 _. apply IH; [congruence|by apply merge_samples_sorted|].
  by apply merge_range.
Qed.

Lemma segments_view_foldl bss :
  foldl (fun v bs => view_merge (blocks_view bs) v) view_empty bss = segments_view bss.
Proof.
  induction bss as [|bs bss IH] using rev_ind; [done|]. rewrite foldl_app, IH. cbn [foldl].
  by rewrite segments_view_snoc.
Qed.

(** ** The queries *)

Section Queries.
Context (bss : list (list SegmentBlock)).

Lemma wp_engine_get s t st :
  engine_holds (fs st.1) st.2 bss ->
  wp (engine_get s t) st (observing (is_get (engine_view st.2 bss) s t) no_throw st).
Proof.
  intros (Hu & Hm & Hall). unfold engine_get.
  eapply wp_observing_bind; [by apply wp_observing_usable|]. intros e st1 -> He Hf.
  eapply wp_observing_bind.
  { apply wp_observing_lift; [result_is|]. intros x. by rewrite memtable_get_spec. }
  intros o st2 Ho He2 Hf2. rewrite memtable_get_spec in Ho by done. injection Ho as <-.
  unfold is_get, engine_view, view_merge.
  destruct (memtable_view (memtable_ st.2) s t) as [v|]; cbn [fmap option_fmap option_map].
  - by apply wp_observing_ret.
  - apply wp_observing_in_world. apply (wp_get_in_segments _ (rev bss)). apply Forall2_rev'.
    by rewrite Hf2, Hf.
Qed.

Lemma wp_engine_latest s st :
  engine_holds (fs st.1) st.2 bss ->
  wp (engine_latest s) st (observing (is_latest (engine_view st.2 bss) s) no_throw st).
Proof.
  intros (Hu & Hm & Hall). unfold engine_latest.
  eapply wp_observing_bind; [by apply wp_observing_usable|]. intros e st1 -> He Hf.
  eapply wp_observing_bind.
  { apply wp_observing_in_world, (wp_latest_in_segments _ bss s view_empty); [by rewrite Hf|by intros t]. }
  intros r st2 Hr He2 Hf2. cbv beta in Hr. rewrite segments_view_foldl in Hr.
  destruct (memtable_latest_spec (memtable_ st.2) s Hm) as (m & Hm' & Hl).
  eapply wp_observing_bind.
  { apply wp_observing_lift; [result_is|]. intros x. by rewrite Hm'. }
  intros o st3 Ho He3 Hf3. rewrite Hm' in Ho. injection Ho as <-.
  apply wp_observing_ret. by apply newer_sample_latest.
Qed.

Lemma wp_engine_range s a c st :
  engine_holds (fs st.1) st.2 bss ->
  wp (engine_range s a c) st
    (observing (fun l => ~ c ≺ a /\ is_range (engine_view st.2 bss) s a c l)
       (fun x => c ≺ a /\ x = invalid_argument "range end must not precede range start") st).
Proof.
  intros Hholds. pose proof Hholds as (Hu & Hm & Hall). unfold engine_range.
  eapply wp_observing_bind; [by apply wp_observing_usable|]. intros e st1 -> He Hf.
  eapply wp_observing_bind.
  { apply wp_observing_throw_when. intros Hlt. split; [by apply ltb_lt|done]. }
  intros u st2 Hle He2 Hf2. apply ltb_ge_not in Hle.
  eapply wp_observing_bind.
  { apply wp_observing_in_world. eapply (wp_reading_mono _ _ _ _ no_throw); [|result_is|by intros x []].
    apply (wp_merge_ranges _ bss s a c view_empty); [by rewrite Hf2, Hf|done|constructor|].
    intros t. unfold cut. by destruct (_ && _). }
  intros m st3 [Hsorted Hfind] He3 Hf3. rewrite segments_view_foldl in Hfind.
  destruct (memtable_range_spec (memtable_ st.2) s a c Hm) as [[_ ?]|(l & Hl & _ & Hrange)]; [done|].
  eapply wp_observing_bind.
  { apply wp_observing_lift; [result_is|]. intros x. by rewrite Hl. }
  intros o st4 Ho He4 Hf4. rewrite Hl in Ho. injection Ho as <-.
  destruct (map_is_range (engine_view st.2 bss) s a c (merge_samples m l)) as (k & Hk & Hkr).
  - by eapply engine_view_ok.
  - by apply merge_samples_sorted.
  - intros t. by apply merge_range.
  - apply wp_observing_lift; rewrite Hk; [|done]. intros k' [= <-]. by split.
Qed.
End Queries.
