(* ===== verification/EngineBlocks.v ===== *)
(** * Blocks from snapshots

    [flush] and [compact] cut sorted series into blocks of at most 256 samples.
    The blocks hold exactly the samples they are cut from, in the order a segment
    needs; what [compact] merges from its segments is a MemTable's map. *)

From stdpp Require Import base tactics option numbers list strings.
From Stdlib Require Import ZArith Lia Sorted.
From S2P Require Import Prelude Errors World Hoare Model OrdMap View MemTable SegmentBlock SegmentFile SegmentFormat BlocksView StorageEngine EngineView.

(** ** Cutting one series *)

Lemma block_first_elem b :
  SegmentBlock_ok b -> exists x, x ∈ block_samples b /\ first_timestamp b = timestamp x.
Proof.
  intros (_ & Hne & _). unfold first_timestamp. destruct (block_samples b) as [|x l]; [done|].
  exists x. split; [left|done].
Qed.

Lemma last_elem (l : list Sample) d : l <> [] -> List.last l d ∈ l.
Proof.
  induction l as [|x l IH]; [done|]. intros _. destruct l as [|y l]; [left|]. right. by apply IH.
Qed.

Lemma block_last_elem b :
  SegmentBlock_ok b -> exists x, x ∈ block_samples b /\ last_timestamp b = timestamp x.
Proof.
  intros (_ & Hne & _). unfold last_timestamp. eexists. split; [by apply last_elem|done].
Qed.

Lemma StronglySorted_join {A} (R : A -> A -> Prop) l k :
  StronglySorted R l -> StronglySorted R k -> (forall x y, x ∈ l -> y ∈ k -> R x y) ->
  StronglySorted R (l ++ k).
Proof.
  intros Hl Hk Hlk. induction Hl as [|x l Hl IH Hall]; [done|]. simpl. constructor.
  - apply IH. intros y z Hy. apply Hlk. by right.
  - apply Forall_app. split; [done|]. apply Forall_forall. intros y Hy. apply Hlk; [left|done].
Qed.

Definition cut_of (s : SeriesKey) (samples : list Sample) (bs : list SegmentBlock) : Prop :=
  blocks_ordered bs /\ Forall (fun b => block_series b = s) bs /\ concat (map block_samples bs) = samples.

(** One more block before the others. *)
Lemma cut_cons s l k bs :
  SegmentBlock_ok (MkSegmentBlock s l) -> samples_sorted (l ++ k) -> cut_of s k bs ->
  cut_of s (l ++ k) (MkSegmentBlock s l :: bs).
Proof.
  intros Hb Hsorted ([Hok Hs] & Hser & Hcat). apply samples_sorted_app in Hsorted as (_ & _ & Hlk).
  split; [|split; [by constructor|cbn [map concat block_samples]; by rewrite Hcat]].
  split; [by constructor|]. constructor; [done|]. apply Forall_forall. intros b Hin. right.
  rewrite Forall_forall in Hser, Hok. split; [symmetry; by apply Hser|].
  destruct (block_last_elem _ Hb) as (x & Hx & ->). destruct (block_first_elem b (Hok b Hin)) as (y & Hy & ->).
  apply Hlk; [done|]. rewrite <-Hcat. apply list_elem_of_In, in_concat. exists (block_samples b).
  split; [apply in_map; by apply list_elem_of_In|by apply list_elem_of_In].
Qed.

Lemma snapshot_blocks_spec s samples fuel k :
  SeriesKey_ok s -> samples_sorted samples -> Forall Sample_ok samples ->
  (length samples <= fuel + k)%nat -> (k <= length samples)%nat ->
  exists bs, snapshot_blocks fuel s samples (Z.of_nat k) = Ok bs /\ cut_of s (drop k samples) bs.
Proof.
  intros Hs Hsorted Hok. revert k. induction fuel as [|fuel IH]; intros k Hfuel Hk;
    cbn [snapshot_blocks]; destruct (Z.of_nat k <? size samples) eqn:E; bool_to_prop; unfold size in E; cbn [negb]; try lia.
  1, 3: exists []; split; [done|]; rewrite drop_ge by lia; split; [split; constructor|split; [constructor|done]].
  set (count := Z.min (size samples - Z.of_nat k) max_samples_per_segment_block).
  set (c := Z.to_nat count).
  assert (count = Z.of_nat c /\ (1 <= c <= length samples - k)%nat /\ count <= 256) as (Hcount & Hc & H256).
  { unfold c, count, max_samples_per_segment_block, size. lia. }
  rewrite Nat2Z.id. set (l := take c (drop k samples)).
  assert (drop k samples = l ++ drop (k + c) samples) as Hsplit.
  { rewrite <-drop_drop. unfold l. by rewrite take_drop. }
  assert (samples_sorted (drop k samples) /\ Forall Sample_ok (drop k samples)) as [Hds Hdo].
  { split; [|by apply Forall_drop]. rewrite <-(take_drop k samples) in Hsorted.
    by apply samples_sorted_app in Hsorted as (_ & ? & _). }
  rewrite Hsplit in Hds, Hdo. pose proof Hds as (Hl & _ & _)%samples_sorted_app.
  apply Forall_app in Hdo as [Hlo _].
  assert (length l = c) as Hlen by (unfold l; rewrite length_take, length_drop; lia).
  assert (l <> []) as Hne by (intros He; rewrite He in Hlen; simpl in Hlen; lia).
  assert (SegmentBlock_ok (MkSegmentBlock s l)) as Hb.
  { split_and!; try done. simpl. unfold size, max_samples_per_segment_block. lia. }
  rewrite (proj2 (make_SegmentBlock_Ok s l _)) by (split_and!; [done|done|apply Hb|done]).
  cbn [mbind result_bind]. rewrite Hcount, <-Nat2Z.inj_add.
  destruct (IH (k + c)%nat) as (bs & -> & Hcut); [lia|lia|]. cbn [mbind result_bind].
  eexists. split; [done|]. rewrite Hsplit. by apply cut_cons.
Qed.

(** ** All series *)

Definition snapshots_ok (l : list MemTableSeriesSnapshot) : Prop :=
  StronglySorted (fun a b => snapshot_series a ≺ snapshot_series b) l /\
  Forall (fun e => SeriesKey_ok (snapshot_series e) /\ samples_sorted (snapshot_samples e) /\
                   Forall Sample_ok (snapshot_samples e)) l.

Definition samples_in (l : list MemTableSeriesSnapshot) (s : SeriesKey) : list Sample :=
  concat (map (fun e => if snapshot_series e ≡? s then snapshot_samples e else []) l).

Lemma samples_of_cut s samples bs s' :
  cut_of s samples bs -> samples_of bs s' = if s ≡? s' then samples else [].
Proof.
  intros (_ & Hser & <-). unfold samples_of. induction Hser as [|b bs Hb _ IH]; simpl.
  - by destruct (s ≡? s').
  - rewrite IH, Hb. by destruct (s ≡? s').
Qed.

Lemma blocks_from_snapshots_spec l :
  snapshots_ok l ->
  exists bs, blocks_from_snapshots l = Ok bs /\ blocks_ordered bs /\
    (forall b, b ∈ bs -> exists e, e ∈ l /\ block_series b = snapshot_series e) /\
    forall s, samples_of bs s = samples_in l s.
Proof.
  intros [Hsorted Hall]. induction Hsorted as [|e l Hl IH Hlt].
  { exists []. split; [done|]. split; [split; constructor|]. split; [by intros b ?%elem_of_nil|done]. }
  apply Forall_cons in Hall as [(Hs & Hsamples & Hok) Hall]. destruct (IH Hall) as (bs & Hbs & Hord & Hfrom & Hof).
  cbn [blocks_from_snapshots]. change 0 with (Z.of_nat 0).
  destruct (snapshot_blocks_spec (snapshot_series e) (snapshot_samples e) (length (snapshot_samples e)) 0)
    as (bs0 & -> & Hcut); [done|done|done|lia|lia|]. rewrite drop_0 in Hcut.
  cbn [mbind result_bind]. rewrite Hbs. cbn [mbind result_bind]. exists (bs0 ++ bs).
  pose proof Hcut as ([Hok0 Hs0] & Hser & _). destruct Hord as [Hok' Hs']. rewrite Forall_forall in Hser; rewrite Forall_forall in Hlt.
  split; [done|]. split; [split; [by apply Forall_app|]|split].
  - apply StronglySorted_join; [done|done|]. intros b b' Hb Hb'. left.
    rewrite (Hser b Hb). destruct (Hfrom b' Hb') as (e' & He' & ->). by apply Hlt.
  - intros b [Hb|Hb]%elem_of_app.
    + exists e. split; [left|by apply Hser].
    + destruct (Hfrom b Hb) as (e' & He' & Heq). exists e'. split; [by right|done].
  - intros s. rewrite samples_of_app, (samples_of_cut _ _ _ s Hcut), Hof. done.
Qed.

(** ** The MemTable's series *)

Definition snapshots (m : MemTable) : list MemTableSeriesSnapshot :=
  map (fun e => MkSnapshot e.1 (map (fun p => MkSample p.1 p.2) e.2)) (series_ m).

Lemma map_samples_sorted (l : list (Timestamp * double)) :
  map_sorted l -> samples_sorted (map (fun p => MkSample p.1 p.2) l).
Proof.
  induction 1 as [|p l _ IH Hall]; [constructor|]. simpl. constructor; [done|].
  apply Forall_forall. intros x (q & -> & Hq)%list_elem_of_fmap. rewrite Forall_forall in Hall. by apply Hall.
Qed.

Lemma snapshots_are_ok m : MemTable_ok m -> snapshots_ok (snapshots m).
Proof.
  intros (Hsorted & Hall & _). unfold snapshots. split.
  - clear Hall. induction Hsorted as [|e l _ IH Hlt]; [constructor|]. simpl. constructor; [done|].
    apply Forall_forall. intros x (e' & -> & He')%list_elem_of_fmap. rewrite Forall_forall in Hlt. by apply Hlt.
  - apply Forall_forall. intros x (e & -> & He)%list_elem_of_fmap. rewrite Forall_forall in Hall.
    destruct (Hall e He) as (Hs & Hm & _ & Hok). split; [done|]. split; [by apply map_samples_sorted|].
    apply Forall_forall. intros y (p & -> & Hp)%list_elem_of_fmap. rewrite Forall_forall in Hok. by apply Hok.
Qed.

Lemma value_at_map t (l : list (Timestamp * double)) :
  value_at t (map (fun p => MkSample p.1 p.2) l) = map_find t l.
Proof.
  induction l as [|[t' v] l IH]; [done|]. simpl. rewrite IH.
  destruct (t' ≡? t) eqn:E, (t ≡? t') eqn:E'; ord_to_prop; congruence.
Qed.

Lemma samples_in_snapshots m s :
  MemTable_ok m -> samples_in (snapshots m) s = map (fun p => MkSample p.1 p.2) (default [] (map_find s (series_ m))).
Proof.
  intros (Hsorted & _). unfold samples_in, snapshots. induction Hsorted as [|[s0 l0] l _ IH Hlt]; [done|].
  cbn [map concat map_find snapshot_series snapshot_samples fst snd]. rewrite IH.
  destruct (s ≡? s0) eqn:E; ord_to_prop.
  - subst s0. rewrite eqb_refl. simpl.
    assert (map_find s l = None) as ->; [|by rewrite app_nil_r].
    apply map_find_None. intros v Hin. rewrite Forall_forall in Hlt. apply Hlt in Hin. by apply lt_irrefl in Hin.
  - by rewrite (proj2 (eqb_neq s0 s)).
Qed.

(** [make_memtable_blocks]: the blocks hold the MemTable's view. *)
Lemma memtable_blocks m :
  MemTable_ok m ->
  exists bs, blocks_from_snapshots (snapshots m) = Ok bs /\ blocks_ordered bs /\
    blocks_view bs ≡ memtable_view m.
Proof.
  intros Hm. destruct (blocks_from_snapshots_spec _ (snapshots_are_ok m Hm)) as (bs & Hbs & Hord & _ & Hof).
  exists bs. split; [done|]. split; [done|]. intros s t. unfold blocks_view, memtable_view.
  rewrite Hof, samples_in_snapshots, value_at_map by done. by destruct (map_find s (series_ m)).
Qed.

(** ** Merging the segments *)

Definition merged_ok (m : Merged) : Prop :=
  map_sorted m /\ Forall (fun e => SeriesKey_ok e.1 /\ samples_ok e.2) m.

(** The MemTable with the merged samples. *)
Definition as_memtable (m : Merged) : MemTable := MkMemTable m (u64 (Z.of_nat (total_samples m))).

Definition merged_view (m : Merged) : view := memtable_view (as_memtable m).

Lemma as_memtable_ok m : merged_ok m -> MemTable_ok (as_memtable m).
Proof. by intros [? ?]. Qed.

Lemma merge_samples_ok m l :
  (m <> [] -> samples_ok m) -> l <> [] -> Forall Sample_ok l -> samples_ok (merge_samples m l).
Proof.
  intros Hm Hne Hok. assert (map_sorted m /\ Forall (fun e => Sample_ok (MkSample e.1 e.2)) m) as [Hs Hf].
  { destruct m; [split; constructor|]. by destruct Hm as (? & _ & ?). }
  destruct Hok as [|x l Hx Hok]; [done|]. clear Hm Hne. cbn [merge_samples foldl].
  assert (samples_ok (map_set (timestamp x) (sample_value x) m)) as H1.
  { split; [by apply map_set_sorted|]. split; [destruct m as [|[t v] m]; [done|]; cbn [map_set]; by destruct (cmp _ _)|].
    apply Forall_map_set; [by destruct x|done]. }
  clear Hs Hf Hx. revert H1. generalize (map_set (timestamp x) (sample_value x) m) as m'.
  induction Hok as [|y l Hy _ IH]; intros m' (Hs & Hne & Hf); [done|]. cbn [foldl]. apply IH.
  split; [by apply map_set_sorted|]. split; [destruct m' as [|[t v] m']; [done|]; cbn [map_set]; by destruct (cmp _ _)|].
  apply Forall_map_set; [by destruct y|done].
Qed.

Lemma merge_block_ok m b : merged_ok m -> SegmentBlock_ok b -> merged_ok (merge_block m b).
Proof.
  intros [Hs Hf] (Hk & Hne & _ & _ & Hok). split; [by apply map_set_sorted|].
  apply Forall_map_set; [|done]. split; [done|]. apply merge_samples_ok; [|done|done]. intros Hd.
  destruct (map_find (block_series b) m) as [l|] eqn:E; [|done]. apply map_find_elem in E.
  rewrite Forall_forall in Hf. apply (Hf _ E).
Qed.

Lemma merge_block_view m b s t :
  SegmentBlock_ok b ->
  merged_view (merge_block m b) s t =
  match value_at t (if block_series b ≡? s then block_samples b else []) with
  | Some v => Some v
  | None => merged_view m s t
  end.
Proof.
  intros (_ & _ & _ & Hsorted & _). unfold merged_view, memtable_view, merge_block, as_memtable. cbn [series_].
  rewrite map_find_set. destruct (s ≡? block_series b) eqn:E; ord_to_prop.
  - subst s. rewrite eqb_refl, merge_samples_find by done.
    by destruct (map_find (block_series b) m).
  - by rewrite (proj2 (eqb_neq (block_series b) s)) by done.
Qed.

Lemma value_at_swap t l k :
  samples_sorted (l ++ k) ->
  value_at t (l ++ k) = match value_at t k with Some v => Some v | None => value_at t l end.
Proof.
  intros (Hl & Hk & Hlk)%samples_sorted_app. rewrite value_at_app.
  destruct (value_at t l) as [v|] eqn:E1, (value_at t k) as [v'|] eqn:E2; try done. exfalso.
  apply value_at_elem in E1; [|done]. apply value_at_elem in E2; [|done].
  apply (lt_irrefl t), (Hlk _ _ E1 E2).
Qed.

Lemma merge_blocks_spec bs m :
  blocks_ordered bs -> merged_ok m ->
  merged_ok (foldl merge_block m bs) /\
  merged_view (foldl merge_block m bs) ≡ view_merge (blocks_view bs) (merged_view m).
Proof.
  revert m. induction bs as [|b bs IH]; intros m Hbs Hm; [done|]. cbn [foldl].
  pose proof Hbs as (Hb & _ & Hbs')%blocks_ordered_inv.
  destruct (IH (merge_block m b) Hbs' (merge_block_ok _ _ Hm Hb)) as [Hok Hv]. split; [done|].
  intros s t. rewrite Hv. unfold view_merge, blocks_view.
  pose proof (samples_of_sorted _ s Hbs) as Hsorted. rewrite samples_of_cons in Hsorted |- *.
  rewrite value_at_swap by done. destruct (value_at t (samples_of bs s)); [done|]. by apply merge_block_view.
Qed.

Lemma wp_merge_segments rs bss m w :
  Forall2 (reader_holds (fs w)) rs bss -> merged_ok m ->
  wp (merge_segments m rs) w (reading (fun m' => merged_ok m' /\
    merged_view m' ≡ foldl (fun v bs => view_merge (blocks_view bs) v) (merged_view m) bss) no_throw w).
Proof.
  intros Hall. remember (fs w) as f eqn:Hf. symmetry in Hf. revert w Hf m.
  induction Hall as [|r bs rs bss (Hbs & p & -> & Hfile) _ IH]; intros w Hf m Hm; cbn [merge_segments foldl].
  { by apply wp_reading_ret. }
  eapply wp_reading_bind; [apply wp_segment_blocks; [done|by rewrite Hf]|].
  intros bs' w1 -> Hf1 _. destruct (merge_blocks_spec bs m (segment_ordered _ Hbs) Hm) as [Hok Hv].
  eapply wp_reading_mono; [apply IH; [congruence|done]| |done].
  intros m' [Hok' Hv']. split; [done|]. rewrite Hv'. clear -Hv.
  assert (forall v v' : view, v ≡ v' -> foldl (fun v bs => view_merge (blocks_view bs) v) v bss ≡
            foldl (fun v bs => view_merge (blocks_view bs) v) v' bss) as H; [|by apply H].
  induction bss as [|b bss IH]; intros v v' Hvv; [done|]. cbn [foldl]. apply IH. by rewrite Hvv.
Qed.

Lemma samples_from_map l : samples_ok l -> samples_from l = Ok (map (fun p => MkSample p.1 p.2) l).
Proof.
  intros (_ & _ & Hok). induction Hok as [|[t v] l Ht _ IH]; [done|]. cbn [samples_from].
  rewrite make_Sample_pair by done. cbn [mbind result_bind]. by rewrite IH.
Qed.

Lemma snapshots_of_spec m acc c :
  Forall (fun e => SeriesKey_ok e.1 /\ samples_ok e.2) m -> in_u 64 c ->
  snapshots_of m acc c =
  Ok (acc ++ map (fun e => MkSnapshot e.1 (map (fun p => MkSample p.1 p.2) e.2)) m,
      u64 (c + Z.of_nat (total_samples m))).
Proof.
  intros Hall. revert acc c. induction Hall as [|[s l] m [_ Hl] _ IH]; intros acc c Hc; cbn [snapshots_of total_samples map].
  { rewrite app_nil_r, Z.add_0_r. by rewrite u64_small. }
  cbn [snd] in Hl. rewrite samples_from_map by done. cbn [mbind result_bind].
  rewrite IH by apply u64_range. rewrite <-app_assoc. do 2 f_equal. unfold u64, size.
  rewrite length_map, Nat2Z.inj_add, Z.add_mod_idemp_l by lia. f_equal. lia.
Qed.

(** ** Counting *)

Lemma view_count_le f n l :
  view_count f n -> (forall s t, is_Some (f s t) -> (s, t) ∈ l) -> (n <= length l)%nat.
Proof.
  intros (k & Hk & <- & Hin) Hl. apply NoDup_incl_length; [by apply NoDup_ListNoDup|].
  intros [s t]. rewrite <-!list_elem_of_In, Hin. apply Hl.
Qed.

Definition pairs_in (bs : list SegmentBlock) : list (SeriesKey * Timestamp) :=
  flat_map (fun b => map (fun x => (block_series b, timestamp x)) (block_samples b)) bs.

Lemma pairs_in_cover bs s t : is_Some (blocks_view bs s t) -> (s, t) ∈ pairs_in bs.
Proof.
  intros [v Hv]. unfold blocks_view in Hv. destruct (value_at t (samples_of bs s)) eqn:E; [|done].
  assert (exists x, x ∈ samples_of bs s /\ timestamp x = t) as (x & Hx & <-).
  { clear Hv. induction (samples_of bs s) as [|x l IH]; [done|]. simpl in E.
    destruct (timestamp x ≡? t) eqn:Et; ord_to_prop; [exists x; split; [left|done]|].
    destruct (IH E) as (y & Hy & Ht). exists y. split; [by right|done]. }
  apply samples_of_elem in Hx as (b & Hb & <- & Hx). apply list_elem_of_In, in_flat_map. exists b.
  split; [by apply list_elem_of_In|]. apply in_map_iff. exists x. split; [done|]. by apply list_elem_of_In.
Qed.

Lemma sum_counts_pairs n bs : in_u 64 n -> sum_counts n bs = u64 (n + size (pairs_in bs)).
Proof.
  revert n. induction bs as [|b bs IH]; intros n Hn; cbn [sum_counts foldl pairs_in flat_map].
  { change (size []) with 0. rewrite Z.add_0_r. by rewrite u64_small. }
  change (foldl _ _ bs) with (sum_counts (u64 (n + block_sample_count b)) bs).
  rewrite IH by apply u64_range. rewrite size_app. unfold u64, block_sample_count, size.
  rewrite length_map, Z.add_mod_idemp_l by lia. f_equal. unfold pairs_in. lia.
Qed.

(** A segment holds at most 256 samples in each of its million blocks. *)
Lemma size_pairs_in bs : segment_ok bs -> size (pairs_in bs) <= 256000000.
Proof.
  intros [(_ & Hcount & Hok & _) _]. assert (size (pairs_in bs) <= 256 * size bs) as H.
  { clear Hcount. induction Hok as [|b bs Hb _ IH]; [done|]. cbn [pairs_in flat_map].
    rewrite size_app, size_cons. unfold pairs_in in IH. destruct Hb as (_ & _ & Hb & _).
    unfold max_samples_per_segment_block, size in *. rewrite length_map. lia. }
  unfold max_segment_block_count in Hcount. lia.
Qed.

Lemma segments_count bss n :
  Forall segment_ok bss -> view_count (segments_view bss) n ->
  Z.of_nat n <= size (flat_map pairs_in bss) <= 256000000 * size bss.
Proof.
  intros Hall Hn. split.
  - apply inj_le. eapply view_count_le; [exact Hn|]. clear. intros s t Hst.
    induction bss as [|bs bss IH] using rev_ind; [by destruct Hst|].
    rewrite flat_map_app, elem_of_app. simpl. rewrite app_nil_r.
    rewrite segments_view_snoc in Hst. unfold view_merge in Hst.
    destruct (blocks_view bs s t) eqn:E; [right; apply pairs_in_cover; by rewrite E|left; auto].
  - clear Hn. induction Hall as [|bs bss Hbs _ IH]; [done|]. simpl. rewrite size_app, size_cons.
    pose proof (size_pairs_in bs Hbs). lia.
Qed.
