(* ===== verification/EngineState.v ===== *)
(** * The storage engine's state

    What the engine relies on between two of its operations: the manifest and the
    segments it names are on stable storage ([persisted]), the WAL holds exactly
    the records since the last flush ([log_state]), and the object in memory agrees
    with both ([engine_ok]).  The last part says what a power loss leaves of it. *)

From stdpp Require Import base tactics option numbers list strings gmap.
From Stdlib Require Import ZArith Lia Ascii.
From S2P Require Import Prelude Errors World Hoare Model ByteCodec OrdMap View MemTable WalRecord FileIo WalFile WalRecovery SegmentBlock Manifest SegmentFile SegmentFormat BlocksView SegmentQuery StorageEngine EngineView EngineBlocks.

(** ** The names in the directory *)

Definition wal_path (dir : string) : path := Path dir "chronostore.wal".

Lemma directory_of_wal dir : dir <> EmptyString -> directory_of (wal_path dir) = dir.
Proof. intros Hd. unfold directory_of. simpl. by rewrite decide_False. Qed.

Lemma same_directory dir a b : directory_of (Path dir a) = directory_of (Path dir b).
Proof. done. Qed.

Lemma string_app_assoc (a b c : string) : a +:+ (b +:+ c) = (a +:+ b) +:+ c.
Proof. induction a as [|x a IH]; [done|]. exact (f_equal (String x) IH). Qed.

Lemma padded_decimal_app width n acc : padded_decimal width n acc = padded_decimal width n EmptyString +:+ acc.
Proof.
  revert n acc. induction width as [|width IH]; intros n acc; [done|]. cbn [padded_decimal].
  rewrite IH, (IH _ (String _ EmptyString)). by rewrite <-string_app_assoc.
Qed.

Lemma string_app_length_inj (a b c d : string) :
  String.length a = String.length b -> a +:+ c = b +:+ d -> a = b /\ c = d.
Proof.
  revert b. induction a as [|x a IH]; intros [|y b]; try done. intros [= Hl].
  change (String x (a +:+ c) = String y (b +:+ d) -> String x a = String y b /\ c = d).
  intros [= -> Happ]. by destruct (IH b Hl Happ) as [-> ->].
Qed.

Lemma padded_decimal_length width n acc :
  String.length (padded_decimal width n acc) = (width + String.length acc)%nat.
Proof.
  revert n acc. induction width as [|width IH]; intros n acc; [done|]. cbn [padded_decimal].
  rewrite IH. simpl. lia.
Qed.

Lemma digit_inj n m : digit n = digit m -> n mod 10 = m mod 10.
Proof.
  unfold digit. intros H. apply (f_equal nat_of_ascii) in H.
  pose proof (Z.mod_pos_bound n 10 ltac:(lia)). pose proof (Z.mod_pos_bound m 10 ltac:(lia)).
  rewrite !nat_ascii_embedding in H by lia. lia.
Qed.

Lemma padded_decimal_inj width n m acc acc' :
  0 <= n < 10 ^ Z.of_nat width -> 0 <= m < 10 ^ Z.of_nat width ->
  String.length acc = String.length acc' ->
  padded_decimal width n acc = padded_decimal width m acc' -> n = m /\ acc = acc'.
Proof.
  revert n m acc acc'. induction width as [|width IH]; intros n m acc acc' Hn Hm Hl H.
  { simpl in H. change (10 ^ Z.of_nat 0) with 1 in *. split; [lia|done]. }
  cbn [padded_decimal] in H. rewrite Nat2Z.inj_succ, Z.pow_succ_r in * by lia.
  apply IH in H as [Hq Hs]; [|split; [apply Z.div_pos; lia|apply Z.div_lt_upper_bound; lia]..|by simpl; rewrite Hl].
  injection Hs as Hd Hacc. apply digit_inj in Hd. split; [|done].
  rewrite (Z.div_mod n 10), (Z.div_mod m 10) by lia. by rewrite Hq, Hd.
Qed.

(** Two generations have two names. *)
Lemma segment_name_inj k k' : in_u 64 k -> in_u 64 k' -> segment_name k = segment_name k' -> k = k'.
Proof.
  unfold in_u. intros Hk Hk' H. unfold segment_name in H.
  apply string_app_length_inj in H as [_ H]; [|done].
  rewrite <-!(padded_decimal_app 20) in H. apply (padded_decimal_inj 20 k k' ".cst" ".cst"); [|lia..|done].
  all: assert (2 ^ 64 < 10 ^ Z.of_nat 20) by done; lia.
Qed.

Lemma last_dot_app (s t : string) e : last_dot t = Some e -> last_dot (s +:+ t) = Some e.
Proof.
  intros Ht. induction s as [|c s IH]; [done|].
  change (last_dot (String c (s +:+ t)) = Some e). simpl. by rewrite IH.
Qed.

Lemma segment_name_extension k : extension (segment_name k) = ".cst".
Proof.
  unfold segment_name. change ("segment-" +:+ ?x) with (String "s" ("egment-" +:+ x)). cbn [extension].
  rewrite decide_False by done. rewrite string_app_assoc, (last_dot_app _ ".cst" ".cst"); done.
Qed.

Lemma temporary_extension k : extension (segment_name k +:+ ".tmp") = ".tmp".
Proof.
  unfold segment_name. rewrite <-string_app_assoc. change ("segment-" +:+ ?x) with (String "s" ("egment-" +:+ x)).
  cbn [extension]. rewrite decide_False by done. by rewrite !string_app_assoc, (last_dot_app _ ".tmp" ".tmp").
Qed.

Lemma contains_char_app c (s t : string) : contains_char c (s +:+ t) = contains_char c s || contains_char c t.
Proof.
  induction s as [|a s IH]; [done|]. change (contains_char c (String a (s +:+ t)) = contains_char c (String a s) || contains_char c t).
  simpl. by rewrite IH, orb_assoc.
Qed.

Lemma padded_decimal_char c width n acc :
  (forall m, Ascii.eqb (digit m) c = false) -> contains_char c acc = false ->
  contains_char c (padded_decimal width n acc) = false.
Proof.
  intros Hd. revert n acc. induction width as [|width IH]; intros n acc Ha; [done|]. cbn [padded_decimal].
  apply IH. cbn [contains_char]. rewrite Hd. exact Ha.
Qed.

Lemma digit_not c : (nat_of_ascii c < 48 \/ 57 < nat_of_ascii c)%nat -> forall m, Ascii.eqb (digit m) c = false.
Proof.
  intros Hc m. apply Ascii.eqb_neq. intros <-. unfold digit in Hc.
  pose proof (Z.mod_pos_bound m 10 ltac:(lia)). rewrite nat_ascii_embedding in Hc by lia. lia.
Qed.

Lemma segment_name_valid k : valid_segment_filename (segment_name k) = true.
Proof.
  unfold valid_segment_filename. rewrite bool_decide_false by done. rewrite segment_name_extension.
  unfold segment_name. rewrite !contains_char_app.
  rewrite (padded_decimal_char "/"), (padded_decimal_char "\");
    [done|apply digit_not; right; vm_compute; lia|done|apply digit_not; left; vm_compute; lia|done].
Qed.

Lemma segment_name_size k : string_size (segment_name k) = 32.
Proof.
  unfold string_size, segment_name. rewrite !string_length_app, padded_decimal_length. done.
Qed.

Lemma starts_with_app p (s : string) : starts_with p (p +:+ s) = true.
Proof.
  induction p as [|c p IH]; [done|]. change (starts_with (String c p) (String c (p +:+ s)) = true). simpl.
  by rewrite Ascii.eqb_refl.
Qed.

(** The names the engine uses are all different. *)
Lemma segment_name_tmp k k' : segment_name k <> segment_name k' +:+ ".tmp".
Proof. intros H. apply (f_equal extension) in H. by rewrite segment_name_extension, temporary_extension in H. Qed.

Lemma not_segment_name (s : string) k : starts_with "segment-" s = false -> s <> segment_name k.
Proof. intros H ->. unfold segment_name in H. by rewrite starts_with_app in H. Qed.

Lemma not_temporary_name (s : string) k : starts_with "segment-" s = false -> s <> segment_name k +:+ ".tmp".
Proof. intros H ->. unfold segment_name in H. by rewrite <-string_app_assoc, starts_with_app in H. Qed.

(** ** The log *)

Definition record_ok (r : WalPutRecord) : Prop :=
  WalPutRecord_ok r /\ exists bytes, encode_wal_record r = Ok bytes.

Definition record_bytes (r : WalPutRecord) : list byte :=
  match encode_wal_record r with Ok bytes => bytes | Err _ => [] end.

Definition log_bytes (records : list WalPutRecord) : list byte := concat (map record_bytes records).

Lemma log_bytes_app l k : log_bytes (l ++ k) = log_bytes l ++ log_bytes k.
Proof. unfold log_bytes. by rewrite map_app, concat_app. Qed.

Lemma log_bytes_snoc l r : log_bytes (l ++ [r]) = log_bytes l ++ record_bytes r.
Proof. rewrite log_bytes_app. unfold log_bytes. simpl. by rewrite app_nil_r. Qed.

Lemma record_ok_encodes r : record_ok r -> encode_wal_record r = Ok (record_bytes r).
Proof. intros [_ [bytes He]]. unfold record_bytes. by rewrite He. Qed.

Lemma record_ok_decodes r rest : record_ok r ->
  decode_wal_record (record_bytes r ++ rest) =
  Ok (MkWalDecodeResult (Some r) WalDecodeError.none (size (record_bytes r))).
Proof. intros Hr. apply decode_encoded; [apply Hr|by apply record_ok_encodes]. Qed.

Lemma record_bytes_pos r : record_ok r -> 0 < size (record_bytes r).
Proof.
  intros Hr. pose proof (record_ok_decodes r [] Hr) as Hd. rewrite app_nil_r in Hd.
  destruct (decode_wal_record_cases (record_bytes r)) as (d & Hd' & Hc). rewrite Hd in Hd'. injection Hd' as <-.
  destruct Hc as [(r' & n & [= -> <-] & _ & Hn)|(e & [=] & _)]. lia.
Qed.

Lemma log_bytes_length records : Forall record_ok records -> size records <= size (log_bytes records).
Proof.
  induction 1 as [|r records Hr _ IH]; [done|]. unfold log_bytes in *. cbn [map concat].
  rewrite size_app, size_cons. pose proof (record_bytes_pos r Hr). lia.
Qed.

(** Any prefix of the log parses as the records it holds whole, and a torn one. *)
Lemma log_prefix records k :
  Forall record_ok records ->
  exists j torn, (j <= length records)%nat /\
    take k (log_bytes records) = log_bytes (take j records) ++ torn /\
    log_parse decode_wal_record (take k (log_bytes records)) (take j records) (size (log_bytes (take j records)))
      (if decide (torn = []) then log_clean else log_tail (size torn)) /\
    (forall n, (n <= length records)%nat -> (length (log_bytes (take n records)) <= k)%nat -> (n <= j)%nat).
Proof.
  intros Hall. revert k. induction Hall as [|r records Hr _ IH]; intros k.
  { exists 0%nat, []. rewrite (decide_True _ _ eq_refl). unfold log_bytes. cbn [take map concat app]. rewrite take_nil. split; [done|]. split; [done|].
    split; [constructor|done]. }
  pose proof (record_bytes_pos r Hr) as Hpos. unfold log_bytes. cbn [map concat]. fold (log_bytes records).
  destruct (decide (k < length (record_bytes r))%nat) as [Hk|Hk].
  - exists 0%nat, (take k (record_bytes r)). rewrite take_app_le by lia. cbn [take map concat app].
    split; [simpl; lia|]. split; [done|].
    split; [|intros [|n] _; [done|cbn [take map concat]; rewrite length_app; lia]].
    destruct (decide (take k (record_bytes r) = [])) as [Hnil|Hne]; [rewrite Hnil; constructor|].
    apply log_parse_tail; [done|].
    eapply (decode_encoded_prefix r _ (drop k (record_bytes r))); [apply Hr| |].
    + rewrite take_drop. by apply record_ok_encodes.
    + intros Hd. apply (f_equal length) in Hd. rewrite length_drop in Hd. simpl in Hd. lia.
  - destruct (IH (k - length (record_bytes r))%nat) as (j & torn & Hj & Htake & Hparse & Hfull).
    exists (S j), torn. rewrite take_app_ge by lia. cbn [take map concat]. fold (log_bytes (take j records)).
    split; [simpl; lia|]. split; [by rewrite Htake, app_assoc|]. split.
    + rewrite size_app. apply log_parse_record; [by apply record_ok_decodes|done|done|done].
    + intros [|n] Hn; [lia|]. cbn [take map concat]. rewrite length_app. intros Hle.
      apply le_n_S, Hfull; [simpl in Hn; lia|]. unfold log_bytes. lia.
Qed.

Lemma log_bytes_take_mono records j n :
  (j <= n)%nat -> (length (log_bytes (take j records)) <= length (log_bytes (take n records)))%nat.
Proof.
  intros Hj. rewrite <-(take_drop j (take n records)), take_take, Nat.min_l, log_bytes_app, length_app by done. lia.
Qed.

(** ** The records' view *)

Definition records_view (records : list WalPutRecord) (base : view) : view :=
  foldl (fun v r => view_put (series r) (sample r) v) base records.

Definition memtable_of (records : list WalPutRecord) : MemTable :=
  foldl (fun m r => memtable_put m (series r) (sample r)) empty_memtable records.

#[export] Instance records_view_proper records : Proper ((≡) ==> (≡)) (records_view records).
Proof.
  unfold records_view. induction records as [|r records IH]; intros f g H; [done|]. cbn [foldl].
  apply IH. by rewrite H.
Qed.

Lemma records_view_snoc records r base :
  records_view (records ++ [r]) base = view_put (series r) (sample r) (records_view records base).
Proof. unfold records_view. by rewrite foldl_app. Qed.

Lemma memtable_of_snoc records r :
  memtable_of (records ++ [r]) = memtable_put (memtable_of records) (series r) (sample r).
Proof. unfold memtable_of. by rewrite foldl_app. Qed.

Lemma memtable_of_ok records : Forall record_ok records -> MemTable_ok (memtable_of records).
Proof.
  induction records as [|r records IH] using rev_ind; [intros _; apply empty_memtable_ok|].
  intros [Hall Hr]%Forall_app. rewrite memtable_of_snoc. apply Forall_inv in Hr as [[Hs Hx] _].
  apply memtable_put_ok; auto.
Qed.

Lemma memtable_of_view records base :
  view_merge (memtable_view (memtable_of records)) base ≡ records_view records base.
Proof.
  induction records as [|r records IH] using rev_ind; [done|].
  rewrite memtable_of_snoc, records_view_snoc, memtable_put_view, view_merge_put. by rewrite IH.
Qed.

Lemma memtable_of_total records :
  Forall record_ok records -> (total_samples (series_ (memtable_of records)) <= length records)%nat.
Proof.
  induction records as [|r records IH] using rev_ind; [done|]. intros [Hall Hr]%Forall_app.
  rewrite memtable_of_snoc, memtable_put_total by by apply memtable_of_ok.
  rewrite length_app. simpl. specialize (IH Hall). case_match; lia.
Qed.

Lemma memtable_of_empty records :
  Forall record_ok records -> size records <= max_u64 ->
  memtable_empty (memtable_of records) = bool_decide (records = []).
Proof.
  intros Hall Hmax. pose proof (memtable_of_ok _ Hall) as Hok. pose proof (memtable_of_total _ Hall) as Htotal.
  unfold memtable_empty. rewrite (proj2 (proj2 Hok)), u64_small by (unfold in_u, size, max_u64 in *; lia).
  case_bool_decide as Hr; [by subst|]. apply Z.eqb_neq. intros Hz.
  destruct (memtable_view_count _ Hok) as (l & _ & Hl & Hin).
  destruct (exists_last Hr) as (records' & r & ->). clear Hr.
  assert ((series r, timestamp (sample r)) ∈ l) as Hx.
  { apply Hin. rewrite memtable_of_snoc, (memtable_put_view _ _ _ _ _), view_put_same. eauto. }
  destruct l; [by apply elem_of_nil in Hx|]. simpl in Hl. lia.
Qed.

(** Replaying records that are already there, in full, changes nothing. *)
Lemma records_view_elem records base s t :
  records_view records base s t = records_view records view_empty s t \/
  records_view records view_empty s t = None /\ records_view records base s t = base s t.
Proof.
  induction records as [|r records IH] using rev_ind; [by right|].
  rewrite !records_view_snoc. unfold view_put. destruct (decide _) as [[-> ->]|]; [by left|done].
Qed.

Lemma records_view_twice records base : records_view records (records_view records base) ≡ records_view records base.
Proof.
  intros s t. destruct (records_view_elem records (records_view records base) s t) as [H|[_ H]]; [|done].
  destruct (records_view_elem records base s t) as [H'|[H0 H']]; [by rewrite H, H'|].
  destruct (records_view_elem records (records_view records base) s t) as [H1|[_ H1]]; [|done].
  pose proof (memtable_of_view records (records_view records base) s t) as Hm.
  pose proof (memtable_of_view records view_empty s t) as Hm0. unfold view_merge in *.
  rewrite <-Hm0 in H0. destruct (memtable_view (memtable_of records) s t); [done|]. by rewrite <-Hm.
Qed.

(** ** The manifest and its segments *)

Record persisted (f : fsys) (dir : string) (m : ManifestState) (bss : list (list SegmentBlock)) : Prop := {
  persisted_generation : in_u 64 (generation m);
  persisted_names : exists ks, segment_files m = map segment_name ks /\ NoDup ks /\
    Forall (fun k => 1 <= k <= generation m) ks;
  persisted_size : size (segment_files m) <= max_manifest_segments;
  persisted_segments : Forall2 (fun name bs => segment_ok bs /\
    durable f (Path dir name) (Some (segment_bytes bs))) (segment_files m) bss;
  persisted_count : exists n, view_count (segments_view bss) n /\ logical_sample_count m = Z.of_nat n;
  persisted_manifest : durable f (manifest_path dir) (Some (manifest_bytes m)) \/
    m = empty_manifest /\ durable f (manifest_path dir) None;
}.

(** The files [persisted] speaks of. *)
Definition live (dir : string) (m : ManifestState) (q : path) : Prop :=
  q = manifest_path dir \/ exists name, name ∈ segment_files m /\ q = Path dir name.

Lemma persisted_mono f f' dir m bss :
  (forall q c, live dir m q -> durable f q c -> durable f' q c) ->
  persisted f dir m bss -> persisted f' dir m bss.
Proof.
  intros Hlive [Hg Hn Hs Hseg Hc Hm]. split; try done.
  - assert (forall name, name ∈ segment_files m -> live dir m (Path dir name)) as Hl by (intros; right; eauto).
    clear Hc. revert Hseg Hl. generalize (segment_files m). intros names Hseg.
    induction Hseg as [|name bs names bss [Hbs Hd] _ IH]; intros Hl; constructor.
    + split; [done|]. apply Hlive; [apply Hl; left|done].
    + apply IH. intros n Hin. apply Hl. by right.
  - destruct Hm as [Hm|[-> Hm]]; [left|right; split; [done|]]; (apply Hlive; [by left|done]).
Qed.

Lemma persisted_kept f f' dir m bss :
  (forall q, live dir m q -> kept f f' q) -> persisted f dir m bss -> persisted f' dir m bss.
Proof. intros Hk. apply persisted_mono. intros q c Hq. apply kept_durable. by apply Hk. Qed.

Lemma persisted_crash f f' dir m bss : crash f f' -> persisted f dir m bss -> persisted f' dir m bss.
Proof. intros Hc. apply persisted_mono. intros q c _ Hd. by eapply durable_crash. Qed.

Lemma persisted_segment_ok f dir m bss : persisted f dir m bss -> Forall segment_ok bss.
Proof.
  intros H. pose proof (persisted_segments _ _ _ _ H) as Hall. clear H. revert Hall. generalize (segment_files m).
  intros names Hall. induction Hall as [|? ? ? ? [? _] _ IH]; by constructor.
Qed.

Lemma persisted_length f dir m bss : persisted f dir m bss -> length (segment_files m) = length bss.
Proof. intros H. by eapply Forall2_length, persisted_segments. Qed.

Lemma names_in_range f dir m bss : persisted f dir m bss ->
  forall name, name ∈ segment_files m -> exists k, name = segment_name k /\ 1 <= k <= generation m.
Proof.
  intros H name Hn. destruct (persisted_names _ _ _ _ H) as (ks & Heq & _ & Hall). rewrite Heq in Hn.
  apply list_elem_of_fmap in Hn as (k & -> & Hk). rewrite Forall_forall in Hall. eauto.
Qed.

(** The name of the next generation is not taken. *)
Lemma next_name_fresh f dir m bss k :
  persisted f dir m bss -> generation m < k -> in_u 64 k -> segment_name k ∉ segment_files m.
Proof.
  intros H Hk Hu Hin. pose proof (persisted_generation _ _ _ _ H) as Hg.
  destruct (names_in_range _ _ _ _ H _ Hin) as (k' & Heq & Hk').
  apply segment_name_inj in Heq; [lia|done|unfold in_u in *; lia].
Qed.

(** The manifest's number of samples fits. *)
Lemma persisted_count_bound f dir m bss :
  persisted f dir m bss -> logical_sample_count m <= size (flat_map pairs_in bss) <= 25600000000000.
Proof.
  intros H. destruct (persisted_count _ _ _ _ H) as (n & Hn & ->).
  pose proof (persisted_segment_ok _ _ _ _ H) as Hok. pose proof (segments_count bss n Hok Hn) as Hb.
  pose proof (persisted_length _ _ _ _ H) as Hl. pose proof (persisted_size _ _ _ _ H) as Hs.
  unfold max_manifest_segments, size in *. lia.
Qed.

Lemma persisted_manifest_ok f dir m bss : persisted f dir m bss -> ManifestState_ok m.
Proof.
  intros H. pose proof (persisted_count_bound _ _ _ _ H). destruct (persisted_count _ _ _ _ H) as (n & _ & Hn).
  split; [apply H|]. split; [unfold in_u; lia|]. split; [apply H|].
  destruct (persisted_names _ _ _ _ H) as (ks & -> & Hnd & Hall). pose proof (persisted_generation _ _ _ _ H) as Hg.
  split.
  - clear -Hnd Hall Hg. induction Hnd as [|k ks Hk Hnd IH]; simpl; constructor.
    + apply Forall_cons in Hall as [Hk' Hall]. intros (k' & Heq & Hin)%list_elem_of_fmap.
      rewrite Forall_forall in Hall. specialize (Hall k' Hin).
      apply segment_name_inj in Heq; [by subst|unfold in_u in *; lia..].
    + apply IH. by apply Forall_cons in Hall as [_ ?].
  - apply Forall_forall. intros name (k & -> & _)%list_elem_of_fmap. apply segment_name_valid.
Qed.

(** Names of this kind always fit the manifest. *)
Lemma segment_names_fit ks :
  size (map segment_name ks) <= max_manifest_segments -> Forall (fun f => string_size f <= max_u32) (map segment_name ks) /\
  size (le_filenames (map segment_name ks)) <= max_manifest_payload_size.
Proof.
  intros Hs. split.
  - apply Forall_forall. intros name (k & -> & _)%list_elem_of_fmap. rewrite segment_name_size. done.
  - assert (size (le_filenames (map segment_name ks)) = 36 * size ks) as ->.
    { clear Hs. induction ks as [|k ks IH]; [done|]. cbn [map le_filenames].
      rewrite size_app, size_le_string, segment_name_size, size_cons, IH. lia. }
    unfold max_manifest_segments, max_manifest_payload_size, size in *. rewrite length_map in Hs. lia.
Qed.

Lemma persisted_fits f dir m bss : persisted f dir m bss -> ManifestState_fits m.
Proof.
  intros H. pose proof (persisted_size _ _ _ _ H) as Hs. destruct (persisted_names _ _ _ _ H) as (ks & Heq & _).
  unfold ManifestState_fits. rewrite Heq in *. by apply segment_names_fit.
Qed.

(** ** The log file

    [log_state f dir bytes]: the file holds [bytes], and a power loss cuts it. *)
Definition log_state (f : fsys) (dir : string) (i : nat) (bytes : list byte) : Prop :=
  now (entry f (wal_path dir)) = Some i /\
  (forall e, e ∈ possible (entry f (wal_path dir)) -> e = Some i \/ e = None) /\
  now (inode f i) = bytes /\
  forall v, v ∈ possible (inode f i) -> exists k, v = take k bytes.

Lemma log_state_now f dir i bytes : log_state f dir i bytes -> now (entry f (wal_path dir)) = Some i.
Proof. by intros (? & _). Qed.

(** What a power loss can leave of the log is a prefix of [bytes], or no file. *)
Definition log_within (f : fsys) (dir : string) (bytes : list byte) : Prop :=
  forall r, after_crash f (wal_path dir) r -> r = None \/ exists k, r = Some (take k bytes).

Lemma log_state_within f dir i bytes : log_state f dir i bytes -> log_within f dir bytes.
Proof.
  intros (_ & He & _ & Hv) r (e & Hin & Hr). destruct (He e Hin) as [-> | ->]; [|by left].
  destruct Hr as (v & Hin' & ->). destruct (Hv v Hin') as (k & ->). right. eauto.
Qed.

Lemma log_within_prefix f dir l l' : log_within f dir l -> log_within f dir (l ++ l').
Proof.
  intros H r Hr. destruct (H r Hr) as [|(k & ->)]; [by left|]. right.
  exists (Nat.min k (length l)). f_equal. rewrite take_app_le by lia.
  destruct (Nat.le_gt_cases k (length l)); [by rewrite Nat.min_l by lia|].
  by rewrite Nat.min_r, !firstn_all2 by lia.
Qed.

Lemma log_state_kept f f' dir i bytes :
  kept f f' (wal_path dir) -> log_state f dir i bytes -> log_state f' dir i bytes.
Proof.
  intros Hk (Hn & He & Hb & Hv). pose proof Hk as [_ Hi]. rewrite <-(Hi i Hn) in Hb, Hv.
  split; [by rewrite (kept_now _ _ _ Hk)|]. split; [|by split].
  intros e Hin. apply He. by eapply kept_possible.
Qed.

Lemma log_within_kept f f' dir i bytes :
  kept f f' (wal_path dir) -> log_state f dir i bytes -> log_within f' dir bytes.
Proof. intros Hk Hl. by eapply log_state_within, log_state_kept. Qed.

Lemma log_state_file f dir i bytes : log_state f dir i bytes -> file_of f (wal_path dir) = Some bytes.
Proof. intros (Hn & _ & Hb & _). unfold file_of. by rewrite Hn, Hb. Qed.

(** ** The file system under an engine *)

Definition reader_at (dir : string) (name : string) (bs : list SegmentBlock) : SegmentReader :=
  segment_reader (Path dir name) bs.

Record engine_ok (f : fsys) (dir : string) (e : StorageEngine) (bss : list (list SegmentBlock))
    (records : list WalPutRecord) : Prop := {
  ok_fs : fs_ok f;
  ok_directory : database_directory_ e = dir;
  ok_usable : engine_failed_ e = false;
  ok_records : Forall record_ok records;
  ok_memtable : memtable_ e = memtable_of records;
  ok_persisted : persisted f dir (manifest_ e) bss;
  ok_segments : segments_ e = zip_with (reader_at dir) (segment_files (manifest_ e)) bss;
  ok_writer : exists i, usable (wal_writer_ e) i /\ path_ (wal_writer_ e) = wal_path dir /\
    log_state f dir i (log_bytes records);
  ok_log_size : size_bytes_ (wal_writer_ e) = size (log_bytes records);
  ok_log_max : size (log_bytes records) <= max_u64;
  ok_count : exists n, view_count (engine_view e bss) n /\ logical_sample_count_ e = u64 (Z.of_nat n);
}.

Lemma engine_ok_readers f dir e bss records :
  engine_ok f dir e bss records -> Forall2 (reader_holds f) (segments_ e) bss.
Proof.
  intros H. rewrite (ok_segments _ _ _ _ _ H).
  pose proof (persisted_segments _ _ _ _ (ok_persisted _ _ _ _ _ H)) as Hseg. clear H. revert Hseg.
  generalize (segment_files (manifest_ e)). intros names Hseg.
  induction Hseg as [|name bs names bss [Hbs Hd] _ IH]; simpl; constructor; [|done].
  split; [done|]. exists (Path dir name). split; [done|]. by apply durable_file_of.
Qed.

(** The queries' part of the invariant. *)
Lemma engine_ok_holds f dir e bss records : engine_ok f dir e bss records -> engine_holds f e bss.
Proof.
  intros H. split; [apply H|]. split.
  - rewrite (ok_memtable _ _ _ _ _ H). apply memtable_of_ok, H.
  - by eapply engine_ok_readers.
Qed.

Lemma engine_ok_view f dir e bss records :
  engine_ok f dir e bss records -> engine_view e bss ≡ records_view records (segments_view bss).
Proof. intros H. unfold engine_view. rewrite (ok_memtable _ _ _ _ _ H). apply memtable_of_view. Qed.

(** The MemTable's number of samples is below 2^64, as the log it comes from. *)
Lemma engine_ok_records_max f dir e bss records : engine_ok f dir e bss records -> size records <= max_u64.
Proof.
  intros H. pose proof (log_bytes_length _ (ok_records _ _ _ _ _ H)). pose proof (ok_log_max _ _ _ _ _ H). lia.
Qed.

(** Reading files leaves the invariant. *)
Lemma engine_ok_fs f f' dir e bss records : f' = f -> engine_ok f dir e bss records -> engine_ok f' dir e bss records.
Proof. by intros ->. Qed.

(** ** Changes to one inode *)

Definition only_inode (f : fsys) (i : nat) (f' : fsys) : Prop :=
  (forall p, entry f' p = entry f p) /\ next_inode f' = next_inode f /\
  forall j, j <> i -> inode f' j = inode f j.

Lemma appended_only f i b f' : appended f i b f' -> only_inode f i f'.
Proof. intros (He & Hn & Hi). split; [done|]. split; [done|]. intros j Hj. by rewrite Hi, decide_False. Qed.
Lemma synced_only f i f' : synced f i f' -> only_inode f i f'.
Proof. intros (He & Hn & Hi). split; [done|]. split; [done|]. intros j Hj. by rewrite Hi, decide_False. Qed.
Lemma emptied_only f i f' : emptied f i f' -> only_inode f i f'.
Proof. intros (He & Hn & Hi). split; [done|]. split; [done|]. intros j Hj. by rewrite Hi, decide_False. Qed.

Lemma only_inode_names f i f' : only_inode f i f' -> forall p, entry f' p = entry f p.
Proof. by intros (? & _). Qed.

Lemma only_inode_refl f i : only_inode f i f.
Proof. by split_and!. Qed.

Lemma only_inode_trans f1 f2 f3 i : only_inode f1 i f2 -> only_inode f2 i f3 -> only_inode f1 i f3.
Proof.
  intros (He & Hn & Hi) (He' & Hn' & Hi'). split; [intros p; by rewrite He'|]. split; [congruence|].
  intros j Hj. by rewrite Hi', Hi.
Qed.

Lemma only_inode_ok f i f' : only_inode f i f' -> fs_ok f -> fs_ok f'.
Proof.
  intros (He & Hn & _) [Hlt Hinj]. split.
  - intros p j. rewrite He, Hn. apply Hlt.
  - intros p q j. rewrite !He. apply Hinj.
Qed.

Lemma only_inode_kept f i f' q : only_inode f i f' -> now (entry f q) <> Some i -> kept f f' q.
Proof.
  intros (He & _ & Hi) Hq. split; [by left|]. intros j Hj. apply Hi. congruence.
Qed.

(** The log is none of the live files. *)
Lemma live_not_wal f dir m bss q : persisted f dir m bss -> live dir m q -> q <> wal_path dir.
Proof.
  intros H [-> |(name & Hn & ->)]; [done|]. destruct (names_in_range _ _ _ _ H _ Hn) as (k & -> & _).
  intros [=].
Qed.

Lemma persisted_log_change f f' dir m bss i :
  fs_ok f -> now (entry f (wal_path dir)) = Some i -> only_inode f i f' ->
  persisted f dir m bss -> persisted f' dir m bss.
Proof.
  intros [_ Hinj] Hi Ho H. apply (persisted_kept f); [|done]. intros q Hq.
  apply (only_inode_kept _ i); [done|]. intros Hn.
  apply (live_not_wal _ _ _ _ _ H Hq), (Hinj _ _ i); done.
Qed.

(** ** What becomes of the log *)

Lemma take_log k n (l b : list byte) : exists j, take k (l ++ take n b) = take j (l ++ b).
Proof.
  exists (Nat.min k (length l + n)). rewrite <-take_take. f_equal.
  by rewrite take_app_add.
Qed.

Lemma log_state_appended f dir i log b f' :
  log_state f dir i log -> appended f i b f' -> log_state f' dir i (log ++ b).
Proof.
  intros (Hn & He & Hb & Hv) Ha. pose proof Ha as (He' & _ & _). split; [by rewrite He'|].
  split; [intros e; rewrite He'; apply He|]. split; [by rewrite (appended_now _ _ _ _ Ha), Hb|].
  intros v Hin. apply (appended_possible _ _ _ _ _ Ha) in Hin as [Hin|(k & ->)].
  - destruct (Hv v Hin) as (k & ->). destruct (take_log k 0 log b) as (j & Hj).
    rewrite take_0, app_nil_r in Hj. eauto.
  - exists (length log + k)%nat. rewrite Hb. by rewrite take_app_add.
Qed.

Lemma log_state_synced f dir i log f' :
  log_state f dir i log -> synced f i f' -> log_state f' dir i log /\ inode f' i = settled log.
Proof.
  intros (Hn & He & Hb & Hv) (He' & _ & Hi). assert (inode f' i = settled log) as Hs.
  { rewrite Hi, decide_True by done. unfold settle. by rewrite Hb. }
  split; [|done]. split; [by rewrite He'|]. split; [intros e; rewrite He'; apply He|].
  rewrite Hs. split; [done|]. intros v Hin. apply possible_settled in Hin as ->.
  exists (length log). by rewrite firstn_all.
Qed.

Lemma log_within_take f dir k l : log_within f dir (take k l) -> log_within f dir l.
Proof.
  intros H r Hr. destruct (H r Hr) as [|(j & ->)]; [by left|right]. rewrite take_take. eauto.
Qed.

(** What a power loss can leave of the log it could leave before, or satisfies [P]. *)
Definition log_moved (f f' : fsys) (dir : string) (P : list byte -> Prop) : Prop :=
  forall r, after_crash f' (wal_path dir) r -> after_crash f (wal_path dir) r \/ exists v, r = Some v /\ P v.

Definition nothing_new : list byte -> Prop := fun _ => False.

Lemma log_moved_refl f dir P : log_moved f f dir P.
Proof. intros r Hr. by left. Qed.

Lemma log_moved_same f f' dir P : f' = f -> log_moved f f' dir P.
Proof. intros ->. apply log_moved_refl. Qed.

Lemma log_moved_trans f1 f2 f3 dir P : log_moved f1 f2 dir P -> log_moved f2 f3 dir P -> log_moved f1 f3 dir P.
Proof. intros H1 H2 r Hr. destruct (H2 r Hr) as [|]; [by apply H1|by right]. Qed.

Lemma log_moved_mono f f' dir (P Q : list byte -> Prop) :
  (forall v, P v -> Q v) -> log_moved f f' dir P -> log_moved f f' dir Q.
Proof. intros HPQ H r Hr. destruct (H r Hr) as [|(v & -> & Hv)]; [by left|right; eauto]. Qed.

Lemma log_moved_inode f f' dir i log (P : list byte -> Prop) :
  log_state f dir i log -> (forall p, entry f' p = entry f p) ->
  (forall v, v ∈ possible (inode f' i) -> v ∈ possible (inode f i) \/ P v) -> log_moved f f' dir P.
Proof.
  intros (_ & He & _ & _) Hn Hv r (e & Hin & Hr). rewrite Hn in Hin.
  destruct (He e Hin) as [-> | ->]; [|left; by exists None].
  destruct Hr as (v & Hin' & ->). destruct (Hv v Hin') as [Hold|HP]; [left|right; eauto].
  exists (Some i). split; [done|]. by exists v.
Qed.

Lemma log_moved_kept f f' dir i log P : kept f f' (wal_path dir) -> log_state f dir i log -> log_moved f f' dir P.
Proof.
  intros Hk (Hn & He & _ & _) r (e & Hin & Hr). left. apply (kept_possible _ _ _ _ Hk) in Hin.
  exists e. split; [done|]. destruct (He e Hin) as [-> | ->]; [|done].
  destruct Hk as [_ Hi]. by rewrite <-(Hi i Hn).
Qed.

Lemma log_moved_appended f f' dir i log b k :
  log_state f dir i log -> appended f i (take k b) f' ->
  log_moved f f' dir (fun v => exists k, v = log ++ take k b).
Proof.
  intros Hl Ha. pose proof Hl as (_ & _ & Hb & _). apply (log_moved_inode _ _ _ i log); [done|apply Ha|].
  intros v Hv. destruct (appended_possible _ _ _ _ _ Ha Hv) as [|(j & ->)]; [by left|right].
  rewrite Hb, take_take. eauto.
Qed.

Lemma log_moved_synced f f' dir i log :
  log_state f dir i log -> synced f i f' -> log_moved f f' dir nothing_new.
Proof.
  intros Hl Hs. pose proof Hl as (_ & _ & Hb & _). apply (log_moved_inode _ _ _ i log); [done|apply Hs|].
  intros v Hv. rewrite (synced_possible _ _ _ _ Hs Hv). left. apply possible_now.
Qed.

Lemma log_moved_emptied f f' dir i log :
  log_state f dir i log -> emptied f i f' -> log_moved f f' dir (fun v => v = []).
Proof.
  intros Hl Hs. apply (log_moved_inode _ _ _ i log); [done|apply Hs|].
  destruct Hs as (_ & _ & Hi). intros v. rewrite Hi, decide_True by done. rewrite possible_push. tauto.
Qed.

(** The log's contents are on stable storage; its name may not be. *)
Definition log_synced (f : fsys) (dir : string) (bytes : list byte) : Prop :=
  exists i, now (entry f (wal_path dir)) = Some i /\ inode f i = settled bytes.

(** The name of the log survives a power loss. *)
Definition log_named (f : fsys) (dir : string) : Prop :=
  exists i, entry f (wal_path dir) = settled (Some i).

Lemma log_durable f dir bytes :
  durable f (wal_path dir) (Some bytes) <-> log_named f dir /\ log_synced f dir bytes.
Proof.
  split.
  - intros (i & He & Hi). split; exists i; [done|]. by rewrite He.
  - intros [(i & He) (j & Hj & Hb)]. exists i. rewrite He in Hj. injection Hj as <-. done.
Qed.

(** A step that keeps the log's file keeps both. *)
Lemma log_synced_kept f f' dir bytes : kept f f' (wal_path dir) -> log_synced f dir bytes -> log_synced f' dir bytes.
Proof.
  intros Hk (i & Hn & Hb). exists i. split; [by rewrite (kept_now _ _ _ Hk)|].
  destruct Hk as [_ Hi]. by rewrite (Hi i Hn).
Qed.

Lemma log_named_kept f f' dir : kept f f' (wal_path dir) -> log_named f dir -> log_named f' dir.
Proof. intros [[He|He] _] (i & Hi); exists i; by rewrite He, Hi. Qed.

Lemma log_named_same f f' dir : (forall p, entry f' p = entry f p) -> log_named f dir -> log_named f' dir.
Proof. intros He (i & Hi). exists i. by rewrite He. Qed.
