(* ===== verification/EngineWrite.v ===== *)
(** * Writing to the storage engine

    [put] and [sync]: what they make of a good engine, whatever the system calls
    answer.  A put that returns has added its record to the log and to the
    MemTable; one that does not leaves a log that a power loss cuts to a prefix of
    the records up to and including it. *)

From stdpp Require Import base tactics option numbers list strings gmap.
From Stdlib Require Import ZArith Lia.
From S2P Require Import Prelude Errors World Hoare Model OrdMap View MemTable WalRecord FileIo WalFile WalRecovery SegmentBlock Manifest SegmentFile SegmentFormat BlocksView SegmentQuery StorageEngine EngineView EngineBlocks EngineState.

(** ** The engine's parts *)

Definition with_writer (e : StorageEngine) (writer : WalWriter) : StorageEngine :=
  MkStorageEngine (database_directory_ e) (memtable_ e) (manifest_ e) (segments_ e) writer
    (logical_sample_count_ e) (engine_failed_ e).

Definition failed (e : StorageEngine) : StorageEngine :=
  MkStorageEngine (database_directory_ e) (memtable_ e) (manifest_ e) (segments_ e) (wal_writer_ e)
    (logical_sample_count_ e) true.

Lemma wp_in_wal {A} (m : M (world * WalWriter) A) (s : world * StorageEngine) Q :
  wp m (s.1, wal_writer_ s.2) (fun o t => Q o (t.1, with_writer s.2 t.2)) -> wp (in_wal m) s Q.
Proof. unfold wp, in_wal, zoom. by destruct (m _) as [o t]. Qed.

(** A failure of the guarded part marks the engine. *)
Lemma wp_or_failed {A} (m : M (world * StorageEngine) A) s Q :
  wp m s (fun o s' => match o with Raised e => Q (Raised e) (s'.1, failed s'.2) | _ => Q o s' end) ->
  wp (on_exception m set_engine_failed) s Q.
Proof.
  intros H. apply wp_on_exception. eapply wp_mono; [exact H|]. intros [a|e|] s' Hs'; [done| |done].
  by apply wp_set_this.
Qed.

(** The state of an engine that can go on, or has been marked. *)
Definition stopped (st st' : world * StorageEngine) : Prop :=
  (st'.2 = st.2 /\ fs st'.1 = fs st.1) \/ engine_failed_ st'.2 = true.

(** ** [contains] *)

Lemma wp_contains s t bss st :
  engine_holds (fs st.1) st.2 bss ->
  wp (contains s t) st
    (observing (fun b => b = bool_decide (is_Some (engine_view st.2 bss s t))) no_throw st).
Proof.
  intros (Hu & Hm & Hall). unfold contains. wp_step. unfold this, wp at 1. cbn [fst snd and_then].
  eapply wp_observing_bind.
  { apply wp_observing_lift; [result_is|]. intros x. by rewrite memtable_get_spec. }
  intros o st1 Ho He Hf. rewrite memtable_get_spec in Ho by done. injection Ho as <-.
  unfold engine_view, view_merge.
  destruct (memtable_view (memtable_ st.2) s t) as [v|]; cbn [fmap option_fmap option_map].
  - apply wp_observing_ret. symmetry. by apply bool_decide_eq_true_2.
  - apply wp_observing_in_world. rewrite <-Hf in Hall. by apply wp_contains_in_segments.
Qed.

(** ** [WalWriter::append], on every path *)

Lemma wal_append_refused r i s :
  usable s.2 i ->
  match encode_wal_record r with
  | Err _ => True
  | Ok encoded => max_u64 < size_bytes_ s.2 + size encoded
  end ->
  wp (wal_append r) s (fun o s' => (exists e, o = Raised e) /\ s' = s).
Proof.
  intros Hu Hr. unfold wal_append. wp_step. apply (wp_ensure_usable i); [done|]. cbn [and_then].
  wp_step. unfold lift, wp at 1. destruct (encode_wal_record r) as [encoded|e]; cbn [fst snd and_then]; [|eauto].
  wp_step. unfold this, wp at 1. cbn [fst snd and_then].
  wp_step. apply wp_throw_when; intros Hc; bool_to_prop; [|lia]. cbn [and_then]. eauto.
Qed.

(** ** [put] *)

(** The record does not fit: its key or its payload is too large, or the log is full. *)
Definition put_refused (e : StorageEngine) (r : WalPutRecord) : Prop :=
  match encode_wal_record r with
  | Err _ => True
  | Ok encoded => max_u64 < wal_size_bytes (wal_writer_ e) + size encoded
  end.

Lemma put_fits e r :
  put_refused e r \/ exists encoded, encode_wal_record r = Ok encoded /\ size_bytes_ (wal_writer_ e) + size encoded <= max_u64.
Proof.
  unfold put_refused, wal_size_bytes. destruct (encode_wal_record r) as [encoded|err]; [|by left].
  destruct (Z.lt_ge_cases max_u64 (size_bytes_ (wal_writer_ e) + size encoded)); [by left|right; eauto].
Qed.

(** Every name keeps its binding. *)
Definition same_names (f f' : fsys) : Prop := forall p, entry f' p = entry f p.

(** What a power loss may find of the log if a [put] has begun. *)
Definition put_log (records : list WalPutRecord) (r : WalPutRecord) (v : list byte) : Prop :=
  record_ok r /\ size (log_bytes (records ++ [r])) <= max_u64 /\
  exists k, v = log_bytes records ++ take k (record_bytes r).

Definition put_post (dir : string) (bss : list (list SegmentBlock)) (records : list WalPutRecord)
    (r : WalPutRecord) (st : world * StorageEngine) (o : outcome unit) (st' : world * StorageEngine) : Prop :=
  same_names (fs st.1) (fs st'.1) /\
  persisted (fs st'.1) dir (manifest_ st.2) bss /\
  log_moved (fs st.1) (fs st'.1) dir (put_log records r) /\
  match o with
  | Done _ =>
    engine_ok (fs st'.1) dir st'.2 bss (records ++ [r]) /\ record_ok r /\
    durability_ (wal_writer_ st'.2) = durability_ (wal_writer_ st.2) /\
    manifest_ st'.2 = manifest_ st.2 /\
    (durability_ (wal_writer_ st.2) = sync_on_append -> log_synced (fs st'.1) dir (log_bytes (records ++ [r]))) /\
    (faulty st'.1 -> faulty st.1)
  | Raised _ => stopped st st' /\ (faulty st.1 \/ put_refused st.2 r)
  | Crashed => faulty st.1
  end.

Lemma view_put_bool f n s x :
  view_count f n ->
  view_count (view_put s x f) (if bool_decide (is_Some (f s (timestamp x))) then n else S n).
Proof.
  intros Hn. pose proof (view_count_put f n s x Hn) as H. destruct (f s (timestamp x)) as [v|].
  - by rewrite bool_decide_eq_true_2.
  - by rewrite bool_decide_eq_false_2 by by intros [? [=]].
Qed.

Section Put.
Context (dir : string) (bss : list (list SegmentBlock)) (records : list WalPutRecord).
Context (s : SeriesKey) (x : Sample) (Hs : SeriesKey_ok s) (Hx : Sample_ok x).
Abbreviation r := (MkWalPutRecord s x).

Lemma put_record_ok encoded : encode_wal_record r = Ok encoded -> record_ok r /\ record_bytes r = encoded.
Proof. intros He. split; [by split; [|eauto]|]. unfold record_bytes. by rewrite He. Qed.

Section Logged.
Context (f : fsys) (e : StorageEngine) (i : nat) (encoded : list byte).
Hypothesis (Hok : engine_ok f dir e bss records) (Hlog : log_state f dir i (log_bytes records)).
Hypothesis (He : encode_wal_record r = Ok encoded) (Hfit : size_bytes_ (wal_writer_ e) + size encoded <= max_u64).

Lemma put_log_prefix v : (exists k, v = log_bytes records ++ take k encoded) -> put_log records r v.
Proof using Hs Hx Hok He Hfit.
  destruct (put_record_ok encoded He) as [Hrok Hrb]. intros Hv. split; [done|]. split; [|by rewrite Hrb].
  rewrite log_bytes_snoc, size_app, Hrb, <-(ok_log_size _ _ _ _ _ Hok). exact Hfit.
Qed.

(** A part of the record has been written. *)
Lemma put_interrupted k f' :
  appended f i (take k encoded) f' ->
  same_names f f' /\ persisted f' dir (manifest_ e) bss /\ log_moved f f' dir (put_log records r).
Proof using Hs Hx Hok He Hfit Hlog.
  intros Ha. split; [intros p; by eapply only_inode_names, appended_only|]. split.
  - eapply persisted_log_change; [apply Hok|by eapply log_state_now|by eapply appended_only|apply Hok].
  - eapply log_moved_mono; [apply put_log_prefix|]. by eapply log_moved_appended.
Qed.

(** All of it has, and is on stable storage if that was asked for. *)
Lemma put_written f1 f' :
  appended f i encoded f1 ->
  (match durability_ (wal_writer_ e) with sync_on_append => synced f1 i f' | buffered => f' = f1 end) ->
  only_inode f i f' /\ persisted f' dir (manifest_ e) bss /\ log_state f' dir i (log_bytes (records ++ [r])) /\
  log_moved f f' dir (put_log records r) /\
  (durability_ (wal_writer_ e) = sync_on_append -> log_synced f' dir (log_bytes (records ++ [r]))).
Proof using Hs Hx Hok He Hfit Hlog.
  intros Ha Hsync. pose proof (log_state_appended _ _ _ _ _ _ Hlog Ha) as Hlog'.
  assert (log_moved f f1 dir (put_log records r)) as Hm.
  { eapply log_moved_mono; [apply put_log_prefix|]. apply (log_moved_appended _ _ _ i _ _ (length encoded)); [done|]. by rewrite firstn_all. }
  assert (forall f2, only_inode f i f2 -> persisted f2 dir (manifest_ e) bss) as Hper.
  { intros f2 Ho. eapply persisted_log_change; [apply Hok|by eapply log_state_now|exact Ho|apply Hok]. }
  rewrite log_bytes_snoc, (proj2 (put_record_ok encoded He)). destruct (durability_ (wal_writer_ e)).
  - subst f'. assert (only_inode f i f1) as Ho by by eapply appended_only. by split_and!; auto.
  - pose proof (log_state_synced _ _ _ _ _ Hlog' Hsync) as [Hl Hi].
    assert (only_inode f i f') as Ho by (eapply only_inode_trans; [by eapply appended_only|by eapply synced_only]).
    split; [exact Ho|]. split; [auto|]. split; [done|].
    split; [|intros _; exists i; split; [by eapply log_state_now|done]].
    eapply log_moved_trans; [exact Hm|]. eapply log_moved_mono; [|by eapply log_moved_synced]. done.
Qed.

(** The engine with the sample in its MemTable and the counter set. *)
Definition with_sample (count : Z) : StorageEngine :=
  MkStorageEngine (database_directory_ e) (memtable_put (memtable_ e) s x) (manifest_ e) (segments_ e)
    (MkWalWriter (path_ (wal_writer_ e)) (Some i) (durability_ (wal_writer_ e)) (size_bytes_ (wal_writer_ e) + size encoded) false)
    count (engine_failed_ e).

Lemma put_accepted f' n count :
  only_inode f i f' -> persisted f' dir (manifest_ e) bss -> log_state f' dir i (log_bytes (records ++ [r])) ->
  view_count (engine_view e bss) n ->
  count = u64 (Z.of_nat (if bool_decide (is_Some (engine_view e bss s (timestamp x))) then n else S n)) ->
  engine_ok f' dir (with_sample count) bss (records ++ [r]).
Proof using Hs Hx Hok He Hfit.
  destruct (put_record_ok encoded He) as [Hrok Hrb].
  pose proof Hok as [Hfs Hdir Hu Hrec Hmem Hper Hseg (i' & Hus & Hp & _) Hsize Hmax _].
  intros Honly Hper' Hlog' Hn Hc. split; try done.
  - by eapply only_inode_ok.
  - apply Forall_app. split; [done|]. by constructor.
  - rewrite memtable_of_snoc. cbn [memtable_ with_sample]. by rewrite Hmem.
  - exists i. split; [by split|]. by split.
  - cbn [wal_writer_ with_sample size_bytes_]. rewrite log_bytes_snoc, size_app, Hrb. by rewrite Hsize.
  - rewrite log_bytes_snoc, size_app, Hrb, <-Hsize. done.
  - eexists. split; [|exact Hc]. assert (engine_view (with_sample count) bss ≡ view_put s x (engine_view e bss)) as ->.
    { unfold engine_view. cbn [memtable_ with_sample]. by rewrite memtable_put_view, view_merge_put. }
    by apply view_put_bool.
Qed.
End Logged.

(** The guarded part, after [contains] has answered. *)
Lemma wp_put_logged e w already :
  engine_ok (fs w) dir e bss records -> already = bool_decide (is_Some (engine_view e bss s (timestamp x))) ->
  wp (on_exception
       (in_wal (wal_append r);;
        set_memtable (fun m => memtable_put m s x);;
        if negb already then set_logical_sample_count (fun n => u64 (n + 1)) else mret tt)
       set_engine_failed) (w, e) (put_post dir bss records r (w, e)).
Proof.
  intros Hok ->. pose proof Hok as [_ _ _ _ _ Hper _ (i & Hus & Hp & Hlog) _ _ (n & Hn & Hcount)].
  apply wp_or_failed. wp_step. apply wp_in_wal. cbn [fst snd].
  destruct (put_fits e r) as [Href|(encoded & He & Hfit)].
  { eapply wp_mono; [by apply (wal_append_refused r i)|]. intros o st' [(exn & ->) ->]. cbn [and_then fst snd].
    split; [done|]. split; [done|]. split; [apply log_moved_refl|]. split; [by right|by right]. }
  eapply wp_mono; [by apply (wp_wal_append r encoded i)|]. intros o [w' writer]. cbn [fst snd].
  destruct o as [u|exn|]; cbn [and_then append_post fst snd].
  - intros (-> & Hs' & f & Ha & Hsync). wp_step. apply wp_set_this. cbn [and_then fst snd].
    destruct (put_written _ _ i encoded Hok Hlog He Hfit f (fs w') Ha Hsync) as (Honly & Hper' & Hstate & Hmoved & Hsynced).
    assert (forall count, count = u64 (Z.of_nat (if bool_decide (is_Some (engine_view e bss s (timestamp x))) then n else S n)) ->
      put_post dir bss records r (w, e) (Done tt) (w', with_sample e i encoded count)) as Hdone.
    { intros count Hc. split; [intros p; by eapply only_inode_names|]. split; [done|]. split; [done|].
      split; [by apply (put_accepted (fs w) e i encoded Hok He Hfit _ n)|]. split; [apply (put_record_ok encoded He)|done]. }
    case_bool_decide as Hex; cbn [negb].
    + rewrite wp_ret. by apply (Hdone (logical_sample_count_ e)).
    + apply wp_set_this. apply (Hdone (u64 (logical_sample_count_ e + 1))). rewrite Hcount. apply u64_succ.
  - intros ((Hf & _) & (k & Ha) & _ & Hfaulty).
    destruct (put_interrupted _ _ i encoded Hok Hlog He Hfit k _ Ha) as (Hn' & Hd & Hm').
    split; [done|]. split; [done|]. split; [done|]. split; [by right|by left].
  - intros ((k & Ha) & Hfaulty). destruct (put_interrupted _ _ i encoded Hok Hlog He Hfit k _ Ha) as (Hn' & Hd & Hm').
    by split_and!.
Qed.

Lemma wp_engine_put st :
  engine_ok (fs st.1) dir st.2 bss records ->
  wp (engine_put s x) st (put_post dir bss records r st).
Proof.
  intros Hok. pose proof (ok_persisted _ _ _ _ _ Hok) as Hper. unfold engine_put.
  wp_step. apply wp_engine_usable; [apply Hok|]. cbn [and_then].
  wp_step. eapply wp_mono; [apply wp_contains; by eapply engine_ok_holds|].
  intros o [w' e'] [Heq [Hfs Ho]]. cbn [fst snd] in *. subst e'.
  assert (same_names (fs st.1) (fs w')) as Hnames by (intros p; by rewrite Hfs).
  destruct o as [already|exn|]; cbn [and_then].
  - destruct Ho as [Hal Hs']. eapply wp_mono; [apply wp_put_logged; [cbn [fst snd]; by rewrite Hfs|exact Hal]|].
    intros o st' (Hn' & Hd' & Hm' & Ho). cbn [fst snd] in *. rewrite Hfs in Hm'.
    split; [intros p; by rewrite Hn', Hfs|]. split; [done|]. split; [done|].
    destruct o as [u|exn|]; [|split; [|destruct Ho as (_ & [?|?]); auto]|auto].
    2:{ destruct Ho as [[[He Hf]|He] _]; [left|by right]. cbn [fst snd] in *. by rewrite He, Hf. }
    destruct Ho as (? & ? & ? & ? & ? & ?). split_and!; auto.
  - split; [done|]. split; [cbn [fst]; by rewrite Hfs|]. split; [by apply log_moved_same|].
    split; [by left|]. left. by destruct Ho as [?|[]].
  - split; [done|]. split; [cbn [fst]; by rewrite Hfs|]. by split; [apply log_moved_same|].
Qed.
End Put.

(** ** [sync] *)

Definition sync_post (dir : string) (bss : list (list SegmentBlock)) (records : list WalPutRecord)
    (st : world * StorageEngine) (o : outcome unit) (st' : world * StorageEngine) : Prop :=
  (same_names (fs st.1) (fs st'.1) /\ fs_ok (fs st'.1)) /\
  persisted (fs st'.1) dir (manifest_ st.2) bss /\ log_moved (fs st.1) (fs st'.1) dir nothing_new /\
  match o with
  | Done _ => engine_ok (fs st'.1) dir st'.2 bss records /\ st'.2 = st.2 /\
      log_synced (fs st'.1) dir (log_bytes records) /\ (faulty st'.1 -> faulty st.1)
  | Raised _ => engine_failed_ st'.2 = true /\ faulty st.1
  | Crashed => faulty st.1
  end.

Lemma with_same_writer e : with_writer e (wal_writer_ e) = e.
Proof. by destruct e. Qed.

(** The part [sync] and the flush of an empty MemTable share. *)
Lemma wp_sync_log dir bss records st :
  engine_ok (fs st.1) dir st.2 bss records ->
  wp (on_exception (in_wal wal_sync) set_engine_failed) st (sync_post dir bss records st).
Proof.
  intros Hok. pose proof (ok_persisted _ _ _ _ _ Hok) as Hper.
  destruct (ok_writer _ _ _ _ _ Hok) as (i & Hus & Hp & Hlog).
  apply wp_or_failed, wp_in_wal. eapply wp_mono; [by apply (wp_wal_sync i)|].
  intros o [w' writer]. cbn [fst snd]. destruct o as [u|exn|].
  - intros (Hsync & -> & Hs). rewrite with_same_writer. pose proof (log_state_synced _ _ _ _ _ Hlog Hsync) as [Hl Hi].
    pose proof (synced_only _ _ _ Hsync) as Ho.
    assert (persisted (fs w') dir (manifest_ st.2) bss) as Hper'.
    { eapply persisted_log_change; [apply Hok|by eapply log_state_now|done|apply Hok]. }
    split; [split; [intros p; by eapply only_inode_names|eapply only_inode_ok; [done|apply Hok]]|]. split; [done|]. split; [by eapply log_moved_synced|].
    split; [|split; [done|split; [|done]]].
    + destruct Hok. split; try done; [by eapply only_inode_ok|]. by exists i.
    + exists i. split; [by eapply log_state_now|done].
  - intros (_ & Hfs & _ & Hs). split; [split; [intros p|]; cbn [fst]; rewrite Hfs; [done|apply Hok]|]. split; [cbn [fst]; by rewrite Hfs|]. by split; [apply log_moved_same|].
  - intros (Hfs & Hs). split; [split; [intros p|]; cbn [fst]; rewrite Hfs; [done|apply Hok]|]. split; [cbn [fst]; by rewrite Hfs|]. by split; [apply log_moved_same|].
Qed.

Lemma wp_engine_sync dir bss records st :
  engine_ok (fs st.1) dir st.2 bss records ->
  wp engine_sync st (sync_post dir bss records st).
Proof.
  intros Hok. unfold engine_sync. wp_step. apply wp_engine_usable; [apply Hok|]. cbn [and_then].
  by apply wp_sync_log.
Qed.
