(* ===== verification/EngineRecovery.v ===== *)
(** * Opening the storage engine

    [recover] and the constructor: from any disk a power loss (or a clean
    shutdown) leaves of a good engine, opening gives a good engine again.  It holds
    the segments of the manifest and the whole records of the log, its torn tail
    is cut off, and files no manifest names are removed; a power loss during
    recovery leaves a disk that opens the same way. *)

From stdpp Require Import base tactics option numbers list strings gmap.
From Stdlib Require Import ZArith Lia.
From S2P Require Import Prelude Errors World Hoare Model OrdMap View MemTable WalRecord FileIo WalFile WalRecovery SegmentBlock Manifest SegmentFile SegmentFormat BlocksView SegmentQuery StorageEngine EngineView EngineBlocks EngineState EngineWrite.

(** ** The manifest and its segments *)

Lemma wp_load_persisted dir m bss w :
  persisted (fs w) dir m bss -> wp (load_manifest dir) w (reading (fun m' => m' = m) no_throw w).
Proof.
  intros H. pose proof (persisted_manifest_ok _ _ _ _ H) as Hok. pose proof (persisted_fits _ _ _ _ H) as Hfits.
  pose proof (size_manifest_bytes m Hfits) as Hsize.
  destruct (persisted_manifest _ _ _ _ H) as [Hd|[-> Hd]]; apply durable_file_of in Hd as Hfile.
  - eapply wp_reading_mono; [apply wp_load_manifest; rewrite Hfile|..].
    + intros bytes [= <-]. unfold max_manifest_payload_size, max_stream in *. lia.
    + rewrite Hfile, decode_manifest_bytes by done. by intros m' [= ->].
    + intros e (what & bytes & _ & Hb & Hn). rewrite Hfile in Hb. injection Hb as <-.
      apply (Hn m). by apply decode_manifest_bytes.
  - eapply wp_reading_mono; [apply wp_load_manifest; by rewrite Hfile|..]; rewrite Hfile; [done|].
    by intros e (what & bytes & _ & [=] & _).
Qed.

Lemma reader_at_count dir name bs : reader_sample_count (reader_at dir name bs) = u64 (size (pairs_in bs)).
Proof.
  unfold reader_at, segment_reader, reader_of. cbn [reader_sample_count]. by rewrite foldl_entry_counts, sum_counts_pairs.
Qed.

Lemma wp_open_segments dir names bss acc physical w :
  Forall2 (fun name bs => segment_ok bs /\ durable (fs w) (Path dir name) (Some (segment_bytes bs))) names bss ->
  in_u 64 physical ->
  wp (open_segments dir names acc physical) w (reading (fun r =>
    r = (acc ++ zip_with (reader_at dir) names bss, u64 (physical + size (flat_map pairs_in bss)))) no_throw w).
Proof.
  intros Hall. remember (fs w) as f eqn:Hf. symmetry in Hf. revert w Hf acc physical.
  induction Hall as [|name bs names bss [Hbs Hd] _ IH]; intros w Hf acc physical Hp; cbn [open_segments].
  { apply wp_reading_ret. cbn [zip_with flat_map]. rewrite app_nil_r, Z.add_0_r. by rewrite u64_small. }
  eapply wp_reading_bind; [apply wp_open_segment_bytes; [done|rewrite Hf; by apply durable_file_of]|].
  intros r w1 -> Hf1 _. eapply wp_reading_mono; [apply IH; [congruence|apply u64_range]| |done].
  intros r ->. fold (reader_at dir name bs). rewrite reader_at_count. cbn [zip_with flat_map].
  rewrite <-app_assoc, size_app. f_equal. unfold u64. rewrite Z.add_mod_idemp_l by lia.
  rewrite (Z.add_comm physical), <-Z.add_assoc, Z.add_mod_idemp_l by lia. f_equal. lia.
Qed.

(** ** Removing what no manifest names *)

Lemma remove_kept f p q : q <> p -> kept f (set_entry p (push None (entry f p)) f) q.
Proof. intros Hq. split; [|done]. left. by rewrite entry_set_entry, decide_False. Qed.

Lemma remove_ok f p : fs_ok f -> fs_ok (set_entry p (push None (entry f p)) f).
Proof.
  intros [Hlt Hinj]. split.
  - intros q i. rewrite entry_set_entry. case_decide; [|apply Hlt]. rewrite possible_push.
    intros [[=]|Hi]. by apply (Hlt p).
  - intros q q' i. rewrite !entry_set_entry. repeat case_decide; simpl; try done. apply Hinj.
Qed.

(** [sys_remove] of a name, its error ignored. *)
Lemma wp_remove p w (Q : outcome (sysret bool) -> world -> Prop) :
  (forall o w', fs_ok (fs w) -> fs_ok (fs w') -> (forall q, q <> p -> kept (fs w) (fs w') q) ->
     (faulty w' -> faulty w) -> Q (Done o) w') ->
  (forall w', fs_ok (fs w') -> (forall q, q <> p -> kept (fs w) (fs w') q) -> faulty w -> Q Crashed w') ->
  fs_ok (fs w) -> wp (sys_remove p) w Q.
Proof.
  intros H1 H2 Hok. unfold sys_remove. pose proof (remove_ok _ p Hok) as Hrok.
  assert (forall q, q <> p -> kept (fs w) (set_entry p (push None (entry (fs w) p)) (fs w)) q) as Hk by apply remove_kept.
  apply wp_sys_change.
  - intros w1 Hf Hs. destruct (now (entry (fs w) p)); cbn [fst snd] in *; apply H1; rewrite ?Hf; auto using kept_refl.
  - intros e w1 Hf Hs. apply H1; rewrite ?Hf; auto using kept_refl.
  - intros w1 Hf Hs. destruct (now (entry (fs w) p)); cbn [fst snd] in *; apply H2; rewrite ?Hf; auto using kept_refl.
Qed.

Definition kept_unless (P : path -> Prop) (f f' : fsys) : Prop := forall q, ~ P q -> kept f f' q.

Lemma kept_unless_trans P f1 f2 f3 : kept_unless P f1 f2 -> kept_unless P f2 f3 -> kept_unless P f1 f3.
Proof. intros H1 H2 q Hq. eapply kept_trans; [by apply H1|by apply H2]. Qed.

Definition orphan (live_segments : list string) (q : path) : Prop := is_orphan live_segments (filename q) = true.

Lemma wp_remove_orphans live_segments entries w :
  fs_ok (fs w) ->
  wp (remove_orphans live_segments entries) w (fun o w' =>
    fs_ok (fs w') /\ kept_unless (orphan live_segments) (fs w) (fs w') /\
    match o with
    | Done None => faulty w' -> faulty w
    | Done (Some _) => faulty w
    | Raised _ => False
    | Crashed => faulty w
    end).
Proof.
  revert w. induction entries as [|p entries IH]; intros w Hok; cbn [remove_orphans].
  { rewrite wp_ret. split; [done|]. split; [intros q _; apply kept_refl|done]. }
  assert (forall w1, fs_ok (fs w1) -> kept_unless (orphan live_segments) (fs w) (fs w1) -> (faulty w1 -> faulty w) ->
    wp (next ← sys_next_entry;
        match next with
        | SysErr error => mret (Some error)
        | SysOk _ => remove_orphans live_segments entries
        end) w1 (fun o w' => fs_ok (fs w') /\ kept_unless (orphan live_segments) (fs w) (fs w') /\
          match o with
          | Done None => faulty w' -> faulty w
          | Done (Some _) => faulty w
          | Raised _ => False
          | Crashed => faulty w
          end)) as Hnext.
  { intros w1 Hok1 Hk1 Hs1. wp_step. apply wp_sys_query.
    - intros w2 Hf2 Hs2. cbn [and_then]. eapply wp_mono; [apply IH; by rewrite Hf2|].
      intros o w3 (Hok3 & Hk3 & Ho). split; [done|]. split; [eapply kept_unless_trans; [exact Hk1|by rewrite Hf2 in Hk3]|].
      destruct o as [[z|]|e|]; auto.
    - intros e w2 Hf2 Hs2. wp_go. cbv beta. rewrite Hf2. split_and!; auto.
    - intros w2 Hf2 Hs2. cbn [and_then]. cbv beta. rewrite Hf2. split_and!; auto. }
  wp_step. destruct (is_orphan live_segments (filename p)) eqn:Horphan.
  - wp_step. apply wp_remove; [..|done].
    + intros o w1 _ Hok1 Hk Hs. wp_go. apply Hnext; [done| |done]. intros q Hq. apply Hk. by intros ->.
    + intros w1 Hok1 Hk Hs. split; [done|]. split; [|done]. intros q Hq. apply Hk. by intros ->.
  - wp_go. apply Hnext; [done| |done]. intros q _. apply kept_refl.
Qed.

(** What recovery needs is not removed. *)
Lemma live_not_orphan f dir m bss q :
  persisted f dir m bss -> live dir m q \/ q = wal_path dir -> ~ orphan (segment_files m) q.
Proof.
  intros H Hq. unfold orphan, is_orphan.
  destruct Hq as [[-> |(name & Hn & ->)]| ->]; [by vm_compute| |by vm_compute].
  destruct (names_in_range _ _ _ _ H _ Hn) as (k & -> & _). cbn [filename].
  rewrite segment_name_extension, (bool_decide_true (_ ∈ _)) by done. rewrite (bool_decide_true (".cst" = ".cst")) by done.
  rewrite andb_false_r. rewrite bool_decide_false by done. by rewrite andb_false_r.
Qed.

(** ** Replaying the log over the segments *)

Section Replay.
Context (dir : string) (m : ManifestState) (bss : list (list SegmentBlock)) (f0 : fsys).
Context (Hper : persisted f0 dir m bss).

Definition readers : list SegmentReader := zip_with (reader_at dir) (segment_files m) bss.

Lemma readers_hold : Forall2 (reader_holds f0) readers bss.
Proof.
  unfold readers. pose proof (persisted_segments _ _ _ _ Hper) as Hseg. clear Hper. revert Hseg.
  generalize (segment_files m). intros names Hseg.
  induction Hseg as [|name bs names bss [Hbs Hd] _ IH]; simpl; constructor; [|done].
  split; [done|]. exists (Path dir name). split; [done|]. by apply durable_file_of.
Qed.

Definition recovered_view (a : RecoveryState) : view :=
  view_merge (memtable_view (recovered_memtable a)) (segments_view bss).

(** What one record does to the state. *)
Definition recover_step (r : WalPutRecord) (a : RecoveryState) : RecoveryState :=
  MkRecoveryState (memtable_put (recovered_memtable a) (series r) (sample r)) (recovered_manifest a)
    (recovered_segments a)
    (if bool_decide (is_Some (recovered_view a (series r) (timestamp (sample r))))
     then recovered_logical_sample_count a else u64 (recovered_logical_sample_count a + 1))
    (recovered_wal_size a).

Definition recover_inv (a : RecoveryState) : Prop :=
  MemTable_ok (recovered_memtable a) /\ recovered_manifest a = m /\ recovered_segments a = readers /\
  exists n, view_count (recovered_view a) n /\ recovered_logical_sample_count a = u64 (Z.of_nat n).

Lemma recover_step_inv r a : recover_inv a -> WalPutRecord_ok r -> recover_inv (recover_step r a).
Proof.
  intros (Hm & Hman & Hseg & n & Hn & Hc) [Hs Hx]. split; [by apply memtable_put_ok|].
  split; [done|]. split; [done|].
  exists (if bool_decide (is_Some (recovered_view a (series r) (timestamp (sample r)))) then n else S n). split.
  - unfold recovered_view, recover_step. cbn [recovered_memtable].
    rewrite memtable_put_view, view_merge_put. by apply view_put_bool.
  - cbn [recovered_logical_sample_count recover_step]. rewrite Hc. case_bool_decide; [done|apply u64_succ].
Qed.

Lemma wp_recover_record r (s : world * RecoveryState) :
  fs s.1 = f0 -> recover_inv s.2 -> WalPutRecord_ok r ->
  wp (recover_record r) s (fun o s' =>
    fs s'.1 = f0 /\
    match o with
    | Done _ => s'.2 = recover_step r s.2 /\ recover_inv (recover_step r s.2) /\ (faulty s'.1 -> faulty s.1)
    | Raised x => s'.2 = s.2 /\ faulty s.1 /\ True
    | Crashed => s'.2 = s.2 /\ faulty s.1
    end).
Proof.
  intros Hf Hinv Hr. pose proof (recover_step_inv r s.2 Hinv Hr) as Hinv'.
  destruct Hinv as (Hm & _ & Hseg & _). unfold recover_record. wp_step. unfold this, wp at 1. cbn [fst snd and_then].
  wp_step. unfold lift, wp at 1. rewrite memtable_get_spec by done. cbn [fst snd and_then].
  assert (forall already w1, fs w1 = f0 -> (faulty w1 -> faulty s.1) ->
    already = bool_decide (is_Some (recovered_view s.2 (series r) (timestamp (sample r)))) ->
    wp (set_this (fun recovered => MkRecoveryState (memtable_put (recovered_memtable recovered) (series r) (sample r))
         (recovered_manifest recovered) (recovered_segments recovered)
         (if (already : bool) then recovered_logical_sample_count recovered
          else u64 (recovered_logical_sample_count recovered + 1)) (recovered_wal_size recovered))) (w1, s.2)
      (fun o s' => fs s'.1 = f0 /\
        match o with
        | Done _ => s'.2 = recover_step r s.2 /\ recover_inv (recover_step r s.2) /\ (faulty s'.1 -> faulty s.1)
        | Raised x => s'.2 = s.2 /\ faulty s.1 /\ True
        | Crashed => s'.2 = s.2 /\ faulty s.1
        end)) as Hset.
  { intros already w1 Hf1 Hs1 ->. apply wp_set_this. by split_and!. }
  destruct (memtable_view (recovered_memtable s.2) (series r) (timestamp (sample r))) as [v|] eqn:Ev;
    cbn [fmap option_fmap option_map]; wp_step.
  - wp_go. destruct s as [w a]. apply (Hset true w); [exact Hf|exact id|]. unfold recovered_view, view_merge. cbn [snd] in *.
    rewrite Ev. symmetry. by apply bool_decide_eq_true_2.
  - apply wp_in_world. eapply wp_mono; [apply wp_contains_in_segments with (bss := bss)|].
    { rewrite Hf, Hseg. apply readers_hold. }
    intros o w1 [Hf1 Ho]. rewrite Hf in Hf1. destruct o as [b|e|]; cbn [and_then].
    + destruct Ho as [-> Hs1]. apply Hset; [done|done|]. unfold recovered_view, view_merge. by rewrite Ev.
    + destruct Ho as [Ho|[]]. by split_and!.
    + by split_and!.
Qed.

Lemma wp_replay_log bytes records valid e (s : world * RecoveryState) :
  fs s.1 = f0 -> recover_inv s.2 -> file_of f0 (wal_path dir) = Some bytes ->
  log_parse decode_wal_record bytes records valid e ->
  wp (replay_wal (wal_path dir) (Some recover_record)) s
    (replay_post recover_step recover_inv (fun _ => True) s (MkWalReplayResult 0 0 0) records valid e).
Proof.
  intros Hf Hinv Hfile Hparse. unfold replay_wal.
  eapply (wp_replay_file read_chunk_size ltac:(done) recover_record f0); [|done..].
  intros r s' Hf' Hinv' Hr. by apply wp_recover_record.
Qed.

Lemma recover_steps records a :
  recovered_memtable (apply_all recover_step records a) =
    foldl (fun m r => memtable_put m (series r) (sample r)) (recovered_memtable a) records /\
  recovered_wal_size (apply_all recover_step records a) = recovered_wal_size a.
Proof.
  unfold apply_all. revert a. induction records as [|r records IH]; intros a; [done|]. cbn [foldl].
  destruct (IH (recover_step r a)) as [-> ->]. done.
Qed.
End Replay.

(** ** Replay and repair *)

Section Recover.
Context (dir : string) (m : ManifestState) (bss : list (list SegmentBlock)).
Context (all : list WalPutRecord) (Hall : Forall record_ok all) (Hmax : size (log_bytes all) <= max_u64).

(** The records recovered from the first [k] bytes of the log. *)
Definition whole_records (k j : nat) : Prop :=
  (exists torn, take k (log_bytes all) = log_bytes (take j all) ++ torn) /\ (j <= length all)%nat /\
  forall n, (n <= length all)%nat -> (length (log_bytes (take n all)) <= k)%nat -> (n <= j)%nat.

(** A log of its whole records. *)
Definition whole_log (k : nat) (v : list byte) : Prop :=
  exists j, whole_records k j /\ v = log_bytes (take j all).

Definition recovered_log (w : world) (i k : nat) (o : outcome RecoveryState) (w' : world) : Prop :=
  fs_ok (fs w') /\ only_inode (fs w) i (fs w') /\ log_moved (fs w) (fs w') dir (whole_log k) /\
  match o with
  | Done recovered => exists j, whole_records k j /\
      recovered_memtable recovered = memtable_of (take j all) /\ recover_inv dir m bss recovered /\
      recovered_wal_size recovered = size (log_bytes (take j all)) /\
      log_state (fs w') dir i (log_bytes (take j all)) /\
      (log_synced (fs w) dir (take k (log_bytes all)) -> log_synced (fs w') dir (log_bytes (take j all))) /\
      (faulty w' -> faulty w)
  | _ => faulty w
  end.

Definition replay_and_repair (wal_path : path) (recovered : RecoveryState) : M world RecoveryState := fun w =>
  let '(o, s) := replay_wal wal_path (Some recover_record) (w, recovered) in
  match o with
  | Done replay_result =>
    (repair_wal_tail wal_path replay_result;;
     mret (MkRecoveryState (recovered_memtable s.2) (recovered_manifest s.2)
             (recovered_segments s.2) (recovered_logical_sample_count s.2)
             (valid_bytes replay_result))) s.1
  | Raised e => (Raised e, s.1)
  | Crashed => (Crashed, s.1)
  end.

Lemma size_log_take k : size (take k (log_bytes all)) <= size (log_bytes all).
Proof. unfold size. rewrite length_take. lia. Qed.

(** The log cut back to its whole records. *)
Lemma repaired_log f i log n f1 :
  log_state f dir i log -> f1 = set_inode i (push (take n log) (inode f i)) f ->
  only_inode f i f1 /\ log_moved f f1 dir (fun v => v = take n log) /\
  forall f2, synced f1 i f2 -> log_synced f2 dir (take n log) /\
    log_state f2 dir i (take n log) /\ only_inode f i f2 /\ log_moved f f2 dir (fun v => v = take n log).
Proof.
  intros Hl ->. pose proof Hl as (Hn & He & Hb & Hv). set (f1 := set_inode _ _ _).
  assert (only_inode f i f1) as Ho.
  { split; [done|]. split; [done|]. intros j Hj. unfold f1. by rewrite inode_set_inode, decide_False. }
  assert (inode f1 i = push (take n log) (inode f i)) as Hi1 by (unfold f1; by rewrite inode_set_inode, decide_True).
  split; [done|]. split.
  - apply (log_moved_inode _ _ _ i log); [done|apply Ho|]. intros v. rewrite Hi1, possible_push. tauto.
  - intros f2 Hs. pose proof Hs as (He2 & Hn2 & Hi2).
    assert (inode f2 i = settled (take n log)) as Hi by by rewrite Hi2, decide_True, Hi1.
    assert (only_inode f i f2) as Ho2 by (eapply only_inode_trans; [done|by eapply synced_only]).
    split; [exists i; split; [by rewrite He2|done]|]. split; [|split; [done|]].
    + split; [by rewrite He2|]. split; [intros e; rewrite He2; apply He|]. rewrite Hi.
      split; [done|]. intros v Hin. apply possible_settled in Hin as ->.
      exists (length (take n log)). by rewrite firstn_all.
    + apply (log_moved_inode _ _ _ i log); [done|apply Ho2|]. intros v. rewrite Hi, possible_settled. tauto.
Qed.

(** What the replay finds: [j] whole records and a torn one. *)
Record replayed (k j : nat) (torn : list byte) (r : WalReplayResult) (a : RecoveryState) : Prop := {
  replayed_bytes : take k (log_bytes all) = log_bytes (take j all) ++ torn;
  replayed_whole : whole_records k j;
  replayed_valid : valid_bytes r = size (log_bytes (take j all));
  replayed_torn : incomplete_tail_bytes r = size torn;
  replayed_memtable : recovered_memtable a = memtable_of (take j all);
  replayed_inv : recover_inv dir m bss a;
}.

Lemma replayed_had k j torn r a : replayed k j torn r a -> had_incomplete_tail r = false <-> torn = [].
Proof.
  intros H. unfold had_incomplete_tail. rewrite (replayed_torn _ _ _ _ _ H). split; [|by intros ->].
  intros Hb. bool_to_prop. by apply size_0_nil.
Qed.

Lemma wp_replay_whole w i k recovered :
  persisted (fs w) dir m bss -> log_state (fs w) dir i (take k (log_bytes all)) ->
  recover_inv dir m bss recovered -> recovered_memtable recovered = empty_memtable ->
  wp (replay_wal (wal_path dir) (Some recover_record)) (w, recovered) (fun o s =>
    fs s.1 = fs w /\
    match o with
    | Done r => (exists j torn, replayed k j torn r s.2) /\ (faulty s.1 -> faulty w)
    | _ => faulty w
    end).
Proof.
  intros Hper Hlog Hinv Hempty. destruct (log_prefix all k Hall) as (j & torn & Hj & Htake & Hparse & Hfull).
  pose proof (log_state_file _ _ _ _ Hlog) as Hfile. pose proof (size_log_take k) as Hk.
  eapply wp_mono; [exact (wp_replay_log dir m bss (fs w) Hper _ _ _ _ (w, recovered) eq_refl Hinv Hfile Hparse)|].
  intros o [w1 a] [Hf1 Ho]. cbn [fst snd] in *. split; [done|]. destruct o as [r|e|].
  2:{ destruct Ho as [(err & He & _)|(_ & Ho & _)]; [by destruct (decide (torn = []))|done]. }
  2:{ by destruct Ho. }
  destruct Ho as (Ha & Hinv' & Hs1 & _ & Hvalid & Htail). cbn [records_replayed valid_bytes incomplete_tail_bytes] in *.
  pose proof (size_nonneg (log_bytes (take j all))). pose proof (size_nonneg torn).
  pose proof (f_equal size Htake) as Hsizes. rewrite size_app in Hsizes.
  rewrite Z.add_0_l, u64_small in Hvalid by (unfold in_u, max_u64 in *; lia).
  split; [|exact Hs1]. exists j, torn. split; [exact Htake|split; [by exists torn|done]|exact Hvalid| | |exact Hinv'].
  - destruct (decide (torn = [])) as [->|Hne]; [by destruct Htail as [[_ Ht]|[=]]|].
    by destruct Htail as [[[=] _]|[= <-]].
  - rewrite Ha. destruct (recover_steps bss (take j all) recovered) as [-> _]. by rewrite Hempty.
Qed.

(** The repair leaves the whole records, or, when it fails, the log with or without
    its torn end. *)
Lemma wp_repair_whole w w1 i k j torn r a :
  fs_ok (fs w) -> log_state (fs w) dir i (take k (log_bytes all)) -> fs w1 = fs w -> (faulty w1 -> faulty w) ->
  replayed k j torn r a ->
  wp (repair_wal_tail (wal_path dir) r) w1 (fun o w2 =>
    fs_ok (fs w2) /\ only_inode (fs w) i (fs w2) /\ log_moved (fs w) (fs w2) dir (whole_log k) /\
    match o with
    | Done _ => log_state (fs w2) dir i (log_bytes (take j all)) /\
        (log_synced (fs w) dir (take k (log_bytes all)) -> log_synced (fs w2) dir (log_bytes (take j all))) /\
        (faulty w2 -> faulty w)
    | _ => faulty w
    end).
Proof.
  intros Hok Hlog Hf1 Hs1 Hr. pose proof Hr as [Htake Hwhole Hvalid Htorn _ _].
  destruct (had_incomplete_tail r) eqn:Hrep.
  2:{ unfold repair_wal_tail. rewrite Hrep. cbn [negb]. rewrite wp_ret, Hf1.
      apply (replayed_had _ _ _ _ _ Hr) in Hrep as ->. rewrite app_nil_r in Htake. rewrite Htake in *.
      split; [done|]. split; [apply only_inode_refl|]. split; [apply log_moved_refl|done]. }
  assert (torn <> []) as Hne by (intros Ht; apply (replayed_had _ _ _ _ _ Hr) in Ht; congruence).
  pose proof (size_nonneg (log_bytes (take j all))). pose proof (size_nonneg torn). pose proof (size_log_take k).
  pose proof (f_equal size Htake) as Hsizes. rewrite size_app in Hsizes.
  pose proof Hlog as (Hnow & _ & Hbytes & _).
  eapply wp_mono; [apply (wp_repair_wal_tail _ r i (take k (log_bytes all)))|]; try done; try lia; try (by rewrite Hf1).
  set (n := Z.to_nat (size (log_bytes (take j all)))). rewrite Hf1, Hvalid. fold n. intros o w2 Ho.
  destruct (repaired_log (fs w) i (take k (log_bytes all)) n _ Hlog eq_refl) as (Ho1 & Hw1 & Hsync).
  assert (take n (take k (log_bytes all)) = log_bytes (take j all)) as Hcut by (unfold n; by rewrite Htake, take_size_app).
  assert (forall f', log_moved (fs w) f' dir (fun v => v = take n (take k (log_bytes all))) ->
    log_moved (fs w) f' dir (whole_log k)) as Hnew.
  { intros f'. apply log_moved_mono. intros v ->. exists j. by split. }
  assert ((fs w2 = fs w \/ fs w2 = set_inode i (push (take n (take k (log_bytes all))) (inode (fs w) i)) (fs w)) -> faulty w1 ->
    fs_ok (fs w2) /\ only_inode (fs w) i (fs w2) /\ log_moved (fs w) (fs w2) dir (whole_log k) /\ faulty w) as Hbad.
  { intros [Hf2|Hf2] Hfy; rewrite Hf2; [|split; [by eapply only_inode_ok|]; split; [done|]; split; [by apply Hnew|auto]].
    split; [done|]. split; [apply only_inode_refl|]. split; [apply log_moved_refl|auto]. }
  destruct o as [u|e|]; [|destruct Ho; auto..]. destruct Ho as [Hs2 Hfy2].
  destruct (Hsync _ Hs2) as (Hsy2 & Hl2 & Hon2 & Hm2). rewrite Hcut in Hl2, Hsy2.
  split; [by eapply only_inode_ok|]. split; [done|]. split; [by apply Hnew|]. split_and!; auto.
Qed.

Lemma wp_replay_and_repair w i k recovered :
  fs_ok (fs w) -> persisted (fs w) dir m bss -> log_state (fs w) dir i (take k (log_bytes all)) ->
  recover_inv dir m bss recovered -> recovered_memtable recovered = empty_memtable ->
  wp (replay_and_repair (wal_path dir) recovered) w (recovered_log w i k).
Proof.
  intros Hok Hper Hlog Hinv Hempty. pose proof (wp_replay_whole w i k recovered Hper Hlog Hinv Hempty) as Hw.
  unfold wp, replay_and_repair in *. destruct (replay_wal _ _ _) as [o [w1 a]]. destruct Hw as [Hf1 Ho]. cbn [fst snd] in *.
  assert (faulty w -> fs_ok (fs w1) /\ only_inode (fs w) i (fs w1) /\ log_moved (fs w) (fs w1) dir (whole_log k) /\ faulty w) as Hbad.
  { intros Hf. rewrite Hf1. split; [done|]. split; [apply only_inode_refl|]. split; [apply log_moved_refl|done]. }
  destruct o as [r|e|]; [|by apply Hbad..]. destruct Ho as [(j & torn & Hr) Hs1].
  set (final := MkRecoveryState _ _ _ _ _). fold (wp (repair_wal_tail (wal_path dir) r;; mret final) w1 (recovered_log w i k)).
  wp_step. eapply wp_mono; [by apply (wp_repair_whole w w1 i k j torn r a)|]. intros o w2 (Hok2 & Ho2 & Hm2 & Ho).
  destruct o as [u|e|]; cbn [and_then]; [rewrite wp_ret|by split_and!..]. destruct Ho as (Hl2 & Hsy2 & Hfy2).
  split; [done|]. split; [done|]. split; [done|]. exists j. destruct Hr. by split_and!.
Qed.

(** ** Creating the log *)

Lemma create_kept f p i f1 :
  fs_ok f -> create_if_missing p f = (SysOk i, f1) ->
  fs_ok f1 /\ now (entry f1 p) = Some i /\ forall q, q <> p -> kept f f1 q.
Proof.
  intros Hok Hc. pose proof (only_tmp_open f p i f1 Hok Hc) as Ht.
  pose proof Ht as (Hok1 & Hnow & _ & _). rewrite entry_set_inode in Hnow.
  assert (fs_ok f1) as Hok'.
  { eapply (only_inode_ok _ i); [|exact Hok1]. split; [done|]. split; [done|].
    intros j Hj. by rewrite inode_set_inode, decide_False. }
  split; [done|]. split; [done|].
  intros q Hq. pose proof (only_tmp_kept f _ _ i q Hok Ht Hq) as [Hk Hj]. rewrite entry_set_inode in Hk.
  split; [done|]. intros j Hn. rewrite <-Hj by done. rewrite inode_set_inode, decide_False; [done|].
  intros ->. destruct Hok' as [_ Hinj]. apply Hq, (Hinj _ _ i); [|done].
  destruct Hk as [-> | ->]; done.
Qed.

Lemma create_log f i f1 :
  fs_ok f -> durable f (wal_path dir) None -> create_if_missing (wal_path dir) f = (SysOk i, f1) ->
  fs_ok f1 /\ (forall q, q <> wal_path dir -> kept f f1 q) /\ log_state f1 dir i [].
Proof.
  intros Hok Hd Hc. destruct (create_kept _ _ _ _ Hok Hc) as (Hok' & Hnow & Hk).
  assert (entry f1 (wal_path dir) = push (Some i) (settled None) /\ inode f1 i = settled []) as [He Hi].
  { simpl in Hd. unfold create_if_missing in Hc. rewrite Hd in Hc. cbn [now settled] in Hc. injection Hc as <- <-.
    unfold entry, inode. simpl. by rewrite !lookup_insert_eq, <-Hd. }
  split; [done|]. split; [done|].
  split; [done|]. split; [|split; [by rewrite Hi|]].
  - intros e. rewrite He, possible_push, possible_settled. tauto.
  - intros v. rewrite Hi, possible_settled. intros ->. by exists 0%nat.
Qed.

Lemma wp_create_log w :
  fs_ok (fs w) -> durable (fs w) (wal_path dir) None ->
  wp (creator ← wal_open (wal_path dir) buffered; with_object creator wal_sync) w (fun o w' =>
    fs_ok (fs w') /\ (forall q, q <> wal_path dir -> kept (fs w) (fs w') q) /\
    log_moved (fs w) (fs w') dir (fun v => v = []) /\
    match o with
    | Done _ => (exists i, log_state (fs w') dir i []) /\ log_synced (fs w') dir [] /\ (faulty w' -> faulty w)
    | _ => faulty w
    end).
Proof.
  intros Hok Hd. wp_step. eapply wp_mono; [apply wp_wal_open|]. intros o w1 (i & f1 & Hc & Ho).
  destruct (create_log _ _ _ Hok Hd Hc) as (Hok1 & Hk1 & Hl1).
  assert (forall f', log_state f' dir i [] -> log_moved (fs w) f' dir (fun v => v = [])) as Hnew.
  { intros f' Hl r Hr. destruct (log_state_within _ _ _ _ Hl r Hr) as [->|(k & ->)].
    - left. exists None. simpl in Hd. rewrite Hd. by split; [apply possible_settled|].
    - right. exists []. by rewrite take_nil. }
  assert (fs w1 = fs w \/ fs w1 = f1 -> fs_ok (fs w1) /\ (forall q, q <> wal_path dir -> kept (fs w) (fs w1) q) /\
    log_moved (fs w) (fs w1) dir (fun v => v = [])) as Hcases.
  { intros [-> | ->]; [split_and!; auto using kept_refl, log_moved_refl|]. split_and!; auto. }
  destruct o as [creator|e|]; cbn [and_then].
  2, 3: destruct Ho as [Hf Hs]; destruct (Hcases Hf) as (? & ? & ?); by split_and!.
  destruct Ho as (Hf & Hs & ->). pose proof (wp_wal_sync i (w1, MkWalWriter (wal_path dir) (Some i) buffered
    (u64 (size (now (inode f1 i)))) false) ltac:(done)) as Hsync.
  unfold wp, with_object in *. destruct (wal_sync _) as [o [w2 t]]. cbn [fst snd] in *. rewrite Hf in Hsync.
  assert (fs w2 = f1 -> fs_ok (fs w2) /\ (forall q, q <> wal_path dir -> kept (fs w) (fs w2) q) /\
    log_moved (fs w) (fs w2) dir (fun v => v = [])) as Hsame.
  { intros ->. rewrite <-Hf. apply Hcases. by right. }
  destruct o as [u|e|].
  - destruct Hsync as (Hsy & _ & Hs2). destruct (log_state_synced _ _ _ _ _ Hl1 Hsy) as [Hl2 Hi2].
    pose proof (synced_only _ _ _ Hsy) as Ho2. split; [by eapply only_inode_ok|]. split.
    + intros q Hq. eapply kept_trans; [by apply Hk1|]. apply (only_inode_kept _ i); [done|].
      intros Hn. destruct Hok1 as [_ Hinj]. apply Hq, (Hinj _ _ i); [done|by eapply log_state_now].
    + split; [by apply Hnew|]. split; [eauto|]. split; [|auto]. exists i. split; [by eapply log_state_now|done].
  - destruct Hsync as (_ & Hf2 & _ & Hs2). destruct (Hsame Hf2) as (? & ? & ?). split_and!; auto.
  - destruct Hsync as (Hf2 & Hs2). destruct (Hsame Hf2) as (? & ? & ?). split_and!; auto.
Qed.

(** ** [recover] and the constructor *)

Definition log_found (f : fsys) (found : option nat) : Prop :=
  match found with
  | None => durable f (wal_path dir) None
  | Some k => exists i, log_state f dir i (take k (log_bytes all))
  end.

(** [j] of the records come back. *)
Definition recovers (found : option nat) (j : nat) : Prop :=
  match found with
  | None => j = 0%nat
  | Some k => whole_records k j
  end.

(** The log recovery leaves. *)
Definition found_log (found : option nat) (v : list byte) : Prop :=
  exists j, recovers found j /\ v = log_bytes (take j all).

Lemma log_found_kept f f' found : kept f f' (wal_path dir) -> log_found f found -> log_found f' found.
Proof.
  intros Hk. destruct found as [k|]; simpl.
  - intros (i & Hl). exists i. by eapply log_state_kept.
  - by apply (kept_durable _ _ _ None).
Qed.

Lemma log_found_moved f f' found :
  kept f f' (wal_path dir) -> log_found f found -> log_moved f f' dir (found_log found).
Proof.
  intros Hk. destruct found as [k|]; simpl.
  - intros (i & Hl). by eapply log_moved_kept.
  - intros Hd r Hr. left. apply (kept_durable f f' _ None Hk) in Hd as Hd'.
    rewrite (durable_after_crash _ _ _ _ Hd' Hr). exists None. simpl in Hd. rewrite Hd.
    by split; [apply possible_settled|].
Qed.

(** What an interrupted recovery leaves opens as before. *)
Definition recovering (found : option nat) (f f' : fsys) : Prop :=
  fs_ok f' /\ persisted f' dir m bss /\ log_moved f f' dir (found_log found).

(** A log on stable storage stays there; a new one is. *)
Definition settles (found : option nat) (j : nat) (f f' : fsys) : Prop :=
  match found with
  | Some k =>
    (log_synced f dir (take k (log_bytes all)) -> log_synced f' dir (log_bytes (take j all))) /\
    (log_named f dir -> log_named f' dir)
  | None => log_synced f' dir (log_bytes (take j all))
  end.

Definition recover_post (found : option nat) (w : world) (o : outcome RecoveryState) (w' : world) : Prop :=
  recovering found (fs w) (fs w') /\
  match o with
  | Done recovered => exists j, recovers found j /\
      recovered_memtable recovered = memtable_of (take j all) /\ recover_inv dir m bss recovered /\
      recovered_wal_size recovered = size (log_bytes (take j all)) /\
      (exists i, log_state (fs w') dir i (log_bytes (take j all))) /\ settles found j (fs w) (fs w') /\
      (faulty w' -> faulty w)
  | _ => faulty w
  end.

(** The state before the log is read. *)
Definition initial_recovery : RecoveryState :=
  MkRecoveryState empty_memtable m (readers dir m bss) (logical_sample_count m) 0.

Lemma initial_recovery_inv f : persisted f dir m bss -> recover_inv dir m bss initial_recovery.
Proof.
  intros H. split; [apply empty_memtable_ok|]. split; [done|]. split; [done|].
  destruct (persisted_count _ _ _ _ H) as (n & Hn & Hc). exists n. split; [exact Hn|].
  unfold initial_recovery. cbn [recovered_logical_sample_count]. rewrite Hc.
  pose proof (persisted_count_bound _ _ _ _ H). rewrite u64_small; [done|]. unfold in_u. lia.
Qed.

Lemma wp_recover_log found w :
  fs_ok (fs w) -> persisted (fs w) dir m bss -> log_found (fs w) found ->
  wp (wal_exists ← sys_exists (wal_path dir);
      match wal_exists with
      | SysErr error => throw (system_error error "failed to inspect WAL")
      | SysOk wal_exists =>
        if negb wal_exists then
          creator ← wal_open (wal_path dir) buffered;
          with_object creator wal_sync;;
          mret initial_recovery
        else replay_and_repair (wal_path dir) initial_recovery
      end) w (recover_post found w).
Proof.
  intros Hok Hper Hfound. pose proof (initial_recovery_inv _ Hper) as Hinv.
  assert (forall w1, fs w1 = fs w -> recovering found (fs w) (fs w1)) as Hsame.
  { intros w1 ->. split; [done|]. split; [done|apply log_moved_refl]. }
  wp_step. apply wp_sys_query.
  2:{ intros e w1 Hf Hs. cbn [and_then]. rewrite wp_throw. split; [by apply Hsame|done]. }
  2:{ intros w1 Hf Hs. cbn [and_then]. split; [by apply Hsame|done]. }
  intros w1 Hf Hs. cbn [and_then]. destruct found as [k|]; simpl in Hfound.
  - destruct Hfound as (i & Hlog). rewrite (log_state_now _ _ _ _ Hlog), bool_decide_true by eauto. cbn [negb].
    rewrite <-Hf in Hok, Hper, Hlog.
    eapply wp_mono; [by apply (wp_replay_and_repair w1 i k)|]. intros o w2 (Hok2 & Ho2 & Hw2 & Ho).
    rewrite Hf in Hw2. split.
    { split; [done|]. split; [|done]. eapply persisted_log_change; [exact Hok|by eapply log_state_now|done|done]. }
    destruct o as [r|e|]; auto. destruct Ho as (j & Hj & Hm & Hi & Hsz & Hl & Hsy & Hs2).
    exists j. rewrite Hf in Hsy, Ho2. split; [done|]. split; [done|]. split; [done|]. split; [done|]. split; [eauto|]. split; [|auto].
    split; [done|]. apply log_named_same, Ho2.
  - rewrite Hfound. cbn [now settled]. rewrite bool_decide_false by by intros [? [=]]. cbn [negb].
    assert (wp (x ← (creator ← wal_open (wal_path dir) buffered; with_object creator wal_sync); mret initial_recovery)
      w1 (recover_post None w)) as H.
    { wp_step. eapply wp_mono; [apply wp_create_log; rewrite Hf; done|]. intros o w2 (Hok2 & Hk2 & Hw2 & Ho).
      rewrite Hf in Hk2. assert (persisted (fs w2) dir m bss) as Hper2.
      { apply (persisted_kept (fs w)); [|done]. intros q Hq. apply Hk2. by eapply live_not_wal. }
      assert (recovering None (fs w) (fs w2)) as Hall2.
      { split; [done|]. split; [done|]. rewrite Hf in Hw2. eapply log_moved_mono; [|exact Hw2].
        intros v ->. by exists 0%nat. }
      destruct o as [u|e|]; cbn [and_then]; [|by split; auto..].
      rewrite wp_ret. split; [done|]. exists 0%nat. cbn [recovers take].
      destruct Ho as (Hl & Hsy & Hs2). split; [done|]. split; [done|]. split; [done|]. split; [done|].
      split; [done|]. split; [done|auto]. }
    revert H. unfold wp, mbind, M_bind.
    destruct (wal_open (wal_path dir) buffered w1) as [[creator|e|] w2]; try done.
Qed.
End Recover.

(** ** The whole of [recover], and the constructor *)

Section Open.
Context (dir : string) (Hdir : dir <> EmptyString) (m : ManifestState) (bss : list (list SegmentBlock)).
Context (all : list WalPutRecord) (Hall : Forall record_ok all) (Hmax : size (log_bytes all) <= max_u64).

Lemma recover_post_from found w0 w o w' :
  recovering dir m bss all found (fs w0) (fs w) -> kept (fs w0) (fs w) (wal_path dir) -> (faulty w -> faulty w0) ->
  recover_post dir m bss all found w o w' -> recover_post dir m bss all found w0 o w'.
Proof.
  intros (_ & _ & Hl0) Hk Hs ((Hok & Hp & Hl) & Ho). split.
  { split; [done|]. split; [done|]. by eapply log_moved_trans. }
  destruct o as [r|e|]; auto.
  destruct Ho as (j & ? & ? & ? & ? & ? & Hse & ?). exists j.
  split; [done|]. split; [done|]. split; [done|]. split; [done|]. split; [done|]. split; [|auto].
  destruct found as [k|]; [|done]. destruct Hse as [Hsy Hn]. split.
  - intros Hl'. apply Hsy. by eapply log_synced_kept.
  - intros Hl'. apply Hn. by eapply log_named_kept.
Qed.

(** The manifest's number of samples passes the check. *)
Lemma manifest_count_accepted f :
  persisted f dir m bss ->
  (u64 (0 + size (flat_map pairs_in bss)) <? logical_sample_count m)
    || (bool_decide (readers dir m bss = []) && negb (logical_sample_count m =? 0)) = false.
Proof.
  intros H. pose proof (persisted_count_bound _ _ _ _ H) as Hb. pose proof (persisted_length _ _ _ _ H) as Hl.
  rewrite Z.add_0_l, u64_small by (unfold in_u; pose proof (size_nonneg (flat_map pairs_in bss)); lia).
  rewrite (proj2 (Z.ltb_ge _ _)) by lia. cbn [orb]. case_bool_decide as Hr; [|done]. cbn [andb].
  assert (bss = []) as ->.
  { unfold readers in Hr. destruct bss as [|bs rest], (segment_files m); simpl in *; try done; lia. }
  destruct (persisted_count _ _ _ _ H) as (n & Hn & ->).
  rewrite (view_count_unique _ _ _ Hn view_count_empty). done.
Qed.

(** What removing the orphans keeps. *)
Lemma orphans_keep found f f' :
  fs_ok f' -> persisted f dir m bss -> log_found dir all f found -> kept_unless (orphan (segment_files m)) f f' ->
  persisted f' dir m bss /\ log_found dir all f' found /\ recovering dir m bss all found f f' /\ kept f f' (wal_path dir).
Proof.
  intros Hok Hper Hfound Hk. assert (kept f f' (wal_path dir)) as Hkw.
  { apply Hk. by eapply live_not_orphan; [|right]. }
  assert (persisted f' dir m bss) as Hper'.
  { apply (persisted_kept f); [|done]. intros q Hq. apply Hk. by eapply live_not_orphan; [|left]. }
  split; [done|]. split; [by apply (log_found_kept _ _ f)|]. split; [|done].
  split; [done|]. split; [done|]. by eapply log_found_moved.
Qed.

(** The part of [recover] after the loop over the directory. *)
Definition check_and_replay (directory_error : option Z) : M world RecoveryState :=
  match directory_error with
  | Some error => throw (system_error error "failed to inspect database directory")
  | None =>
    throw_when ((u64 (0 + size (flat_map pairs_in bss)) <? logical_sample_count m)
                || (bool_decide (readers dir m bss = []) && negb (logical_sample_count m =? 0)))
      (ManifestFormatError "manifest logical sample count is inconsistent");;
    wal_exists ← sys_exists (wal_path dir);
    match wal_exists with
    | SysErr error => throw (system_error error "failed to inspect WAL")
    | SysOk wal_exists =>
      if negb wal_exists then
        creator ← wal_open (wal_path dir) buffered;
        with_object creator wal_sync;;
        mret (initial_recovery dir m bss)
      else replay_and_repair (wal_path dir) (initial_recovery dir m bss)
    end
  end.

Definition listing_post (w : world) (o : outcome (option Z)) (w' : world) : Prop :=
  fs_ok (fs w') /\ kept_unless (orphan (segment_files m)) (fs w) (fs w') /\
  match o with
  | Done None => faulty w' -> faulty w
  | Raised _ => False
  | _ => faulty w
  end.

Lemma wp_check_and_replay found w (d : M world (option Z)) w3 :
  persisted (fs w) dir m bss -> log_found dir all (fs w) found -> wp d w3 (listing_post w) ->
  wp (directory_error ← d; check_and_replay directory_error) w3 (recover_post dir m bss all found w).
Proof.
  intros Hper Hfound Hd. wp_step. eapply wp_mono; [exact Hd|]. intros o w4 (Hok4 & Hk4 & Ho4).
  destruct (orphans_keep _ _ _ Hok4 Hper Hfound Hk4) as (Hper4 & Hfound4 & Hr4 & Hkw4).
  destruct o as [[error|]|e|]; cbn [and_then]; try done. unfold check_and_replay.
  rewrite (manifest_count_accepted _ Hper4). wp_step. rewrite wp_throw_when_false. cbn [and_then].
  eapply wp_mono; [by apply (wp_recover_log dir m bss all Hall Hmax found w4)|]. intros o w5. by apply recover_post_from.
Qed.

Lemma wp_recover found w :
  fs_ok (fs w) -> persisted (fs w) dir m bss -> log_found dir all (fs w) found ->
  wp (recover (wal_path dir)) w (recover_post dir m bss all found w).
Proof.
  intros Hok Hper Hfound. unfold recover, database_directory_for. rewrite directory_of_wal by done.
  assert (forall w1, fs w1 = fs w -> recovering dir m bss all found (fs w) (fs w1)) as Hsame.
  { intros w1 ->. split; [done|]. split; [done|apply log_moved_refl]. }
  wp_step. eapply wp_mono; [by eapply wp_load_persisted|]. intros o w1 [Hf1 Ho]. pose proof (Hsame w1 Hf1) as Hr1.
  destruct o as [m'|e|]; cbn [and_then]; [|destruct Ho as [Ho|[]]; by split|by split].
  destruct Ho as [-> Hs1].
  wp_step. eapply wp_mono.
  { apply (wp_open_segments dir (segment_files m) bss); [|unfold in_u; lia]. rewrite Hf1. apply Hper. }
  intros o w2 [Hf2 Ho]. rewrite Hf1 in Hf2. pose proof (Hsame w2 Hf2) as Hr2.
  destruct o as [r|e|]; cbn [and_then]; [|destruct Ho as [Ho|[]]; split; auto|split; auto].
  destruct Ho as [-> Hs2]. cbn [app]. fold (readers dir m bss). fold (initial_recovery dir m bss).
  assert (forall (d : M world (option Z)) w3, wp d w3 (listing_post w) ->
    wp (directory_error ← d; check_and_replay directory_error) w3 (recover_post dir m bss all found w)) as Hrest
    by (intros d w3; by apply wp_check_and_replay).
  wp_step. apply wp_sys_query; rewrite ?Hf2.
  - intros w3 Hf3 Hs3. cbn [and_then]. apply Hrest.
    eapply wp_mono; [apply wp_remove_orphans; by rewrite Hf3|].
    intros o w4 (? & ? & Ho). rewrite Hf3 in *. split; [done|]. split; [done|]. destruct o as [[z|]|e|]; auto.
  - intros e w3 Hf3 Hs3. cbn [and_then]. apply Hrest. unfold listing_post. rewrite wp_ret, Hf3.
    split; [done|]. split; [intros q _; apply kept_refl|auto].
  - intros w3 Hf3 Hs3. cbn [and_then]. split; auto.
Qed.

Definition open_post (durability : WalDurability) (found : option nat) (w : world)
    (o : outcome StorageEngine) (w' : world) : Prop :=
  recovering dir m bss all found (fs w) (fs w') /\
  match o with
  | Done e => exists j, recovers all found j /\ engine_ok (fs w') dir e bss (take j all) /\
      manifest_ e = m /\ durability_ (wal_writer_ e) = durability /\ settles dir all found j (fs w) (fs w') /\
      (faulty w' -> faulty w)
  | _ => faulty w
  end.

Lemma recovered_engine_ok f i j r d :
  fs_ok f -> persisted f dir m bss -> log_state f dir i (log_bytes (take j all)) ->
  recovered_memtable r = memtable_of (take j all) -> recover_inv dir m bss r ->
  engine_ok f dir (MkStorageEngine dir (recovered_memtable r) (recovered_manifest r) (recovered_segments r)
    (MkWalWriter (wal_path dir) (Some i) d (size (log_bytes (take j all))) false)
    (recovered_logical_sample_count r) false) bss (take j all).
Proof.
  intros Hok Hper Hlog Hmem (_ & Hm & Hr & n & Hn & Hc). split; cbn [engine_failed_ memtable_ manifest_ segments_
    wal_writer_ logical_sample_count_ database_directory_ size_bytes_ path_]; try done.
  - by apply Forall_take.
  - by rewrite Hm.
  - by rewrite Hm.
  - exists i. by split.
  - pose proof (f_equal log_bytes (take_drop j all)) as H. rewrite log_bytes_app in H.
    rewrite <-H, size_app in Hmax. pose proof (size_nonneg (log_bytes (drop j all))). lia.
  - exists n. split; [|done]. exact Hn.
Qed.

Lemma wp_engine_open d found w :
  fs_ok (fs w) -> persisted (fs w) dir m bss -> log_found dir all (fs w) found ->
  wp (engine_open (wal_path dir) d) w (open_post d found w).
Proof.
  intros Hok Hper Hfound. unfold engine_open. wp_step.
  eapply wp_mono; [by eapply wp_recover|]. intros o w1 (Hr1 & Ho1). pose proof Hr1 as (Hok1 & Hper1 & _).
  destruct o as [r|e|]; cbn [and_then]; [|by split|by split].
  destruct Ho1 as (j & Hj & Hmem & Hinv & Hsz & (i & Hlog) & Hse & Hs1).
  wp_step. eapply wp_mono; [apply wp_wal_open|]. intros o w2 (i' & f' & Hc & Ho2).
  unfold create_if_missing in Hc. rewrite (log_state_now _ _ _ _ Hlog) in Hc. injection Hc as <- <-.
  destruct o as [writer|e|]; cbn [and_then].
  2, 3: destruct Ho2 as [Hf2 Hs2]; assert (fs w2 = fs w1) as Hf by tauto; (split; [by rewrite Hf|auto]).
  destruct Ho2 as (Hf2 & Hs2 & ->). pose proof Hlog as (_ & _ & Hnow & _). rewrite Hnow.
  assert (size (log_bytes (take j all)) <= max_u64) as Hsize.
  { pose proof (f_equal log_bytes (take_drop j all)) as H. rewrite log_bytes_app in H.
    rewrite <-H, size_app in Hmax. pose proof (size_nonneg (log_bytes (drop j all))). lia. }
  pose proof (size_nonneg (log_bytes (take j all))).
  rewrite u64_small by (unfold in_u, max_u64 in *; lia). unfold wal_size_bytes. cbn [size_bytes_].
  rewrite Hsz, Z.eqb_refl. cbn [negb]. wp_step. rewrite wp_throw_when_false. cbn [and_then].
  rewrite wp_ret. split; [by rewrite Hf2|]. exists j. split; [done|]. rewrite Hf2.
  unfold database_directory_for. rewrite directory_of_wal by done. split.
  - by apply recovered_engine_ok.
  - split; [apply Hinv|]. split; [done|]. split; [done|auto].
Qed.
End Open.
