(* ===== verification/EngineFlush.v ===== *)
(** * Flushing the storage engine

    [flush] writes a new segment, publishes it in a new manifest, and only then gives
    up what it replaces, the log and the MemTable.  At every point a power loss leaves
    the old or the new state on the disk, and both hold the same samples.  The
    publication of a segment is the one [compact] uses too (EngineCompact.v). *)

From stdpp Require Import base tactics option numbers list strings gmap.
From Stdlib Require Import ZArith Lia Sorted.
From S2P Require Import Prelude Errors World Hoare Model OrdMap View MemTable WalRecord FileIo WalFile WalRecovery SegmentBlock Manifest SegmentFile SegmentFormat BlocksView SegmentQuery StorageEngine EngineView EngineBlocks EngineState EngineWrite.

(** ** The disk after a power loss *)

(** A power loss settles the names and their contents. *)
Lemma crash_durable f f' p c : crash f f' -> file_of f' p = c -> durable f' p c.
Proof.
  intros Hc <-. destruct (entry_crash f f' p Hc) as (e & _ & He). unfold file_of. rewrite He. cbn [now settled].
  destruct e as [i|]; [|done]. destruct (inode_crash f f' i Hc) as (v & _ & Hi). exists i. by rewrite Hi.
Qed.

(** How far a publication has got: [f] has not published [m'], or a power loss
    decides, or it has, and then the log may have been given up. *)
Definition publishing (f0 f : fsys) (dir : string) (m m' : ManifestState) (bss bss' : list (list SegmentBlock)) : Prop :=
  fs_ok f /\
  ((forall f', crash f f' -> persisted f' dir m bss \/ persisted f' dir m' bss') /\
   log_moved f0 f dir nothing_new \/
   persisted f dir m' bss' /\ log_moved f0 f dir (fun v => v = [])).

Lemma publishing_old f0 f dir m m' bss bss' :
  fs_ok f -> persisted f dir m bss -> log_moved f0 f dir nothing_new -> publishing f0 f dir m m' bss bss'.
Proof. intros Hok H Hl. split; [done|]. left. split; [|done]. intros f' Hc. left. by eapply persisted_crash. Qed.

Lemma log_moved_nothing f f' dir P : log_moved f f' dir nothing_new -> log_moved f f' dir P.
Proof. apply log_moved_mono. by intros v []. Qed.

Lemma publishing_new f0 f dir m m' bss bss' :
  fs_ok f -> persisted f dir m' bss' -> log_moved f0 f dir (fun v => v = []) -> publishing f0 f dir m m' bss bss'.
Proof. intros Hok H Hl. split; [done|]. by right. Qed.

(** ** A manifest that can be stored *)

(** All of [persisted] but the manifest file and its size. *)
Definition ready (f : fsys) (dir : string) (m : ManifestState) (bss : list (list SegmentBlock)) : Prop :=
  in_u 64 (generation m) /\
  (exists ks, segment_files m = map segment_name ks /\ NoDup ks /\ Forall (fun k => 1 <= k <= generation m) ks) /\
  Forall2 (fun name bs => segment_ok bs /\ durable f (Path dir name) (Some (segment_bytes bs))) (segment_files m) bss /\
  (size (segment_files m) <= max_manifest_segments ->
   exists n, view_count (segments_view bss) n /\ logical_sample_count m = Z.of_nat n).

Lemma ready_persisted f dir m bss :
  ready f dir m bss -> size (segment_files m) <= max_manifest_segments ->
  durable f (manifest_path dir) (Some (manifest_bytes m)) -> persisted f dir m bss.
Proof. intros (Hg & Hn & Hs & Hc) Hsize Hd. split; auto. Qed.

Lemma persisted_ready f dir m bss : persisted f dir m bss -> ready f dir m bss.
Proof. intros H. split; [apply H|]. split; [apply H|]. split; [apply H|]. intros _. apply H. Qed.

Lemma ready_mono f f' dir m bss :
  (forall name c, name ∈ segment_files m -> durable f (Path dir name) c -> durable f' (Path dir name) c) ->
  ready f dir m bss -> ready f' dir m bss.
Proof.
  intros Hd (Hg & Hn & Hs & Hc). split; [done|]. split; [done|]. split; [|done]. clear Hn Hc.
  revert Hs Hd. generalize (segment_files m). intros names Hs.
  induction Hs as [|name bs names bss [Hbs Hb] _ IH]; intros Hd; constructor.
  - split; [done|]. apply Hd; [left|done].
  - apply IH. intros n c Hn. apply Hd. by right.
Qed.

Lemma ready_manifest_ok f dir m bss :
  ready f dir m bss -> size (segment_files m) <= max_manifest_segments -> ManifestState_ok m /\ ManifestState_fits m.
Proof.
  intros Hr Hs. pose proof Hr as (Hg & Hn & Hseg & Hc).
  destruct (Hc Hs) as (n & Hcount & Hl).
  assert (Forall segment_ok bss) as Hok.
  { clear -Hseg. revert Hseg. generalize (segment_files m). intros names Hseg.
    induction Hseg as [|? ? ? ? [? _] _ IH]; by constructor. }
  pose proof (segments_count bss n Hok Hcount) as Hb. apply Forall2_length in Hseg as Hlen.
  destruct Hn as (ks & Heq & Hnd & Hall). split.
  - split; [done|]. split; [rewrite Hl; unfold in_u, max_manifest_segments, size in *; lia|]. split; [done|].
    rewrite Heq. split.
    + clear -Hnd Hall Hg. induction Hnd as [|k ks Hk Hnd IH]; simpl; constructor.
      * apply Forall_cons in Hall as [Hk' Hall]. intros (k' & Hkk & Hin)%list_elem_of_fmap.
        rewrite Forall_forall in Hall. specialize (Hall k' Hin).
        apply segment_name_inj in Hkk; [by subst|unfold in_u in *; lia..].
      * apply IH. by apply Forall_cons in Hall as [_ ?].
    + apply Forall_forall. intros name (k & -> & _)%list_elem_of_fmap. apply segment_name_valid.
  - unfold ManifestState_fits. rewrite Heq in *. by apply segment_names_fit.
Qed.

(** ** Storing it *)

(** Why a call has not returned: the operating system, or what it was given. *)
Definition excused {A} (fault refused : Prop) (o : outcome A) : Prop :=
  match o with
  | Done _ => True
  | Raised _ => fault \/ refused
  | Crashed => fault
  end.


Lemma wal_not_manifest dir : wal_path dir ∉ [manifest_path dir; path_append (manifest_path dir) ".tmp"].
Proof. rewrite !not_elem_of_cons. split; [intros [=]|]. split; [intros [=]|apply not_elem_of_nil]. Qed.

Lemma segment_not_manifest dir k :
  Path dir (segment_name k) ∉ [manifest_path dir; path_append (manifest_path dir) ".tmp"].
Proof. rewrite !not_elem_of_cons. split; [intros [=]|]. split; [intros [=]|apply not_elem_of_nil]. Qed.

(** Between the two manifests a power loss leaves one or the other. *)
Lemma publishing_between f0 f dir m m' bss bss' :
  persisted f0 dir m bss -> fs_ok f -> ready f dir m bss -> ready f dir m' bss' ->
  size (segment_files m') <= max_manifest_segments -> log_moved f0 f dir nothing_new ->
  (forall old r, durable f0 (manifest_path dir) old -> after_crash f (manifest_path dir) r ->
     r = old \/ r = Some (manifest_bytes m')) ->
  publishing f0 f dir m m' bss bss'.
Proof.
  intros Hper Hok Hold Hnew Hsize Hl Hcr. split; [done|]. left. split; [|done].
  intros f' Hc. pose proof (crash_file_of _ _ (manifest_path dir) Hc) as Hfile.
  pose proof (crash_durable _ _ (manifest_path dir) _ Hc eq_refl) as Hd.
  assert (forall n bs, ready f dir n bs -> ready f' dir n bs) as Hrc.
  { intros n bs. apply ready_mono. intros name c _ Hn. by eapply durable_crash. }
  destruct (persisted_manifest _ _ _ _ Hper) as [Hm|[Hm0 Hm]];
    destruct (Hcr _ _ Hm Hfile) as [Hr|Hr]; rewrite Hr in Hd;
    try (right; apply ready_persisted; [by apply Hrc|done|done]).
  - left. apply ready_persisted; [by apply Hrc|apply Hper|done].
  - left. destruct (Hrc _ _ Hold) as (? & ? & ? & ?).
    constructor; [done|done|apply Hper|done|apply Hper|right; by split].
Qed.

Lemma wp_store_next dir m bss m' bss' i log w :
  dir <> EmptyString ->
  fs_ok (fs w) -> persisted (fs w) dir m bss -> log_state (fs w) dir i log -> ready (fs w) dir m' bss' ->
  wp (store_manifest dir m') w (fun o w' =>
    kept (fs w) (fs w') (wal_path dir) /\ publishing (fs w) (fs w') dir m m' bss bss' /\
    match o with
    | Done _ => persisted (fs w') dir m' bss' /\ log_named (fs w') dir /\ (faulty w' -> faulty w)
    | _ => excused (faulty w) (max_manifest_segments < size (segment_files m')) o
    end).
Proof.
  intros Hdir Hok Hper Hlog Hready. unfold store_manifest.
  destruct (decide (size (segment_files m') <= max_manifest_segments)) as [Hsize|Hsize].
  2:{ wp_step. unfold lift, wp at 1. assert (exists e, encode_manifest m' = Err e) as (e & He).
      { unfold encode_manifest, validate_state, throw_if. rewrite (proj2 (Z.ltb_lt _ _)) by lia. simpl. eauto. }
      rewrite He. cbn [fst snd and_then]. split; [apply kept_refl|].
      split; [by apply publishing_old; [| |apply log_moved_refl]|right; lia]. }
  destruct (ready_manifest_ok _ _ _ _ Hready Hsize) as [Hmok Hfits].
  wp_step. unfold lift, wp at 1. rewrite encode_manifest_Ok by done. cbn [fst snd and_then].
  eapply wp_mono; [by apply wp_atomic_write_file|]. intros o w' (Hok' & Hk & Ho).
  pose proof (Hk _ (wal_not_manifest dir)) as Hkw. split; [done|].
  pose proof (log_moved_kept _ _ _ _ _ nothing_new Hkw Hlog) as Hmoved.
  assert (forall k c, durable (fs w) (Path dir (segment_name k)) c -> durable (fs w') (Path dir (segment_name k)) c) as Hsegs.
  { intros k c. apply kept_durable, Hk, segment_not_manifest. }
  assert (ready (fs w') dir m' bss') as Hready'.
  { eapply ready_mono; [|exact Hready]. intros name c Hn. destruct Hready as (_ & (ks & Heq & _) & _).
    rewrite Heq in Hn. apply list_elem_of_fmap in Hn as (k & -> & _). apply Hsegs. }
  assert (ready (fs w') dir m bss) as Hold'.
  { eapply ready_mono; [|by apply persisted_ready]. intros name c Hn.
    destruct (names_in_range _ _ _ _ Hper _ Hn) as (k & -> & _). apply Hsegs. }
  assert (max_stream < size (manifest_bytes m') -> False) as Hstream.
  { pose proof (size_manifest_bytes m' Hfits). unfold max_manifest_payload_size, max_stream in *. lia. }
  destruct o as [u|e|].
  2, 3: destruct Ho as [[Hs|Hs] Hcr]; [|by destruct (Hstream Hs)];
    split; [by apply publishing_between|first [by left|done]].
  destruct Ho as (Hd & _ & Hs & Hentries).
  assert (persisted (fs w') dir m' bss') as Hper' by by apply ready_persisted.
  split; [by apply publishing_new; [| |apply log_moved_nothing]|]. split; [done|]. split; [|done].
  exists i. rewrite (Hentries _ (wal_not_manifest dir) eq_refl). unfold settle.
  by rewrite (log_state_now _ _ _ _ Hlog).
Qed.

(** ** The next segment *)

Definition next_generation (e : StorageEngine) : Z := generation (manifest_ e) + 1.

Lemma next_segment_filename_spec e :
  in_u 64 (generation (manifest_ e)) ->
  generation (manifest_ e) = max_u64 /\ (exists x, next_segment_filename e = Err x) \/
  generation (manifest_ e) < max_u64 /\ u64 (next_generation e) = next_generation e /\
    in_u 64 (next_generation e) /\ next_segment_filename e = Ok (segment_name (next_generation e)).
Proof.
  unfold in_u, next_segment_filename, next_generation. intros Hg.
  destruct (Z.eqb_spec (generation (manifest_ e)) max_u64) as [Heq|Hne]; [left; split; [done|]; simpl; eauto|right].
  cbn [throw_if mbind result_bind]. rewrite u64_small by (unfold in_u, max_u64 in *; lia).
  split; [unfold max_u64 in *; lia|]. split; [done|]. split; [unfold max_u64 in *; lia|done].
Qed.

Lemma segment_file_names dir k k' : Path dir (segment_name k) <> path_append (Path dir (segment_name k')) ".tmp".
Proof. cbn [path_append]. intros H. apply (f_equal filename) in H. by apply segment_name_tmp in H. Qed.

Lemma other_names dir (name : string) k :
  starts_with "segment-" name = false ->
  Path dir name ∉ [Path dir (segment_name k); path_append (Path dir (segment_name k)) ".tmp"].
Proof.
  intros Hs. rewrite !not_elem_of_cons. cbn [path_append]. split; [|split; [|apply not_elem_of_nil]];
    intros H; apply (f_equal filename) in H; cbn [filename] in H.
  - by apply not_segment_name in H.
  - by apply not_temporary_name in H.
Qed.

(** Writing it leaves the state there is. *)
Lemma wp_write_next dir m bss new k w :
  fs_ok (fs w) -> persisted (fs w) dir m bss ->
  generation m < k -> in_u 64 k -> Forall SegmentBlock_ok new ->
  wp (write_segment_file (Path dir (segment_name k)) new) w (fun o w' =>
    fs_ok (fs w') /\ persisted (fs w') dir m bss /\ kept (fs w) (fs w') (wal_path dir) /\
    match o with
    | Done _ => segment_ok new /\ durable (fs w') (Path dir (segment_name k)) (Some (segment_bytes new)) /\
        (faulty w' -> faulty w)
    | _ => excused (faulty w) (~ segment_ok new) o
    end).
Proof.
  intros Hok Hper Hk Hu Hnew. pose proof (next_name_fresh _ _ _ _ _ Hper Hk Hu) as Hfresh.
  assert (forall w', fs_ok (fs w') -> keeps [Path dir (segment_name k); path_append (Path dir (segment_name k)) ".tmp"] (fs w) (fs w') ->
    fs_ok (fs w') /\ persisted (fs w') dir m bss /\ kept (fs w) (fs w') (wal_path dir)) as Hkept.
  { intros w' Hok' Hks. assert (kept (fs w) (fs w') (wal_path dir)) as Hkw by by apply Hks, other_names.
    split; [done|]. split; [|done].
    apply (persisted_kept (fs w)); [|done]. intros q [-> |(name & Hn & ->)]; apply Hks; [by apply other_names|].
    destruct (names_in_range _ _ _ _ Hper _ Hn) as (k' & -> & _).
    rewrite !not_elem_of_cons. split; [intros H; apply (f_equal filename) in H; cbn [filename] in H; by rewrite H in Hn|].
    split; [apply segment_file_names|apply not_elem_of_nil]. }
  eapply wp_mono; [by apply wp_write_segment_file|]. intros o w' Ho.
  assert (forall o', segment_ok new -> (forall u, o' <> Done u) ->
    atomic_write_post w (Path dir (segment_name k)) (segment_bytes new) o' w' ->
    fs_ok (fs w') /\ persisted (fs w') dir m bss /\ kept (fs w) (fs w') (wal_path dir) /\ faulty w) as Hbad.
  { intros o' Hs Hno (Hok' & Hks & Ho'). destruct (Hkept w' Hok' Hks) as (? & ? & ?).
    split; [done|]. split; [done|]. split; [done|]. pose proof (size_segment_bytes _ Hs) as [_ Hmax].
    destruct o' as [u|e|]; [by destruct (Hno u)|..]; destruct Ho' as [[|] _]; first [done|lia]. }
  destruct o as [u|e|].
  - destruct Ho as (Hs & _ & Hok' & Hks & Hd & _ & Hf & _). destruct (Hkept w' Hok' Hks) as (? & ? & ?).
    split; [done|]. split; [done|]. by split.
  - destruct Ho as [(Hn & -> & _)|(o' & Hs & Hno & Ho)].
    + split; [done|]. split; [done|]. split; [apply kept_refl|by right].
    + destruct (Hbad o' Hs Hno Ho) as (? & ? & ? & ?). split; [done|]. split; [done|]. split; [done|by left].
  - destruct Ho as [(_ & _ & ? & [=])|(o' & Hs & Hno & Ho)]. exact (Hbad o' Hs Hno Ho).
Qed.

(** Both writes of [flush] and [compact], and the opening in between. *)
Lemma wp_publish_segment dir m bss m' bss' i log new k (K : SegmentReader -> M (world * StorageEngine) unit) st Q :
  dir <> EmptyString ->
  fs_ok (fs st.1) -> persisted (fs st.1) dir m bss -> log_state (fs st.1) dir i log ->
  generation m < k -> in_u 64 k -> Forall SegmentBlock_ok new ->
  (forall f, segment_ok new -> persisted f dir m bss ->
     durable f (Path dir (segment_name k)) (Some (segment_bytes new)) -> ready f dir m' bss') ->
  (forall w', fs_ok (fs w') -> kept (fs st.1) (fs w') (wal_path dir) ->
     persisted (fs w') dir m' bss' -> log_named (fs w') dir -> (faulty w' -> faulty st.1) ->
     wp (K (reader_at dir (segment_name k) new)) (w', st.2) Q) ->
  (forall o w', publishing (fs st.1) (fs w') dir m m' bss bss' -> kept (fs st.1) (fs w') (wal_path dir) -> (forall u, o <> Done u) ->
     excused (faulty st.1) (max_manifest_segments < size (segment_files m') \/ ~ segment_ok new) o -> Q o (w', st.2)) ->
  wp (in_world (write_segment_file (Path dir (segment_name k)) new);;
      reader ← in_world (open_segment (Path dir (segment_name k)));
      in_world (store_manifest dir m');;
      K reader) st Q.
Proof.
  intros Hdir Hok Hper Hlog Hk Hu Hnew Hready Hdone Hbad. wp_step. apply wp_in_world.
  eapply wp_mono; [by apply (wp_write_next dir m bss)|].
  intros o w1 (Hok1 & Hper1 & Hk1 & Ho1).
  pose proof (log_moved_kept _ _ _ _ _ nothing_new Hk1 Hlog) as Hmoved1.
  pose proof (publishing_old (fs st.1) (fs w1) dir m m' bss bss' Hok1 Hper1 Hmoved1) as Hpub1.
  destruct o as [u|e|]; cbn [and_then].
  2: apply (Hbad (Raised e)); [done..|]; destruct Ho1; [by left|by right; right].
  2: by apply (Hbad Crashed).
  destruct Ho1 as (Hs & Hd & Hf1). wp_step. apply wp_in_world. cbn [fst snd].
  eapply wp_mono; [apply (wp_open_segment_bytes _ new); [done|by apply durable_file_of]|].
  intros o w2 [Hf2 Ho2]. rewrite <-Hf2 in Hpub1, Hok1, Hper1, Hk1, Hd, Hmoved1.
  destruct o as [r|e|]; cbn [and_then].
  2: apply (Hbad (Raised e)); [done..|]; left; destruct Ho2 as [|[]]; auto.
  2: by apply (Hbad Crashed); [| | |apply Hf1].
  destruct Ho2 as [-> Hf3]. wp_step. apply wp_in_world. cbn [fst snd].
  pose proof (log_state_kept _ _ _ _ _ Hk1 Hlog) as Hlog1.
  eapply wp_mono; [by apply (wp_store_next dir m bss m' bss' i log w2); [..|apply Hready]|].
  intros o w3 (Hk3 & Hpub3 & Ho3). pose proof (kept_trans _ _ _ _ Hk1 Hk3) as Hkw.
  assert (publishing (fs st.1) (fs w3) dir m m' bss bss') as Hpub.
  { destruct Hpub3 as [Hok3 [[Hc Hl]|[Hp Hl]]]; split; try done; [left|right]; (split; [done|]).
    - by eapply log_moved_trans.
    - eapply log_moved_trans; [by apply log_moved_nothing|done]. }
  destruct o as [u'|e|]; cbn [and_then].
  - destruct Ho3 as (Hp3 & Hn3 & Hf4). apply Hdone; auto. apply Hpub3.
  - apply (Hbad (Raised e)); [done..|]. destruct Ho3; [left|right; left]; auto.
  - apply (Hbad Crashed); [done..|]. apply Hf1, Hf3, Ho3.
Qed.

(** ** [flush] *)

Definition flushed_manifest (e : StorageEngine) : ManifestState :=
  MkManifestState (next_generation e) (logical_sample_count_ e)
    (segment_files (manifest_ e) ++ [segment_name (next_generation e)]).

(** What stops a flush for good: no generation, no room in the manifest, or blocks
    that make no segment file. *)
Definition flush_refused (e : StorageEngine) (new : list SegmentBlock) : Prop :=
  generation (manifest_ e) = max_u64 \/ max_manifest_segments <= size (segment_files (manifest_ e)) \/
  ~ segment_ok new.

Definition flush_post (dir : string) (bss : list (list SegmentBlock)) (new : list SegmentBlock)
    (st : world * StorageEngine) (o : outcome unit) (st' : world * StorageEngine) : Prop :=
  publishing (fs st.1) (fs st'.1) dir (manifest_ st.2) (flushed_manifest st.2) bss (bss ++ [new]) /\
  excused (faulty st.1) (flush_refused st.2 new) o /\
  match o with
  | Done _ => engine_ok (fs st'.1) dir st'.2 (bss ++ [new]) [] /\ manifest_ st'.2 = flushed_manifest st.2 /\
      durability_ (wal_writer_ st'.2) = durability_ (wal_writer_ st.2) /\
      log_synced (fs st'.1) dir [] /\ log_named (fs st'.1) dir /\ (faulty st'.1 -> faulty st.1)
  | Raised _ => engine_failed_ st'.2 = true
  | Crashed => True
  end.

Lemma zip_with_snoc {A B C} (g : A -> B -> C) l k a b :
  length l = length k -> zip_with g (l ++ [a]) (k ++ [b]) = zip_with g l k ++ [g a b].
Proof. intros Hl. by rewrite zip_with_app. Qed.

(** A name after all the others. *)
Lemma names_snoc m : generation m < max_u64 -> 0 <= generation m ->
  (exists ks, segment_files m = map segment_name ks /\ NoDup ks /\ Forall (fun k => 1 <= k <= generation m) ks) ->
  exists ks, segment_files m ++ [segment_name (generation m + 1)] = map segment_name ks /\ NoDup ks /\
    Forall (fun k => 1 <= k <= generation m + 1) ks.
Proof.
  intros Hg H0 (ks & -> & Hnd & Hall). exists (ks ++ [generation m + 1]). rewrite map_app. split; [done|].
  rewrite Forall_forall in Hall. split.
  - apply NoDup_app. split; [done|]. split; [|apply NoDup_singleton].
    intros k Hk ->%list_elem_of_singleton. specialize (Hall _ Hk). simpl in Hall. lia.
  - apply Forall_app. split; [|constructor; [lia|constructor]].
    apply Forall_forall. intros k Hk. specialize (Hall _ Hk). simpl in Hall. lia.
Qed.

Lemma segment_ok_snoc f dir names bss name bs :
  Forall2 (fun name bs => segment_ok bs /\ durable f (Path dir name) (Some (segment_bytes bs))) names bss ->
  segment_ok bs -> durable f (Path dir name) (Some (segment_bytes bs)) ->
  Forall2 (fun name bs => segment_ok bs /\ durable f (Path dir name) (Some (segment_bytes bs)))
    (names ++ [name]) (bss ++ [bs]).
Proof. intros H Hs Hd. apply Forall2_app; [done|]. by constructor. Qed.

Section Flush.
Context (dir : string) (Hdir : dir <> EmptyString) (bss : list (list SegmentBlock)) (records : list WalPutRecord).
Context (new : list SegmentBlock).

Lemma flushed_view e :
  blocks_view new ≡ memtable_view (memtable_ e) -> segments_view (bss ++ [new]) ≡ engine_view e bss.
Proof. intros H. rewrite segments_view_snoc. unfold engine_view. by rewrite H. Qed.

Lemma flush_ready f f' e :
  engine_ok f dir e bss records -> generation (manifest_ e) < max_u64 ->
  blocks_view new ≡ memtable_view (memtable_ e) ->
  segment_ok new -> persisted f' dir (manifest_ e) bss ->
  durable f' (Path dir (segment_name (next_generation e))) (Some (segment_bytes new)) ->
  ready f' dir (flushed_manifest e) (bss ++ [new]).
Proof.
  intros Hok Hg Hnew Hs Hper Hd. pose proof (persisted_generation _ _ _ _ Hper) as Hu. unfold in_u in Hu.
  assert (Forall2 (fun name bs => segment_ok bs /\ durable f' (Path dir name) (Some (segment_bytes bs)))
    (segment_files (flushed_manifest e)) (bss ++ [new])) as Hall.
  { apply segment_ok_snoc; [apply Hper|done|done]. }
  split; [unfold in_u, flushed_manifest, next_generation, max_u64 in *; simpl; lia|].
  split; [apply names_snoc; [done|lia|apply Hper]|]. split; [done|]. intros Hsize.
  destruct (ok_count _ _ _ _ _ Hok) as (n & Hn & Hc). exists n.
  assert (view_count (segments_view (bss ++ [new])) n) as Hn' by by rewrite flushed_view.
  split; [done|]. unfold flushed_manifest. cbn [logical_sample_count]. rewrite Hc.
  assert (Forall segment_ok (bss ++ [new])) as Hsegs.
  { apply Forall_app. split; [by eapply persisted_segment_ok|by constructor]. }
  pose proof (segments_count _ _ Hsegs Hn') as Hb. apply Forall2_length in Hall.
  apply u64_small. unfold in_u, max_manifest_segments, size in *. lia.
Qed.

(** After the log has been given up. *)
Lemma flushed_engine_ok f f' e i :
  engine_ok f dir e bss records -> fs_ok f' -> blocks_view new ≡ memtable_view (memtable_ e) ->
  persisted f' dir (flushed_manifest e) (bss ++ [new]) -> log_state f' dir i [] ->
  engine_ok f' dir
    (MkStorageEngine (database_directory_ e) (memtable_clear (memtable_ e)) (flushed_manifest e)
       (segments_ e ++ [reader_at dir (segment_name (next_generation e)) new])
       (MkWalWriter (path_ (wal_writer_ e)) (Some i) (durability_ (wal_writer_ e)) 0 false)
       (logical_sample_count_ e) (engine_failed_ e)) (bss ++ [new]) [].
Proof.
  intros [? Hd Hu ? ? Hper Hseg (j & Hus & Hp & _) ? ? (n & Hn & Hc)] Hok' Hnew Hper' Hlog.
  pose proof (persisted_segments _ _ _ _ Hper) as Hall. apply Forall2_length in Hall. split; try done.
  - cbn [segments_ manifest_ flushed_manifest segment_files]. by rewrite zip_with_snoc, Hseg.
  - exists i. by split_and!.
  - exists n. split; [|done]. unfold engine_view. cbn [memtable_].
    assert (view_merge (memtable_view (memtable_clear (memtable_ e))) (segments_view (bss ++ [new])) ≡
      segments_view (bss ++ [new])) as -> by done. by rewrite flushed_view.
Qed.

Lemma log_emptied_synced f f1 f2 i log :
  log_state f dir i log -> emptied f i f1 -> synced f1 i f2 -> log_state f2 dir i [] /\ inode f2 i = settled [].
Proof.
  intros (Hn & He & _) (He1 & _ & Hi1) (He2 & _ & Hi2).
  assert (inode f2 i = settled []) as Hi by by rewrite Hi2, decide_True, Hi1, decide_True.
  split; [|done]. split; [by rewrite He2, He1|]. split; [intros e; rewrite He2, He1; apply He|]. rewrite Hi.
  split; [done|]. intros v Hv. apply possible_settled in Hv as ->. by exists 0%nat.
Qed.

(** [wal_reset] and what follows it. *)
Lemma wp_give_up_log w0 e w :
  engine_ok (fs w0) dir e bss records -> (faulty w -> faulty w0) ->
  blocks_view new ≡ memtable_view (memtable_ e) ->
  fs_ok (fs w) -> log_moved (fs w0) (fs w) dir nothing_new ->
  (exists i, usable (wal_writer_ e) i /\ log_state (fs w) dir i (log_bytes records)) ->
  persisted (fs w) dir (flushed_manifest e) (bss ++ [new]) -> log_named (fs w) dir ->
  wp (set_segments (segments_ e ++ [reader_at dir (segment_name (next_generation e)) new]) (flushed_manifest e);;
      in_wal wal_reset;; set_memtable memtable_clear) (w, e) (fun o st' =>
    match o with
    | Raised x => flush_post dir bss new (w0, e) (Raised x) (st'.1, failed st'.2)
    | _ => flush_post dir bss new (w0, e) o st'
    end).
Proof.
  intros Hok Hf Hnew Hok1 Hm1 (i & Hus & Hlog) Hper Hnamed.
  wp_step. apply wp_set_this. cbn [and_then]. cbn [fst snd]. wp_step. apply wp_in_wal. cbn [fst snd wal_writer_].
  eapply wp_mono; [by apply (wp_wal_reset i)|]. intros o [w' writer]. cbn [fst snd].
  assert (forall f', only_inode (fs w) i f' -> log_moved (fs w) f' dir (fun v => v = []) ->
    publishing (fs w0) f' dir (manifest_ e) (flushed_manifest e) bss (bss ++ [new])) as Hpub.
  { intros f' Ho Hm. apply publishing_new; [by eapply only_inode_ok| |].
    - eapply persisted_log_change; [exact Hok1|by eapply log_state_now|done|done].
    - eapply log_moved_trans; [by apply log_moved_nothing|done]. }
  assert (fs w' = fs w \/ emptied (fs w) i (fs w') ->
    publishing (fs w0) (fs w') dir (manifest_ e) (flushed_manifest e) bss (bss ++ [new])) as Hbad.
  { intros [->|He]; apply Hpub; [apply only_inode_refl|apply log_moved_refl|by eapply emptied_only|by eapply log_moved_emptied]. }
  destruct o as [u|x|]; cbn [and_then].
  - intros ((f & He & Hs) & -> & Hf'). apply wp_set_this. cbn [fst snd].
    pose proof (log_emptied_synced _ _ _ _ _ Hlog He Hs) as [Hl Hi].
    assert (only_inode (fs w) i (fs w')) as Ho.
    { eapply only_inode_trans; [by eapply emptied_only|by eapply synced_only]. }
    assert (log_moved (fs w) (fs w') dir (fun v => v = [])) as Hm.
    { apply (log_moved_inode _ _ _ i (log_bytes records)); [done|apply Ho|].
      intros v. rewrite Hi, possible_settled. tauto. }
    destruct (Hpub _ Ho Hm) as (Hok' & Hp'). split; [by split|]. split; [done|].
    assert (persisted (fs w') dir (flushed_manifest e) (bss ++ [new])) as Hper'.
    { eapply persisted_log_change; [exact Hok1|by eapply log_state_now|done|done]. }
    split; [by apply (flushed_engine_ok (fs w0) (fs w') e i)|]. split; [done|]. split; [done|].
    split; [exists i; split; [by eapply log_state_now|done]|]. split; [|cbn [fst]; auto].
    destruct Hnamed as (j & Hj). exists j. cbn [fst]. by rewrite (only_inode_names _ _ _ Ho).
  - intros (_ & Hfs & _ & Hfy). split; [by apply Hbad|]. split; [left; cbn [fst]; auto|done].
  - intros (Hfs & Hfy). split; [by apply Hbad|]. split; [cbn [excused fst]; auto|done].
Qed.

(** A flush with samples in memory. *)
Lemma wp_flush_samples st :
  engine_ok (fs st.1) dir st.2 bss records -> records <> [] -> make_memtable_blocks st.2 = Ok new ->
  Forall SegmentBlock_ok new -> blocks_view new ≡ memtable_view (memtable_ st.2) ->
  wp engine_flush st (flush_post dir bss new st).
Proof.
  intros Hok Hne Hblocks Hnew Hview. pose proof (ok_persisted _ _ _ _ _ Hok) as Hper.
  pose proof (persisted_generation _ _ _ _ Hper) as Hu. destruct (ok_writer _ _ _ _ _ Hok) as (i & Hus & Hp & Hlog).
  unfold engine_flush. wp_step. apply wp_engine_usable; [apply Hok|]. cbn [and_then].
  rewrite (ok_memtable _ _ _ _ _ Hok), memtable_of_empty by
    first [apply Hok|by eapply engine_ok_records_max].
  rewrite bool_decide_false by done.
  apply wp_or_failed. wp_step. unfold lift at 1, wp at 1. rewrite Hblocks. cbn [fst snd and_then].
  assert (forall x, flush_refused st.2 new -> flush_post dir bss new st (Raised x) (st.1, failed st.2)) as Hrefused.
  { intros x Hr. split; [by apply publishing_old; [apply Hok| |apply log_moved_refl]|]. split; [by right|done]. }
  wp_step. unfold lift at 1, wp at 1.
  destruct (next_segment_filename_spec st.2 Hu) as [[Hg (x & ->)]|(Hg & Hg64 & Hk & ->)]; cbn [fst snd and_then].
  { apply Hrefused. by left. }
  unfold next_generation in Hg64. rewrite Hg64. rewrite (ok_directory _ _ _ _ _ Hok).
  fold (next_generation st.2) in *. fold (flushed_manifest st.2).
  eapply (wp_publish_segment dir (manifest_ st.2) bss (flushed_manifest st.2) (bss ++ [new]) i (log_bytes records) new); try done.
  - apply Hok.
  - unfold next_generation. lia.
  - intros f Hs Hperf Hd. by eapply flush_ready.
  - intros w' Hok' Hk' Hper' Hnamed Hf. destruct st as [w0 e]. cbn [fst snd] in *. apply (wp_give_up_log w0 e w'); try done.
    + by eapply log_moved_kept.
    + exists i. split; [done|]. by eapply log_state_kept.
  - intros o w' Hpub _ Hno Hex.
    assert (excused (faulty st.1) (flush_refused st.2 new) o) as Hex'.
    { destruct o as [|x|]; [done| |done]. destruct Hex as [|[Hs|]]; [by left| |by right; right; right].
      right. right. left. cbn [flushed_manifest segment_files] in Hs. rewrite size_app in Hs.
      unfold size in *. simpl in Hs. lia. }
    destruct o as [u|x|]; [by destruct (Hno u)|..]; by split.
Qed.
End Flush.

(** The blocks [flush] writes. *)
Lemma flush_blocks f dir e bss records :
  engine_ok f dir e bss records ->
  exists new, make_memtable_blocks e = Ok new /\ Forall SegmentBlock_ok new /\
    blocks_view new ≡ memtable_view (memtable_ e).
Proof.
  intros Hok. assert (MemTable_ok (memtable_ e)) as Hm by by eapply engine_ok_holds.
  destruct (memtable_blocks _ Hm) as (new & Hnew & [Hall _] & Hview). exists new.
  unfold make_memtable_blocks. by rewrite memtable_snapshot_spec.
Qed.

(** A flush of no samples is a [sync]. *)
Lemma wp_flush_nothing dir bss st :
  engine_ok (fs st.1) dir st.2 bss [] -> wp engine_flush st (sync_post dir bss [] st).
Proof.
  intros Hok. unfold engine_flush. wp_step. apply wp_engine_usable; [apply Hok|]. cbn [and_then].
  rewrite (ok_memtable _ _ _ _ _ Hok). by apply wp_sync_log.
Qed.
