(* ===== verification/EngineCompact.v ===== *)
(** * Compacting the storage engine

    [compact] merges all segments into one, publishes it in a manifest that names
    nothing else, and removes the old files.  The log is not touched, and what the
    engine holds is unchanged, whether the call returns or a power loss stops it. *)

From stdpp Require Import base tactics option numbers list strings gmap.
From Stdlib Require Import ZArith Lia Sorted.
From S2P Require Import Prelude Errors World Hoare Model OrdMap View MemTable WalRecord FileIo WalFile WalRecovery SegmentBlock Manifest SegmentFile SegmentFormat BlocksView SegmentQuery StorageEngine EngineView EngineBlocks EngineState EngineWrite EngineRecovery EngineFlush.

(** ** Removing the old segments *)

Lemma wp_remove_all paths w :
  fs_ok (fs w) ->
  wp (remove_all paths) w (fun o w' =>
    fs_ok (fs w') /\ kept_unless (fun q => q ∈ paths) (fs w) (fs w') /\
    match o with
    | Done _ => faulty w' -> faulty w
    | Raised _ => False
    | Crashed => faulty w
    end).
Proof.
  revert w. induction paths as [|p paths IH]; intros w Hok; cbn [remove_all].
  { rewrite wp_ret. split; [done|]. split; [intros q _; apply kept_refl|done]. }
  assert (forall w1, (forall q, q <> p -> kept (fs w) (fs w1) q) -> kept_unless (fun q => q ∈ p :: paths) (fs w) (fs w1)) as Hp.
  { intros w1 Hk q Hq. apply Hk. intros ->. by apply Hq; left. }
  wp_step. apply wp_remove; [..|done].
  - intros r w1 _ Hok1 Hk Hs. cbn [and_then]. eapply wp_mono; [by apply IH|].
    intros o w2 (Hok2 & Hk2 & Ho). split; [done|]. split.
    + eapply kept_unless_trans; [by apply Hp|]. intros q Hq. apply Hk2. intros Hin. apply Hq. by right.
    + destruct o; auto.
  - intros w1 Hok1 Hk Hs. cbn [and_then]. split; [done|]. split; [by apply Hp|done].
Qed.

(** ** [compact] *)

Definition compacted_manifest (e : StorageEngine) : ManifestState :=
  MkManifestState (next_generation e) (logical_sample_count (manifest_ e)) [segment_name (next_generation e)].

Definition compact_refused (e : StorageEngine) (new : list SegmentBlock) : Prop :=
  generation (manifest_ e) = max_u64 \/ ~ segment_ok new.

Definition compact_post (dir : string) (bss : list (list SegmentBlock)) (records : list WalPutRecord)
    (new : list SegmentBlock) (st : world * StorageEngine) (o : outcome unit) (st' : world * StorageEngine) : Prop :=
  publishing (fs st.1) (fs st'.1) dir (manifest_ st.2) (compacted_manifest st.2) bss [new] /\
  kept (fs st.1) (fs st'.1) (wal_path dir) /\
  excused (faulty st.1) (compact_refused st.2 new) o /\
  match o with
  | Done _ => engine_ok (fs st'.1) dir st'.2 [new] records /\ manifest_ st'.2 = compacted_manifest st.2 /\
      memtable_ st'.2 = memtable_ st.2 /\ wal_writer_ st'.2 = wal_writer_ st.2 /\
      log_named (fs st'.1) dir /\ (faulty st'.1 -> faulty st.1)
  | Raised _ => engine_failed_ st'.2 = true
  | Crashed => True
  end.

(** What is merged is what the segments hold. *)
Lemma merged_nothing : merged_ok [] /\ merged_view [] = view_empty.
Proof. split; [|done]. split; constructor. Qed.

Section Compact.
Context (dir : string) (Hdir : dir <> EmptyString) (bss : list (list SegmentBlock)) (records : list WalPutRecord).

Lemma segments_view_one new : segments_view [new] ≡ blocks_view new.
Proof.
  pose proof (segments_view_snoc [] new) as H. cbn [app] in H. rewrite H.
  intros s t. unfold view_merge. by destruct (blocks_view new s t).
Qed.

Lemma compact_ready f f' e new :
  engine_ok f dir e bss records -> generation (manifest_ e) < max_u64 ->
  blocks_view new ≡ segments_view bss ->
  segment_ok new -> persisted f' dir (manifest_ e) bss ->
  durable f' (Path dir (segment_name (next_generation e))) (Some (segment_bytes new)) ->
  ready f' dir (compacted_manifest e) [new].
Proof.
  intros Hok Hg Hnew Hs Hper Hd. pose proof (persisted_generation _ _ _ _ Hper) as Hu. unfold in_u in Hu.
  split; [unfold in_u, compacted_manifest, next_generation, max_u64 in *; simpl; lia|].
  split; [|split; [by constructor|]].
  - exists [next_generation e]. split; [done|]. split; [apply NoDup_singleton|]. constructor; [|constructor].
    cbn [generation compacted_manifest]. unfold next_generation. lia.
  - intros _. destruct (persisted_count _ _ _ _ Hper) as (n & Hn & Hc). exists n. split; [|done].
    by rewrite segments_view_one, Hnew.
Qed.

Lemma compacted_engine_ok f f' e new :
  engine_ok f dir e bss records -> fs_ok f' -> blocks_view new ≡ segments_view bss ->
  persisted f' dir (compacted_manifest e) [new] -> kept f f' (wal_path dir) ->
  engine_ok f' dir
    (MkStorageEngine (database_directory_ e) (memtable_ e) (compacted_manifest e)
       [reader_at dir (segment_name (next_generation e)) new] (wal_writer_ e)
       (logical_sample_count_ e) (engine_failed_ e)) [new] records.
Proof.
  intros [? Hd Hu ? ? Hper Hseg (j & Hus & Hp & Hlog) ? ? (n & Hn & Hc)] Hok' Hnew Hper' Hk. split; try done.
  - exists j. split_and!; try done. by eapply log_state_kept.
  - exists n. split; [|done]. unfold engine_view in *. cbn [memtable_].
    by rewrite segments_view_one, Hnew.
Qed.

(** The files that go are none of those that stay. *)
Lemma obsolete_spared f e q :
  engine_ok f dir e bss records -> generation (manifest_ e) < max_u64 ->
  live dir (compacted_manifest e) q \/ q = wal_path dir ->
  q ∉ map (Path dir) (segment_files (manifest_ e)).
Proof.
  intros Hok Hg Hq (name & -> & Hn)%list_elem_of_fmap. pose proof (ok_persisted _ _ _ _ _ Hok) as Hper.
  pose proof (persisted_generation _ _ _ _ Hper) as Hu. unfold in_u, max_u64 in *.
  destruct Hq as [Hq| Hq].
  - destruct Hq as [Hq|(name' & Hn' & Hq)].
    + destruct (names_in_range _ _ _ _ Hper _ Hn) as (k & -> & _). by apply (f_equal filename) in Hq.
    + apply (f_equal filename) in Hq. cbn [filename] in Hq. subst name'.
      apply list_elem_of_singleton in Hn'. subst name. revert Hn.
      eapply (next_name_fresh _ _ _ _ _ Hper); unfold next_generation, in_u; lia.
  - destruct (names_in_range _ _ _ _ Hper _ Hn) as (k & -> & _). by apply (f_equal filename) in Hq.
Qed.

Lemma wp_give_up_segments w0 e w new :
  engine_ok (fs w0) dir e bss records -> generation (manifest_ e) < max_u64 -> (faulty w -> faulty w0) ->
  blocks_view new ≡ segments_view bss -> fs_ok (fs w) -> kept (fs w0) (fs w) (wal_path dir) ->
  persisted (fs w) dir (compacted_manifest e) [new] -> log_named (fs w) dir ->
  wp (set_segments [reader_at dir (segment_name (next_generation e)) new] (compacted_manifest e);;
      in_world (remove_all (map (Path dir) (segment_files (manifest_ e))))) (w, e) (fun o st' =>
    match o with
    | Raised x => compact_post dir bss records new (w0, e) (Raised x) (st'.1, failed st'.2)
    | _ => compact_post dir bss records new (w0, e) o st'
    end).
Proof.
  intros Hok Hg Hf Hnew Hok1 Hk1 Hper Hnamed. wp_step. apply wp_set_this. cbn [and_then fst snd].
  apply wp_in_world. cbn [fst]. eapply wp_mono; [by apply wp_remove_all|]. intros o w' (Hok' & Hk & Ho).
  assert (kept (fs w) (fs w') (wal_path dir)) as Hkw by (apply Hk; eapply obsolete_spared; eauto).
  assert (persisted (fs w') dir (compacted_manifest e) [new]) as Hper'.
  { apply (persisted_kept (fs w)); [|done]. intros q Hq. apply Hk. eapply obsolete_spared; eauto. }
  pose proof (kept_trans _ _ _ _ Hk1 Hkw) as Hkept.
  destruct (ok_writer _ _ _ _ _ Hok) as (i & _ & _ & Hlog).
  assert (publishing (fs w0) (fs w') dir (manifest_ e) (compacted_manifest e) bss [new]) as Hpub.
  { apply publishing_new; [done|done|]. by eapply log_moved_kept. }
  destruct o as [u|x|]; [|done|].
  - split; [done|]. split; [done|]. split; [done|]. cbn [fst snd].
    split; [by apply (compacted_engine_ok (fs w0))|]. split; [done|]. split; [done|]. split; [done|].
    split; [|auto]. destruct Hnamed as (j & Hj). destruct Hkw as [He _]. exists j. destruct He as [-> | ->]; [done|].
    by rewrite Hj.
  - split; [done|]. split; [done|]. split; [by apply Hf|done].
Qed.

(** The merged samples in blocks. *)
Lemma merged_blocks m :
  merged_ok m -> merged_view m ≡ segments_view bss ->
  exists new, blocks_from_snapshots (snapshots (as_memtable m)) = Ok new /\ Forall SegmentBlock_ok new /\
    blocks_view new ≡ segments_view bss.
Proof.
  intros Hm Hv. destruct (memtable_blocks _ (as_memtable_ok m Hm)) as (new & Hnew & [Hall _] & Hview).
  exists new. split; [done|]. split; [done|]. by rewrite Hview.
Qed.

Lemma merged_exists : Forall segment_ok bss -> exists m, merged_ok m /\ merged_view m ≡ segments_view bss.
Proof.
  induction bss as [|bs l IH] using rev_ind; intros Hall; [by exists []; split; [apply merged_nothing|]|].
  apply Forall_app in Hall as [Hall Hbs]. apply Forall_inv in Hbs. destruct (IH Hall) as (m & Hm & Hv).
  destruct (merge_blocks_spec bs m (segment_ordered _ Hbs) Hm) as [Hok Hv']. eexists. split; [exact Hok|].
  by rewrite Hv', segments_view_snoc, Hv.
Qed.

Lemma merged_count m e f :
  merged_ok m -> merged_view m ≡ segments_view bss -> persisted f dir (manifest_ e) bss ->
  u64 (0 + Z.of_nat (total_samples m)) = logical_sample_count (manifest_ e).
Proof.
  intros Hm Hv Hper. destruct (persisted_count _ _ _ _ Hper) as (n & Hn & Hc).
  pose proof (memtable_view_count _ (as_memtable_ok m Hm)) as Hcount. cbn [as_memtable series_] in Hcount.
  assert (view_count (merged_view m) n) as Hn' by by rewrite Hv.
  rewrite (view_count_unique _ _ _ Hcount Hn'). pose proof (persisted_count_bound _ _ _ _ Hper) as Hb.
  rewrite Hc in *. rewrite Z.add_0_l, u64_small; [done|]. unfold in_u. lia.
Qed.

(** At most one segment: nothing to do. *)
Lemma wp_compact_nothing st :
  engine_ok (fs st.1) dir st.2 bss records -> size (segments_ st.2) <= 1 ->
  wp engine_compact st (fun o st' => o = Done tt /\ st' = st).
Proof.
  intros Hok Hs. unfold engine_compact. wp_step. apply wp_engine_usable; [apply Hok|]. cbn [and_then].
  rewrite (proj2 (Z.leb_le _ _)) by done. by rewrite wp_ret.
Qed.

(** It stops before anything has been written. *)
Lemma compact_untouched st (o : outcome unit) w' e new :
  engine_ok (fs st.1) dir st.2 bss records -> fs w' = fs st.1 ->
  Forall SegmentBlock_ok new -> blocks_view new ≡ segments_view bss ->
  excused (faulty st.1) (compact_refused st.2 new) o ->
  match o with Done _ => False | Raised _ => engine_failed_ e = true | Crashed => True end ->
  exists new, Forall SegmentBlock_ok new /\ blocks_view new ≡ segments_view bss /\
    compact_post dir bss records new st o (w', e).
Proof.
  intros Hok Hf Hnew Hview Hex Ho. destruct (ok_writer _ _ _ _ _ Hok) as (i & _ & _ & Hlog).
  exists new. split; [done|]. split; [done|]. split; cbn [fst snd]; rewrite Hf.
  { apply publishing_old; [exact (ok_fs _ _ _ _ _ Hok)|exact (ok_persisted _ _ _ _ _ Hok)|apply log_moved_refl]. }
  split; [apply kept_refl|]. split; [done|]. by destruct o.
Qed.

Lemma wp_compact_segments st :
  engine_ok (fs st.1) dir st.2 bss records -> 1 < size (segments_ st.2) ->
  wp engine_compact st (fun o st' =>
    exists new, Forall SegmentBlock_ok new /\ blocks_view new ≡ segments_view bss /\
      compact_post dir bss records new st o st').
Proof.
  intros Hok Hsize. pose proof (ok_persisted _ _ _ _ _ Hok) as Hper.
  pose proof (persisted_generation _ _ _ _ Hper) as Hu. destruct (ok_writer _ _ _ _ _ Hok) as (i & Hus & Hp & Hlog).
  pose proof (ok_fs _ _ _ _ _ Hok) as Hfs.
  unfold engine_compact. wp_step. apply wp_engine_usable; [apply Hok|]. cbn [and_then].
  rewrite (proj2 (Z.leb_gt _ _)) by done. apply wp_or_failed. wp_step. apply wp_in_world.
  eapply wp_mono; [apply wp_merge_segments with (bss := bss); [by eapply engine_ok_readers|apply merged_nothing]|].
  destruct (merged_exists (persisted_segment_ok _ _ _ _ Hper)) as (m0 & Hm0 & Hv0).
  destruct (merged_blocks m0 Hm0 Hv0) as (new0 & _ & Hnew0 & Hview0).
  intros o w1 [Hf1 Ho1]. destruct merged_nothing as [_ Hnone].
  destruct o as [m|x|]; cbn [and_then].
  2:{ destruct Ho1 as [Hf|[]]. by apply (compact_untouched st (Raised x) w1 _ new0); [..|left|]. }
  2:{ by apply (compact_untouched st Crashed w1 _ new0). }
  destruct Ho1 as [[Hm Hv] Hs1]. rewrite Hnone, segments_view_foldl in Hv.
  destruct (merged_blocks m Hm Hv) as (new & Hblocks & Hnew & Hview).
  wp_step. unfold lift at 1, wp at 1. rewrite snapshots_of_spec by (apply Hm || done). cbn [fst snd and_then app].
  wp_step.
  rewrite (merged_count m st.2 (fs st.1)), Z.eqb_refl by done. cbn [negb]. rewrite wp_throw_when_false. cbn [and_then].
  change (map _ m) with (snapshots (as_memtable m)).
  wp_step. unfold lift at 1, wp at 1. rewrite Hblocks. cbn [fst snd and_then].
  wp_step. unfold lift at 1, wp at 1.
  destruct (next_segment_filename_spec st.2 Hu) as [[Hg (x & ->)]|(Hg & Hg64 & Hk & ->)]; cbn [fst snd and_then].
  { by apply (compact_untouched st (Raised x) w1 _ new); [..|right; left|]. }
  unfold next_generation in Hg64. rewrite Hg64. rewrite (ok_directory _ _ _ _ _ Hok).
  fold (next_generation st.2) in *. fold (compacted_manifest st.2).
  rewrite <-Hf1 in Hfs, Hper, Hlog.
  eapply (wp_publish_segment dir (manifest_ st.2) bss (compacted_manifest st.2) [new] i (log_bytes records) new); try done.
  - unfold next_generation. lia.
  - intros f Hs Hperf Hd. by eapply compact_ready.
  - intros w' Hok' Hk' Hper' Hnamed Hf. cbn [fst snd] in *. rewrite Hf1 in Hk'. destruct st as [w0 e]. cbn [fst snd] in *.
    eapply wp_mono; [by apply (wp_give_up_segments w0 e w' new); auto|].
    intros [u|x|] st' Hst; exists new; by split_and!.
  - intros o w' Hpub Hkw Hno Hex. cbn [fst snd] in *. rewrite Hf1 in Hpub, Hkw.
    assert (excused (faulty st.1) (compact_refused st.2 new) o) as Hex'.
    { destruct o as [|x|]; [done| |by apply Hs1]. destruct Hex as [|[Hs|]]; [left; auto| |by right; right].
      cbn [compacted_manifest segment_files] in Hs. unfold max_manifest_segments, size in Hs. simpl in Hs. lia. }
    destruct o as [u|x|]; [by destruct (Hno u)|..]; exists new; by split_and!.
Qed.
End Compact.
