(* ===== verification/EngineSafety.v ===== *)
(** * What survives a power loss

    [leaves f R]: after a power loss, opening the database finds contents that [R]
    allows.  [survives f R]: every power loss leaves that.  The lemmas say what each
    operation makes of it; the contract of the engine is built on them. *)

From stdpp Require Import base tactics option numbers list strings gmap.
From Stdlib Require Import ZArith Lia.
From S2P Require Import Prelude Errors World Hoare Model OrdMap View MemTable WalRecord FileIo WalFile WalRecovery SegmentBlock Manifest SegmentFile SegmentFormat BlocksView SegmentQuery StorageEngine EngineView EngineBlocks EngineState EngineWrite EngineRecovery EngineFlush EngineCompact.

(** The contents a specification allows; it does not tell equal views apart. *)
Definition one_view (v : view) : view -> Prop := fun v' => v' ≡ v.
Definition two_views (v1 v2 : view) : view -> Prop := fun v' => v' ≡ v1 \/ v' ≡ v2.

Definition closed (R : view -> Prop) : Prop := forall v v', v ≡ v' -> R v -> R v'.

Lemma one_view_closed v : closed (one_view v).
Proof. unfold one_view. intros v1 v2 H <-. by symmetry. Qed.

Lemma two_views_closed v1 v2 : closed (two_views v1 v2).
Proof. intros v v' H [Hv|Hv]; [left|right]; rewrite <-Hv; by symmetry. Qed.

Section Safety.
Context (dir : string).

(** The bytes of the log a power loss left, [found] of them. *)
Definition log_left (all : list WalPutRecord) (found : option nat) (f : fsys) : Prop :=
  durable f (wal_path dir) ((fun k => take k (log_bytes all)) <$> found).

Definition leaves (R : view -> Prop) (f : fsys) : Prop :=
  exists m bss all found,
    persisted f dir m bss /\ Forall record_ok all /\ size (log_bytes all) <= max_u64 /\
    log_left all found f /\
    forall j, recovers all found j -> R (records_view (take j all) (segments_view bss)).

Definition survives (R : view -> Prop) (f : fsys) : Prop := forall f', crash f f' -> leaves R f'.

Lemma leaves_survives R f : leaves R f -> survives R f.
Proof.
  intros (m & bss & all & found & Hp & Hall & Hmax & Hl & HR) f' Hc. exists m, bss, all, found.
  split; [by eapply persisted_crash|]. split; [done|]. split; [done|]. split; [by eapply durable_crash|done].
Qed.

Lemma leaves_mono (R R' : view -> Prop) f : (forall v, R v -> R' v) -> leaves R f -> leaves R' f.
Proof.
  intros HR (m & bss & all & found & Hp & Hall & Hmax & Hl & Hr). exists m, bss, all, found. split_and!; auto.
Qed.

Lemma survives_mono (R R' : view -> Prop) f : (forall v, R v -> R' v) -> survives R f -> survives R' f.
Proof. intros HR H f' Hc. by eapply leaves_mono, H. Qed.

(** ** How many records come back *)

Lemma recovers_Some all k j :
  recovers all (Some k) j ->
  (j <= length all)%nat /\
  forall n, (n <= length all)%nat -> (n <= j)%nat <-> (length (log_bytes (take n all)) <= k)%nat.
Proof.
  intros ((torn & Ht) & Hj & Hmax). split; [done|]. intros n Hn. split; [|by apply Hmax]. intros Hnj.
  pose proof (f_equal length Ht) as Hlen. rewrite length_app, length_take in Hlen.
  pose proof (log_bytes_take_mono all n j Hnj). lia.
Qed.

Lemma recovers_unique all found j j' : recovers all found j -> recovers all found j' -> j = j'.
Proof.
  destruct found as [k|]; [|intros -> ->; done]. intros H H'.
  destruct (recovers_Some _ _ _ H) as [Hj Hn], (recovers_Some _ _ _ H') as [Hj' Hn'].
  assert (j <= j')%nat by by apply Hn', Hn.
  assert (j' <= j)%nat by by apply Hn, Hn'. lia.
Qed.

(** All of the log. *)
Lemma recovers_all all j : recovers all (Some (length (log_bytes all))) j -> j = length all.
Proof.
  intros H. destruct (recovers_Some _ _ _ H) as [Hj Hn]. apply Nat.le_antisymm; [done|].
  apply Hn; [done|]. by rewrite firstn_all.
Qed.

(** All of it but perhaps the last record. *)
Lemma recovers_last records r k j :
  recovers (records ++ [r]) (Some (length (log_bytes records) + k)%nat) j ->
  take j (records ++ [r]) = records \/ take j (records ++ [r]) = records ++ [r].
Proof.
  intros H. destruct (recovers_Some _ _ _ H) as [Hj Hn].
  assert (length records <= j)%nat.
  { apply Hn; [rewrite length_app; lia|]. rewrite take_app_length. lia. }
  rewrite length_app in Hj. simpl in Hj. destruct (decide (j = length records)) as [->|].
  - left. apply take_app_length.
  - right. apply firstn_all2. rewrite length_app. simpl. lia.
Qed.

(** ** The log of a running engine *)

(** The log is on stable storage, with its name unless it is empty. *)
Definition log_settled (f : fsys) (records : list WalPutRecord) : Prop :=
  log_synced f dir (log_bytes records) /\ (log_named f dir \/ records = []).

(** What a power loss leaves of the log of an engine. *)
Lemma after_crash_log f i log records r :
  log_state f dir i log -> log_settled f records -> after_crash f (wal_path dir) r ->
  r = Some (log_bytes records) \/ records = [] /\ r = None.
Proof.
  intros (Hn & He & _) [(i' & Hn' & Hi) Hname] (e & Hin & Hr). rewrite Hn in Hn'. injection Hn' as <-.
  destruct (He e Hin) as [-> | ->].
  - left. destruct Hr as (v & Hv & ->). rewrite Hi in Hv. apply possible_settled in Hv as ->. done.
  - destruct Hname as [(j & Hj)| ->]; [|by right]. rewrite Hj in Hin. by apply possible_settled in Hin.
Qed.

Lemma crash_log f f' : crash f f' ->
  after_crash f (wal_path dir) (file_of f' (wal_path dir)) /\ durable f' (wal_path dir) (file_of f' (wal_path dir)).
Proof. intros Hc. split; [by apply crash_file_of|by eapply crash_durable]. Qed.

(** The log is there as it was: its records come back over any segments. *)
Lemma leaves_log R f m bss records r :
  persisted f dir m bss -> Forall record_ok records -> size (log_bytes records) <= max_u64 ->
  durable f (wal_path dir) r -> r = Some (log_bytes records) \/ records = [] /\ r = None ->
  R (records_view records (segments_view bss)) -> leaves R f.
Proof.
  intros Hp Hall Hmax Hd Hr HR. destruct Hr as [-> |[-> ->]].
  - exists m, bss, records, (Some (length (log_bytes records))). split; [done|]. split; [done|]. split; [done|].
    split; [unfold log_left; simpl; by rewrite firstn_all|]. intros j Hj. apply recovers_all in Hj as ->.
    by rewrite firstn_all.
  - exists m, bss, [], None. split; [done|]. split; [done|]. split; [done|]. split; [done|].
    intros j ->. exact HR.
Qed.

(** An emptied log brings back nothing. *)
Lemma leaves_empty R f m bss :
  persisted f dir m bss -> durable f (wal_path dir) (Some []) -> R (segments_view bss) -> leaves R f.
Proof.
  intros Hp Hd HR. by apply (leaves_log R f m bss [] (Some [])); [| | | |left|].
Qed.

(** ** A running engine whose log is settled loses nothing *)

Lemma engine_survives f e bss records :
  engine_ok f dir e bss records -> log_settled f records -> survives (one_view (engine_view e bss)) f.
Proof.
  intros Hok Hset f' Hc. destruct (crash_log f f' Hc) as [Hr Hd].
  destruct (ok_writer _ _ _ _ _ Hok) as (i & _ & _ & Hlog).
  eapply leaves_log; [eapply persisted_crash; [done|apply Hok]|apply Hok|apply Hok|exact Hd| |].
  - by eapply after_crash_log.
  - unfold one_view. symmetry. by eapply engine_ok_view.
Qed.

(** [put], whatever becomes of it: a power loss leaves the old contents or the new. *)
Lemma put_survives f e bss records r f' :
  engine_ok f dir e bss records -> log_settled f records ->
  persisted f' dir (manifest_ e) bss -> log_moved f f' dir (put_log records r) ->
  survives (two_views (engine_view e bss) (view_put (series r) (sample r) (engine_view e bss))) f'.
Proof.
  intros Hok Hset Hper Hmoved f1 Hc. destruct (crash_log f' f1 Hc) as [Hr Hd].
  destruct (ok_writer _ _ _ _ _ Hok) as (i & _ & _ & Hlog). pose proof (engine_ok_view _ _ _ _ _ Hok) as Hview.
  pose proof (persisted_crash _ _ _ _ _ Hc Hper) as Hper1. destruct (Hmoved _ Hr) as [Hold|(v & Hv & Hrok & Hmax & k & ->)].
  - eapply leaves_log; [exact Hper1|apply Hok|apply Hok|exact Hd|by eapply after_crash_log|].
    left. by rewrite Hview.
  - rewrite Hv in Hd. exists (manifest_ e), bss, (records ++ [r]), (Some (length (log_bytes records) + k)%nat).
    split; [done|]. split; [apply Forall_app; split; [apply Hok|by constructor]|]. split; [done|]. split.
    + unfold log_left. cbn [fmap option_fmap option_map]. rewrite log_bytes_snoc, take_app_add. exact Hd.
    + intros j Hj. destruct (recovers_last _ _ _ _ Hj) as [-> | ->]; [left|right]; [by rewrite Hview|].
      rewrite records_view_snoc. by rewrite Hview.
Qed.

(** A new manifest whose segments hold what the old segments and the log did:
    whatever a power loss leaves of the two, the contents are the same. *)
Lemma publishing_survives f e bss records m' bss' f' :
  engine_ok f dir e bss records -> log_settled f records ->
  publishing f f' dir (manifest_ e) m' bss bss' ->
  (records_view records (segments_view bss') ≡ engine_view e bss) ->
  (log_moved f f' dir nothing_new \/ segments_view bss' ≡ engine_view e bss) ->
  survives (one_view (engine_view e bss)) f'.
Proof.
  intros Hok Hset [_ Hpub] Hsame Hempty f1 Hc. destruct (crash_log f' f1 Hc) as [Hr Hd].
  destruct (ok_writer _ _ _ _ _ Hok) as (i & _ & _ & Hlog). pose proof (engine_ok_view _ _ _ _ _ Hok) as Hview.
  assert (forall m2 bss2, persisted f1 dir m2 bss2 -> records_view records (segments_view bss2) ≡ engine_view e bss ->
    after_crash f (wal_path dir) (file_of f1 (wal_path dir)) -> leaves (one_view (engine_view e bss)) f1) as Hkeep.
  { intros m2 bss2 Hp2 H2 Hr2. eapply leaves_log; [exact Hp2|apply Hok|apply Hok|exact Hd|by eapply after_crash_log|done]. }
  destruct Hpub as [[Hper Hmoved]|[Hper Hmoved]].
  - destruct (Hmoved _ Hr) as [Hold|(v & _ & [])]. destruct (Hper _ Hc) as [Hp|Hp]; eapply Hkeep; eauto.
  - pose proof (persisted_crash _ _ _ _ _ Hc Hper) as Hper1. destruct (Hmoved _ Hr) as [Hold|(v & Hv & ->)].
    + by eapply Hkeep.
    + destruct Hempty as [Hno|Hempty].
      * destruct (Hno _ Hr) as [Hold|(v & _ & [])]. by eapply Hkeep.
      * rewrite Hv in Hd. by eapply leaves_empty.
Qed.

Lemma flush_survives f e bss records new f' :
  engine_ok f dir e bss records -> log_settled f records -> blocks_view new ≡ memtable_view (memtable_ e) ->
  publishing f f' dir (manifest_ e) (flushed_manifest e) bss (bss ++ [new]) ->
  survives (one_view (engine_view e bss)) f'.
Proof.
  intros Hok Hset Hnew Hpub. pose proof (flushed_view bss new e Hnew) as Hsame.
  eapply publishing_survives; [done|done|exact Hpub| |by right].
  rewrite Hsame. pose proof (engine_ok_view _ _ _ _ _ Hok) as Hview. rewrite Hview. apply records_view_twice.
Qed.

Lemma compact_survives f e bss records new f' :
  engine_ok f dir e bss records -> log_settled f records -> blocks_view new ≡ segments_view bss ->
  publishing f f' dir (manifest_ e) (compacted_manifest e) bss [new] -> kept f f' (wal_path dir) ->
  survives (one_view (engine_view e bss)) f'.
Proof.
  intros Hok Hset Hnew Hpub Hk. destruct (ok_writer _ _ _ _ _ Hok) as (i & _ & _ & Hlog).
  eapply publishing_survives; [done|done|exact Hpub| |left; by eapply log_moved_kept].
  rewrite segments_view_one, Hnew. symmetry. by eapply engine_ok_view.
Qed.

(** [open], whatever becomes of it. *)
Lemma recovering_survives R m bss all found f f' :
  closed R -> Forall record_ok all -> size (log_bytes all) <= max_u64 -> log_left all found f ->
  (forall j, recovers all found j -> R (records_view (take j all) (segments_view bss))) ->
  recovering dir m bss all found f f' -> survives R f'.
Proof.
  intros HRc Hall Hmax Hl HR (_ & Hper & Hmoved) f1 Hc. destruct (crash_log f' f1 Hc) as [Hr Hd].
  pose proof (persisted_crash _ _ _ _ _ Hc Hper) as Hper1. destruct (Hmoved _ Hr) as [Hold|(v & Hv & j & Hj & ->)].
  - rewrite (durable_after_crash _ _ _ _ Hl Hold) in Hd. by exists m, bss, all, found.
  - rewrite Hv in Hd. eapply (leaves_log R f1 m bss (take j all)); [done|by apply Forall_take| |exact Hd|by left|by apply HR].
    pose proof (f_equal log_bytes (take_drop j all)) as H. rewrite log_bytes_app in H.
    rewrite <-H, size_app in Hmax. pose proof (size_nonneg (log_bytes (drop j all))). lia.
Qed.
End Safety.
