(* ===== verification/EngineContract.v ===== *)
(** * The contract of the storage engine

    The specification is a view: which value each series has at each time.  Every
    operation of the engine is an operation on the view, or fails and says why, and
    with [sync_on_append] what was acknowledged is there after any power loss. *)

From stdpp Require Import base tactics option numbers list strings gmap relations.
From Stdlib Require Import ZArith Lia.
From S2P Require Import Prelude Errors World Hoare Model OrdMap View MemTable WalRecord FileIo WalFile WalRecovery SegmentBlock Manifest SegmentFile SegmentFormat BlocksView SegmentQuery StorageEngine EngineView EngineBlocks EngineState EngineWrite EngineRecovery EngineFlush EngineCompact EngineSafety.

(** ** Engines that hold a view *)

Definition running (dir : string) (st : world * StorageEngine) (v : view) : Prop :=
  exists bss records, engine_ok (fs st.1) dir st.2 bss records /\ engine_view st.2 bss ≡ v.

(** One that syncs every append, and whose log is on stable storage. *)
Definition settled_engine (dir : string) (st : world * StorageEngine) (v : view) : Prop :=
  exists bss records, engine_ok (fs st.1) dir st.2 bss records /\ engine_view st.2 bss ≡ v /\
    log_settled dir (fs st.1) records /\ durability_ (wal_writer_ st.2) = sync_on_append.

Lemma settled_running dir st v : settled_engine dir st v -> running dir st v.
Proof. intros (bss & records & Hok & Hv & _). by exists bss, records. Qed.

Lemma one_view_equal dir v v' f : v ≡ v' -> survives dir (one_view v) f -> survives dir (one_view v') f.
Proof. intros Hv. apply survives_mono. unfold one_view. intros u Hu. by rewrite Hu. Qed.

Lemma settled_survives dir st v : settled_engine dir st v -> survives dir (one_view v) (fs st.1).
Proof.
  intros (bss & records & Hok & Hv & Hs & _). eapply one_view_equal; [exact Hv|]. by eapply engine_survives.
Qed.

Lemma still_survives dir f e bss records f' :
  engine_ok f dir e bss records -> log_settled dir f records -> persisted f' dir (manifest_ e) bss ->
  log_moved f f' dir nothing_new -> survives dir (one_view (engine_view e bss)) f'.
Proof.
  intros Hok Hset Hper Hmoved f1 Hc. destruct (crash_log dir f' f1 Hc) as [Hr Hd].
  destruct (ok_writer _ _ _ _ _ Hok) as (i & _ & _ & Hlog). pose proof (engine_ok_view _ _ _ _ _ Hok) as Hview.
  destruct (Hmoved _ Hr) as [Hold|(v & _ & [])].
  eapply leaves_log; [by eapply persisted_crash|apply Hok|apply Hok|exact Hd|by eapply after_crash_log|].
  unfold one_view. by symmetry.
Qed.

(** ** Opening *)

(** [found] of a settled log. *)
Lemma log_left_found dir all found f : log_left dir all found f -> log_found dir all f found.
Proof.
  destruct found as [k|]; [|done]. intros (i & He & Hi). exists i. split; [by rewrite He|].
  split; [intros e Hin; left; rewrite He in Hin; by apply possible_settled in Hin|].
  split; [by rewrite Hi|]. intros v Hv. rewrite Hi in Hv. apply possible_settled in Hv as ->.
  exists (length (take k (log_bytes all))). by rewrite firstn_all.
Qed.

Lemma log_left_settles dir all found f f' j :
  log_left dir all found f -> recovers all found j -> settles dir all found j f f' ->
  log_settled dir f' (take j all).
Proof.
  destruct found as [k|]; simpl.
  - intros Hl _ [Hs Hn]. apply log_durable in Hl as [Hname Hsync]. split; [auto|left; auto].
  - intros _ -> Hs. split; [exact Hs|by right].
Qed.

Definition open_outcome (dir : string) (d : WalDurability) (R : view -> Prop) (w : world)
    (o : outcome StorageEngine) (w' : world) : Prop :=
  match o with
  | Done e => durability_ (wal_writer_ e) = d /\ (faulty w' -> faulty w) /\
      (log_named (fs w) dir -> log_named (fs w') dir) /\
      exists v bss records, R v /\ engine_ok (fs w') dir e bss records /\ engine_view e bss ≡ v /\
        log_settled dir (fs w') records
  | _ => faulty w /\ survives dir R (fs w')
  end.

Lemma wp_open_left dir d R w :
  dir <> EmptyString -> closed R -> fs_ok (fs w) -> leaves dir R (fs w) ->
  wp (engine_open (wal_path dir) d) w (open_outcome dir d R w).
Proof.
  intros Hdir HRc Hok (m & bss & all & found & Hper & Hall & Hmax & Hl & HR).
  eapply wp_mono; [by apply (wp_engine_open dir Hdir m bss all Hall Hmax d found), log_left_found|].
  intros o w' [Hrec Ho]. destruct o as [e|x|].
  - destruct Ho as (j & Hj & Heok & _ & Hd & Hse & Hf). split; [done|]. split; [done|]. split.
    { destruct found as [k|]; [apply Hse|]. intros (i & Hi). exfalso. unfold log_left in Hl. simpl in Hl. by rewrite Hl in Hi. }
    exists (engine_view e bss), bss, (take j all). split; [|split; [done|split; [done|]]].
    + eapply HRc; [|by apply HR]. symmetry. by eapply engine_ok_view.
    + by eapply log_left_settles.
  - split; [done|]. by eapply recovering_survives.
  - split; [done|]. by eapply recovering_survives.
Qed.

(** A database that has never been opened. *)
Lemma fresh_leaves dir f :
  durable f (manifest_path dir) None -> durable f (wal_path dir) None -> leaves dir (one_view view_empty) f.
Proof.
  intros Hm Hw. exists empty_manifest, [], [], None. split; [|split; [done|split; [done|split; [done|by intros j ->]]]].
  constructor; [done| |done|by constructor| |by right].
  - exists []. split; [done|]. split; constructor.
  - exists 0%nat. split; [apply view_count_empty|done].
Qed.

(** ** The operations on the view *)

Definition put_outcome (dir : string) (s : SeriesKey) (x : Sample) (v : view) (st : world * StorageEngine)
    (o : outcome unit) (st' : world * StorageEngine) : Prop :=
  match o with
  | Done _ => running dir st' (view_put s x v) /\ (faulty st'.1 -> faulty st.1)
  | Raised _ => (running dir st' v \/ engine_failed_ st'.2 = true) /\
      (faulty st.1 \/ put_refused st.2 (MkWalPutRecord s x))
  | Crashed => faulty st.1
  end.

Lemma put_post_outcome dir s x v bss records st o st' :
  engine_ok (fs st.1) dir st.2 bss records -> engine_view st.2 bss ≡ v ->
  put_post dir bss records (MkWalPutRecord s x) st o st' -> put_outcome dir s x v st o st'.
Proof.
  intros Hok Hv (_ & _ & _ & Ho). destruct o as [u|e|]; [|destruct Ho as [Hstop Hwhy]; split; [|done]|done].
  - destruct Ho as (Hok' & _ & _ & _ & _ & Hf). split; [|done]. exists bss, (records ++ [MkWalPutRecord s x]).
    split; [done|]. rewrite (engine_ok_view _ _ _ _ _ Hok'), records_view_snoc, <-(engine_ok_view _ _ _ _ _ Hok).
    cbn [series sample]. by rewrite Hv.
  - destruct Hstop as [[He Hf]|]; [left|by right]. exists bss, records. by rewrite He, Hf.
Qed.

Definition sync_put_outcome (dir : string) (s : SeriesKey) (x : Sample) (v : view)
    (o : outcome unit) (st' : world * StorageEngine) : Prop :=
  match o with
  | Done _ => settled_engine dir st' (view_put s x v)
  | Raised _ => settled_engine dir st' v \/
      engine_failed_ st'.2 = true /\ survives dir (two_views v (view_put s x v)) (fs st'.1)
  | Crashed => survives dir (two_views v (view_put s x v)) (fs st'.1)
  end.

Lemma two_views_equal dir v1 v2 v1' v2' f :
  v1 ≡ v1' -> v2 ≡ v2' -> survives dir (two_views v1 v2) f -> survives dir (two_views v1' v2') f.
Proof. intros H1 H2. apply survives_mono. intros u [Hu|Hu]; [left|right]; by rewrite Hu. Qed.

Lemma put_post_settled dir s x v bss records st o st' :
  engine_ok (fs st.1) dir st.2 bss records -> engine_view st.2 bss ≡ v ->
  log_settled dir (fs st.1) records -> durability_ (wal_writer_ st.2) = sync_on_append -> log_named (fs st.1) dir ->
  put_post dir bss records (MkWalPutRecord s x) st o st' -> sync_put_outcome dir s x v o st'.
Proof.
  intros Hok Hv Hset Hd Hname (Hsame & Hper & Hmoved & Ho).
  assert (survives dir (two_views v (view_put s x v)) (fs st'.1)) as Hsurv.
  { pose proof (put_survives _ _ _ _ _ _ _ Hok Hset Hper Hmoved) as H.
    eapply two_views_equal; [exact Hv| |exact H]. cbn [series sample]. by rewrite Hv. }
  destruct o as [u|e|]; [|destruct Ho as [Hstop Hwhy]|done].
  - destruct Ho as (Hok' & _ & Hdur & _ & Hsync & Hf). exists bss, (records ++ [MkWalPutRecord s x]).
    split; [done|]. split; [|split; [split; [by apply Hsync|left; by eapply log_named_same]|congruence]].
    rewrite (engine_ok_view _ _ _ _ _ Hok'), records_view_snoc, <-(engine_ok_view _ _ _ _ _ Hok).
    cbn [series sample]. by rewrite Hv.
  - destruct Hstop as [[He Hf]|]; [left|by right]. exists bss, records. by rewrite He, Hf.
Qed.

(** [sync], [flush] and [compact] keep the view. *)
Definition kept_outcome (dir : string) (refused : Prop) (v : view) (st : world * StorageEngine)
    (o : outcome unit) (st' : world * StorageEngine) : Prop :=
  excused (faulty st.1) refused o /\
  match o with
  | Done _ => running dir st' v /\ (faulty st'.1 -> faulty st.1)
  | Raised _ => engine_failed_ st'.2 = true
  | Crashed => True
  end.

Definition settled_outcome (dir : string) (v : view) (o : outcome unit) (st' : world * StorageEngine) : Prop :=
  survives dir (one_view v) (fs st'.1) /\
  match o with
  | Done _ => settled_engine dir st' v
  | Raised _ => engine_failed_ st'.2 = true
  | Crashed => True
  end.

Lemma sync_post_outcome dir v bss records st o st' :
  engine_ok (fs st.1) dir st.2 bss records -> engine_view st.2 bss ≡ v ->
  sync_post dir bss records st o st' -> kept_outcome dir False v st o st'.
Proof.
  intros Hok Hv (_ & _ & _ & Ho). destruct o as [u|e|]; [|by destruct Ho; split; [left|]|by split].
  destruct Ho as (Hok' & He & _ & Hf). split; [done|]. split; [|done]. exists bss, records. by rewrite He in *.
Qed.

Lemma sync_post_settled dir v bss records st o st' :
  engine_ok (fs st.1) dir st.2 bss records -> engine_view st.2 bss ≡ v ->
  log_settled dir (fs st.1) records -> durability_ (wal_writer_ st.2) = sync_on_append ->
  sync_post dir bss records st o st' -> settled_outcome dir v o st'.
Proof.
  intros Hok Hv Hset Hd ([Hsame _] & Hper & Hmoved & Ho). split.
  { eapply one_view_equal; [exact Hv|]. by eapply still_survives. }
  destruct o as [u|e|]; [|by destruct Ho|done]. destruct Ho as (Hok' & He & Hsync & Hf). exists bss, records. rewrite He in *.
  split; [done|]. split; [done|]. split; [|done]. split; [done|].
  destruct Hset as [_ [Hn|Hn]]; [left; by eapply log_named_same|by right].
Qed.

Lemma flush_post_outcome dir v bss records new st o st' :
  engine_ok (fs st.1) dir st.2 bss records -> engine_view st.2 bss ≡ v ->
  blocks_view new ≡ memtable_view (memtable_ st.2) ->
  flush_post dir bss new st o st' -> kept_outcome dir (flush_refused st.2 new) v st o st'.
Proof.
  intros Hok Hv Hnew (_ & Hex & Ho). split; [done|]. destruct o as [u|e|]; [|done|done].
  destruct Ho as (Hok' & _ & _ & _ & _ & Hf). split; [|done]. exists (bss ++ [new]), []. split; [done|].
  rewrite (engine_ok_view _ _ _ _ _ Hok'), <-Hv. cbn [records_view foldl]. by apply flushed_view.
Qed.

Lemma flush_post_settled dir v bss records new st o st' :
  engine_ok (fs st.1) dir st.2 bss records -> engine_view st.2 bss ≡ v ->
  log_settled dir (fs st.1) records -> durability_ (wal_writer_ st.2) = sync_on_append ->
  blocks_view new ≡ memtable_view (memtable_ st.2) ->
  flush_post dir bss new st o st' -> settled_outcome dir v o st'.
Proof.
  intros Hok Hv Hset Hd Hnew (Hpub & _ & Ho). split.
  { eapply one_view_equal; [exact Hv|]. by eapply flush_survives. }
  destruct o as [u|e|]; [|done|done]. destruct Ho as (Hok' & _ & Hdur & Hsync & Hname & Hf).
  exists (bss ++ [new]), []. split; [done|]. split; [|split; [split; [done|by left]|congruence]].
  rewrite (engine_ok_view _ _ _ _ _ Hok'), <-Hv. cbn [records_view foldl]. by apply flushed_view.
Qed.

(** [flush]: with nothing in memory it is a [sync]. *)
Lemma wp_flush_outcome dir v bss records st :
  dir <> EmptyString -> engine_ok (fs st.1) dir st.2 bss records -> engine_view st.2 bss ≡ v ->
  exists new, make_memtable_blocks st.2 = Ok new /\
    wp engine_flush st (fun o st' => kept_outcome dir (flush_refused st.2 new) v st o st' /\
      (forall u, o = Done u -> survives dir (one_view v) (fs st'.1)) /\
      (log_settled dir (fs st.1) records -> durability_ (wal_writer_ st.2) = sync_on_append ->
       settled_outcome dir v o st')).
Proof.
  intros Hdir Hok Hv. destruct (flush_blocks _ _ _ _ _ Hok) as (new & Hblocks & Hnew & Hview).
  exists new. split; [done|]. destruct (decide (records = [])) as [->|Hne].
  - eapply wp_mono; [by apply (wp_flush_nothing dir bss)|]. intros o st' Ho.
    split; [|split; [|by intros ? ?; eapply sync_post_settled]].
    2:{ intros u ->. destruct Ho as (_ & _ & _ & Hok' & He & Hsync & _).
        eapply one_view_equal; [exact Hv|]. rewrite <-He. eapply engine_survives; [exact Hok'|]. split; [exact Hsync|by right]. }
    destruct (sync_post_outcome _ _ _ _ _ _ _ Hok Hv Ho) as [Hex Hrest]. split; [|done].
    destruct o; [done| |done]. destruct Hex as [|[]]. by left.
  - eapply wp_mono; [by apply (wp_flush_samples dir Hdir bss records new)|]. intros o st' Ho.
    split; [by eapply flush_post_outcome|]. split; [|intros Hset Hd; by eapply flush_post_settled].
    intros u ->.
    destruct Ho as (_ & _ & Hok' & _ & _ & Hsync & Hname & _). eapply one_view_equal; [|by eapply engine_survives; [exact Hok'|split; [|left]]].
    rewrite (engine_ok_view _ _ _ _ _ Hok'), <-Hv. by apply flushed_view.
Qed.

Lemma compact_post_view dir v e e' bss new records f f' :
  engine_ok f dir e bss records -> engine_view e bss ≡ v -> blocks_view new ≡ segments_view bss ->
  engine_ok f' dir e' [new] records -> engine_view e' [new] ≡ v.
Proof.
  intros Hok Hv Hnew Hok'.
  rewrite (engine_ok_view _ _ _ _ _ Hok'), <-Hv, (engine_ok_view _ _ _ _ _ Hok), segments_view_one.
  by rewrite Hnew.
Qed.

(** [compact]: with one segment or none it does nothing. *)
Lemma wp_compact_outcome dir v bss records st :
  dir <> EmptyString -> engine_ok (fs st.1) dir st.2 bss records -> engine_view st.2 bss ≡ v ->
  wp engine_compact st (fun o st' =>
    (exists new, blocks_view new ≡ segments_view bss /\ kept_outcome dir (compact_refused st.2 new) v st o st') /\
    (log_settled dir (fs st.1) records -> durability_ (wal_writer_ st.2) = sync_on_append ->
     settled_outcome dir v o st')).
Proof.
  intros Hdir Hok Hv. pose proof (ok_persisted _ _ _ _ _ Hok) as Hper.
  destruct (Z.le_gt_cases (size (segments_ st.2)) 1) as [Hsize|Hsize].
  - eapply wp_mono; [by eapply wp_compact_nothing|]. intros o st' [-> ->]. split.
    + destruct (merged_exists _ (persisted_segment_ok _ _ _ _ Hper)) as (m & Hm & Hmv).
      destruct (merged_blocks _ m Hm Hmv) as (new & _ & _ & Hnew). exists new. split; [done|]. split; [done|].
      split; [|done]. by exists bss, records.
    + intros Hset Hd. assert (settled_engine dir st v) as Hs by by exists bss, records.
      split; [by apply settled_survives|done].
  - eapply wp_mono; [by apply (wp_compact_segments dir Hdir bss records)|].
    intros o st' (new & Hnew & Hview & Hpub & Hk & Hex & Ho). split.
    + exists new. split; [done|]. split; [done|]. destruct o as [u|e|]; [|done|done].
      destruct Ho as (Hok' & _ & _ & _ & _ & Hf). split; [|done]. exists [new], records.
      split; [done|]. exact (compact_post_view _ _ _ _ _ _ _ _ _ Hok Hv Hview Hok').
    + intros Hset Hd. split.
      { eapply one_view_equal; [exact Hv|]. by eapply compact_survives. }
      destruct o as [u|e|]; [|done|done]. destruct Ho as (Hok' & _ & _ & Hw & Hname & _).
      exists [new], records. split; [done|].
      split; [exact (compact_post_view _ _ _ _ _ _ _ _ _ Hok Hv Hview Hok')|].
      split; [split; [by eapply log_synced_kept, Hset|by left]|by rewrite Hw].
Qed.

(** ** Runs *)

(** A running engine, a machine that has stopped with what is on its disk, and one
    that has come back after a power loss. *)
Inductive phase :=
| Up (st : world * StorageEngine)
| Down (w : world)
| Off (w : world).

Definition disk_of (p : phase) : fsys := match p with Up st => fs st.1 | Down w | Off w => fs w end.

(** What a specification allows after a [put] is acknowledged, and while it is not. *)
Definition with_put (s : SeriesKey) (x : Sample) (R : view -> Prop) : view -> Prop :=
  fun v => exists v0, R v0 /\ v ≡ view_put s x v0.
Definition perhaps_put (s : SeriesKey) (x : Sample) (R : view -> Prop) : view -> Prop :=
  fun v => R v \/ with_put s x R v.

(** The engine goes on unless the call crashed or marked it. *)
Definition after {A} (o : outcome A) (st : world * StorageEngine) (done_ kept_ stopped_ : view -> Prop)
    : phase * (view -> Prop) :=
  match o with
  | Done _ => (Up st, done_)
  | Raised _ => if engine_failed_ st.2 then (Down st.1, stopped_) else (Up st, kept_)
  | Crashed => (Down st.1, stopped_)
  end.

(** One call, or one power loss, at any time; with it goes the set of views the
    specification allows. *)
Inductive step (dir : string) : phase * (view -> Prop) -> phase * (view -> Prop) -> Prop :=
| step_put st R s x o st' :
    SeriesKey_ok s -> Sample_ok x -> log_named (fs st.1) dir -> engine_put s x st = (o, st') ->
    step dir (Up st, R) (after o st' (with_put s x R) R (perhaps_put s x R))
| step_sync st R o st' : engine_sync st = (o, st') -> step dir (Up st, R) (after o st' R R R)
| step_flush st R o st' : engine_flush st = (o, st') -> step dir (Up st, R) (after o st' R R R)
| step_compact st R o st' : engine_compact st = (o, st') -> step dir (Up st, R) (after o st' R R R)
| step_get st R s t o st' : engine_get s t st = (o, st') -> step dir (Up st, R) (after o st' R R R)
| step_power_loss p R f script :
    crash (disk_of p) f -> fs_ok f -> step dir (p, R) (Off (World f script), R)
| step_open w R e w' :
    engine_open (wal_path dir) sync_on_append w = (Done e, w') -> step dir (Off w, R) (Up (w', e), R)
| step_open_fails w R o w' :
    engine_open (wal_path dir) sync_on_append w = (o, w') -> (forall e, o <> Done e) ->
    step dir (Off w, R) (Down w', R).

Definition phase_ok (dir : string) (p : phase * (view -> Prop)) : Prop :=
  closed p.2 /\
  match p.1 with
  | Up st => exists v, p.2 v /\ settled_engine dir st v
  | Down w => survives dir p.2 (fs w)
  | Off w => fs_ok (fs w) /\ leaves dir p.2 (fs w)
  end.

Lemma with_put_closed s x R : closed (with_put s x R).
Proof. intros v v' H (v0 & H0 & Hv). exists v0. split; [done|]. by rewrite <-H. Qed.

Lemma perhaps_put_closed s x R : closed R -> closed (perhaps_put s x R).
Proof. intros HR v v' H [Hv|Hv]; [left; by eapply HR|right; by eapply with_put_closed]. Qed.

Lemma one_view_allowed dir (R : view -> Prop) v f :
  closed R -> R v -> survives dir (one_view v) f -> survives dir R f.
Proof. intros HR Hv. apply survives_mono. intros u Hu. eapply HR; [|exact Hv]. by symmetry. Qed.

(** A call that keeps the view. *)
Lemma after_settled dir R v o (st : world * StorageEngine) :
  closed R -> R v -> settled_outcome dir v o st -> phase_ok dir (after o st R R R).
Proof.
  intros HR Hv [Hs Ho]. split; [by destruct o; simpl; try case_match|].
  destruct o as [u|e|]; cbn [after].
  - by exists v.
  - rewrite Ho. cbn [fst snd]. by eapply one_view_allowed.
  - cbn [fst snd]. by eapply one_view_allowed.
Qed.

(** A call with [settled_outcome] in every settled state. *)
Lemma kept_step_ok dir (m : M (world * StorageEngine) unit) st R o st' :
  (forall v, settled_engine dir st v -> wp m st (settled_outcome dir v)) -> m st = (o, st') ->
  phase_ok dir (Up st, R) -> phase_ok dir (after o st' R R R).
Proof.
  intros Hm Hrun [HR (v & Hv & Hset)]. specialize (Hm v Hset). unfold wp in Hm. rewrite Hrun in Hm.
  by eapply after_settled.
Qed.

Lemma wp_sync_settled dir v st : settled_engine dir st v -> wp engine_sync st (settled_outcome dir v).
Proof.
  intros (bss & records & Hok & Hview & Hset & Hd). eapply wp_mono; [by apply (wp_engine_sync dir bss records)|].
  intros o st' Ho. by eapply sync_post_settled.
Qed.

Lemma wp_flush_settled dir v st :
  dir <> EmptyString -> settled_engine dir st v -> wp engine_flush st (settled_outcome dir v).
Proof.
  intros Hdir (bss & records & Hok & Hview & Hset & Hd).
  destruct (wp_flush_outcome dir v bss records st Hdir Hok Hview) as (new & _ & Hw).
  eapply wp_mono; [exact Hw|]. intros o st' (_ & _ & Ho). by apply Ho.
Qed.

Lemma wp_compact_settled dir v st :
  dir <> EmptyString -> settled_engine dir st v -> wp engine_compact st (settled_outcome dir v).
Proof.
  intros Hdir (bss & records & Hok & Hview & Hset & Hd).
  eapply wp_mono; [by apply (wp_compact_outcome dir v bss records)|]. intros o st' (_ & Ho). by apply Ho.
Qed.

Lemma put_step_ok dir s x st R o st' :
  SeriesKey_ok s -> Sample_ok x -> log_named (fs st.1) dir -> engine_put s x st = (o, st') ->
  phase_ok dir (Up st, R) -> phase_ok dir (after o st' (with_put s x R) R (perhaps_put s x R)).
Proof.
  intros Hs Hx Hname Hrun [HR (v & Hv & bss & records & Hok & Hview & Hset & Hd)]. cbn [fst snd] in *.
  pose proof (wp_engine_put dir bss records s x Hs Hx st Hok) as Hw. unfold wp in Hw. rewrite Hrun in Hw.
  pose proof (put_post_settled _ _ _ _ _ _ _ _ _ Hok Hview Hset Hd Hname Hw) as Ho. cbn [fst snd] in Ho.
  assert (forall f, survives dir (two_views v (view_put s x v)) f -> survives dir (perhaps_put s x R) f) as Hsurv.
  { intros f. apply survives_mono. intros u [Hu|Hu]; [left; eapply HR; [symmetry; exact Hu|done]|right; by exists v]. }
  destruct o as [u|e|]; cbn [after sync_put_outcome] in *.
  - split; [apply with_put_closed|]. exists (view_put s x v). split; [by exists v|done].
  - destruct Ho as [Hset'|[Hf Hsu]].
    + assert (engine_failed_ st'.2 = false) as -> by (destruct Hset' as (? & ? & H & _); apply H).
      split; [done|]. by exists v.
    + rewrite Hf. split; [by apply perhaps_put_closed|]. by apply Hsurv.
  - split; [by apply perhaps_put_closed|]. by apply Hsurv.
Qed.

Lemma get_step_ok dir s t st R o st' :
  engine_get s t st = (o, st') -> phase_ok dir (Up st, R) -> phase_ok dir (after o st' R R R).
Proof.
  intros Hrun [HR (v & Hv & bss & records & Hok & Hview & Hset & Hd)]. cbn [fst snd] in *.
  pose proof (wp_engine_get bss s t st (engine_ok_holds _ _ _ _ _ Hok)) as Hw. unfold wp in Hw. rewrite Hrun in Hw.
  destruct Hw as (He & Hf & _). cbn [fst snd] in He, Hf.
  assert (settled_engine dir st' v) as Hset' by (exists bss, records; by rewrite He, Hf).
  assert (engine_failed_ st'.2 = false) as Hu by (destruct Hset' as (? & ? & H & _); apply H).
  assert (phase_ok dir (Up st', R)) as Hup by (split; [done|]; by exists v).
  assert (phase_ok dir (Down st'.1, R)) as Hdown.
  { split; [done|]. eapply one_view_allowed; [done|exact Hv|]. by apply settled_survives. }
  destruct o as [a|e|]; cbn [after]; [done| |done]. by rewrite Hu.
Qed.

Lemma power_step_ok dir p R f script :
  crash (disk_of p) f -> fs_ok f -> phase_ok dir (p, R) -> phase_ok dir (Off (World f script), R).
Proof.
  intros Hc Hok [HR Hp]. split; [done|]. split; [done|]. destruct p as [st|w|w]; cbn [fst snd fs disk_of] in *.
  - destruct Hp as (v & Hv & Hset). eapply (one_view_allowed dir R v); [done|done|by apply settled_survives|done].
  - by apply Hp.
  - destruct Hp as [_ Hp]. by eapply leaves_survives.
Qed.

Lemma open_step_ok dir w R o w' :
  dir <> EmptyString -> engine_open (wal_path dir) sync_on_append w = (o, w') -> phase_ok dir (Off w, R) ->
  match o with Done e => phase_ok dir (Up (w', e), R) | _ => phase_ok dir (Down w', R) end.
Proof.
  intros Hdir Hrun [HR [Hok Hl]]. pose proof (wp_open_left dir sync_on_append R w Hdir HR Hok Hl) as Hw.
  unfold wp in Hw. rewrite Hrun in Hw. cbn [fst snd] in *. destruct o as [e|x|]; [|by split; [|apply Hw]..].
  destruct Hw as (Hd & _ & _ & v & bss & records & Hv & Hok' & Hview & Hset). split; [done|]. exists v. split; [done|].
  by exists bss, records.
Qed.

Lemma step_ok dir p q : dir <> EmptyString -> phase_ok dir p -> step dir p q -> phase_ok dir q.
Proof.
  intros Hdir Hp Hstep.
  destruct Hstep as [st R s x o st' Hs Hx Hname Hrun|st R o st' Hrun|st R o st' Hrun|st R o st' Hrun
    |st R s t o st' Hrun|p R f script Hc Hok|w R e w' Hrun|w R o w' Hrun Hno].
  - by eapply put_step_ok.
  - eapply kept_step_ok; [intros v; apply wp_sync_settled|done..].
  - eapply kept_step_ok; [intros v; by apply wp_flush_settled|done..].
  - eapply kept_step_ok; [intros v; by apply wp_compact_settled|done..].
  - by eapply get_step_ok.
  - by eapply power_step_ok.
  - exact (open_step_ok dir w R (Done e) w' Hdir Hrun Hp).
  - pose proof (open_step_ok dir w R o w' Hdir Hrun Hp). by destruct o; [destruct (Hno a)|..].
Qed.
