(* ===== verification/EngineTheorems.v ===== *)
(** * The storage engine: the theorems

    What [StorageEngine] promises, on every path of its operations, each with a run
    on a small database at which it applies. *)

From stdpp Require Import base tactics option numbers list strings gmap relations.
From Stdlib Require Import ZArith Lia Sorted.
From S2P Require Import Prelude Errors World Hoare Model OrdMap View MemTable WalRecord FileIo WalFile WalRecovery SegmentBlock Manifest SegmentFile SegmentFormat BlocksView SegmentQuery StorageEngine EngineView EngineBlocks EngineState EngineWrite EngineRecovery EngineFlush EngineCompact EngineSafety EngineContract.

(** ** A small database *)

(** An empty log is there and nothing else. *)
Definition example_disk : fsys := single_file (wal_path "db") [].

(** The engine of a constructor that returns. *)
Definition opened (r : outcome StorageEngine * world) : world * StorageEngine :=
  match r with
  | (Done e, w) => (w, e)
  | (_, w) => (w, MkStorageEngine EmptyString empty_memtable empty_manifest [] (MkWalWriter (wal_path EmptyString) None buffered 0 false) 0 false)
  end.

Definition example_engine : world * StorageEngine :=
  opened (engine_open (wal_path "db") sync_on_append (World example_disk [])).

(** A sample in the log, and then in a segment. *)
Definition example_put : outcome unit * (world * StorageEngine) :=
  engine_put example_key (example_sample 1) example_engine.
Definition example_flush : outcome unit * (world * StorageEngine) := engine_flush example_put.2.
Definition example_put2 : outcome unit * (world * StorageEngine) :=
  engine_put example_key (example_sample 2) example_flush.2.
Definition example_flush2 : outcome unit * (world * StorageEngine) := engine_flush example_put2.2.

Lemma example_left : leaves "db" (one_view view_empty) example_disk.
Proof.
  exists empty_manifest, [], [], (Some 0%nat). split; [|split; [done|split; [done|split; [apply single_file_durable|]]]].
  - constructor; [done| |done|by constructor| |by right].
    + exists []. split; [done|]. split; constructor.
    + exists 0%nat. split; [apply view_count_empty|done].
  - intros j Hj. destruct (recovers_Some _ _ _ Hj) as [Hle _]. simpl in Hle. by assert (j = 0%nat) as -> by lia.
Qed.

(** A run whose result is known. *)
Lemma run_eta {A S} (r : outcome A * S) o : r.1 = o -> r = (o, r.2).
Proof. destruct r. by intros [= ->]. Qed.

Lemma opened_eta (r : outcome StorageEngine * world) :
  (match r.1 with Done _ => true | _ => false end) = true -> r = (Done (opened r).2, (opened r).1).
Proof. by destruct r as [[e|x|] w]. Qed.

Lemma example_run :
  engine_open (wal_path "db") sync_on_append (World example_disk []) = (Done example_engine.2, example_engine.1).
Proof. apply opened_eta. vm_compute. reflexivity. Qed.

Lemma example_settled : settled_engine "db" example_engine view_empty.
Proof.
  pose proof (wp_open_left "db" sync_on_append (one_view view_empty) (World example_disk []) ltac:(done)
    (one_view_closed _) (single_file_ok _ _) example_left) as Hw.
  unfold wp in Hw. rewrite example_run in Hw.
  destruct Hw as (Hd & _ & _ & v & bss & records & Hv & Hok & Hview & Hset). exists bss, records.
  split; [exact Hok|]. split; [transitivity v; [exact Hview|exact Hv]|]. split; [exact Hset|exact Hd].
Qed.

Lemma example_named : log_named (fs example_engine.1) "db".
Proof. exists 0%nat. vm_compute. reflexivity. Qed.

Lemma example_put_run : engine_put example_key (example_sample 1) example_engine = (Done tt, example_put.2).
Proof. apply run_eta. vm_compute. reflexivity. Qed.

Lemma example_flush_run : engine_flush example_put.2 = (Done tt, example_flush.2).
Proof. apply run_eta. vm_compute. reflexivity. Qed.

(** ** Runs of the operations *)

Lemma put_settles dir s x v st o st' :
  SeriesKey_ok s -> Sample_ok x -> settled_engine dir st v -> log_named (fs st.1) dir ->
  engine_put s x st = (o, st') -> sync_put_outcome dir s x v o st'.
Proof.
  intros Hs Hx (bss & records & Hok & Hview & Hset & Hd) Hname Hrun.
  pose proof (wp_engine_put dir bss records s x Hs Hx st Hok) as Hw. unfold wp in Hw. rewrite Hrun in Hw.
  exact (put_post_settled _ _ _ _ _ _ _ _ _ Hok Hview Hset Hd Hname Hw).
Qed.

Lemma flush_settles dir v st o st' :
  dir <> EmptyString -> settled_engine dir st v -> engine_flush st = (o, st') -> settled_outcome dir v o st'.
Proof.
  intros Hdir (bss & records & Hok & Hview & Hset & Hd) Hrun.
  destruct (wp_flush_outcome dir v bss records st Hdir Hok Hview) as (new & _ & Hw).
  unfold wp in Hw. rewrite Hrun in Hw. exact (proj2 (proj2 Hw) Hset Hd).
Qed.

Definition example_view1 : view := view_put example_key (example_sample 1) view_empty.
Definition example_view2 : view := view_put example_key (example_sample 2) example_view1.

Lemma example_sample_valid t : in_i64 t -> Sample_ok (example_sample t).
Proof. intros Ht. split; [exact Ht|]. vm_compute. repeat split; discriminate. Qed.

Lemma example_put_settled : settled_engine "db" example_put.2 example_view1.
Proof.
  exact (put_settles "db" example_key (example_sample 1) view_empty example_engine (Done tt) example_put.2
    example_key_ok (example_sample_valid 1 ltac:(done)) example_settled example_named example_put_run).
Qed.

Lemma example_flush_settled : settled_engine "db" example_flush.2 example_view1.
Proof.
  exact (proj2 (flush_settles "db" example_view1 example_put.2 (Done tt) example_flush.2
    ltac:(done) example_put_settled example_flush_run)).
Qed.

Lemma example_put2_settled : settled_engine "db" example_put2.2 example_view2.
Proof.
  refine (put_settles "db" example_key (example_sample 2) example_view1 example_flush.2 (Done tt) example_put2.2
    example_key_ok (example_sample_valid 2 ltac:(done)) example_flush_settled _ _).
  - exists 0%nat. vm_compute. reflexivity.
  - apply run_eta. vm_compute. reflexivity.
Qed.

Lemma example_flush2_settled : settled_engine "db" example_flush2.2 example_view2.
Proof.
  refine (proj2 (flush_settles "db" example_view2 example_put2.2 (Done tt) example_flush2.2
    ltac:(done) example_put2_settled _)).
  apply run_eta. vm_compute. reflexivity.
Qed.

(** A power loss that loses nothing. *)
Definition keeping (f : fsys) : fsys := crash_pick (fun _ => 0%nat) (fun _ => 0%nat) f.

Lemma keeping_crash f : crash f (keeping f).
Proof. by exists (fun _ => 0%nat), (fun _ => 0%nat). Qed.

(** A power loss that keeps the names. *)
Lemma same_names_ok f pick : fs_ok f -> fs_ok (crash_pick (fun _ => 0%nat) pick f).
Proof.
  intros [Hlt Hinj].
  assert (forall p, entry (crash_pick (fun _ => 0%nat) pick f) p = settled (now (entry f p))) as He.
  { intros p. unfold entry, crash_pick. simpl. rewrite map_lookup_imap. by destruct (entries f !! p). }
  split.
  - intros p i. rewrite He, possible_settled. intros Hi. apply (Hlt p). rewrite Hi. apply possible_now.
  - intros p q i. rewrite !He. apply Hinj.
Qed.

Lemma steps_ok dir p q : dir <> EmptyString -> phase_ok dir p -> rtc (step dir) p q -> phase_ok dir q.
Proof. intros Hdir Hp Hsteps. induction Hsteps as [|p q r Hs _ IH]; [done|]. by eapply IH, step_ok. Qed.

(** A flush leaves a well-formed file system, also when the power goes. *)
Lemma engine_flush_fs_ok dir bss records st :
  dir <> EmptyString -> engine_ok (fs st.1) dir st.2 bss records -> fs_ok (fs (engine_flush st).2.1).
Proof.
  intros Hdir Hok. destruct (flush_blocks _ _ _ _ _ Hok) as (new & Hblocks & Hnew & Hv).
  destruct (decide (records = [])) as [->|Hne].
  - pose proof (wp_flush_nothing dir bss st Hok) as Hw. unfold wp in Hw. destruct (engine_flush st) as [o st'].
    destruct Hw as ([_ Hfs] & _). exact Hfs.
  - pose proof (wp_flush_samples dir Hdir bss records new st Hok Hne Hblocks Hnew Hv) as Hw.
    unfold wp in Hw. destruct (engine_flush st) as [o st']. destruct Hw as ([Hfs _] & _). exact Hfs.
Qed.

(** ** Theorems *)

(** C2: the durability contract.  Take a database as a power loss left it, holding
    contents that [R] allows, and let it be opened, written (every append synced),
    flushed, compacted and read, and lose power, in any order and at any point.
    Whenever an engine runs, it shows contents the specification allows: every
    acknowledged put is in them, nothing but puts is, and only a put that had not
    returned when the power went or the engine stopped may or may not be.  And a
    power loss at that moment would leave exactly what the engine shows.  [step] has two
    conditions: a put comes while the log's own name is on stable storage ([log_named]),
    and an engine that has crashed, is marked or did not open is opened again only after
    a power loss.  EngineWindows.v shows that neither can be left out. *)
Theorem engine_durability dir w R st R' :
  dir <> EmptyString -> closed R -> fs_ok (fs w) -> leaves dir R (fs w) ->
  rtc (step dir) (Off w, R) (Up st, R') ->
  exists v, R' v /\ running dir st v /\ survives dir (one_view v) (fs st.1).
Proof.
  intros Hdir HR Hok Hl Hsteps.
  assert (phase_ok dir (Up st, R')) as [_ (v & Hv & Hset)].
  { apply (steps_ok dir (Off w, R)); [done| |done]. split; [done|by split]. }
  exists v. split; [exact Hv|]. split; [by apply settled_running|by apply settled_survives].
Qed.

Lemma engine_durability_witness :
  let R := with_put example_key (example_sample 1) (one_view view_empty) in
  let w := World (keeping (fs example_put.2.1)) [] in
  exists v, R v /\ running "db" (opened (engine_open (wal_path "db") sync_on_append w)) v /\
    survives "db" (one_view v) (fs (opened (engine_open (wal_path "db") sync_on_append w)).1).
Proof.
  intros R w.
  apply (engine_durability "db" (World example_disk []) (one_view view_empty) _ R);
    [discriminate|apply one_view_closed|apply single_file_ok|exact example_left|].
  eapply rtc_l; [apply (step_open "db" (World example_disk []) (one_view view_empty)); exact example_run|].
  eapply rtc_l; [eapply (step_put "db"); [exact example_key_ok|apply (example_sample_valid 1); done|exact example_named|]|].
  { rewrite <-surjective_pairing. exact example_put_run. }
  cbn [after].
  eapply rtc_l; [apply (step_power_loss "db" _ _ (keeping (fs example_put.2.1)) []); [apply keeping_crash|apply same_names_ok]|].
  { destruct example_put_settled as (bss & records & Hok & _). exact (ok_fs _ _ _ _ _ Hok). }
  eapply rtc_l; [apply (step_open "db" w R (opened (engine_open (wal_path "db") sync_on_append w)).2
      (opened (engine_open (wal_path "db") sync_on_append w)).1)|].
  { apply opened_eta. vm_compute. reflexivity. }
  rewrite <-surjective_pairing. apply rtc_refl.
Defined.

(** C4: opening always works unless the operating system fails.  On a database a
    power loss left, the constructor returns an engine with contents [R] allows, its
    log cut to whole records and on stable storage; if a call to the operating
    system fails or the power goes, opening again later still finds contents that
    [R] allows. *)
Theorem engine_open_spec dir d w R o w' :
  dir <> EmptyString -> closed R -> fs_ok (fs w) -> leaves dir R (fs w) ->
  engine_open (wal_path dir) d w = (o, w') ->
  match o with
  | Done e => durability_ (wal_writer_ e) = d /\ exists v, R v /\ running dir (w', e) v /\ survives dir (one_view v) (fs w')
  | _ => script w <> [] /\ survives dir R (fs w')
  end.
Proof.
  intros Hdir HR Hok Hl Hrun. pose proof (wp_open_left dir d R w Hdir HR Hok Hl) as Hw. unfold wp in Hw.
  rewrite Hrun in Hw. cbn [fst snd] in Hw. destruct o as [e|x|]; [|exact Hw|exact Hw].
  destruct Hw as (Hd & _ & _ & v & bss & records & Hv & Heok & Hview & Hset). split; [exact Hd|].
  exists v. split; [exact Hv|]. split; [by exists bss, records|].
  eapply one_view_equal; [exact Hview|]. by eapply engine_survives.
Qed.

Lemma engine_open_spec_witness :
  durability_ (wal_writer_ example_engine.2) = sync_on_append /\
  exists v, one_view view_empty v /\ running "db" (example_engine.1, example_engine.2) v /\
    survives "db" (one_view v) (fs example_engine.1).
Proof.
  exact (engine_open_spec "db" sync_on_append (World example_disk []) (one_view view_empty) (Done example_engine.2)
    example_engine.1 ltac:(discriminate) (one_view_closed _) (single_file_ok _ _) example_left example_run).
Defined.

(** C3: [put], on every path.  When it returns, the engine holds the sample, in place
    of what the series had at that time, and all else is as it was.  It throws only
    if the operating system fails or the record cannot be logged; then nothing has
    happened, or the engine is marked and refuses further work.  If every append is
    synced ([settled_engine]) and the log's own name is on stable storage ([log_named]),
    what a power loss leaves is the new contents once it has returned, and before that
    the old or the new, nothing else; in buffered mode, or in a database that has just
    been created, that is not so. *)
Theorem engine_put_spec dir s x v st o st' :
  SeriesKey_ok s -> Sample_ok x -> engine_put s x st = (o, st') ->
  (running dir st v ->
   match o with
   | Done _ => running dir st' (view_put s x v)
   | Raised _ => (running dir st' v \/ engine_failed_ st'.2 = true) /\
       (script st.1 <> [] \/ put_refused st.2 (MkWalPutRecord s x))
   | Crashed => script st.1 <> []
   end) /\
  (settled_engine dir st v -> log_named (fs st.1) dir ->
   match o with
   | Done _ => survives dir (one_view (view_put s x v)) (fs st'.1)
   | _ => survives dir (two_views v (view_put s x v)) (fs st'.1)
   end).
Proof.
  intros Hs Hx Hrun. split.
  - intros (bss & records & Hok & Hview). pose proof (wp_engine_put dir bss records s x Hs Hx st Hok) as Hw.
    unfold wp in Hw. rewrite Hrun in Hw. pose proof (put_post_outcome _ _ _ _ _ _ _ _ _ Hok Hview Hw) as Ho.
    destruct o; [apply Ho|exact Ho..].
  - intros Hset Hname. pose proof (put_settles _ _ _ _ _ _ _ Hs Hx Hset Hname Hrun) as Ho. destruct o as [u|e|].
    + by apply settled_survives.
    + destruct Ho as [Ho|[_ Ho]]; [|exact Ho]. apply settled_survives in Ho. revert Ho. apply survives_mono. by left.
    + exact Ho.
Qed.

Lemma engine_put_spec_witness :
  running "db" example_put.2 (view_put example_key (example_sample 1) view_empty) /\
  survives "db" (one_view (view_put example_key (example_sample 1) view_empty)) (fs example_put.2.1).
Proof.
  destruct (engine_put_spec "db" example_key (example_sample 1) view_empty example_engine (Done tt) example_put.2
    example_key_ok (example_sample_valid 1 ltac:(done)) example_put_run) as [H1 H2].
  split; [exact (H1 (settled_running _ _ _ example_settled))|exact (H2 example_settled example_named)].
Defined.

(** C5: [flush], on every path.  It keeps the contents; it throws only if the
    operating system fails, or there is no generation, no room in the manifest or no
    segment file for its blocks, and then the engine is marked.  Once it has returned,
    no power loss takes anything of them away, synced appends or not; with synced
    appends ([settled_engine]) that is so whatever point the call had reached, and with
    buffered ones it is not (EngineWindows.stale_log_is_replayed). *)
Theorem engine_flush_spec dir v st o st' :
  dir <> EmptyString -> engine_flush st = (o, st') ->
  (running dir st v ->
   exists new, make_memtable_blocks st.2 = Ok new /\
   match o with
   | Done _ => running dir st' v /\ survives dir (one_view v) (fs st'.1)
   | Raised _ => engine_failed_ st'.2 = true /\ (script st.1 <> [] \/ flush_refused st.2 new)
   | Crashed => script st.1 <> []
   end) /\
  (settled_engine dir st v -> survives dir (one_view v) (fs st'.1)).
Proof.
  intros Hdir Hrun. split.
  - intros (bss & records & Hok & Hview).
    destruct (wp_flush_outcome dir v bss records st Hdir Hok Hview) as (new & Hnew & Hw).
    exists new. split; [exact Hnew|]. unfold wp in Hw. rewrite Hrun in Hw. destruct Hw as ([Hex Ho] & Hdone & _).
    destruct o as [u|x|]; [split; [apply Ho|exact (Hdone u eq_refl)]|by split|exact Hex].
  - intros Hset. exact (proj1 (flush_settles dir v st o st' Hdir Hset Hrun)).
Qed.

Lemma engine_flush_spec_witness :
  (exists new, make_memtable_blocks example_put.2.2 = Ok new /\ running "db" example_flush.2 example_view1 /\
     survives "db" (one_view example_view1) (fs example_flush.2.1)) /\
  survives "db" (one_view example_view1) (fs example_flush.2.1).
Proof.
  destruct (engine_flush_spec "db" example_view1 example_put.2 (Done tt) example_flush.2 ltac:(discriminate)
    example_flush_run) as [H1 H2].
  split; [exact (H1 (settled_running _ _ _ example_put_settled))|exact (H2 example_put_settled)].
Defined.

(** C8: [sync], on every path.  It changes nothing in memory; once it has returned, no
    power loss takes anything away, provided the log's own name is on stable storage;
    if it throws, the operating system has failed and the engine is marked. *)
Theorem engine_sync_spec dir v st o st' :
  running dir st v -> engine_sync st = (o, st') ->
  match o with
  | Done _ => running dir st' v /\ st'.2 = st.2 /\ (log_named (fs st.1) dir -> survives dir (one_view v) (fs st'.1))
  | Raised _ => engine_failed_ st'.2 = true /\ script st.1 <> []
  | Crashed => script st.1 <> []
  end.
Proof.
  intros (bss & records & Hok & Hview) Hrun. pose proof (wp_engine_sync dir bss records st Hok) as Hw.
  unfold wp in Hw. rewrite Hrun in Hw. destruct Hw as ([Hsame _] & _ & _ & Ho). cbn [fst snd] in *.
  destruct o as [u|x|]; [|exact Ho|exact Ho]. destruct Ho as (Hok' & He & Hsync & _).
  split; [exists bss, records; split; [exact Hok'|by rewrite He]|]. split; [exact He|]. intros Hname.
  eapply one_view_equal; [exact Hview|]. rewrite <-He. eapply engine_survives; [exact Hok'|].
  split; [exact Hsync|left; by eapply log_named_same].
Qed.

Lemma engine_sync_spec_witness :
  running "db" (engine_sync example_put.2).2 example_view1 /\
  survives "db" (one_view example_view1) (fs (engine_sync example_put.2).2.1).
Proof.
  assert (engine_sync example_put.2 = (Done tt, (engine_sync example_put.2).2)) as Hrun.
  { apply run_eta. vm_compute. reflexivity. }
  destruct (engine_sync_spec "db" example_view1 example_put.2 (Done tt) (engine_sync example_put.2).2
    (settled_running _ _ _ example_put_settled) Hrun) as (Hr & _ & Hs).
  split; [exact Hr|]. apply Hs. exists 0%nat. vm_compute. reflexivity.
Defined.

(** C6: [compact], on every path: the same for the contents, the log and the
    MemTable; afterwards there is at most one segment.  With synced appends
    ([settled_engine]) a power loss at any point of the call loses nothing; what only the
    MemTable and an unsynced log hold it may take. *)
Theorem engine_compact_spec dir v st o st' :
  dir <> EmptyString -> engine_compact st = (o, st') ->
  (running dir st v ->
   match o with
   | Done _ => running dir st' v /\ (size (segments_ st'.2) <= 1) /\
       memtable_ st'.2 = memtable_ st.2 /\ wal_writer_ st'.2 = wal_writer_ st.2
   | Raised _ => engine_failed_ st'.2 = true
   | Crashed => script st.1 <> []
   end) /\
  (settled_engine dir st v -> survives dir (one_view v) (fs st'.1)).
Proof.
  intros Hdir Hrun. split.
  - intros (bss & records & Hok & Hview). destruct (Z.le_gt_cases (size (segments_ st.2)) 1) as [Hsize|Hsize].
    + pose proof (wp_compact_nothing dir bss records st Hok Hsize) as Hw. unfold wp in Hw. rewrite Hrun in Hw.
      destruct Hw as [Ho Hs]. cbn [fst snd] in Ho, Hs. subst o st'. split; [by exists bss, records|by split].
    + pose proof (wp_compact_segments dir Hdir bss records st Hok Hsize) as Hw. unfold wp in Hw. rewrite Hrun in Hw.
      destruct Hw as (new & _ & Hnew & _ & _ & Hex & Ho). cbn [fst snd] in Ho. destruct o as [u|x|]; [|exact Ho|exact Hex].
      destruct Ho as (Hok' & Hm & Hmem & Hw & _). split; [exists [new], records; split; [exact Hok'|]|].
      * exact (compact_post_view _ _ _ _ _ _ _ _ _ Hok Hview Hnew Hok').
      * split; [|by split]. rewrite (ok_segments _ _ _ _ _ Hok'), Hm. done.
  - intros (bss & records & Hok & Hview & Hset & Hd).
    pose proof (wp_compact_outcome dir v bss records st Hdir Hok Hview) as Hw. unfold wp in Hw. rewrite Hrun in Hw.
    exact (proj1 (proj2 Hw Hset Hd)).
Qed.

Definition example_compact : outcome unit * (world * StorageEngine) := engine_compact example_flush2.2.

Lemma engine_compact_spec_witness :
  running "db" example_compact.2 example_view2 /\ size (segments_ example_flush2.2.2) = 2 /\
  size (segments_ example_compact.2.2) <= 1 /\
  survives "db" (one_view example_view2) (fs example_compact.2.1).
Proof.
  assert (engine_compact example_flush2.2 = (Done tt, example_compact.2)) as Hrun.
  { apply run_eta. vm_compute. reflexivity. }
  destruct (engine_compact_spec "db" example_view2 example_flush2.2 (Done tt) example_compact.2
    ltac:(discriminate) Hrun) as [H1 H2].
  destruct (H1 (settled_running _ _ _ example_flush2_settled)) as (Hr & Hs & _).
  split; [exact Hr|]. split; [vm_compute; reflexivity|]. split; [exact Hs|exact (H2 example_flush2_settled)].
Defined.

(** C7: the queries answer from the contents.  [get], [latest] and [range] change
    nothing; what they return is what the view holds: the value at a time, the sample
    with the last timestamp, the samples of the half-open interval in order.  They
    throw only if the operating system fails, and [range] refuses an interval that
    ends before it starts. *)
Theorem engine_queries dir v st s t a c :
  running dir st v ->
  wp (engine_get s t) st (observing (is_get v s t) no_throw st) /\
  wp (engine_latest s) st (observing (is_latest v s) no_throw st) /\
  wp (engine_range s a c) st
    (observing (fun l => ~ c ≺ a /\ is_range v s a c l)
       (fun x => c ≺ a /\ x = invalid_argument "range end must not precede range start") st).
Proof.
  intros (bss & records & Hok & Hview). pose proof (engine_ok_holds _ _ _ _ _ Hok) as Hholds. split_and!.
  - eapply wp_observing_mono; [by apply (wp_engine_get bss)| |done]. intros r. unfold is_get. by rewrite (Hview s t).
  - eapply wp_observing_mono; [by apply (wp_engine_latest bss)| |done]. intros r. by apply is_latest_proper.
  - eapply wp_observing_mono; [by apply (wp_engine_range bss)| |done]. intros l [Hca Hl]. split; [exact Hca|].
    by rewrite <-Hview.
Qed.

Lemma engine_queries_witness :
  wp (engine_get example_key (MkTimestamp 2)) example_flush2.2
    (observing (is_get example_view2 example_key (MkTimestamp 2)) no_throw example_flush2.2).
Proof.
  destruct (engine_queries "db" example_view2 example_flush2.2 example_key (MkTimestamp 2) (MkTimestamp 0) (MkTimestamp 9)
    (settled_running _ _ _ example_flush2_settled)) as (H & _). exact H.
Defined.

(** The error of a marked engine; nothing changes. *)
Definition refuses {A} (st : world * StorageEngine) (m : M (world * StorageEngine) A) : Prop :=
  m st = (Raised (runtime_error "storage engine is in a failed state; restart is required"), st).

(** C9: an engine that is marked refuses everything.  After a failed write, flush or
    compaction every member function throws and changes nothing, on disk or in
    memory, whatever the operating system would do. *)
Theorem engine_failed_refuses st :
  engine_failed_ st.2 = true ->
  (forall s x, refuses st (engine_put s x)) /\ refuses st engine_sync /\ refuses st engine_flush /\
  refuses st engine_compact /\ (forall s t, refuses st (engine_get s t)) /\ (forall s, refuses st (engine_latest s)) /\
  (forall s a c, refuses st (engine_range s a c)) /\ refuses st engine_series /\ refuses st engine_sample_count /\
  refuses st engine_memtable_sample_count /\ refuses st engine_empty /\ refuses st engine_segment_count /\
  refuses st engine_wal_size_bytes /\ refuses st engine_stats.
Proof.
  destruct st as [w e]. cbn [snd]. intros Hf.
  assert (refuses (w, e) ensure_usable) as Hu.
  { unfold refuses, ensure_usable, mbind, M_bind, this, throw_when. simpl. by rewrite Hf. }
  assert (forall A (k : StorageEngine -> M (world * StorageEngine) A), refuses (w, e) (ensure_usable ≫= k)) as Hk.
  { intros A k. unfold refuses, mbind, M_bind in *. by rewrite Hu. }
  split_and!; intros; apply Hk.
Qed.

Lemma engine_failed_refuses_witness :
  refuses (example_engine.1, failed example_engine.2) (engine_get example_key (MkTimestamp 1)).
Proof.
  destruct (engine_failed_refuses (example_engine.1, failed example_engine.2) eq_refl) as (_ & _ & _ & _ & H & _).
  exact (H example_key (MkTimestamp 1)).
Defined.

(** ** The series and the counts *)

Lemma insert_series_find u s s' :
  map_find s' (insert_series u s) = if s' ≡? s then Some tt else map_find s' u.
Proof. apply map_find_set. Qed.

Lemma insert_all_find l u s :
  is_Some (map_find s (foldl insert_series u l)) <-> is_Some (map_find s u) \/ s ∈ l.
Proof.
  revert u. induction l as [|s' l IH]; intros u; cbn [foldl]; [rewrite elem_of_nil; tauto|].
  rewrite IH, insert_series_find, elem_of_cons. destruct (s ≡? s') eqn:E; ord_to_prop; [subst|]; naive_solver.
Qed.

Lemma insert_all_sorted l u : map_sorted u -> map_sorted (foldl insert_series u l).
Proof. revert u. induction l as [|s l IH]; intros u Hu; [done|]. cbn [foldl]. apply IH. by apply map_set_sorted. Qed.

(** The series of the segments, through their indexes. *)
Definition segment_series (bss : list (list SegmentBlock)) : list SeriesKey := flat_map (map block_series) bss.

Lemma index_series off bs : map entry_series (entries_of off bs) = map block_series bs.
Proof. revert off. induction bs as [|b bs IH]; intros off; [done|]. cbn [entries_of map]. by rewrite IH. Qed.

Lemma foldl_map {A B C} (g : A -> C -> A) (h : B -> C) (l : list B) a :
  foldl (fun a x => g a (h x)) a l = foldl g a (map h l).
Proof. revert a. induction l as [|x l IH]; intros a; [done|]. cbn [foldl map]. apply IH. Qed.

Lemma series_of_segments f rs bss u :
  Forall2 (reader_holds f) rs bss ->
  foldl (fun u r => foldl (fun u entry => insert_series u (entry_series entry)) u (reader_index r)) u rs =
  foldl insert_series u (segment_series bss).
Proof.
  intros Hall. revert u. induction Hall as [|r bs rs bss (_ & p & -> & _) _ IH]; intros u; [done|].
  cbn [foldl segment_series flat_map]. rewrite foldl_app, IH. f_equal.
  rewrite (foldl_map insert_series entry_series). unfold segment_reader, reader_of. cbn [reader_index].
  by rewrite index_series.
Qed.

Lemma blocks_view_series bs s :
  segment_ok bs -> s ∈ map block_series bs <-> exists t, is_Some (blocks_view bs s t).
Proof.
  intros Hbs. pose proof (segment_ordered _ Hbs) as Hord. split.
  - intros (b & -> & Hb)%list_elem_of_fmap. destruct Hbs as [(_ & _ & Hall & _) _]. rewrite Forall_forall in Hall.
    destruct (Hall b Hb) as (_ & Hne & _). destruct (block_samples b) as [|x xs] eqn:E; [done|].
    exists (timestamp x). exists (sample_value x). apply value_at_elem; [by apply samples_of_sorted|].
    apply samples_of_elem. exists b. split; [exact Hb|]. split; [done|]. rewrite E. destruct x. left.
  - intros (t & v & Hv). apply value_at_elem in Hv; [|by apply samples_of_sorted].
    apply samples_of_elem in Hv as (b & Hb & <- & _). apply list_elem_of_fmap. by exists b.
Qed.

Lemma segments_view_series bss s :
  Forall segment_ok bss -> s ∈ segment_series bss <-> exists t, is_Some (segments_view bss s t).
Proof.
  induction bss as [|bs bss IH] using rev_ind; intros Hall.
  { split; [by intros ?%elem_of_nil|]. by intros (t & v & [=]). }
  apply Forall_app in Hall as [Hall Hbs]. apply Forall_inv in Hbs. specialize (IH Hall).
  unfold segment_series in *. rewrite flat_map_app, elem_of_app. cbn [flat_map]. rewrite app_nil_r, IH.
  rewrite blocks_view_series by exact Hbs. rewrite segments_view_snoc. unfold view_merge. split.
  - intros [(t & H)|(t & H)]; exists t; [|by destruct (blocks_view bs s t); [|destruct H]].
    by destruct (blocks_view bs s t).
  - intros (t & H). destruct (blocks_view bs s t) eqn:E; [right|left]; exists t; [by rewrite E|done].
Qed.

Lemma memtable_view_series m s :
  MemTable_ok m -> s ∈ memtable_series m <-> exists t, is_Some (memtable_view m s t).
Proof.
  intros (Hsorted & Hall & _). unfold memtable_series, memtable_view. split.
  - intros ([s0 l] & -> & Hin)%list_elem_of_fmap. cbn [fst].
    pose proof (proj2 (map_find_elem_iff s0 l _ Hsorted) Hin) as Hf. rewrite Hf.
    rewrite Forall_forall in Hall. destruct (Hall _ Hin) as (_ & Hs & Hne & _). cbn [snd] in *.
    destruct l as [|[t v] l]; [done|]. exists t, v. apply map_find_elem_iff; [exact Hs|left].
  - intros (t & v & Hv). destruct (map_find s (series_ m)) as [l|] eqn:E; [|done].
    apply map_find_elem in E. apply list_elem_of_fmap. by exists (s, l).
Qed.

Lemma map_fst_sorted (u : list (SeriesKey * unit)) : map_sorted u -> StronglySorted lt_of (map fst u).
Proof.
  induction 1 as [|p u _ IH Hall]; [constructor|]. cbn [map]. constructor; [exact IH|].
  apply Forall_forall. intros s (q & -> & Hq)%list_elem_of_fmap. rewrite Forall_forall in Hall. by apply Hall.
Qed.

Lemma elem_of_keys (u : list (SeriesKey * unit)) s : map_sorted u -> s ∈ map fst u <-> is_Some (map_find s u).
Proof.
  intros Hu. split.
  - intros ([s0 []] & -> & Hin)%list_elem_of_fmap. exists tt. by apply map_find_elem_iff.
  - intros [[] Hf]. apply map_find_elem in Hf. apply list_elem_of_fmap. by exists (s, tt).
Qed.

(** The set [series] builds. *)
Lemma series_list f e bss :
  engine_holds f e bss ->
  let unique := foldl insert_series (foldl (fun u r => foldl (fun u entry => insert_series u (entry_series entry)) u
                   (reader_index r)) [] (segments_ e)) (memtable_series (memtable_ e)) in
  StronglySorted lt_of (map fst unique) /\
  forall s, s ∈ map fst unique <-> exists t, is_Some (engine_view e bss s t).
Proof.
  intros (Hu & Hm & Hall) unique. assert (map_sorted unique) as Hsorted.
  { unfold unique. rewrite (series_of_segments _ _ _ _ Hall). do 2 apply insert_all_sorted. constructor. }
  split; [by apply map_fst_sorted|]. intros s. rewrite elem_of_keys by exact Hsorted. unfold unique.
  rewrite (series_of_segments _ _ _ _ Hall), !insert_all_find, memtable_view_series by exact Hm.
  assert (Forall segment_ok bss) as Hok by by eapply engine_holds_segments.
  rewrite segments_view_series by exact Hok. unfold engine_view, view_merge. cbn [map_find]. split.
  - intros [[[? [=]]|(t & H)]|(t & H)]; exists t; destruct (memtable_view (memtable_ e) s t) eqn:E; eauto; by destruct H.
  - intros (t & H). destruct (memtable_view (memtable_ e) s t) eqn:E; [right|left; right]; exists t; [by rewrite E|exact H].
Qed.

(** C10: [series] lists, in order and once each, exactly the series that hold a
    sample, and changes nothing. *)
Theorem engine_series_spec dir v st :
  running dir st v ->
  wp engine_series st (observing (fun l => StronglySorted lt_of l /\
    forall s, s ∈ l <-> exists t, is_Some (v s t)) no_throw st).
Proof.
  intros (bss & records & Hok & Hview). pose proof (engine_ok_holds _ _ _ _ _ Hok) as Hholds.
  unfold engine_series. eapply wp_observing_bind; [apply wp_observing_usable, Hholds|]. intros e st1 -> He Hf.
  apply wp_observing_ret. destruct (series_list _ _ _ Hholds) as [Hs Hin]. split; [exact Hs|].
  intros s. rewrite Hin. split; intros (t & H); exists t; [by rewrite <-(Hview s t)|by rewrite (Hview s t)].
Qed.

Lemma engine_series_spec_witness :
  wp engine_series example_flush2.2 (observing (fun l => StronglySorted lt_of l /\
    forall s, s ∈ l <-> exists t, is_Some (example_view2 s t)) no_throw example_flush2.2).
Proof. exact (engine_series_spec "db" example_view2 example_flush2.2 (settled_running _ _ _ example_flush2_settled)). Defined.

(** C11: the counts.  [sample_count], [empty] and [stats] report the number of samples
    the contents hold, each series and time once however often it was written (modulo
    2^64, as the counter is), [memtable_sample_count] the samples not yet in a
    segment, [segment_count] the segments and [wal_size_bytes] the log's length. *)
Theorem engine_counts dir v st :
  running dir st v ->
  exists n k bytes, view_count v n /\ view_count (memtable_view (memtable_ st.2)) k /\
    file_of (fs st.1) (wal_path dir) = Some bytes /\
    wp engine_sample_count st (observing (fun c => c = u64 (Z.of_nat n)) no_throw st) /\
    wp engine_empty st (observing (fun b => b = (u64 (Z.of_nat n) =? 0)) no_throw st) /\
    wp engine_memtable_sample_count st (observing (fun c => c = u64 (Z.of_nat k)) no_throw st) /\
    wp engine_segment_count st (observing (fun c => c = size (segment_files (manifest_ st.2))) no_throw st) /\
    wp engine_wal_size_bytes st (observing (fun c => c = size bytes) no_throw st) /\
    wp engine_stats st (observing (fun c => c = MkStats (u64 (Z.of_nat n)) (u64 (Z.of_nat k))
      (size (segment_files (manifest_ st.2))) (size bytes)) no_throw st).
Proof.
  intros (bss & records & Hok & Hview). pose proof (engine_ok_holds _ _ _ _ _ Hok) as Hholds.
  destruct (ok_count _ _ _ _ _ Hok) as (n & Hn & Hc). destruct (ok_writer _ _ _ _ _ Hok) as (i & _ & _ & Hlog).
  exists n, (total_samples (series_ (memtable_ st.2))), (log_bytes records).
  split; [by rewrite <-Hview|]. split; [apply memtable_view_count, Hholds|]. split; [by eapply log_state_file|].
  assert (memtable_sample_count (memtable_ st.2) = u64 (Z.of_nat (total_samples (series_ (memtable_ st.2))))) as Hmem.
  { unfold memtable_sample_count. apply Hholds. }
  assert (size (segments_ st.2) = size (segment_files (manifest_ st.2))) as Hseg.
  { rewrite (ok_segments _ _ _ _ _ Hok). unfold size. f_equal.
    pose proof (persisted_segments _ _ _ _ (ok_persisted _ _ _ _ _ Hok)) as Hall. apply Forall2_length in Hall.
    rewrite length_zip_with. lia. }
  assert ((max_u64 <? logical_sample_count_ st.2) = false) as Hmax.
  { rewrite Hc. apply Z.ltb_ge. pose proof (u64_range (Z.of_nat n)). unfold in_u, max_u64 in *. lia. }
  assert (forall A (k : StorageEngine -> M (world * StorageEngine) A) (P : A -> Prop),
    (forall st1, wp (k st.2) st1 (observing P no_throw st1)) ->
    wp (e ← ensure_usable; k e) st (observing P no_throw st)) as Hget.
  { intros A k P Hk. eapply wp_observing_bind; [apply wp_observing_usable, Hholds|]. intros e st1 -> He Hf. apply Hk. }
  split_and!; apply Hget; intros st1; cbn beta.
  - rewrite Hmax. wp_step. rewrite wp_throw_when_false. cbn [and_then]. by apply wp_observing_ret.
  - apply wp_observing_ret. by rewrite Hc.
  - by apply wp_observing_ret.
  - by apply wp_observing_ret.
  - apply wp_observing_ret. apply (ok_log_size _ _ _ _ _ Hok).
  - rewrite Hmax. wp_step. rewrite wp_throw_when_false. cbn [and_then]. apply wp_observing_ret.
    unfold wal_size_bytes. by rewrite Hc, Hmem, Hseg, (ok_log_size _ _ _ _ _ Hok).
Qed.

Lemma engine_counts_witness :
  exists n, view_count example_view2 n /\
    wp engine_sample_count example_flush2.2 (observing (fun c => c = u64 (Z.of_nat n)) no_throw example_flush2.2).
Proof.
  destruct (engine_counts "db" example_view2 example_flush2.2 (settled_running _ _ _ example_flush2_settled))
    as (n & _ & _ & Hn & _ & _ & Hc & _). exists n. split; [exact Hn|exact Hc].
Defined.
