(* ===== verification/EngineWindows.v ===== *)
(** * Four windows the storage engine leaves open

    Runs, computed, in which a power loss takes more than one might expect: a log whose
    directory was not synchronized, a log replayed over the segment that replaced it,
    segments removed for a manifest whose name was not permanent, and a log that is read
    back after a restart without having been synchronized. *)

From stdpp Require Import base tactics option numbers list strings gmap relations.
From Stdlib Require Import ZArith Lia.
From S2P Require Import Prelude Errors World Hoare Model OrdMap View MemTable WalRecord FileIo WalFile WalRecovery SegmentBlock Manifest SegmentFile SegmentFormat StorageEngine EngineView EngineState EngineWrite EngineRecovery EngineFlush EngineCompact EngineSafety EngineContract EngineTheorems.

Lemma picked_crash f pick_entry pick_inode : crash f (crash_pick pick_entry pick_inode f).
Proof. by exists pick_entry, pick_inode. Qed.

(** A directory with nothing in it. *)
Definition fresh_disk : fsys := Fsys ∅ ∅ 0 ∅ (<["db" := true]> ∅).
Definition fresh_engine : world * StorageEngine :=
  opened (engine_open (wal_path "db") sync_on_append (World fresh_disk [])).
Definition fresh_put : outcome unit * (world * StorageEngine) :=
  engine_put example_key (example_sample 1) fresh_engine.

(** The log's name goes back to what it was before; nothing else does. *)
Definition lost_name (p : path) : nat := if decide (p = wal_path "db") then 1%nat else 0%nat.

Lemma lost_name_ok f :
  possible (entry f (wal_path "db")) !! 1%nat = Some None -> fs_ok f ->
  fs_ok (crash_pick lost_name (fun _ => 0%nat) f).
Proof.
  intros Hlost [Hlt Hinj].
  assert (forall p i, Some i ∈ possible (entry (crash_pick lost_name (fun _ => 0%nat) f) p) -> now (entry f p) = Some i) as He.
  { intros p i. unfold entry, crash_pick, lost_name in *. cbn [entries]. rewrite map_lookup_imap.
    destruct (decide (p = wal_path "db")) as [->|_].
    - destruct (entries f !! wal_path "db") as [h|]; simpl; intros H; apply possible_settled in H; [|done].
      simpl in Hlost. by rewrite Hlost in H.
    - destruct (entries f !! p) as [h|]; simpl; intros H; by apply possible_settled in H. }
  split.
  - intros p i Hi. apply (Hlt p). rewrite <-(He p i Hi). apply possible_now.
  - intros p q i Hp Hq. apply (Hinj p q i); apply He; [rewrite <-Hp|rewrite <-Hq]; apply possible_now.
Qed.

Lemma put_runs dir s x v st o st' :
  SeriesKey_ok s -> Sample_ok x -> running dir st v -> engine_put s x st = (o, st') -> put_outcome dir s x v st o st'.
Proof.
  intros Hs Hx (bss & records & Hok & Hview) Hrun.
  pose proof (wp_engine_put dir bss records s x Hs Hx st Hok) as Hw. unfold wp in Hw. rewrite Hrun in Hw.
  exact (put_post_outcome _ _ _ _ _ _ _ _ _ Hok Hview Hw).
Qed.

Lemma open_runs d w v r :
  leaves "db" (one_view v) (fs w) -> fs_ok (fs w) -> engine_open (wal_path "db") d w = r ->
  (match r.1 with Done _ => true | _ => false end) = true -> running "db" (opened r) v.
Proof.
  intros Hl Hok Hr Hdone. pose proof (wp_open_left "db" d (one_view v) w ltac:(done) (one_view_closed _) Hok Hl) as Hw.
  unfold wp in Hw. rewrite Hr in Hw. destruct r as [[e|x|] w']; [|discriminate Hdone..].
  destruct Hw as (_ & _ & _ & v' & bss & records & Hv & Heok & Hview & _). exists bss, records.
  split; [exact Heok|]. transitivity v'; [exact Hview|exact Hv].
Qed.

Lemma fresh_disk_ok : fs_ok fresh_disk.
Proof. split; [intros p i Hi; by apply possible_settled in Hi|done]. Qed.

Lemma fresh_put_running : running "db" fresh_put.2 example_view1.
Proof.
  assert (running "db" fresh_engine view_empty) as H0.
  { apply (open_runs sync_on_append (World fresh_disk [])); [apply fresh_leaves; done|exact fresh_disk_ok|reflexivity|].
    vm_compute. reflexivity. }
  refine (proj1 (put_runs "db" example_key (example_sample 1) view_empty fresh_engine (Done tt) fresh_put.2
    example_key_ok (example_sample_valid 1 ltac:(done)) H0 _)). apply (run_eta fresh_put). vm_compute. reflexivity.
Qed.

(** C21: a database that has just been created can lose a synced put.  [recover]
    creates the log and synchronizes the file, not the directory: a [put] that
    appends to it and synchronizes it returns, and a power loss then may take the
    log's name away, so that opening again finds nothing.  This is why the other
    theorems ask for the log's name to be on stable storage. *)
Theorem fresh_put_can_be_lost :
  fresh_put.1 = Done tt /\
  exists f, crash (fs fresh_put.2.1) f /\ fs_ok f /\
    (engine_get example_key (MkTimestamp 1)
       (opened (engine_open (wal_path "db") sync_on_append (World f [])))).1 = Done None.
Proof.
  split; [vm_compute; reflexivity|]. exists (crash_pick lost_name (fun _ => 0%nat) (fs fresh_put.2.1)).
  split; [apply picked_crash|]. split; [|vm_compute; reflexivity]. apply lost_name_ok; [vm_compute; reflexivity|].
  assert (running "db" fresh_put.2 example_view1) as (bss & records & Hok & _) by exact fresh_put_running.
  exact (ok_fs _ _ _ _ _ Hok).
Qed.

Definition newer_sample : Sample := MkSample (MkTimestamp 1) (MkDouble 4611686018427387904).

(** Two buffered puts at one time, the second in place of the first, and a flush that
    the power loss stops after the manifest is on stable storage. *)
Definition buffered_empty : world * StorageEngine :=
  opened (engine_open (wal_path "db") buffered (World example_disk [])).
Definition buffered_put : outcome unit * (world * StorageEngine) :=
  engine_put example_key (example_sample 1) buffered_empty.
Definition buffered_put2 : outcome unit * (world * StorageEngine) :=
  engine_put example_key newer_sample buffered_put.2.
Definition buffered_engine : world * StorageEngine := buffered_put2.2.

Lemma newer_sample_ok : Sample_ok newer_sample.
Proof. split; [done|]. vm_compute. repeat split; discriminate. Qed.

Lemma buffered_running : exists v, running "db" buffered_engine v.
Proof.
  assert (running "db" buffered_empty view_empty) as H0.
  { apply (open_runs buffered (World example_disk [])); [exact example_left|apply single_file_ok|reflexivity|].
    vm_compute. reflexivity. }
  assert (running "db" buffered_put.2 example_view1) as H1.
  { refine (proj1 (put_runs "db" example_key (example_sample 1) view_empty buffered_empty (Done tt) buffered_put.2
      example_key_ok (example_sample_valid 1 ltac:(done)) H0 _)). apply (run_eta buffered_put). vm_compute. reflexivity. }
  exists (view_put example_key newer_sample example_view1).
  refine (proj1 (put_runs "db" example_key newer_sample example_view1 buffered_put.2 (Done tt) buffered_put2.2
    example_key_ok newer_sample_ok H1 _)). apply (run_eta buffered_put2). vm_compute. reflexivity.
Qed.

Lemma flush_script_fs_ok dir v st script :
  dir <> EmptyString -> running dir st v -> fs_ok (fs (engine_flush (World (fs st.1) script, st.2)).2.1).
Proof.
  intros Hdir (bss & records & Hok & _).
  exact (engine_flush_fs_ok dir bss records (World (fs st.1) script, st.2) Hdir Hok).
Qed.

Definition interrupted_flush : outcome unit * (world * StorageEngine) :=
  engine_flush (World (fs buffered_engine.1) (replicate 29 Succeeds ++ [PowerLoss]), buffered_engine.2).

(** The power loss keeps the first of the two records of the log. *)
Definition stale_log : fsys := crash_pick (fun _ => 0%nat) (fun i => if decide (i = 0%nat) then 58%nat else 0%nat)
  (fs interrupted_flush.2.1).

(** With buffered appends, a crash between publishing the manifest and resetting
    the log can bring an older value back: the new segment, on stable storage, holds
    the newer one, but the log's surviving prefix is replayed over it. *)
Theorem stale_log_is_replayed :
  interrupted_flush.1 = Crashed /\ crash (fs interrupted_flush.2.1) stale_log /\ fs_ok stale_log /\
  @fst (outcome (option Sample)) world
    ((r ← open_segment (Path "db" "segment-00000000000000000001.cst"); segment_get r example_key (MkTimestamp 1))
       (World stale_log [])) = Done (Some newer_sample) /\
  (engine_get example_key (MkTimestamp 1)
     (opened (engine_open (wal_path "db") buffered (World stale_log [])))).1 = Done (Some (example_sample 1)).
Proof.
  split; [vm_compute; reflexivity|]. split; [apply picked_crash|]. split; [|split; [|vm_compute; reflexivity]].
  - apply same_names_ok. destruct buffered_running as (v & Hv). unfold interrupted_flush.
    exact (flush_script_fs_ok "db" v buffered_engine (replicate 29 Succeeds ++ [PowerLoss]) ltac:(discriminate) Hv).
  - vm_compute. reflexivity.
Qed.

(** ** A directory that can be checked *)

(** The names of a file system without history, each with its own inode. *)
Definition names_apart (f : fsys) : bool :=
  let l := map_to_list (entries f) in
  forallb (fun x => bool_decide (before x.2 = []) &&
    match now x.2 with
    | Some i => (i <? next_inode f)%nat && forallb (fun y => bool_decide (x.1 = y.1) || negb (bool_decide (now y.2 = Some i))) l
    | None => true
    end) l.

Lemma names_apart_ok f : names_apart f = true -> fs_ok f.
Proof.
  unfold names_apart. rewrite forallb_forall. intros Hall.
  assert (forall p, entry f p = settled None \/ In (p, entry f p) (map_to_list (entries f))) as Hin.
  { intros p. unfold entry. destruct (entries f !! p) as [h|] eqn:E; [right|by left].
    by apply list_elem_of_In, elem_of_map_to_list. }
  assert (forall p i, Some i ∈ possible (entry f p) -> now (entry f p) = Some i) as Hnow.
  { intros p i Hi. destruct (Hin p) as [He|Hp]; [rewrite He in Hi; by apply possible_settled in Hi|].
    pose proof (Hall _ Hp) as Hx. apply andb_true_iff in Hx as [Hb _]. apply bool_decide_eq_true in Hb. cbn [snd] in Hb.
    unfold possible in Hi. rewrite Hb in Hi. symmetry. by apply list_elem_of_singleton in Hi. }
  assert (forall p i, now (entry f p) = Some i -> (i < next_inode f)%nat /\ forall q, now (entry f q) = Some i -> p = q) as H.
  { intros p i Hi. destruct (Hin p) as [He|Hp]; [rewrite He in Hi; discriminate Hi|].
    pose proof (Hall _ Hp) as Hx. apply andb_true_iff in Hx as [_ Hx]. cbn [fst snd] in Hx. rewrite Hi in Hx.
    apply andb_true_iff in Hx as [Hlt Ho]. split; [by apply Nat.ltb_lt|]. intros q Hq.
    destruct (Hin q) as [He|Hq']; [rewrite He in Hq; discriminate Hq|]. rewrite forallb_forall in Ho.
    specialize (Ho _ Hq'). cbn [fst snd] in Ho. rewrite Hq, (bool_decide_true (Some i = Some i)), orb_false_r in Ho by done.
    by apply bool_decide_eq_true in Ho. }
  split; [intros p i Hi; by apply (H p i), Hnow|intros p q i Hp; by apply H].
Qed.

(** ** A restart without a power loss *)

(** A compaction of two segments whose last call, the synchronization of the
    directory after the manifest was renamed, fails. *)
Definition failed_compact : outcome unit * (world * StorageEngine) :=
  engine_compact (World (fs example_flush2.2.1) (replicate 34 Succeeds ++ [Fails EIO]), example_flush2.2.2).

(** The process is started again; the machine has not lost power. *)
Definition restarted : world * StorageEngine :=
  opened (engine_open (wal_path "db") sync_on_append (World (fs failed_compact.2.1) [])).

(** A later power loss brings the old manifest's name back and keeps the removal of
    the segments it lists. *)
Definition old_manifest (p : path) : nat := if decide (p = manifest_path "db") then 1%nat else 0%nat.
Definition segments_lost : fsys := crash_pick old_manifest (fun _ => 0%nat) (fs restarted.1).

(** C22: restarting after a failed compaction can lose every sample.  When the directory
    cannot be synchronized after the new manifest was renamed into place, [compact]
    throws and asks for a restart.  The restarted engine reads the new manifest,
    whose name is not yet on stable storage, and removes the old segments as orphans
    at once; a power loss then may bring the old manifest back, the segments it lists
    are gone, and the database does not open any more. *)
Theorem restart_can_lose_segments :
  failed_compact.1 = Raised (system_error EIO "failed to synchronize parent directory") /\
  (engine_get example_key (MkTimestamp 1) restarted).1 = Done (Some (example_sample 1)) /\
  crash (fs restarted.1) segments_lost /\ fs_ok segments_lost /\
  (engine_open (wal_path "db") sync_on_append (World segments_lost [])).1 =
    Raised (system_error ENOENT "failed to inspect file size").
Proof.
  split; [vm_compute; reflexivity|]. split; [vm_compute; reflexivity|]. split; [apply picked_crash|].
  split; [apply names_apart_ok; vm_compute; reflexivity|vm_compute; reflexivity].
Qed.

(** A put whose record is written and whose synchronization fails; the process is started
    again, and a later power loss takes the record away. *)
Definition unsynced_put : outcome unit * (world * StorageEngine) :=
  let st := opened (engine_open (wal_path "db") sync_on_append (World example_disk [])) in
  engine_put example_key (example_sample 1) (World (fs st.1) [Succeeds; Fails EIO], st.2).
Definition replayed : world * StorageEngine :=
  opened (engine_open (wal_path "db") sync_on_append (World (fs unsynced_put.2.1) [])).
Definition record_lost : fsys :=
  crash_pick (fun _ => 0%nat) (fun i => pred (length (possible (inode (fs replayed.1) i)))) (fs replayed.1).

(** What a restart shows need not be there after the next power loss.  [recover] replays
    the log as it finds it, without synchronizing it: the record of a put that threw
    because it could not be synchronized is read back, and a power loss then may still
    take it away. *)
Theorem shown_put_can_be_lost :
  unsynced_put.1 = Raised (system_error EIO "failed to synchronize WAL") /\
  (engine_get example_key (MkTimestamp 1) replayed).1 = Done (Some (example_sample 1)) /\
  crash (fs replayed.1) record_lost /\ fs_ok record_lost /\
  (engine_get example_key (MkTimestamp 1)
     (opened (engine_open (wal_path "db") sync_on_append (World record_lost [])))).1 = Done None.
Proof.
  split; [vm_compute; reflexivity|]. split; [vm_compute; reflexivity|]. split; [apply picked_crash|].
  split; [apply names_apart_ok; vm_compute; reflexivity|vm_compute; reflexivity].
Qed.
