(* ===== verification/Text.v ===== *)
(** * Text the tools read and print

    Numbers in decimal: [std::from_chars] for integers and [operator<<], as the
    command-line tool and the benchmark use them, and the searches in a
    [std::string_view].  Reading what was printed gives the number back. *)

From stdpp Require Import base tactics option numbers list strings.
From Stdlib Require Import ZArith Lia Ascii.
From S2P Require Import Prelude Manifest StorageEngine.

(** ** Printing *)

(** The digits of [n], at most [fuel] of them, before [acc]. *)
Fixpoint digits_of (fuel : nat) (n : Z) (acc : string) : string :=
  match fuel with
  | O => acc
  | S fuel =>
    let acc := String (digit n) acc in
    if n <? 10 then acc else digits_of fuel (n / 10) acc
  end.

(** [std::ostream::operator<<] of an integer of 64 bits, which has at most 20 digits. *)
Definition show_integer (n : Z) : string :=
  if n <? 0 then String "-" (digits_of 20 (- n) EmptyString) else digits_of 20 n EmptyString.

(** ** Reading *)

Definition digit_value (c : ascii) : option Z :=
  let n := Z.of_nat (nat_of_ascii c) in
  if (48 <=? n) && (n <=? 57) then Some (n - 48) else None.

(** The longest run of digits: its value after [acc], and the rest. *)
Fixpoint scan_digits (acc : Z) (text : string) : Z * string :=
  match text with
  | EmptyString => (acc, text)
  | String c rest =>
    match digit_value c with
    | Some d => scan_digits (acc * 10 + d) rest
    | None => (acc, text)
    end
  end.

(** The digits of [std::from_chars]: none is [std::errc::invalid_argument]. *)
Definition scan_number (text : string) : option (Z * string) :=
  match text with
  | EmptyString => None
  | String c _ => match digit_value c with Some _ => Some (scan_digits 0 text) | None => None end
  end.

(** [std::from_chars] in base 10: the value and where it ends, or an error code.  A
    minus sign is read for a signed type only, and a value out of range is an error. *)
Definition from_chars_i64 (text : string) : option (Z * string) :=
  match
    (match text with
     | String "-" rest => match scan_number rest with Some (n, rest) => Some (- n, rest) | None => None end
     | _ => scan_number text
     end)
  with
  | Some (n, rest) => if (- 2 ^ 63 <=? n) && (n <? 2 ^ 63) then Some (n, rest) else None
  | None => None
  end.

Definition from_chars_u64 (text : string) : option (Z * string) :=
  match scan_number text with
  | Some (n, rest) => if n <? 2 ^ 64 then Some (n, rest) else None
  | None => None
  end.

(** ** Searching *)

(** [text.find(c)]: what is before it and after it. *)
Fixpoint split_at (c : ascii) (text : string) : option (string * string) :=
  match text with
  | EmptyString => None
  | String a rest =>
    if Ascii.eqb a c then Some (EmptyString, rest)
    else match split_at c rest with
         | Some (before, after) => Some (String a before, after)
         | None => None
         end
  end.

Definition newline : string := String "010" EmptyString.
Definition tab : string := String "009" EmptyString.

(** * Lemmas *)

Lemma digit_value_digit n : digit_value (digit n) = Some (n mod 10).
Proof.
  unfold digit_value, digit. pose proof (Z.mod_pos_bound n 10 ltac:(lia)).
  rewrite nat_ascii_embedding by lia. rewrite Nat2Z.inj_add, Z2Nat.id by lia.
  rewrite (proj2 (Z.leb_le _ _)), (proj2 (Z.leb_le _ _)) by lia. simpl. f_equal. lia.
Qed.

(** Reading the digits again. *)
Lemma scan_digits_of fuel n acc :
  0 <= n < 10 ^ Z.of_nat (S fuel) ->
  exists k, forall v, scan_digits v (digits_of (S fuel) n acc) = scan_digits (v * k + n) acc.
Proof.
  revert n acc. induction fuel as [|fuel IH]; intros n acc Hn; cbn [digits_of] in *.
  - change (10 ^ Z.of_nat 1) with 10 in Hn. rewrite (proj2 (Z.ltb_lt n 10)) by lia. exists 10. intros v.
    cbn [scan_digits]. rewrite digit_value_digit, Z.mod_small by lia. done.
  - destruct (Z.ltb_spec n 10) as [Hlt|Hge].
    + exists 10. intros v. cbn [scan_digits]. rewrite digit_value_digit, Z.mod_small by lia. done.
    + destruct (IH (n / 10) (String (digit n) acc)) as (k & Hk).
      { rewrite Nat2Z.inj_succ, Z.pow_succ_r in Hn by lia.
        split; [apply Z.div_pos; lia|apply Z.div_lt_upper_bound; lia]. }
      exists (k * 10). intros v. rewrite Hk. cbn [scan_digits]. rewrite digit_value_digit. f_equal.
      pose proof (Z.div_mod n 10). lia.
Qed.

Lemma digits_of_head fuel n acc : exists m rest, digits_of (S fuel) n acc = String (digit m) rest.
Proof.
  revert n acc. induction fuel as [|fuel IH]; intros n acc; cbn [digits_of] in *; [destruct (n <? 10); eauto|].
  destruct (n <? 10); [eauto|]. apply IH.
Qed.

Lemma scan_number_digits n : 0 <= n < 10 ^ 20 -> scan_number (digits_of 20 n EmptyString) = Some (n, EmptyString).
Proof.
  intros Hn. destruct (scan_digits_of 19 n EmptyString Hn) as (k & Hk).
  destruct (digits_of_head 19 n EmptyString) as (m & rest & Hhead).
  unfold scan_number. rewrite Hhead, digit_value_digit, <-Hhead, Hk. done.
Qed.

Lemma digit_not_minus m : Ascii.eqb (digit m) "-" = false.
Proof.
  apply Ascii.eqb_neq. intros H. apply (f_equal nat_of_ascii) in H. unfold digit in H.
  pose proof (Z.mod_pos_bound m 10 ltac:(lia)). rewrite nat_ascii_embedding in H by lia.
  change (nat_of_ascii "-") with 45%nat in H. lia.
Qed.

(** What is printed is read as the number it was. *)
Lemma from_chars_show n : in_i64 n -> from_chars_i64 (show_integer n) = Some (n, EmptyString).
Proof.
  unfold in_i64. intros Hn. unfold show_integer, from_chars_i64. destruct (Z.ltb_spec n 0) as [Hneg|Hpos].
  - rewrite scan_number_digits by lia. rewrite Z.opp_involutive.
    by rewrite (proj2 (Z.leb_le _ _)), (proj2 (Z.ltb_lt _ _)) by lia.
  - assert (match digits_of 20 n EmptyString with
            | String "-" rest => match scan_number rest with Some (n, rest) => Some (- n, rest) | None => None end
            | _ => scan_number (digits_of 20 n EmptyString)
            end = Some (n, EmptyString)) as ->.
    { destruct (digits_of_head 19 n EmptyString) as (m & rest & Hhead). pose proof (digit_not_minus m) as Hm.
      pose proof (scan_number_digits n ltac:(lia)) as Hs. rewrite Hhead in *.
      destruct (digit m) as [[] [] [] [] [] [] [] []]; done. }
    by rewrite (proj2 (Z.leb_le _ _)), (proj2 (Z.ltb_lt _ _)) by lia.
Qed.

Lemma from_chars_i64_range text n rest : from_chars_i64 text = Some (n, rest) -> in_i64 n.
Proof.
  unfold from_chars_i64, in_i64. destruct (match text with EmptyString => _ | _ => _ end) as [[m r]|]; [|done].
  destruct ((- 2 ^ 63 <=? m) && (m <? 2 ^ 63)) eqn:E; [|done]. intros [= -> ->]. bool_to_prop. lia.
Qed.

Lemma scan_digits_range acc text : 0 <= acc -> 0 <= (scan_digits acc text).1.
Proof.
  revert acc. induction text as [|c text IH]; intros acc Ha; cbn [scan_digits]; [done|].
  destruct (digit_value c) as [d|] eqn:E; [|done]. apply IH. unfold digit_value in E.
  destruct (_ && _) eqn:Ed; [|done]. injection E as <-. bool_to_prop. lia.
Qed.

Lemma from_chars_u64_range text n rest : from_chars_u64 text = Some (n, rest) -> in_u 64 n.
Proof.
  unfold from_chars_u64, scan_number. destruct text as [|c text]; [done|]. destruct (digit_value c); [|done].
  pose proof (scan_digits_range 0 (String c text) ltac:(lia)) as H. destruct (scan_digits 0 (String c text)) as [m r].
  destruct (m <? 2 ^ 64) eqn:E; [|done]. intros [= -> ->]. bool_to_prop. split; [exact H|exact E].
Qed.

Lemma split_at_spec c text before after :
  split_at c text = Some (before, after) <-> text = before +:+ String c after /\ contains_char c before = false.
Proof.
  revert before after. induction text as [|a text IH]; intros before after; cbn [split_at].
  { split; [done|]. by intros [H _]; destruct before. }
  destruct (Ascii.eqb_spec a c) as [->|Hne].
  - split.
    + by intros [= <- <-].
    + intros [H Hb]. destruct before as [|b before]; [by injection H as ->|].
      injection H as -> _. simpl in Hb. by rewrite Ascii.eqb_refl in Hb.
  - split.
    + destruct (split_at c text) as [[b r]|]; [|done]. intros [= <- <-]. destruct (proj1 (IH b r) eq_refl) as [-> Hb].
      split; [done|]. cbn [contains_char]. rewrite Hb. by rewrite (proj2 (Ascii.eqb_neq _ _) Hne).
    + intros [H Hb]. destruct before as [|b before]; [by injection H as -> _|]. injection H as -> ->.
      cbn [contains_char] in Hb. apply orb_false_iff in Hb as [_ Hb].
      by rewrite (proj2 (IH before after) (conj eq_refl Hb)).
Qed.
