(* ===== verification/Tools.v ===== *)
(** * What the tools share

    The standard streams of a process, the messages of its exceptions, and the scope
    of a local [Database]. *)

From stdpp Require Import base tactics option numbers list strings gmap.
From Stdlib Require Import ZArith Lia Ascii.
From S2P Require Import Prelude Errors World Hoare Model WalRecovery Database.

(** ** What the process prints *)

Record Console := MkConsole { cout : string; cerr : string }.

(** [std::exception::what()]; what the operating system adds to the message of a
    [std::system_error] is left out, as in [Errors]. *)
Definition what (e : exn) : string :=
  match e with
  | invalid_argument what | length_error what | overflow_error what | logic_error what
  | runtime_error what | system_error _ what | ManifestFormatError what | SegmentFormatError what
  | DatabaseBusyError what | DatabaseCorruptionError what => what
  | WalFormatError offset error => make_format_error_message offset error
  end.

(** Inside the scope of the [Database]. *)
Abbreviation Session := (world * (Database * Console))%type.

Definition in_database {A} (m : M (world * Database) A) : M Session A :=
  zoom (fun s => (s.1, s.2.1)) (fun t s => (t.1, (t.2, s.2.2))) m.

Definition print_out (text : string) : M Session unit :=
  modify (fun s => (s.1, (s.2.1, MkConsole (cout s.2.2 +:+ text) (cerr s.2.2)))).
Definition write_out (text : string) : M (world * Console) unit :=
  set_this (fun c => MkConsole (cout c +:+ text) (cerr c)).
Definition write_err (text : string) : M (world * Console) unit :=
  set_this (fun c => MkConsole (cout c) (cerr c +:+ text)).

(** A block with a local [Database]: it is closed at the end, by an exception too. *)
Definition with_database {A} (directory : string) (options : DatabaseOptions) (body : M Session A) : M (world * Console) A :=
  fun s =>
  match database_open directory options s.1 with
  | (Raised e, w) => (Raised e, (w, s.2))
  | (Crashed, w) => (Crashed, (w, s.2))
  | (Done d, w) =>
    let '(o, (w, (d, c))) := body (w, (d, s.2)) in
    match o with
    | Crashed => (Crashed, (w, c))
    | _ =>
      match database_close (w, d) with
      | (Crashed, (w, _)) => (Crashed, (w, c))
      | (_, (w, _)) => (o, (w, c))
      end
    end
  end.

(** ** Rules *)

Lemma wp_with_database {A} directory options (body : M Session A) (s : world * Console) Q :
  wp (database_open directory options) s.1 (fun o w =>
    match o with
    | Raised e => Q (Raised e) (w, s.2)
    | Crashed => Q Crashed (w, s.2)
    | Done d => wp body (w, (d, s.2)) (fun o t =>
        match o with
        | Crashed => Q Crashed (t.1, t.2.2)
        | _ => wp database_close (t.1, t.2.1) (fun oc u =>
            match oc with Crashed => Q Crashed (u.1, t.2.2) | _ => Q o (u.1, t.2.2) end)
        end)
    end) ->
  wp (with_database directory options body) s Q.
Proof.
  unfold wp, with_database. destruct (database_open directory options s.1) as [[d|e|] w]; try done.
  cbn [fst snd]. intros H. destruct (body (w, (d, s.2))) as [o [w1 [d1 c1]]]. cbn [fst snd] in H.
  destruct o as [a|e|]; [| |exact H]; by destruct (database_close (w1, d1)) as [[u|e'|] [w2 d2]].
Qed.

Lemma wp_in_database {A} (m : M (world * Database) A) (s : Session) Q :
  wp m (s.1, s.2.1) (fun o t => Q o (t.1, (t.2, s.2.2))) -> wp (in_database m) s Q.
Proof. unfold wp, in_database, zoom. by destruct (m _) as [o t]. Qed.

(** Something was written. *)
Lemma longer_differs a b : b <> EmptyString -> a +:+ b <> a.
Proof.
  intros Hb H. apply (f_equal String.length) in H. rewrite string_length_app in H. destruct b; [done|]. simpl in H. lia.
Qed.
