(* ===== verification/Cli.v ===== *)
(** * The command-line tool (src/tools/chronostore_cli/main.cpp)

    [cli_main] is [main] on the list of its arguments: it parses them, opens the
    database, runs one command, prints and closes it, and turns every exception into
    a message and exit code 1.  [std::from_chars] and [operator<<] of a [double] and
    the version the build writes are parameters. *)

From stdpp Require Import base tactics option numbers list strings gmap.
From Stdlib Require Import ZArith Lia Ascii.
From S2P Require Import Prelude Errors World Model WalRecovery Manifest StorageEngine Database Text Tools.

(** [arguments[index]], for an index below [argument_count] *)
Definition argument (arguments : list string) (index : nat) : string := nth index arguments EmptyString.

(** [const std::string_view encoded(arguments[index]); ... tags.emplace_back(...)] *)
Definition parse_tag (encoded : string) : result Tag :=
  match split_at "=" encoded with
  | None => Err (invalid_argument ("invalid tag; expected key=value: " +:+ encoded))
  | Some (before, after) =>
    throw_if (bool_decide (before = EmptyString))
      (invalid_argument ("invalid tag; expected key=value: " +:+ encoded));;
    make_Tag before after
  end.

Definition parse_tags (arguments : list string) (begin_ : nat) : result (list Tag) :=
  result_map parse_tag (drop begin_ arguments).

Definition make_series (measurement : string) (arguments : list string) (tag_begin : nat) : result SeriesKey :=
  tags ← parse_tags arguments tag_begin;
  make_SeriesKey measurement tags.

Definition parse_timestamp (text : string) : result Z :=
  match from_chars_i64 text with
  | Some (value, EmptyString) => Ok value
  | _ => Err (invalid_argument ("invalid timestamp: " +:+ text))
  end.

(** One line of [series]. *)
Definition series_line (s : SeriesKey) : string :=
  measurement s +:+ foldr (fun tag line => tab +:+ key tag +:+ "=" +:+ value tag +:+ line) newline (tags s).

Definition stats_text (stats : DatabaseStats) : string :=
  "samples" +:+ tab +:+ show_integer (db_sample_count stats) +:+ newline +:+
  "memtable_samples" +:+ tab +:+ show_integer (db_memtable_sample_count stats) +:+ newline +:+
  "segments" +:+ tab +:+ show_integer (db_segment_count stats) +:+ newline +:+
  "wal_bytes" +:+ tab +:+ show_integer (db_wal_size_bytes stats) +:+ newline.

Definition run_stats (arguments : list string) : M (world * Console) Z :=
  throw_when (negb (size arguments =? 3)) (invalid_argument "stats requires exactly one database path");;
  with_database (argument arguments 2) default_options
    (stats ← in_database database_stats;
     print_out (stats_text stats);;
     mret 0).

Definition run_series (arguments : list string) : M (world * Console) Z :=
  throw_when (negb (size arguments =? 3)) (invalid_argument "series requires exactly one database path");;
  with_database (argument arguments 2) default_options
    (series ← in_database database_series;
     print_out (foldr (fun s text => series_line s +:+ text) EmptyString series);;
     mret 0).

Definition run_maintenance (command : string) (arguments : list string) : M (world * Console) Z :=
  throw_when (negb (size arguments =? 3)) (invalid_argument (command +:+ " requires exactly one database path"));;
  with_database (argument arguments 2) default_options
    ((if bool_decide (command = "sync") then in_database database_sync
      else if bool_decide (command = "flush") then in_database database_flush
      else in_database database_compact);;
     mret 0).

Section Cli.
Context (from_chars_double : string -> option (double * string)).
Context (show_double : double -> string).
Context (version_string : string).

Definition usage : string :=
  "ChronoStore " +:+ version_string +:+ newline +:+ newline +:+
  "Usage:" +:+ newline +:+
  "  chronostore put <db> <measurement> <timestamp-ns> <value> [key=value ...]" +:+ newline +:+
  "  chronostore get <db> <measurement> <timestamp-ns> [key=value ...]" +:+ newline +:+
  "  chronostore latest <db> <measurement> [key=value ...]" +:+ newline +:+
  "  chronostore range <db> <measurement> <start-ns> <end-ns> [key=value ...]" +:+ newline +:+
  "  chronostore series <db>" +:+ newline +:+
  "  chronostore stats <db>" +:+ newline +:+
  "  chronostore sync <db>" +:+ newline +:+
  "  chronostore flush <db>" +:+ newline +:+
  "  chronostore compact <db>" +:+ newline +:+
  "  chronostore --help" +:+ newline +:+
  "  chronostore --version" +:+ newline.

Definition parse_value (text : string) : result double :=
  match from_chars_double text with
  | Some (value, EmptyString) => Ok value
  | _ => Err (invalid_argument ("invalid sample value: " +:+ text))
  end.

Definition sample_line (x : Sample) : string :=
  show_integer (nanoseconds_since_epoch (timestamp x)) +:+ tab +:+ show_double (sample_value x) +:+ newline.

Definition run_put (arguments : list string) : M (world * Console) Z :=
  throw_when (size arguments <? 6)
    (invalid_argument "put requires a database, measurement, timestamp, and value");;
  with_database (argument arguments 2) default_options
    (series ← lift (make_series (argument arguments 3) arguments 6);
     timestamp ← lift (parse_timestamp (argument arguments 4));
     value ← lift (parse_value (argument arguments 5));
     sample ← lift (make_Sample (MkTimestamp timestamp) value);
     in_database (database_put series sample);;
     mret 0).

(** [if (!sample.has_value()) { return 2; } print_sample(sample.value()); return 0;] *)
Definition print_found (sample : option Sample) : M Session Z :=
  match sample with
  | None => mret 2
  | Some x => print_out (sample_line x);; mret 0
  end.

Definition run_latest (arguments : list string) : M (world * Console) Z :=
  throw_when (size arguments <? 4) (invalid_argument "latest requires a database and measurement");;
  with_database (argument arguments 2) default_options
    (series ← lift (make_series (argument arguments 3) arguments 4);
     sample ← in_database (database_latest series);
     print_found sample).

Definition run_get (arguments : list string) : M (world * Console) Z :=
  throw_when (size arguments <? 5) (invalid_argument "get requires a database, measurement, and timestamp");;
  with_database (argument arguments 2) default_options
    (series ← lift (make_series (argument arguments 3) arguments 5);
     timestamp ← lift (parse_timestamp (argument arguments 4));
     sample ← in_database (database_get series (MkTimestamp timestamp));
     print_found sample).

Definition run_range (arguments : list string) : M (world * Console) Z :=
  throw_when (size arguments <? 6)
    (invalid_argument "range requires a database, measurement, start timestamp, and end timestamp");;
  with_database (argument arguments 2) default_options
    (series ← lift (make_series (argument arguments 3) arguments 6);
     start ← lift (parse_timestamp (argument arguments 4));
     end_ ← lift (parse_timestamp (argument arguments 5));
     samples ← in_database (database_range series (MkTimestamp start) (MkTimestamp end_));
     print_out (foldr (fun x text => sample_line x +:+ text) EmptyString samples);;
     mret 0).

(** The [try] block of [main]. *)
Definition cli_dispatch (arguments : list string) : M (world * Console) Z :=
  if size arguments <? 2 then write_err usage;; mret 1
  else
    let command := argument arguments 1 in
    if bool_decide (command = "--help") || bool_decide (command = "help") then write_out usage;; mret 0
    else if bool_decide (command = "--version") then
      write_out ("chronostore " +:+ version_string +:+ newline);; mret 0
    else if bool_decide (command = "put") then run_put arguments
    else if bool_decide (command = "latest") then run_latest arguments
    else if bool_decide (command = "get") then run_get arguments
    else if bool_decide (command = "range") then run_range arguments
    else if bool_decide (command = "stats") then run_stats arguments
    else if bool_decide (command = "series") then run_series arguments
    else if bool_decide (command = "sync") || bool_decide (command = "flush") || bool_decide (command = "compact")
    then run_maintenance command arguments
    else
      write_err ("chronostore: unknown command: " +:+ command +:+ newline +:+ newline);;
      write_err usage;;
      mret 1.

(** [main]: every exception the sources throw is a [std::exception]. *)
Definition cli_main (arguments : list string) : M (world * Console) Z := fun s =>
  match cli_dispatch arguments s with
  | (Raised e, s) => (write_err ("chronostore: " +:+ what e +:+ newline);; mret 1) s
  | r => r
  end.
End Cli.
