(* ===== verification/DatabaseRules.v ===== *)
(** * The public interface: rules and the operations

    What a member function of [Database] does in terms of the engine's, with the
    flush that follows a [put]. *)

From stdpp Require Import base tactics option numbers list strings gmap relations.
From Stdlib Require Import ZArith Lia.
From S2P Require Import Prelude Errors World Hoare Model OrdMap View MemTable WalRecord FileIo WalFile WalRecovery SegmentBlock Manifest SegmentFile SegmentFormat BlocksView SegmentQuery StorageEngine Database EngineView EngineBlocks EngineState EngineWrite EngineRecovery EngineFlush EngineCompact EngineSafety EngineContract EngineTheorems.

(** ** Rules *)

Definition with_engine (d : Database) (impl : Impl) (e : StorageEngine) : Database :=
  MkDatabase (Some (MkImpl (lock impl) e (flush_threshold_samples impl))).

Lemma wp_in_engine {A} (m : M (world * StorageEngine) A) (s : world * Database) impl Q :
  impl_ s.2 = Some impl ->
  wp m (s.1, engine impl) (fun o t => Q o (t.1, with_engine s.2 impl t.2)) -> wp (in_engine m) s Q.
Proof. unfold wp, in_engine. intros ->. by destruct (m _) as [o t]. Qed.

Lemma wp_translate {S A} (m : M S A) s Q :
  wp m s (fun o s' => match o with Raised e => Q (Raised (corruption_of e)) s' | _ => Q o s' end) ->
  wp (translate_corruption m) s Q.
Proof. unfold wp, translate_corruption. by destruct (m s) as [[a|e|] s']. Qed.

Lemma wp_implementation (s : world * Database) impl Q :
  impl_ s.2 = Some impl -> Q (Done impl) s -> wp implementation s Q.
Proof. intros Hi HQ. unfold implementation, wp, mbind, M_bind, this. simpl. by rewrite Hi. Qed.

(** ** Databases that hold a view *)

(** The engine of a database that has not been moved from; the threshold is a
    [std::size_t]. *)
Definition with_running (P : world * StorageEngine -> Prop) (s : world * Database) : Prop :=
  exists impl, impl_ s.2 = Some impl /\ 0 <= flush_threshold_samples impl /\ P (s.1, engine impl).

Definition db_running (dir : string) (s : world * Database) (v : view) : Prop :=
  with_running (fun st => running dir st v) s.
Definition db_settled (dir : string) (s : world * Database) (v : view) : Prop :=
  with_running (fun st => settled_engine dir st v) s.
Definition db_marked (s : world * Database) : Prop := with_running (fun st => engine_failed_ st.2 = true) s.

(** The MemTable is below the automatic flush. *)
Definition below_threshold (s : world * Database) : Prop :=
  exists impl, impl_ s.2 = Some impl /\
    (flush_threshold_samples impl = 0 \/ memtable_sample_count (memtable_ (engine impl)) < flush_threshold_samples impl).

Lemma wp_flush_clears dir bss records st :
  dir <> EmptyString -> engine_ok (fs st.1) dir st.2 bss records ->
  wp engine_flush st (fun o st' => forall u, o = Done u -> memtable_ st'.2 = empty_memtable).
Proof.
  intros Hdir Hok. destruct (flush_blocks _ _ _ _ _ Hok) as (new & Hblocks & Hnew & Hview).
  destruct (decide (records = [])) as [->|Hne].
  - eapply wp_mono; [by apply (wp_flush_nothing dir bss)|]. intros o st' (_ & _ & _ & Ho) u ->.
    destruct Ho as (Hok' & _). exact (ok_memtable _ _ _ _ _ Hok').
  - eapply wp_mono; [by apply (wp_flush_samples dir Hdir bss records new)|]. intros o st' (_ & _ & Ho) u ->.
    destruct Ho as (Hok' & _). exact (ok_memtable _ _ _ _ _ Hok').
Qed.

(** With every append synced: what a power loss leaves, and the database after the call. *)
Definition db_settled_outcome (dir : string) (v : view) (o : outcome unit) (s : world * Database) : Prop :=
  survives dir (one_view v) (fs s.1) /\
  match o with
  | Done _ => db_settled dir s v
  | Raised _ => db_marked s
  | Crashed => True
  end.

Lemma db_settled_survives dir s v : db_settled dir s v -> survives dir (one_view v) (fs s.1).
Proof. intros (impl & _ & _ & H). exact (settled_survives _ _ _ H). Qed.

Lemma db_settled_done dir s v u : db_settled dir s v -> db_settled_outcome dir v (Done u) s.
Proof. intros H. split; [by apply db_settled_survives|exact H]. Qed.

(** The flush that follows a put; [st] is the engine after the put. *)
Lemma wp_automatic_flush dir v bss records (s : world * Database) impl :
  dir <> EmptyString -> impl_ s.2 = Some impl -> 0 <= flush_threshold_samples impl ->
  engine_ok (fs s.1) dir (engine impl) bss records ->
  engine_view (engine impl) bss ≡ v ->
  wp (if flush_threshold_samples impl =? 0 then mret tt
      else
        count ← in_engine engine_memtable_sample_count;
        if flush_threshold_samples impl <=? count then translate_corruption (in_engine engine_flush)
        else mret tt) s (fun o s' =>
    match o with
    | Done _ => db_running dir s' v /\ below_threshold s' /\ (faulty s'.1 -> faulty s.1)
    | Raised _ => db_marked s' /\ (faulty s.1 \/
        exists new, make_memtable_blocks (engine impl) = Ok new /\ flush_refused (engine impl) new)
    | Crashed => faulty s.1
    end /\
    (log_settled dir (fs s.1) records -> durability_ (wal_writer_ (engine impl)) = sync_on_append ->
     db_settled_outcome dir v o s')).
Proof.
  intros Hdir Hi Hpos Hok Hv.
  assert (log_settled dir (fs s.1) records -> durability_ (wal_writer_ (engine impl)) = sync_on_append ->
    db_settled_outcome dir v (Done tt) s) as Hnow.
  { intros Hset Hd. apply db_settled_done. exists impl. split; [exact Hi|]. split; [exact Hpos|]. by exists bss, records. }
  assert (db_running dir s v) as Hrun by (exists impl; split; [exact Hi|]; split; [exact Hpos|]; by exists bss, records).
  destruct (Z.eqb_spec (flush_threshold_samples impl) 0) as [Hz|Hz].
  { rewrite wp_ret. split; [|exact Hnow]. split; [exact Hrun|]. split; [|auto]. exists impl. auto. }
  wp_step. apply (wp_in_engine _ s impl _ Hi). unfold engine_memtable_sample_count. wp_step.
  apply wp_engine_usable; [apply Hok|]. cbn [and_then fst snd]. rewrite wp_ret. cbn [and_then fst snd].
  assert (with_engine s.2 impl (engine impl) = s.2) as Hsame.
  { unfold with_engine. destruct (s.2) as [i]. cbn [impl_] in Hi. subst i. by destruct impl. }
  rewrite Hsame. destruct (Z.leb_spec (flush_threshold_samples impl) (memtable_sample_count (memtable_ (engine impl)))) as [Hle|Hlt].
  2:{ rewrite wp_ret, <-surjective_pairing. split; [|exact Hnow]. split; [exact Hrun|]. split; [|auto]. exists impl. auto. }
  apply wp_translate. apply (wp_in_engine _ (s.1, s.2) impl _ Hi). cbn [fst snd].
  destruct (wp_flush_outcome dir v bss records (s.1, engine impl) Hdir Hok Hv) as (new & Hnew & Hw).
  pose proof (wp_flush_clears dir bss records (s.1, engine impl) Hdir Hok) as Hclear.
  unfold wp in *. destruct (engine_flush (s.1, engine impl)) as [o [w' e']]. cbn [fst snd] in *.
  destruct Hw as ([Hex Ho] & _ & Hset). destruct o as [u|x|]; cbn [excused] in Hex; (split; [|intros H1 H2;
    destruct (Hset H1 H2) as [Hsurv Hend]; split; [exact Hsurv|]; try (eexists; split; [done|]; by split)]).
  - split; [|split; [|apply Ho]].
    + eexists. split; [done|]. split; [exact Hpos|]. apply Ho.
    + eexists. split; [done|]. right. cbn [flush_threshold_samples engine]. rewrite (Hclear u eq_refl).
      change (memtable_sample_count empty_memtable) with 0. lia.
  - split; [eexists; split; [done|by split]|]. destruct Hex; [by left|right; eauto].
  - exact Hex.
  - done.
Qed.

(** What the engine refuses of a [put], or of the flush that follows it. *)
Definition db_put_refused (s : SeriesKey) (x : Sample) (st : world * Database) : Prop :=
  exists impl, impl_ st.2 = Some impl /\
    (put_refused (engine impl) (MkWalPutRecord s x) \/
     exists st1 new, engine_put s x (st.1, engine impl) = (Done tt, st1) /\
       make_memtable_blocks st1.2 = Ok new /\ flush_refused st1.2 new).

Definition db_put_outcome (dir : string) (s : SeriesKey) (x : Sample) (v : view) (st : world * Database)
    (o : outcome unit) (st' : world * Database) : Prop :=
  match o with
  | Done _ => db_running dir st' (view_put s x v) /\ below_threshold st'
  | Raised _ => (db_running dir st' v \/ db_marked st') /\ (script st.1 <> [] \/ db_put_refused s x st)
  | Crashed => script st.1 <> []
  end.

Definition db_sync_put_outcome (dir : string) (s : SeriesKey) (x : Sample) (v : view)
    (o : outcome unit) (st' : world * Database) : Prop :=
  match o with
  | Done _ => db_settled dir st' (view_put s x v)
  | Raised _ => db_settled dir st' v \/ db_marked st' /\ survives dir (two_views v (view_put s x v)) (fs st'.1)
  | Crashed => survives dir (two_views v (view_put s x v)) (fs st'.1)
  end.

Lemma two_views_right dir v v' f : survives dir (one_view v') f -> survives dir (two_views v v') f.
Proof. apply survives_mono. by right. Qed.

(** What a power loss leaves then. *)
Lemma sync_put_survives dir s x v o st' :
  db_sync_put_outcome dir s x v o st' ->
  match o with
  | Done _ => survives dir (one_view (view_put s x v)) (fs st'.1)
  | _ => survives dir (two_views v (view_put s x v)) (fs st'.1)
  end.
Proof.
  destruct o as [u|e|]; cbn [db_sync_put_outcome]; [by apply db_settled_survives| |done]. intros [H|[_ H]]; [|exact H].
  apply db_settled_survives in H. revert H. apply survives_mono. by left.
Qed.

Lemma wp_database_put dir s x v bss records st impl :
  dir <> EmptyString -> SeriesKey_ok s -> Sample_ok x ->
  impl_ st.2 = Some impl -> 0 <= flush_threshold_samples impl ->
  engine_ok (fs st.1) dir (engine impl) bss records -> engine_view (engine impl) bss ≡ v ->
  wp (database_put s x) st (fun o st' =>
    db_put_outcome dir s x v st o st' /\
    (log_settled dir (fs st.1) records -> durability_ (wal_writer_ (engine impl)) = sync_on_append ->
     log_named (fs st.1) dir -> db_sync_put_outcome dir s x v o st')).
Proof.
  intros Hdir Hs Hx Hi Hpos Hok Hv. unfold database_put. wp_step. apply (wp_implementation st impl); [exact Hi|].
  cbn [and_then]. wp_step. apply wp_translate, (wp_in_engine _ st impl _ Hi).
  pose proof (wp_engine_put dir bss records s x Hs Hx (st.1, engine impl) Hok) as Hw.
  unfold wp at 1. unfold wp in Hw. destruct (engine_put s x (st.1, engine impl)) as [o [w1 e1]] eqn:Hrun. cbn [fst snd] in *.
  pose proof (put_post_outcome dir s x v bss records (st.1, engine impl) o (w1, e1) Hok Hv Hw) as Ho.
  assert (log_settled dir (fs st.1) records -> durability_ (wal_writer_ (engine impl)) = sync_on_append ->
    log_named (fs st.1) dir -> sync_put_outcome dir s x v o (w1, e1)) as Hsurv.
  { intros H1 H2 H3. exact (put_post_settled dir s x v bss records (st.1, engine impl) o (w1, e1) Hok Hv H1 H2 H3 Hw). }
  destruct o as [u|x0|]; cbn [and_then].
  - destruct Hw as (Hsame & _ & _ & Hok1 & _ & Hd1 & _ & Hsync & Hf1). cbn [fst snd] in *.
    assert (engine_view e1 bss ≡ view_put s x v) as Hv1.
    { rewrite (engine_ok_view _ _ _ _ _ Hok1), records_view_snoc, <-(engine_ok_view _ _ _ _ _ Hok).
      cbn [series sample]. by rewrite Hv. }
    assert (log_settled dir (fs st.1) records -> durability_ (wal_writer_ (engine impl)) = sync_on_append ->
      log_named (fs st.1) dir -> log_settled dir (fs w1) (records ++ [MkWalPutRecord s x]) /\
        durability_ (wal_writer_ e1) = sync_on_append) as Hlog.
    { intros H1 H2 H3. split; [split; [by apply Hsync|left; by eapply log_named_same]|congruence]. }
    eapply wp_mono; [by apply (wp_automatic_flush dir (view_put s x v) bss (records ++ [MkWalPutRecord s x])
      (w1, with_engine st.2 impl e1) (MkImpl (lock impl) e1 (flush_threshold_samples impl)))|].
    intros o st' [Hres Hset]. cbn [fst snd engine] in *. split.
    + destruct o as [u'|x'|].
      * destruct Hres as (Hr & Hb & _). by split.
      * destruct Hres as [Hm Hwhy]. split; [by right|]. destruct Hwhy as [Hwhy|(new & Hnew & Href)]; [left; by apply Hf1|].
        right. exists impl. split; [exact Hi|]. right. exists (w1, e1), new. destruct u. by split_and!.
      * cbn [db_put_outcome]. apply Hf1. exact Hres.
    + intros H1 H2 H3. destruct (Hset (proj1 (Hlog H1 H2 H3)) (proj2 (Hlog H1 H2 H3))) as [Hs1 Hend].
      destruct o; cbn [db_sync_put_outcome]; [exact Hend|right; split; [exact Hend|]|]; by apply two_views_right.
  - split; [|].
    + destruct Ho as [Hstop Hwhy]. split.
      * destruct Hstop as [Hr|Hm]; [left|right]; eexists; (split; [done|]); by split.
      * destruct Hwhy as [|Hwhy]; [by left|right]. exists impl. split; [exact Hi|by left].
    + intros H1 H2 H3. destruct (Hsurv H1 H2 H3) as [Hr|[Hm Hs2]]; [left|right; split; [|exact Hs2]];
        eexists; (split; [done|]); by split.
  - split; [exact Ho|exact Hsurv].
Qed.
