(* ===== verification/DatabaseOpen.v ===== *)
(** * Opening and locking the database

    The constructor of [Database]: it prepares the directory, takes its lock, opens
    the engine and gives the lock back when that fails.  While one database holds
    the lock no other opens. *)

From stdpp Require Import base tactics option numbers list strings gmap relations.
From Stdlib Require Import ZArith Lia.
From S2P Require Import Prelude Errors World Hoare Model OrdMap View MemTable WalRecord FileIo WalFile WalRecovery SegmentBlock Manifest SegmentFile SegmentFormat BlocksView SegmentQuery StorageEngine Database EngineView EngineBlocks EngineState EngineWrite EngineRecovery EngineFlush EngineCompact EngineSafety EngineContract EngineTheorems DatabaseRules.

(** ** What the lock and the directory do not touch *)

(** The same names, files and inodes. *)
Definition same_files (f f' : fsys) : Prop :=
  entries f' = entries f /\ inodes f' = inodes f /\ next_inode f' = next_inode f.

Lemma same_files_refl f : same_files f f.
Proof. by split_and!. Qed.

Lemma same_files_trans f1 f2 f3 : same_files f1 f2 -> same_files f2 f3 -> same_files f1 f3.
Proof. intros (? & ? & ?) (? & ? & ?). split_and!; congruence. Qed.

Lemma same_files_entry f f' p : same_files f f' -> entry f' p = entry f p.
Proof. intros (He & _). unfold entry. by rewrite He. Qed.
Lemma same_files_inode f f' i : same_files f f' -> inode f' i = inode f i.
Proof. intros (_ & Hi & _). unfold inode. by rewrite Hi. Qed.

Lemma same_files_kept f f' q : same_files f f' -> kept f f' q.
Proof. intros H. split; [left; by apply same_files_entry|]. intros j _. by apply same_files_inode. Qed.

Lemma same_files_ok f f' : same_files f f' -> fs_ok f -> fs_ok f'.
Proof.
  intros H [Hlt Hinj]. pose proof H as (_ & _ & Hn). split.
  - intros p i. rewrite (same_files_entry _ _ _ H), Hn. apply Hlt.
  - intros p q i. rewrite !(same_files_entry _ _ _ H). apply Hinj.
Qed.

Lemma same_files_crash f f' f1' : same_files f f' -> crash f' f1' -> exists f1, crash f f1 /\ same_files f1 f1'.
Proof.
  intros (He & Hi & Hn) (pe & pi & ->). exists (crash_pick pe pi f). split; [by exists pe, pi|].
  unfold same_files, crash_pick. simpl. by rewrite He, Hi.
Qed.

(** The log's and the segments' names are not the lock's. *)
Definition lock_path (dir : string) : path := Path dir "LOCK".

Lemma live_not_lock f dir m bss q : persisted f dir m bss -> live dir m q -> q <> lock_path dir.
Proof.
  intros H [-> |(name & Hn & ->)]; [done|]. destruct (names_in_range _ _ _ _ H _ Hn) as (k & -> & _).
  intros Hq. apply (f_equal filename) in Hq. cbn [filename lock_path] in Hq. symmetry in Hq.
  by apply not_segment_name in Hq.
Qed.

Lemma leaves_kept dir R f f' :
  (forall q, q <> lock_path dir -> kept f f' q) -> leaves dir R f -> leaves dir R f'.
Proof.
  intros Hk (m & bss & all & found & Hp & Hall & Hmax & Hl & HR). exists m, bss, all, found.
  split; [|split; [done|split; [done|split; [|done]]]].
  - apply (persisted_kept f); [|done]. intros q Hq. apply Hk. by eapply live_not_lock.
  - eapply kept_durable; [|exact Hl]. apply Hk. by intros [=].
Qed.

Lemma survives_same dir R f f' : same_files f f' -> survives dir R f -> survives dir R f'.
Proof.
  intros Hs H f1' Hc. destruct (same_files_crash _ _ _ Hs Hc) as (f1 & Hc1 & Hs1).
  apply (leaves_kept _ _ f1); [|by apply H]. intros q _. by apply same_files_kept.
Qed.

(** ** The directory *)

(** What is at the place is a directory, or nothing is. *)
Definition place_free (dir : string) (f : fsys) : Prop := default true (places f !! dir) = true.

Lemma wp_prepare dir w :
  dir <> EmptyString -> place_free dir (fs w) ->
  wp (prepare_database_directory dir) w (fun o w' =>
    same_files (fs w) (fs w') /\ locks (fs w') = locks (fs w) /\
    match o with
    | Done p => p = wal_path dir /\ (faulty w' -> faulty w)
    | _ => faulty w
    end).
Proof.
  intros Hdir Hplace. unfold prepare_database_directory. wp_step. rewrite bool_decide_false by done.
  rewrite wp_throw_when_false. cbn [and_then].
  assert (forall w1, same_files (fs w) (fs w1) -> locks (fs w1) = locks (fs w) -> (faulty w1 -> faulty w) ->
    places (fs w1) !! dir = Some true ->
    wp (is_directory ← sys_is_directory dir;
        match is_directory with
        | SysErr error => throw (system_error error "failed to inspect database path")
        | SysOk is_directory =>
          throw_when (negb is_directory) (invalid_argument "database path is not a directory");;
          mret (Path dir "chronostore.wal")
        end) w1 (fun o w' => same_files (fs w) (fs w') /\ locks (fs w') = locks (fs w) /\
          match o with
          | Done p => p = wal_path dir /\ (faulty w' -> faulty w)
          | _ => faulty w
          end)) as Hend.
  { intros w1 Hs1 Hl1 Hf1 Hp1. wp_step. apply wp_sys_query.
    - intros w2 Hfs2 Hf2. cbn [and_then]. rewrite Hp1. simpl (negb _). wp_step.
      rewrite wp_throw_when_false. cbn [and_then]. rewrite wp_ret, Hfs2. split; [exact Hs1|]; split; [exact Hl1|auto].
    - intros e w2 Hfs2 Hf2. cbn [and_then]. rewrite wp_throw, Hfs2. split; [exact Hs1|]; split; [exact Hl1|auto].
    - intros w2 Hfs2 Hf2. cbn [and_then]. rewrite Hfs2. split; [exact Hs1|]; split; [exact Hl1|auto]. }
  wp_step. apply wp_sys_query.
  2:{ intros e w1 Hfs1 Hf1. cbn [and_then]. rewrite wp_throw, Hfs1. split; [apply same_files_refl|]; split; [done|auto]. }
  2:{ intros w1 Hfs1 Hf1. cbn [and_then]. rewrite Hfs1. split; [apply same_files_refl|]; split; [done|auto]. }
  intros w1 Hfs1 Hf1. cbn [and_then]. unfold place_free in Hplace.
  destruct (places (fs w) !! dir) as [is_dir|] eqn:Ep; simpl in Hplace.
  - subst is_dir. rewrite bool_decide_true by eauto. cbn [negb]. wp_step. rewrite wp_ret. cbn [and_then].
    apply Hend; rewrite ?Hfs1; auto using same_files_refl.
  - rewrite bool_decide_false by by intros [? [=]]. cbn [negb]. wp_step. wp_step.
    apply wp_sys_change; cbn [fst snd]; rewrite ?Hfs1.
    + intros w2 Hfs2 Hf2. cbn [and_then]. rewrite wp_ret. cbn [and_then].
      apply Hend; rewrite ?Hfs2; [done|done|auto|]. simpl. by rewrite lookup_insert_eq.
    + intros e w2 Hfs2 Hf2. cbn [and_then]. rewrite wp_throw. cbn [and_then]. rewrite Hfs2. split; [apply same_files_refl|]; split; [done|auto].
    + intros w2 Hfs2 Hf2. cbn [and_then]. rewrite Hfs2. split; [by split_and!|]; split; [done|auto].
Qed.

(** ** The lock *)

(** Nobody holds it. *)
Definition lock_free (dir : string) (f : fsys) : Prop :=
  match now (entry f (lock_path dir)) with Some i => i ∉ locks f | None => next_inode f ∉ locks f end.

Lemma wp_lock_acquire dir w :
  fs_ok (fs w) -> lock_free dir (fs w) ->
  wp (lock_acquire (lock_path dir)) w (fun o w' =>
    fs_ok (fs w') /\ (forall q, q <> lock_path dir -> kept (fs w) (fs w') q) /\
    match o with
    | Done i => i ∈ locks (fs w') /\ now (entry (fs w') (lock_path dir)) = Some i /\ (faulty w' -> faulty w)
    | _ => faulty w
    end).
Proof.
  intros Hok Hfree. unfold lock_acquire, sys_open_create.
  assert (exists i f1, create_if_missing (lock_path dir) (fs w) = (SysOk i, f1) /\ i ∉ locks f1) as (i & f1 & Hc & Hi).
  { unfold create_if_missing, lock_free in *. destruct (now (entry (fs w) (lock_path dir))) as [j|]; eauto. }
  destruct (create_kept _ _ _ _ Hok Hc) as (Hok1 & Hnow1 & Hk1).
  wp_step. apply wp_sys_change; rewrite ?Hc; cbn [fst snd].
  2:{ intros e w1 Hfs1 Hf1. cbn [and_then]. rewrite wp_throw, Hfs1. split_and!; auto using kept_refl. }
  2:{ intros w1 Hfs1 Hf1. cbn [and_then]. rewrite Hfs1. split_and!; auto. }
  intros w1 Hfs1 Hf1. cbn [and_then]. wp_step. unfold sys_flock. apply wp_sys_change; rewrite ?Hfs1, ?decide_False by exact Hi;
    cbn [fst snd].
  - intros w2 Hfs2 Hf2. cbn [and_then]. rewrite wp_ret. assert (same_files f1 (fs w2)) as Hs by (rewrite Hfs2; by split_and!).
    split; [by eapply same_files_ok|]. split.
    + intros q Hq. eapply kept_trans; [by apply Hk1|by apply same_files_kept].
    + split; [rewrite Hfs2; simpl; set_solver|]. split; [by rewrite (same_files_entry _ _ _ Hs)|auto].
  - intros e w2 Hfs2 Hf2. cbn [and_then]. wp_step. apply wp_sys_query.
    + intros w3 Hfs3 Hf3. cbn [and_then]. wp_step. apply wp_throw_when; intros _; cbn [and_then]; rewrite ?wp_throw, Hfs3, Hfs2, ?Hfs1;
        split_and!; auto.
    + intros e' w3 Hfs3 Hf3. cbn [and_then]. wp_step. apply wp_throw_when; intros _; cbn [and_then]; rewrite ?wp_throw, Hfs3, Hfs2, ?Hfs1;
        split_and!; auto.
    + intros w3 Hfs3 Hf3. cbn [and_then]. rewrite Hfs3, Hfs2, ?Hfs1. split_and!; auto.
  - intros w2 Hfs2 Hf2. cbn [and_then]. assert (same_files f1 (fs w2)) as Hs by (rewrite Hfs2; by split_and!).
    split; [by eapply same_files_ok|]. split; [|auto].
    intros q Hq. eapply kept_trans; [by apply Hk1|by apply same_files_kept].
Qed.

(** Giving it back leaves the files; it is free unless the system fails. *)
Lemma wp_lock_release i w (Q : outcome unit -> world -> Prop) :
  (forall o w', same_files (fs w) (fs w') -> places (fs w') = places (fs w) -> (i ∈ locks (fs w') -> faulty w) ->
    (faulty w' -> faulty w) -> (forall e, o <> Raised e) -> (o = Crashed -> faulty w) -> Q o w') ->
  wp (lock_release i) w Q.
Proof.
  intros HQ. unfold lock_release, sys_unlock. wp_step.
  assert (forall w1, same_files (fs w) (fs w1) -> places (fs w1) = places (fs w) -> (i ∈ locks (fs w1) -> faulty w) ->
    (faulty w1 -> faulty w) -> wp (sys_close;; mret tt) w1 Q) as Hend.
  { intros w1 Hs1 Hp1 Hl1 Hf1. wp_step. apply wp_sys_query.
    - intros w2 Hfs2 Hf2. cbn [and_then]. rewrite wp_ret. apply HQ; rewrite ?Hfs2; auto; done.
    - intros e w2 Hfs2 Hf2. cbn [and_then]. rewrite wp_ret. apply HQ; rewrite ?Hfs2; auto; done.
    - intros w2 Hfs2 Hf2. cbn [and_then]. apply HQ; rewrite ?Hfs2; auto; done. }
  apply wp_sys_change; cbn [fst snd].
  - intros w1 Hfs1 Hf1. cbn [and_then]. apply Hend; rewrite ?Hfs1; [by split_and!|done|cbn [locks set_locks]; rewrite elem_of_difference, elem_of_singleton; tauto|auto].
  - intros e w1 Hfs1 Hf1. cbn [and_then]. apply Hend; rewrite ?Hfs1; [by split_and!|done|auto..].
  - intros w1 Hfs1 Hf1. cbn [and_then]. apply HQ; rewrite ?Hfs1; [by split_and!|done|auto|auto|done|auto].
Qed.

(** ** The constructor *)

Definition db_open_outcome (dir : string) (options : DatabaseOptions) (R : view -> Prop) (w : world)
    (o : outcome Database) (w' : world) : Prop :=
  match o with
  | Done d => exists i e v bss records,
      d = MkDatabase (Some (MkImpl i e (memtable_flush_threshold_samples options))) /\
      durability_ (wal_writer_ e) = to_internal_durability (durability options) /\
      R v /\ engine_ok (fs w') dir e bss records /\ engine_view e bss ≡ v /\ log_settled dir (fs w') records /\
      (log_named (fs w) dir -> log_named (fs w') dir) /\ (faulty w' -> faulty w)
  | _ => faulty w /\ survives dir R (fs w')
  end.

(** The constructor, for any state of the directory that does not depend on the lock
    file, and what the engine's constructor makes of it. *)
Lemma wp_open_locked dir options (ready bad : fsys -> Prop) (good : world -> world -> StorageEngine -> Prop) w :
  (forall f f', (forall q, q <> lock_path dir -> kept f f' q) -> ready f -> ready f') ->
  (forall f, ready f -> bad f) -> (forall f f', same_files f f' -> bad f -> bad f') ->
  (forall w2, fs_ok (fs w2) -> ready (fs w2) ->
     wp (engine_open (wal_path dir) (to_internal_durability (durability options))) w2 (fun o w3 =>
       match o with Done e => good w2 w3 e | _ => faulty w2 /\ bad (fs w3) end)) ->
  dir <> EmptyString -> fs_ok (fs w) -> place_free dir (fs w) -> lock_free dir (fs w) -> ready (fs w) ->
  wp (database_open dir options) w (fun o w' =>
    match o with
    | Done d => exists i e w2, d = MkDatabase (Some (MkImpl i e (memtable_flush_threshold_samples options))) /\
        kept (fs w) (fs w2) (wal_path dir) /\ (faulty w2 -> faulty w) /\ good w2 w' e
    | _ => faulty w /\ bad (fs w')
    end).
Proof.
  intros Hkept Hbad Hsame Hopen Hdir Hok Hplace Hfree Hl. unfold database_open. wp_step.
  eapply wp_mono; [by apply wp_prepare|]. intros o w1 (Hs1 & Hlocks1 & Ho1).
  assert (ready (fs w1)) as Hl1 by (eapply Hkept; [intros q _; by apply same_files_kept|done]).
  destruct o as [p|e|]; cbn [and_then].
  2, 3: by split; [exact Ho1|apply Hbad].
  destruct Ho1 as [-> Hf1]. apply wp_translate. wp_step.
  assert (lock_free dir (fs w1)) as Hfree1.
  { unfold lock_free in *. rewrite (same_files_entry _ _ _ Hs1), Hlocks1. destruct Hs1 as (_ & _ & ->). exact Hfree. }
  eapply wp_mono; [apply wp_lock_acquire; [by eapply same_files_ok|exact Hfree1]|].
  intros o w2 (Hok2 & Hk2 & Ho2). pose proof (Hkept _ _ Hk2 Hl1) as Hl2.
  destruct o as [i|e|]; cbn [and_then].
  2, 3: split; [auto|by apply Hbad].
  destruct Ho2 as (_ & _ & Hf2). wp_step. apply wp_on_exception.
  eapply wp_mono; [by apply (Hopen w2)|]. intros o w3 Ho3. destruct o as [e|x|]; cbn [and_then].
  - rewrite wp_ret. exists i, e, w2. split; [done|]. split; [|split; [auto|exact Ho3]].
    eapply kept_trans; [by apply same_files_kept|]. apply Hk2. by intros [=].
  - destruct Ho3 as [Hf3 Hb3]. apply wp_lock_release. intros o w4 Hs4 _ _ Hf4 Hno Hcr.
    pose proof (Hsame _ _ Hs4 Hb3) as Hb4.
    destruct o as [u|e|]; cbn [and_then]; [rewrite wp_throw| |]; (split; [auto|exact Hb4]).
  - destruct Ho3 as [Hf3 Hb3]. split; [auto|exact Hb3].
Qed.

Lemma wp_database_open dir options R w :
  dir <> EmptyString -> closed R -> fs_ok (fs w) -> place_free dir (fs w) -> lock_free dir (fs w) ->
  leaves dir R (fs w) ->
  wp (database_open dir options) w (db_open_outcome dir options R w).
Proof.
  intros Hdir HR Hok Hplace Hfree Hl. eapply wp_mono.
  { apply (wp_open_locked dir options (leaves dir R) (survives dir R)
      (fun w2 w3 e => open_outcome dir (to_internal_durability (durability options)) R w2 (Done e) w3)); try done.
    - intros f f'. apply leaves_kept.
    - apply leaves_survives.
    - intros f f'. apply survives_same.
    - intros w2 Hok2 Hl2. eapply wp_mono; [by apply (wp_open_left dir _ R w2)|]. by intros [e|x|] w3. }
  intros o w' Ho. destruct o as [d|x|]; [|exact Ho|exact Ho].
  destruct Ho as (i & e & w2 & -> & Hk & Hf & Hd & Hf3 & Hname & v & bss & records & Hv & Heok & Hview & Hset).
  exists i, e, v, bss, records. split; [done|]. split; [exact Hd|]. split; [exact Hv|]. split; [exact Heok|].
  split; [exact Hview|]. split; [exact Hset|]. split; [|auto]. intros Hn. apply Hname. by eapply log_named_kept.
Qed.

(** ** Opening again without a power loss *)

(** The files of a running engine: also what is not on stable storage yet counts. *)
Definition files_hold (dir : string) (v : view) (f : fsys) : Prop :=
  exists m bss records i, persisted f dir m bss /\ Forall record_ok records /\
    size (log_bytes records) <= max_u64 /\ log_state f dir i (log_bytes records) /\
    records_view records (segments_view bss) ≡ v.

Lemma running_files dir st v : running dir st v -> files_hold dir v (fs st.1).
Proof.
  intros (bss & records & Hok & Hv). destruct (ok_writer _ _ _ _ _ Hok) as (i & _ & _ & Hlog).
  exists (manifest_ st.2), bss, records, i. split; [apply Hok|]. split; [apply Hok|]. split; [apply Hok|].
  split; [exact Hlog|]. by rewrite <-(engine_ok_view _ _ _ _ _ Hok).
Qed.

Lemma files_hold_kept dir v f f' :
  (forall q, q <> lock_path dir -> kept f f' q) -> files_hold dir v f -> files_hold dir v f'.
Proof.
  intros Hk (m & bss & records & i & Hp & Hall & Hmax & Hl & Hv). exists m, bss, records, i.
  split; [|split; [done|split; [done|split; [|done]]]].
  - apply (persisted_kept f); [|done]. intros q Hq. apply Hk. by eapply live_not_lock.
  - eapply log_state_kept; [|exact Hl]. apply Hk. by intros [=].
Qed.

Lemma wp_open_again dir d v w :
  dir <> EmptyString -> fs_ok (fs w) -> files_hold dir v (fs w) ->
  wp (engine_open (wal_path dir) d) w (fun o w' =>
    match o with Done e => running dir (w', e) v | _ => faulty w /\ True end).
Proof.
  intros Hdir Hok (m & bss & records & i & Hp & Hall & Hmax & Hl & Hv).
  eapply wp_mono.
  { apply (wp_engine_open dir Hdir m bss records Hall Hmax d (Some (length (log_bytes records)))); [done|done|].
    exists i. by rewrite firstn_all. }
  intros o w' [_ Ho]. destruct o as [e|x|]; [|by split|by split].
  destruct Ho as (j & Hj & Heok & _). destruct (recovers_Some _ _ _ Hj) as [Hle Hmaxj].
  assert (j = length records) as ->.
  { apply Nat.le_antisymm; [exact Hle|]. apply Hmaxj; [lia|]. by rewrite firstn_all. }
  rewrite firstn_all in Heok. exists bss, records. split; [exact Heok|]. by rewrite (engine_ok_view _ _ _ _ _ Heok).
Qed.

Lemma wp_database_reopen dir options v w :
  dir <> EmptyString -> fs_ok (fs w) -> place_free dir (fs w) -> lock_free dir (fs w) -> files_hold dir v (fs w) ->
  wp (database_open dir options) w (fun o w' =>
    match o with
    | Done d => exists i e, d = MkDatabase (Some (MkImpl i e (memtable_flush_threshold_samples options))) /\
        running dir (w', e) v
    | _ => faulty w
    end).
Proof.
  intros Hdir Hok Hplace Hfree Hl. eapply wp_mono.
  { apply (wp_open_locked dir options (files_hold dir v) (fun _ => True) (fun _ w3 e => running dir (w3, e) v)); try done.
    - intros f f'. apply files_hold_kept.
    - intros w2 Hok2 Hl2. by apply wp_open_again. }
  intros o w' Ho. destruct o as [d|x|]; [|apply Ho|apply Ho]. destruct Ho as (i & e & w2 & -> & _ & _ & Hr). by exists i, e.
Qed.

(** ** The destructor leaves the files *)

Lemma wp_database_close (s : world * Database) (Q : outcome unit -> world * Database -> Prop) :
  (forall o s', same_files (fs s.1) (fs s'.1) -> places (fs s'.1) = places (fs s.1) ->
    (forall impl, impl_ s.2 = Some impl -> lock impl ∈ locks (fs s'.1) -> faulty s.1) ->
    (faulty s'.1 -> faulty s.1) -> (o = Crashed -> faulty s.1) -> Q o s') ->
  wp database_close s Q.
Proof.
  intros HQ. unfold database_close. wp_step. unfold this at 1, wp at 1. cbn [fst snd and_then].
  destruct (impl_ s.2) as [impl|] eqn:Hi.
  2:{ rewrite wp_ret. apply HQ; [apply same_files_refl|done..]. }
  wp_step. apply (wp_in_engine _ s impl _ Hi), wp_in_wal. unfold wal_close. wp_step.
  unfold this at 1, wp at 1. cbn [fst snd and_then].
  assert (forall s1, fs s1.1 = fs s.1 -> (faulty s1.1 -> faulty s.1) ->
    wp (in_world (lock_release (lock impl))) s1 Q) as Hrel.
  { intros s1 Hfs1 Hf1. apply wp_in_world, wp_lock_release. intros o w' Hs' Hp' Hl' Hf' _ Hc'.
    apply HQ; cbn [fst]; [by rewrite <-Hfs1|by rewrite <-Hfs1|intros impl' [= <-]|..]; auto. }
  destruct (file_descriptor_ (wal_writer_ (engine impl))) as [fd|].
  2:{ rewrite wp_ret. cbn [and_then fst snd]. by apply Hrel. }
  wp_step. apply wp_in_world. apply wp_sys_query.
  - intros w1 Hfs1 Hf1. cbn [and_then fst snd]. apply wp_set_this. cbn [and_then fst snd]. by apply Hrel.
  - intros e w1 Hfs1 Hf1. cbn [and_then fst snd]. apply wp_set_this. cbn [and_then fst snd]. by apply Hrel.
  - intros w1 Hfs1 Hf1. cbn [and_then fst snd]. apply HQ; cbn [fst]; rewrite ?Hfs1; auto using same_files_refl.
Qed.
