(* ===== verification/Guards.v ===== *)
(** * Invariants of computations

    [guards I R m]: whatever happens, [m] keeps [I], and what it returns satisfies
    [R].  With its rules a property is carried through a function of the sources by
    following its text; the reading functions and the queries are done here, for any
    property of the world that only looks at the files. *)

From stdpp Require Import base tactics option numbers list strings gmap.
From Stdlib Require Import ZArith Lia.
From S2P Require Import Prelude Errors World Hoare Model MemTable WalRecord FileIo WalFile SegmentBlock Manifest SegmentFile StorageEngine Database EngineState DatabaseRules.

(** ** The rules *)

(** [m] keeps [I], however it ends, and what it returns satisfies [R]. *)
Definition guards {S A} (I : S -> Prop) (R : A -> Prop) (m : M S A) : Prop :=
  forall s, I s -> wp m s (fun o s' => I s' /\ match o with Done a => R a | _ => True end).

Definition any {A} (_ : A) : Prop := True.

Create HintDb guards.

Section Rules.
Context {S : Type} (I : S -> Prop).

Lemma guards_mono {A} (R R' : A -> Prop) (m : M S A) : (forall a, R a -> R' a) -> guards I R m -> guards I R' m.
Proof.
  intros HR Hm s Hs. eapply wp_mono; [by apply Hm|]. intros o s' [Hs' Ho]. split; [exact Hs'|]. destruct o; auto.
Qed.

Lemma guards_bind {A B} (R : A -> Prop) (R' : B -> Prop) (m : M S A) (f : A -> M S B) :
  guards I R m -> (forall a, R a -> guards I R' (f a)) -> guards I R' (m ≫= f).
Proof.
  intros Hm Hf s Hs. apply wp_bind. eapply wp_mono; [by apply Hm|]. intros o s' [Hs' Ho].
  destruct o as [a|e|]; [by apply Hf|by split|by split].
Qed.

Lemma guards_then {A B} (R' : B -> Prop) (m : M S A) (f : A -> M S B) :
  guards I any m -> (forall a, guards I R' (f a)) -> guards I R' (m ≫= f).
Proof. intros Hm Hf. eapply guards_bind; [exact Hm|auto]. Qed.

Lemma guards_ret {A} (R : A -> Prop) a : R a -> guards I R (mret a).
Proof. by split. Qed.

Lemma guards_throw {A} (R : A -> Prop) e : guards I R (throw e).
Proof. by split. Qed.

Lemma guards_throw_when c e : guards I any (throw_when c e).
Proof. intros s Hs. destruct c; by split. Qed.

Lemma guards_lift {A} (R : A -> Prop) (r : result A) : (forall a, r = Ok a -> R a) -> guards I R (lift r).
Proof. intros HR s Hs. unfold lift, wp. destruct r as [a|e]; split; [done|by apply HR|done|done]. Qed.

Lemma guards_on_exception {A} (R : A -> Prop) (m : M S A) h :
  guards I R m -> guards I any h -> guards I R (on_exception m h).
Proof.
  intros Hm Hh s Hs. apply wp_on_exception. eapply wp_mono; [by apply Hm|]. intros o s1 [Hs1 Ho].
  destruct o as [a|e|]; [by split| |by split]. eapply wp_mono; [by apply Hh|]. intros o s2 [Hs2 _].
  destruct o; by split.
Qed.

Lemma guards_modify (f : S -> S) : (forall s, I s -> I (f s)) -> guards I any (modify f).
Proof. intros Hf s Hs. split; [by apply Hf|exact Logic.I]. Qed.

Lemma guards_translate {A} (R : A -> Prop) (m : M S A) : guards I R m -> guards I R (translate_corruption m).
Proof. intros Hm s Hs. apply wp_translate. eapply wp_mono; [by apply Hm|]. by intros [a|e|] s'. Qed.

(** A part of the state, whose invariant is [J]. *)
Lemma guards_zoom {T A} (J : T -> Prop) (R : A -> Prop) (view : S -> T) update (m : M T A) :
  (forall s, I s -> J (view s) /\ forall t, J t -> I (update t s)) -> guards J R m -> guards I R (zoom view update m).
Proof.
  intros HI Hm s Hs. destruct (HI s Hs) as [Hv Hu]. specialize (Hm (view s) Hv). unfold wp, zoom in *.
  destruct (m (view s)) as [o t]. destruct Hm as [Ht Ho]. split; [by apply Hu|exact Ho].
Qed.
End Rules.

(** An object next to the world: [J] of the world, [K] of the object. *)
Definition both {T} (J : world -> Prop) (K : T -> Prop) (s : world * T) : Prop := J s.1 /\ K s.2.

Section Objects.
Context {T : Type} (J : world -> Prop) (K : T -> Prop).

Lemma guards_in_world {A} (R : A -> Prop) (m : M world A) : guards J R m -> guards (both J K) R (in_world m).
Proof. apply guards_zoom. intros s [Hw Ho]. by repeat split. Qed.

Lemma guards_this : guards (both J K) K this.
Proof. intros s [Hw Ho]. by repeat split. Qed.

Lemma guards_set_this (f : T -> T) : (forall t, K t -> K (f t)) -> guards (both J K) any (set_this f).
Proof. intros Hf. apply guards_modify. intros s [Hw Ho]. split; [exact Hw|by apply Hf]. Qed.

Lemma guards_with_object {A} (R : A -> Prop) (t : T) (m : M (world * T) A) :
  K t -> guards (both J K) R m -> guards J R (with_object t m).
Proof.
  intros Ht Hm w Hw. specialize (Hm (w, t) (conj Hw Ht)). unfold wp, with_object in *.
  destruct (m (w, t)) as [o s]. destruct Hm as [[Hs _] Ho]. by split.
Qed.
End Objects.

Ltac guards_step :=
  match goal with
  | |- forall _, _ => intros ?
  | |- any _ => exact Logic.I
  | |- guards _ _ (match ?x with _ => _ end) => destruct x
  | |- _ => solve [eauto with guards]
  | |- guards _ _ (_ ≫= _) => apply guards_then
  | |- guards _ _ (mret _) => apply guards_ret
  | |- guards _ _ (throw _) => apply guards_throw
  | |- guards _ _ (throw_when _ _) => apply guards_throw_when
  | |- guards _ _ (lift _) => apply guards_lift
  | |- guards _ _ (on_exception _ _) => apply guards_on_exception
  | |- guards _ _ (in_world _) => apply guards_in_world
  | |- guards _ _ (with_object _ _) => apply (guards_with_object _ any)
  | |- guards _ _ (set_this _) => apply guards_set_this
  | |- guards _ _ (translate_corruption _) => apply guards_translate
  | |- guards _ _ this => eapply guards_mono; [|apply guards_this]
  end.
Ltac guards := repeat guards_step.

(** ** Reading *)

(** A property of the files alone. *)
Class Looks (J : world -> Prop) : Prop := looks_at : forall w w', fs w' = fs w -> J w -> J w'.

(** The queries of the public interface. *)
Inductive db_query : forall A, M (world * Database) A -> Prop :=
| query_get s t : db_query (option Sample) (database_get s t)
| query_latest s : db_query (option Sample) (database_latest s)
| query_range s start end_ : db_query (list Sample) (database_range s start end_)
| query_series : db_query (list SeriesKey) database_series
| query_sample_count : db_query Z database_sample_count
| query_empty : db_query bool database_empty
| query_stats : db_query DatabaseStats database_stats.

Section Reading.
Context (J : world -> Prop) `{!Looks J}.

Lemma guards_next_outcome : guards J any next_outcome.
Proof.
  intros w Hw. unfold next_outcome, wp. destruct (script w) as [|a rest]; (split; [|exact Logic.I]); [done|exact (looks_at w (World (fs w) rest) eq_refl Hw)].
Qed.

Lemma guards_read_fs {A} (g : fsys -> A) : guards J any (read_fs g).
Proof. by intros w Hw. Qed.

Lemma guards_lose_power {A} (R : A -> Prop) : guards J R lose_power.
Proof. by intros w Hw. Qed.
#[local] Hint Resolve guards_next_outcome guards_read_fs guards_lose_power : guards.

Lemma guards_sys_query {A} (g : fsys -> sysret A) : guards J any (sys_query g).
Proof. unfold sys_query. guards. Qed.
#[local] Hint Resolve guards_sys_query : guards.

Lemma guards_file_size_bytes p : guards J any (file_size_bytes p).
Proof. unfold file_size_bytes, sys_file_size. guards. Qed.

Lemma guards_read_file_bytes p offset count : guards J any (read_file_bytes p offset count).
Proof. unfold read_file_bytes, sys_open, sys_lseek, sys_read. guards. Qed.
#[local] Hint Resolve guards_file_size_bytes guards_read_file_bytes : guards.

Lemma guards_open_segment p : guards J any (open_segment p).
Proof. unfold open_segment. guards. Qed.

Lemma guards_read_block r e : guards J any (read_block r e).
Proof. unfold read_block, block_mismatch. guards. Qed.
#[local] Hint Resolve guards_open_segment guards_read_block : guards.

Lemma guards_segment_get r s t : guards J any (segment_get r s t).
Proof. unfold segment_get. induction (entries_from r s) as [|entry entries IH]; cbn [segment_get_loop]; guards. Qed.

Lemma guards_segment_latest r s : guards J any (segment_latest r s).
Proof. unfold segment_latest. guards. Qed.

Lemma guards_segment_range r s a c : guards J any (segment_range r s a c).
Proof.
  unfold segment_range. guards. generalize (@nil Sample) as acc.
  induction (entries_from r s) as [|entry entries IH]; intros acc; cbn [segment_range_loop]; guards.
Qed.

Lemma guards_segment_blocks r : guards J any (segment_blocks r).
Proof. unfold segment_blocks. induction (reader_index r) as [|e l IH]; cbn [read_blocks]; guards. Qed.
#[local] Hint Resolve guards_segment_get guards_segment_latest guards_segment_range guards_segment_blocks : guards.

Lemma guards_contains_in_segments l s t : guards J any (contains_in_segments l s t).
Proof. unfold contains_in_segments. induction (rev l) as [|r k IH]; cbn [any_segment_has]; guards. Qed.

Lemma guards_get_in_segments l s t : guards J any (get_in_segments l s t).
Proof. induction l as [|r l IH]; cbn [get_in_segments]; guards. Qed.

Lemma guards_latest_in_segments l s best : guards J any (latest_in_segments l s best).
Proof. revert best. induction l as [|r l IH]; intros best; cbn [latest_in_segments]; guards. Qed.

Lemma guards_merge_ranges merged l s a c : guards J any (merge_ranges merged l s a c).
Proof. revert merged. induction l as [|r l IH]; intros merged; cbn [merge_ranges]; guards. Qed.

Lemma guards_merge_segments merged l : guards J any (merge_segments merged l).
Proof. revert merged. induction l as [|r l IH]; intros merged; cbn [merge_segments]; guards. Qed.

Lemma guards_open_segments d names l n : guards J any (open_segments d names l n).
Proof. revert l n. induction names as [|name names IH]; intros l n; cbn [open_segments]; guards. Qed.
#[local] Hint Resolve guards_contains_in_segments guards_get_in_segments guards_latest_in_segments guards_merge_ranges guards_merge_segments guards_open_segments : guards.

(** ** Queries *)

(** [K] of the engine, [L] of the database. *)
Context (K : StorageEngine -> Prop) (L : Database -> Prop).

Lemma guards_ensure_usable : guards (both J K) K ensure_usable.
Proof. unfold ensure_usable. eapply guards_bind; [apply guards_this|]. intros e He. by guards. Qed.

Lemma guards_usable : guards (both J K) any ensure_usable.
Proof. eapply guards_mono; [|apply guards_ensure_usable]. done. Qed.
#[local] Hint Resolve guards_usable : guards.

Lemma guards_engine_get s t : guards (both J K) any (engine_get s t).
Proof. unfold engine_get. guards. Qed.
Lemma guards_engine_latest s : guards (both J K) any (engine_latest s).
Proof. unfold engine_latest. guards. Qed.
Lemma guards_engine_range s a c : guards (both J K) any (engine_range s a c).
Proof. unfold engine_range. guards. Qed.
Lemma guards_engine_series : guards (both J K) any engine_series.
Proof. unfold engine_series. guards. Qed.
Lemma guards_engine_sample_count : guards (both J K) any engine_sample_count.
Proof. unfold engine_sample_count. guards. Qed.
Lemma guards_engine_memtable_sample_count : guards (both J K) any engine_memtable_sample_count.
Proof. unfold engine_memtable_sample_count. guards. Qed.
Lemma guards_engine_empty : guards (both J K) any engine_empty.
Proof. unfold engine_empty. guards. Qed.
Lemma guards_engine_stats : guards (both J K) any engine_stats.
Proof. unfold engine_stats. guards. Qed.
#[local] Hint Resolve guards_engine_get guards_engine_latest guards_engine_range guards_engine_series guards_engine_sample_count guards_engine_memtable_sample_count guards_engine_empty guards_engine_stats : guards.

(** The engine of a database with [L] has [K], and only the engine changes. *)
Context (engine_of : forall d impl, L d -> impl_ d = Some impl -> K (engine impl) /\ forall e, K e -> L (with_engine d impl e)).

Lemma guards_in_engine {A} (m : M (world * StorageEngine) A) :
  guards (both J K) any m -> guards (both J L) any (in_engine m).
Proof using engine_of.
  intros Hm s [Hw HL]. destruct (impl_ s.2) as [impl|] eqn:Hi.
  - destruct (engine_of _ _ HL Hi) as [HK Hback]. apply (wp_in_engine _ s impl _ Hi).
    eapply wp_mono; [by apply Hm|]. intros o t [[Ht Hn] _]. split; [|by destruct o]. split; [exact Ht|]. by apply Hback.
  - unfold wp, in_engine. rewrite Hi. by split.
Qed.

Lemma guards_implementation : guards (both J L) any implementation.
Proof. unfold implementation. guards. Qed.
#[local] Hint Resolve guards_in_engine guards_implementation : guards.

Lemma guards_database_get s t : guards (both J L) any (database_get s t).
Proof using Looks0 engine_of. unfold database_get. guards. Qed.
Lemma guards_database_latest s : guards (both J L) any (database_latest s).
Proof using Looks0 engine_of. unfold database_latest. guards. Qed.
Lemma guards_database_range s a c : guards (both J L) any (database_range s a c).
Proof using Looks0 engine_of. unfold database_range. guards. Qed.
Lemma guards_database_series : guards (both J L) any database_series.
Proof using Looks0 engine_of. unfold database_series. guards. Qed.
Lemma guards_database_sample_count : guards (both J L) any database_sample_count.
Proof using Looks0 engine_of. unfold database_sample_count. guards. Qed.
Lemma guards_database_empty : guards (both J L) any database_empty.
Proof using Looks0 engine_of. unfold database_empty. guards. Qed.
Lemma guards_database_stats : guards (both J L) any database_stats.
Proof using Looks0 engine_of. unfold database_stats. guards. Qed.

Lemma db_query_guards A (m : M (world * Database) A) : db_query A m -> guards (both J L) any m.
Proof using Looks0 engine_of.
  intros H. destruct H; auto using guards_database_get, guards_database_latest, guards_database_range,
    guards_database_series, guards_database_sample_count, guards_database_empty, guards_database_stats.
Qed.
End Reading.

#[export] Hint Resolve guards_next_outcome guards_read_fs guards_lose_power guards_sys_query guards_file_size_bytes
  guards_read_file_bytes guards_open_segment guards_read_block guards_segment_get guards_segment_latest
  guards_segment_range guards_segment_blocks guards_contains_in_segments guards_get_in_segments
  guards_latest_in_segments guards_merge_ranges guards_merge_segments guards_open_segments guards_usable
  guards_engine_get guards_engine_latest guards_engine_range guards_engine_series guards_engine_sample_count
  guards_engine_memtable_sample_count guards_engine_empty guards_engine_stats guards_implementation : guards.

#[export] Hint Extern 0 (Looks _) => exact _ : guards.

(** ** Queries change nothing *)

Section Unchanged.
Context (f : fsys) (d : Database).

#[local] Instance same_fs_looks : Looks (fun w => fs w = f).
Proof. intros w w' Hf Hw. by rewrite Hf. Qed.

(** The engine of [d]. *)
Definition is_engine (e : StorageEngine) : Prop := exists impl, impl_ d = Some impl /\ engine impl = e.

Lemma same_engine d' impl :
  d = d' -> impl_ d' = Some impl -> is_engine (engine impl) /\ forall e, is_engine e -> d = with_engine d' impl e.
Proof.
  intros <- Hi. split; [by exists impl|]. intros e (impl' & Hi' & <-). rewrite Hi in Hi'. injection Hi' as <-.
  unfold with_engine. destruct d as [o]. simpl in Hi. subst o. by destruct impl.
Qed.

Lemma db_query_unchanged A (m : M (world * Database) A) :
  db_query A m -> guards (both (fun w => fs w = f) (eq d)) any m.
Proof. intros Hq. eapply db_query_guards; [apply same_fs_looks|apply same_engine|exact Hq]. Qed.
End Unchanged.
