(* ===== verification/LockHeld.v ===== *)
(** * What the operations leave alone, and the lock

    Between the constructor and the destructor of a [Database] its lock file stays
    where it is and stays locked, whatever is called, whatever is in the files and
    however the calls end: every function an operation runs keeps it ([guards]). *)

From stdpp Require Import base tactics option numbers list strings gmap relations.
From Stdlib Require Import ZArith Lia Ascii.
From S2P Require Import Prelude Errors World Hoare Model MemTable WalRecord FileIo WalFile WalRecovery SegmentBlock Manifest SegmentFile StorageEngine Database EngineState DatabaseRules DatabaseOpen Guards.

Lemma temporary_not_lock p : filename (path_append p ".tmp") <> "LOCK".
Proof.
  intros H. apply (f_equal (contains_char "."%char)) in H. cbn [path_append filename] in H.
  rewrite contains_char_app, orb_true_r in H. discriminate H.
Qed.

(** The calls of the public interface on an open database. *)
Inductive db_call : forall A, M (world * Database) A -> Prop :=
| call_put s x : db_call unit (database_put s x)
| call_sync : db_call unit database_sync
| call_flush : db_call unit database_flush
| call_compact : db_call unit database_compact
| call_query A (m : M (world * Database) A) : db_query A m -> db_call A m.

(** ** What the storage engine leaves alone

    The functions below the public interface write bytes, synchronize, create names,
    and rename and remove other names than the lock's.  What none of this touches,
    every one of them keeps. *)
Class Gentle (J : fsys -> Prop) : Prop := {
  gentle_set_inode j h f : J f -> J (set_inode j h f);
  gentle_settle_directory d f : J f -> J (settle_directory d f);
  gentle_create p f : J f -> J (create_if_missing p f).2;
  gentle_rename from to j f :
    filename from <> "LOCK" -> filename to <> "LOCK" -> now (entry f from) = Some j -> J f ->
    J (set_entry from (push None (entry f from)) (set_entry to (push (Some j) (entry f to)) f));
  gentle_remove p f : filename p <> "LOCK" -> J f -> J (set_entry p (push None (entry f p)) f);
}.

Definition upheld (J : fsys -> Prop) (w : world) : Prop := J (fs w).

#[export] Instance upheld_looks J : Looks (upheld J).
Proof. intros w w' Hf Hw. unfold upheld. by rewrite Hf. Qed.

Section Kept.
Context (J : fsys -> Prop) `{!Gentle J}.

Abbreviation holds := (upheld J).

Lemma guards_modify_fs g : (forall f, J f -> J (g f)) -> guards holds any (modify_fs g).
Proof. intros Hg. apply guards_modify. intros w Hw. by apply Hg. Qed.

#[local] Hint Resolve guards_modify_fs : guards.

Lemma guards_sys_change {A} (g : fsys -> sysret A * fsys) :
  (forall f, J f -> J (g f).2) -> guards holds any (sys_change g).
Proof. intros Hg. unfold sys_change. guards. Qed.

Lemma guards_sys_settle g : (forall f, J f -> J (g f)) -> guards holds any (sys_settle g).
Proof. intros Hg. unfold sys_settle. guards. Qed.

Lemma guards_sys_write j bytes : guards holds any (sys_write j bytes).
Proof using Gentle0.
  assert (forall b f, J f -> J (append_inode j b f)) as Hg by (intros b f; apply gentle_set_inode).
  unfold sys_write. guards.
Qed.

Lemma guards_sys_fsync j : guards holds any (sys_fsync j).
Proof using Gentle0. apply guards_sys_settle. intros f. apply gentle_set_inode. Qed.

Lemma guards_sys_fsync_directory d : guards holds any (sys_fsync_directory d).
Proof using Gentle0. apply guards_sys_settle, gentle_settle_directory. Qed.

Lemma guards_sys_ftruncate j n : guards holds any (sys_ftruncate j n).
Proof using Gentle0. apply guards_sys_change. intros f. apply gentle_set_inode. Qed.
#[local] Hint Resolve guards_sys_write guards_sys_fsync guards_sys_fsync_directory guards_sys_ftruncate : guards.

Lemma guards_sys_open_create p : guards holds any (sys_open_create p).
Proof using Gentle0. apply guards_sys_change, gentle_create. Qed.

Lemma guards_sys_open_truncate p : guards holds any (sys_open_truncate p).
Proof using Gentle0.
  apply guards_sys_change. intros f Hf. pose proof (gentle_create p f Hf) as Hc.
  destruct (create_if_missing p f) as [[j|e] f1]; [|exact Hc]. by apply gentle_set_inode.
Qed.

Lemma guards_sys_resize_file p n : guards holds any (sys_resize_file p n).
Proof using Gentle0.
  apply guards_sys_change. intros f Hf. destruct (now (entry f p)) as [j|]; [|exact Hf]. by apply gentle_set_inode.
Qed.

Lemma guards_sys_rename from to :
  filename from <> "LOCK" -> filename to <> "LOCK" -> guards holds any (sys_rename from to).
Proof using Gentle0.
  intros Hfrom Hto. apply guards_sys_change. intros f Hf. destruct (now (entry f from)) as [j|] eqn:E; [|exact Hf].
  by apply gentle_rename.
Qed.

Lemma guards_sys_remove p : filename p <> "LOCK" -> guards holds any (sys_remove p).
Proof using Gentle0.
  intros Hp. apply guards_sys_change. intros f Hf. destruct (now (entry f p)) as [j|]; [|exact Hf]. by apply gentle_remove.
Qed.

Lemma guards_retry {A} (call : M world (sysret A)) : guards holds any call -> guards holds any (retry_interrupted call).
Proof.
  intros Hc w. unfold wp, retry_interrupted. generalize (length (script w)) as n. intros n. revert w.
  change (guards holds any (retry_loop n call)). induction n as [|n IH]; cbn [retry_loop]; guards.
Qed.

(** ** Files *)

#[local] Hint Resolve guards_sys_open_create guards_sys_open_truncate guards_sys_resize_file guards_sys_rename
  guards_sys_remove guards_retry : guards.

Lemma guards_sync_file p : guards holds any (sync_file p).
Proof.
  unfold sync_file, sync_file_with, sync_descriptor, close_descriptor, ignored_close, open_for_sync, sys_open, sys_close. guards.
Qed.

Lemma guards_replace_file temporary p :
  filename temporary <> "LOCK" -> filename p <> "LOCK" -> guards holds any (replace_file temporary p).
Proof.
  intros Ht Hp. unfold replace_file, replace_file_with, close_descriptor, ignored_close, open_directory_for_sync, sys_open_directory, sys_close. guards.
Qed.

#[local] Hint Resolve guards_sync_file guards_replace_file : guards.

Lemma guards_atomic_write_file p bytes : filename p <> "LOCK" -> guards holds any (atomic_write_file p bytes).
Proof.
  intros Hp. assert (filename (path_append p ".tmp") <> "LOCK") as Ht by apply temporary_not_lock.
  unfold atomic_write_file, atomic_write_file_with, stream_write, stream_close, sys_close. guards.
Qed.

(** ** The log *)

Lemma guards_write_all j bytes : guards holds any (write_all j bytes).
Proof.
  intros w. unfold wp, write_all. generalize (S (length (script w))) as n, 0%Z as k. intros n k. revert w.
  change (guards holds any (write_all_loop n j bytes k)). revert k.
  induction n as [|n IH]; intros k; cbn [write_all_loop]; unfold throw_file_error; guards.
Qed.

Lemma guards_wal_open p d : guards holds any (wal_open p d).
Proof. unfold wal_open, open_for_append, find_file_end, sys_lseek_end, sys_close, throw_file_error. guards. Qed.
#[local] Hint Resolve guards_atomic_write_file guards_write_all guards_wal_open : guards.

(** Its file is found by the descriptor, so the object is any. *)
Abbreviation log_holds := (both holds (@any WalWriter)).

Lemma guards_wal_ensure_usable : guards log_holds any wal_ensure_usable.
Proof. unfold wal_ensure_usable. guards. Qed.
#[local] Hint Resolve guards_wal_ensure_usable : guards.

Lemma guards_wal_sync : guards log_holds any wal_sync.
Proof. unfold wal_sync, synchronize_file, set_failed, throw_file_error. guards. Qed.
#[local] Hint Resolve guards_wal_sync : guards.

Lemma guards_wal_append r : guards log_holds any (wal_append r).
Proof. unfold wal_append, set_size_bytes, set_failed. guards. Qed.

Lemma guards_wal_reset : guards log_holds any wal_reset.
Proof. unfold wal_reset, truncate_file, synchronize_file, set_size_bytes, set_failed, throw_file_error. guards. Qed.

Lemma guards_wal_close : guards log_holds any wal_close.
Proof. unfold wal_close, sys_close. guards. Qed.

Lemma guards_replay_wal {A} (K : A -> Prop) p (replay : WalPutRecord -> M (world * A) unit) :
  (forall r, guards (both holds K) any (replay r)) -> guards (both holds K) any (replay_wal p (Some replay)).
Proof.
  intros Hr. unfold replay_wal, replay_file, sys_open, throw_read_error. apply guards_then; [guards|].
  intros [j|errno]; [|guards]. apply guards_then; [guards|]. intros file.
  assert (forall n offset buffer consumed reached_end result, guards (both holds K) any
    (replay_loop decode_wal_record read_chunk_size replay n j offset buffer consumed reached_end result)) as Hloop; [|apply Hloop].
  induction n as [|n IH]; intros; cbn [replay_loop]; unfold read_next_chunk, throw_read_error, sys_read; guards.
Qed.

Lemma guards_repair_wal_tail p r : guards holds any (repair_wal_tail p r).
Proof. unfold repair_wal_tail, sys_file_size. guards. Qed.
#[local] Hint Resolve guards_wal_append guards_wal_reset guards_wal_close guards_repair_wal_tail : guards.

(** ** Segments and the manifest *)

Lemma guards_write_segment_file p bs : filename p <> "LOCK" -> guards holds any (write_segment_file p bs).
Proof. intros Hp. unfold write_segment_file. guards. Qed.

#[local] Hint Resolve guards_write_segment_file : guards.

(** A manifest that decodes names no lock. *)
Definition no_lock (m : ManifestState) : Prop := "LOCK" ∉ segment_files m.

Lemma valid_no_lock m : ManifestState_ok m -> no_lock m.
Proof. intros (_ & _ & _ & _ & Hv) Hin. rewrite Forall_forall in Hv. by specialize (Hv _ Hin). Qed.

Lemma decoded_no_lock bytes m : decode_manifest bytes = Ok m -> no_lock m.
Proof.
  intros H. destruct (decode_manifest_cases bytes) as [(s & Hs & Hok & _)|(what & He)]; [|congruence].
  rewrite Hs in H. injection H as <-. by apply valid_no_lock.
Qed.

Lemma guards_load_manifest d : guards holds no_lock (load_manifest d).
Proof.
  unfold load_manifest, sys_exists. apply guards_then; [guards|]. intros [b|errno]; [|guards]. destruct (negb b).
  { apply guards_ret. apply not_elem_of_nil. }
  guards. by eapply decoded_no_lock.
Qed.

Lemma guards_store_manifest d m : guards holds any (store_manifest d m).
Proof. unfold store_manifest. assert (filename (manifest_path d) <> "LOCK") as Hm by discriminate. guards. Qed.
#[local] Hint Resolve guards_load_manifest guards_store_manifest : guards.

(** ** The engine *)

(** An orphan's name begins with ["segment-"]; the lock's does not. *)
Lemma orphan_not_lock live leaf : is_orphan live leaf = true -> leaf <> "LOCK".
Proof. intros H ->. unfold is_orphan in H. vm_compute in H. discriminate H. Qed.

Lemma guards_remove_orphans live l : guards holds any (remove_orphans live l).
Proof.
  induction l as [|p l IH]; cbn [remove_orphans]; [guards|]. apply guards_then.
  - destruct (is_orphan live (filename p)) eqn:E; [apply orphan_not_lock in E|]; guards.
  - unfold sys_next_entry. guards.
Qed.

Lemma guards_remove_all l : Forall (fun p => filename p <> "LOCK") l -> guards holds any (remove_all l).
Proof. induction 1 as [|p l Hp Hl IH]; cbn [remove_all]; guards. Qed.
#[local] Hint Resolve guards_remove_orphans : guards.

Definition recovered_no_lock (r : RecoveryState) : Prop := no_lock (recovered_manifest r).

Lemma guards_recover_record r : guards (both holds recovered_no_lock) any (recover_record r).
Proof. unfold recover_record. guards. Qed.

(** The replay, and what [recover] makes of its result. *)
Lemma guards_replay_log p r (n : WalReplayResult -> RecoveryState -> RecoveryState) :
  recovered_no_lock r -> (forall x s, recovered_no_lock s -> recovered_no_lock (n x s)) ->
  guards holds recovered_no_lock (fun w =>
    let '(o, s) := replay_wal p (Some recover_record) (w, r) in
    match o with
    | Done replay_result => (repair_wal_tail p replay_result;; mret (n replay_result s.2)) s.1
    | Raised e => (Raised e, s.1)
    | Crashed => (Crashed, s.1)
    end).
Proof.
  intros Hr Hn w Hw. pose proof (guards_replay_wal recovered_no_lock p recover_record guards_recover_record (w, r) (conj Hw Hr)) as H.
  unfold wp in *. destruct (replay_wal p (Some recover_record) (w, r)) as [o s]. destruct H as [[Hs Ho] _].
  destruct o as [x|e|]; [|by split|by split].
  assert (guards holds recovered_no_lock (repair_wal_tail p x;; mret (n x s.2))) as Hm; [|exact (Hm s.1 Hs)].
  guards.
Qed.

Lemma guards_recover p : guards holds recovered_no_lock (recover p).
Proof.
  unfold recover, sys_list_directory, sys_exists. eapply guards_bind; [apply guards_load_manifest|]. intros m Hm.
  guards. apply (guards_replay_log p _ (fun x s => MkRecoveryState (recovered_memtable s) (recovered_manifest s)
    (recovered_segments s) (recovered_logical_sample_count s) (valid_bytes x))); auto.
Qed.

Definition engine_no_lock (e : StorageEngine) : Prop := no_lock (manifest_ e).
Abbreviation engine_holds := (both holds engine_no_lock).

Lemma guards_engine_open p d : guards holds engine_no_lock (engine_open p d).
Proof.
  unfold engine_open. eapply guards_bind; [apply guards_recover|]. intros r Hr. guards.
Qed.

Lemma guards_in_wal {A} (m : M (world * WalWriter) A) :
  guards (both holds any) any m -> guards engine_holds any (in_wal m).
Proof. apply guards_zoom. intros s [Hw He]. split; [by split|]. intros t [Ht _]. by split. Qed.

Lemma guards_set_engine_failed : guards engine_holds any set_engine_failed.
Proof. by apply guards_set_this. Qed.
Lemma guards_set_memtable f : guards engine_holds any (set_memtable f).
Proof. by apply guards_set_this. Qed.
Lemma guards_set_logical_sample_count f : guards engine_holds any (set_logical_sample_count f).
Proof. by apply guards_set_this. Qed.
Lemma guards_set_segments l m : no_lock m -> guards engine_holds any (set_segments l m).
Proof. intros Hm. by apply guards_set_this. Qed.
#[local] Hint Resolve guards_in_wal guards_set_engine_failed guards_set_memtable
  guards_set_logical_sample_count guards_set_segments : guards.

Lemma guards_engine_put s x : guards engine_holds any (engine_put s x).
Proof. unfold engine_put, contains. guards. Qed.
Lemma guards_engine_sync : guards engine_holds any engine_sync.
Proof. unfold engine_sync. guards. Qed.

(** A new segment's name. *)
Lemma next_filename_not_lock e filename : next_segment_filename e = Ok filename -> filename <> "LOCK".
Proof.
  unfold next_segment_filename. destruct (throw_if _ _); cbn [mbind result_bind]; [|discriminate]. intros [= <-] H.
  symmetry in H. by apply not_segment_name in H.
Qed.

Lemma guards_engine_flush : guards engine_holds any engine_flush.
Proof.
  unfold engine_flush. eapply guards_bind; [apply guards_ensure_usable|]. intros e He.
  destruct (memtable_empty (memtable_ e)); [guards|]. apply guards_on_exception; [|guards].
  apply guards_then; [guards|]. intros blocks. eapply guards_bind; [apply guards_lift, next_filename_not_lock|].
  intros filename Hf. assert (no_lock (MkManifestState (u64 (generation (manifest_ e) + 1)) (logical_sample_count_ e)
    (segment_files (manifest_ e) ++ [filename]))) as Hm.
  { unfold no_lock. cbn [segment_files]. rewrite elem_of_app, list_elem_of_singleton. intros [H|H]; [by apply He|congruence]. }
  guards.
Qed.

Lemma guards_engine_compact : guards engine_holds any engine_compact.
Proof.
  unfold engine_compact. eapply guards_bind; [apply guards_ensure_usable|]. intros e He.
  destruct (size (segments_ e) <=? 1); [guards|]. apply guards_on_exception; [|guards].
  apply guards_then; [guards|]. intros merged. apply guards_then; [guards|]. intros [snapshots n].
  apply guards_then; [guards|]. intros _. apply guards_then; [guards|]. intros blocks.
  eapply guards_bind; [apply guards_lift, next_filename_not_lock|]. intros filename Hf.
  assert (no_lock (MkManifestState (u64 (generation (manifest_ e) + 1)) (logical_sample_count (manifest_ e)) [filename])) as Hm.
  { unfold no_lock. cbn [segment_files]. rewrite list_elem_of_singleton. congruence. }
  assert (guards holds any (remove_all (map (Path (database_directory_ e)) (segment_files (manifest_ e))))) as Hr.
  { apply guards_remove_all, Forall_forall. intros p Hp. apply list_elem_of_fmap in Hp as (name & -> & Hn).
    intros [= ->]. by apply He. }
  guards.
Qed.
#[local] Hint Resolve guards_engine_put guards_engine_sync guards_engine_flush guards_engine_compact : guards.

(** ** The database *)

Section Database.
Context (i : nat).

(** A database that has not been moved from and whose lock is [i]. *)
Definition locked_by (d : Database) : Prop :=
  exists impl, impl_ d = Some impl /\ lock impl = i /\ engine_no_lock (engine impl).

Abbreviation db_holds := (both holds locked_by).

Lemma locked_engine d impl :
  locked_by d -> impl_ d = Some impl ->
  engine_no_lock (engine impl) /\ forall e, engine_no_lock e -> locked_by (with_engine d impl e).
Proof.
  intros (impl' & Hi' & Hl & He) Hi. rewrite Hi in Hi'. injection Hi' as <-. split; [exact He|]. intros e Hn.
  by exists (MkImpl (lock impl) e (flush_threshold_samples impl)).
Qed.

Lemma guards_held_engine {A} (m : M (world * StorageEngine) A) :
  guards engine_holds any m -> guards db_holds any (in_engine m).
Proof. apply guards_in_engine, locked_engine. Qed.
#[local] Hint Resolve guards_held_engine : guards.

Lemma guards_database_put s x : guards db_holds any (database_put s x).
Proof. unfold database_put. guards. Qed.
Lemma guards_database_sync : guards db_holds any database_sync.
Proof. unfold database_sync. guards. Qed.
Lemma guards_database_flush : guards db_holds any database_flush.
Proof. unfold database_flush. guards. Qed.
Lemma guards_database_compact : guards db_holds any database_compact.
Proof. unfold database_compact. guards. Qed.

(** The calls of the public interface on an open database. *)
Lemma db_call_guards A (m : M (world * Database) A) : db_call A m -> guards db_holds any m.
Proof.
  intros H. destruct H as [s x| | | |A m Hq];
    auto using guards_database_put, guards_database_sync, guards_database_flush, guards_database_compact.
  eapply db_query_guards; [exact _|apply locked_engine|exact Hq].
Qed.
End Database.
End Kept.

(** ** A lock file that is held *)

(** The directory exists, its lock file is inode [i], and [i] is locked. *)
Definition held (dir : string) (i : nat) (f : fsys) : Prop :=
  places f !! dir = Some true /\ now (entry f (lock_path dir)) = Some i /\ i ∈ locks f.

#[export] Instance held_gentle dir i : Gentle (held dir i).
Proof.
  assert (forall p e f, filename p <> "LOCK" -> held dir i f -> held dir i (set_entry p e f)) as Hset.
  { intros p e f Hp (Hd & He & Hl). split; [exact Hd|]. split; [|exact Hl]. rewrite entry_set_entry, decide_False; [exact He|].
    intros Heq. apply Hp. by rewrite <-Heq. }
  split; [by intros j h f (Hd & He & Hl)|..|by auto].
  - intros d f (Hd & He & Hl). split; [exact Hd|]. split; [|exact Hl]. rewrite entry_settle_directory. by case_decide.
  - intros p f (Hd & He & Hl). unfold create_if_missing. destruct (now (entry f p)) as [j|] eqn:E; [done|].
    split; [exact Hd|]. split; [|exact Hl]. cbn [snd]. unfold entry in *. cbn [entries].
    rewrite lookup_insert_ne; [exact He|]. intros ->. unfold entry in E. congruence.
  - intros from to j f Hfrom Hto _ Hf. apply (Hset from _ _ Hfrom). by apply Hset.
Qed.

Abbreviation holds dir i := (upheld (held dir i)).

(** A database that holds the lock of its directory. *)
Definition db_at (dir : string) (s : world * Database) : Prop := exists i, both (holds dir i) (locked_by i) s.

(** ** Taking the lock *)

Lemma wp_prepare_place dir w :
  wp (prepare_database_directory dir) w (fun o w' => forall p, o = Done p -> p = wal_path dir /\ places (fs w') !! dir = Some true).
Proof.
  unfold prepare_database_directory. wp_step. apply wp_throw_when; [done|]. intros _. cbn [and_then]. wp_step.
  apply wp_sys_query; [|by intros; wp_go|by intros; wp_go]. intros w1 _ _. cbn [and_then]. wp_step.
  match goal with |- wp ?m _ _ => unfold wp at 1; destruct (m w1) as [[u|e|] w2] end; cbn [fst snd and_then]; [|done|done].
  wp_step. apply wp_sys_query; [|by intros; wp_go|by intros; wp_go]. intros w3 H3 _. cbn [and_then].
  wp_step. apply wp_throw_when; [done|]. intros Hd. cbn [and_then]. rewrite wp_ret. intros p [= <-]. split; [done|].
  rewrite H3. by destruct (places (fs w2) !! dir) as [[]|].
Qed.

Lemma create_found p f :
  exists j f1, create_if_missing p f = (SysOk j, f1) /\ now (entry f1 p) = Some j /\ places f1 = places f.
Proof.
  unfold create_if_missing. destruct (now (entry f p)) as [j|] eqn:E; [by exists j, f|].
  eexists _, _. split; [done|]. split; [|done]. unfold entry. cbn [entries]. by rewrite lookup_insert_eq.
Qed.

Lemma wp_lock_acquire_held dir w :
  places (fs w) !! dir = Some true ->
  wp (lock_acquire (lock_path dir)) w (fun o w' => forall i, o = Done i -> held dir i (fs w')).
Proof.
  intros Hp. unfold lock_acquire, sys_open_create. wp_step.
  destruct (create_found (lock_path dir) (fs w)) as (j & f1 & Hc & He & Hp1).
  apply wp_sys_change; rewrite ?Hc; cbn [fst snd]; [|by intros; wp_go|by intros; wp_go].
  intros w1 H1 _. cbn [and_then]. wp_step. unfold sys_flock.
  assert (forall e w2, wp (sys_close;; throw_when (e =? EAGAIN) (DatabaseBusyError "database directory is already open");;
    throw (system_error e "failed to lock database directory")) w2 (fun o w' => forall i, o = Done i -> held dir i (fs w'))) as Hbusy.
  { intros e w2. wp_step. apply wp_sys_query; intros; cbn [and_then]; [| |done]; wp_step;
      apply wp_throw_when; intros; cbn [and_then]; rewrite ?wp_throw; done. }
  destruct (decide (j ∈ locks f1)) as [Hin|Hin].
  - apply wp_sys_change; rewrite ?H1, ?decide_True by done; cbn [fst snd]; intros; cbn [and_then]; first [apply Hbusy|done].
  - apply wp_sys_change; rewrite ?H1, ?decide_False by done; cbn [fst snd]; [|intros; apply Hbusy|done].
    intros w2 H2 _. cbn [and_then]. rewrite wp_ret. intros i [= <-]. rewrite H2.
    split; [by rewrite <-Hp, <-Hp1|]. split; [exact He|]. cbn [locks set_locks]. set_solver.
Qed.

(** The constructor leaves the lock held. *)
Lemma wp_database_open_at dir options w :
  wp (database_open dir options) w (fun o w' => forall d, o = Done d -> db_at dir (w', d)).
Proof.
  unfold database_open. wp_step. eapply wp_mono; [apply wp_prepare_place|]. intros o w1 Ho.
  destruct o as [p|e|]; cbn [and_then]; [|done|done]. destruct (Ho p eq_refl) as [-> Hp].
  apply wp_translate. wp_step. eapply wp_mono; [by apply wp_lock_acquire_held|]. intros o w2 Ho2.
  destruct o as [i|e|]; cbn [and_then]; [|done|done]. specialize (Ho2 i eq_refl). wp_step. apply wp_on_exception.
  eapply wp_mono; [by apply (guards_engine_open (held dir i))|]. intros o w3 [Hw3 Ho3]. destruct o as [e|x|]; cbn [and_then].
  - rewrite wp_ret. intros d [= <-]. exists i. split; [exact Hw3|]. by eexists.
  - unfold wp. by destruct (lock_release i w3) as [[u|e'|] w4].
  - done.
Qed.

(** ** Giving the lock back *)

Lemma held_place_free dir i f : held dir i f -> place_free dir f.
Proof. intros (Hp & _ & _). unfold place_free. by rewrite Hp. Qed.

Lemma held_lock_free dir i f : now (entry f (lock_path dir)) = Some i -> i ∉ locks f -> lock_free dir f.
Proof. intros He Hl. unfold lock_free. by rewrite He. Qed.

(** The destructor: the lock is free unless the operating system has failed. *)
Lemma wp_database_close_at dir s :
  db_at dir s ->
  wp database_close s (fun o s' => same_files (fs s.1) (fs s'.1) /\ place_free dir (fs s'.1) /\
    (lock_free dir (fs s'.1) \/ (exists i, held dir i (fs s'.1)) /\ faulty s.1) /\
    (faulty s'.1 -> faulty s.1) /\ (o = Crashed -> faulty s.1)).
Proof.
  intros (i & Hheld & impl & Hi & Hl & _). unfold upheld in Hheld. apply wp_database_close. intros o s' Hs Hp Hlock Hf Hc.
  destruct Hheld as (Hplace & He & Hin). split; [exact Hs|]. split; [unfold place_free; by rewrite Hp, Hplace|].
  split; [|auto]. rewrite <-(same_files_entry _ _ _ Hs) in He. destruct (decide (i ∈ locks (fs s'.1))) as [Hin'|Hout].
  - right. split; [exists i; by rewrite <-Hp in Hplace|]. apply (Hlock impl Hi). by rewrite Hl.
  - left. by eapply held_lock_free.
Qed.

(** ** A directory that is taken *)

Lemma wp_prepare_taken dir w :
  dir <> EmptyString -> places (fs w) !! dir = Some true ->
  wp (prepare_database_directory dir) w (fun o w' => fs w' = fs w /\ (faulty w' -> faulty w) /\
    match o with Done p => p = wal_path dir | _ => faulty w end).
Proof.
  intros Hdir Hplace. unfold prepare_database_directory. wp_step. rewrite bool_decide_false by done.
  rewrite wp_throw_when_false. cbn [and_then]. wp_step.
  apply wp_sys_query; intros; cbn [and_then]; rewrite ?wp_throw; [|auto..].
  rewrite Hplace, bool_decide_true by eauto. cbn [negb]. wp_step. rewrite wp_ret. cbn [and_then]. wp_step.
  apply wp_sys_query; intros; cbn [and_then]; rewrite ?wp_throw; [|split; [congruence|auto]..].
  match goal with H : fs ?w1 = fs w |- context [places (fs ?w1)] => rewrite H, Hplace end. simpl negb. wp_step.
  rewrite wp_throw_when_false. cbn [and_then]. rewrite wp_ret. split; [congruence|auto].
Qed.

Definition busy : exn := DatabaseBusyError "database directory is already open".

Lemma wp_lock_acquire_taken dir i w :
  held dir i (fs w) ->
  wp (lock_acquire (lock_path dir)) w (fun o w' => fs w' = fs w /\
    match o with Done _ => False | Raised e => e = busy \/ faulty w | Crashed => faulty w end).
Proof.
  intros (_ & He & Hl). unfold lock_acquire, sys_open_create. wp_step.
  assert (create_if_missing (lock_path dir) (fs w) = (SysOk i, fs w)) as Hc by (unfold create_if_missing; by rewrite He).
  apply wp_sys_change; rewrite ?Hc; cbn [fst snd]; intros; cbn [and_then]; rewrite ?wp_throw; [|auto..].
  wp_step. unfold sys_flock.
  assert (forall e w2, fs w2 = fs w -> e = EAGAIN \/ faulty w -> (faulty w2 -> faulty w) ->
    wp (sys_close;; throw_when (e =? EAGAIN) (DatabaseBusyError "database directory is already open");;
      throw (system_error e "failed to lock database directory")) w2 (fun (o : outcome nat) w' => fs w' = fs w /\
      match o with Done _ => False | Raised e => e = busy \/ faulty w | Crashed => faulty w end)) as Hbusy.
  { intros e w2 H2 He2 Hf2. wp_step. apply wp_sys_query; intros; cbn [and_then]; [| |split; [congruence|auto]]; wp_step;
      apply wp_throw_when; intros Heq; cbn [and_then]; rewrite ?wp_throw; (split; [congruence|]); auto;
      destruct He2 as [->|]; auto; discriminate Heq. }
  apply wp_sys_change; rewrite ?decide_True by congruence; cbn [fst snd]; intros; cbn [and_then];
    [apply Hbusy|apply Hbusy|split]; auto; congruence.
Qed.

Lemma wp_database_open_taken dir options i w :
  dir <> EmptyString -> held dir i (fs w) ->
  wp (database_open dir options) w (fun o w' => fs w' = fs w /\
    match o with Done _ => False | Raised e => e = busy \/ faulty w | Crashed => faulty w end).
Proof.
  intros Hdir Hheld. unfold database_open. wp_step. eapply wp_mono; [by apply wp_prepare_taken, Hheld|].
  intros o w1 (H1 & Hf1 & Ho). destruct o as [p|e|]; cbn [and_then]; [|by auto|by auto]. subst p.
  apply wp_translate. wp_step. eapply wp_mono; [by apply (wp_lock_acquire_taken dir i); rewrite H1|].
  intros o w2 [H2 Ho2]. destruct o as [j|e|]; cbn [and_then]; [done| |].
  - split; [congruence|]. destruct Ho2 as [->|]; [by left|right; auto].
  - split; [congruence|auto].
Qed.

(** ** A directory over time *)

(** The owner of the database calls it, and others try to open the same directory. *)
Inductive client_step (dir : string) (s : world * Database) : world * Database -> Prop :=
| step_call A (m : M (world * Database) A) o s' :
    db_call A m -> m s = (o, s') -> o <> Crashed -> client_step dir s s'
| step_other options o w :
    database_open dir options s.1 = (o, w) -> o <> Crashed -> client_step dir s (w, s.2).

Lemma client_step_at dir s s' : dir <> EmptyString -> client_step dir s s' -> db_at dir s -> db_at dir s'.
Proof.
  intros Hdir Hstep (i & Hs). exists i. destruct Hstep as [A m o s' Hcall Hrun _|options o w Hrun _].
  - pose proof (db_call_guards (held dir i) i A m Hcall s Hs) as H. unfold wp in H. rewrite Hrun in H. apply H.
  - destruct Hs as [Hw Hd]. pose proof (wp_database_open_taken dir options i s.1 Hdir Hw) as H. unfold wp in H.
    rewrite Hrun in H. cbn [fst snd] in H. destruct H as [H _]. split; [|exact Hd]. unfold upheld. cbn [fst]. by rewrite H.
Qed.

Lemma client_steps_at dir s s' : dir <> EmptyString -> rtc (client_step dir) s s' -> db_at dir s -> db_at dir s'.
Proof. intros Hdir. induction 1 as [|s s1 s' Hstep _ IH]; [done|]. intros H. by eapply IH, client_step_at. Qed.
