(* ===== verification/Seen.v ===== *)
(** * What a process can see of the file system

    A file system of the model carries, for every name and every inode, the values a
    power loss could bring back.  No system call shows them: [seen f] is the file system
    without them, and a computation started on file systems that look the same returns
    the same and leaves file systems that look the same ([oblivious]).  The rules follow
    the text of a function, as in Guards.v; they are carried through the storage engine
    and the public interface here. *)

From stdpp Require Import base tactics option numbers list strings gmap.
From Stdlib Require Import ZArith Lia.
From S2P Require Import Prelude Errors World Hoare Model MemTable WalRecord FileIo WalFile WalRecovery SegmentBlock Manifest SegmentFile StorageEngine Database Guards LockHeld.

(** ** File systems that look the same *)

Definition seen (f : fsys) : fsys :=
  Fsys (settle <$> entries f) (settle <$> inodes f) (next_inode f) (locks f) (places f).

Lemma entry_seen f p : entry (seen f) p = settle (entry f p).
Proof. unfold entry, seen. simpl. rewrite lookup_fmap. by destruct (entries f !! p). Qed.

Lemma inode_seen f i : inode (seen f) i = settle (inode f i).
Proof. unfold inode, seen. simpl. rewrite lookup_fmap. by destruct (inodes f !! i). Qed.

Lemma seen_set_entry p h f : seen (set_entry p h f) = set_entry p (settle h) (seen f).
Proof. unfold seen, set_entry. simpl. by rewrite fmap_insert. Qed.

Lemma seen_set_inode i h f : seen (set_inode i h f) = set_inode i (settle h) (seen f).
Proof. unfold seen, set_inode. simpl. by rewrite fmap_insert. Qed.

Lemma seen_set_locks l f : seen (set_locks l f) = set_locks l (seen f).
Proof. done. Qed.

Lemma seen_idemp f : seen (seen f) = seen f.
Proof. unfold seen. simpl. by rewrite <-!map_fmap_compose. Qed.

(** A synchronization is not seen. *)
Lemma seen_fsync i f : seen (set_inode i (settle (inode f i)) f) = seen f \/ inodes f !! i = None.
Proof.
  unfold inode. destruct (inodes f !! i) as [h|] eqn:E; [left|by right]. rewrite seen_set_inode. unfold seen, set_inode.
  simpl. f_equal. apply map_eq. intros j. destruct (decide (j = i)) as [->|].
  - by rewrite lookup_insert_eq, lookup_fmap, E.
  - by rewrite lookup_insert_ne.
Qed.

Lemma seen_settle_directory d f : seen (settle_directory d f) = seen f.
Proof.
  unfold seen, settle_directory. simpl. f_equal. apply map_eq. intros p.
  rewrite !lookup_fmap, map_lookup_imap. destruct (entries f !! p) as [h|]; [|done]. simpl. by case_decide.
Qed.

Section Same.
Context (f f' : fsys) (same : seen f = seen f').

Lemma seen_now p : now (entry f p) = now (entry f' p).
Proof using same. pose proof (entry_seen f p) as H. rewrite same, entry_seen in H. by injection H. Qed.

Lemma seen_bytes i : now (inode f i) = now (inode f' i).
Proof using same. pose proof (inode_seen f i) as H. rewrite same, inode_seen in H. by injection H. Qed.

Lemma seen_next : next_inode f = next_inode f'.
Proof using same. exact (f_equal next_inode same). Qed.

Lemma seen_locks : locks f = locks f'.
Proof using same. exact (f_equal locks same). Qed.

Lemma seen_places : places f = places f'.
Proof using same. exact (f_equal places same). Qed.

Lemma seen_file p : file_of f p = file_of f' p.
Proof using same. unfold file_of. rewrite seen_now. destruct (now _); [|done]. by rewrite seen_bytes. Qed.

(** The directory is listed in the same order. *)
Lemma seen_names d : names_in d f = names_in d f'.
Proof using same.
  assert (forall g, (map_to_list (entries g)).*1 = (map_to_list (entries (seen g))).*1) as Hkeys.
  { intros g. unfold seen. simpl. rewrite map_to_list_fmap, <-list_fmap_compose. by apply list_fmap_ext. }
  unfold names_in. rewrite (Hkeys f), (Hkeys f'), same. apply list_filter_iff. intros p. by rewrite seen_now.
Qed.

(** The same change makes them look the same again. *)
Lemma same_set_entry p v h h' : now h = v -> now h' = v -> seen (set_entry p h f) = seen (set_entry p h' f').
Proof using same. intros <- Hv. rewrite !seen_set_entry, same. unfold settle. by rewrite Hv. Qed.

Lemma same_set_inode i v h h' : now h = v -> now h' = v -> seen (set_inode i h f) = seen (set_inode i h' f').
Proof using same. intros <- Hv. rewrite !seen_set_inode, same. unfold settle. by rewrite Hv. Qed.
End Same.

(** ** States that look the same *)

Class Alike (S : Type) := alike : relation S.

#[export] Instance world_alike : Alike world := fun w w' => script w = script w' /\ seen (fs w) = seen (fs w').

(** An object next to the world. *)
#[export] Instance object_alike {S T} `{Alike S} : Alike (S * T) := fun s s' => alike s.1 s'.1 /\ s.2 = s'.2.

#[export] Instance world_alike_equivalence : Equivalence (alike (S := world)).
Proof. split; [done|by intros w w' []|intros w1 w2 w3 [] []; split; congruence]. Qed.

#[export] Instance object_alike_equivalence {S T} `{Alike S} : Equivalence (alike (S := S)) -> Equivalence (alike (S := S * T)).
Proof.
  intros HS. split.
  - intros s. split; [reflexivity|done].
  - intros s s' []. split; [by symmetry|done].
  - intros s1 s2 s3 [] []. split; [by etransitivity|congruence].
Qed.

(** The same result, and states that look the same. *)
Definition oblivious {S A} `{Alike S} (m : M S A) : Prop :=
  forall s s', alike s s' -> (m s).1 = (m s').1 /\ alike (m s).2 (m s').2.

(** A postcondition that only looks carries over. *)
Lemma oblivious_wp {S A} `{Alike S} (m : M S A) s s' (Q : outcome A -> S -> Prop) :
  oblivious m -> alike s s' -> wp m s' (fun o t' => forall t, alike t t' -> Q o t) -> wp m s Q.
Proof.
  intros Hm Hs Hw. destruct (Hm s s' Hs) as [Ho Ht]. unfold wp in *. rewrite Ho. by apply Hw.
Qed.

Create HintDb oblivious.

(** ** The rules *)

Section Rules.
Context {S : Type} `{Alike S}.

Lemma oblivious_bind {A B} (m : M S A) (f : A -> M S B) : oblivious m -> (forall a, oblivious (f a)) -> oblivious (m ≫= f).
Proof.
  intros Hm Hf s s' Hs. destruct (Hm s s' Hs) as [Ho Ht]. unfold mbind, M_bind.
  destruct (m s) as [o t], (m s') as [o' t']. cbn [fst snd] in *. subst o'. destruct o as [a|e|]; [by apply Hf|done|done].
Qed.

Lemma oblivious_ret {A} (a : A) : oblivious (mret a : M S A).
Proof. by intros s s' Hs. Qed.

Lemma oblivious_throw {A} e : oblivious (throw e : M S A).
Proof. by intros s s' Hs. Qed.

Lemma oblivious_throw_when c e : oblivious (throw_when c e : M S unit).
Proof. intros s s' Hs. by destruct c. Qed.

Lemma oblivious_lift {A} (r : result A) : oblivious (lift r : M S A).
Proof. intros s s' Hs. unfold lift. by destruct r. Qed.

Lemma oblivious_on_exception {A} (m : M S A) h : oblivious m -> oblivious h -> oblivious (on_exception m h).
Proof.
  intros Hm Hh s s' Hs. destruct (Hm s s' Hs) as [Ho Ht]. unfold on_exception.
  destruct (m s) as [o t], (m s') as [o' t']. cbn [fst snd] in *. subst o'. destruct o as [a|e|]; [done| |done].
  destruct (Hh t t' Ht) as [Ho2 Ht2]. destruct (h t) as [o2 t2], (h t') as [o2' t2']. cbn [fst snd] in *. subst o2'.
  by destruct o2.
Qed.

Lemma oblivious_translate {A} (m : M S A) : oblivious m -> oblivious (translate_corruption m).
Proof.
  intros Hm s s' Hs. destruct (Hm s s' Hs) as [Ho Ht]. unfold translate_corruption.
  destruct (m s) as [o t], (m s') as [o' t']. cbn [fst snd] in *. subst o'. by destruct o.
Qed.

Lemma oblivious_zoom {T A} `{Alike T} (view : S -> T) update (m : M T A) :
  (forall s s', alike s s' -> alike (view s) (view s') /\ forall t t', alike t t' -> alike (update t s) (update t' s')) ->
  oblivious m -> oblivious (zoom view update m).
Proof.
  intros Hv Hm s s' Hs. destruct (Hv s s' Hs) as [Hview Hup]. destruct (Hm _ _ Hview) as [Ho Ht]. unfold zoom.
  destruct (m (view s)) as [o t], (m (view s')) as [o' t']. cbn [fst snd] in *. split; [done|by apply Hup].
Qed.
End Rules.

Lemma oblivious_in_world {T A} (m : M world A) : oblivious m -> oblivious (in_world m : M (world * T) A).
Proof. apply oblivious_zoom. intros s s' [Hw Ho]. split; [exact Hw|]. by intros t t'. Qed.

Lemma oblivious_this {T} : oblivious (this : M (world * T) T).
Proof. intros s s' [Hw Ho]. split; [exact (f_equal Done Ho)|by split]. Qed.

Lemma oblivious_set_this {T} (f : T -> T) : oblivious (set_this f).
Proof. intros s s' [Hw Ho]. split; [done|]. split; [exact Hw|exact (f_equal f Ho)]. Qed.

Lemma oblivious_with_object {T A} (t : T) (m : M (world * T) A) : oblivious m -> oblivious (with_object t m).
Proof.
  intros Hm w w' Hw. destruct (Hm (w, t) (w', t) (conj Hw eq_refl)) as [Ho [Ht _]]. unfold with_object.
  destruct (m (w, t)) as [o s], (m (w', t)) as [o' s']. by split.
Qed.

Lemma oblivious_in_wal {A} (m : M (world * WalWriter) A) : oblivious m -> oblivious (in_wal m).
Proof.
  apply oblivious_zoom. intros [w e] [w' e'] [Hw Ho]. cbn [fst snd] in *. subst e'. split; [by split|].
  intros [t x] [t' x'] [Ht Hx]. cbn [fst snd] in *. subst x'. by split.
Qed.

Lemma oblivious_in_engine {A} (m : M (world * StorageEngine) A) : oblivious m -> oblivious (in_engine m).
Proof.
  intros Hm [w d] [w' d'] [Hw Hd]. cbn [fst snd] in *. subst d'. unfold in_engine. cbn [fst snd].
  destruct (impl_ d) as [impl|]; [|done]. destruct (Hm (w, engine impl) (w', engine impl) (conj Hw eq_refl)) as [Ho [Ht He]].
  destruct (m (w, engine impl)) as [o t], (m (w', engine impl)) as [o' t']. cbn [fst snd] in *. rewrite He. by split.
Qed.

Ltac oblivious_step :=
  match goal with
  | |- forall _, _ => intros ?
  | |- oblivious (match ?x with _ => _ end) => destruct x
  | |- _ => solve [eauto with oblivious]
  | |- oblivious (_ ≫= _) => apply oblivious_bind
  | |- oblivious (mret _) => apply oblivious_ret
  | |- oblivious (throw _) => apply oblivious_throw
  | |- oblivious (throw_when _ _) => apply oblivious_throw_when
  | |- oblivious (lift _) => apply oblivious_lift
  | |- oblivious (on_exception _ _) => apply oblivious_on_exception
  | |- oblivious (in_world _) => apply oblivious_in_world
  | |- oblivious (with_object _ _) => apply oblivious_with_object
  | |- oblivious this => apply oblivious_this
  | |- oblivious (set_this _) => apply oblivious_set_this
  | |- oblivious (in_wal _) => apply oblivious_in_wal
  | |- oblivious (in_engine _) => apply oblivious_in_engine
  | |- oblivious (translate_corruption _) => apply oblivious_translate
  end.
Ltac oblivious := repeat oblivious_step.

(** ** System calls *)

Lemma oblivious_next_outcome : oblivious next_outcome.
Proof.
  intros w w' [Hs Hf]. unfold next_outcome. rewrite <-Hs. destruct (script w) eqn:E; (split; [done|]).
  - split; [cbn [snd]; congruence|exact Hf].
  - by split.
Qed.

Lemma oblivious_lose_power {A} : oblivious (lose_power : M world A).
Proof. by intros w w' Hw. Qed.

Lemma oblivious_read_fs {A} (g : fsys -> A) : (forall f f', seen f = seen f' -> g f = g f') -> oblivious (read_fs g).
Proof. intros Hg w w' Hw. split; [|done]. cbn. f_equal. apply Hg, Hw. Qed.

Lemma oblivious_modify_fs (g : fsys -> fsys) : (forall f f', seen f = seen f' -> seen (g f) = seen (g f')) -> oblivious (modify_fs g).
Proof. intros Hg w w' [Hs Hf]. split; [done|]. split; [done|]. by apply Hg. Qed.
#[export] Hint Resolve oblivious_next_outcome oblivious_lose_power oblivious_read_fs oblivious_modify_fs : oblivious.

Lemma oblivious_sys_query {A} (g : fsys -> sysret A) : (forall f f', seen f = seen f' -> g f = g f') -> oblivious (sys_query g).
Proof. intros Hg. unfold sys_query. oblivious. Qed.

Lemma oblivious_sys_settle g : (forall f f', seen f = seen f' -> seen (g f) = seen (g f')) -> oblivious (sys_settle g).
Proof. intros Hg. unfold sys_settle. oblivious. Qed.

Lemma oblivious_sys_change {A} (g : fsys -> sysret A * fsys) :
  (forall f f', seen f = seen f' -> (g f).1 = (g f').1 /\ seen (g f).2 = seen (g f').2) -> oblivious (sys_change g).
Proof.
  intros Hg. assert (oblivious (read_fs (fun f => (g f).1))) by (apply oblivious_read_fs; intros; by apply Hg).
  assert (oblivious (modify_fs (fun f => (g f).2))) by (apply oblivious_modify_fs; intros; by apply Hg).
  unfold sys_change. oblivious.
Qed.

Lemma oblivious_retry_interrupted {A} (call : M world (sysret A)) : oblivious call -> oblivious (retry_interrupted call).
Proof.
  intros Hc. assert (forall fuel, oblivious (retry_loop fuel call)) as Hl.
  { induction fuel as [|fuel IH]; cbn [retry_loop]; oblivious. }
  intros w w' Hw. unfold retry_interrupted. pose proof Hw as [Hs _]. rewrite Hs. by apply Hl.
Qed.
#[export] Hint Resolve oblivious_retry_interrupted : oblivious.

Section Calls.
Context (p : path) (i : nat) (d : string).

(** Rewrites what one file system shows into what the other does. *)
Ltac see H := rewrite ?(seen_now _ _ H), ?(seen_file _ _ H), ?(seen_bytes _ _ H), ?(seen_next _ _ H), ?(seen_locks _ _ H), ?(seen_places _ _ H), ?(seen_names _ _ H).

Lemma same_create f f' :
  seen f = seen f' -> (create_if_missing p f).1 = (create_if_missing p f').1 /\
    seen (create_if_missing p f).2 = seen (create_if_missing p f').2.
Proof.
  intros H. unfold create_if_missing. see H. destruct (now (entry f' p)) as [j|]; [done|]. split; [done|]. cbn [snd].
  pose proof (f_equal entries H) as He. pose proof (f_equal inodes H) as Hi. unfold seen in He, Hi. cbn [entries inodes] in He, Hi.
  unfold seen. cbn [entries inodes next_inode locks places]. see H. by rewrite !fmap_insert, He, Hi.
Qed.

Lemma oblivious_sys_open_create : oblivious (sys_open_create p).
Proof. apply oblivious_sys_change, same_create. Qed.

Lemma oblivious_sys_open_truncate : oblivious (sys_open_truncate p).
Proof.
  apply oblivious_sys_change. intros f f' H. destruct (same_create f f' H) as [Ho Hs].
  destruct (create_if_missing p f) as [o g], (create_if_missing p f') as [o' g']. cbn [fst snd] in *. subst o'.
  destruct o as [j|e]; [|done]. split; [done|]. by apply (same_set_inode g g' Hs j []).
Qed.

Lemma same_append_inode bytes f f' : seen f = seen f' -> seen (append_inode i bytes f) = seen (append_inode i bytes f').
Proof.
  intros H. apply (same_set_inode f f' H i (now (inode f' i) ++ bytes)); rewrite now_append_hist; [by see H|done].
Qed.

Lemma oblivious_sys_write bytes : oblivious (sys_write i bytes).
Proof. pose proof same_append_inode. unfold sys_write. oblivious. Qed.

Lemma oblivious_sys_fsync : oblivious (sys_fsync i).
Proof. apply oblivious_sys_settle. intros f f' H. apply (same_set_inode f f' H i (now (inode f' i))); [exact (seen_bytes _ _ H i)|done]. Qed.

Lemma oblivious_sys_fsync_directory : oblivious (sys_fsync_directory d).
Proof. apply oblivious_sys_settle. intros f f' H. by rewrite !seen_settle_directory. Qed.

Lemma oblivious_sys_ftruncate n : oblivious (sys_ftruncate i n).
Proof.
  apply oblivious_sys_change. intros f f' H. split; [done|]. apply (same_set_inode f f' H i (take n (now (inode f' i)))); [|done].
  cbn [push now]. by see H.
Qed.

Lemma oblivious_sys_resize_file n : oblivious (sys_resize_file p n).
Proof.
  apply oblivious_sys_change. intros f f' H. see H. destruct (now (entry f' p)) as [j|]; [|done]. split; [done|].
  eapply same_set_inode; [exact H| |done]. cbn [push now]. by see H.
Qed.

Lemma oblivious_sys_rename to : oblivious (sys_rename p to).
Proof.
  apply oblivious_sys_change. intros f f' H. see H. destruct (now (entry f' p)) as [j|]; [|done]. split; [done|].
  by apply same_set_entry with None; [by apply same_set_entry with (Some j)|..].
Qed.

Lemma oblivious_sys_remove : oblivious (sys_remove p).
Proof.
  apply oblivious_sys_change. intros f f' H. see H. destruct (now (entry f' p)) as [j|]; [|done]. split; [done|].
  by apply (same_set_entry f f' H p None).
Qed.

Lemma oblivious_sys_flock : oblivious (sys_flock i).
Proof.
  apply oblivious_sys_change. intros f f' H. see H. case_decide; [done|]. split; [done|]. cbn [snd]. by rewrite !seen_set_locks, H.
Qed.

Lemma oblivious_sys_unlock : oblivious (sys_unlock i).
Proof. apply oblivious_sys_change. intros f f' H. split; [done|]. cbn [snd]. see H. by rewrite !seen_set_locks, H. Qed.

Lemma oblivious_sys_create_directories : oblivious (sys_create_directories d).
Proof.
  apply oblivious_sys_change. intros f f' H. split; [done|]. cbn [snd]. unfold seen at 1 2. cbn [entries inodes next_inode locks places].
  see H. f_equal; [exact (f_equal entries H)|exact (f_equal inodes H)].
Qed.

Lemma oblivious_sys_exists : oblivious (sys_exists p).
Proof. apply oblivious_sys_query. intros f f' H. by see H. Qed.
Lemma oblivious_sys_file_size : oblivious (sys_file_size p).
Proof. apply oblivious_sys_query. intros f f' H. by see H. Qed.
Lemma oblivious_sys_open : oblivious (sys_open p).
Proof. apply oblivious_sys_query. intros f f' H. by see H. Qed.
Lemma oblivious_sys_lseek_end : oblivious (sys_lseek_end i).
Proof. apply oblivious_sys_query. intros f f' H. by see H. Qed.
Lemma oblivious_sys_read offset count : oblivious (sys_read i offset count).
Proof. apply oblivious_sys_query. intros f f' H. by see H. Qed.
Lemma oblivious_sys_list_directory : oblivious (sys_list_directory d).
Proof. apply oblivious_sys_query. intros f f' H. by see H. Qed.
Lemma oblivious_sys_place_exists : oblivious (sys_place_exists d).
Proof. apply oblivious_sys_query. intros f f' H. by see H. Qed.
Lemma oblivious_sys_is_directory : oblivious (sys_is_directory d).
Proof. apply oblivious_sys_query. intros f f' H. by see H. Qed.
Lemma oblivious_sys_open_directory : oblivious (sys_open_directory d).
Proof. by apply oblivious_sys_query. Qed.
Lemma oblivious_sys_lseek : oblivious (sys_lseek i).
Proof. by apply oblivious_sys_query. Qed.
Lemma oblivious_sys_close : oblivious sys_close.
Proof. by apply oblivious_sys_query. Qed.
Lemma oblivious_sys_next_entry : oblivious sys_next_entry.
Proof. by apply oblivious_sys_query. Qed.
End Calls.
#[export] Hint Resolve oblivious_sys_open_create oblivious_sys_open_truncate oblivious_sys_write oblivious_sys_fsync
  oblivious_sys_fsync_directory oblivious_sys_ftruncate oblivious_sys_resize_file oblivious_sys_rename oblivious_sys_remove
  oblivious_sys_flock oblivious_sys_unlock oblivious_sys_create_directories oblivious_sys_exists oblivious_sys_file_size
  oblivious_sys_open oblivious_sys_lseek_end oblivious_sys_read oblivious_sys_list_directory oblivious_sys_place_exists
  oblivious_sys_is_directory oblivious_sys_open_directory oblivious_sys_lseek oblivious_sys_close oblivious_sys_next_entry : oblivious.

(** ** Files *)

Lemma oblivious_file_size_bytes p : oblivious (file_size_bytes p).
Proof. unfold file_size_bytes. oblivious. Qed.

Lemma oblivious_read_file_bytes p offset count : oblivious (read_file_bytes p offset count).
Proof. unfold read_file_bytes. oblivious. Qed.

Lemma oblivious_stream_write i bytes : oblivious (stream_write i bytes).
Proof. unfold stream_write. oblivious. Qed.

Lemma oblivious_stream_close : oblivious stream_close.
Proof. unfold stream_close. oblivious. Qed.

Lemma oblivious_close_descriptor : oblivious close_descriptor.
Proof. unfold close_descriptor. oblivious. Qed.

Lemma oblivious_ignored_close : oblivious ignored_close.
Proof. unfold ignored_close. oblivious. Qed.
#[export] Hint Resolve oblivious_file_size_bytes oblivious_read_file_bytes oblivious_stream_write oblivious_stream_close
  oblivious_close_descriptor oblivious_ignored_close : oblivious.

Lemma oblivious_sync_file p : oblivious (sync_file p).
Proof. unfold sync_file, sync_file_with, open_for_sync, sync_descriptor. oblivious. Qed.

Lemma oblivious_replace_file p q : oblivious (replace_file p q).
Proof. unfold replace_file, replace_file_with, open_directory_for_sync. oblivious. Qed.
#[export] Hint Resolve oblivious_sync_file oblivious_replace_file : oblivious.

Lemma oblivious_atomic_write_file p bytes : oblivious (atomic_write_file p bytes).
Proof. unfold atomic_write_file, atomic_write_file_with. oblivious. Qed.
#[export] Hint Resolve oblivious_atomic_write_file : oblivious.

(** ** The log *)

Lemma oblivious_write_all i bytes : oblivious (write_all i bytes).
Proof.
  assert (forall fuel total, oblivious (write_all_loop fuel i bytes total)) as Hl.
  { induction fuel as [|fuel IH]; intros total; cbn [write_all_loop]; unfold throw_file_error; oblivious. }
  intros w w' Hw. unfold write_all. pose proof Hw as [Hs _]. rewrite Hs. by apply Hl.
Qed.

Lemma oblivious_find_file_end i : oblivious (find_file_end i).
Proof. unfold find_file_end, throw_file_error. oblivious. Qed.
#[export] Hint Resolve oblivious_write_all oblivious_find_file_end : oblivious.

Lemma oblivious_wal_open p d : oblivious (wal_open p d).
Proof. unfold wal_open, open_for_append, throw_file_error. oblivious. Qed.

Lemma oblivious_wal_close : oblivious wal_close.
Proof. unfold wal_close. oblivious. Qed.

Lemma oblivious_wal_ensure_usable : oblivious wal_ensure_usable.
Proof. unfold wal_ensure_usable. oblivious. Qed.
#[export] Hint Resolve oblivious_wal_open oblivious_wal_close oblivious_wal_ensure_usable : oblivious.

Lemma oblivious_wal_sync : oblivious wal_sync.
Proof. unfold wal_sync, synchronize_file, set_failed, throw_file_error. oblivious. Qed.
#[export] Hint Resolve oblivious_wal_sync : oblivious.

Lemma oblivious_wal_append r : oblivious (wal_append r).
Proof. unfold wal_append, set_failed, set_size_bytes. oblivious. Qed.

Lemma oblivious_wal_reset : oblivious wal_reset.
Proof. unfold wal_reset, truncate_file, synchronize_file, set_failed, set_size_bytes, throw_file_error. oblivious. Qed.
#[export] Hint Resolve oblivious_wal_append oblivious_wal_reset : oblivious.

Lemma oblivious_repair_wal_tail p r : oblivious (repair_wal_tail p r).
Proof. unfold repair_wal_tail. oblivious. Qed.

Lemma oblivious_replay_wal {A} p (replay : WalPutRecord -> M (world * A) unit) :
  (forall r, oblivious (replay r)) -> oblivious (replay_wal p (Some replay)).
Proof.
  intros Hr. assert (forall fuel i offset buffer consumed reached_end result,
    oblivious (replay_loop decode_wal_record read_chunk_size replay fuel i offset buffer consumed reached_end result)) as Hl.
  { induction fuel as [|fuel IH]; intros; cbn [replay_loop]; unfold read_next_chunk, throw_read_error; oblivious. }
  unfold replay_wal, replay_file, throw_read_error. oblivious. apply oblivious_read_fs. intros f f' H. by apply seen_bytes.
Qed.
#[export] Hint Resolve oblivious_repair_wal_tail : oblivious.

(** ** Segments and the manifest *)

Lemma oblivious_open_segment p : oblivious (open_segment p).
Proof. unfold open_segment. oblivious. Qed.

Lemma oblivious_read_block r e : oblivious (read_block r e).
Proof. unfold read_block. oblivious. Qed.
#[export] Hint Resolve oblivious_open_segment oblivious_read_block : oblivious.

Lemma oblivious_segment_get r s t : oblivious (segment_get r s t).
Proof. unfold segment_get. induction (entries_from r s) as [|entry entries IH]; cbn [segment_get_loop]; oblivious. Qed.

Lemma oblivious_segment_latest r s : oblivious (segment_latest r s).
Proof. unfold segment_latest. oblivious. Qed.

Lemma oblivious_segment_range r s a c : oblivious (segment_range r s a c).
Proof.
  unfold segment_range. oblivious. generalize (@nil Sample) as acc.
  induction (entries_from r s) as [|entry entries IH]; intros acc; cbn [segment_range_loop]; oblivious.
Qed.

Lemma oblivious_segment_blocks r : oblivious (segment_blocks r).
Proof. unfold segment_blocks. induction (reader_index r) as [|e l IH]; cbn [read_blocks]; oblivious. Qed.
#[export] Hint Resolve oblivious_segment_get oblivious_segment_latest oblivious_segment_range oblivious_segment_blocks : oblivious.

Lemma oblivious_write_segment_file p blocks : oblivious (write_segment_file p blocks).
Proof. unfold write_segment_file. oblivious. Qed.

Lemma oblivious_load_manifest d : oblivious (load_manifest d).
Proof. unfold load_manifest. oblivious. Qed.

Lemma oblivious_store_manifest d m : oblivious (store_manifest d m).
Proof. unfold store_manifest. oblivious. Qed.
#[export] Hint Resolve oblivious_write_segment_file oblivious_load_manifest oblivious_store_manifest : oblivious.

(** ** The storage engine *)

Lemma oblivious_contains_in_segments l s t : oblivious (contains_in_segments l s t).
Proof. unfold contains_in_segments. induction (rev l) as [|r k IH]; cbn [any_segment_has]; oblivious. Qed.

Lemma oblivious_get_in_segments l s t : oblivious (get_in_segments l s t).
Proof. induction l as [|r l IH]; cbn [get_in_segments]; oblivious. Qed.

Lemma oblivious_latest_in_segments l s best : oblivious (latest_in_segments l s best).
Proof. revert best. induction l as [|r l IH]; intros best; cbn [latest_in_segments]; oblivious. Qed.

Lemma oblivious_merge_ranges merged l s a c : oblivious (merge_ranges merged l s a c).
Proof. revert merged. induction l as [|r l IH]; intros merged; cbn [merge_ranges]; oblivious. Qed.

Lemma oblivious_merge_segments merged l : oblivious (merge_segments merged l).
Proof. revert merged. induction l as [|r l IH]; intros merged; cbn [merge_segments]; oblivious. Qed.

Lemma oblivious_open_segments d names l n : oblivious (open_segments d names l n).
Proof. revert l n. induction names as [|name names IH]; intros l n; cbn [open_segments]; oblivious. Qed.

Lemma oblivious_remove_orphans live l : oblivious (remove_orphans live l).
Proof. induction l as [|p l IH]; cbn [remove_orphans]; oblivious. Qed.

Lemma oblivious_remove_all l : oblivious (remove_all l).
Proof. induction l as [|p l IH]; cbn [remove_all]; oblivious. Qed.
#[export] Hint Resolve oblivious_contains_in_segments oblivious_get_in_segments oblivious_latest_in_segments oblivious_merge_ranges
  oblivious_merge_segments oblivious_open_segments oblivious_remove_orphans oblivious_remove_all : oblivious.

Lemma oblivious_recover_record r : oblivious (recover_record r).
Proof. unfold recover_record. oblivious. Qed.

Lemma oblivious_recover p : oblivious (recover p).
Proof.
  unfold recover. oblivious. intros w w' Hw.
  match goal with |- context [replay_wal p _ (w, ?r)] => set (recovered := r) end.
  destruct (oblivious_replay_wal p recover_record oblivious_recover_record (w, recovered) (w', recovered) (conj Hw eq_refl))
    as [Ho [Ht Hs]].
  destruct (replay_wal p (Some recover_record) (w, recovered)) as [o s], (replay_wal p (Some recover_record) (w', recovered)) as [o' s'].
  cbn [fst snd] in *. subst o'. destruct o as [r|e|]; [|done|done]. rewrite <-Hs.
  revert Ht. apply (oblivious_bind (repair_wal_tail p r)); [apply oblivious_repair_wal_tail|intros; apply oblivious_ret].
Qed.
#[export] Hint Resolve oblivious_recover : oblivious.

Lemma oblivious_engine_open p d : oblivious (engine_open p d).
Proof. unfold engine_open. oblivious. Qed.

Lemma oblivious_ensure_usable : oblivious ensure_usable.
Proof. unfold ensure_usable. oblivious. Qed.

Lemma oblivious_contains s t : oblivious (contains s t).
Proof. unfold contains. oblivious. Qed.
#[export] Hint Resolve oblivious_engine_open oblivious_ensure_usable oblivious_contains : oblivious.

Lemma oblivious_engine_put s x : oblivious (engine_put s x).
Proof. unfold engine_put, set_memtable, set_logical_sample_count, set_engine_failed. oblivious. Qed.

Lemma oblivious_engine_sync : oblivious engine_sync.
Proof. unfold engine_sync, set_engine_failed. oblivious. Qed.

Lemma oblivious_engine_flush : oblivious engine_flush.
Proof. unfold engine_flush, set_engine_failed, set_segments, set_memtable. oblivious. Qed.

Lemma oblivious_engine_compact : oblivious engine_compact.
Proof. unfold engine_compact, set_engine_failed, set_segments. oblivious. Qed.
#[export] Hint Resolve oblivious_engine_put oblivious_engine_sync oblivious_engine_flush oblivious_engine_compact : oblivious.

(** ** The public interface *)

Lemma oblivious_prepare d : oblivious (prepare_database_directory d).
Proof. unfold prepare_database_directory. oblivious. Qed.

Lemma oblivious_lock_acquire p : oblivious (lock_acquire p).
Proof. unfold lock_acquire. oblivious. Qed.

Lemma oblivious_lock_release i : oblivious (lock_release i).
Proof. unfold lock_release. oblivious. Qed.

Lemma oblivious_implementation : oblivious implementation.
Proof. unfold implementation. oblivious. Qed.
#[export] Hint Resolve oblivious_prepare oblivious_lock_acquire oblivious_lock_release oblivious_implementation : oblivious.

Lemma oblivious_database_open d options : oblivious (database_open d options).
Proof. unfold database_open. oblivious. Qed.

Lemma oblivious_database_close : oblivious database_close.
Proof. unfold database_close. oblivious. Qed.
#[export] Hint Resolve oblivious_database_open oblivious_database_close : oblivious.

Lemma oblivious_db_query A (m : M (world * Database) A) : db_query A m -> oblivious m.
Proof.
  intros Hq. destruct Hq; unfold database_get, database_latest, database_range, database_series, database_sample_count,
    database_empty, database_stats, engine_get, engine_latest, engine_range, engine_series, engine_sample_count, engine_empty,
    engine_stats; oblivious.
Qed.

Lemma oblivious_db_call A (m : M (world * Database) A) : db_call A m -> oblivious m.
Proof.
  intros Hc. destruct Hc as [s x| | | |A m Hq]; [..|by apply oblivious_db_query];
    unfold database_put, database_sync, database_flush, database_compact, engine_memtable_sample_count; oblivious.
Qed.
