(* ===== verification/SeenEngine.v ===== *)
(** * An engine on a settled disk

    What a running engine needs of its files it finds in [seen] too, where moreover the
    log and its name are on stable storage; and the contents a power loss may leave
    after a call are those a process finds that ends then ([survives_seen]).  So a call
    can be judged as if everything before it had been synchronized. *)

From stdpp Require Import base tactics option numbers list strings gmap.
From Stdlib Require Import ZArith Lia.
From S2P Require Import Prelude Errors World Hoare Model OrdMap View MemTable WalRecord FileIo WalFile WalRecovery SegmentBlock Manifest SegmentFile SegmentFormat BlocksView StorageEngine Database EngineView EngineBlocks EngineState EngineWrite EngineRecovery EngineFlush EngineCompact EngineSafety EngineContract DatabaseRules DatabaseOpen Guards LockHeld Seen.

(** ** The files *)

Lemma possible_seen f p : possible (entry (seen f) p) = [now (entry f p)].
Proof. by rewrite entry_seen. Qed.

Lemma durable_seen f p c : durable f p c -> durable (seen f) p c.
Proof.
  destruct c as [bytes|]; cbn [durable]; [|by rewrite entry_seen; intros ->]. intros (i & He & Hi). exists i.
  by rewrite entry_seen, inode_seen, He, Hi.
Qed.

Lemma seen_ok f : fs_ok f -> fs_ok (seen f).
Proof.
  intros [Hlt Hinj]. split.
  - intros p i. rewrite possible_seen, list_elem_of_singleton. intros Hi. apply (Hlt p i). rewrite Hi. apply possible_now.
  - intros p q i. rewrite !entry_seen. apply Hinj.
Qed.

Lemma persisted_seen f dir m bss : persisted f dir m bss -> persisted (seen f) dir m bss.
Proof. apply persisted_mono. intros q c _. apply durable_seen. Qed.

Lemma log_state_seen f dir i bytes : log_state f dir i bytes -> log_state (seen f) dir i bytes.
Proof.
  intros (Hn & _ & Hb & _). unfold log_state. rewrite entry_seen, inode_seen. split; [exact Hn|]. split; [|split; [exact Hb|]].
  - intros e He. left. apply list_elem_of_singleton in He. by rewrite He.
  - intros v Hv. apply list_elem_of_singleton in Hv as ->. exists (length bytes). by rewrite firstn_all.
Qed.

Lemma engine_ok_seen f dir e bss records : engine_ok f dir e bss records -> engine_ok (seen f) dir e bss records.
Proof.
  intros H. destruct H as [Hfs ? ? ? ? Hper ? (i & Hu & Hp & Hl) ? ? ?].
  split; try done; [by apply seen_ok|by apply persisted_seen|]. exists i. split; [exact Hu|]. split; [exact Hp|].
  by apply log_state_seen.
Qed.

Lemma log_named_seen f dir i : now (entry f (wal_path dir)) = Some i -> log_named (seen f) dir.
Proof. intros Hn. exists i. rewrite entry_seen. unfold settle. by rewrite Hn. Qed.

Lemma log_settled_seen f dir e bss records : engine_ok f dir e bss records -> log_settled dir (seen f) records.
Proof.
  intros H. destruct (ok_writer _ _ _ _ _ H) as (i & _ & _ & Hn & _ & Hb & _). split; [|left; by eapply log_named_seen].
  exists i. rewrite entry_seen, inode_seen. split; [exact Hn|]. unfold settle. by rewrite Hb.
Qed.

(** Losing nothing is one way of losing power. *)
Lemma crash_seen f : crash f (set_locks ∅ (seen f)).
Proof.
  exists (fun _ => 0%nat), (fun _ => 0%nat). unfold set_locks, seen, crash_pick. simpl.
  f_equal; apply map_eq; intros k; rewrite lookup_fmap, map_lookup_imap; by destruct (_ !! k).
Qed.

Lemma survives_seen dir R f : survives dir R f -> leaves dir R (seen f).
Proof.
  intros H. eapply leaves_kept; [|exact (H _ (crash_seen f))]. intros q _. apply same_files_kept. by split_and!.
Qed.

(** ** Calls on a settled engine, with any durability *)

(** An engine that shows [v] and whose log is on stable storage with its name. *)
Definition still (dir : string) (st : world * StorageEngine) (v : view) : Prop :=
  exists bss records, engine_ok (fs st.1) dir st.2 bss records /\ engine_view st.2 bss ≡ v /\
    log_settled dir (fs st.1) records /\ log_named (fs st.1) dir.

(** A call that keeps the contents: a failure marks the engine, and what a power loss
    would leave is the contents. *)
Definition keeping (dir : string) (v : view) (o : outcome unit) (st : world * StorageEngine) : Prop :=
  survives dir (one_view v) (fs st.1) /\
  match o with Done _ => running dir st v | Raised _ => engine_failed_ st.2 = true | Crashed => True end.

Lemma wp_and {S A} (m : M S A) s P Q : wp m s P -> wp m s Q -> wp m s (fun o s' => P o s' /\ Q o s').
Proof. unfold wp. by split. Qed.

Lemma kept_keeping dir refused v st o st' :
  kept_outcome dir refused v st o st' -> survives dir (one_view v) (fs st'.1) -> keeping dir v o st'.
Proof. intros [_ Ho] Hs. split; [exact Hs|]. destruct o; [apply Ho|exact Ho|done]. Qed.

Section Still.
Context (dir : string) (Hdir : dir <> EmptyString).

Lemma wp_sync_still v st : still dir st v -> wp engine_sync st (keeping dir v).
Proof.
  intros (bss & records & Hok & Hv & Hset & _). eapply wp_mono; [by apply (wp_engine_sync dir bss records)|].
  intros o st' Ho. eapply kept_keeping; [by eapply sync_post_outcome|]. destruct Ho as ([Hsame _] & Hper & Hmoved & _).
  eapply one_view_equal; [exact Hv|]. by eapply still_survives.
Qed.

Lemma wp_flush_still v st : still dir st v -> wp engine_flush st (keeping dir v).
Proof using Hdir.
  intros (bss & records & Hok & Hv & Hset & Hname).
  destruct (flush_blocks _ _ _ _ _ Hok) as (new & Hblocks & Hnew & Hview).
  destruct (decide (records = [])) as [->|Hne].
  - eapply wp_mono; [by apply (wp_flush_nothing dir bss)|]. intros o st' Ho.
    eapply kept_keeping; [by eapply sync_post_outcome|]. destruct Ho as ([Hsame _] & Hper & Hmoved & _).
    eapply one_view_equal; [exact Hv|]. by eapply still_survives.
  - eapply wp_mono; [by apply (wp_flush_samples dir Hdir bss records new)|]. intros o st' Ho.
    eapply kept_keeping; [by eapply flush_post_outcome|]. eapply one_view_equal; [exact Hv|].
    eapply flush_survives; [exact Hok|exact Hset|exact Hview|apply Ho].
Qed.

Lemma wp_compact_still v st : still dir st v -> wp engine_compact st (keeping dir v).
Proof using Hdir.
  intros (bss & records & Hok & Hv & Hset & Hname).
  assert (running dir st v) as Hrun by by exists bss, records.
  destruct (Z.le_gt_cases (size (segments_ st.2)) 1) as [Hsize|Hsize].
  - eapply wp_mono; [by eapply wp_compact_nothing|]. intros o st' [-> ->]. split; [|exact Hrun].
    eapply one_view_equal; [exact Hv|]. by eapply engine_survives.
  - eapply wp_mono; [by apply (wp_compact_segments dir Hdir bss records)|].
    intros o st' (new & Hnew & Hview & Hpub & Hk & Hex & Ho). split.
    + eapply one_view_equal; [exact Hv|]. by eapply compact_survives.
    + destruct o as [u|e|]; [|exact Ho|done]. destruct Ho as (Hok' & _). exists [new], records.
      split; [exact Hok'|]. exact (compact_post_view _ _ _ _ _ _ _ _ _ Hok Hv Hview Hok').
Qed.

(** [put]: the old contents or the new. *)
Definition putting (s : SeriesKey) (x : Sample) (v : view) (o : outcome unit) (st : world * StorageEngine) : Prop :=
  survives dir (two_views v (view_put s x v)) (fs st.1) /\
  match o with
  | Done _ => running dir st (view_put s x v)
  | Raised _ => running dir st v \/ engine_failed_ st.2 = true
  | Crashed => True
  end.

Lemma wp_put_still s x v st :
  SeriesKey_ok s -> Sample_ok x -> still dir st v -> wp (engine_put s x) st (putting s x v).
Proof.
  intros Hs Hx (bss & records & Hok & Hv & Hset & Hname). eapply wp_mono; [by apply (wp_engine_put dir bss records s x Hs Hx)|].
  intros o st' Hpost. pose proof (put_post_outcome _ _ _ _ _ _ _ _ _ Hok Hv Hpost) as Ho.
  destruct Hpost as (Hsame & Hper & Hmoved & _). split.
  - pose proof (put_survives _ _ _ _ _ _ _ Hok Hset Hper Hmoved) as H.
    eapply two_views_equal; [exact Hv| |exact H]. cbn [series sample]. by rewrite Hv.
  - destruct o; [apply Ho|apply Ho|done].
Qed.
End Still.
