(* ===== verification/DatabaseTheorems.v ===== *)
(** * The public interface: the theorems

    [Database] opens and locks its directory, forwards to the engine, flushes by
    itself and keeps what was acknowledged. *)

From stdpp Require Import base tactics option numbers list strings gmap relations.
From Stdlib Require Import ZArith Lia.
From S2P Require Import Prelude Errors World Hoare Model OrdMap View MemTable WalRecord FileIo WalFile WalRecovery SegmentBlock Manifest SegmentFile SegmentFormat StorageEngine Database EngineView EngineBlocks EngineState EngineWrite EngineRecovery EngineFlush EngineCompact EngineSafety EngineContract EngineTheorems DatabaseRules DatabaseOpen Guards LockHeld.

(** ** A small database *)

Definition db_opened (r : outcome Database * world) : world * Database :=
  match r with
  | (Done d, w) => (w, d)
  | (_, w) => (w, MkDatabase None)
  end.

Lemma db_opened_eta (r : outcome Database * world) :
  (match r.1 with Done _ => true | _ => false end) = true -> r = (Done (db_opened r).2, (db_opened r).1).
Proof. by destruct r as [[d|x|] w]. Qed.

Definition example_db : world * Database := db_opened (database_open "db" default_options (World example_disk [])).

Lemma example_db_run :
  database_open "db" default_options (World example_disk []) = (Done example_db.2, example_db.1).
Proof. apply db_opened_eta. vm_compute. reflexivity. Qed.

Lemma example_lock_free : lock_free "db" example_disk.
Proof. vm_compute. intros [=]. Qed.

Lemma open_settled dir R w d w' :
  dir <> EmptyString -> closed R -> fs_ok (fs w) -> place_free dir (fs w) -> lock_free dir (fs w) ->
  leaves dir R (fs w) -> database_open dir default_options w = (Done d, w') ->
  exists v, R v /\ db_settled dir (w', d) v /\ (log_named (fs w) dir -> log_named (fs w') dir).
Proof.
  intros Hdir HR Hok Hplace Hfree Hl Hrun.
  pose proof (wp_database_open dir default_options R w Hdir HR Hok Hplace Hfree Hl) as Hw. unfold wp in Hw.
  rewrite Hrun in Hw. destruct Hw as (i & e & v & bss & records & -> & Hd & Hv & Heok & Hview & Hset & Hname & _).
  exists v. split; [exact Hv|]. split; [|exact Hname]. eexists. split; [reflexivity|]. split; [done|].
  exists bss, records. split; [exact Heok|]. split; [exact Hview|]. split; [exact Hset|exact Hd].
Qed.

Lemma db_settled_equal dir s v v' : v ≡ v' -> db_settled dir (s.1, s.2) v -> db_settled dir s v'.
Proof.
  destruct s as [w d]. intros Hv (impl & Hi & Hp & bss & records & Hok & Hview & Hset & Hd).
  exists impl. split; [exact Hi|]. split; [exact Hp|]. exists bss, records. split; [exact Hok|].
  split; [transitivity v; [exact Hview|exact Hv]|]. split; [exact Hset|exact Hd].
Qed.

Lemma example_db_settled : db_settled "db" example_db view_empty.
Proof.
  destruct (open_settled "db" (one_view view_empty) (World example_disk []) example_db.2 example_db.1 ltac:(discriminate)
    (one_view_closed _) (single_file_ok _ _) eq_refl example_lock_free example_left example_db_run)
    as (v & Hv & Hset & _).
  exact (db_settled_equal "db" example_db v view_empty Hv Hset).
Qed.

Lemma db_settled_running dir s v : db_settled dir s v -> db_running dir s v.
Proof. intros (impl & Hi & Hp & Hs). exists impl. split; [exact Hi|]. split; [exact Hp|]. by apply settled_running. Qed.

(** ** Theorems *)

(** C13: opening a database.  On whatever a power loss left in the directory, with
    nobody holding the lock, the constructor returns a database that holds contents
    [R] allows, unless the operating system fails; then opening again later finds such contents
    still. *)
Theorem database_open_spec dir options R w o w' :
  dir <> EmptyString -> 0 <= memtable_flush_threshold_samples options -> closed R ->
  fs_ok (fs w) -> place_free dir (fs w) -> lock_free dir (fs w) -> leaves dir R (fs w) ->
  database_open dir options w = (o, w') ->
  match o with
  | Done d => exists v, R v /\ db_running dir (w', d) v /\ survives dir (one_view v) (fs w')
  | _ => script w <> [] /\ survives dir R (fs w')
  end.
Proof.
  intros Hdir Hpos HR Hok Hplace Hfree Hl Hrun.
  pose proof (wp_database_open dir options R w Hdir HR Hok Hplace Hfree Hl) as Hw. unfold wp in Hw. rewrite Hrun in Hw.
  destruct o as [d|x|]; [|exact Hw|exact Hw].
  destruct Hw as (i & e & v & bss & records & -> & Hd & Hv & Heok & Hview & Hset & Hname & _).
  exists v. split; [exact Hv|]. split.
  - eexists. split; [reflexivity|]. split; [exact Hpos|]. by exists bss, records.
  - eapply one_view_equal; [exact Hview|]. by eapply engine_survives.
Qed.

Lemma database_open_spec_witness :
  exists v, one_view view_empty v /\ db_running "db" (example_db.1, example_db.2) v /\
    survives "db" (one_view v) (fs example_db.1).
Proof.
  exact (database_open_spec "db" default_options (one_view view_empty) (World example_disk []) (Done example_db.2) example_db.1
    ltac:(discriminate) ltac:(vm_compute; discriminate) (one_view_closed _) (single_file_ok _ _) eq_refl example_lock_free
    example_left example_db_run).
Defined.

(** C14: [Database::put], with the flush it may start.  When it returns the database
    holds the sample and the MemTable is below the threshold, unless that is 0.  When
    it throws, the operating system has failed, or the record or the flush after it
    was refused; the contents are the old ones or the engine is marked.  In
    [sync_on_write] mode ([db_settled]), with the log's own name on stable storage
    ([log_named]), a power loss leaves the new contents once it has returned, and the old
    or the new otherwise. *)
Theorem database_put_spec dir s x v st o st' :
  dir <> EmptyString -> SeriesKey_ok s -> Sample_ok x -> database_put s x st = (o, st') ->
  (db_running dir st v ->
   match o with
   | Done _ => db_running dir st' (view_put s x v) /\ below_threshold st'
   | Raised _ => (db_running dir st' v \/ db_marked st') /\ (script st.1 <> [] \/ db_put_refused s x st)
   | Crashed => script st.1 <> []
   end) /\
  (db_settled dir st v -> log_named (fs st.1) dir ->
   match o with
   | Done _ => survives dir (one_view (view_put s x v)) (fs st'.1)
   | _ => survives dir (two_views v (view_put s x v)) (fs st'.1)
   end).
Proof.
  intros Hdir Hs Hx Hrun. split.
  - intros (impl & Hi & Hp & bss & records & Hok & Hview).
    pose proof (wp_database_put dir s x v bss records st impl Hdir Hs Hx Hi Hp Hok Hview) as Hw.
    unfold wp in Hw. rewrite Hrun in Hw. exact (proj1 Hw).
  - intros (impl & Hi & Hp & bss & records & Hok & Hview & Hset & Hd) Hname.
    pose proof (wp_database_put dir s x v bss records st impl Hdir Hs Hx Hi Hp Hok Hview) as Hw.
    unfold wp in Hw. rewrite Hrun in Hw. exact (sync_put_survives _ _ _ _ _ _ (proj2 Hw Hset Hd Hname)).
Qed.

Definition example_db_put : outcome unit * (world * Database) :=
  database_put example_key (example_sample 1) example_db.

Lemma db_run_eta (r : outcome unit * (world * Database)) o : r.1 = o -> r = (o, r.2).
Proof. destruct r. by intros [= ->]. Qed.

Lemma example_db_put_run : database_put example_key (example_sample 1) example_db = (Done tt, example_db_put.2).
Proof. apply (db_run_eta example_db_put). vm_compute. reflexivity. Qed.

Lemma example_db_named : log_named (fs example_db.1) "db".
Proof. exists 0%nat. vm_compute. reflexivity. Qed.

Lemma example_sample1_ok : Sample_ok (example_sample 1).
Proof. by apply example_sample_valid. Qed.

Lemma database_put_spec_witness :
  (db_running "db" example_db_put.2 example_view1 /\ below_threshold example_db_put.2) /\
  survives "db" (one_view example_view1) (fs example_db_put.2.1).
Proof.
  destruct (database_put_spec "db" example_key (example_sample 1) view_empty example_db (Done tt) example_db_put.2
    ltac:(discriminate) example_key_ok example_sample1_ok example_db_put_run) as [H1 H2].
  split; [exact (H1 (db_settled_running _ _ _ example_db_settled))|exact (H2 example_db_settled example_db_named)].
Defined.

(** C16: one database at a time.  Once a database has been opened, and whatever it is
    called and however the calls end, short of a power loss, whatever is in its files
    and whoever else tries to open the directory in between: its lock file stays where
    it is and locked, so every further attempt to open the directory leaves the file
    system as it is and throws [DatabaseBusyError], unless the operating system fails. *)
Theorem database_exclusive dir options options' w d w1 s o w2 :
  dir <> EmptyString -> database_open dir options w = (Done d, w1) -> rtc (client_step dir) (w1, d) s ->
  database_open dir options' s.1 = (o, w2) ->
  fs w2 = fs s.1 /\
  match o with
  | Done _ => False
  | Raised e => e = DatabaseBusyError "database directory is already open" \/ script s.1 <> []
  | Crashed => script s.1 <> []
  end.
Proof.
  intros Hdir Hopen Hsteps Hother. pose proof (wp_database_open_at dir options w) as Hw. unfold wp in Hw.
  rewrite Hopen in Hw. destruct (client_steps_at dir _ _ Hdir Hsteps (Hw d eq_refl)) as (i & Hheld & _).
  pose proof (wp_database_open_taken dir options' i s.1 Hdir Hheld) as Ht. unfold wp in Ht. by rewrite Hother in Ht.
Qed.

Lemma database_exclusive_witness :
  let r := database_open "db" default_options example_db_put.2.1 in
  fs r.2 = fs example_db_put.2.1 /\
  match r.1 with
  | Done _ => False
  | Raised e => e = DatabaseBusyError "database directory is already open" \/ script example_db_put.2.1 <> []
  | Crashed => script example_db_put.2.1 <> []
  end.
Proof.
  intros r. apply (database_exclusive "db" default_options default_options (World example_disk []) example_db.2 example_db.1
    example_db_put.2 r.1 r.2); [discriminate|exact example_db_run| |apply surjective_pairing].
  eapply rtc_l; [|apply rtc_refl]. apply (step_call "db" _ unit (database_put example_key (example_sample 1)) (Done tt));
    [constructor| |discriminate].
  rewrite <-surjective_pairing. exact example_db_put_run.
Defined.

(** C17: closing and opening again.  A database that is closed gives its lock back,
    and opened later without a power loss it holds what it held, with any durability
    and whatever of its log is still only in the system's cache; only a failure of the
    operating system on the way prevents that. *)
Theorem database_reopen dir options v st oc st1 o w2 :
  dir <> EmptyString -> 0 <= memtable_flush_threshold_samples options -> db_running dir st v -> db_at dir st ->
  database_close st = (oc, st1) -> database_open dir options st1.1 = (o, w2) ->
  match o with
  | Done d => db_running dir (w2, d) v /\ db_at dir (w2, d)
  | _ => script st.1 <> []
  end.
Proof.
  intros Hdir Hpos (impl & Hi & _ & Hrun) Hat Hclose Hopen.
  pose proof (wp_database_close_at dir st Hat) as Hw. unfold wp in Hw. rewrite Hclose in Hw.
  destruct Hw as (Hs & Hplace & Hlock & Hf & _).
  assert (fs_ok (fs st1.1)) as Hok.
  { eapply same_files_ok; [exact Hs|]. destruct Hrun as (bss & records & H & _). apply H. }
  apply running_files in Hrun. cbn [fst] in Hrun.
  assert (files_hold dir v (fs st1.1)) as Hfiles by (eapply files_hold_kept; [|exact Hrun]; intros q _; by apply same_files_kept).
  destruct Hlock as [Hfree|[(i & Hheld) Hfaulty]].
  - pose proof (wp_database_reopen dir options v st1.1 Hdir Hok Hplace Hfree Hfiles) as Hw.
    pose proof (wp_database_open_at dir options st1.1) as Hw'. unfold wp in Hw, Hw'. rewrite Hopen in Hw, Hw'.
    destruct o as [d|x|]; [|by apply Hf|by apply Hf]. split; [|by apply Hw']. destruct Hw as (j & e & -> & Hr).
    eexists. split; [done|]. by split.
  - pose proof (wp_database_open_taken dir options i st1.1 Hdir Hheld) as Hw. unfold wp in Hw. rewrite Hopen in Hw.
    by destruct o, Hw.
Qed.

(** A buffered database with one sample, closed and opened. *)
Definition buffered_options : DatabaseOptions := MkOptions Durability.buffered 0.
Definition example_buffered : world * Database :=
  (database_put example_key (example_sample 1) (db_opened (database_open "db" buffered_options (World example_disk [])))).2.
Definition example_closed : world * Database := (database_close example_buffered).2.
Definition example_reopened : world * Database := db_opened (database_open "db" buffered_options example_closed.1).

Lemma open_running dir options v w :
  dir <> EmptyString -> 0 <= memtable_flush_threshold_samples options -> fs_ok (fs w) -> place_free dir (fs w) ->
  lock_free dir (fs w) -> leaves dir (one_view v) (fs w) ->
  (match (database_open dir options w).1 with Done _ => true | _ => false end) = true ->
  db_running dir (db_opened (database_open dir options w)) v.
Proof.
  intros Hdir Hpos Hok Hplace Hfree Hl Hdone. pose proof (db_opened_eta _ Hdone) as Hrun. rewrite (surjective_pairing (db_opened _)).
  revert Hrun. generalize (db_opened (database_open dir options w)).2 as d, (db_opened (database_open dir options w)).1 as w'.
  intros d w' Hrun.
  pose proof (wp_database_open dir options (one_view v) w Hdir (one_view_closed _) Hok Hplace Hfree Hl) as Hw.
  unfold wp in Hw. rewrite Hrun in Hw. destruct Hw as (i & e & v' & bss & records & -> & _ & Hv & Heok & Hview & _).
  eexists. split; [done|]. split; [exact Hpos|]. exists bss, records. split; [exact Heok|]. transitivity v'; [exact Hview|exact Hv].
Qed.

Lemma put_running dir s x v st st' :
  dir <> EmptyString -> SeriesKey_ok s -> Sample_ok x -> db_running dir st v -> database_put s x st = (Done tt, st') ->
  db_running dir st' (view_put s x v).
Proof.
  intros Hdir Hs Hx (impl & Hi & Hp & bss & records & Hok & Hview) Hrun.
  pose proof (wp_database_put dir s x v bss records st impl Hdir Hs Hx Hi Hp Hok Hview) as Hw.
  unfold wp in Hw. rewrite Hrun in Hw. exact (proj1 (proj1 Hw)).
Qed.

Lemma example_buffered_running : db_running "db" example_buffered example_view1.
Proof.
  refine (put_running "db" example_key (example_sample 1) view_empty
    (db_opened (database_open "db" buffered_options (World example_disk []))) example_buffered ltac:(discriminate)
    example_key_ok example_sample1_ok _ _).
  - refine (open_running "db" buffered_options view_empty (World example_disk []) ltac:(discriminate) ltac:(discriminate)
      (single_file_ok _ _) eq_refl example_lock_free example_left _).
    vm_compute. reflexivity.
  - unfold example_buffered. apply db_run_eta. vm_compute. reflexivity.
Qed.

Lemma example_buffered_at : db_at "db" example_buffered.
Proof.
  pose proof (wp_database_open_at "db" buffered_options (World example_disk [])) as Hw. unfold wp in Hw.
  rewrite (db_opened_eta (database_open "db" buffered_options (World example_disk [])) ltac:(vm_compute; reflexivity)) in Hw.
  destruct (Hw _ eq_refl) as (i & Hi). exists i.
  pose proof (db_call_guards (held "db" i) i unit _ (call_put example_key (example_sample 1)) _ Hi) as H.
  cbn [fst snd] in H. rewrite <-surjective_pairing in H. unfold wp in H. unfold example_buffered. revert H.
  destruct (database_put _ _ _) as [oc st]. by intros [H _].
Qed.

Lemma example_closed_run : database_close example_buffered = ((database_close example_buffered).1, example_closed).
Proof. exact (surjective_pairing (database_close example_buffered)). Qed.

Lemma example_reopened_run :
  database_open "db" buffered_options example_closed.1 = (Done example_reopened.2, example_reopened.1).
Proof. apply db_opened_eta. vm_compute. reflexivity. Qed.

Lemma database_reopen_witness :
  db_running "db" (example_reopened.1, example_reopened.2) example_view1 /\ db_at "db" (example_reopened.1, example_reopened.2).
Proof.
  exact (database_reopen "db" buffered_options example_view1 example_buffered (database_close example_buffered).1
    example_closed (Done example_reopened.2) example_reopened.1 ltac:(discriminate) ltac:(discriminate)
    example_buffered_running example_buffered_at example_closed_run example_reopened_run).
Defined.
