(* ===== verification/DatabaseRuns.v ===== *)
(** * The public interface over time

    A client opens a database with [sync_on_write], calls it, closes it, is killed
    between calls, loses power at any point, and opens it again, in any order, while
    others try to open the same directory: [run_step].  The contents the specification
    allows go with the state, as in [EngineContract]. *)

From stdpp Require Import base tactics option numbers list strings gmap relations.
From Stdlib Require Import ZArith Lia.
From S2P Require Import Prelude Errors World Hoare Model OrdMap View MemTable WalRecord FileIo WalFile WalRecovery SegmentBlock Manifest SegmentFile SegmentFormat StorageEngine Database EngineView EngineBlocks EngineState EngineWrite EngineRecovery EngineFlush EngineCompact EngineSafety EngineContract EngineTheorems DatabaseRules DatabaseOpen Guards LockHeld DatabaseTheorems.

(** ** States *)

(** A process with the database open; one whose database has failed or that has
    lost power inside a call; no process. *)
Inductive db_phase :=
| DbUp (st : world * Database)
| DbDown (w : world)
| DbOff (w : world).

Definition db_disk (p : db_phase) : fsys := match p with DbUp st => fs st.1 | DbDown w | DbOff w => fs w end.

Definition db_failed (d : Database) : bool :=
  match impl_ d with Some impl => engine_failed_ (engine impl) | None => false end.

(** The client goes on unless the call crashed or marked the engine. *)
Definition db_after {A} (o : outcome A) (st : world * Database) (done_ kept_ stopped_ : view -> Prop)
    : db_phase * (view -> Prop) :=
  match o with
  | Done _ => (DbUp st, done_)
  | Raised _ => if db_failed st.2 then (DbDown st.1, stopped_) else (DbUp st, kept_)
  | Crashed => (DbDown st.1, stopped_)
  end.

(** The system takes back the lock of a process that ends. *)
Definition release_lock (i : nat) (f : fsys) : fsys := set_locks (locks f ∖ {[i]}) f.

Section Runs.
Context (dir : string).

Inductive run_step : db_phase * (view -> Prop) -> db_phase * (view -> Prop) -> Prop :=
| run_put st R s x o st' :
    SeriesKey_ok s -> Sample_ok x -> log_named (fs st.1) dir -> database_put s x st = (o, st') ->
    run_step (DbUp st, R) (db_after o st' (with_put s x R) R (perhaps_put s x R))
| run_sync st R o st' : database_sync st = (o, st') -> run_step (DbUp st, R) (db_after o st' R R R)
| run_flush st R o st' : database_flush st = (o, st') -> run_step (DbUp st, R) (db_after o st' R R R)
| run_compact st R o st' : database_compact st = (o, st') -> run_step (DbUp st, R) (db_after o st' R R R)
| run_query st R A (m : M (world * Database) A) o st' :
    db_query A m -> m st = (o, st') -> run_step (DbUp st, R) (db_after o st' R R R)
| run_other st R options o w :
    database_open dir options st.1 = (o, w) ->
    run_step (DbUp st, R) (match o with Crashed => DbDown w | _ => DbUp (w, st.2) end, R)
| run_close st R o st' :
    log_named (fs st.1) dir -> database_close st = (o, st') ->
    run_step (DbUp st, R) (match o with Crashed => DbDown st'.1 | _ => DbOff st'.1 end, R)
| run_killed st R impl script :
    log_named (fs st.1) dir -> impl_ st.2 = Some impl ->
    run_step (DbUp st, R) (DbOff (World (release_lock (lock impl) (fs st.1)) script), R)
| run_power_loss p R f script :
    crash (db_disk p) f -> fs_ok f -> place_free dir f -> run_step (p, R) (DbOff (World f script), R)
| run_open w R options d w' :
    durability options = Durability.sync_on_write -> 0 <= memtable_flush_threshold_samples options ->
    database_open dir options w = (Done d, w') -> run_step (DbOff w, R) (DbUp (w', d), R)
| run_open_fails w R options o w' :
    database_open dir options w = (o, w') -> (forall d, o <> Done d) -> run_step (DbOff w, R) (DbDown w', R).

(** ** The invariant *)

Definition lock_known (f : fsys) : Prop := lock_free dir f \/ exists i, held dir i f.

Definition run_ok (p : db_phase * (view -> Prop)) : Prop :=
  closed p.2 /\
  match p.1 with
  | DbUp st => db_at dir st /\ exists v, p.2 v /\ db_settled dir st v
  | DbDown w => survives dir p.2 (fs w)
  | DbOff w => fs_ok (fs w) /\ place_free dir (fs w) /\ lock_known (fs w) /\ leaves dir p.2 (fs w)
  end.

Lemma settled_fs_ok st v : db_settled dir st v -> fs_ok (fs st.1).
Proof. intros (impl & _ & _ & bss & records & Hok & _). apply Hok. Qed.

Lemma settled_not_failed st v : db_settled dir st v -> db_failed st.2 = false.
Proof. intros (impl & Hi & _ & bss & records & Hok & _). unfold db_failed. rewrite Hi. apply Hok. Qed.

Lemma marked_failed st : db_marked st -> db_failed st.2 = true.
Proof. intros (impl & Hi & _ & H). unfold db_failed. by rewrite Hi. Qed.

(** A settled database whose log's name is permanent is what a power loss would leave. *)
Lemma settled_leaves st v : db_settled dir st v -> log_named (fs st.1) dir -> leaves dir (one_view v) (fs st.1).
Proof.
  intros (impl & _ & _ & bss & records & Hok & Hv & [Hsync _] & _) Hname. cbn [fst snd] in *.
  exists (manifest_ (engine impl)), bss, records, (Some (length (log_bytes records))).
  split; [apply Hok|]. split; [apply Hok|]. split; [apply Hok|]. split.
  { unfold log_left. cbn [fmap option_fmap option_map]. rewrite firstn_all. by apply log_durable. }
  intros j Hj. apply recovers_all in Hj as ->. rewrite firstn_all. unfold one_view.
  rewrite <-Hv. symmetry. by eapply engine_ok_view.
Qed.

Lemma leaves_allowed (R : view -> Prop) v f : closed R -> R v -> leaves dir (one_view v) f -> leaves dir R f.
Proof. intros HR Hv. apply leaves_mono. intros u Hu. eapply HR; [|exact Hv]. by symmetry. Qed.

Lemma crash_lock_free f f' : crash f f' -> lock_free dir f'.
Proof. intros (pe & pi & ->). unfold lock_free. case_match; apply not_elem_of_empty. Qed.

Lemma still_at A (m : M (world * Database) A) st o st' : db_call A m -> m st = (o, st') -> db_at dir st -> db_at dir st'.
Proof.
  intros Hcall Hrun (i & Hi). exists i. pose proof (db_call_guards (held dir i) i A m Hcall st Hi) as H. unfold wp in H.
  rewrite Hrun in H. apply H.
Qed.

(** A call that keeps the contents. *)
Lemma db_after_kept R v {A} (o : outcome A) st :
  closed R -> R v -> db_at dir st ->
  match o with
  | Done _ => db_settled dir st v
  | Raised _ => db_settled dir st v \/ db_marked st /\ survives dir (one_view v) (fs st.1)
  | Crashed => survives dir (one_view v) (fs st.1)
  end -> run_ok (db_after o st R R R).
Proof.
  intros HR Hv Hat Ho. assert (db_settled dir st v -> run_ok (DbUp st, R)) as Hup.
  { intros Hs. split; [exact HR|]. split; [exact Hat|]. by exists v. }
  assert (survives dir (one_view v) (fs st.1) -> run_ok (DbDown st.1, R)) as Hdown.
  { intros Hs. split; [exact HR|]. by eapply one_view_allowed. }
  destruct o as [a|e|]; cbn [db_after]; [by apply Hup| |by apply Hdown]. destruct Ho as [Hs|[Hm Hs]].
  - rewrite (settled_not_failed _ _ Hs). by apply Hup.
  - rewrite (marked_failed _ Hm). by apply Hdown.
Qed.

(** ** The calls *)

Lemma wp_in_engine_settled (m : M (world * StorageEngine) unit) v st :
  (forall est, settled_engine dir est v -> wp m est (settled_outcome dir v)) -> db_settled dir st v ->
  wp (in_engine m) st (db_settled_outcome dir v).
Proof.
  intros Hm (impl & Hi & Hpos & Hset). apply (wp_in_engine _ st impl _ Hi). eapply wp_mono; [by apply Hm|].
  intros o t [Hs Ho]. split; [exact Hs|]. destruct o as [u|e|]; [..|done]; eexists; (split; [done|]); by split.
Qed.

Lemma wp_implementation_settled {A} (m : M (world * Database) A) v st Q :
  db_settled dir st v -> wp m st Q -> wp (implementation;; m) st Q.
Proof. intros (impl & Hi & _) Hm. wp_step. by apply (wp_implementation st impl). Qed.

Lemma wp_translate_settled (m : M (world * Database) unit) v st :
  wp m st (db_settled_outcome dir v) -> wp (translate_corruption m) st (db_settled_outcome dir v).
Proof. intros Hm. apply wp_translate. eapply wp_mono; [exact Hm|]. by intros [u|e|] s'. Qed.

Lemma wp_database_sync_settled v st : db_settled dir st v -> wp database_sync st (db_settled_outcome dir v).
Proof.
  intros H. unfold database_sync. eapply wp_implementation_settled; [exact H|].
  apply wp_in_engine_settled; [intros est; apply wp_sync_settled|exact H].
Qed.

Lemma wp_database_flush_settled v st :
  dir <> EmptyString -> db_settled dir st v -> wp database_flush st (db_settled_outcome dir v).
Proof.
  intros Hdir H. unfold database_flush. eapply wp_implementation_settled; [exact H|]. apply wp_translate_settled.
  apply wp_in_engine_settled; [intros est; by apply wp_flush_settled|exact H].
Qed.

Lemma wp_database_compact_settled v st :
  dir <> EmptyString -> db_settled dir st v -> wp database_compact st (db_settled_outcome dir v).
Proof.
  intros Hdir H. unfold database_compact. eapply wp_implementation_settled; [exact H|]. apply wp_translate_settled.
  apply wp_in_engine_settled; [intros est; by apply wp_compact_settled|exact H].
Qed.

(** ** Every step keeps the invariant *)

Lemma kept_call_ok (m : M (world * Database) unit) st R o st' :
  db_call unit m -> (forall v, db_settled dir st v -> wp m st (db_settled_outcome dir v)) -> m st = (o, st') ->
  run_ok (DbUp st, R) -> run_ok (db_after o st' R R R).
Proof.
  intros Hcall Hm Hrun [HR (Hat & v & Hv & Hset)]. specialize (Hm v Hset). unfold wp in Hm. rewrite Hrun in Hm.
  destruct Hm as [Hs Ho]. eapply db_after_kept; [exact HR|exact Hv|by eapply still_at|]. destruct o; [done|by right|done].
Qed.

Lemma query_ok A (m : M (world * Database) A) st R o st' :
  db_query A m -> m st = (o, st') -> run_ok (DbUp st, R) -> run_ok (db_after o st' R R R).
Proof.
  intros Hq Hrun [HR (Hat & v & Hv & Hset)].
  pose proof (db_query_unchanged (fs st.1) st.2 A m Hq st (conj eq_refl eq_refl)) as H. unfold wp in H. rewrite Hrun in H.
  destruct H as [[Hf Hd] _]. cbn [fst snd] in Hf, Hd. assert (db_settled dir st' v) as Hset'.
  { destruct Hset as (impl & Hi & Hpos & Hs). exists impl. rewrite <-Hd. split; [exact Hi|]. split; [exact Hpos|].
    unfold settled_engine in *. cbn [fst snd] in *. by rewrite Hf. }
  eapply db_after_kept; [exact HR|exact Hv|eapply still_at; [by apply call_query|exact Hrun|exact Hat]|].
  destruct o; [done|by left|by apply db_settled_survives].
Qed.

Lemma put_ok s x st R o st' :
  dir <> EmptyString -> SeriesKey_ok s -> Sample_ok x -> log_named (fs st.1) dir -> database_put s x st = (o, st') ->
  run_ok (DbUp st, R) -> run_ok (db_after o st' (with_put s x R) R (perhaps_put s x R)).
Proof.
  intros Hdir Hs Hx Hname Hrun [HR (Hat & v & Hv & impl & Hi & Hpos & bss & records & Hok & Hview & Hset & Hd)].
  pose proof (wp_database_put dir s x v bss records st impl Hdir Hs Hx Hi Hpos Hok Hview) as Hw. unfold wp in Hw.
  rewrite Hrun in Hw. destruct Hw as [_ Ho]. specialize (Ho Hset Hd Hname).
  assert (db_at dir st') as Hat' by (eapply still_at; [by apply call_put|exact Hrun|exact Hat]).
  assert (forall f, survives dir (two_views v (view_put s x v)) f -> survives dir (perhaps_put s x R) f) as Hsurv.
  { intros f. apply survives_mono. intros u [Hu|Hu]; [left; eapply HR; [symmetry; exact Hu|done]|right; by exists v]. }
  destruct o as [u|e|]; cbn [db_after db_sync_put_outcome fst snd] in *.
  - split; [apply with_put_closed|]. split; [exact Hat'|]. exists (view_put s x v). split; [by exists v|exact Ho].
  - destruct Ho as [Hset'|[Hm Hsu]].
    + rewrite (settled_not_failed _ _ Hset'). split; [exact HR|]. split; [exact Hat'|]. by exists v.
    + rewrite (marked_failed _ Hm). split; [by apply perhaps_put_closed|by apply Hsurv].
  - split; [by apply perhaps_put_closed|by apply Hsurv].
Qed.

(** Others find the directory taken. *)
Lemma other_ok st R options o w :
  dir <> EmptyString -> database_open dir options st.1 = (o, w) -> run_ok (DbUp st, R) ->
  run_ok (match o with Crashed => DbDown w | _ => DbUp (w, st.2) end, R).
Proof.
  intros Hdir Hrun [HR ((i & Hheld & Hl) & v & Hv & Hset)].
  pose proof (wp_database_open_taken dir options i st.1 Hdir Hheld) as H. unfold wp in H. rewrite Hrun in H.
  destruct H as [Hf Ho]. cbn [fst snd] in Hf, Ho. split; [by destruct o|].
  assert (db_settled dir (w, st.2) v) as Hset'.
  { destruct Hset as (impl & Hi & Hpos & Hs). exists impl. split; [exact Hi|]. split; [exact Hpos|].
    unfold settled_engine in *. cbn [fst snd] in *. by rewrite Hf. }
  assert (db_at dir (w, st.2)) as Hat' by (exists i; split; [unfold upheld in *; cbn [fst]; by rewrite Hf|exact Hl]).
  destruct o as [d|e|]; cbn [fst snd]; [done|by split; [|exists v]|].
  apply (one_view_allowed dir R v); [exact HR|exact Hv|]. exact (db_settled_survives _ _ _ Hset').
Qed.

(** What the next process finds. *)
Lemma close_ok st R o st' :
  log_named (fs st.1) dir -> database_close st = (o, st') -> run_ok (DbUp st, R) ->
  run_ok (match o with Crashed => DbDown st'.1 | _ => DbOff st'.1 end, R).
Proof.
  intros Hname Hrun [HR (Hat & v & Hv & Hset)]. pose proof (wp_database_close_at dir st Hat) as H. unfold wp in H.
  rewrite Hrun in H. destruct H as (Hs & Hplace & Hlock & _ & _). cbn [fst snd] in *.
  assert (leaves dir R (fs st'.1)) as Hl.
  { eapply leaves_kept; [intros q _; by apply same_files_kept|].
    eapply leaves_allowed; [exact HR|exact Hv|by apply settled_leaves]. }
  split; [by destruct o|]. assert (fs_ok (fs st'.1)) as Hok by by eapply same_files_ok, settled_fs_ok.
  assert (lock_known (fs st'.1)) as Hk by (destruct Hlock as [H|[H _]]; [by left|by right]).
  destruct o; cbn [fst snd]; [done|done|by apply leaves_survives].
Qed.

Lemma release_lock_files i f : same_files f (release_lock i f).
Proof. by split_and!. Qed.

Lemma killed_ok st R impl script :
  log_named (fs st.1) dir -> impl_ st.2 = Some impl -> run_ok (DbUp st, R) ->
  run_ok (DbOff (World (release_lock (lock impl) (fs st.1)) script), R).
Proof.
  intros Hname Hi [HR ((i & (Hplace & He & Hin) & impl' & Hi' & Hl & _) & v & Hv & Hset)].
  rewrite Hi in Hi'. injection Hi' as <-. split; [exact HR|]. cbn [fst snd fs]. split_and!.
  - eapply same_files_ok; [apply release_lock_files|by eapply settled_fs_ok].
  - unfold place_free. cbn [places release_lock set_locks]. by rewrite Hplace.
  - left. apply (held_lock_free dir i); [exact He|]. cbn [locks release_lock set_locks]. apply not_elem_of_difference. right. by apply elem_of_singleton.
  - eapply leaves_kept; [intros q _; apply same_files_kept, release_lock_files|].
    eapply leaves_allowed; [exact HR|exact Hv|by apply settled_leaves].
Qed.

Lemma power_loss_ok p R f script :
  crash (db_disk p) f -> fs_ok f -> place_free dir f -> run_ok (p, R) -> run_ok (DbOff (World f script), R).
Proof.
  intros Hc Hok Hplace [HR Hp]. split; [exact HR|]. cbn [fst snd fs]. split; [exact Hok|]. split; [exact Hplace|].
  split; [left; by eapply crash_lock_free|]. destruct p as [st|w|w]; cbn [fst snd db_disk] in *.
  - destruct Hp as (_ & v & Hv & Hset).
    apply (one_view_allowed dir R v _ HR Hv (db_settled_survives _ _ _ Hset)). exact Hc.
  - by apply Hp.
  - destruct Hp as (_ & _ & _ & Hl). by eapply leaves_survives.
Qed.

(** Opening: the lock of a process that has ended badly may still be there. *)
Lemma open_ok w R options o w' :
  dir <> EmptyString -> database_open dir options w = (o, w') -> run_ok (DbOff w, R) ->
  match o with
  | Done d => durability options = Durability.sync_on_write -> 0 <= memtable_flush_threshold_samples options ->
      run_ok (DbUp (w', d), R)
  | _ => run_ok (DbDown w', R)
  end.
Proof.
  intros Hdir Hrun [HR (Hok & Hplace & Hlock & Hl)]. cbn [fst snd] in *. destruct Hlock as [Hfree|(i & Hheld)].
  - pose proof (wp_database_open dir options R w Hdir HR Hok Hplace Hfree Hl) as Hw.
    pose proof (wp_database_open_at dir options w) as Hw'. unfold wp in Hw, Hw'. rewrite Hrun in Hw, Hw'. cbn [fst snd] in *.
    destruct o as [d|e|]; [|by split; [|apply Hw]|by split; [|apply Hw]]. intros Hd Hpos. split; [exact HR|].
    split; [by apply Hw'|]. destruct Hw as (i & e & v & bss & records & -> & Hdur & Hv & Heok & Hview & Hset & _).
    exists v. split; [exact Hv|]. eexists. split; [done|]. split; [exact Hpos|]. exists bss, records.
    rewrite Hd in Hdur. by split_and!.
  - pose proof (wp_database_open_taken dir options i w Hdir Hheld) as Hw. unfold wp in Hw. rewrite Hrun in Hw.
    destruct Hw as [Hf Ho]. cbn [fst snd] in *. destruct o as [d|e|]; [done|..]; (split; [exact HR|]); cbn [fst snd];
      rewrite Hf; by apply leaves_survives.
Qed.

Lemma run_step_ok p q : dir <> EmptyString -> run_step p q -> run_ok p -> run_ok q.
Proof.
  intros Hdir Hstep. destruct Hstep as [st R s x o st' Hs Hx Hname Hrun|st R o st' Hrun|st R o st' Hrun|st R o st' Hrun
    |st R A m o st' Hq Hrun|st R options o w Hrun|st R o st' Hname Hrun|st R impl script Hname Hi|p R f script Hc Hok Hplace
    |w R options d w' Hd Hpos Hrun|w R options o w' Hrun Hno].
  - by apply put_ok.
  - apply (kept_call_ok database_sync); [constructor|intros v; apply wp_database_sync_settled|exact Hrun].
  - apply (kept_call_ok database_flush); [constructor|intros v; by apply wp_database_flush_settled|exact Hrun].
  - apply (kept_call_ok database_compact); [constructor|intros v; by apply wp_database_compact_settled|exact Hrun].
  - by apply (query_ok A m).
  - by apply (other_ok st R options).
  - by apply close_ok.
  - by apply killed_ok.
  - by apply power_loss_ok.
  - intros Hp. exact (open_ok w R options (Done d) w' Hdir Hrun Hp Hd Hpos).
  - intros Hp. pose proof (open_ok w R options o w' Hdir Hrun Hp) as H. destruct o; [by destruct (Hno a)|exact H|exact H].
Qed.

Lemma run_steps_ok p q : dir <> EmptyString -> rtc run_step p q -> run_ok p -> run_ok q.
Proof. intros Hdir. induction 1 as [|p p1 q Hstep _ IH]; [done|]. intros Hp. by eapply IH, run_step_ok. Qed.
End Runs.

(** ** Theorems *)

(** C1: the contract of the public interface.  Take a database directory as a power
    loss left it, holding contents that [R] allows, and let a client open it with
    [sync_on_write], put (with the automatic flush), sync, flush, compact and query,
    close it, be killed between calls and lose power at any point, and open it again,
    in any order and as often as it likes, while others try to open the directory.
    Whenever the database is open it shows contents the specification allows: every
    acknowledged put is in them, nothing but puts is, and only a put that had not
    returned when the power went or the engine was marked may or may not be; and a
    power loss at that moment would leave exactly what it shows.  [run_step] has two
    conditions.  A put, a close and a kill come while the log's own name is on stable
    storage ([log_named]): in a database that has just been created and has published
    nothing an acknowledged put can be lost (EngineWindows.fresh_put_can_be_lost).  And
    after a call that crashed or marked the engine, or an opening that failed, the next
    opening comes after a power loss: a process that starts again before it builds on
    what is not on stable storage yet (EngineWindows.restart_can_lose_segments,
    [shown_put_can_be_lost]). *)
Theorem database_durability dir w R st R' :
  dir <> EmptyString -> closed R -> fs_ok (fs w) -> place_free dir (fs w) -> lock_free dir (fs w) -> leaves dir R (fs w) ->
  rtc (run_step dir) (DbOff w, R) (DbUp st, R') ->
  exists v, R' v /\ db_running dir st v /\ survives dir (one_view v) (fs st.1).
Proof.
  intros Hdir HR Hok Hplace Hfree Hl Hsteps.
  assert (run_ok dir (DbUp st, R')) as [_ (_ & v & Hv & Hset)].
  { apply (run_steps_ok dir (DbOff w, R)); [done|exact Hsteps|]. split; [done|]. split; [done|]. split; [done|]. by split; [left|]. }
  exists v. split; [exact Hv|]. split; [by apply db_settled_running|by apply db_settled_survives].
Qed.

Definition example_put_closed : world * Database := (database_close example_db_put.2).2.
Definition example_again : world * Database := db_opened (database_open "db" default_options example_put_closed.1).

Lemma example_put_named : log_named (fs example_db_put.2.1) "db".
Proof. exists 0%nat. vm_compute. reflexivity. Qed.

Lemma example_put_closed_run : database_close example_db_put.2 = (Done tt, example_put_closed).
Proof. apply (db_run_eta (database_close example_db_put.2)). vm_compute. reflexivity. Qed.

Lemma example_again_run : database_open "db" default_options example_put_closed.1 = (Done example_again.2, example_again.1).
Proof. apply db_opened_eta. vm_compute. reflexivity. Qed.

Lemma database_durability_witness :
  let R := with_put example_key (example_sample 1) (one_view view_empty) in
  exists v, R v /\ db_running "db" (example_again.1, example_again.2) v /\ survives "db" (one_view v) (fs (example_again.1, example_again.2).1).
Proof.
  intros R. refine (database_durability "db" (World example_disk []) (one_view view_empty) (example_again.1, example_again.2) R
    ltac:(discriminate) (one_view_closed _) (single_file_ok _ _) eq_refl example_lock_free example_left _).
  eapply rtc_l.
  { apply (run_open "db" (World example_disk []) _ default_options example_db.2 example_db.1); [done|done|exact example_db_run]. }
  rewrite <-surjective_pairing. eapply rtc_l.
  { apply (run_put "db" example_db _ example_key (example_sample 1) (Done tt) example_db_put.2);
      [exact example_key_ok|exact example_sample1_ok|exact example_db_named|exact example_db_put_run]. }
  cbn [db_after]. eapply rtc_l.
  { apply (run_close "db" example_db_put.2 _ (Done tt) example_put_closed); [exact example_put_named|exact example_put_closed_run]. }
  eapply rtc_l; [|apply rtc_refl].
  apply (run_open "db" example_put_closed.1 _ default_options example_again.2 example_again.1); [done|done|exact example_again_run].
Defined.
