(* ===== verification/DatabaseRestarts.v ===== *)
(** * Processes that end, without a power loss

    A client of the public interface closes its database, fails, or is killed, inside a
    system call or between two, and the next process opens the directory with the machine
    still running.  Nothing that was synchronized or not makes a difference to it
    ([oblivious]), so every call can be taken as one on a settled disk, and what the next
    process finds is what a power loss that loses nothing would leave. *)

From stdpp Require Import base tactics option numbers list strings gmap relations.
From Stdlib Require Import ZArith Lia.
From S2P Require Import Prelude Errors World Hoare Model OrdMap View MemTable WalRecord FileIo WalFile WalRecovery SegmentBlock Manifest SegmentFile SegmentFormat StorageEngine Database EngineView EngineBlocks EngineState EngineWrite EngineRecovery EngineFlush EngineCompact EngineSafety EngineContract EngineTheorems DatabaseRules DatabaseOpen Guards LockHeld Seen SeenEngine DatabaseTheorems DatabaseRuns.

(** ** A directory in order *)

(** No two names are one file, and the place is a directory or free. *)
Definition in_order (dir : string) (f : fsys) : Prop := fs_ok (seen f) /\ place_free dir f.

Lemma seen_ok_names f :
  fs_ok (seen f) <-> (forall p i, now (entry f p) = Some i -> (i < next_inode f)%nat) /\
    (forall p q i, now (entry f p) = Some i -> now (entry f q) = Some i -> p = q).
Proof.
  unfold fs_ok. split; intros [Hlt Hinj]; split.
  - intros p i Hi. apply (Hlt p). rewrite possible_seen, list_elem_of_singleton. done.
  - intros p q i Hp Hq. apply (Hinj p q i); by rewrite entry_seen.
  - intros p i. rewrite possible_seen, list_elem_of_singleton. intros Hi. by apply (Hlt p).
  - intros p q i. rewrite !entry_seen. apply Hinj.
Qed.

#[export] Instance in_order_gentle dir : Gentle (in_order dir).
Proof.
  unfold in_order. split; intros; rewrite ?seen_ok_names in *; cbn [fst snd] in *.
  - done.
  - destruct H as [[Hlt Hinj] Hp]. split; [|exact Hp]. split.
    + intros p i. rewrite entry_settle_directory. cbn [next_inode settle_directory]. case_decide; apply Hlt.
    + intros p q i. rewrite !entry_settle_directory. do 2 case_decide; apply Hinj.
  - unfold create_if_missing. destruct (now (entry f p)) as [j|] eqn:E; [done|]. destruct H as [[Hlt Hinj] Hp].
    split; [|exact Hp]. cbn [snd].
    set (g := Fsys _ _ _ _ _). assert (forall q, entry g q = if decide (q = p) then push (Some (next_inode f)) (entry f p) else entry f q) as He.
    { intros q. unfold entry at 1. simpl. destruct (decide (q = p)) as [->|]; [by rewrite lookup_insert_eq|by rewrite lookup_insert_ne]. }
    cbn [next_inode g]. split.
    + intros q i. rewrite He. case_decide; [intros [= <-]; lia|]. intros Hi. apply Hlt in Hi. lia.
    + intros q r i. rewrite !He. do 2 case_decide; subst; cbn [push now]; [done|..].
      * intros [= <-] Hi. apply Hlt in Hi. lia.
      * intros Hi [= <-]. apply Hlt in Hi. lia.
      * apply Hinj.
  - destruct H2 as [[Hlt Hinj] Hp]. split; [|exact Hp]. split.
    + intros q i. autorewrite with chrono_fs. cbn [next_inode set_entry].
      repeat case_decide; cbn [push now]; [done|intros [= <-]; by apply (Hlt from)|apply Hlt].
    + intros q r i. autorewrite with chrono_fs. repeat case_decide; cbn [push now]; subst; try done.
      * intros [= <-] Hr. by pose proof (Hinj _ _ _ H1 Hr).
      * intros Hq [= <-]. by pose proof (Hinj _ _ _ H1 Hq).
      * apply Hinj.
  - destruct H0 as [[Hlt Hinj] Hp]. split; [|exact Hp]. split.
    + intros q i. autorewrite with chrono_fs. case_decide; [done|]. apply Hlt.
    + intros q r i. autorewrite with chrono_fs. repeat case_decide; cbn [push now]; [done..|]. apply Hinj.
Qed.

(** The lock and the place do not matter to it. *)
Lemma in_order_locks dir l f : in_order dir f -> in_order dir (set_locks l f).
Proof. done. Qed.

Section Order.
Context (dir : string).
Abbreviation ordered := (upheld (in_order dir)).

Lemma guards_prepare : guards ordered any (prepare_database_directory dir).
Proof.
  unfold prepare_database_directory, sys_place_exists, sys_is_directory, sys_create_directories.
  assert (guards ordered any (sys_create_directories dir)) as Hc.
  { apply guards_sys_change. intros f [Hf _]. split; [exact Hf|]. unfold place_free. cbn [snd places]. by rewrite lookup_insert_eq. }
  unfold sys_create_directories in Hc. guards.
Qed.

Lemma guards_lock_acquire p : guards ordered any (lock_acquire p).
Proof.
  assert (forall i, guards ordered any (sys_flock i)) as Hl.
  { intros i. apply guards_sys_change. intros f Hf. by case_decide. }
  assert (guards ordered any (sys_open_create p)) by apply (guards_sys_open_create (in_order dir)).
  unfold lock_acquire, sys_close. guards.
Qed.

Lemma guards_lock_release i : guards ordered any (lock_release i).
Proof.
  assert (guards ordered any (sys_unlock i)) by by apply guards_sys_change.
  unfold lock_release, sys_close. guards.
Qed.

Lemma guards_database_open options : guards ordered any (database_open dir options).
Proof.
  assert (forall p d, guards ordered any (engine_open p d)) as He.
  { intros p d. eapply guards_mono; [|apply (guards_engine_open (in_order dir))]. done. }
  pose proof guards_prepare. pose proof guards_lock_acquire. pose proof guards_lock_release. unfold database_open. guards.
Qed.
End Order.

(** ** Databases that show a view *)

(** The same state with everything on stable storage. *)
Definition as_seen {T} (st : world * T) : world * T := (World (seen (fs st.1)) (script st.1), st.2).

Lemma as_seen_alike {T} (st : world * T) : alike st (as_seen st).
Proof. split; [|done]. split; [done|]. cbn [fs as_seen fst]. by rewrite seen_idemp. Qed.

Lemma alike_as_seen {T} (st st' : world * T) : alike st st' -> as_seen st = as_seen st'.
Proof. intros [[Hs Hf] Ho]. unfold as_seen. by rewrite Hs, Hf, Ho. Qed.

(** Its queries answer from [v], whatever of it is on stable storage. *)
Definition live (dir : string) (st : world * Database) (v : view) : Prop := db_running dir (as_seen st) v.

Lemma running_seen dir (st : world * StorageEngine) v : running dir st v -> running dir (as_seen st) v.
Proof. intros (bss & records & Hok & Hv). exists bss, records. split; [by apply engine_ok_seen|exact Hv]. Qed.

Lemma running_live dir st v : db_running dir st v -> live dir st v.
Proof. intros (impl & Hi & Hpos & H). exists impl. split; [exact Hi|]. split; [exact Hpos|]. by apply (running_seen dir (st.1, engine impl)). Qed.

Lemma live_alike dir t t' v : alike t t' -> db_running dir t' v -> live dir t v.
Proof. intros Ht H. unfold live. rewrite (alike_as_seen _ _ Ht). by apply running_live. Qed.

Lemma marked_alike (t t' : world * Database) : alike t t' -> db_marked t' -> db_marked t.
Proof. intros [_ Ho] (impl & Hi & Hpos & Hf). exists impl. rewrite Ho. by split_and!. Qed.

Lemma leaves_alike dir R (t t' : world * Database) : alike t t' -> survives dir R (fs t'.1) -> leaves dir R (seen (fs t.1)).
Proof. intros [[_ Hf] _] H. rewrite Hf. by apply survives_seen. Qed.

Lemma live_still dir st v : live dir st v -> with_running (fun est => still dir est v) (as_seen st).
Proof.
  intros (impl & Hi & Hpos & bss & records & Hok & Hv). exists impl. split; [exact Hi|]. split; [exact Hpos|].
  exists bss, records. split; [exact Hok|]. split; [exact Hv|]. cbn [fst fs as_seen] in *.
  pose proof (log_settled_seen _ _ _ _ _ Hok) as Hset. destruct (ok_writer _ _ _ _ _ Hok) as (i & _ & _ & Hn & _).
  pose proof (log_named_seen _ _ _ Hn) as Hname. by rewrite seen_idemp in *.
Qed.

Section Calls.
Context (dir : string) (Hdir : dir <> EmptyString).

(** A call that cannot see what is on stable storage is one on a settled disk. *)
Lemma wp_from_seen {A} (m : M (world * Database) A) v st (Q : outcome A -> world * Database -> Prop) :
  oblivious m -> live dir st v ->
  (forall st0, with_running (fun est => still dir est v) st0 -> wp m st0 (fun o t' => forall t, alike t t' -> Q o t)) ->
  wp m st Q.
Proof. intros Hm Hlive Hw. eapply oblivious_wp; [exact Hm|apply as_seen_alike|]. by apply Hw, live_still. Qed.

(** What the next process would find is [R], and the call has left [v], or marked the engine. *)
Definition live_keeping (v : view) (o : outcome unit) (st : world * Database) : Prop :=
  match o with
  | Done _ => live dir st v
  | Raised _ => db_marked st /\ leaves dir (one_view v) (seen (fs st.1))
  | Crashed => leaves dir (one_view v) (seen (fs st.1))
  end.

Lemma keeping_live v o impl (st : world * Database) (st' : world * StorageEngine) t :
  keeping dir v o st' -> 0 <= flush_threshold_samples impl -> impl_ st.2 = Some impl ->
  alike t (st'.1, with_engine st.2 impl st'.2) -> live_keeping v o t.
Proof.
  intros [Hs Ho] Hpos Hi Ht. destruct o as [u|e|]; cbn [live_keeping].
  - eapply live_alike; [exact Ht|]. eexists. split; [done|]. split; [exact Hpos|]. cbn [fst engine]. by destruct st'.
  - split; [|by eapply leaves_alike]. eapply marked_alike; [exact Ht|]. eexists. split; [done|]. split; [exact Hpos|exact Ho].
  - by eapply leaves_alike.
Qed.

Lemma wp_engine_call (m : M (world * StorageEngine) unit) v st :
  oblivious m -> (forall est, still dir est v -> wp m est (keeping dir v)) -> live dir st v ->
  wp (in_engine m) st (live_keeping v) /\ wp (translate_corruption (in_engine m)) st (live_keeping v).
Proof.
  intros Hm Hw Hlive. assert (wp (in_engine m) st (live_keeping v)) as H.
  { eapply wp_from_seen; [by apply oblivious_in_engine|exact Hlive|]. intros st0 (impl & Hi & Hpos & Hs).
    apply (wp_in_engine _ st0 impl _ Hi). eapply wp_mono; [by apply Hw|]. intros o est Ho t Ht. by eapply keeping_live. }
  split; [exact H|]. apply wp_translate. eapply wp_mono; [exact H|]. by intros [u|e|] s.
Qed.

Lemma wp_implementation_live {A} (m : M (world * Database) A) v st Q :
  live dir st v -> wp m st Q -> wp (implementation;; m) st Q.
Proof. intros (impl & Hi & _) Hm. wp_step. by apply (wp_implementation st impl). Qed.

Lemma wp_sync_live v st : live dir st v -> wp database_sync st (live_keeping v).
Proof.
  intros H. unfold database_sync. eapply wp_implementation_live; [exact H|].
  apply (wp_engine_call engine_sync); [apply oblivious_engine_sync|intros est; apply wp_sync_still|exact H].
Qed.

Lemma wp_flush_live v st : live dir st v -> wp database_flush st (live_keeping v).
Proof using Hdir.
  intros H. unfold database_flush. eapply wp_implementation_live; [exact H|].
  apply (wp_engine_call engine_flush); [apply oblivious_engine_flush|intros est; by apply wp_flush_still|exact H].
Qed.

Lemma wp_compact_live v st : live dir st v -> wp database_compact st (live_keeping v).
Proof using Hdir.
  intros H. unfold database_compact. eapply wp_implementation_live; [exact H|].
  apply (wp_engine_call engine_compact); [apply oblivious_engine_compact|intros est; by apply wp_compact_still|exact H].
Qed.

(** [put], with the automatic flush. *)
Definition live_putting (s : SeriesKey) (x : Sample) (v : view) (o : outcome unit) (st : world * Database) : Prop :=
  match o with
  | Done _ => live dir st (view_put s x v)
  | Raised _ => live dir st v \/ db_marked st /\ leaves dir (two_views v (view_put s x v)) (seen (fs st.1))
  | Crashed => leaves dir (two_views v (view_put s x v)) (seen (fs st.1))
  end.

Lemma wp_logged_live s x v st :
  SeriesKey_ok s -> Sample_ok x -> live dir st v ->
  wp (translate_corruption (in_engine (engine_put s x))) st (live_putting s x v).
Proof.
  intros Hs Hx Hlive. apply wp_translate. eapply wp_from_seen; [apply oblivious_in_engine, oblivious_engine_put|exact Hlive|].
  intros st0 (impl & Hi & Hpos & Hst). apply (wp_in_engine _ st0 impl _ Hi).
  eapply wp_mono; [by apply (wp_put_still dir s x v)|]. intros o est [Hsurv Ho] t Ht. destruct o as [u|e|]; cbn [live_putting].
  - eapply live_alike; [exact Ht|]. eexists. split; [done|]. split; [exact Hpos|]. cbn [fst engine]. by destruct est.
  - destruct Ho as [Ho|Ho]; [left; eapply live_alike; [exact Ht|]|right; split; [eapply marked_alike; [exact Ht|]|by eapply leaves_alike]];
      eexists; (split; [done|]); (split; [exact Hpos|]); cbn [fst engine]; [by destruct est|exact Ho].
  - by eapply leaves_alike.
Qed.

Lemma wp_count_live v st :
  live dir st v -> wp (in_engine engine_memtable_sample_count) st (fun o st' =>
    match o with Done _ => live dir st' v | _ => False end).
Proof.
  intros Hlive. eapply wp_from_seen; [|exact Hlive|].
  { apply oblivious_in_engine. unfold engine_memtable_sample_count.
    apply oblivious_bind; [apply oblivious_ensure_usable|intros e; apply oblivious_ret]. }
  intros st0 (impl & Hi & Hpos & bss & records & Hok & Hv & _). apply (wp_in_engine _ st0 impl _ Hi).
  unfold engine_memtable_sample_count. wp_step. apply wp_engine_usable; [apply Hok|]. cbn [and_then fst snd].
  rewrite wp_ret. intros t Ht. eapply live_alike; [exact Ht|]. eexists. split; [done|]. split; [exact Hpos|]. by exists bss, records.
Qed.

Lemma live_keeping_putting s x v o st : live_keeping (view_put s x v) o st -> live_putting s x v o st.
Proof.
  assert (forall f, leaves dir (one_view (view_put s x v)) f -> leaves dir (two_views v (view_put s x v)) f) as Hr.
  { intros f. apply leaves_mono. by right. }
  destruct o; cbn [live_keeping live_putting]; [done| |by auto]. intros [Hm Hl]. auto.
Qed.

Lemma wp_put_live s x v st :
  SeriesKey_ok s -> Sample_ok x -> live dir st v -> wp (database_put s x) st (live_putting s x v).
Proof using Hdir.
  intros Hs Hx Hlive. unfold database_put. pose proof Hlive as (impl & Hi & Hpos & _). wp_step.
  apply (wp_implementation st impl); [exact Hi|]. cbn [and_then]. wp_step.
  eapply wp_mono; [by apply wp_logged_live|]. intros o st1 Ho. destruct o as [u|e|]; cbn [and_then]; [|exact Ho|exact Ho].
  cbn [live_putting] in Ho. destruct (flush_threshold_samples impl =? 0); [by rewrite wp_ret|]. wp_step.
  eapply wp_mono; [by apply wp_count_live|]. intros o st2 Ho2. destruct o as [n|e|]; cbn [and_then]; [|done|done].
  destruct (flush_threshold_samples impl <=? n); [|by rewrite wp_ret].
  eapply wp_mono; [apply (wp_engine_call engine_flush (view_put s x v)); [apply oblivious_engine_flush|intros est; by apply wp_flush_still|exact Ho2]|].
  intros o st3. apply live_keeping_putting.
Qed.

(** The queries change nothing. *)
Lemma wp_query_live A (m : M (world * Database) A) v st :
  db_query A m -> live dir st v -> wp m st (fun o st' => live dir st' v).
Proof.
  intros Hq Hlive. eapply wp_mono; [apply (db_query_unchanged (fs st.1) st.2 A m Hq); by split|].
  intros o st' [[Hf Hd] _]. cbn [fst snd] in *. destruct Hlive as (impl & Hi & Hpos & bss & records & Hok & Hv).
  exists impl. cbn [as_seen snd] in *. rewrite <-Hd. split; [exact Hi|]. split; [exact Hpos|]. exists bss, records.
  cbn [as_seen fst snd fs] in *. by rewrite Hf.
Qed.

(** A live database leaves what it shows. *)
Lemma live_leaves st v : live dir st v -> leaves dir (one_view v) (seen (fs st.1)).
Proof.
  intros Hlive. apply live_still in Hlive as (impl & Hi & Hpos & bss & records & Hok & Hv & Hset & _).
  pose proof (engine_survives _ _ _ _ _ Hok Hset) as H. apply (one_view_equal _ _ _ _ Hv), survives_seen in H.
  cbn [as_seen fst fs] in H. by rewrite seen_idemp in H.
Qed.
End Calls.

(** ** Processes over time *)

(** The calls that do not change the contents. *)
Inductive db_upkeep : forall A, M (world * Database) A -> Prop :=
| upkeep_sync : db_upkeep unit database_sync
| upkeep_flush : db_upkeep unit database_flush
| upkeep_compact : db_upkeep unit database_compact
| upkeep_query A (m : M (world * Database) A) : db_query A m -> db_upkeep A m.

Lemma upkeep_call A (m : M (world * Database) A) : db_upkeep A m -> db_call A m.
Proof. intros [| | |A' m' Hq]; by constructor. Qed.

(** A process killed inside a call that has come as far as [w]: every name and every
    file has one of the values the call has given it, an append a prefix; the system takes
    the locks back, and nothing becomes permanent by it. *)
Definition cut (w : world) (f : fsys) : Prop := exists f1, crash (fs w) f1 /\ fs_ok f1 /\ seen f = seen f1.

Definition cut_in {A} (m : M (world * Database) A) (st : world * Database) (f : fsys) : Prop :=
  exists st', m (as_seen st) = (Crashed, st') /\ cut st'.1 f.

(** The first half of [database_put], and the call of its second. *)
Definition logged_put (s : SeriesKey) (x : Sample) : M (world * Database) unit :=
  translate_corruption (in_engine (engine_put s x)).
Definition automatic_flush : M (world * Database) unit := translate_corruption (in_engine engine_flush).

Section Restarts.
Context (dir : string).

(** A client that opens the directory with any durability, calls the database, closes it,
    is killed between calls ([restart_dies]) or inside one, and opens it again, while
    others try to open it: no power loss.  With it go the contents the specification
    allows, as in [run_step]. *)
Inductive restart_step : db_phase * (view -> Prop) -> db_phase * (view -> Prop) -> Prop :=
| restart_put st R s x o st' :
    SeriesKey_ok s -> Sample_ok x -> database_put s x st = (o, st') ->
    restart_step (DbUp st, R) (db_after o st' (with_put s x R) R (perhaps_put s x R))
| restart_upkeep st R A (m : M (world * Database) A) o st' :
    db_upkeep A m -> m st = (o, st') -> restart_step (DbUp st, R) (db_after o st' R R R)
| restart_other st R options o w :
    database_open dir options st.1 = (o, w) ->
    restart_step (DbUp st, R) (match o with Crashed => DbDown w | _ => DbUp (w, st.2) end, R)
| restart_close st R o st' :
    database_close st = (o, st') ->
    restart_step (DbUp st, R) (match o with Crashed => DbDown st'.1 | _ => DbOff st'.1 end, R)
| restart_dies p R script :
    restart_step (p, R) (DbOff (World (set_locks ∅ (db_disk p)) script), R)
| restart_cut_put st R s x f script :
    SeriesKey_ok s -> Sample_ok x -> cut_in (logged_put s x) st f ->
    restart_step (DbUp st, R) (DbOff (World f script), perhaps_put s x R)
| restart_cut_flush st R s x st1 f script :
    SeriesKey_ok s -> Sample_ok x -> logged_put s x st = (Done tt, st1) -> cut_in automatic_flush st1 f ->
    restart_step (DbUp st, R) (DbOff (World f script), with_put s x R)
| restart_cut_upkeep st R A (m : M (world * Database) A) f script :
    db_upkeep A m -> cut_in m st f -> restart_step (DbUp st, R) (DbOff (World f script), R)
| restart_cut_open w R options w' f later :
    database_open dir options (World (seen (fs w)) (script w)) = (Crashed, w') -> cut w' f ->
    restart_step (DbOff w, R) (DbOff (World f later), R)
| restart_open w R options d w' :
    0 <= memtable_flush_threshold_samples options ->
    database_open dir options w = (Done d, w') -> restart_step (DbOff w, R) (DbUp (w', d), R)
| restart_open_fails w R options o w' :
    database_open dir options w = (o, w') -> (forall d, o <> Done d) -> restart_step (DbOff w, R) (DbDown w', R).

(** ** The invariant *)

Definition restart_ok (p : db_phase * (view -> Prop)) : Prop :=
  closed p.2 /\ in_order dir (db_disk p.1) /\
  match p.1 with
  | DbUp st => db_at dir st /\ exists v, p.2 v /\ live dir st v
  | DbDown w => leaves dir p.2 (seen (fs w))
  | DbOff w => lock_known dir (fs w) /\ leaves dir p.2 (seen (fs w))
  end.

Lemma live_not_failed st v : live dir st v -> db_failed st.2 = false.
Proof. intros (impl & Hi & _ & bss & records & Hok & _). cbn [as_seen snd] in *. unfold db_failed. rewrite Hi. apply Hok. Qed.

Lemma call_in_order A (m : M (world * Database) A) st o st' :
  db_call A m -> m st = (o, st') -> db_at dir st -> in_order dir (fs st.1) -> in_order dir (fs st'.1).
Proof.
  intros Hcall Hrun (i & _ & Hl) Ho. pose proof (db_call_guards (in_order dir) i A m Hcall st (conj Ho Hl)) as H.
  unfold wp in H. rewrite Hrun in H. apply H.
Qed.

Lemma seen_allowed (R : view -> Prop) v f : closed R -> R v -> leaves dir (one_view v) f -> leaves dir R f.
Proof. apply leaves_allowed. Qed.

(** A call that keeps the contents. *)
Lemma upkeep_ok A (m : M (world * Database) A) st R o st' :
  dir <> EmptyString -> db_upkeep A m -> m st = (o, st') -> restart_ok (DbUp st, R) -> restart_ok (db_after o st' R R R).
Proof.
  intros Hdir Hup Hrun (HR & Hord & Hat & v & Hv & Hlive).
  assert (in_order dir (fs st'.1)) as Hord' by (eapply call_in_order; [by apply upkeep_call|exact Hrun|exact Hat|exact Hord]).
  assert (db_at dir st') as Hat' by (eapply still_at; [by apply upkeep_call|exact Hrun|exact Hat]).
  assert (live dir st' v -> restart_ok (DbUp st', R)) as Hgo by (intros H; split; [done|split; [done|split; [done|by exists v]]]).
  assert (leaves dir (one_view v) (seen (fs st'.1)) -> restart_ok (DbDown st'.1, R)) as Hstop.
  { intros H. split; [done|split; [done|]]. by eapply seen_allowed. }
  assert (forall m : M (world * Database) unit, wp m st (live_keeping dir v) -> forall o1, m st = (o1, st') ->
    restart_ok (db_after o1 st' R R R)) as Hkeep.
  { intros m1 Hw o1 Hrun1. unfold wp in Hw. rewrite Hrun1 in Hw. destruct o1 as [u|e|]; cbn [db_after]; [by apply Hgo| |by apply Hstop].
    destruct Hw as [Hm Hl]. cbn [snd] in Hm. rewrite (marked_failed _ Hm). by apply Hstop. }
  destruct Hup as [| | |A m Hq]; [eapply Hkeep; [|exact Hrun]..|].
  - by apply wp_sync_live.
  - by apply wp_flush_live.
  - by apply wp_compact_live.
  - pose proof (wp_query_live dir A m v st Hq Hlive) as Hw. unfold wp in Hw. rewrite Hrun in Hw.
    destruct o as [a|e|]; cbn [db_after]; [by apply Hgo| |by eapply Hstop, live_leaves].
    cbn [snd] in Hw. rewrite (live_not_failed _ _ Hw). by apply Hgo.
Qed.

Lemma restart_put_ok s x st R o st' :
  dir <> EmptyString -> SeriesKey_ok s -> Sample_ok x -> database_put s x st = (o, st') ->
  restart_ok (DbUp st, R) -> restart_ok (db_after o st' (with_put s x R) R (perhaps_put s x R)).
Proof.
  intros Hdir Hs Hx Hrun (HR & Hord & Hat & v & Hv & Hlive).
  assert (in_order dir (fs st'.1)) as Hord' by (eapply call_in_order; [by apply call_put|exact Hrun|exact Hat|exact Hord]).
  assert (db_at dir st') as Hat' by (eapply still_at; [by apply call_put|exact Hrun|exact Hat]).
  pose proof (wp_put_live dir Hdir s x v st Hs Hx Hlive) as Hw. unfold wp in Hw. rewrite Hrun in Hw.
  assert (leaves dir (two_views v (view_put s x v)) (seen (fs st'.1)) -> restart_ok (DbDown st'.1, perhaps_put s x R)) as Hstop.
  { intros H. split; [by apply perhaps_put_closed|]. split; [done|]. revert H. apply leaves_mono. intros u [Hu|Hu].
    - left. eapply HR; [symmetry; exact Hu|done].
    - right. by exists v. }
  destruct o as [u|e|]; cbn [db_after live_putting] in *; [| |by apply Hstop].
  - split; [apply with_put_closed|]. split; [done|split; [done|]]. exists (view_put s x v). split; [by exists v|exact Hw].
  - destruct Hw as [Hl|[Hm Hl]].
    + cbn [snd] in Hl. rewrite (live_not_failed _ _ Hl). split; [done|split; [done|split; [done|by exists v]]].
    + cbn [snd] in Hm. rewrite (marked_failed _ Hm). by apply Hstop.
Qed.

(** Others find the directory taken. *)
Lemma restart_other_ok st R options o w :
  dir <> EmptyString -> database_open dir options st.1 = (o, w) -> restart_ok (DbUp st, R) ->
  restart_ok (match o with Crashed => DbDown w | _ => DbUp (w, st.2) end, R).
Proof.
  intros Hdir Hrun (HR & Hord & (i & Hheld & Hl) & v & Hv & Hlive). cbn [fst snd db_disk] in *.
  pose proof (wp_database_open_taken dir options i st.1 Hdir Hheld) as H. unfold wp in H. rewrite Hrun in H.
  destruct H as [Hf Ho]. cbn [fst snd] in Hf, Ho. split; [by destruct o|]. rewrite <-Hf in Hord.
  assert (live dir (w, st.2) v) as Hlive'.
  { destruct Hlive as (impl & Hi & Hpos & bss & records & Hok & Hview). exists impl. split; [exact Hi|]. split; [exact Hpos|].
    exists bss, records. cbn [as_seen fst snd fs] in *. by rewrite Hf. }
  destruct o as [d|e|]; cbn [fst snd db_disk]; [done|..]; (split; [done|]).
  - split; [|by exists v]. exists i. split; [unfold upheld in *; cbn [fst]; by rewrite Hf|exact Hl].
  - eapply seen_allowed; [exact HR|exact Hv|]. exact (live_leaves _ _ _ Hlive').
Qed.

Lemma in_order_same f f' : same_files f f' -> in_order dir f -> place_free dir f' -> in_order dir f'.
Proof.
  intros Hs [Hok _] Hp. split; [|exact Hp]. revert Hok. rewrite !seen_ok_names. pose proof Hs as (_ & _ & Hn).
  intros [Hlt Hinj]. split; [intros p i|intros p q i]; rewrite !(same_files_entry _ _ _ Hs); rewrite ?Hn; [apply Hlt|apply Hinj].
Qed.

Lemma leaves_same R f f' : same_files f f' -> leaves dir R (seen f) -> leaves dir R (seen f').
Proof.
  intros (He & Hi & Hn). apply leaves_kept. intros q _. apply same_files_kept. unfold seen, same_files. simpl.
  by rewrite He, Hi.
Qed.

(** Closing, and what the next process finds. *)
Lemma restart_close_ok st R o st' :
  database_close st = (o, st') -> restart_ok (DbUp st, R) ->
  restart_ok (match o with Crashed => DbDown st'.1 | _ => DbOff st'.1 end, R).
Proof.
  intros Hrun (HR & Hord & Hat & v & Hv & Hlive). pose proof (wp_database_close_at dir st Hat) as H. unfold wp in H.
  rewrite Hrun in H. destruct H as (Hs & Hplace & Hlock & _ & _). cbn [fst snd db_disk] in *.
  assert (leaves dir R (seen (fs st'.1))) as Hl.
  { eapply leaves_same; [exact Hs|]. eapply seen_allowed; [exact HR|exact Hv|by apply live_leaves]. }
  assert (in_order dir (fs st'.1)) as Hord' by by eapply in_order_same.
  assert (lock_known dir (fs st'.1)) as Hk by (destruct Hlock as [H|[H _]]; [by left|by right]).
  split; [by destruct o|]. destruct o; cbn [fst snd db_disk]; (split; [exact Hord'|]); [by split|by split|exact Hl].
Qed.

(** The end of a process gives the lock back. *)
Lemma restart_dies_ok p R script :
  restart_ok (p, R) -> restart_ok (DbOff (World (set_locks ∅ (db_disk p)) script), R).
Proof.
  intros (HR & Hord & Hp). split; [exact HR|]. split; [exact Hord|]. cbn [fst snd fs] in *. split.
  - left. unfold lock_free. destruct (now _); apply not_elem_of_empty.
  - apply (leaves_same R (db_disk p)); [by split_and!|]. destruct p as [st|w|w]; cbn [db_disk fst snd] in *.
    + destruct Hp as (_ & v & Hv & Hlive). eapply seen_allowed; [exact HR|exact Hv|by apply live_leaves].
    + exact Hp.
    + apply Hp.
Qed.

(** A call that is cut short. *)
Lemma cut_ok (R : view -> Prop) w f script :
  closed R -> place_free dir (fs w) -> survives dir R (fs w) -> cut w f -> restart_ok (DbOff (World f script), R).
Proof.
  intros HR Hplace Hs (f1 & Hc & Hok1 & Hf). split; [exact HR|]. cbn [fst snd fs db_disk]. split.
  - split; [rewrite Hf; by apply seen_ok|]. unfold place_free. rewrite (seen_places _ _ Hf).
    destruct Hc as (pe & pi & ->). exact Hplace.
  - split.
    + left. unfold lock_free. rewrite (seen_locks _ _ Hf), (seen_now _ _ Hf), (seen_next _ _ Hf).
      destruct Hc as (pe & pi & ->). destruct (now _); apply not_elem_of_empty.
    + rewrite Hf. apply survives_seen. intros f2 Hc2. by eapply leaves_survives; [apply Hs|].
Qed.

(** What a call can leave, before it ends: of an engine on a settled disk. *)
Lemma wp_engine_survives (R : view -> Prop) (m : M (world * StorageEngine) unit) v st :
  (forall est, still dir est v -> wp m est (fun o est' => survives dir R (fs est'.1))) ->
  with_running (fun est => still dir est v) st ->
  wp (in_engine m) st (fun o st' => survives dir R (fs st'.1)) /\
  wp (translate_corruption (in_engine m)) st (fun o st' => survives dir R (fs st'.1)).
Proof.
  intros Hw (impl & Hi & Hpos & Hs). assert (wp (in_engine m) st (fun o st' => survives dir R (fs st'.1))) as H.
  { apply (wp_in_engine _ st impl _ Hi). eapply wp_mono; [by apply Hw|]. by intros o est. }
  split; [exact H|]. apply wp_translate. eapply wp_mono; [exact H|]. by intros [u|e|] s.
Qed.

Lemma wp_keeping_survives v m st :
  wp m st (keeping dir v) -> wp m st (fun o est' => survives dir (one_view v) (fs est'.1)).
Proof. intros H. eapply wp_mono; [exact H|]. intros o est Ho. apply Ho. Qed.

Lemma wp_upkeep_survives A (m : M (world * Database) A) v st :
  dir <> EmptyString -> db_upkeep A m -> with_running (fun est => still dir est v) st ->
  wp m st (fun o st' => survives dir (one_view v) (fs st'.1)).
Proof.
  intros Hdir Hup Hst. pose proof Hst as (impl & Hi & _ & bss & records & Hok & Hv & Hset & _).
  assert (forall (m : M (world * Database) unit) (Q : outcome unit -> world * Database -> Prop),
    wp m st Q -> wp (implementation;; m) st Q) as Himpl.
  { intros m1 Q Hm. wp_step. by apply (wp_implementation st impl). }
  destruct Hup as [| | |A m Hq].
  - apply Himpl, (wp_engine_survives _ _ v); [|exact Hst]. intros est Hs. by apply wp_keeping_survives, wp_sync_still.
  - apply Himpl, (wp_engine_survives _ _ v); [|exact Hst]. intros est Hs. by apply wp_keeping_survives, wp_flush_still.
  - apply Himpl, (wp_engine_survives _ _ v); [|exact Hst]. intros est Hs. by apply wp_keeping_survives, wp_compact_still.
  - eapply wp_mono; [apply (db_query_unchanged (fs st.1) st.2 A m Hq); by split|]. intros o st' [[Hf _] _]. cbn [fst] in *.
    rewrite Hf. apply (one_view_equal _ _ _ _ Hv). by apply (engine_survives _ _ _ _ _ Hok).
Qed.

(** The directory a call cut short leaves. *)
Lemma cut_call_ok A (m : M (world * Database) A) (R : view -> Prop) v st f script :
  (forall i, guards (both (upheld (in_order dir)) (locked_by i)) any m) ->
  closed R -> db_at dir st -> in_order dir (fs st.1) -> live dir st v ->
  (forall st0, with_running (fun est => still dir est v) st0 -> wp m st0 (fun o st' => survives dir R (fs st'.1))) ->
  cut_in m st f -> restart_ok (DbOff (World f script), R).
Proof.
  intros Hg HR (i & _ & Hl) [Hok Hp] Hlive Hw (st' & Hrun & Hcut).
  assert (both (upheld (in_order dir)) (locked_by i) (as_seen st)) as Hb.
  { split; [|exact Hl]. split; [cbn; by rewrite seen_idemp|exact Hp]. }
  specialize (Hg i (as_seen st) Hb). specialize (Hw _ (live_still _ _ _ Hlive)). unfold wp in Hg, Hw. rewrite Hrun in Hg, Hw.
  eapply cut_ok; [exact HR|apply Hg|exact Hw|exact Hcut].
Qed.

Lemma guards_logged_put i s x : guards (both (upheld (in_order dir)) (locked_by i)) any (logged_put s x).
Proof. apply guards_translate, (guards_held_engine (in_order dir)), (guards_engine_put (in_order dir)). Qed.

Lemma guards_automatic_flush i : guards (both (upheld (in_order dir)) (locked_by i)) any automatic_flush.
Proof. apply guards_translate, (guards_held_engine (in_order dir)), (guards_engine_flush (in_order dir)). Qed.

Lemma cut_put_ok s x st R f script :
  SeriesKey_ok s -> Sample_ok x -> cut_in (logged_put s x) st f -> restart_ok (DbUp st, R) ->
  restart_ok (DbOff (World f script), perhaps_put s x R).
Proof.
  intros Hs Hx Hcut (HR & Hord & Hat & v & Hv & Hlive).
  eapply cut_call_ok; [intros i; apply guards_logged_put|by apply perhaps_put_closed|exact Hat|exact Hord|exact Hlive| |exact Hcut].
  intros st0 Hst. apply (wp_engine_survives _ _ v); [|exact Hst]. intros est He.
  eapply wp_mono; [by apply (wp_put_still dir s x v)|]. intros o est' [Hsurv _]. revert Hsurv. apply survives_mono.
  intros u [Hu|Hu]; [left; eapply HR; [symmetry; exact Hu|done]|right; by exists v].
Qed.

Lemma cut_flush_ok s x st st1 R f script :
  dir <> EmptyString -> SeriesKey_ok s -> Sample_ok x -> logged_put s x st = (Done tt, st1) -> cut_in automatic_flush st1 f ->
  restart_ok (DbUp st, R) -> restart_ok (DbOff (World f script), with_put s x R).
Proof.
  intros Hdir Hs Hx Hrun Hcut (HR & Hord & (i & Hat) & v & Hv & Hlive).
  pose proof (wp_logged_live dir s x v st Hs Hx Hlive) as Hw. pose proof (guards_logged_put i s x st (conj Hord (proj2 Hat))) as Hg.
  assert (both (holds dir i) (locked_by i) st1) as Hat1.
  { assert (guards (both (holds dir i) (locked_by i)) any (logged_put s x)) as H.
    { apply guards_translate, (guards_held_engine (held dir i)), (guards_engine_put (held dir i)). }
    specialize (H st Hat). unfold wp in H. rewrite Hrun in H. apply H. }
  unfold wp in Hw, Hg. unfold logged_put in *. rewrite Hrun in Hw, Hg. cbn [fst snd live_putting] in Hw.
  eapply (cut_call_ok _ automatic_flush _ (view_put s x v) st1); [intros j; apply guards_automatic_flush|apply with_put_closed
    |by exists i|apply Hg|exact Hw| |exact Hcut].
  intros st0 Hst. apply (wp_engine_survives _ _ (view_put s x v)); [|exact Hst]. intros est He.
  eapply wp_mono; [by apply wp_flush_still|]. intros o est' [Hsurv _]. revert Hsurv.
  apply survives_mono. intros u Hu. exists v. by split.
Qed.

Lemma cut_upkeep_ok A (m : M (world * Database) A) st R f script :
  dir <> EmptyString -> db_upkeep A m -> cut_in m st f -> restart_ok (DbUp st, R) -> restart_ok (DbOff (World f script), R).
Proof.
  intros Hdir Hup Hcut (HR & Hord & Hat & v & Hv & Hlive).
  eapply cut_call_ok; [intros i; by apply (db_call_guards (in_order dir)), upkeep_call|exact HR|exact Hat|exact Hord|exact Hlive| |exact Hcut].
  intros st0 Hst. eapply wp_mono; [by apply wp_upkeep_survives|]. intros o st' Hs. by eapply one_view_allowed.
Qed.

(** ** Opening *)

(** What opening finds does not depend on what is on stable storage either. *)
Definition live_opened (options : DatabaseOptions) (R : view -> Prop) (w : world) (o : outcome Database) (w' : world) : Prop :=
  match o with
  | Done d => (exists v, R v /\ (0 <= memtable_flush_threshold_samples options -> live dir (w', d) v)) /\ (faulty w' -> faulty w)
  | _ => faulty w /\ leaves dir R (seen (fs w'))
  end.

Lemma wp_open_live options R w :
  dir <> EmptyString -> closed R -> in_order dir (fs w) -> lock_free dir (fs w) -> leaves dir R (seen (fs w)) ->
  wp (database_open dir options) w (live_opened options R w).
Proof.
  intros Hdir HR [Hok Hplace] Hfree Hl. set (w0 := World (seen (fs w)) (script w)).
  apply (oblivious_wp _ w w0); [apply oblivious_database_open|split; [done|cbn; by rewrite seen_idemp]|].
  eapply wp_mono.
  { apply (wp_database_open dir options R w0 Hdir HR Hok Hplace); [|exact Hl].
    unfold lock_free in *. cbn [fs w0]. rewrite entry_seen. exact Hfree. }
  intros o t' Ho t [Hst Hft]. destruct o as [d|e|]; cbn [live_opened].
  - destruct Ho as (i & e & v & bss & records & -> & _ & Hv & Heok & Hview & _ & _ & Hf). split.
    + exists v. split; [exact Hv|]. intros Hpos. eexists. split; [done|]. split; [exact Hpos|]. exists bss, records.
      split; [|exact Hview]. cbn [as_seen fst snd fs engine]. rewrite Hft. by apply engine_ok_seen.
    + unfold faulty. rewrite Hst. exact Hf.
  - destruct Ho as [Hf Hs]. split; [exact Hf|]. rewrite Hft. by apply survives_seen.
  - destruct Ho as [Hf Hs]. split; [exact Hf|]. rewrite Hft. by apply survives_seen.
Qed.

Lemma restart_open_ok w R options o w' :
  dir <> EmptyString -> database_open dir options w = (o, w') -> restart_ok (DbOff w, R) ->
  match o with
  | Done d => 0 <= memtable_flush_threshold_samples options -> restart_ok (DbUp (w', d), R)
  | _ => restart_ok (DbDown w', R)
  end.
Proof.
  intros Hdir Hrun (HR & Hord & Hlock & Hl). cbn [fst snd db_disk] in *.
  pose proof (guards_database_open dir options w Hord) as Hg. unfold wp in Hg. rewrite Hrun in Hg. destruct Hg as [Hord' _].
  destruct Hlock as [Hfree|(i & Hheld)].
  - pose proof (wp_open_live options R w Hdir HR Hord Hfree Hl) as Hw. pose proof (wp_database_open_at dir options w) as Hw'.
    unfold wp in Hw, Hw'. rewrite Hrun in Hw, Hw'. cbn [fst snd] in *.
    destruct o as [d|e|]; [|by split; [|split; [|apply Hw]]..]. intros Hpos. split; [exact HR|]. split; [exact Hord'|].
    split; [by apply Hw'|]. destruct Hw as [(v & Hv & Hlive) _]. exists v. split; [exact Hv|by apply Hlive].
  - pose proof (wp_database_open_taken dir options i w Hdir Hheld) as Hw. unfold wp in Hw. rewrite Hrun in Hw.
    destruct Hw as [Hf Ho]. cbn [fst snd] in *. destruct o as [d|e|]; [done|..]; (split; [exact HR|]); (split; [exact Hord'|]);
      cbn [fst snd]; by rewrite Hf.
Qed.

Lemma cut_open_ok w R options w' f later :
  dir <> EmptyString -> database_open dir options (World (seen (fs w)) (script w)) = (Crashed, w') -> cut w' f ->
  restart_ok (DbOff w, R) -> restart_ok (DbOff (World f later), R).
Proof.
  intros Hdir Hrun Hcut (HR & Hord & Hlock & Hl). cbn [fst snd db_disk] in *. set (w0 := World _ _) in Hrun.
  assert (in_order dir (fs w0)) as Hord0 by (destruct Hord as [H1 H2]; split; [cbn; by rewrite seen_idemp|exact H2]).
  pose proof (guards_database_open dir options w0 Hord0) as Hg. unfold wp in Hg. rewrite Hrun in Hg. destruct Hg as [[_ Hp'] _].
  apply (cut_ok R w' f later HR Hp'); [|exact Hcut]. destruct Hlock as [Hfree|(i & Hheld)].
  - assert (lock_free dir (fs w0)) as Hfree0 by (unfold lock_free in *; cbn [fs w0]; by rewrite entry_seen).
    pose proof (wp_database_open dir options R w0 Hdir HR (proj1 Hord) (proj2 Hord) Hfree0 Hl) as Hw. unfold wp in Hw.
    rewrite Hrun in Hw. apply Hw.
  - assert (held dir i (fs w0)) as Hheld0.
    { destruct Hheld as (H1 & H2 & H3). split; [exact H1|]. split; [cbn [fs w0]; by rewrite entry_seen|exact H3]. }
    pose proof (wp_database_open_taken dir options i w0 Hdir Hheld0) as Hw. unfold wp in Hw. rewrite Hrun in Hw.
    destruct Hw as [Hf _]. cbn [fst snd] in Hf. rewrite Hf. by apply leaves_survives.
Qed.

Lemma restart_step_ok p q : dir <> EmptyString -> restart_step p q -> restart_ok p -> restart_ok q.
Proof.
  intros Hdir Hstep. destruct Hstep as [st R s x o st' Hs Hx Hrun|st R A m o st' Hup Hrun|st R options o w Hrun|st R o st' Hrun
    |p R script|st R s x f script Hs Hx Hcut|st R s x st1 f script Hs Hx Hrun Hcut|st R A m f script Hup Hcut
    |w R options w' f later Hrun Hcut|w R options d w' Hpos Hrun|w R options o w' Hrun Hno].
  - by apply restart_put_ok.
  - by apply (upkeep_ok A m).
  - by apply (restart_other_ok st R options).
  - by apply restart_close_ok.
  - apply restart_dies_ok.
  - by apply cut_put_ok.
  - by apply (cut_flush_ok s x st st1).
  - by apply (cut_upkeep_ok A m).
  - by apply (cut_open_ok w R options w').
  - intros Hp. exact (restart_open_ok w R options (Done d) w' Hdir Hrun Hp Hpos).
  - intros Hp. pose proof (restart_open_ok w R options o w' Hdir Hrun Hp) as H. destruct o; [by destruct (Hno a)|exact H|exact H].
Qed.

Lemma restart_steps_ok p q : dir <> EmptyString -> rtc restart_step p q -> restart_ok p -> restart_ok q.
Proof. intros Hdir. induction 1 as [|p p1 q Hstep _ IH]; [done|]. intros Hp. by eapply IH, restart_step_ok. Qed.

(** With an operating system that works, a live database answers. *)
Lemma live_get st v s t :
  live dir st v -> script st.1 = [] -> exists r st', database_get s t st = (Done r, st') /\ is_get v s t r.
Proof.
  intros (impl & Hi & Hpos & bss & records & Hok & Hv) Hs.
  assert (~ faulty (as_seen st).1) as Hno by (intros H; by apply H).
  assert (wp (database_get s t) st (fun o _ => exists r, o = Done r /\ is_get v s t r)) as Hw.
  { apply (oblivious_wp _ st (as_seen st)); [apply oblivious_db_query, query_get|apply as_seen_alike|].
    unfold database_get. wp_step. apply (wp_implementation _ impl); [exact Hi|]. cbn [and_then].
    apply wp_translate, (wp_in_engine _ _ impl _ Hi).
    eapply wp_mono; [by apply (wp_engine_get bss s t ((as_seen st).1, engine impl)), (engine_ok_holds _ _ _ _ _ Hok)|].
    intros o est [_ [_ Ho]]. cbn [fst snd] in Ho. destruct o as [r|e|]; [|by destruct Ho as [Ho|[]]|done].
    intros _ _. exists r. split; [done|]. destruct Ho as [Hr _]. unfold is_get in *. cbn [snd] in Hr, Hv. by rewrite Hr, (Hv s t). }
  unfold wp in Hw. destruct (database_get s t st) as [o st']. cbn [fst snd] in Hw. destruct Hw as (r & -> & Hr). by exists r, st'.
Qed.
End Restarts.

(** ** Theorems *)

(** No call can tell what is on stable storage.  Two states with the same database
    and the same files now, whatever a power loss would make of the files of each, give
    the same results under the same behaviour of the operating system, and have the same
    database and the same files afterwards. *)
Theorem unsynced_is_invisible A (m : M (world * Database) A) dir options st st' :
  db_call A m -> script st.1 = script st'.1 -> seen (fs st.1) = seen (fs st'.1) -> st.2 = st'.2 ->
  ((m st).1 = (m st').1 /\ (m st).2.2 = (m st').2.2 /\ seen (fs (m st).2.1) = seen (fs (m st').2.1)) /\
  ((database_open dir options st.1).1 = (database_open dir options st'.1).1 /\
   seen (fs (database_open dir options st.1).2) = seen (fs (database_open dir options st'.1).2)).
Proof.
  intros Hm Hs Hf Hd. assert (alike st st') as Hst by by split.
  destruct (oblivious_db_call A m Hm st st' Hst) as [Ho [[_ Hf1] Hd1]].
  destruct (oblivious_database_open dir options st.1 st'.1 (proj1 Hst)) as [Ho2 [_ Hf2]]. by split_and!.
Qed.

(** A sample that was put with buffered appends and is not on stable storage, and the
    same file with the sample on it. *)
Lemma unsynced_is_invisible_witness :
  let st := example_buffered in
  (database_sync st).1 = (database_sync (as_seen st)).1 /\
  log_named (fs (as_seen st).1) "db" /\ bool_decide (before (inode (fs st.1) 0) = []) = false /\
  bool_decide (before (inode (fs (as_seen st).1) 0) = []) = true.
Proof.
  assert (forall st : world * Database, (database_sync st).1 = (database_sync (as_seen st)).1) as H.
  { intros st. refine (proj1 (proj1 (unsynced_is_invisible unit database_sync "db" default_options st (as_seen st) call_sync eq_refl _ eq_refl))).
    cbn [as_seen fst fs]. by rewrite seen_idemp. }
  split; [exact (H example_buffered)|]. split; [exists 0%nat; vm_compute; reflexivity|]. split; vm_compute; reflexivity.
Defined.

(** C12: without a power loss nothing is lost, synchronized or not.  Take a directory as
    a power loss left it and let processes open it in any durability mode, put, sync,
    flush, compact and query, fail, close it or be killed, in a call (leaving a part of
    what was being written) or between two, and open it again, in any order.  If then
    nobody holds the lock and the operating system works, the next process opens the
    directory and reads contents the specification allows: every put that returned is in
    them, nothing but puts is, and only a put whose call threw from a marked engine or
    was cut short may or may not be. *)
Theorem database_restarts dir w R w' R' options s t :
  dir <> EmptyString -> closed R -> fs_ok (fs w) -> place_free dir (fs w) -> lock_free dir (fs w) -> leaves dir R (fs w) ->
  rtc (restart_step dir) (DbOff w, R) (DbOff w', R') ->
  lock_free dir (fs w') -> 0 <= memtable_flush_threshold_samples options ->
  exists d w1 v r st, database_open dir options (World (fs w') []) = (Done d, w1) /\ R' v /\
    database_get s t (w1, d) = (Done r, st) /\ is_get v s t r.
Proof.
  intros Hdir HR Hok Hplace Hfree Hl Hsteps Hfree' Hpos.
  assert (restart_ok dir (DbOff w', R')) as (HR' & Hord & _ & Hl').
  { apply (restart_steps_ok dir (DbOff w, R)); [done|exact Hsteps|]. split; [exact HR|]. split; [by split; [apply seen_ok|]|].
    split; [by left|]. by apply survives_seen, leaves_survives. }
  cbn [fst snd db_disk] in *.
  pose proof (wp_open_live dir options R' (World (fs w') []) Hdir HR' Hord Hfree' Hl') as Hw. unfold wp in Hw.
  destruct (database_open dir options (World (fs w') [])) as [o w1]. cbn [fst snd] in Hw.
  destruct o as [d|e|]; cbn [live_opened] in Hw; [|by destruct Hw|by destruct Hw].
  destruct Hw as [(v & Hv & Hlive) Hf]. assert (script w1 = []) as Hs.
  { destruct (script w1) as [|a l] eqn:E; [done|]. exfalso. by apply Hf; [unfold faulty; rewrite E|]. }
  destruct (live_get dir (w1, d) v s t (Hlive Hpos) Hs) as (r & st & Hrun & Hr).
  by exists d, w1, v, r, st.
Qed.

Definition example_buffered_db : world * Database := db_opened (database_open "db" buffered_options (World example_disk [])).

Lemma example_buffered_db_run : database_open "db" buffered_options (World example_disk []) = (Done example_buffered_db.2, example_buffered_db.1).
Proof. apply db_opened_eta. vm_compute. reflexivity. Qed.

Lemma example_buffered_run : database_put example_key (example_sample 1) example_buffered_db = (Done tt, example_buffered).
Proof. apply (db_run_eta (database_put example_key (example_sample 1) example_buffered_db)). vm_compute. reflexivity. Qed.

(** A process that has put a sample without synchronizing it is killed. *)
Lemma database_restarts_witness :
  exists d w1 v r st, database_open "db" default_options (World (set_locks ∅ (fs example_buffered.1)) []) = (Done d, w1) /\
    with_put example_key (example_sample 1) (one_view view_empty) v /\
    database_get example_key (MkTimestamp 1) (w1, d) = (Done r, st) /\ is_get v example_key (MkTimestamp 1) r.
Proof.
  refine (database_restarts "db" (World example_disk []) (one_view view_empty) (World (set_locks ∅ (fs example_buffered.1)) [])
    (with_put example_key (example_sample 1) (one_view view_empty)) default_options example_key (MkTimestamp 1)
    ltac:(discriminate) (one_view_closed _) (single_file_ok _ _) eq_refl example_lock_free example_left _ _ ltac:(discriminate)).
  - eapply rtc_l.
    { apply (restart_open "db" (World example_disk []) _ buffered_options example_buffered_db.2 example_buffered_db.1);
        [discriminate|exact example_buffered_db_run]. }
    rewrite <-surjective_pairing. eapply rtc_l.
    { apply (restart_put "db" example_buffered_db _ example_key (example_sample 1) (Done tt) example_buffered);
        [exact example_key_ok|exact example_sample1_ok|exact example_buffered_run]. }
    cbn [db_after]. eapply rtc_l; [|apply rtc_refl]. apply (restart_dies "db" (DbUp example_buffered) _ []).
  - unfold lock_free. cbn [fs]. destruct (now _); apply not_elem_of_empty.
Defined.
