(* ===== verification/CliTheorems.v ===== *)
(** * The command-line tool: the theorems

    The command [put], from the process's arguments to what a power loss leaves, the
    exit codes of all commands, and the timestamps the tool reads and prints. *)

From stdpp Require Import base tactics option numbers list strings gmap.
From Stdlib Require Import ZArith Lia.
From S2P Require Import Prelude Errors World Hoare Model View WalFile WalRecovery StorageEngine Database EngineState EngineSafety EngineContract EngineTheorems DatabaseRules DatabaseOpen DatabaseTheorems Text Tools Cli.

(** ** Arguments *)

Lemma make_series_ok m arguments n s : make_series m arguments n = Ok s -> SeriesKey_ok s.
Proof.
  unfold make_series. intros H. result_inv. apply make_SeriesKey_Ok in H as (Hm & Hnd & ->).
  split; [exact Hm|]. split.
  - cbn [tags]. rewrite sort_perm. unfold parse_tags in Ha. apply result_map_Ok in Ha. clear -Ha.
    induction Ha as [|text tag texts tags Ht _ IH]; constructor; [|done]. unfold parse_tag in Ht.
    destruct (split_at _ text) as [[before after]|]; [|done]. result_inv. by apply make_Tag_ok in Ht as [_ ?].
  - cbn [tags]. apply no_duplicate_keys_sorted; [apply sort_sorted|].
    apply adjacent_duplicate_NoDup. by rewrite sort_perm.
Qed.

Lemma parse_timestamp_ok text t : parse_timestamp text = Ok t -> in_i64 t.
Proof.
  unfold parse_timestamp. destruct (from_chars_i64 text) as [[n []]|] eqn:E; [|done..]. intros [= <-].
  by eapply from_chars_i64_range.
Qed.

(** ** [put] *)

Section Put.
Context (from_chars_double : string -> option (double * string)).
Context (show_double : double -> string) (version_string : string).

(** A [double] has 64 bits. *)
Hypothesis doubles : forall text d rest, from_chars_double text = Some (d, rest) -> in_u 64 (bits d).

(** What the arguments of [put] say. *)
Definition put_arguments (arguments : list string) : result (SeriesKey * Sample) :=
  series ← make_series (argument arguments 3) arguments 6;
  timestamp ← parse_timestamp (argument arguments 4);
  value ← parse_value from_chars_double (argument arguments 5);
  sample ← make_Sample (MkTimestamp timestamp) value;
  Ok (series, sample).

Lemma put_arguments_ok arguments s x : put_arguments arguments = Ok (s, x) -> SeriesKey_ok s /\ Sample_ok x.
Proof.
  unfold put_arguments. intros H. result_inv. subst. split; [by eapply make_series_ok|].
  apply make_Sample_Ok in Ha2 as [Hf ->]. split; [by eapply parse_timestamp_ok|]. split; [|exact Hf].
  unfold parse_value in Ha1. destruct (from_chars_double _) as [[d []]|] eqn:E; [|done..]. injection Ha1 as <-.
  by eapply doubles.
Qed.

(** The contents are the old ones, or may already hold the sample of the arguments. *)
Definition perhaps_written (dir : string) (arguments : list string) (v : view) (f : fsys) : Prop :=
  survives dir (one_view v) f \/
  exists s x, put_arguments arguments = Ok (s, x) /\ survives dir (two_views v (view_put s x v)) f.

Definition put_command_post (dir : string) (arguments : list string) (v : view) (c : Console)
    (o : outcome Z) (s' : world * Console) : Prop :=
  s'.2 = c /\
  match o with
  | Done code => code = 0 /\ exists s x, put_arguments arguments = Ok (s, x) /\
      survives dir (one_view (view_put s x v)) (fs s'.1)
  | _ => perhaps_written dir arguments v (fs s'.1)
  end.

Lemma perhaps_written_same dir arguments v f f' :
  same_files f f' -> perhaps_written dir arguments v f -> perhaps_written dir arguments v f'.
Proof.
  intros Hs [H|(s & x & Ha & H)]; [left; by eapply survives_same|right].
  exists s, x. split; [exact Ha|]. by eapply survives_same.
Qed.

Lemma wp_lift_bind {S A B} (r : result A) (k : A -> M S B) (st : S) (Q : outcome B -> S -> Prop) :
  (forall a, r = Ok a -> wp (k a) st Q) -> (forall e, r = Err e -> Q (Raised e) st) ->
  wp (a ← lift r; k a) st Q.
Proof. intros Hk He. wp_step. unfold lift, wp at 1. destruct r as [a|e]; cbn [fst snd and_then]; auto. Qed.

(** Parsing one after the other is parsing them all. *)
Lemma wp_put_arguments {S} arguments (k : SeriesKey -> Sample -> M S Z) (st : S) (Q : outcome Z -> S -> Prop) :
  (forall s x, put_arguments arguments = Ok (s, x) -> wp (k s x) st Q) ->
  (forall e, put_arguments arguments = Err e -> Q (Raised e) st) ->
  wp (series ← lift (make_series (argument arguments 3) arguments 6);
      timestamp ← lift (parse_timestamp (argument arguments 4));
      value ← lift (parse_value from_chars_double (argument arguments 5));
      sample ← lift (make_Sample (MkTimestamp timestamp) value);
      k series sample) st Q.
Proof.
  unfold put_arguments. intros Hk He.
  repeat (apply wp_lift_bind; [intros ? E|intros ? E; apply He; by rewrite E];
    rewrite E in Hk, He; cbn [mbind result_bind] in Hk, He; clear E).
  by apply Hk.
Qed.

(** What is left to do when the body of the command has ended: the database is closed. *)
Definition put_closing (dir : string) (arguments : list string) (v : view) (c : Console)
    (o : outcome Z) (t : Session) : Prop :=
  match o with
  | Crashed => put_command_post dir arguments v c Crashed (t.1, t.2.2)
  | _ => wp database_close (t.1, t.2.1) (fun oc u =>
      match oc with
      | Crashed => put_command_post dir arguments v c Crashed (u.1, t.2.2)
      | _ => put_command_post dir arguments v c o (u.1, t.2.2)
      end)
  end.

Lemma put_closing_failed dir arguments v c o w d :
  (forall code, o <> Done code) -> perhaps_written dir arguments v (fs w) ->
  put_closing dir arguments v c o (w, (d, c)).
Proof.
  intros Hno Hp. destruct o as [code|x|]; [by destruct (Hno code)| |by split].
  apply wp_database_close. intros oc u Hs _ _ _ _. cbn [fst] in Hs.
  pose proof (perhaps_written_same _ _ _ _ _ Hs Hp) as Hp'. destruct oc; by split.
Qed.

Lemma put_closing_done dir arguments v c s x w d :
  put_arguments arguments = Ok (s, x) -> survives dir (one_view (view_put s x v)) (fs w) ->
  put_closing dir arguments v c (Done 0) (w, (d, c)).
Proof.
  intros Hargs Hs. apply wp_database_close. intros oc u Hsame _ _ _ _. cbn [fst] in Hsame.
  pose proof (survives_same _ _ _ _ Hsame Hs) as Hdone.
  destruct oc as [u2|x2|]; (split; [done|]); [by eauto|by eauto|].
  right. exists s, x. split; [exact Hargs|]. revert Hdone. apply survives_mono. by right.
Qed.

Lemma wp_run_put dir arguments v w c :
  dir <> EmptyString -> argument arguments 2 = dir ->
  fs_ok (fs w) -> place_free dir (fs w) -> lock_free dir (fs w) -> leaves dir (one_view v) (fs w) ->
  log_named (fs w) dir ->
  wp (run_put from_chars_double arguments) (w, c) (put_command_post dir arguments v c).
Proof.
  intros Hdir Harg Hok Hplace Hfree Hl Hname. unfold run_put. wp_step. apply wp_throw_when; intros _; cbn [and_then].
  { split; [done|]. left. by apply leaves_survives. }
  rewrite Harg. apply wp_with_database. cbn [fst snd].
  eapply wp_mono; [by apply (wp_database_open dir default_options (one_view v) w Hdir (one_view_closed v))|].
  intros o w1 Ho. destruct o as [d|e|].
  2, 3: by split; [|left; apply Ho].
  destruct Ho as (i & e & v1 & bss & records & -> & Hd & Hv1 & Heok & Hview & Hset & Hn1 & Hf1).
  set (d := MkDatabase _) in *.
  assert (survives dir (one_view v) (fs w1)) as Hnow.
  { eapply one_view_equal; [transitivity v1; [exact Hview|exact Hv1]|]. by eapply engine_survives. }
  lazymatch goal with |- wp ?m ?st _ => change (wp m st (put_closing dir arguments v c)) end.
  apply wp_put_arguments; [|by intros x _; apply put_closing_failed; [|left]].
  intros s sample Hargs. destruct (put_arguments_ok _ _ _ Hargs) as [Hsok Hxok].
  wp_step. apply wp_in_database. cbn [fst snd].
  eapply wp_mono.
  { apply (wp_database_put dir s sample v1 bss records (w1, d) (MkImpl i e (memtable_flush_threshold_samples default_options)));
      try done. }
  intros o [w2 d2] [_ Ho]. cbn [fst snd engine] in *. apply sync_put_survives in Ho; [|done..|by apply Hn1]. cbn [fst] in Ho.
  assert (view_put s sample v1 ≡ view_put s sample v) as Hput by (apply view_put_proper; exact Hv1).
  destruct o as [u|x|]; cbn [and_then].
  - rewrite wp_ret. cbn [fst snd]. eapply put_closing_done; [exact Hargs|]. by eapply one_view_equal.
  - apply put_closing_failed; [done|]. right. exists s, sample. split; [exact Hargs|]. by eapply two_views_equal.
  - apply put_closing_failed; [done|]. right. exists s, sample. split; [exact Hargs|]. by eapply two_views_equal.
Qed.
End Put.

(** ** Exit codes *)

(** A body that prints no error and answers with an exit code for success or for
    "not found". *)
Definition answers (m : M Session Z) : Prop := forall s,
  wp m s (fun o t => cerr t.2.2 = cerr s.2.2 /\ forall code, o = Done code -> code = 0 \/ code = 2).
(** One that prints no error. *)
Definition silent {A} (m : M Session A) : Prop := forall s, cerr (m s).2.2.2 = cerr s.2.2.

Lemma silent_in_database {A} (m : M (world * Database) A) : silent (in_database m).
Proof. intros s. unfold in_database, zoom. by destruct (m (s.1, s.2.1)). Qed.

Lemma silent_lift {A} (r : result A) : silent (lift r).
Proof. intros s. by destruct r. Qed.

Lemma silent_print text : silent (print_out text).
Proof. by intros s. Qed.

Lemma silent_if {A} (b : bool) (m n : M Session A) : silent m -> silent n -> silent (if b then m else n).
Proof. by destruct b. Qed.

Lemma answers_bind {A} (m : M Session A) (f : A -> M Session Z) :
  silent m -> (forall a, answers (f a)) -> answers (m ≫= f).
Proof.
  intros Hm Hf s. rewrite wp_bind. unfold wp. specialize (Hm s). destruct (m s) as [[a|e|] s1]; cbn [fst snd and_then] in *.
  - eapply wp_mono; [apply Hf|]. intros o t [Ht Hc]. split; [congruence|exact Hc].
  - by split.
  - by split.
Qed.

Lemma answers_ret code : code = 0 \/ code = 2 -> answers (mret code).
Proof. intros Hc s. split; [done|]. by intros code' [= <-]. Qed.

Create HintDb answers.
#[export] Hint Resolve answers_bind answers_ret silent_in_database silent_lift silent_print silent_if : answers.

(** What a command does to the standard error, by its end. *)
Definition exits (m : M (world * Console) Z) : Prop := forall s,
  wp m s (fun o t =>
    match o with
    | Done code => (code = 0 \/ code = 2) /\ cerr t.2 = cerr s.2 \/ code = 1 /\ cerr t.2 <> cerr s.2
    | _ => cerr t.2 = cerr s.2
    end).

Lemma exits_with_database directory options body : answers body -> exits (with_database directory options body).
Proof.
  intros Hb s. apply wp_with_database. unfold wp at 1. destruct (database_open _ _ _) as [[d|e|] w]; [|done..]. cbn [fst snd].
  eapply wp_mono; [apply Hb|]. intros o t [Ht Hc]. cbn [fst snd] in Ht.
  destruct o as [code|e|]; [| |exact Ht]; unfold wp; destruct (database_close _) as [[u|e'|] t']; cbn [fst snd]; try exact Ht.
  all: left; split; [by apply Hc|exact Ht].
Qed.

Lemma exits_when c e m : exits m -> exits (throw_when c e;; m).
Proof. intros Hm s. rewrite wp_bind. destruct c; [done|]. apply Hm. Qed.

(** Every command keeps to the codes. *)
Lemma exits_dispatch from_chars_double show_double version arguments :
  exits (cli_dispatch from_chars_double show_double version arguments).
Proof.
  assert (forall text, exits (write_out text;; mret 0)) as Hout.
  { intros text [w c]. left. split; [by left|done]. }
  assert (forall directory options body, answers body -> forall c e,
    exits (throw_when c e;; with_database directory options body)) as Hrun.
  { intros directory options body Hb c e. by apply exits_when, exits_with_database. }
  assert (forall x, answers (print_found show_double x)) as Hfound.
  { intros [x|]; unfold print_found; auto with answers. }
  unfold cli_dispatch. destruct (size arguments <? 2).
  { intros [w c]. right. split; [done|]. apply longer_differs. discriminate. }
  repeat (case_match; [by first [apply Hout|apply Hrun; eauto 12 with answers]|]).
  intros [w c]. right. split; [done|]. 
  change (((cerr c +:+ ("chronostore: unknown command: " +:+ argument arguments 1 +:+ newline +:+ newline)) +:+ usage version)
    <> cerr c).
  rewrite <-string_app_assoc. apply longer_differs. discriminate.
Qed.

(** ** Theorems *)

(** C15: [chronostore put], from the arguments to the disk.  On a database that a power
    loss or a closed process left, with its log's name on stable storage, the process
    ends with exit code 0 or 1 and never with an exception.  0 means that the
    arguments parse as a series and a sample and that, after any power loss, the
    database holds that sample and otherwise what it held; 1 comes with a message, and
    the database holds the old contents, or perhaps the new ones.  Nothing is printed
    on the standard output. *)
Theorem cli_put_spec from_chars_double show_double version program dir rest v w c o s' :
  (forall text d rest, from_chars_double text = Some (d, rest) -> in_u 64 (bits d)) ->
  dir <> EmptyString -> fs_ok (fs w) -> place_free dir (fs w) -> lock_free dir (fs w) ->
  leaves dir (one_view v) (fs w) -> log_named (fs w) dir ->
  cli_main from_chars_double show_double version (program :: "put" :: dir :: rest) (w, c) = (o, s') ->
  cout s'.2 = cout c /\
  match o with
  | Done code =>
    (code = 0 /\ s'.2 = c /\ exists s x,
       put_arguments from_chars_double (program :: "put" :: dir :: rest) = Ok (s, x) /\
       survives dir (one_view (view_put s x v)) (fs s'.1)) \/
    (code = 1 /\ cerr s'.2 <> cerr c /\ perhaps_written from_chars_double dir (program :: "put" :: dir :: rest) v (fs s'.1))
  | Raised _ => False
  | Crashed => perhaps_written from_chars_double dir (program :: "put" :: dir :: rest) v (fs s'.1)
  end.
Proof.
  intros Hdoubles Hdir Hok Hplace Hfree Hl Hname Hrun. set (arguments := program :: "put" :: dir :: rest) in *.
  pose proof (wp_run_put from_chars_double Hdoubles dir arguments v w c Hdir eq_refl Hok Hplace Hfree Hl Hname) as Hw.
  assert (cli_dispatch from_chars_double show_double version arguments (w, c) = run_put from_chars_double arguments (w, c)) as Hd.
  { unfold cli_dispatch. assert ((size arguments <? 2) = false) as ->; [|reflexivity].
    apply Z.ltb_ge. unfold arguments. rewrite !size_cons. pose proof (size_nonneg rest). lia. }
  unfold cli_main in Hrun. rewrite Hd in Hrun. unfold wp in Hw.
  destruct (run_put from_chars_double arguments (w, c)) as [[code|e|] [w1 c1]]; cbn [fst snd] in Hw, Hrun.
  - injection Hrun as <- <-. destruct Hw as (Hc & -> & s & x & Ha & Hs). cbn [fst snd] in *. subst c1.
    split; [done|]. left. split; [done|]. split; [done|]. eauto.
  - destruct Hw as [Hc Hp]. cbn [fst snd] in *. subst c1. injection Hrun as <- <-. cbn [fst snd cout cerr].
    split; [done|]. right. split; [done|]. split; [|exact Hp]. apply longer_differs. discriminate.
  - injection Hrun as <- <-. destruct Hw as [Hc Hp]. cbn [fst snd] in *. subst c1. split; [done|exact Hp].
Qed.

(** Reading one decimal, the number 1, is enough for an example. *)
Definition example_double (text : string) : option (double * string) :=
  if bool_decide (text = "1") then Some (MkDouble 4607182418800017408, EmptyString) else None.
Definition example_show (d : double) : string := "1".
Definition example_arguments : list string := ["chronostore"; "put"; "db"; "cpu"; "1"; "1"; "host=a"].
Definition example_cli : outcome Z * (world * Console) :=
  cli_main example_double example_show "0.1.0" example_arguments (World example_disk [], MkConsole EmptyString EmptyString).

Lemma example_doubles text d rest : example_double text = Some (d, rest) -> in_u 64 (bits d).
Proof. unfold example_double. case_bool_decide; [|done]. by intros [= <- _]. Qed.

Lemma cli_run_eta (r : outcome Z * (world * Console)) o : r.1 = o -> r = (o, r.2).
Proof. destruct r. by intros [= ->]. Qed.

Lemma cli_put_spec_witness :
  example_cli.1 = Done 0 /\
  exists s x, put_arguments example_double example_arguments = Ok (s, x) /\
    survives "db" (one_view (view_put s x view_empty)) (fs example_cli.2.1).
Proof.
  assert (example_cli.1 = Done 0) as Hdone by (vm_compute; reflexivity). split; [exact Hdone|].
  destruct (cli_put_spec example_double example_show "0.1.0" "chronostore" "db" ["cpu"; "1"; "1"; "host=a"] view_empty
    (World example_disk []) (MkConsole EmptyString EmptyString) (Done 0) example_cli.2 example_doubles
    ltac:(discriminate) (single_file_ok _ _) eq_refl example_lock_free example_left (ex_intro _ 0%nat eq_refl)
    (cli_run_eta example_cli (Done 0) Hdone)) as [_ [(_ & _ & H)|([=] & _)]].
  exact H.
Defined.

(** Timestamps round trip.  The tool prints every 64-bit timestamp in a form that
    it reads as the same timestamp, and it accepts no text for a number outside the
    64-bit range. *)
Theorem parse_timestamp_roundtrip t :
  (in_i64 t -> parse_timestamp (show_integer t) = Ok t) /\
  (forall text, parse_timestamp text = Ok t -> in_i64 t).
Proof.
  split; [|intros text; apply parse_timestamp_ok]. intros Ht. unfold parse_timestamp. by rewrite from_chars_show.
Qed.

(** C19: the exit codes of the tool.  For any arguments, database and behaviour of the
    operating system, the process ends with code 0, 1 or 2 and no exception, unless
    the power goes: 1 exactly if something was written on the standard error, and
    with 0 and 2 nothing was. *)
Theorem cli_exit_codes from_chars_double show_double version arguments s o s' :
  cli_main from_chars_double show_double version arguments s = (o, s') ->
  match o with
  | Done code => (code = 0 \/ code = 2) /\ cerr s'.2 = cerr s.2 \/ code = 1 /\ cerr s'.2 <> cerr s.2
  | Raised _ => False
  | Crashed => cerr s'.2 = cerr s.2
  end.
Proof.
  intros Hrun. pose proof (exits_dispatch from_chars_double show_double version arguments s) as Hw.
  unfold cli_main in Hrun. unfold wp in Hw.
  destruct (cli_dispatch _ _ _ _ _) as [[code|e|] [w1 c1]]; cbn [fst snd] in *; injection Hrun as <- <-; cbn [snd cerr]; try exact Hw.
  right. split; [done|]. rewrite <-Hw. apply longer_differs. discriminate.
Qed.

Lemma cli_exit_codes_witness :
  match example_cli.1 with
  | Done code => (code = 0 \/ code = 2) /\ cerr example_cli.2.2 = EmptyString \/ code = 1 /\ cerr example_cli.2.2 <> EmptyString
  | Raised _ => False
  | Crashed => cerr example_cli.2.2 = EmptyString
  end.
Proof.
  exact (cli_exit_codes example_double example_show "0.1.0" example_arguments
    (World example_disk [], MkConsole EmptyString EmptyString) example_cli.1 example_cli.2 (surjective_pairing _)).
Defined.
