(* ===== verification/Termination.v ===== *)
(** * Every loop ends by itself

    Three loops of the sources are not structural and are translated with a bound on
    their turns that throws [out_of_fuel]: [write_all], the replay of the log and the
    cutting of a series into blocks.  Here no operation ever throws it, in any state
    and for any behaviour of the operating system, so the bounds only make the
    definitions acceptable to the kernel.  (The retries of an interrupted call have a
    bound too; [World.retry_interrupted_loop] shows that it is never reached.) *)

From stdpp Require Import base tactics option numbers list strings gmap.
From Stdlib Require Import ZArith Lia.
From S2P Require Import Prelude Errors World Hoare Model ByteCodec KeyCodec MemTable WalRecord FileIo WalFile WalRecovery SegmentBlock Manifest SegmentFile SegmentFormat StorageEngine Database.

(** ** Computations that no bound cuts short *)

Definition uncut_result {A} (r : result A) : Prop := r <> Err out_of_fuel.
Definition uncut {S A} (m : M S A) : Prop := forall s, (m s).1 <> Raised out_of_fuel.

Create HintDb uncut.

Section Rules.
Context {S A B : Type}.

Lemma uncut_result_bind (m : result A) (f : A -> result B) :
  uncut_result m -> (forall a, uncut_result (f a)) -> uncut_result (m ≫= f).
Proof. destruct m as [a|e]; [intros _ Hf; apply Hf|]. unfold uncut_result. simpl. congruence. Qed.

Lemma uncut_throw_if c e : e <> out_of_fuel -> uncut_result (throw_if c e).
Proof. intros He. destruct c; unfold uncut_result; simpl; congruence. Qed.

Lemma uncut_bind (m : M S A) (f : A -> M S B) : uncut m -> (forall a, uncut (f a)) -> uncut (m ≫= f).
Proof.
  intros Hm Hf s. unfold mbind, M_bind. specialize (Hm s). destruct (m s) as [[a|e|] s']; [apply Hf| |done]. simpl in *. congruence.
Qed.

Lemma uncut_lift (r : result A) : uncut_result r -> uncut (lift r : M S A).
Proof. intros Hr s. unfold lift. destruct r as [a|e]; [done|]. unfold uncut_result in Hr. simpl. congruence. Qed.

Lemma uncut_throw_when c e : e <> out_of_fuel -> uncut (throw_when c e : M S unit).
Proof. intros He s. destruct c; simpl; congruence. Qed.

Lemma uncut_on_exception (m : M S A) h : uncut m -> uncut h -> uncut (on_exception m h).
Proof.
  intros Hm Hh s. unfold on_exception. specialize (Hm s). destruct (m s) as [[a|e|] s1]; [done| |done].
  specialize (Hh s1). destruct (h s1) as [[u|e'|] s2]; simpl in *; congruence.
Qed.

Lemma uncut_zoom {T} (view : S -> T) update (m : M T A) : uncut m -> uncut (zoom view update m).
Proof. intros Hm s. unfold zoom. specialize (Hm (view s)). by destruct (m (view s)). Qed.
End Rules.

Lemma uncut_with_object {T A} (object : T) (m : M (world * T) A) : uncut m -> uncut (with_object object m).
Proof. intros Hm w. unfold with_object. specialize (Hm (w, object)). by destruct (m (w, object)). Qed.

Lemma uncut_result_map {A B} (f : A -> result B) l : (forall a, uncut_result (f a)) -> uncut_result (result_map f l).
Proof.
  intros Hf. induction l as [|a l IH]; [done|]. apply uncut_result_bind; [apply Hf|]. intros b.
  apply uncut_result_bind; [exact IH|done].
Qed.

Lemma uncut_result_foldl {A B} (f : A -> B -> result A) l a :
  (forall a b, uncut_result (f a b)) -> uncut_result (result_foldl f a l).
Proof. intros Hf. revert a. induction l as [|b l IH]; intros a; [done|]. by apply uncut_result_bind. Qed.

(** An exception of the sources is not the one of the bound. *)
Ltac other_exception := first [discriminate | intros [=]; done].

Ltac uncut_step :=
  match goal with
  | |- forall _, _ => intros ?
  | |- uncut_result (_ ≫= _) => apply uncut_result_bind
  | |- uncut_result (throw_if _ _) => apply uncut_throw_if; other_exception
  | |- uncut_result (Ok _) => discriminate
  | |- uncut_result (mret _) => discriminate
  | |- uncut_result (Err _) => unfold uncut_result; other_exception
  | |- uncut_result (result_map _ _) => apply uncut_result_map
  | |- uncut_result (result_foldl _ _ _) => apply uncut_result_foldl
  | |- uncut (_ ≫= _) => apply uncut_bind
  | |- uncut (mret _) => by intros ?
  | |- uncut (throw _) => intros ?; simpl; other_exception
  | |- uncut (throw_when _ _) => apply uncut_throw_when; other_exception
  | |- uncut (lift _) => apply uncut_lift
  | |- uncut (on_exception _ _) => apply uncut_on_exception
  | |- uncut (zoom _ _ _) => apply uncut_zoom
  | |- uncut (in_world _) => apply uncut_zoom
  | |- uncut (in_wal _) => apply uncut_zoom
  | |- uncut (with_object _ _) => apply uncut_with_object
  | |- uncut (modify _) => by intros ?
  | |- uncut (set_this _) => by intros ?
  | |- uncut this => by intros ?
  | |- _ (match ?x with _ => _ end) => destruct x
  | |- _ => solve [eauto with uncut]
  end.
Ltac uncut := repeat uncut_step.

(** ** Pure functions *)

Lemma uncut_not_err {A} (r : result A) : (forall e, r <> Err e) -> uncut_result r.
Proof. intros H. apply H. Qed.

Lemma uncut_length_error {A} (r : result A) : (forall e, r = Err e -> exists what, e = length_error what) -> uncut_result r.
Proof. intros H He. by destruct (H _ He). Qed.

Lemma uncut_only_invalid {A} (p : Parser A) r : only_invalid p -> uncut_result (p r).
Proof. intros Hp He. by destruct (Hp _ _ He). Qed.

Lemma uncut_make_Tag k v : uncut_result (make_Tag k v).
Proof. unfold make_Tag. uncut. Qed.
Lemma uncut_make_SeriesKey m ts : uncut_result (make_SeriesKey m ts).
Proof. unfold make_SeriesKey. uncut. Qed.
Lemma uncut_make_Sample t v : uncut_result (make_Sample t v).
Proof. unfold make_Sample. uncut. Qed.
Lemma uncut_make_SegmentBlock s l : uncut_result (make_SegmentBlock s l).
Proof. unfold make_SegmentBlock. uncut. Qed.
Lemma uncut_read_u32 r : uncut_result (read_u32 r).
Proof. apply uncut_not_err. intros e. apply quiet_read_u32. Qed.
Lemma uncut_write_string what w s : uncut_result (write_string_or what w s).
Proof. apply uncut_length_error. intros e. apply write_string_throws. Qed.
Lemma uncut_write_tags what w ts : uncut_result (write_tags_or what w ts).
Proof. apply uncut_length_error. intros e. apply write_tags_throws. Qed.
Lemma uncut_write_key what many w s : uncut_result (write_key_or what many w s).
Proof. apply uncut_length_error. intros e. apply write_key_throws. Qed.
#[export] Hint Resolve uncut_make_Tag uncut_make_SeriesKey uncut_make_Sample uncut_make_SegmentBlock
  uncut_read_u32 uncut_write_string uncut_write_tags uncut_write_key : uncut.

(** The codecs. *)
Lemma uncut_encode_wal_record r : uncut_result (encode_wal_record r).
Proof. unfold encode_wal_record, encode_payload, write_string. uncut. Qed.

Lemma uncut_decode_wal_record bytes : uncut_result (decode_wal_record bytes).
Proof. destruct (decode_wal_record_cases bytes) as (d & -> & _). discriminate. Qed.

Lemma uncut_encode_segment_block b : uncut_result (encode_segment_block b).
Proof. unfold encode_segment_block, encode_block_payload. uncut. Qed.

Lemma uncut_decode_segment_block bytes : uncut_result (decode_segment_block bytes).
Proof. destruct (decode_segment_block_cases bytes) as (d & -> & _). discriminate. Qed.

Lemma uncut_validate_names u names : uncut_result (validate_names u names).
Proof. revert u. induction names as [|n names IH]; intros u; cbn [validate_names]; uncut. Qed.
#[export] Hint Resolve uncut_validate_names : uncut.

Lemma uncut_encode_manifest m : uncut_result (encode_manifest m).
Proof. unfold encode_manifest, validate_state, write_filenames, Manifest.write_string. uncut. Qed.

Lemma uncut_decode_manifest bytes : uncut_result (decode_manifest bytes).
Proof.
  destruct (decode_manifest_cases bytes) as [(s & -> & _)|(what & ->)]; unfold uncut_result; other_exception.
Qed.
#[export] Hint Resolve uncut_encode_wal_record uncut_decode_wal_record uncut_encode_segment_block
  uncut_decode_segment_block uncut_encode_manifest uncut_decode_manifest : uncut.

(** Segment files. *)
Lemma uncut_format_error {A} (r : result A) : format_error r -> uncut_result r.
Proof. intros (what & ->). unfold uncut_result. other_exception. Qed.

Lemma uncut_decode_header bytes : uncut_result (decode_header bytes).
Proof. destruct (decode_header_cases bytes) as [(e & -> & _)|H]; [discriminate|by apply uncut_format_error]. Qed.

Lemma uncut_decode_footer bytes : uncut_result (decode_footer bytes).
Proof. destruct (decode_footer_cases bytes) as [(e & -> & _)|H]; [discriminate|by apply uncut_format_error]. Qed.

Lemma uncut_read_entries n acc r : uncut_result (read_entries n acc r).
Proof.
  revert acc r. induction n as [|n IH]; intros acc r; cbn [read_entries]; uncut.
  - apply uncut_not_err. intros e. apply quiet_read_entry_fields.
  - apply uncut_not_err. intros e. apply quiet_read_series_key.
Qed.

Lemma uncut_validate_entries previous expected entries off : uncut_result (validate_entries previous expected entries off).
Proof. revert previous expected. induction entries as [|e entries IH]; intros previous expected; cbn [validate_entries]; uncut. Qed.
#[export] Hint Resolve uncut_decode_header uncut_decode_footer uncut_read_entries uncut_validate_entries : uncut.

Lemma uncut_decode_index bytes count off : uncut_result (decode_index bytes count off).
Proof.
  unfold decode_index, validate_index. uncut. apply uncut_not_err. intros e. apply quiet_read_index_header.
Qed.

Lemma uncut_segment_file_bytes bs : uncut_result (segment_file_bytes bs).
Proof.
  unfold segment_file_bytes, validate_blocks, append_block, encode_index, write_entry, write_series_key, write_string. uncut.
Qed.
#[export] Hint Resolve uncut_decode_index uncut_segment_file_bytes : uncut.

(** The MemTable. *)
Lemma uncut_memtable_get m s t : uncut_result (memtable_get m s t).
Proof. unfold memtable_get. uncut. Qed.
Lemma uncut_memtable_latest m s : uncut_result (memtable_latest m s).
Proof. unfold memtable_latest. uncut. Qed.
Lemma uncut_range_from l c : uncut_result (range_from l c).
Proof. induction l as [|[t v] l IH]; cbn [range_from]; uncut. Qed.
#[export] Hint Resolve uncut_range_from : uncut.
Lemma uncut_memtable_range m s a c : uncut_result (memtable_range m s a c).
Proof. unfold memtable_range. uncut. Qed.
Lemma uncut_memtable_snapshot m : uncut_result (memtable_snapshot m).
Proof. unfold memtable_snapshot. uncut. Qed.
Lemma uncut_samples_from l : uncut_result (samples_from l).
Proof. induction l as [|[t v] l IH]; cbn [samples_from]; uncut. Qed.
#[export] Hint Resolve uncut_memtable_get uncut_memtable_latest uncut_memtable_range uncut_memtable_snapshot
  uncut_samples_from : uncut.
Lemma uncut_snapshots_of merged acc n : uncut_result (snapshots_of merged acc n).
Proof. revert acc n. induction merged as [|[s l] merged IH]; intros acc n; cbn [snapshots_of]; uncut. Qed.
#[export] Hint Resolve uncut_snapshots_of : uncut.

(** ** The loops with a bound *)

(** Every turn takes at least one sample. *)
Lemma uncut_snapshot_blocks fuel s samples k :
  0 <= k -> size samples - k <= Z.of_nat fuel -> uncut_result (snapshot_blocks fuel s samples k).
Proof.
  revert k. induction fuel as [|fuel IH]; intros k Hk Hfuel; cbn [snapshot_blocks];
    destruct (k <? size samples) eqn:E; bool_to_prop; simpl negb; cbv iota; try discriminate; [lia|].
  apply uncut_result_bind; [eauto with uncut|]. intros b. apply uncut_result_bind; [|uncut].
  apply IH; unfold max_samples_per_segment_block; lia.
Qed.

Lemma uncut_blocks_from_snapshots l : uncut_result (blocks_from_snapshots l).
Proof.
  induction l as [|x l IH]; cbn [blocks_from_snapshots]; uncut.
  apply uncut_snapshot_blocks; [lia|]. unfold size. lia.
Qed.
#[export] Hint Resolve uncut_blocks_from_snapshots : uncut.

Lemma uncut_make_memtable_blocks e : uncut_result (make_memtable_blocks e).
Proof. unfold make_memtable_blocks. uncut. Qed.

Lemma uncut_next_segment_filename e : uncut_result (next_segment_filename e).
Proof. unfold next_segment_filename. uncut. Qed.
#[export] Hint Resolve uncut_make_memtable_blocks uncut_next_segment_filename : uncut.

(** Every turn of [write_all] but the last uses an answer of the script. *)
Lemma uncut_write_all i bytes : uncut (write_all i bytes).
Proof.
  intros w Hcut. pose proof (wp_write_all i bytes w) as Hw. unfold wp in Hw. rewrite Hcut in Hw.
  by destruct Hw as [[[(errno & _ & [=])|[=]] _] _].
Qed.

(** The system calls throw nothing. *)
Lemma uncut_next_outcome : uncut next_outcome.
Proof. intros w. unfold next_outcome. by destruct (script w). Qed.
Lemma uncut_read_fs {A} (f : fsys -> A) : uncut (read_fs f).
Proof. by intros w. Qed.
Lemma uncut_lose_power {A} : uncut (lose_power : M world A).
Proof. by intros w. Qed.
#[export] Hint Resolve uncut_write_all uncut_next_outcome uncut_read_fs uncut_lose_power : uncut.

Lemma uncut_sys_change {A} (f : fsys -> sysret A * fsys) : uncut (sys_change f).
Proof. unfold sys_change, modify_fs. uncut. Qed.
Lemma uncut_sys_settle f : uncut (sys_settle f).
Proof. unfold sys_settle, modify_fs. uncut. Qed.
Lemma uncut_sys_query {A} (f : fsys -> sysret A) : uncut (sys_query f).
Proof. unfold sys_query. uncut. Qed.
Lemma uncut_sys_write i bytes : uncut (sys_write i bytes).
Proof. unfold sys_write, modify_fs. uncut. Qed.
#[export] Hint Resolve uncut_sys_change uncut_sys_settle uncut_sys_query uncut_sys_write : uncut.

(** An interrupted call is repeated as often as the script interrupts it. *)
Lemma uncut_retry_interrupted {A} (call : M world (sysret A)) : uncut call -> uncut (retry_interrupted call).
Proof.
  intros Hc w. unfold retry_interrupted. generalize (length (script w)) as n. intros n. revert w.
  change (uncut (retry_loop n call)). induction n as [|n IH]; cbn [retry_loop]; uncut.
Qed.
#[export] Hint Resolve uncut_retry_interrupted : uncut.
#[export] Hint Extern 1 (uncut (sys_fsync _)) => apply uncut_sys_settle : uncut.
#[export] Hint Extern 1 (uncut (sys_fsync_directory _)) => apply uncut_sys_settle : uncut.
#[export] Hint Extern 2 (uncut _) => apply uncut_sys_query : uncut.
#[export] Hint Extern 2 (uncut _) => apply uncut_sys_change : uncut.

(** ** Files *)

Lemma uncut_sync_descriptor i : uncut (sync_descriptor i).
Proof. unfold sync_descriptor. uncut. Qed.
Lemma uncut_close_descriptor : uncut close_descriptor.
Proof. unfold close_descriptor. uncut. Qed.
Lemma uncut_ignored_close : uncut ignored_close.
Proof. unfold ignored_close. uncut. Qed.
#[export] Hint Resolve uncut_sync_descriptor uncut_close_descriptor uncut_ignored_close : uncut.

Lemma uncut_sync_file p : uncut (sync_file p).
Proof. unfold sync_file, sync_file_with, open_for_sync. uncut. Qed.
Lemma uncut_replace_file t p : uncut (replace_file t p).
Proof. unfold replace_file, replace_file_with, open_directory_for_sync. uncut. Qed.
Lemma uncut_file_size_bytes p : uncut (file_size_bytes p).
Proof. unfold file_size_bytes. uncut. Qed.
Lemma uncut_read_file_bytes p off n : uncut (read_file_bytes p off n).
Proof. unfold read_file_bytes. uncut. Qed.
#[export] Hint Resolve uncut_sync_file uncut_replace_file uncut_file_size_bytes uncut_read_file_bytes : uncut.

Lemma uncut_atomic_write_file p bytes : uncut (atomic_write_file p bytes).
Proof. unfold atomic_write_file, atomic_write_file_with, stream_write, stream_close. uncut. Qed.
#[export] Hint Resolve uncut_atomic_write_file : uncut.

(** ** The log *)

Lemma uncut_wal_open p d : uncut (wal_open p d).
Proof. unfold wal_open, open_for_append, sys_open_create, find_file_end, throw_file_error. uncut. Qed.
Lemma uncut_wal_ensure_usable : uncut wal_ensure_usable.
Proof. unfold wal_ensure_usable. uncut. Qed.
Lemma uncut_set_failed : uncut set_failed.
Proof. unfold set_failed. uncut. Qed.
Lemma uncut_wal_close : uncut wal_close.
Proof. unfold wal_close. uncut. Qed.
#[export] Hint Resolve uncut_wal_open uncut_wal_ensure_usable uncut_set_failed uncut_wal_close : uncut.

Lemma uncut_wal_sync : uncut wal_sync.
Proof. unfold wal_sync, synchronize_file, throw_file_error. uncut. Qed.
#[export] Hint Resolve uncut_wal_sync : uncut.

Lemma uncut_wal_append r : uncut (wal_append r).
Proof. unfold wal_append, set_size_bytes. uncut. Qed.
Lemma uncut_wal_reset : uncut wal_reset.
Proof. unfold wal_reset, truncate_file, synchronize_file, throw_file_error, set_size_bytes. uncut. Qed.
#[export] Hint Resolve uncut_wal_append uncut_wal_reset : uncut.

Lemma uncut_repair_wal_tail p r : uncut (repair_wal_tail p r).
Proof. unfold repair_wal_tail. uncut. Qed.
#[export] Hint Resolve uncut_repair_wal_tail : uncut.

(** Replay, for any decoder and callback that themselves end and leave the files. *)
Section Replay.
Context {A : Type} (decode : list byte -> result WalDecodeResult) (chunk_size : Z).
Context (replay : WalPutRecord -> M (world * A) unit).
Hypothesis decode_ends : forall bytes, uncut_result (decode bytes).
Hypothesis decode_sizes : forall bytes d, decode bytes = Ok d -> 0 <= bytes_consumed d.
Hypothesis replay_ends : forall r, uncut (replay r).
Hypothesis replay_looks : forall r s, fs (replay r s).2.1 = fs s.1.
Hypothesis chunk_positive : 0 < chunk_size.

Definition ends_uncut {B} (o : outcome B) (_ : world * A) : Prop := o <> Raised out_of_fuel.

(** A refill comes closer to the end of the file. *)
Lemma uncut_refill file i offset buffer consumed s (next : bool -> list byte -> Z -> M (world * A) WalReplayResult) :
  now (inode (fs s.1) i) = file -> 0 <= offset <= size file -> 0 <= consumed <= size buffer ->
  (forall w1 reached_end buffer' offset', fs w1 = fs s.1 -> 0 <= offset' <= size file ->
     measure file buffer' offset' 0 reached_end < measure file buffer offset consumed false ->
     wp (next reached_end buffer' offset') (w1, s.2) ends_uncut) ->
  wp ('(reached_end, buffer, offset) ← in_world (read_next_chunk chunk_size i offset
        (remove_consumed_prefix buffer consumed));
      next reached_end buffer offset) s ends_uncut.
Proof using chunk_positive.
  intros Hfile Ho Hc Hnext. rewrite remove_consumed_prefix_drop by done.
  wp_step. apply wp_in_world. unfold read_next_chunk. wp_step. apply wp_sys_query.
  - intros w1 Hf _. rewrite Hfile. wp_go. cbn [fst snd].
    assert (size (subspan offset chunk_size file) = Z.min chunk_size (size file - offset)) as Hsize.
    { unfold subspan, size in *. rewrite length_take, length_drop. lia. }
    apply Hnext; [done|lia|]. unfold measure. rewrite size_app, size_drop by done.
    destruct (size (subspan offset chunk_size file) <? chunk_size) eqn:E; bool_to_prop; lia.
  - intros errno w1 _ _. cbn [and_then]. unfold throw_read_error. rewrite wp_throw. unfold ends_uncut. other_exception.
  - done.
Qed.

Lemma uncut_replay_loop fuel i file : forall offset buffer consumed reached_end result s,
  now (inode (fs s.1) i) = file -> 0 <= offset <= size file -> 0 <= consumed <= size buffer ->
  measure file buffer offset consumed reached_end < Z.of_nat fuel ->
  wp (replay_loop decode chunk_size replay fuel i offset buffer consumed reached_end result) s ends_uncut.
Proof using decode_ends decode_sizes replay_ends replay_looks chunk_positive.
  induction fuel as [|fuel IH]; intros offset buffer consumed reached_end result s Hfile Ho Hc Hfuel.
  { unfold measure in Hfuel. destruct reached_end; lia. }
  assert (reached_end = false -> wp ('(reached_end, buffer, offset) ← in_world (read_next_chunk chunk_size i offset
        (remove_consumed_prefix buffer consumed));
      replay_loop decode chunk_size replay fuel i offset buffer 0 reached_end result) s ends_uncut) as Hrefill.
  { intros ->. apply (uncut_refill file i offset buffer consumed s
      (fun reached_end buffer offset => replay_loop decode chunk_size replay fuel i offset buffer 0 reached_end result));
      try done.
    intros w1 reached_end buffer' offset' Hf Ho' Hm. pose proof (size_nonneg buffer').
    apply IH; cbn [fst]; [congruence|lia|lia|lia]. }
  cbn [replay_loop]. destruct (consumed <? size buffer) eqn:E; bool_to_prop.
  2:{ destruct reached_end; [done|by apply Hrefill]. }
  set (available := drop (Z.to_nat consumed) buffer). assert (size available = size buffer - consumed) as Hsize
    by (apply size_drop; lia).
  wp_step. pose proof (decode_ends available) as Hd. apply wp_lift; [|intros e He; unfold ends_uncut; simpl; congruence].
  intros decoded Hdec. cbn [and_then]. destruct (success decoded).
  - wp_step. apply wp_throw_when; [intros _; unfold ends_uncut; simpl; other_exception|]. intros Hn. cbn [and_then].
    bool_to_prop. destruct (record decoded) as [r|]; [|unfold ends_uncut; rewrite wp_throw; other_exception].
    wp_step. unfold wp at 1. pose proof (replay_ends r s) as Hr. pose proof (replay_looks r s) as Hfs.
    destruct (replay r s) as [[u|e|] s1]; cbn [fst snd and_then] in *;
      [|unfold ends_uncut; congruence|done].
    unfold measure in *. pose proof (decode_sizes _ _ Hdec) as Hpos.
    destruct (consumed + bytes_consumed decoded =? size buffer) eqn:Eend; bool_to_prop.
    + apply IH; [congruence|done|done|]. change (size (@nil byte)) with 0. lia.
    + apply IH; [congruence|done|lia|lia].
  - destruct (negb _); [unfold ends_uncut; rewrite wp_throw; other_exception|].
    destruct reached_end; [done|by apply Hrefill].
Qed.

Lemma uncut_replay_file p : uncut (replay_file decode chunk_size replay p).
Proof using decode_ends decode_sizes replay_ends replay_looks chunk_positive.
  intros s. change (wp (replay_file decode chunk_size replay p) s ends_uncut). unfold replay_file.
  wp_step. apply wp_in_world, wp_sys_query.
  - intros w1 Hf _. cbn [and_then].
    destruct (now (entry (fs s.1) p)) as [i|];
      [|unfold throw_read_error, ends_uncut; rewrite wp_throw; other_exception].
    wp_step. apply wp_in_world. unfold read_fs, wp at 1. cbn [fst snd and_then].
    pose proof (size_nonneg (now (inode (fs w1) i))).
    apply uncut_replay_loop with (file := now (inode (fs w1) i)); [done|lia|unfold size; simpl; lia|].
    unfold measure, replay_fuel, size. simpl. lia.
  - intros errno w1 _ _. cbn [and_then]. unfold throw_read_error, ends_uncut. rewrite wp_throw. other_exception.
  - done.
Qed.
End Replay.

(** Reading calls leave the files as they are. *)
Definition looks {A} (m : M world A) : Prop := forall w, fs (m w).2 = fs w.

Lemma looks_bind {A B} (m : M world A) (f : A -> M world B) : looks m -> (forall a, looks (f a)) -> looks (m ≫= f).
Proof.
  intros Hm Hf w. unfold mbind, M_bind. specialize (Hm w). destruct (m w) as [[a|e|] w1]; cbn [snd] in *; [|done..].
  by rewrite Hf.
Qed.

Lemma looks_sys_query {A} (f : fsys -> sysret A) : looks (sys_query f).
Proof. intros w. change (wp (sys_query f) w (fun _ w1 => fs w1 = fs w)). by apply wp_sys_query. Qed.

Lemma looks_read_block r e : looks (read_block r e).
Proof.
  assert (forall A (a : A), looks (mret a)) as Hret by done.
  assert (forall A x, looks (throw x : M world A)) as Hthrow by done.
  assert (forall c x, looks (throw_when c x)) as Hwhen by by intros [] ? ?.
  unfold read_block, read_file_bytes. apply looks_bind.
  - do 2 (apply looks_bind; [apply Hwhen|intros _]). apply looks_bind; [apply looks_sys_query|]. intros [i|error]; [|done].
    apply looks_bind; [apply looks_sys_query|]. intros [u|error]; [|done]. destruct (_ =? 0); [done|].
    apply looks_bind; [apply looks_sys_query|]. intros [bytes|error]; [|done].
    apply looks_bind; [apply Hwhen|done].
  - intros bytes. apply looks_bind; [intros w; by destruct (decode_segment_block bytes)|]. intros d.
    destruct (block d); [|done]. apply looks_bind; [apply Hwhen|done].
Qed.

Lemma looks_contains segments s t : looks (contains_in_segments segments s t).
Proof.
  unfold contains_in_segments. induction (rev segments) as [|r l IH]; [done|]. cbn [any_segment_has].
  apply looks_bind; [|by intros [x|]]. unfold segment_get.
  induction (entries_from r s) as [|entry entries IHe]; [done|]. cbn [segment_get_loop].
  destruct (negb _); [done|]. destruct (t ≺? _); [done|]. destruct (_ ≺? t); [exact IHe|].
  apply looks_bind; [apply looks_read_block|]. intros b. by destruct (drop _ _).
Qed.

(** ** The engine *)

Lemma uncut_read_block r e : uncut (read_block r e).
Proof. unfold read_block, block_mismatch. uncut. Qed.
Lemma uncut_open_segment p : uncut (open_segment p).
Proof. unfold open_segment. uncut. Qed.
Lemma uncut_write_segment_file p bs : uncut (write_segment_file p bs).
Proof. unfold write_segment_file. uncut. Qed.
Lemma uncut_load_manifest dir : uncut (load_manifest dir).
Proof. unfold load_manifest. uncut. Qed.
Lemma uncut_store_manifest dir m : uncut (store_manifest dir m).
Proof. unfold store_manifest. uncut. Qed.
#[export] Hint Resolve uncut_read_block uncut_open_segment uncut_write_segment_file uncut_load_manifest
  uncut_store_manifest : uncut.

Lemma uncut_segment_get r s t : uncut (segment_get r s t).
Proof.
  unfold segment_get. induction (entries_from r s) as [|entry entries IH]; cbn [segment_get_loop]; uncut.
Qed.
Lemma uncut_segment_latest r s : uncut (segment_latest r s).
Proof. unfold segment_latest. uncut. Qed.
Lemma uncut_segment_range_loop r entries s a c acc : uncut (segment_range_loop r entries s a c acc).
Proof. revert acc. induction entries as [|entry entries IH]; intros acc; cbn [segment_range_loop]; uncut. Qed.
#[export] Hint Resolve uncut_segment_range_loop : uncut.
Lemma uncut_segment_range r s a c : uncut (segment_range r s a c).
Proof. unfold segment_range. uncut. Qed.
Lemma uncut_segment_blocks r : uncut (segment_blocks r).
Proof. unfold segment_blocks. induction (reader_index r) as [|e l IH]; cbn [read_blocks]; uncut. Qed.
#[export] Hint Resolve uncut_segment_get uncut_segment_latest uncut_segment_range uncut_segment_blocks : uncut.

Lemma uncut_contains_in_segments l s t : uncut (contains_in_segments l s t).
Proof. unfold contains_in_segments. induction (rev l) as [|r k IH]; cbn [any_segment_has]; uncut. Qed.
Lemma uncut_get_in_segments l s t : uncut (get_in_segments l s t).
Proof. induction l as [|r l IH]; cbn [get_in_segments]; uncut. Qed.
Lemma uncut_latest_in_segments l s best : uncut (latest_in_segments l s best).
Proof. revert best. induction l as [|r l IH]; intros best; cbn [latest_in_segments]; uncut. Qed.
Lemma uncut_merge_ranges merged l s a c : uncut (merge_ranges merged l s a c).
Proof. revert merged. induction l as [|r l IH]; intros merged; cbn [merge_ranges]; uncut. Qed.
Lemma uncut_merge_segments merged l : uncut (merge_segments merged l).
Proof. revert merged. induction l as [|r l IH]; intros merged; cbn [merge_segments]; uncut. Qed.
Lemma uncut_open_segments dir names l n : uncut (open_segments dir names l n).
Proof. revert l n. induction names as [|name names IH]; intros l n; cbn [open_segments]; uncut. Qed.
Lemma uncut_remove_orphans live l : uncut (remove_orphans live l).
Proof. induction l as [|p l IH]; cbn [remove_orphans]; uncut. Qed.
Lemma uncut_remove_all l : uncut (remove_all l).
Proof. induction l as [|p l IH]; cbn [remove_all]; uncut. Qed.
#[export] Hint Resolve uncut_contains_in_segments uncut_get_in_segments uncut_latest_in_segments uncut_merge_ranges
  uncut_merge_segments uncut_open_segments uncut_remove_orphans uncut_remove_all : uncut.

Lemma uncut_recover_record r : uncut (recover_record r).
Proof. unfold recover_record. uncut. Qed.

Lemma looks_recover_record r s : fs (recover_record r s).2.1 = fs s.1.
Proof.
  unfold recover_record, mbind, M_bind, this, lift. cbn.
  destruct (memtable_get _ _ _) as [[x|]|e]; cbn; [done| |done]. unfold in_world, zoom.
  pose proof (looks_contains (recovered_segments s.2) (series r) (timestamp (sample r)) s.1) as Hl.
  cbn. destruct (contains_in_segments _ _ _ _) as [[b|e|] w]; exact Hl.
Qed.

Lemma uncut_replay_records p : uncut (replay_wal p (Some recover_record)).
Proof.
  apply uncut_replay_file; [apply uncut_decode_wal_record| |apply uncut_recover_record|apply looks_recover_record|done].
  intros bytes d Hd. destruct (decode_wal_record_cases bytes) as (d' & Hd' & H). rewrite Hd' in Hd. injection Hd as ->.
  destruct H as [(r & n & -> & _ & Hn)|(e & -> & _)]; simpl; lia.
Qed.

Lemma uncut_recover p : uncut (recover p).
Proof.
  unfold recover, sys_list_directory, sys_exists. uncut. intros w Hcut.
  pose proof (uncut_replay_records p (w, MkRecoveryState empty_memtable a l (logical_sample_count a) 0)) as Hr.
  destruct (replay_wal _ _ _) as [[r|e|] s]; cbn [fst snd] in *; [|congruence|done]. revert Hcut.
  match goal with |- (?m s.1).1 = _ -> False => assert (uncut m) as Hm; [uncut|exact (Hm s.1)] end.
Qed.
#[export] Hint Resolve uncut_recover : uncut.

Lemma uncut_ensure_usable : uncut ensure_usable.
Proof. unfold ensure_usable. uncut. Qed.
Lemma uncut_set_engine_failed : uncut set_engine_failed.
Proof. unfold set_engine_failed. uncut. Qed.
#[export] Hint Resolve uncut_ensure_usable uncut_set_engine_failed : uncut.

Lemma uncut_engine_open p d : uncut (engine_open p d).
Proof. unfold engine_open. uncut. Qed.
Lemma uncut_engine_put s x : uncut (engine_put s x).
Proof. unfold engine_put, contains, set_memtable, set_logical_sample_count. uncut. Qed.
Lemma uncut_engine_sync : uncut engine_sync.
Proof. unfold engine_sync. uncut. Qed.
Lemma uncut_engine_flush : uncut engine_flush.
Proof. unfold engine_flush, set_memtable, set_segments. uncut. Qed.
Lemma uncut_engine_compact : uncut engine_compact.
Proof. unfold engine_compact, set_segments. uncut. Qed.
Lemma uncut_engine_get s t : uncut (engine_get s t).
Proof. unfold engine_get. uncut. Qed.
Lemma uncut_engine_latest s : uncut (engine_latest s).
Proof. unfold engine_latest. uncut. Qed.
Lemma uncut_engine_range s a c : uncut (engine_range s a c).
Proof. unfold engine_range. uncut. Qed.
Lemma uncut_engine_series : uncut engine_series.
Proof. unfold engine_series. uncut. Qed.
Lemma uncut_engine_stats : uncut engine_stats.
Proof. unfold engine_stats. uncut. Qed.
Lemma uncut_engine_memtable_sample_count : uncut engine_memtable_sample_count.
Proof. unfold engine_memtable_sample_count. uncut. Qed.
#[export] Hint Resolve uncut_engine_open uncut_engine_put uncut_engine_sync uncut_engine_flush uncut_engine_compact
  uncut_engine_get uncut_engine_latest uncut_engine_range uncut_engine_series uncut_engine_stats
  uncut_engine_memtable_sample_count : uncut.

(** ** The database *)

Lemma uncut_in_engine {A} (m : M (world * StorageEngine) A) : uncut m -> uncut (in_engine m).
Proof.
  intros Hm s. unfold in_engine. destruct (impl_ s.2) as [impl|]; [|simpl; other_exception].
  specialize (Hm (s.1, engine impl)). by destruct (m (s.1, engine impl)).
Qed.

Lemma uncut_translate_corruption {S A} (m : M S A) : uncut m -> uncut (translate_corruption m).
Proof.
  intros Hm s. unfold translate_corruption. specialize (Hm s). destruct (m s) as [[a|e|] s1]; [done| |done].
  unfold out_of_fuel in *. destruct e; simpl in *; congruence.
Qed.

#[export] Hint Extern 1 (uncut (in_engine _)) => apply uncut_in_engine; uncut : uncut.
#[export] Hint Extern 1 (uncut (translate_corruption _)) => apply uncut_translate_corruption; uncut : uncut.

Lemma uncut_implementation : uncut implementation.
Proof. unfold implementation. uncut. Qed.
Lemma uncut_lock_acquire p : uncut (lock_acquire p).
Proof. unfold lock_acquire, sys_open_create, sys_flock. uncut. Qed.
Lemma uncut_lock_release i : uncut (lock_release i).
Proof. unfold lock_release, sys_unlock. uncut. Qed.
Lemma uncut_prepare dir : uncut (prepare_database_directory dir).
Proof. unfold prepare_database_directory. uncut. Qed.
#[export] Hint Resolve uncut_implementation uncut_lock_acquire uncut_lock_release uncut_prepare : uncut.

Lemma uncut_database_open dir options : uncut (database_open dir options).
Proof. unfold database_open. uncut. Qed.
Lemma uncut_database_close : uncut database_close.
Proof. unfold database_close. uncut. Qed.
Lemma uncut_database_put s x : uncut (database_put s x).
Proof. unfold database_put. uncut. Qed.

Lemma uncut_database_flush : uncut database_flush.
Proof. unfold database_flush. uncut. Qed.
Lemma uncut_database_compact : uncut database_compact.
Proof. unfold database_compact. uncut. Qed.
Lemma uncut_database_sync : uncut database_sync.
Proof. unfold database_sync. uncut. Qed.
Lemma uncut_database_get s t : uncut (database_get s t).
Proof. unfold database_get. uncut. Qed.
Lemma uncut_database_latest s : uncut (database_latest s).
Proof. unfold database_latest. uncut. Qed.
Lemma uncut_database_range s a c : uncut (database_range s a c).
Proof. unfold database_range. uncut. Qed.
Lemma uncut_database_series : uncut database_series.
Proof. unfold database_series. uncut. Qed.
Lemma uncut_database_stats : uncut database_stats.
Proof. unfold database_stats. uncut. Qed.

(** ** Theorems *)

(** C18: every loop ends by itself.  Whatever the state and whatever the operating
    system answers, however often it interrupts a call or takes only part of a write (a script
    is finite, so it cannot do so for ever) and whatever bytes are in the files, no operation of the engine or the database
    ends because a loop has run for too long: the loops of [write_all], of the replay
    and of the blocks all come to their end, so the operations return, throw one of
    the sources' exceptions, or are cut by a power loss. *)
Theorem operations_end :
  (forall p d, uncut (engine_open p d)) /\ (forall s x, uncut (engine_put s x)) /\ uncut engine_sync /\
  uncut engine_flush /\ uncut engine_compact /\ (forall s t, uncut (engine_get s t)) /\
  (forall s, uncut (engine_latest s)) /\ (forall s a c, uncut (engine_range s a c)) /\
  (forall dir options, uncut (database_open dir options)) /\ (forall s x, uncut (database_put s x)) /\
  uncut database_sync /\ uncut database_flush /\ uncut database_compact /\ uncut database_close /\
  (forall s t, uncut (database_get s t)) /\ (forall s, uncut (database_latest s)) /\
  (forall s a c, uncut (database_range s a c)) /\ uncut database_series /\ uncut database_stats.
Proof.
  split_and!; auto using uncut_engine_open, uncut_engine_put, uncut_engine_sync, uncut_engine_flush, uncut_engine_compact,
    uncut_engine_get, uncut_engine_latest, uncut_engine_range, uncut_database_open, uncut_database_put,
    uncut_database_sync, uncut_database_flush, uncut_database_compact, uncut_database_close, uncut_database_get,
    uncut_database_latest, uncut_database_range, uncut_database_series, uncut_database_stats.
Qed.
