(* ===== verification/ChronoView.v ===== *)
(** * ChronoView (src/tools/chronoview/main.cpp)

    The state of the graphical tool and its operations, the buttons and inputs that
    start them, and [main].  An [event] is what one press, choice or edit in a frame
    does; a session of the tool is a list of them.  The frames themselves are in
    ChronoViewDraw.v, and that they come down to such events is shown in
    ChronoViewFrames.v; of the window there are the three ways its initialization fails.
    Floating-point arithmetic ([long double] differences, [std::sin]) is a parameter. *)

From stdpp Require Import base tactics option numbers list strings gmap.
From Stdlib Require Import ZArith Lia Ascii.
From S2P Require Import Prelude Errors World Model WalRecovery Manifest StorageEngine Database Text Tools.

Definition path_capacity : nat := 1024.
Definition measurement_capacity : nat := 256.
Definition tags_capacity : nat := 1024.
Definition demo_start_timestamp : Z := 1700000000000000000.
Definition nanoseconds_per_second : Z := 1000000000.
Definition demo_sample_count : nat := 240.

(** ** Text fields *)

(** [std::array<char, Size>]: [Size] characters. *)
Abbreviation field := (list ascii).

Definition zero_char : ascii := "000".

Definition set_text (capacity : nat) (source : string) : result field :=
  throw_if (Z.of_nat capacity <=? size (String.list_ascii_of_string source))
    (length_error "ChronoView text field exceeds its supported size");;
  Ok (String.list_ascii_of_string source ++ replicate (capacity - length (String.list_ascii_of_string source)) zero_char).

(** The string at [data()]: up to the first zero. *)
Fixpoint text_at (destination : field) : string :=
  match destination with
  | [] => EmptyString
  | c :: rest => if Ascii.eqb c zero_char then EmptyString else String c (text_at rest)
  end.

Definition is_blank (c : ascii) : bool :=
  Ascii.eqb c " " || Ascii.eqb c "009" || Ascii.eqb c "013" || Ascii.eqb c "010".

(** [text.substr(text.find_first_not_of(" \t\r\n"))], empty if there is none *)
Fixpoint trim_front (text : string) : string :=
  match text with
  | EmptyString => EmptyString
  | String c rest => if is_blank c then trim_front rest else text
  end.

(** [text.substr(0, text.find_last_not_of(" \t\r\n") + 1)], empty if there is none *)
Fixpoint trim_back (text : string) : string :=
  match text with
  | EmptyString => EmptyString
  | String c rest =>
    match trim_back rest with
    | EmptyString => if is_blank c then EmptyString else String c EmptyString
    | kept => String c kept
    end
  end.

Definition trim (text : string) : string := trim_back (trim_front text).

(** The turns of the loop of [parse_tags]: what is between the commas. *)
Fixpoint comma_items (encoded : string) : list string :=
  match encoded with
  | EmptyString => [EmptyString]
  | String c rest =>
    match comma_items rest with
    | [] => [String c EmptyString]
    | item :: more => if Ascii.eqb c "," then EmptyString :: item :: more else String c item :: more
    end
  end.

(** One turn. *)
Definition parse_item (between : string) : result Tag :=
  let item := trim between in
  match split_at "=" item with
  | None => Err (invalid_argument "tags must use comma-separated key=value pairs")
  | Some (before, after) =>
    throw_if (bool_decide (before = EmptyString))
      (invalid_argument "tags must use comma-separated key=value pairs");;
    let key := trim before in
    let value := trim after in
    throw_if (bool_decide (key = EmptyString)) (invalid_argument "tag keys cannot be empty");;
    make_Tag key value
  end.

Definition parse_tags (encoded : string) : result (list Tag) :=
  let encoded := trim encoded in
  if bool_decide (encoded = EmptyString) then Ok [] else result_map parse_item (comma_items encoded).

(** The loop from an index other than 0 on: a comma in front of every tag. *)
Fixpoint encode_more (tags : list Tag) : string :=
  match tags with
  | [] => EmptyString
  | tag :: rest => "," +:+ key tag +:+ "=" +:+ value tag +:+ encode_more rest
  end.

Definition encode_tags (tags : list Tag) : string :=
  match tags with
  | [] => EmptyString
  | tag :: rest => key tag +:+ "=" +:+ value tag +:+ encode_more rest
  end.

Definition series_label (series : SeriesKey) : string :=
  if bool_decide (tags series = []) then measurement series
  else measurement series +:+ "  [" +:+ encode_tags (tags series) +:+ "]".

(** ** [GuiState] *)

Module QueryKind.
Inductive t := none | point | latest | range.
End QueryKind.

(** The members in groups: what the user edits, and the results of a query. *)
Record Inputs := MkInputs {
  database_path_ : field;
  measurement_ : field;
  tags_ : field;
  sync_on_write_ : bool;
  flush_threshold_samples_ : Z;
  point_timestamp_ : Z;
  range_start_ : Z;
  range_end_ : Z;
  write_timestamp_ : Z;
  write_value_ : double;
}.

Record Results := MkResults {
  query_kind_ : QueryKind.t;
  single_result_ : option Sample;
  range_result_ : list Sample;
  plot_x_ : list double;
  plot_y_ : list double;
}.

Record GuiState := MkGuiState {
  inputs : Inputs;
  database_ : option Database;
  stats_ : DatabaseStats;
  known_series_ : list SeriesKey;
  selected_series_ : Z;
  results : Results;
  status_ : string;
  status_is_error_ : bool;
}.

Definition no_results : Results := MkResults QueryKind.none None [] [] [].
Definition no_stats : DatabaseStats := MkDatabaseStats 0 0 0 0.

(** [static_cast<int>] of a [std::size_t] *)
Definition int_of (n : Z) : Z := let r := n mod 2 ^ 32 in if r <? 2 ^ 31 then r else r - 2 ^ 32.

(** [GuiState::GuiState]; the value 21.5 by its bits. *)
Definition make_GuiState (initial_path : string) : result GuiState :=
  path ← set_text path_capacity initial_path;
  measurement ← set_text measurement_capacity "temperature";
  tags ← set_text tags_capacity "room=lab";
  Ok (MkGuiState
        (MkInputs path measurement tags true 4096 demo_start_timestamp demo_start_timestamp
           (demo_start_timestamp + Z.of_nat demo_sample_count * nanoseconds_per_second)
           demo_start_timestamp (MkDouble 4626744929681408000))
        None no_stats [] (-1) no_results "No database open" false).

(** ** Members changed one at a time *)

Abbreviation Gui := (M (world * GuiState)).

Definition set_inputs (f : Inputs -> Inputs) : Gui unit :=
  set_this (fun g => MkGuiState (f (inputs g)) (database_ g) (stats_ g) (known_series_ g) (selected_series_ g)
    (results g) (status_ g) (status_is_error_ g)).
Definition set_database (database : option Database) : Gui unit :=
  set_this (fun g => MkGuiState (inputs g) database (stats_ g) (known_series_ g) (selected_series_ g)
    (results g) (status_ g) (status_is_error_ g)).
Definition set_stats (stats : DatabaseStats) : Gui unit :=
  set_this (fun g => MkGuiState (inputs g) (database_ g) stats (known_series_ g) (selected_series_ g)
    (results g) (status_ g) (status_is_error_ g)).
Definition set_known_series (known : list SeriesKey) : Gui unit :=
  set_this (fun g => MkGuiState (inputs g) (database_ g) (stats_ g) known (selected_series_ g)
    (results g) (status_ g) (status_is_error_ g)).
Definition set_selected_series (selected : Z) : Gui unit :=
  set_this (fun g => MkGuiState (inputs g) (database_ g) (stats_ g) (known_series_ g) selected
    (results g) (status_ g) (status_is_error_ g)).
Definition set_results (f : Results -> Results) : Gui unit :=
  set_this (fun g => MkGuiState (inputs g) (database_ g) (stats_ g) (known_series_ g) (selected_series_ g)
    (f (results g)) (status_ g) (status_is_error_ g)).
Definition set_status (status : string) (is_error : bool) : Gui unit :=
  set_this (fun g => MkGuiState (inputs g) (database_ g) (stats_ g) (known_series_ g) (selected_series_ g)
    (results g) status is_error).

Definition set_measurement (f : field) : Gui unit :=
  set_inputs (fun i => MkInputs (database_path_ i) f (tags_ i) (sync_on_write_ i) (flush_threshold_samples_ i)
    (point_timestamp_ i) (range_start_ i) (range_end_ i) (write_timestamp_ i) (write_value_ i)).
Definition set_tags (f : field) : Gui unit :=
  set_inputs (fun i => MkInputs (database_path_ i) (measurement_ i) f (sync_on_write_ i) (flush_threshold_samples_ i)
    (point_timestamp_ i) (range_start_ i) (range_end_ i) (write_timestamp_ i) (write_value_ i)).
(** [generate_demo]'s four assignments *)
Definition set_timestamps (start end_ point write : Z) : Gui unit :=
  set_inputs (fun i => MkInputs (database_path_ i) (measurement_ i) (tags_ i) (sync_on_write_ i)
    (flush_threshold_samples_ i) point start end_ write (write_value_ i)).

(** A member function of [*database_]. *)
Definition in_open {A} (m : M (world * Database) A) : Gui A := fun s =>
  match database_ s.2 with
  | None => (Raised (logic_error "no database is open"), s)
  | Some d =>
    let '(o, t) := m (s.1, d) in
    (o, (t.1, MkGuiState (inputs s.2) (Some t.2) (stats_ s.2) (known_series_ s.2) (selected_series_ s.2)
                (results s.2) (status_ s.2) (status_is_error_ s.2)))
  end.

(** ** The operations *)

(** [perform]: whatever [operation] throws ends up in the status. *)
Definition perform (success_message : string) (operation : Gui unit) : Gui unit := fun s =>
  match operation s with
  | (Done _, s) => set_status success_message false s
  | (Raised e, s) => set_status (what e) true s
  | (Crashed, s) => (Crashed, s)
  end.

Definition require_database : Gui unit :=
  g ← this;
  throw_when (negb (bool_decide (is_Some (database_ g)))) (logic_error "no database is open").

Definition current_series : Gui SeriesKey :=
  g ← this;
  lift (tags ← parse_tags (text_at (tags_ (inputs g)));
        make_SeriesKey (text_at (measurement_ (inputs g))) tags).

Definition clear_results : Gui unit := set_results (fun _ => no_results).

Definition refresh_metadata : Gui unit :=
  require_database;;
  stats ← in_open database_stats;
  set_stats stats;;
  known ← in_open database_series;
  set_known_series known;;
  g ← this;
  if int_of (size (known_series_ g)) <=? selected_series_ g then set_selected_series (-1) else mret tt.

Definition select_series (index : nat) : Gui unit :=
  g ← this;
  match known_series_ g !! index with
  | None => mret tt
  | Some series =>
    set_selected_series (int_of (Z.of_nat index));;
    measurement ← lift (set_text measurement_capacity (measurement series));
    set_measurement measurement;;
    tags ← lift (set_text tags_capacity (encode_tags (tags series)));
    set_tags tags;;
    clear_results
  end.

(** The loop of [select_known_series] from [index] on. *)
Fixpoint select_known_from (index : Z) (known : list SeriesKey) (series : SeriesKey) : Gui unit :=
  match known with
  | [] => mret tt
  | candidate :: rest =>
    if candidate ≡? series then set_selected_series (int_of index)
    else select_known_from (index + 1) rest series
  end.

Definition select_known_series (series : SeriesKey) : Gui unit :=
  g ← this; select_known_from 0 (known_series_ g) series.

Definition open_database : Gui unit :=
  g ← this;
  match database_ g with
  | Some _ => mret tt
  | None =>
    throw_when (max_u64 <? flush_threshold_samples_ (inputs g)) (invalid_argument "flush threshold is too large");;
    let options := MkOptions
      (if sync_on_write_ (inputs g) then Durability.sync_on_write else Durability.buffered)
      (flush_threshold_samples_ (inputs g)) in
    opened ← in_world (database_open (text_at (database_path_ (inputs g))) options);
    set_database (Some opened);;
    refresh_metadata;;
    g ← this;
    if negb (bool_decide (known_series_ g = [])) then select_series 0 else mret tt
  end.

(** [database_.reset()] and the end of a [GuiState]: the destructor of the database. *)
Definition drop_database : Gui unit := fun s =>
  match database_ s.2 with
  | None => (Done tt, s)
  | Some _ =>
    match in_open database_close s with
    | (Crashed, s) => (Crashed, s)
    | (_, s) => set_database None s
    end
  end.

Definition close_database : Gui unit :=
  drop_database;;
  set_known_series [];;
  set_selected_series (-1);;
  set_stats no_stats;;
  clear_results;;
  set_status "No database open" false.

Definition put_sample : Gui unit :=
  require_database;;
  series ← current_series;
  g ← this;
  sample ← lift (make_Sample (MkTimestamp (write_timestamp_ (inputs g))) (write_value_ (inputs g)));
  in_open (database_put series sample);;
  refresh_metadata;;
  select_known_series series.

(** The result of a query for one sample. *)
Definition set_single (kind : QueryKind.t) (sample : option Sample) : Gui unit :=
  set_results (fun _ => MkResults kind sample [] [] []).

Definition query_point : Gui unit :=
  require_database;;
  series ← current_series;
  g ← this;
  sample ← in_open (database_get series (MkTimestamp (point_timestamp_ (inputs g))));
  set_single QueryKind.point sample.

Definition query_latest : Gui unit :=
  require_database;;
  series ← current_series;
  sample ← in_open (database_latest series);
  set_single QueryKind.latest sample.

Definition sync : Gui unit := require_database;; in_open database_sync;; refresh_metadata.
Definition flush : Gui unit := require_database;; in_open database_flush;; refresh_metadata.
Definition compact : Gui unit := require_database;; in_open database_compact;; refresh_metadata.

Section Floats.
(** [static_cast<double>(static_cast<long double>(a) - static_cast<long double>(b))],
    and [21.0 + std::sin(i * 0.12) * 2.2 + i * 0.004]. *)
Context (long_difference : Z -> Z -> double) (demo_value : Z -> double).

(** [rebuild_plot], for the results [query_range] has just set. *)
Definition rebuild_plot (r : Results) : Results :=
  match range_result_ r with
  | [] => MkResults (query_kind_ r) (single_result_ r) (range_result_ r) [] []
  | front :: _ =>
    let origin := nanoseconds_since_epoch (timestamp front) in
    MkResults (query_kind_ r) (single_result_ r) (range_result_ r)
      (map (fun sample => long_difference (nanoseconds_since_epoch (timestamp sample)) origin) (range_result_ r))
      (map sample_value (range_result_ r))
  end.

Definition query_range : Gui unit :=
  require_database;;
  series ← current_series;
  g ← this;
  samples ← in_open (database_range series (MkTimestamp (range_start_ (inputs g))) (MkTimestamp (range_end_ (inputs g))));
  set_results (fun r => rebuild_plot (MkResults QueryKind.range None samples (plot_x_ r) (plot_y_ r))).

(** The loop of [generate_demo], with [count] turns to go. *)
Fixpoint demo_loop (count : nat) (index : Z) (series : SeriesKey) : Gui unit :=
  match count with
  | O => mret tt
  | S count =>
    sample ← lift (make_Sample (MkTimestamp (demo_start_timestamp + index * nanoseconds_per_second)) (demo_value index));
    in_open (database_put series sample);;
    demo_loop count (index + 1) series
  end.

Definition generate_demo : Gui unit :=
  require_database;;
  measurement ← lift (set_text measurement_capacity "temperature");
  set_measurement measurement;;
  tags ← lift (set_text tags_capacity "room=lab");
  set_tags tags;;
  series ← current_series;
  demo_loop demo_sample_count 0 series;;
  in_open database_flush;;
  let end_ := demo_start_timestamp + Z.of_nat demo_sample_count * nanoseconds_per_second in
  set_timestamps demo_start_timestamp end_ demo_start_timestamp end_;;
  refresh_metadata;;
  select_known_series series;;
  query_range.

(** ** Events *)

Inductive event :=
| press_open | press_refresh | press_close
| choose_series (index : nat)
| press_latest | press_get | press_run_range
| press_put | press_demo
| press_sync | press_flush | press_compact
| edit_database (path : field) (sync_on_write : bool) (flush_threshold : Z)
| edit_series (measurement tags : field)
| edit_query (point start end_ : Z)
| edit_sample (timestamp : Z) (value : double).

Definition connected (g : GuiState) : bool := bool_decide (is_Some (database_ g)).

(** [if (!state.connected()) { ... }], [ImGui::BeginDisabled(!state.connected())] *)
Definition when_connected (m : Gui unit) : Gui unit := g ← this; if connected g then m else mret tt.
Definition unless_connected (m : Gui unit) : Gui unit := g ← this; if connected g then mret tt else m.

(** [draw_sidebar] *)
Definition sidebar (e : event) : Gui unit :=
  match e with
  | press_open => unless_connected (perform "Database opened" open_database)
  | press_refresh => when_connected (perform "Metadata refreshed" refresh_metadata)
  | press_close => when_connected close_database
  | choose_series index => select_series index
  | edit_database path sync threshold =>
    unless_connected (set_inputs (fun i => MkInputs path (measurement_ i) (tags_ i) sync threshold
      (point_timestamp_ i) (range_start_ i) (range_end_ i) (write_timestamp_ i) (write_value_ i)))
  | _ => mret tt
  end.

(** [draw_series_editor] *)
Definition series_editor (measurement tags : field) : Gui unit := set_measurement measurement;; set_tags tags.

(** [draw_explore_tab] *)
Definition explore_tab (e : event) : Gui unit :=
  match e with
  | press_latest => perform "Latest query complete" query_latest
  | press_get => perform "Point query complete" query_point
  | press_run_range => perform "Range query complete" query_range
  | edit_query point start end_ =>
    set_inputs (fun i => MkInputs (database_path_ i) (measurement_ i) (tags_ i) (sync_on_write_ i)
      (flush_threshold_samples_ i) point start end_ (write_timestamp_ i) (write_value_ i))
  | _ => mret tt
  end.

(** [draw_write_tab] *)
Definition write_tab (e : event) : Gui unit :=
  match e with
  | press_put => perform "Sample written" put_sample
  | press_demo => perform "Demo series generated" generate_demo
  | edit_sample t value =>
    set_inputs (fun i => MkInputs (database_path_ i) (measurement_ i) (tags_ i) (sync_on_write_ i)
      (flush_threshold_samples_ i) (point_timestamp_ i) (range_start_ i) (range_end_ i) t value)
  | _ => mret tt
  end.

(** [draw_maintenance_tab] *)
Definition maintenance_tab (e : event) : Gui unit :=
  match e with
  | press_sync => perform "WAL synchronized" sync
  | press_flush => perform "MemTable flushed" flush
  | press_compact => perform "Segments compacted" compact
  | _ => mret tt
  end.

(** [draw_main_panel]: the tab the event is in. *)
Definition main_panel (e : event) : Gui unit :=
  when_connected
    match e with
    | edit_series measurement tags => series_editor measurement tags
    | press_latest | press_get | press_run_range | edit_query _ _ _ => explore_tab e
    | press_put | press_demo | edit_sample _ _ => write_tab e
    | press_sync | press_flush | press_compact => maintenance_tab e
    | _ => mret tt
    end.

(** [draw_application] *)
Definition handle (e : event) : Gui unit := sidebar e;; main_panel e.

(** The frames until the window is closed. *)
Fixpoint handle_all (events : list event) : Gui unit :=
  match events with
  | [] => mret tt
  | e :: rest => handle e;; handle_all rest
  end.

(** How far the graphics get. *)
Inductive graphics :=
| no_glfw
| no_window
| no_renderer
| window (events : list event).

(** The life of [state] in [run_gui]. *)
Definition gui_session (open_on_start demo : bool) (events : list event) : Gui unit :=
  (if open_on_start then perform "Database opened" open_database else mret tt);;
  g ← this;
  (if demo && connected g then perform "Demo series generated" generate_demo else mret tt);;
  handle_all events;;
  close_database.

Definition run_gui (display : graphics) (path : string) (open_on_start demo : bool) : M world Z :=
  match display with
  | no_glfw => throw (runtime_error "failed to initialize GLFW")
  | no_window => throw (runtime_error "failed to create ChronoView window")
  | no_renderer => throw (runtime_error "failed to initialize the ChronoView renderer")
  | window events =>
    state ← lift (make_GuiState path);
    with_object state (on_exception (gui_session open_on_start demo events) drop_database);;
    mret 0
  end.

(** The loop of [main] over the arguments: the path and whether there was one, and
    whether the demo is asked for. *)
Fixpoint gui_arguments (path : string) (path_was_provided demo : bool) (arguments : list string)
    : result (string * bool * bool) :=
  match arguments with
  | [] => Ok (path, path_was_provided, demo)
  | argument :: rest =>
    if bool_decide (argument = "--demo") then gui_arguments path path_was_provided true rest
    else
      throw_if path_was_provided (invalid_argument "usage: chronoview [database-path] [--demo]");;
      gui_arguments argument true demo rest
  end.

Definition gui_main (display : graphics) (arguments : list string) : M (world * Console) Z := fun s =>
  match
    (parsed ← lift (gui_arguments "chronostore-gui-db" false false (drop 1 arguments));
     let '(path, path_was_provided, demo) := parsed in
     in_world (run_gui display path (path_was_provided || demo) demo)) s
  with
  | (Raised e, s) => (write_err ("chronoview: " +:+ what e +:+ newline);; mret 1) s
  | r => r
  end.
End Floats.
