(* ===== verification/ChronoViewText.v ===== *)
(** * ChronoView: the text fields

    What [set_text] stores is what is read back, and which tags survive being shown
    in the one text field that holds them all. *)

From stdpp Require Import base tactics option numbers list strings.
From Stdlib Require Import ZArith Lia Ascii.
From S2P Require Import Prelude Errors World Model Manifest EngineState Text Tools ChronoView.

(** ** Fields *)

(** A field that C code may read: [Size] characters with a zero among them. *)
Definition field_ok (capacity : nat) (f : field) : Prop := length f = capacity /\ zero_char ∈ f.

Lemma length_chars s : size (String.list_ascii_of_string s) = Z.of_nat (String.length s).
Proof. unfold size. f_equal. induction s as [|c s IH]; [done|]. simpl. by rewrite IH. Qed.

Lemma set_text_Ok capacity source f :
  set_text capacity source = Ok f ->
  field_ok capacity f /\ Z.of_nat (String.length source) < Z.of_nat capacity.
Proof.
  unfold set_text. intros H. result_inv. bool_to_prop. rewrite length_chars in Ha.
  pose proof (length_chars source) as Hl. unfold size in Hl. subst f. split; [|lia]. split.
  - rewrite length_app, length_replicate. lia.
  - apply elem_of_app. right. apply elem_of_replicate. split; [done|lia].
Qed.

Lemma set_text_throws capacity source e :
  set_text capacity source = Err e <->
  e = length_error "ChronoView text field exceeds its supported size" /\ Z.of_nat capacity <= Z.of_nat (String.length source).
Proof.
  unfold set_text, throw_if. rewrite length_chars.
  destruct (Z.leb_spec (Z.of_nat capacity) (Z.of_nat (String.length source))) as [H|H]; simpl; split.
  - by intros [= <-].
  - by intros [-> _].
  - done.
  - intros [_ H']. lia.
Qed.

Lemma text_at_padded s n :
  contains_char zero_char s = false -> text_at (String.list_ascii_of_string s ++ replicate n zero_char) = s.
Proof.
  intros Hs. induction s as [|c s IH].
  - by destruct n.
  - cbn [contains_char] in Hs. apply orb_false_iff in Hs as [Hc Hs]. simpl. by rewrite Hc, IH.
Qed.

(** What fits is read back. *)
Lemma text_at_set_text capacity s :
  Z.of_nat (String.length s) < Z.of_nat capacity -> contains_char zero_char s = false ->
  exists f, set_text capacity s = Ok f /\ text_at f = s.
Proof.
  intros Hl Hs. eexists. split; [|by apply text_at_padded].
  unfold set_text, throw_if. rewrite length_chars. by rewrite (proj2 (Z.leb_gt _ _)).
Qed.

(** ** Trimming *)

(** Neither end is a blank. *)
Definition trimmed (s : string) : Prop := trim_front s = s /\ trim_back s = s.

Lemma trim_trimmed s : trimmed s -> trim s = s.
Proof. intros [Hf Hb]. unfold trim. by rewrite Hf. Qed.

Lemma trim_back_app a b : b <> EmptyString -> trim_back b = b -> trim_back (a +:+ b) = a +:+ b.
Proof.
  intros Hne Hb. induction a as [|c a IH]; [done|].
  change (String c a +:+ b) with (String c (a +:+ b)). cbn [trim_back]. rewrite IH.
  destruct (a +:+ b) eqn:E; [|done]. destruct a; [by destruct b|done].
Qed.

Lemma trim_front_app a b : a <> EmptyString -> trim_front a = a -> trim_front (a +:+ b) = a +:+ b.
Proof.
  intros Hne Ha. destruct a as [|c a]; [done|]. change (String c a +:+ b) with (String c (a +:+ b)).
  cbn [trim_front] in *. destruct (is_blank c) eqn:E; [|done]. exfalso.
  assert (forall s, String.length (trim_front s) <= String.length s)%nat as Hlen.
  { induction s as [|x s IH]; simpl; [lia|]. destruct (is_blank x); simpl; lia. }
  apply (f_equal String.length) in Ha. simpl in Ha. specialize (Hlen a). lia.
Qed.

(** ** Tags in one line *)

(** A tag that can be told from the line: no separators, no blanks at the ends. *)
Definition tag_plain (t : Tag) : Prop :=
  key t <> EmptyString /\ trimmed (key t) /\ trimmed (value t) /\
  contains_char "=" (key t) = false /\ contains_char "," (key t) = false /\ contains_char "," (value t) = false.

Definition item_of (t : Tag) : string := key t +:+ "=" +:+ value t.

Lemma item_trimmed t : tag_plain t -> trimmed (item_of t).
Proof.
  intros (Hne & [Hkf _] & [_ Hvb] & _). unfold item_of. split.
  - by apply trim_front_app.
  - apply trim_back_app; [done|]. destruct (value t) as [|c v] eqn:E; [done|].
    apply (trim_back_app "=" (String c v)); [done|exact Hvb].
Qed.

Lemma item_no_comma t : tag_plain t -> contains_char "," (item_of t) = false.
Proof. intros (_ & _ & _ & _ & Hk & Hv). unfold item_of. by rewrite !contains_char_app, Hk, Hv. Qed.

Lemma parse_item_of t : tag_plain t -> parse_item (item_of t) = Ok t.
Proof.
  intros Ht. unfold parse_item. rewrite trim_trimmed by by apply item_trimmed.
  destruct Ht as (Hne & Hk & Hv & Heq & _).
  assert (split_at "=" (item_of t) = Some (key t, value t)) as -> by by apply split_at_spec.
  rewrite !trim_trimmed by done. unfold make_Tag, throw_if.
  rewrite !bool_decide_false by done. by destruct t.
Qed.

Lemma comma_items_single s : contains_char "," s = false -> comma_items s = [s].
Proof.
  induction s as [|c s IH]; [done|]. cbn [contains_char comma_items]. intros [Hc Hs]%orb_false_iff.
  by rewrite IH, Hc.
Qed.

Lemma comma_items_cons s rest :
  contains_char "," s = false -> comma_items (s +:+ "," +:+ rest) = s :: comma_items rest.
Proof.
  assert (forall u, comma_items u <> []) as Hne.
  { induction u as [|c u IH]; [done|]. cbn [comma_items]. destruct (comma_items u); [done|]. by destruct (Ascii.eqb c ","). }
  induction s as [|c s IH]; intros Hs.
  - change (EmptyString +:+ "," +:+ rest) with (String "," rest). cbn [comma_items]. specialize (Hne rest).
    by destruct (comma_items rest).
  - cbn [contains_char] in Hs. apply orb_false_iff in Hs as [Hc Hs].
    change (String c s +:+ "," +:+ rest) with (String c (s +:+ "," +:+ rest)). cbn [comma_items].
    by rewrite IH, Hc.
Qed.

Lemma encode_tags_cons t u ts : encode_tags (t :: u :: ts) = item_of t +:+ "," +:+ encode_tags (u :: ts).
Proof. cbn [encode_tags encode_more]. unfold item_of. by rewrite <-!string_app_assoc. Qed.

Lemma string_app_nil (s : string) : s +:+ EmptyString = s.
Proof. induction s as [|c s IH]; [done|]. change (String c (s +:+ EmptyString) = String c s). by rewrite IH. Qed.

Lemma encode_tags_one t : encode_tags [t] = item_of t.
Proof. unfold item_of. cbn [encode_tags encode_more]. by rewrite string_app_nil. Qed.

Lemma comma_items_encode t ts :
  Forall tag_plain (t :: ts) -> comma_items (encode_tags (t :: ts)) = map item_of (t :: ts).
Proof.
  revert t. induction ts as [|u ts IH]; intros t Hall; apply Forall_cons in Hall as [Ht Hall].
  - rewrite encode_tags_one. by apply comma_items_single, item_no_comma.
  - rewrite encode_tags_cons, comma_items_cons by by apply item_no_comma. by rewrite (IH u).
Qed.

Lemma encode_tags_trimmed t ts : Forall tag_plain (t :: ts) -> trimmed (encode_tags (t :: ts)).
Proof.
  revert t. induction ts as [|u ts IH]; intros t Hall; apply Forall_cons in Hall as [Ht Hall].
  - rewrite encode_tags_one. by apply item_trimmed.
  - rewrite encode_tags_cons. destruct (IH u Hall) as [_ Hb]. destruct (item_trimmed t Ht) as [Hf _].
    assert (item_of t <> EmptyString) as Hne by (unfold item_of; destruct Ht as (Hk & _); by destruct (key t)).
    assert (encode_tags (u :: ts) <> EmptyString) as Hne'.
    { destruct (Forall_inv Hall) as (Hk & _). cbn [encode_tags]. by destruct (key u). }
    split; [by apply trim_front_app|].
    rewrite string_app_assoc. by apply trim_back_app.
Qed.

Lemma parse_encode_tags ts : Forall tag_plain ts -> parse_tags (encode_tags ts) = Ok ts.
Proof.
  intros Hall. destruct ts as [|t ts]; [done|]. unfold parse_tags.
  rewrite trim_trimmed by by apply encode_tags_trimmed.
  rewrite bool_decide_false. 2:{ cbn [encode_tags]. destruct (Forall_inv Hall) as (Hk & _). by destruct (key t). }
  rewrite comma_items_encode by exact Hall. apply result_map_Ok.
  clear -Hall. induction Hall as [|t0 ts0 Ht _ IH]; constructor; [by apply parse_item_of|exact IH].
Qed.
