(* ===== verification/ChronoViewTheorems.v ===== *)
(** * ChronoView: the theorems

    The state stays well formed through every session, the only way a session ends
    with an exception, and the series that can be chosen from the list. *)

From stdpp Require Import base tactics option numbers list strings gmap.
From Stdlib Require Import ZArith Lia Ascii.
From S2P Require Import Prelude Errors World Hoare Model OrdMap Manifest StorageEngine Database EngineWrite EngineState Text Tools ChronoView ChronoViewText.

(** ** A well-formed state *)

Definition inputs_ok (i : Inputs) : Prop :=
  field_ok path_capacity (database_path_ i) /\ field_ok measurement_capacity (measurement_ i) /\
  field_ok tags_capacity (tags_ i).

(** The plotted points are those of the range, and only a range is plotted. *)
Definition results_ok (r : Results) : Prop :=
  match query_kind_ r with
  | QueryKind.none => r = no_results
  | QueryKind.point | QueryKind.latest => range_result_ r = [] /\ plot_x_ r = [] /\ plot_y_ r = []
  | QueryKind.range => single_result_ r = None /\ length (plot_x_ r) = length (range_result_ r) /\
      plot_y_ r = map sample_value (range_result_ r)
  end.

Definition gui_ok (g : GuiState) : Prop :=
  inputs_ok (inputs g) /\ results_ok (results g) /\ selected_series_ g < size (known_series_ g).

(** What the user types leaves a zero in the field ([ImGui::InputText]). *)
Definition event_ok (e : event) : Prop :=
  match e with
  | edit_database path _ _ => field_ok path_capacity path
  | edit_series measurement tags => field_ok measurement_capacity measurement /\ field_ok tags_capacity tags
  | _ => True
  end.

Definition gui_post {A} (o : outcome A) (s : world * GuiState) : Prop := o = Crashed \/ gui_ok s.2.
Definition keeps {A} (m : Gui A) : Prop := forall s, gui_ok s.2 -> wp m s gui_post.

Lemma keeps_bind {A B} (m : Gui A) (f : A -> Gui B) : keeps m -> (forall a, keeps (f a)) -> keeps (m ≫= f).
Proof.
  intros Hm Hf s Hs. wp_step. eapply wp_mono; [by apply Hm|]. intros o s1 Ho.
  destruct o as [a|e|]; cbn [and_then]; [|right; by destruct Ho|by left]. destruct Ho as [|Ho]; [done|]. by apply Hf.
Qed.

Lemma keeps_ret {A} (a : A) : keeps (mret a).
Proof. intros s Hs. by right. Qed.
Lemma keeps_this : keeps this.
Proof. intros s Hs. by right. Qed.
Lemma keeps_lift {A} (r : result A) : keeps (lift r).
Proof. intros s Hs. apply wp_lift; intros; by right. Qed.
Lemma keeps_throw_when c e : keeps (throw_when c e).
Proof. intros s Hs. apply wp_throw_when; intros; by right. Qed.
Lemma keeps_in_open {A} (m : M (world * Database) A) : keeps (in_open m).
Proof.
  intros s Hs. unfold wp, in_open. destruct (database_ s.2) as [d|]; [|by right]. destruct (m _) as [o t]. by right.
Qed.
Lemma keeps_in_world {A} (m : M world A) : keeps (in_world m).
Proof. intros s Hs. apply wp_in_world. right. exact Hs. Qed.
Lemma keeps_set_inputs f : (forall i, inputs_ok i -> inputs_ok (f i)) -> keeps (set_inputs f).
Proof. intros Hf s (Hi & Hr & Hsel). right. split; [by apply Hf|by split]. Qed.
Lemma keeps_set_results f : (forall r, results_ok r -> results_ok (f r)) -> keeps (set_results f).
Proof. intros Hf s (Hi & Hr & Hsel). right. split; [done|]. split; [by apply Hf|done]. Qed.
Lemma keeps_set_database d : keeps (set_database d).
Proof. intros s Hs. by right. Qed.
Lemma keeps_set_stats x : keeps (set_stats x).
Proof. intros s Hs. by right. Qed.
Lemma keeps_set_status text b : keeps (set_status text b).
Proof. intros s Hs. by right. Qed.
Lemma keeps_if {A} (b : bool) (m n : Gui A) : keeps m -> keeps n -> keeps (if b then m else n).
Proof. by destruct b. Qed.

Lemma keeps_perform text m : keeps m -> keeps (perform text m).
Proof.
  intros Hm s Hs. specialize (Hm s Hs). unfold wp, perform in *. destruct (m s) as [[u|e|] s1]; cbn [fst snd] in *.
  - destruct Hm as [|Hm]; [done|]. by apply (keeps_set_status text false).
  - destruct Hm as [|Hm]; [done|]. by apply (keeps_set_status (what e) true).
  - by left.
Qed.

Create HintDb gui.
#[export] Hint Resolve keeps_ret keeps_this keeps_lift keeps_throw_when keeps_in_open keeps_in_world keeps_set_inputs
  keeps_set_results keeps_set_database keeps_set_stats keeps_set_status keeps_if keeps_perform : gui.
#[export] Hint Extern 1 (keeps (_ ≫= _)) => apply keeps_bind; [|intros ?] : gui.

(** ** The parts of the operations *)

Lemma int_of_le n : 0 <= n -> int_of n <= n.
Proof.
  intros Hn. unfold int_of. pose proof (Z.mod_le n (2 ^ 32) Hn ltac:(lia)). destruct (_ <? _); lia.
Qed.

(** The end of [refresh_metadata]. *)
Lemma keeps_relist known :
  keeps (set_known_series known;;
    g ← this; if int_of (size (known_series_ g)) <=? selected_series_ g then set_selected_series (-1) else mret tt).
Proof.
  intros [w g] (Hi & Hr & _). right. unfold mbind, M_bind, set_known_series, set_this, modify, this. cbn.
  destruct (int_of (size known) <=? selected_series_ g) eqn:E; bool_to_prop; cbn; split; try exact Hi; (split; [exact Hr|]); cbn.
  - pose proof (size_nonneg known). lia.
  - pose proof (int_of_le (size known) (size_nonneg known)). lia.
Qed.

Lemma keeps_refresh : keeps refresh_metadata.
Proof.
  unfold refresh_metadata, require_database. do 4 (apply keeps_bind; [auto 6 with gui|intros ?]). apply keeps_relist.
Qed.

Lemma keeps_set_measurement source f : set_text measurement_capacity source = Ok f -> keeps (set_measurement f).
Proof. intros [Hf _]%set_text_Ok. apply keeps_set_inputs. intros i (Hp & _ & Ht). by split_and!. Qed.
Lemma keeps_set_tags source f : set_text tags_capacity source = Ok f -> keeps (set_tags f).
Proof. intros [Hf _]%set_text_Ok. apply keeps_set_inputs. intros i (Hp & Hm & _). by split_and!. Qed.

Lemma keeps_bind_lift {A B} (r : result A) (f : A -> Gui B) : (forall a, r = Ok a -> keeps (f a)) -> keeps (lift r ≫= f).
Proof. intros Hf s Hs. wp_step. apply wp_lift; [|by right]. intros a Ha. cbn [and_then]. by apply Hf. Qed.

(** The two fields of a series, in [select_series] and [generate_demo]. *)
Lemma keeps_set_series {A} measurement tags (m : Gui A) :
  keeps m ->
  keeps (measurement ← lift (set_text measurement_capacity measurement); set_measurement measurement;;
         tags ← lift (set_text tags_capacity tags); set_tags tags;; m).
Proof.
  intros Hm. apply keeps_bind_lift. intros f1 H1. apply keeps_bind; [by eapply keeps_set_measurement|]. intros _.
  apply keeps_bind_lift. intros f2 H2. apply keeps_bind; [by eapply keeps_set_tags|]. by intros _.
Qed.

Lemma keeps_clear_results : keeps clear_results.
Proof. by apply keeps_set_results. Qed.

Lemma wp_set_selected index s (Q : outcome unit -> world * GuiState -> Prop) :
  0 <= index < size (known_series_ s.2) -> gui_ok s.2 ->
  (forall s', gui_ok s'.2 -> Q (Done tt) s') -> wp (set_selected_series (int_of index)) s Q.
Proof.
  intros Hi (Hin & Hr & _) HQ. apply HQ. split; [exact Hin|]. split; [exact Hr|]. cbn.
  pose proof (int_of_le index ltac:(lia)). lia.
Qed.

Lemma keeps_select_series index : keeps (select_series index).
Proof.
  intros s Hs. unfold select_series. wp_step. unfold this at 1, wp at 1. cbn [fst snd and_then].
  destruct (known_series_ s.2 !! index) as [series|] eqn:E; [|by right].
  apply lookup_lt_Some in E. wp_step. apply wp_set_selected; [unfold size; lia|exact Hs|].
  intros s' Hs'. cbn [and_then]. by apply keeps_set_series; [apply keeps_clear_results|].
Qed.

Lemma keeps_select_known series : keeps (select_known_series series).
Proof.
  intros s Hs. unfold select_known_series. wp_step. unfold this at 1, wp at 1. cbn [fst snd and_then].
  assert (forall pre known, known_series_ s.2 = pre ++ known ->
    wp (select_known_from (size pre) known series) s gui_post) as H; [|by apply (H [])].
  intros pre known. revert pre. induction known as [|candidate known IH]; intros pre Hk; cbn [select_known_from]; [by right|].
  destruct (candidate ≡? series).
  - apply wp_set_selected; [|exact Hs|intros; by right]. rewrite Hk, size_app, size_cons.
    pose proof (size_nonneg pre). pose proof (size_nonneg known). lia.
  - replace (size pre + 1) with (size (pre ++ [candidate])); [|by rewrite size_app].
    apply IH. by rewrite <-app_assoc.
Qed.
#[export] Hint Resolve keeps_refresh keeps_clear_results keeps_select_series keeps_select_known : gui.

Lemma keeps_current_series : keeps current_series.
Proof. unfold current_series. auto with gui. Qed.
Lemma keeps_require : keeps require_database.
Proof. unfold require_database. auto with gui. Qed.
#[export] Hint Resolve keeps_current_series keeps_require : gui.

Lemma keeps_open_database : keeps open_database.
Proof.
  unfold open_database. apply keeps_bind; [auto with gui|]. intros g. destruct (database_ g); [auto with gui|].
  do 4 (apply keeps_bind; [auto with gui|intros ?]). auto with gui.
Qed.

Lemma keeps_put_sample : keeps put_sample.
Proof. unfold put_sample. auto 20 with gui. Qed.

Lemma keeps_set_single kind sample :
  kind = QueryKind.point \/ kind = QueryKind.latest -> keeps (set_single kind sample).
Proof. intros Hk. apply keeps_set_results. intros r _. by destruct Hk as [-> | ->]. Qed.

Lemma keeps_query_point : keeps query_point.
Proof. unfold query_point. auto 20 using keeps_set_single with gui. Qed.
Lemma keeps_query_latest : keeps query_latest.
Proof. unfold query_latest. auto 20 using keeps_set_single with gui. Qed.
Lemma keeps_sync : keeps sync.
Proof. unfold sync. auto with gui. Qed.
Lemma keeps_flush : keeps flush.
Proof. unfold flush. auto with gui. Qed.
Lemma keeps_compact : keeps compact.
Proof. unfold compact. auto with gui. Qed.

(** The database is gone first, and then everything shown of it. *)
Lemma keeps_close_database : keeps close_database.
Proof.
  intros s (Hi & Hr & Hsel). unfold close_database. wp_step.
  assert (wp drop_database s (fun o s1 => o = Crashed \/ o = Done tt /\ inputs (s1.2) = inputs s.2)) as Hd.
  { unfold wp, drop_database, in_open. destruct (database_ s.2); [|by right].
    destruct (database_close _) as [[u|e|] t]; [by right|by right|by left]. }
  eapply wp_mono; [exact Hd|]. intros o s1 [->|[-> Hin]]; [by left|]. cbn [and_then].
  right. cbn. split; [|by split]. rewrite <-Hin in Hi. exact Hi.
Qed.
#[export] Hint Resolve keeps_open_database keeps_put_sample keeps_query_point keeps_query_latest keeps_sync keeps_flush
  keeps_compact keeps_close_database : gui.

(** ** Exceptions *)

(** [calm m]: [m] throws nothing. *)
Definition calm {A} (m : Gui A) : Prop := forall s e, (m s).1 <> Raised e.

Lemma calm_bind {A B} (m : Gui A) (f : A -> Gui B) : calm m -> (forall a, calm (f a)) -> calm (m ≫= f).
Proof.
  intros Hm Hf s e. unfold mbind, M_bind. specialize (Hm s e). destruct (m s) as [[a|e'|] s1]; cbn [fst] in *; [apply Hf| |done].
  intros [= ->]. by apply Hm.
Qed.
Lemma calm_set {A} (f : GuiState -> GuiState) (a : A) : calm (set_this f).
Proof. by intros s e. Qed.
Lemma calm_perform text m : calm (perform text m).
Proof. intros s e. unfold perform. by destruct (m s) as [[u|x|] s1]. Qed.
Lemma calm_when m : calm m -> calm (when_connected m).
Proof. intros Hm. apply calm_bind; [done|]. intros g. by destruct (connected g). Qed.
Lemma calm_unless m : calm m -> calm (unless_connected m).
Proof. intros Hm. apply calm_bind; [done|]. intros g. by destruct (connected g). Qed.

Lemma calm_close_database : calm close_database.
Proof.
  unfold close_database. apply calm_bind.
  { intros s e. unfold drop_database, in_open. destruct (database_ s.2); [|done].
    by destruct (database_close _) as [[u|x|] t]. }
  intros _. do 4 (apply calm_bind; [by intros ? ?|intros _]). by intros s e.
Qed.

(** The texts of a series do not fit. *)
Definition too_long (series : SeriesKey) : Prop :=
  Z.of_nat measurement_capacity <= Z.of_nat (String.length (measurement series)) \/
  Z.of_nat tags_capacity <= Z.of_nat (String.length (encode_tags (tags series))).

Lemma select_series_raises index s e :
  (select_series index s).1 = Raised e <->
  e = length_error "ChronoView text field exceeds its supported size" /\
  exists series, known_series_ s.2 !! index = Some series /\ too_long series.
Proof.
  unfold select_series, mbind, M_bind, this. cbn [fst snd].
  destruct (known_series_ s.2 !! index) as [series|]; [|by split; [|intros (_ & ? & [=] & _)]].
  cbn. unfold lift. destruct (set_text measurement_capacity (measurement series)) as [f|x] eqn:Em.
  - cbn. destruct (set_text tags_capacity (encode_tags (tags series))) as [f'|x] eqn:Et; cbn.
    + apply set_text_Ok in Em as [_ Hm]. apply set_text_Ok in Et as [_ Ht]. split; [done|].
      intros (_ & series' & [= <-] & [H|H]); lia.
    + apply set_text_throws in Et as [-> Ht]. split.
      * intros [= <-]. split; [done|]. exists series. split; [done|by right].
      * by intros [-> _].
  - apply set_text_throws in Em as [-> Hm]. cbn. split.
    + intros [= <-]. split; [done|]. exists series. split; [done|by left].
    + by intros [-> _].
Qed.

(** ** Events *)

Section Events.
Context (long_difference : Z -> Z -> double) (demo_value : Z -> double).

Lemma keeps_query_range : keeps (query_range long_difference).
Proof.
  unfold query_range. do 4 (apply keeps_bind; [auto with gui|intros ?]). apply keeps_set_results. intros r _.
  unfold rebuild_plot, results_ok. cbn. destruct a2 as [|x l]; [done|]. cbn. by rewrite length_map.
Qed.

Lemma keeps_demo_loop count index series : keeps (demo_loop demo_value count index series).
Proof. revert index. induction count as [|count IH]; intros index; cbn [demo_loop]; auto with gui. Qed.

Lemma keeps_set_timestamps a c t u : keeps (set_timestamps a c t u).
Proof. apply keeps_set_inputs. by intros i (Hp & Hm & Ht). Qed.

Lemma keeps_generate_demo : keeps (generate_demo long_difference demo_value).
Proof.
  unfold generate_demo. apply keeps_bind; [auto with gui|]. intros _. apply keeps_set_series.
  do 3 (apply keeps_bind; [auto using keeps_demo_loop with gui|intros ?]).
  do 3 (apply keeps_bind; [auto using keeps_set_timestamps with gui|intros ?]). apply keeps_query_range.
Qed.

Lemma keeps_connected m : keeps m -> keeps (when_connected m) /\ keeps (unless_connected m).
Proof. intros Hm. unfold when_connected, unless_connected. split; auto with gui. Qed.

Lemma keeps_sidebar e : event_ok e -> keeps (sidebar e).
Proof.
  intros He. destruct e as [| | | | | | | | | | | |path b n|measurement tags|p a c|t v]; cbn [sidebar];
    first [apply keeps_connected; auto with gui; fail|auto with gui; fail|idtac].
  apply keeps_connected, keeps_set_inputs. intros i (_ & Hm & Ht). by split_and!.
Qed.

Lemma keeps_main_panel e : event_ok e -> keeps (main_panel long_difference demo_value e).
Proof.
  intros He. apply keeps_connected. destruct e as [| | | | | | | | | | | |path b n|measurement tags|p a c|t v]; cbn;
    first [auto using keeps_query_range, keeps_generate_demo with gui; fail|idtac].
  destruct He as [Hm Ht]. apply keeps_bind; [|intros _]; apply keeps_set_inputs; intros i (Hp & Hm' & Ht'); by split_and!.
Qed.

Lemma keeps_handle e : event_ok e -> keeps (handle long_difference demo_value e).
Proof. intros He. apply keeps_bind; [by apply keeps_sidebar|]. intros _. by apply keeps_main_panel. Qed.

Lemma keeps_handle_all events : Forall event_ok events -> keeps (handle_all long_difference demo_value events).
Proof.
  induction 1 as [|e events He _ IH]; cbn [handle_all]; [apply keeps_ret|].
  apply keeps_bind; [by apply keeps_handle|]. by intros _.
Qed.
End Events.

(** The one event that throws. *)
Lemma raises_bind {A B} (m : Gui A) (f : A -> Gui B) s e : (m s).1 = Raised e -> ((m ≫= f) s).1 = Raised e.
Proof. unfold mbind, M_bind. destruct (m s) as [[a|x|] s1]; cbn; congruence. Qed.

Lemma calm_main_panel long_difference demo_value e : calm (main_panel long_difference demo_value e).
Proof.
  apply calm_when. destruct e; cbn; try (apply calm_perform); try (by intros ? ?).
Qed.

Lemma handle_raises long_difference demo_value e s x :
  (handle long_difference demo_value e s).1 = Raised x ->
  exists index, e = choose_series index /\ (select_series index s).1 = Raised x.
Proof.
  intros H. assert (calm (sidebar e) \/ exists index, e = choose_series index) as [Hc|(index & ->)].
  { destruct e; try (by right; eauto); left; cbn;
      auto using calm_when, calm_unless, calm_perform, calm_close_database; try (by intros ? ?).
    apply calm_unless. by intros ? ?. }
  - exfalso. revert H. apply calm_bind; [exact Hc|]. intros _. apply calm_main_panel.
  - exists index. split; [done|]. revert H. unfold handle, mbind, M_bind. cbn [sidebar].
    destruct (select_series index s) as [[a|x'|] s1]; cbn; [|congruence|done].
    intros H. exfalso. by apply (calm_main_panel long_difference demo_value (choose_series index) s1 x).
Qed.

Lemma make_GuiState_ok path g : make_GuiState path = Ok g -> gui_ok g.
Proof.
  unfold make_GuiState. intros H. result_inv. subst g.
  apply set_text_Ok in Ha as [? _]. apply set_text_Ok in Ha0 as [? _]. apply set_text_Ok in Ha1 as [? _].
  split; [by split_and!|]. by split.
Qed.

(** ** Theorems *)

(** C39: the state of ChronoView.  From its construction, through any session of
    presses, choices and edits, whatever the operating system does: the text fields
    keep their size and a terminating zero, the selected series is one of the list or
    none, and what is plotted is the range that was read, point for point, so that no
    drawing reads outside an array. *)
Theorem gui_state_ok long_difference demo_value path g w events o s :
  make_GuiState path = Ok g -> Forall event_ok events ->
  handle_all long_difference demo_value events (w, g) = (o, s) ->
  o = Crashed \/ gui_ok s.2.
Proof.
  intros Hg Hall Hrun. pose proof (keeps_handle_all long_difference demo_value events Hall (w, g)) as Hw.
  unfold wp in Hw. rewrite Hrun in Hw. apply Hw. by eapply make_GuiState_ok.
Qed.

(** A session in an empty file system; the floating-point functions matter only to
    what is plotted. *)
Definition example_value (index : Z) : double := MkDouble 4607182418800017408.
Definition example_difference (a b : Z) : double := MkDouble 0.
Definition example_events : list event := [press_open; press_put; press_run_range; press_flush].
Definition example_gui : GuiState :=
  match make_GuiState "db" with
  | Ok g => g
  | Err _ => MkGuiState (MkInputs [] [] [] true 0 0 0 0 0 (MkDouble 0)) None no_stats [] 0 no_results EmptyString false
  end.
Definition example_session : outcome unit * (world * GuiState) :=
  handle_all example_difference example_value example_events (World (Fsys ∅ ∅ 0%nat ∅ ∅) [], example_gui).

Lemma gui_state_ok_witness :
  example_session.1 = Done tt /\ length (range_result_ (results example_session.2.2)) = 1%nat /\
  (example_session.1 = Crashed \/ gui_ok example_session.2.2).
Proof.
  split; [vm_compute; reflexivity|]. split; [vm_compute; reflexivity|].
  exact (gui_state_ok example_difference example_value "db" example_gui (World (Fsys ∅ ∅ 0%nat ∅ ∅) []) example_events
    example_session.1 example_session.2 eq_refl ltac:(repeat constructor) (surjective_pairing _)).
Defined.

(** C40: the exceptions of ChronoView.  No press or edit lets an exception out, on any
    state and whatever the operating system does; choosing a series from the list does
    exactly when its measurement or its tags do not fit the text field, and that ends
    the program. *)
Theorem gui_exceptions long_difference demo_value e s x :
  (handle long_difference demo_value e s).1 = Raised x <->
  x = length_error "ChronoView text field exceeds its supported size" /\
  exists index series, e = choose_series index /\ known_series_ s.2 !! index = Some series /\ too_long series.
Proof.
  split.
  - intros H. destruct (handle_raises _ _ _ _ _ H) as (index & -> & Hs).
    apply select_series_raises in Hs as [-> (series & Hs)]. split; [done|]. by exists index, series.
  - intros [-> (index & series & -> & Hs)]. apply raises_bind, select_series_raises. eauto.
Qed.

(** A series the text fields can show. *)
Definition series_plain (series : SeriesKey) : Prop :=
  ~ too_long series /\ Forall tag_plain (tags series) /\
  contains_char zero_char (measurement series) = false /\ contains_char zero_char (encode_tags (tags series)) = false.

(** A chosen series is the one that is queried.  After a series whose tags hold no
    separator, no blank at an end and no zero has been chosen from the list, the text
    fields parse to exactly that series. *)
Theorem select_series_roundtrip index series s :
  known_series_ s.2 !! index = Some series -> SeriesKey_ok series -> series_plain series ->
  exists s', (select_series index;; current_series) s = (Done series, s') /\
    s'.1 = s.1 /\ database_ s'.2 = database_ s.2 /\ selected_series_ s'.2 = int_of (Z.of_nat index).
Proof.
  intros Hk Hok (Hfit & Htags & Hz1 & Hz2).
  assert (Z.of_nat (String.length (measurement series)) < Z.of_nat measurement_capacity /\
    Z.of_nat (String.length (encode_tags (tags series))) < Z.of_nat tags_capacity) as [Hl1 Hl2].
  { unfold too_long in Hfit. lia. }
  destruct (text_at_set_text _ _ Hl1 Hz1) as (f1 & Hs1 & Ht1). destruct (text_at_set_text _ _ Hl2 Hz2) as (f2 & Hs2 & Ht2).
  eexists. unfold select_series, mbind at 1 2, M_bind, this. cbn [fst snd]. rewrite Hk. cbn. unfold lift. rewrite Hs1. cbn.
  rewrite Hs2. cbn. unfold current_series, mbind, M_bind, this. cbn. rewrite Ht1, Ht2, parse_encode_tags by exact Htags. cbn.
  rewrite make_SeriesKey_id by exact Hok. by split_and!.
Qed.

(** A state with one series listed. *)
Definition example_listed : GuiState :=
  MkGuiState (inputs example_gui) None no_stats [example_key] (-1) no_results EmptyString false.

Lemma select_series_roundtrip_witness :
  exists s', (select_series 0;; current_series) (World (Fsys ∅ ∅ 0%nat ∅ ∅) [], example_listed) = (Done example_key, s') /\
    s'.1 = World (Fsys ∅ ∅ 0%nat ∅ ∅) [] /\ database_ s'.2 = None /\ selected_series_ s'.2 = int_of (Z.of_nat 0).
Proof.
  apply (select_series_roundtrip 0 example_key (World (Fsys ∅ ∅ 0%nat ∅ ∅) [], example_listed)); [reflexivity| |].
  - split; [discriminate|]. split; [repeat constructor; discriminate|repeat constructor].
  - split; [|split; [|split; reflexivity]].
    + intros [H|H]; vm_compute in H; by apply H.
    + repeat constructor; discriminate || reflexivity.
Defined.

(** A comma in a value is taken for the next tag: another series is queried than the
    one chosen. *)
Lemma encode_tags_ambiguous :
  parse_tags (encode_tags [MkTag "a" "1,b=2"]) = Ok [MkTag "a" "1"; MkTag "b" "2"].
Proof. vm_compute. reflexivity. Qed.
