(* ===== verification/ChronoViewDraw.v ===== *)
(** * ChronoView: the frames (src/tools/chronoview/main.cpp)

    What is drawn in a frame, in the order of the calls, and what the answers of ImGui
    make of the state while it is drawn.  ImGui is a class: its answers to the calls that
    return something or write through a pointer, from a state of its own.  A frame leaves
    behind what it showed, the [Begin] calls that still wait for their [End], and whether
    it ever read outside an array or closed what was not open.  Sizes, colours, flags and
    the calls that only place the next widget are left out. *)

From stdpp Require Import base tactics option numbers list strings gmap.
From Stdlib Require Import ZArith Lia Ascii.
From S2P Require Import Prelude Errors World Hoare Model Manifest StorageEngine Database Text Tools ChronoView ChronoViewText ChronoViewTheorems.

(** ** ImGui *)

(** What the calls answer.  [bool] first: whether the widget is inside [BeginDisabled(true)]. *)
Class ImGui (U : Type) := {
  (** [BeginTable] and its like, [IsItemHovered] *)
  asked : string -> U -> bool * U;
  (** [Button], [Selectable] *)
  pressed : bool -> string -> U -> bool * U;
  (** [Checkbox] *)
  toggled : bool -> string -> bool -> U -> bool * U;
  (** [InputText] on an array *)
  typed : bool -> string -> field -> U -> field * U;
  (** [InputScalar], [InputDouble] *)
  entered : bool -> string -> Z -> U -> Z * U;
  entered_double : bool -> string -> double -> U -> double * U;
  (** [ImGuiListClipper]: [DisplayStart] and [DisplayEnd] after every [Step] that is true *)
  clipped : Z -> U -> list (Z * Z) * U;
}.

(** A disabled widget does nothing; [InputText] writes a string that fits the array; the
    rows to draw are rows of the table. *)
Class ImGuiLaws (U : Type) `{ImGui U} : Prop := {
  pressed_disabled : forall label u, (pressed true label u).1 = false;
  toggled_disabled : forall label b u, (toggled true label b u).1 = b;
  typed_disabled : forall label f u, (typed true label f u).1 = f;
  typed_fits : forall d label capacity f u, field_ok capacity f -> field_ok capacity (typed d label f u).1;
  entered_disabled : forall label n u, (entered true label n u).1 = n;
  entered_double_disabled : forall label v u, (entered_double true label v u).1 = v;
  clipped_rows : forall n u, Forall (fun rows => 0 <= rows.1 /\ rows.2 <= n) (clipped n u).1;
}.

(** ** The screen *)

Inductive scope := in_disabled | in_table | in_list_box | in_tab_bar | in_tab_item | in_plot | in_child | in_window.

#[export] Instance scope_eq_dec : EqDecision scope.
Proof. solve_decision. Defined.

(** The text of a cell, or a value with the format "%.17g". *)
Inductive content := cell_text (text : string) | cell_value (value : double).

Inductive item :=
| text (shown : string)
| separator_text (shown : string)
| disabled_text (shown : string)
| status_text (is_error : bool) (shown : string)
| button (label : string)
| selectable (label : string) (selected : bool)
| tooltip (shown : string)
| headers (columns : list string)
| table_row (columns : list content)
| axes (x y : string)
| line (label : string) (points : list (double * double)).

#[export] Instance content_eq_dec : EqDecision content.
Proof. solve_decision. Defined.
#[export] Instance item_eq_dec : EqDecision item.
Proof. solve_decision. Defined.

Record Screen (U : Type) := MkScreen {
  user : U;
  scopes : list (scope * bool);
  drawn : list item;
  misused : bool;
}.
Arguments MkScreen {U}.
Arguments user {U}.
Arguments scopes {U}.
Arguments drawn {U}.
Arguments misused {U}.

(** A character string handed over as [c_str()]. *)
Definition c_str (s : string) : string := text_at (String.list_ascii_of_string s).

(** [std::numeric_limits<int>::max()] *)
Definition max_int : Z := 2 ^ 31 - 1.

(** [samples[static_cast<std::size_t>(row)]], if there is such an element. *)
Definition element {A} (xs : list A) (row : Z) : option A := if row <? 0 then None else xs !! Z.to_nat row.

(** The first [count] elements at [data()], if there are as many. *)
Definition read_first {A} (xs : list A) (count : Z) : option (list A) :=
  if (0 <=? count) && (count <=? size xs) then Some (take (Z.to_nat count) xs) else None.

Section Frames.
Context {U : Type} `{ImGui U}.

Abbreviation Frame := (M (world * (GuiState * Screen U))).

Definition in_gui {A} (m : Gui A) : Frame A :=
  zoom (fun s => (s.1, s.2.1)) (fun t s => (t.1, (t.2, s.2.2))) m.
Definition the_state : Frame GuiState := fun s => (Done s.2.1, s).
Definition ask {A} (question : U -> A * U) : Frame A := fun s =>
  let '(a, u) := question (user s.2.2) in
  (Done a, (s.1, (s.2.1, MkScreen u (scopes s.2.2) (drawn s.2.2) (misused s.2.2)))).
Definition on_screen (f : Screen U -> Screen U) : Frame unit := modify (fun s => (s.1, (s.2.1, f s.2.2))).

Definition show (i : item) : Frame unit :=
  on_screen (fun c => MkScreen (user c) (scopes c) (drawn c ++ [i]) (misused c)).
Definition misuse : Frame unit :=
  on_screen (fun c => MkScreen (user c) (scopes c) (drawn c) true).
Definition begin_scope (k : scope) (b : bool) : Frame unit :=
  on_screen (fun c => MkScreen (user c) ((k, b) :: scopes c) (drawn c) (misused c)).
Definition end_scope (k : scope) : Frame unit :=
  on_screen (fun c =>
    match scopes c with
    | (j, _) :: rest => if decide (j = k) then MkScreen (user c) rest (drawn c) (misused c)
        else MkScreen (user c) (scopes c) (drawn c) true
    | [] => MkScreen (user c) [] (drawn c) true
    end).

(** Some [BeginDisabled] around has been told so. *)
Definition disabled : Frame bool := fun s => (Done (existsb snd (scopes s.2.2)), s).

(** [if (ImGui::BeginTable(...)) { ...; ImGui::EndTable(); }] and its like *)
Definition when_begun (k : scope) (label : string) (body : Frame unit) : Frame unit :=
  visible ← ask (asked label);
  if (visible : bool) then begin_scope k false;; body;; end_scope k else mret tt.

(** [BeginChild] and [EndChild], which is called in any case. *)
Definition in_child_window (label : string) (body : Frame unit) : Frame unit :=
  visible ← ask (asked label);
  begin_scope in_child false;;
  (if (visible : bool) then body else mret tt);;
  end_scope in_child.

(** ** Widgets *)

Definition press (label : string) : Frame bool :=
  show (button label);;
  d ← disabled;
  ask (pressed d label).

(** [if (ImGui::Button(label)) { ... }] *)
Definition on_press (label : string) (operation : Gui unit) : Frame unit :=
  b ← press label;
  if (b : bool) then in_gui operation else mret tt.

Definition input_text (label : string) (buffer : Inputs -> field) (write : field -> Inputs -> Inputs) : Frame unit :=
  g ← the_state;
  d ← disabled;
  f ← ask (typed d label (buffer (inputs g)));
  in_gui (set_inputs (write f)).

Definition input_scalar (label : string) (data : Inputs -> Z) (write : Z -> Inputs -> Inputs) : Frame unit :=
  g ← the_state;
  d ← disabled;
  n ← ask (entered d label (data (inputs g)));
  in_gui (set_inputs (write n)).

Definition input_double (label : string) (data : Inputs -> double) (write : double -> Inputs -> Inputs) : Frame unit :=
  g ← the_state;
  d ← disabled;
  v ← ask (entered_double d label (data (inputs g)));
  in_gui (set_inputs (write v)).

Definition checkbox (label : string) (value : Inputs -> bool) (write : bool -> Inputs -> Inputs) : Frame unit :=
  g ← the_state;
  d ← disabled;
  b ← ask (toggled d label (value (inputs g)));
  in_gui (set_inputs (write b)).

(** The members the widgets point at. *)
Definition write_path (f : field) (i : Inputs) : Inputs :=
  MkInputs f (measurement_ i) (tags_ i) (sync_on_write_ i) (flush_threshold_samples_ i)
    (point_timestamp_ i) (range_start_ i) (range_end_ i) (write_timestamp_ i) (write_value_ i).
Definition write_measurement (f : field) (i : Inputs) : Inputs :=
  MkInputs (database_path_ i) f (tags_ i) (sync_on_write_ i) (flush_threshold_samples_ i)
    (point_timestamp_ i) (range_start_ i) (range_end_ i) (write_timestamp_ i) (write_value_ i).
Definition write_tags (f : field) (i : Inputs) : Inputs :=
  MkInputs (database_path_ i) (measurement_ i) f (sync_on_write_ i) (flush_threshold_samples_ i)
    (point_timestamp_ i) (range_start_ i) (range_end_ i) (write_timestamp_ i) (write_value_ i).
Definition write_sync_on_write (b : bool) (i : Inputs) : Inputs :=
  MkInputs (database_path_ i) (measurement_ i) (tags_ i) b (flush_threshold_samples_ i)
    (point_timestamp_ i) (range_start_ i) (range_end_ i) (write_timestamp_ i) (write_value_ i).
Definition write_flush_threshold (n : Z) (i : Inputs) : Inputs :=
  MkInputs (database_path_ i) (measurement_ i) (tags_ i) (sync_on_write_ i) n
    (point_timestamp_ i) (range_start_ i) (range_end_ i) (write_timestamp_ i) (write_value_ i).
Definition write_point (n : Z) (i : Inputs) : Inputs :=
  MkInputs (database_path_ i) (measurement_ i) (tags_ i) (sync_on_write_ i) (flush_threshold_samples_ i)
    n (range_start_ i) (range_end_ i) (write_timestamp_ i) (write_value_ i).
Definition write_range_start (n : Z) (i : Inputs) : Inputs :=
  MkInputs (database_path_ i) (measurement_ i) (tags_ i) (sync_on_write_ i) (flush_threshold_samples_ i)
    (point_timestamp_ i) n (range_end_ i) (write_timestamp_ i) (write_value_ i).
Definition write_range_end (n : Z) (i : Inputs) : Inputs :=
  MkInputs (database_path_ i) (measurement_ i) (tags_ i) (sync_on_write_ i) (flush_threshold_samples_ i)
    (point_timestamp_ i) (range_start_ i) n (write_timestamp_ i) (write_value_ i).
Definition write_timestamp (n : Z) (i : Inputs) : Inputs :=
  MkInputs (database_path_ i) (measurement_ i) (tags_ i) (sync_on_write_ i) (flush_threshold_samples_ i)
    (point_timestamp_ i) (range_start_ i) (range_end_ i) n (write_value_ i).
Definition write_value (v : double) (i : Inputs) : Inputs :=
  MkInputs (database_path_ i) (measurement_ i) (tags_ i) (sync_on_write_ i) (flush_threshold_samples_ i)
    (point_timestamp_ i) (range_start_ i) (range_end_ i) (write_timestamp_ i) v.

(** ** The functions that draw *)

Definition draw_status : Frame unit :=
  g ← the_state;
  show (status_text (status_is_error_ g) (c_str (status_ g))).

(** The lambda of [draw_stats]. *)
Definition stats_row (label : string) (value : Z) : Frame unit :=
  show (table_row [cell_text label; cell_text (show_integer value)]).

Definition draw_stats (stats : DatabaseStats) : Frame unit :=
  when_begun in_table "stats"
    (stats_row "Samples" (db_sample_count stats);;
     stats_row "In MemTable" (db_memtable_sample_count stats);;
     stats_row "Segments" (db_segment_count stats);;
     stats_row "WAL bytes" (db_wal_size_bytes stats)).

Definition draw_series_editor : Frame unit :=
  show (text "Measurement");;
  input_text "##measurement" measurement_ write_measurement;;
  show (text "Tags");;
  input_text "##tags" tags_ write_tags.

(** The loop over the series from [index] on; it would not do to run out of [turns]. *)
Fixpoint draw_series (turns : nat) (index : nat) : Frame unit :=
  g ← the_state;
  if size (known_series_ g) <=? Z.of_nat index then mret tt
  else
    match turns, known_series_ g !! index with
    | S turns, Some series =>
      let label := c_str (series_label series) in
      show (selectable label (selected_series_ g =? int_of (Z.of_nat index)));;
      d ← disabled;
      chosen ← ask (pressed d label);
      (if (chosen : bool) then in_gui (select_series index) else mret tt);;
      hovered ← ask (asked label);
      (if (hovered : bool) then show (tooltip label) else mret tt);;
      draw_series turns (S index)
    | _, _ => misuse
    end.

Definition draw_series_list : Frame unit :=
  g ← the_state;
  draw_series (length (known_series_ g)) 0;;
  g ← the_state;
  if bool_decide (known_series_ g = []) then show (disabled_text "No series") else mret tt.

Definition draw_sidebar : Frame unit :=
  show (separator_text "Database");;
  g ← the_state;
  begin_scope in_disabled (connected g);;
  (show (text "Path");;
   input_text "##database_path" database_path_ write_path;;
   checkbox "Sync on write" sync_on_write_ write_sync_on_write;;
   show (text "Flush threshold");;
   input_scalar "##flush_threshold" flush_threshold_samples_ write_flush_threshold);;
  end_scope in_disabled;;
  g ← the_state;
  (if negb (connected g) then on_press "Open" (perform "Database opened" open_database)
   else
     on_press "Refresh" (perform "Metadata refreshed" refresh_metadata);;
     on_press "Close" close_database);;
  show (separator_text "Status");;
  draw_status;;
  show (separator_text "Engine");;
  g ← the_state;
  draw_stats (stats_ g);;
  show (separator_text "Series");;
  when_begun in_list_box "##series" draw_series_list.

(** The inner loop of [draw_sample_table]. *)
Fixpoint draw_rows (samples : list Sample) (rows : list Z) : Frame unit :=
  match rows with
  | [] => mret tt
  | row :: rest =>
    match element samples row with
    | Some sample =>
      show (table_row [cell_text (show_integer (nanoseconds_since_epoch (timestamp sample)));
                       cell_value (sample_value sample)])
    | None => misuse
    end;;
    draw_rows samples rest
  end.

(** The outer loop, with [DisplayStart] and [DisplayEnd] of each step. *)
Fixpoint draw_ranges (samples : list Sample) (ranges : list (Z * Z)) : Frame unit :=
  match ranges with
  | [] => mret tt
  | (display_start, display_end) :: rest =>
    draw_rows samples (seqZ display_start (display_end - display_start));;
    draw_ranges samples rest
  end.

Definition draw_sample_table (samples : list Sample) (identifier : string) : Frame unit :=
  when_begun in_table identifier
    (show (headers ["Timestamp (ns)"; "Value"]);;
     let visible_count := Z.min (size samples) max_int in
     ranges ← ask (clipped (int_of visible_count));
     draw_ranges samples ranges).

(** [ImPlot::PlotLine]: it reads [count] elements of both arrays. *)
Definition plot_line (label : string) (x y : list double) (count : Z) : Frame unit :=
  match read_first x count, read_first y count with
  | Some x, Some y => show (line label (zip x y))
  | _, _ => misuse
  end.

Definition draw_results : Frame unit :=
  show (separator_text "Results");;
  g ← the_state;
  let state := results g in
  match query_kind_ state with
  | QueryKind.none => show (disabled_text "No query run")
  | QueryKind.point | QueryKind.latest =>
    match single_result_ state with
    | None => show (disabled_text "No sample found")
    | Some sample => draw_sample_table [sample] "single_result"
    end
  | QueryKind.range =>
    show (text (show_integer (size (range_result_ state)) +:+ " samples"));;
    if bool_decide (range_result_ state = []) then show (disabled_text "No samples in range")
    else
      when_begun in_plot "##range_plot"
        (show (axes "Nanoseconds from first sample" "Value");;
         let plot_count := Z.min (size (plot_x_ state)) max_int in
         plot_line "Value" (plot_x_ state) (plot_y_ state) (int_of plot_count));;
      draw_sample_table (range_result_ state) "range_result"
  end.

Section Floats.
Context (long_difference : Z -> Z -> double) (demo_value : Z -> double) (version_string : string).

Definition draw_explore_tab : Frame unit :=
  draw_series_editor;;
  show (separator_text "Query");;
  on_press "Latest" (perform "Latest query complete" query_latest);;
  show (text "Point timestamp");;
  when_begun in_table "point_input"
    (input_scalar "##point_timestamp" point_timestamp_ write_point;;
     on_press "Get" (perform "Point query complete" query_point));;
  when_begun in_table "range_inputs"
    (show (text "Range start");;
     input_scalar "##range_start" range_start_ write_range_start;;
     show (text "Range end");;
     input_scalar "##range_end" range_end_ write_range_end);;
  on_press "Run range" (perform "Range query complete" (query_range long_difference));;
  draw_results.

Definition draw_write_tab : Frame unit :=
  draw_series_editor;;
  show (separator_text "Sample");;
  show (text "Timestamp");;
  input_scalar "##write_timestamp" write_timestamp_ write_timestamp;;
  show (text "Value");;
  input_double "##write_value" write_value_ write_value;;
  on_press "Put" (perform "Sample written" put_sample);;
  on_press "Generate demo" (perform "Demo series generated" (generate_demo long_difference demo_value)).

Definition draw_maintenance_tab : Frame unit :=
  show (separator_text "Engine");;
  g ← the_state;
  draw_stats (stats_ g);;
  show (separator_text "Maintenance");;
  on_press "Sync WAL" (perform "WAL synchronized" sync);;
  on_press "Flush" (perform "MemTable flushed" flush);;
  on_press "Compact" (perform "Segments compacted" compact).

Definition draw_main_panel : Frame unit :=
  g ← the_state;
  begin_scope in_disabled (negb (connected g));;
  when_begun in_tab_bar "views"
    (when_begun in_tab_item "Explore" draw_explore_tab;;
     when_begun in_tab_item "Write" draw_write_tab;;
     when_begun in_tab_item "Maintenance" draw_maintenance_tab);;
  end_scope in_disabled.

Definition draw_application : Frame unit :=
  begin_scope in_window false;;
  (show (text "ChronoView");;
   show (disabled_text ("ChronoStore " +:+ version_string));;
   in_child_window "sidebar" draw_sidebar;;
   in_child_window "main" draw_main_panel);;
  end_scope in_window.

(** The loop of [run_gui], for a window that is closed after [count] frames. *)
Fixpoint draw_frames (count : nat) : Frame unit :=
  match count with
  | O => mret tt
  | S count => draw_application;; draw_frames count
  end.

(** [run_gui] from the construction of [state] on. *)
Definition draw_session (open_on_start demo : bool) (count : nat) : Frame unit :=
  (if open_on_start then in_gui (perform "Database opened" open_database) else mret tt);;
  g ← the_state;
  (if demo && connected g then in_gui (perform "Demo series generated" (generate_demo long_difference demo_value)) else mret tt);;
  draw_frames count;;
  in_gui close_database.
End Floats.
End Frames.
