(* ===== verification/ChronoViewFrames.v ===== *)
(** * ChronoView: what the frames amount to

    The frames of [ChronoViewDraw] refine the events of [ChronoView]: whatever ImGui
    answers, drawing does to the state what some presses, choices and edits do, it closes
    every scope it opened and reads inside the arrays only. *)

From stdpp Require Import base tactics option numbers list list_numbers strings gmap.
From Stdlib Require Import ZArith Lia Ascii.
From S2P Require Import Prelude Errors World Hoare Model WalRecord EngineState Manifest StorageEngine Database Text Tools ChronoView ChronoViewText ChronoViewTheorems ChronoViewDraw.

(** ** The connection stays *)

(** [m] neither opens nor closes the database. *)
Definition stays {A} (m : Gui A) : Prop := forall s, connected (m s).2.2 = connected s.2.

Lemma stays_bind {A B} (m : Gui A) (f : A -> Gui B) : stays m -> (forall a, stays (f a)) -> stays (m ≫= f).
Proof.
  intros Hm Hf s. unfold mbind, M_bind. specialize (Hm s). destruct (m s) as [[a|e|] s1]; cbn [snd] in *; [|done..].
  by rewrite Hf.
Qed.
Lemma stays_ret {A} (a : A) : stays (mret a).
Proof. done. Qed.
Lemma stays_this : stays this.
Proof. done. Qed.
Lemma stays_lift {A} (r : result A) : stays (lift r).
Proof. intros s. by destruct r. Qed.
Lemma stays_throw_when c e : stays (throw_when c e).
Proof. intros s. by destruct c. Qed.
Lemma stays_in_open {A} (m : M (world * Database) A) : stays (in_open m).
Proof.
  intros s. unfold in_open, connected. destruct (database_ s.2) as [d|] eqn:E; [|by rewrite <-E].
  by destruct (m (s.1, d)) as [o t].
Qed.
Lemma stays_set (f : GuiState -> GuiState) : (forall g, database_ (f g) = database_ g) -> stays (set_this f).
Proof. intros Hf s. unfold connected. cbn [set_this modify snd]. by rewrite Hf. Qed.
Lemma stays_if {A} (b : bool) (m n : Gui A) : stays m -> stays n -> stays (if b then m else n).
Proof. by destruct b. Qed.
Lemma stays_perform text m : stays m -> stays (perform text m).
Proof. intros Hm s. unfold perform. specialize (Hm s). by destruct (m s) as [[u|e|] s1]. Qed.

Create HintDb stays.
#[export] Hint Resolve stays_ret stays_this stays_lift stays_throw_when stays_in_open stays_if stays_perform : stays.
#[export] Hint Extern 1 (stays (_ ≫= _)) => apply stays_bind; [|intros ?] : stays.
#[export] Hint Extern 2 (stays _) => apply stays_set; reflexivity : stays.

Lemma stays_current_series : stays current_series.
Proof. unfold current_series. auto with stays. Qed.
Lemma stays_refresh : stays refresh_metadata.
Proof. unfold refresh_metadata, require_database. auto 20 with stays. Qed.
Lemma stays_select_known series : stays (select_known_series series).
Proof.
  unfold select_known_series. apply stays_bind; [done|]. intros g. generalize 0.
  induction (known_series_ g) as [|candidate known IH]; intros index; cbn [select_known_from]; auto with stays.
Qed.
#[export] Hint Resolve stays_current_series stays_refresh stays_select_known : stays.

Lemma stays_put_sample : stays put_sample.
Proof. unfold put_sample, require_database. auto 20 with stays. Qed.
Lemma stays_query_point : stays query_point.
Proof. unfold query_point, require_database. auto 20 with stays. Qed.
Lemma stays_query_latest : stays query_latest.
Proof. unfold query_latest, require_database. auto 20 with stays. Qed.
Lemma stays_query_range long_difference : stays (query_range long_difference).
Proof. unfold query_range, require_database. auto 20 with stays. Qed.
Lemma stays_demo_loop demo_value count index series : stays (demo_loop demo_value count index series).
Proof. revert index. induction count as [|count IH]; intros index; cbn [demo_loop]; auto with stays. Qed.
#[export] Hint Resolve stays_put_sample stays_query_point stays_query_latest stays_query_range stays_demo_loop : stays.
Lemma stays_generate_demo long_difference demo_value : stays (generate_demo long_difference demo_value).
Proof. unfold generate_demo, require_database. auto 30 with stays. Qed.
Lemma stays_sync : stays sync.
Proof. unfold sync, require_database. auto with stays. Qed.
Lemma stays_flush : stays flush.
Proof. unfold flush, require_database. auto with stays. Qed.
Lemma stays_compact : stays compact.
Proof. unfold compact, require_database. auto with stays. Qed.
#[export] Hint Resolve stays_generate_demo stays_sync stays_flush stays_compact : stays.

(** Choosing a series does not change the list. *)
Lemma select_series_known index s : known_series_ (select_series index s).2.2 = known_series_ s.2.
Proof.
  unfold select_series, mbind, M_bind, this. cbn [fst snd]. destruct (known_series_ s.2 !! index) as [series|]; [|done].
  cbn. unfold lift. destruct (set_text measurement_capacity _) as [f|x]; [|done]. cbn. by destruct (set_text tags_capacity _).
Qed.

(** ** Frames that follow events *)

Definition plain {A} (o : outcome A) : outcome unit :=
  match o with Done _ => Done tt | Raised e => Raised e | Crashed => Crashed end.

Lemma plain_unit (o : outcome unit) : plain o = o.
Proof. by destruct o as [[]|e|]. Qed.

Lemma size_lookup {A} (l : list A) i : Z.of_nat i < size l -> is_Some (l !! i).
Proof. intros Hi. apply lookup_lt_is_Some. unfold size in Hi. lia. Qed.

Section Frames.
Context {U : Type} `{ImGuiLaws U} (long_difference : Z -> Z -> double) (demo_value : Z -> double) (version_string : string).

Abbreviation Frame := (M (world * (GuiState * Screen U))).
Abbreviation handle_all := (handle_all long_difference demo_value).
Abbreviation handle := (handle long_difference demo_value).
Abbreviation main_panel := (main_panel long_difference demo_value).

(** From a well-formed state with [P] and the scopes [sc], [m] does what some events do,
    misuses nothing, and if it comes to its end has closed what it opened, with [Q]. *)
Definition follows {A} (P : GuiState -> Prop) (sc : list (scope * bool)) (m : Frame A) (Q : GuiState -> Prop) : Prop :=
  forall s, gui_ok s.2.1 -> P s.2.1 -> scopes s.2.2 = sc -> misused s.2.2 = false ->
  exists events, Forall event_ok events /\
    handle_all events (s.1, s.2.1) = (plain (m s).1, ((m s).2.1, (m s).2.2.1)) /\
    misused (m s).2.2.2 = false /\
    forall a, (m s).1 = Done a -> scopes (m s).2.2.2 = sc /\ Q (m s).2.2.1.

Lemma handle_all_app events1 events2 s : handle_all (events1 ++ events2) s = (handle_all events1;; handle_all events2) s.
Proof.
  revert s. induction events1 as [|e events1 IH]; intros s; [done|]. cbn [ChronoView.handle_all app].
  unfold mbind, M_bind in *. destruct (handle e s) as [[u|x|] s1]; [apply IH|done..].
Qed.

Lemma handle_all_one e s : handle_all [e] s = handle e s.
Proof. cbn. unfold mbind, M_bind, mret, M_ret. by destruct (handle e s) as [[[]|x|] s1]. Qed.

Lemma follows_bind {A B} P R Q sc (m : Frame A) (f : A -> Frame B) :
  follows P sc m R -> (forall a, follows R sc (f a) Q) -> follows P sc (m ≫= f) Q.
Proof.
  intros Hm Hf s Hok HP Hsc Hmis. destruct (Hm s Hok HP Hsc Hmis) as (events1 & He1 & Hrun1 & Hmis1 & Hdone1).
  unfold mbind, M_bind. destruct (m s) as [[a|e|] s1] eqn:E; cbn [fst snd plain] in *; [|by exists events1..].
  destruct (Hdone1 a eq_refl) as [Hsc1 HR].
  assert (gui_ok s1.2.1) as Hok1.
  { pose proof (keeps_handle_all long_difference demo_value events1 He1 (s.1, s.2.1) Hok) as Hw.
    unfold wp in Hw. rewrite Hrun1 in Hw. by destruct Hw as [Hw|Hw]. }
  destruct (Hf a s1 Hok1 HR Hsc1 Hmis1) as (events2 & He2 & Hrun2 & Hmis2 & Hdone2).
  exists (events1 ++ events2). split; [by apply Forall_app|]. split; [|done].
  rewrite handle_all_app. unfold mbind, M_bind. by rewrite Hrun1, Hrun2.
Qed.

Lemma follows_mono {A} (P P' Q Q' : GuiState -> Prop) sc (m : Frame A) :
  follows P' sc m Q' -> (forall g, P g -> P' g) -> (forall g, Q' g -> Q g) -> follows P sc m Q.
Proof.
  intros Hm HP HQ s Hok Hs Hsc Hmis. destruct (Hm s Hok (HP _ Hs) Hsc Hmis) as (events & He & Hrun & Hmis' & Hdone).
  exists events. split_and!; [done..|]. intros a Ha. destruct (Hdone a Ha) as [H1 H2]. auto.
Qed.

Lemma follows_ret {A} P sc (a : A) : follows P sc (mret a) P.
Proof. intros s Hok HP Hsc Hmis. by exists []. Qed.

Lemma follows_show P sc i : follows P sc (show i) P.
Proof. intros s Hok HP Hsc Hmis. by exists []. Qed.

(** The state read is the state at that time. *)
Lemma follows_state {A} P Q sc (f : GuiState -> Frame A) :
  (forall g, gui_ok g -> P g -> follows (eq g) sc (f g) Q) -> follows P sc (the_state ≫= f) Q.
Proof. intros Hf s Hok HP Hsc Hmis. by apply (Hf s.2.1 Hok HP s). Qed.

Lemma follows_ask {A B} P Q sc (q : U -> A * U) (f : A -> Frame B) :
  (forall u, follows P sc (f (q u).1) Q) -> follows P sc (ask q ≫= f) Q.
Proof.
  intros Hf s Hok HP Hsc Hmis. unfold ask, mbind, M_bind. specialize (Hf (user s.2.2)).
  destruct (q (user s.2.2)) as [a u]. by apply (Hf (s.1, (s.2.1, MkScreen u (scopes s.2.2) (drawn s.2.2) (misused s.2.2)))).
Qed.

Lemma follows_disabled {A} P Q sc (f : bool -> Frame A) :
  follows P sc (f (existsb snd sc)) Q -> follows P sc (disabled ≫= f) Q.
Proof. intros Hf s Hok HP <- Hmis. by apply (Hf s). Qed.

Lemma follows_scope P Q sc k b (body : Frame unit) :
  follows P ((k, b) :: sc) body Q -> follows P sc (begin_scope k b;; body;; end_scope k) Q.
Proof.
  intros Hbody s Hok HP Hsc Hmis.
  set (t := (s.1, (s.2.1, MkScreen (user s.2.2) ((k, b) :: scopes s.2.2) (drawn s.2.2) (misused s.2.2)))).
  destruct (Hbody t Hok HP) as (events & He & Hrun & Hmis1 & Hdone); [cbn; by rewrite Hsc|exact Hmis|].
  exists events. split; [done|]. change ((begin_scope k b;; body;; end_scope k) s) with ((body;; end_scope k) t).
  unfold mbind, M_bind. destruct (body t) as [[u|e|] s1]; [|by split_and!..].
  destruct (Hdone u eq_refl) as [Hsc1 HQ]. cbn [fst snd] in *.
  unfold end_scope, on_screen, modify. cbn [fst snd plain]. rewrite Hsc1. rewrite decide_True by done.
  split; [exact Hrun|]. split; [exact Hmis1|]. by intros _ _.
Qed.

Lemma follows_begun P Q sc k label (body : Frame unit) :
  follows P ((k, false) :: sc) body Q -> (forall g, P g -> Q g) -> follows P sc (when_begun k label body) Q.
Proof.
  intros Hbody HPQ. apply follows_ask. intros u. destruct (asked label u).1; [by apply follows_scope|].
  by eapply follows_mono; [apply follows_ret| |].
Qed.

Lemma follows_child P Q sc label (body : Frame unit) :
  follows P ((in_child, false) :: sc) body Q -> (forall g, P g -> Q g) -> follows P sc (in_child_window label body) Q.
Proof.
  intros Hbody HPQ. apply follows_ask. intros u. apply follows_scope. destruct (asked label u).1; [done|].
  by eapply follows_mono; [apply follows_ret| |].
Qed.

(** An operation that is one event, and one that changes nothing. *)
Lemma follows_event (P Q : GuiState -> Prop) sc (m : Gui unit) e :
  (forall s, gui_ok s.2 -> P s.2 -> event_ok e /\ handle e s = m s /\ ((m s).1 = Done tt -> Q (m s).2.2)) ->
  follows P sc (in_gui m) Q.
Proof.
  intros Hm s Hok HP Hsc Hmis. exists [e]. destruct (Hm (s.1, s.2.1) Hok HP) as (He & Hrun & HQ).
  split; [by constructor|]. rewrite handle_all_one, Hrun. unfold in_gui, zoom. cbn [fst snd].
  destruct (m (s.1, s.2.1)) as [o t]. cbn [fst snd] in *. rewrite plain_unit. split; [by destruct t|]. split; [done|].
  intros [] Ha. auto.
Qed.

Lemma follows_nothing (P : GuiState -> Prop) sc (m : Gui unit) :
  (forall s, P s.2 -> m s = (Done tt, s)) -> follows P sc (in_gui m) P.
Proof.
  intros Hm s Hok HP Hsc Hmis. exists []. split; [done|]. unfold in_gui, zoom.
  rewrite (Hm (s.1, s.2.1) HP). cbn [fst snd plain ChronoView.handle_all].
  split_and!; [done|done|]. by intros _ _.
Qed.

(** ** Widgets *)

Abbreviation connection c := (fun g : GuiState => connected g = c).

Lemma handle_sidebar e s : main_panel e = when_connected (mret tt) -> handle e s = sidebar e s.
Proof.
  intros He. unfold ChronoView.handle, mbind, M_bind. destruct (sidebar e s) as [[[]|x|] s1]; [|done..].
  rewrite He. unfold when_connected, mbind, M_bind, this. cbn. by destruct (connected s1.2).
Qed.

Lemma handle_panel e s m :
  sidebar e = mret tt -> main_panel e = when_connected m -> connected s.2 = true -> handle e s = m s.
Proof.
  intros He Hm Hc. unfold ChronoView.handle, mbind, M_bind. rewrite He. cbn. rewrite Hm.
  unfold when_connected, mbind, M_bind, this. cbn. by rewrite Hc.
Qed.

Lemma follows_press {A} P Q sc label (f : bool -> Frame A) :
  (forall b, (existsb snd sc = true -> b = false) -> follows P sc (f b) Q) -> follows P sc (press label ≫= f) Q.
Proof.
  intros Hf s Hok HP Hsc Hmis.
  set (t := (s.1, (s.2.1, MkScreen (user s.2.2) (scopes s.2.2) (drawn s.2.2 ++ [button label]) (misused s.2.2)))).
  change ((press label ≫= f) s) with ((ask (pressed (existsb snd (scopes s.2.2)) label) ≫= f) t).
  rewrite Hsc. refine (follows_ask P Q sc (pressed (existsb snd sc) label) f _ t Hok HP Hsc Hmis).
  intros u. apply Hf. intros ->. apply pressed_disabled.
Qed.

(** A button of the main panel. *)
Lemma follows_button sc label e m :
  sidebar e = mret tt -> main_panel e = when_connected m -> event_ok e -> stays m ->
  follows (connection (negb (existsb snd sc))) sc (on_press label m) (connection (negb (existsb snd sc))).
Proof.
  intros He Hm Hok Hstays. apply follows_press. intros [] Hb; [|apply follows_ret].
  apply (follows_event _ _ _ _ e). intros s _ Hc. destruct (existsb snd sc); [by specialize (Hb eq_refl)|].
  split; [done|]. split; [by apply handle_panel|]. intros _. by rewrite Hstays.
Qed.

(** A widget that writes through a pointer. *)
Lemma follows_edit {T} c sc (q : bool -> T -> U -> T * U) (get : Inputs -> T) (write : T -> Inputs -> Inputs)
    (e : T -> Inputs -> event) :
  (forall i, write (get i) i = i) -> (forall x u, (q true x u).1 = x) ->
  (existsb snd sc = false -> forall w g u, gui_ok g -> connected g = c ->
     let x := (q false (get (inputs g)) u).1 in
     event_ok (e x (inputs g)) /\ handle (e x (inputs g)) (w, g) = set_inputs (write x) (w, g)) ->
  follows (connection c) sc
    (g ← the_state; d ← disabled; x ← ask (q d (get (inputs g))); in_gui (set_inputs (write x))) (connection c).
Proof.
  intros Hsame Hdisabled Hevent. apply follows_state. intros g Hok Hc. apply follows_disabled, follows_ask. intros u.
  destruct (existsb snd sc).
  - rewrite Hdisabled. eapply follows_mono; [apply (follows_nothing (eq g))|done|by intros ? <-].
    intros [w g'] Hg. cbn in Hg. subst g'. unfold set_inputs, set_this, modify. cbn. rewrite Hsame. by destruct g.
  - apply (follows_event _ _ _ _ (e (q false (get (inputs g)) u).1 (inputs g))). intros [w g'] _ Hg. cbn in Hg. subst g'.
    destruct (Hevent eq_refl w g u Hok Hc) as [He Hrun]. split_and!; [done..|]. by intros _.
Qed.

(** What is only drawn. *)
Lemma follows_stats P sc stats : follows P sc (draw_stats stats) P.
Proof.
  apply follows_begun; [|done]. do 3 (apply follows_bind with (R := P); [apply follows_show|intros _]). apply follows_show.
Qed.

Lemma follows_status P sc : follows P sc draw_status P.
Proof. apply follows_state. intros g _ HP. eapply follows_mono; [apply (follows_show (eq g))|done|by intros ? <-]. Qed.

Lemma follows_rows P sc samples rows :
  Forall (fun row => 0 <= row < size samples) rows -> follows P sc (draw_rows samples rows) P.
Proof.
  induction 1 as [|row rows [Hlo Hhi] _ IH]; cbn [draw_rows]; [apply follows_ret|].
  apply follows_bind with (R := P); [|by intros _]. unfold element. rewrite (proj2 (Z.ltb_ge _ _)) by lia.
  destruct (size_lookup samples (Z.to_nat row)) as [sample ->]; [lia|]. apply follows_show.
Qed.

Lemma follows_ranges P sc samples ranges :
  Forall (fun rows => 0 <= rows.1 /\ rows.2 <= size samples) ranges -> follows P sc (draw_ranges samples ranges) P.
Proof.
  induction 1 as [|[a b] ranges [Ha Hb] _ IH]; cbn [draw_ranges fst snd] in *; [apply follows_ret|].
  apply follows_bind with (R := P); [|by intros _]. apply follows_rows, Forall_forall.
  intros row Hrow%elem_of_seqZ. lia.
Qed.

Lemma int_of_small n : 0 <= n <= max_int -> int_of n = n.
Proof. unfold int_of, max_int. intros Hn. rewrite Z.mod_small by lia. by rewrite (proj2 (Z.ltb_lt _ _)) by lia. Qed.

Lemma follows_sample_table P sc samples identifier : follows P sc (draw_sample_table samples identifier) P.
Proof.
  apply follows_begun; [|done]. apply follows_bind with (R := P); [apply follows_show|intros _].
  apply follows_ask. intros u. apply follows_ranges. pose proof (size_nonneg samples).
  rewrite int_of_small by (unfold max_int; lia).
  eapply Forall_impl; [apply clipped_rows|]. intros rows [Ha Hb]. split; lia.
Qed.

Lemma read_first_all {A} (xs : list A) n : 0 <= n <= size xs -> is_Some (read_first xs n).
Proof. intros Hn. unfold read_first. rewrite !(proj2 (Z.leb_le _ _)) by lia. eauto. Qed.

Lemma follows_results c sc : follows (connection c) sc draw_results (connection c).
Proof.
  apply follows_bind with (R := connection c); [apply follows_show|intros _]. apply follows_state. intros g (_ & Hr & _) Hc.
  apply follows_mono with (P' := eq g) (Q' := eq g); [|done|by intros ? <-]. unfold results_ok in Hr.
  cbv zeta. destruct (query_kind_ (results g)); [apply follows_show|..].
  1, 2: destruct (single_result_ (results g)); [apply follows_sample_table|apply follows_show].
  destruct Hr as (_ & Hx & Hy). apply follows_bind with (R := eq g); [apply follows_show|intros _].
  case_bool_decide; [apply follows_show|]. apply follows_bind with (R := eq g); [|intros _; apply follows_sample_table].
  apply follows_begun; [|done]. apply follows_bind with (R := eq g); [apply follows_show|intros _]. unfold plot_line.
  pose proof (size_nonneg (plot_x_ (results g))). rewrite int_of_small by (unfold max_int; lia).
  assert (size (plot_y_ (results g)) = size (plot_x_ (results g))) as Hlen.
  { unfold size. by rewrite Hy, length_map, Hx. }
  destruct (read_first_all (plot_x_ (results g)) (Z.min (size (plot_x_ (results g))) max_int)) as [xs ->]; [unfold max_int; lia|].
  destruct (read_first_all (plot_y_ (results g)) (Z.min (size (plot_x_ (results g))) max_int)) as [ys ->]; [unfold max_int; lia|].
  apply follows_show.
Qed.

(** ** The tabs *)

(** A widget of the main panel is disabled unless the database is open. *)
Abbreviation panel sc := (connection (negb (existsb snd sc))).

Ltac panel_event Hsc w g :=
  intros Hsc w g u Hok Hc; rewrite Hsc in Hc;
  (split; [try done|(erewrite handle_panel; [|reflexivity|reflexivity|exact Hc]); by destruct g as [[]]]).

Lemma follows_editor sc : follows (panel sc) sc draw_series_editor (panel sc).
Proof.
  apply follows_bind with (R := panel sc); [apply follows_show|intros _].
  apply follows_bind with (R := panel sc).
  { refine (follows_edit _ sc (fun d => typed d "##measurement") measurement_ write_measurement
      (fun f i => edit_series f (tags_ i)) _ _ _); [by intros []|intros; apply typed_disabled|].
    panel_event Hsc w g. destruct Hok as ((_ & Hm & Ht) & _). split; [by apply typed_fits|done]. }
  intros _. apply follows_bind with (R := panel sc); [apply follows_show|intros _].
  refine (follows_edit _ sc (fun d => typed d "##tags") tags_ write_tags
    (fun f i => edit_series (measurement_ i) f) _ _ _); [by intros []|intros; apply typed_disabled|].
  panel_event Hsc w g. destruct Hok as ((_ & Hm & Ht) & _). split; [done|by apply typed_fits].
Qed.

(** The inputs of a query and of a sample. *)
Lemma follows_scalar sc label get write e :
  (forall i, write (get i) i = i) ->
  (forall n i w g, connected g = true -> inputs g = i -> handle (e n i) (w, g) = set_inputs (write n) (w, g)) ->
  (forall n i, event_ok (e n i)) ->
  follows (panel sc) sc (input_scalar label get write) (panel sc).
Proof.
  intros Hsame He Hok. refine (follows_edit _ sc (fun d => entered d label) get write e Hsame _ _); [intros; apply entered_disabled|].
  intros Hsc w g u _ Hc. rewrite Hsc in Hc. split; [apply Hok|by apply He].
Qed.

Ltac scalar_event e :=
  refine (follows_scalar _ _ _ _ e _ _ _);
    [by intros []|intros n i w g Hc <-; (erewrite handle_panel; [|reflexivity|reflexivity|exact Hc]); by destruct g as [[]]|done].

Lemma follows_explore sc : follows (panel sc) sc (draw_explore_tab long_difference) (panel sc).
Proof.
  eapply follows_bind; [apply follows_editor|intros _].
  eapply follows_bind; [apply follows_show|intros _].
  eapply follows_bind; [by apply (follows_button sc _ press_latest); auto with stays|intros _].
  eapply follows_bind; [apply follows_show|intros _].
  eapply follows_bind; [apply (follows_begun (panel sc) (panel sc)); [|done]|intros _].
  { eapply (follows_bind (panel ((in_table, false) :: sc)));
      [scalar_event (fun n i => edit_query n (range_start_ i) (range_end_ i))|intros _].
    by apply (follows_button ((in_table, false) :: sc) _ press_get); auto with stays. }
  eapply follows_bind; [apply (follows_begun (panel sc) (panel sc)); [|done]|intros _].
  { eapply follows_bind; [apply follows_show|intros _].
    eapply (follows_bind (panel ((in_table, false) :: sc)));
      [scalar_event (fun n i => edit_query (point_timestamp_ i) n (range_end_ i))|intros _].
    eapply follows_bind; [apply follows_show|intros _].
    apply (follows_mono (panel ((in_table, false) :: sc)) (panel ((in_table, false) :: sc)) _ (panel ((in_table, false) :: sc)));
      [scalar_event (fun n i => edit_query (point_timestamp_ i) (range_start_ i) n)|done..]. }
  eapply follows_bind; [by apply (follows_button sc _ press_run_range); auto with stays|intros _].
  apply follows_results.
Qed.

Lemma follows_write sc : follows (panel sc) sc (draw_write_tab long_difference demo_value) (panel sc).
Proof.
  eapply follows_bind; [apply follows_editor|intros _].
  do 2 (eapply follows_bind; [apply follows_show|intros _]).
  eapply (follows_bind (panel sc)); [scalar_event (fun n i => edit_sample n (write_value_ i))|intros _].
  eapply follows_bind; [apply follows_show|intros _].
  eapply (follows_bind (panel sc)).
  { refine (follows_edit _ sc (fun d => entered_double d "##write_value") write_value_ write_value
      (fun v i => edit_sample (write_timestamp_ i) v) _ _ _); [by intros []|intros; apply entered_double_disabled|].
    panel_event Hsc w g. }
  intros _. eapply follows_bind; [by apply (follows_button sc _ press_put); auto with stays|intros _].
  by apply (follows_button sc _ press_demo); auto with stays.
Qed.

Lemma follows_maintenance sc : follows (panel sc) sc draw_maintenance_tab (panel sc).
Proof.
  eapply follows_bind; [apply follows_show|intros _]. apply follows_state. intros g _ Hc.
  apply follows_mono with (P' := panel sc) (Q' := panel sc); [|by intros ? <-|done].
  eapply follows_bind; [apply follows_stats|intros _].
  eapply follows_bind; [apply follows_show|intros _].
  eapply follows_bind; [by apply (follows_button sc _ press_sync); auto with stays|intros _].
  eapply follows_bind; [by apply (follows_button sc _ press_flush); auto with stays|intros _].
  by apply (follows_button sc _ press_compact); auto with stays.
Qed.

Abbreviation anything := (fun _ : GuiState => True).

Lemma follows_main_panel sc :
  existsb snd sc = false -> follows anything sc (draw_main_panel long_difference demo_value) anything.
Proof.
  intros Hsc. apply follows_state. intros g _ _.
  set (sc' := (in_disabled, negb (connected g)) :: sc).
  apply follows_mono with (P' := panel sc') (Q' := panel sc'); [|intros ? <-|done].
  2: { subst sc'. cbn. rewrite Hsc, orb_false_r. by rewrite negb_involutive. }
  apply follows_scope, follows_begun; [|done]. fold sc'.
  eapply follows_bind; [apply (follows_begun (panel sc') (panel sc')); [apply (follows_explore ((in_tab_item, false) :: (in_tab_bar, false) :: sc'))|done]|intros _].
  eapply follows_bind; [apply (follows_begun (panel sc') (panel sc')); [apply (follows_write ((in_tab_item, false) :: (in_tab_bar, false) :: sc'))|done]|intros _].
  apply (follows_begun (panel sc') (panel sc')); [apply (follows_maintenance ((in_tab_item, false) :: (in_tab_bar, false) :: sc'))|done].
Qed.

(** ** The sidebar *)

Lemma follows_opening sc c :
  existsb snd sc = false ->
  follows (connection c) ((in_disabled, c) :: sc)
    (show (text "Path");;
     input_text "##database_path" database_path_ write_path;;
     checkbox "Sync on write" sync_on_write_ write_sync_on_write;;
     show (text "Flush threshold");;
     input_scalar "##flush_threshold" flush_threshold_samples_ write_flush_threshold) (connection c).
Proof.
  intros Hsc. assert (existsb snd ((in_disabled, c) :: sc) = c) as Hd by (cbn; by rewrite Hsc, orb_false_r).
  assert (forall path b n w g, connected g = false ->
    handle (edit_database path b n) (w, g) = set_inputs (fun i => MkInputs path (measurement_ i) (tags_ i) b n
      (point_timestamp_ i) (range_start_ i) (range_end_ i) (write_timestamp_ i) (write_value_ i)) (w, g)) as Hedit.
  { intros path b n w g Hc. rewrite handle_sidebar by done. cbn. unfold unless_connected, mbind, M_bind, this. cbn. by rewrite Hc. }
  eapply follows_bind; [apply follows_show|intros _].
  eapply (follows_bind (connection c)).
  { refine (follows_edit _ _ (fun d => typed d "##database_path") database_path_ write_path
      (fun f i => edit_database f (sync_on_write_ i) (flush_threshold_samples_ i)) _ _ _); [by intros []|intros; apply typed_disabled|].
    intros E w g u ((Hp & _ & _) & _) Hc. rewrite Hd in E. subst c. split; [by apply typed_fits|].
    rewrite Hedit by congruence. by destruct g as [[]]. }
  intros _. eapply (follows_bind (connection c)).
  { refine (follows_edit _ _ (fun d => toggled d "Sync on write") sync_on_write_ write_sync_on_write
      (fun b i => edit_database (database_path_ i) b (flush_threshold_samples_ i)) _ _ _); [by intros []|intros; apply toggled_disabled|].
    intros E w g u ((Hp & _ & _) & _) Hc. rewrite Hd in E. subst c. split; [done|].
    rewrite Hedit by congruence. by destruct g as [[]]. }
  intros _. eapply follows_bind; [apply follows_show|intros _].
  refine (follows_edit _ _ (fun d => entered d "##flush_threshold") flush_threshold_samples_ write_flush_threshold
    (fun n i => edit_database (database_path_ i) (sync_on_write_ i) n) _ _ _); [by intros []|intros; apply entered_disabled|].
  intros E w g u ((Hp & _ & _) & _) Hc. rewrite Hd in E. subst c. split; [done|].
  rewrite Hedit by congruence. by destruct g as [[]].
Qed.

(** A button of the sidebar, which is never disabled there. *)
Lemma follows_sidebar_button (P Q : GuiState -> Prop) sc label e m :
  event_ok e -> (forall g, P g -> Q g) ->
  (forall s, P s.2 -> handle e s = m s /\ ((m s).1 = Done tt -> Q (m s).2.2)) ->
  follows P sc (on_press label m) Q.
Proof.
  intros He HPQ Hm. apply follows_press. intros [] _.
  - apply (follows_event _ _ _ _ e). intros s _ HP. split; [done|]. by apply Hm.
  - by eapply follows_mono; [apply follows_ret| |].
Qed.

Lemma follows_open sc : follows (connection false) sc (on_press "Open" (perform "Database opened" open_database)) anything.
Proof.
  apply (follows_sidebar_button _ _ _ _ press_open); [done..|]. intros s Hc. split; [|done].
  rewrite handle_sidebar by done. cbn. unfold unless_connected, mbind, M_bind, this. cbn. by rewrite Hc.
Qed.

Lemma follows_refresh_close sc :
  follows (connection true) sc
    (on_press "Refresh" (perform "Metadata refreshed" refresh_metadata);; on_press "Close" close_database) anything.
Proof.
  assert (forall e m s, sidebar e = when_connected m -> main_panel e = when_connected (mret tt) ->
    connected s.2 = true -> handle e s = m s) as Hrun.
  { intros e m s He Hm Hc. rewrite handle_sidebar by done. rewrite He. unfold when_connected, mbind, M_bind, this. cbn. by rewrite Hc. }
  apply follows_bind with (R := connection true); [|intros _].
  - apply (follows_sidebar_button _ _ _ _ press_refresh); [done..|]. intros s Hc. split; [by apply Hrun|]. intros _.
    by rewrite (stays_perform _ _ stays_refresh).
  - apply (follows_sidebar_button _ _ _ _ press_close); [done..|]. intros s Hc. split; [by apply Hrun|done].
Qed.

Lemma follows_series known sc turns index :
  Z.of_nat turns + Z.of_nat index = size known ->
  follows (fun g => known_series_ g = known) sc (draw_series turns index) (fun g => known_series_ g = known).
Proof.
  revert index. induction turns as [|turns IH]; intros index Hn; cbn [draw_series]; apply follows_state; intros g _ Hk; rewrite Hk;
    (apply follows_mono with (P' := fun g => known_series_ g = known) (Q' := fun g => known_series_ g = known); [|by intros ? <-|done]).
  { rewrite (proj2 (Z.leb_le _ _)) by lia. apply follows_ret. }
  rewrite (proj2 (Z.leb_gt _ _)) by lia. destruct (size_lookup known index) as [series ->]; [lia|]. cbv zeta.
  eapply follows_bind; [apply follows_show|intros _]. apply follows_disabled, follows_ask. intros u.
  eapply (follows_bind (fun g => known_series_ g = known)).
  { destruct (pressed _ _ u).1; [|apply follows_ret]. apply (follows_event _ _ _ _ (choose_series index)).
    intros s _ Hs. split; [done|]. split; [by apply handle_sidebar|]. intros _. by rewrite select_series_known. }
  intros _. apply follows_ask. intros u'.
  eapply (follows_bind (fun g => known_series_ g = known)); [destruct (asked _ u').1; [apply follows_show|apply follows_ret]|intros _].
  apply IH. lia.
Qed.

Lemma follows_scope_then {B} P R Q sc k b (body : Frame unit) (rest : Frame B) :
  follows P ((k, b) :: sc) body R -> follows R sc rest Q ->
  follows P sc (begin_scope k b;; body;; end_scope k;; rest) Q.
Proof.
  intros Hbody Hrest s Hok HP Hsc Hmis.
  assert ((begin_scope k b;; body;; end_scope k;; rest) s = ((begin_scope k b;; body;; end_scope k);; rest) s) as ->.
  { unfold mbind, M_bind. destruct (begin_scope k b s) as [[u|e|] s1]; [|done..]. by destruct (body s1) as [[u'|e|] s2]. }
  by apply (follows_bind P R Q sc); [apply follows_scope| |..].
Qed.

Lemma follows_sidebar sc : existsb snd sc = false -> follows anything sc draw_sidebar anything.
Proof.
  intros Hsc. eapply follows_bind; [apply follows_show|intros _]. apply follows_state. intros g _ _.
  apply follows_scope_then with (R := connection (connected g)).
  { by eapply follows_mono; [apply follows_opening|intros ? <-|]. }
  apply follows_state. intros g1 _ Hc.
  apply follows_bind with (R := anything).
  { destruct (connected g1) eqn:E; cbn [negb];
      (eapply follows_mono; [first [apply follows_open|apply follows_refresh_close]|by intros ? <-|done]). }
  intros _. eapply follows_bind; [apply follows_show|intros _]. eapply follows_bind; [apply follows_status|intros _].
  eapply follows_bind; [apply follows_show|intros _]. apply follows_state. intros g2 _ _.
  apply follows_mono with (P' := anything) (Q' := anything); [|done..].
  eapply follows_bind; [apply follows_stats|intros _]. eapply follows_bind; [apply follows_show|intros _].
  apply follows_begun; [|done]. apply follows_state. intros g3 _ _.
  eapply (follows_bind _ (fun g => known_series_ g = known_series_ g3)).
  { eapply follows_mono; [apply (follows_series (known_series_ g3)); unfold size; lia|by intros ? <-|done]. }
  intros _. apply follows_state. intros g4 _ _.
  case_bool_decide; eapply follows_mono; [apply (follows_show anything)|done|done|apply (follows_ret anything)|done|done].
Qed.

(** ** The frames *)

Lemma follows_application : follows anything [] (draw_application long_difference demo_value version_string) anything.
Proof.
  apply follows_scope. do 2 (eapply follows_bind; [apply follows_show|intros _]).
  apply follows_bind with (R := anything); [|intros _]; (apply follows_child; [|done]).
  - by apply follows_sidebar.
  - by apply follows_main_panel.
Qed.

Lemma follows_frames count : follows anything [] (draw_frames long_difference demo_value version_string count) anything.
Proof.
  induction count as [|count IH]; cbn [draw_frames]; [apply follows_ret|].
  eapply follows_bind; [apply follows_application|]. by intros _.
Qed.

(** What the table shows: the samples of the rows that are to be drawn. *)
Definition sample_row (sample : Sample) : item :=
  table_row [cell_text (show_integer (nanoseconds_since_epoch (timestamp sample))); cell_value (sample_value sample)].
Definition rows_of (samples : list Sample) (rows : Z * Z) : list Sample :=
  take (Z.to_nat (rows.2 - rows.1)) (drop (Z.to_nat rows.1) samples).

(** [m] comes to its end having changed only the screen, where it showed [items]. *)
Definition shows (m : Frame unit) (s : world * (GuiState * Screen U)) (items : list item) : Prop :=
  exists u, m s = (Done tt, (s.1, (s.2.1, MkScreen u (scopes s.2.2) (drawn s.2.2 ++ items) (misused s.2.2)))).

Lemma shows_bind (m n : Frame unit) s items1 items2 :
  shows m s items1 ->
  (forall u, shows n (s.1, (s.2.1, MkScreen u (scopes s.2.2) (drawn s.2.2 ++ items1) (misused s.2.2))) items2) ->
  shows (m;; n) s (items1 ++ items2).
Proof.
  intros [u Hm] Hn. destruct (Hn u) as [u' Hn']. exists u'. unfold mbind, M_bind. rewrite Hm, Hn'. cbn. by rewrite app_assoc.
Qed.

(** What [n] shows may depend on ImGui. *)
Lemma shows_then (P : list item -> Prop) (m n : Frame unit) s items1 :
  shows m s items1 ->
  (forall u, exists items2, P (items1 ++ items2) /\
     shows n (s.1, (s.2.1, MkScreen u (scopes s.2.2) (drawn s.2.2 ++ items1) (misused s.2.2))) items2) ->
  exists items, P items /\ shows (m;; n) s items.
Proof.
  intros [u Hm] Hn. destruct (Hn u) as (items2 & HP & u' & Hn'). exists (items1 ++ items2). split; [done|].
  exists u'. unfold mbind, M_bind. rewrite Hm, Hn'. cbn. by rewrite app_assoc.
Qed.

Lemma shows_state (P : list item -> Prop) (f : GuiState -> Frame unit) s :
  (exists items, P items /\ shows (f s.2.1) s items) -> exists items, P items /\ shows (the_state ≫= f) s items.
Proof. done. Qed.

Lemma shows_show i s : shows (show i) s [i].
Proof. by exists (user s.2.2). Qed.
Lemma shows_ret s : shows (mret tt) s [].
Proof. exists (user s.2.2). rewrite app_nil_r. by destruct s as [w [g []]]. Qed.

Lemma shows_begun k label body s items :
  (forall u, (asked label u).1 = true) ->
  (forall u sc, shows body (s.1, (s.2.1, MkScreen u sc (drawn s.2.2) (misused s.2.2))) items) ->
  shows (when_begun k label body) s items.
Proof.
  intros Hv Hbody. unfold shows, when_begun, ask, mbind, M_bind. specialize (Hv (user s.2.2)).
  destruct (asked label (user s.2.2)) as [b u]. cbn in Hv. subst b. cbn.
  destruct (Hbody u ((k, false) :: scopes s.2.2)) as [u' ->]. exists u'. by destruct k.
Qed.

Lemma shows_rows samples a n s :
  0 <= a -> a + Z.of_nat n <= size samples ->
  shows (draw_rows samples (seqZ a (Z.of_nat n))) s (map sample_row (take n (drop (Z.to_nat a) samples))).
Proof.
  revert a s. induction n as [|n IH]; intros a s Ha Hn; [apply shows_ret|].
  rewrite seqZ_cons by lia. cbn [draw_rows]. unfold element at 1. rewrite (proj2 (Z.ltb_ge _ _)) by lia.
  destruct (size_lookup samples (Z.to_nat a)) as [sample E]; [lia|]. rewrite E, (drop_S _ _ _ E). cbn [take map].
  apply (shows_bind (show (sample_row sample)) _ _ [_]); [apply shows_show|]. intros u.
  replace (Z.pred (Z.of_nat (S n))) with (Z.of_nat n) by lia.
  replace (S (Z.to_nat a)) with (Z.to_nat (Z.succ a)) by lia. apply IH; lia.
Qed.

Lemma shows_ranges samples ranges s :
  Forall (fun rows => 0 <= rows.1 /\ rows.2 <= size samples) ranges ->
  shows (draw_ranges samples ranges) s (map sample_row (concat (map (rows_of samples) ranges))).
Proof.
  intros Hr. revert s. induction Hr as [|[a b] ranges [Ha Hb] _ IH]; intros s; cbn [draw_ranges concat map]; [apply shows_ret|].
  rewrite map_app. cbn [fst snd] in *. apply shows_bind; [|intros u; apply IH]. unfold rows_of. cbn [fst snd].
  destruct (decide (a <= b)).
  - replace (b - a) with (Z.of_nat (Z.to_nat (b - a))) at 1 by lia. apply shows_rows; lia.
  - replace (Z.to_nat (b - a)) with 0%nat by lia. unfold seqZ. replace (Z.to_nat (b - a)) with 0%nat by lia. apply shows_ret.
Qed.

Lemma shows_table samples identifier s :
  (forall u, (asked identifier u).1 = true) -> size samples <= max_int ->
  exists ranges, Forall (fun rows => 0 <= rows.1 /\ rows.2 <= size samples) ranges /\
    shows (draw_sample_table samples identifier) s
      (headers ["Timestamp (ns)"; "Value"] :: map sample_row (concat (map (rows_of samples) ranges))).
Proof.
  intros Hv Hn. pose proof (size_nonneg samples).
  pose proof (Hv (user s.2.2)) as Hu. destruct (asked identifier (user s.2.2)) as [b u] eqn:E. cbn in Hu. subst b.
  exists (clipped (size samples) u).1. pose proof (clipped_rows (size samples) u) as Hr. split; [exact Hr|].
  unfold shows, draw_sample_table, when_begun, ask, mbind, M_bind. rewrite E. cbn -[draw_ranges Z.min].
  rewrite Z.min_l, int_of_small by lia. destruct (clipped (size samples) u) as [ranges u'] eqn:E'. cbn [fst snd] in *.
  edestruct (shows_ranges samples ranges) as [u'' ->]; [exact Hr|]. exists u''. cbn. by rewrite <-app_assoc.
Qed.

Lemma read_first_everything {A} (xs : list A) : read_first xs (size xs) = Some xs.
Proof.
  pose proof (size_nonneg xs). unfold read_first. rewrite !(proj2 (Z.leb_le _ _)) by lia. cbn. f_equal.
  apply take_ge. unfold size. lia.
Qed.
End Frames.

Section Session.
Context {U : Type} `{ImGuiLaws U} (long_difference : Z -> Z -> double) (demo_value : Z -> double) (version_string : string).

Abbreviation frames := (draw_frames (U := U) long_difference demo_value version_string).
Abbreviation handled := (handle_all long_difference demo_value).

Lemma in_gui_if (b : bool) (m : Gui unit) (s : world * (GuiState * Screen U)) :
  (if b then in_gui m else mret tt) s =
  let '(o, t) := (if b then m else mret tt) (s.1, s.2.1) in (o, (t.1, (t.2, s.2.2))).
Proof. destruct b; [done|]. by destruct s as [w [g c]]. Qed.

Lemma keeps_Done {A} (m : Gui A) s a s' : keeps m -> gui_ok s.2 -> m s = (Done a, s') -> gui_ok s'.2.
Proof. intros Hm Hs Hrun. specialize (Hm s Hs). unfold wp in Hm. rewrite Hrun in Hm. by destruct Hm as [Hm|Hm]. Qed.

(** The frames and the end of the session. *)
Lemma frames_and_close count s :
  gui_ok s.2.1 -> scopes s.2.2 = [] -> misused s.2.2 = false ->
  exists events, Forall event_ok events /\
    (handled events;; close_database) (s.1, s.2.1) =
      (((frames count;; in_gui close_database) s).1,
       (((frames count;; in_gui close_database) s).2.1, ((frames count;; in_gui close_database) s).2.2.1)) /\
    misused ((frames count;; in_gui close_database) s).2.2.2 = false /\
    (((frames count;; in_gui close_database) s).1 = Done tt -> scopes ((frames count;; in_gui close_database) s).2.2.2 = []).
Proof.
  intros Hok Hsc Hmis.
  destruct (follows_frames long_difference demo_value version_string count s Hok I Hsc Hmis) as (events & He & Hrun & Hmis1 & Hdone).
  exists events. split; [done|]. unfold mbind, M_bind. rewrite Hrun.
  destruct (frames count s) as [[u|e|] s1]; cbn [plain fst snd] in *; [|done..].
  destruct (Hdone u eq_refl) as [Hsc1 _]. unfold in_gui, zoom. by destruct (close_database (s1.1, s1.2.1)) as [o [w g]].
Qed.

(** What [run_gui] does before the first frame. *)
Definition start (open_on_start demo : bool) : Gui unit :=
  (if open_on_start then perform "Database opened" open_database else mret tt);;
  g ← this;
  if demo && connected g then perform "Demo series generated" (generate_demo long_difference demo_value) else mret tt.

Lemma gui_session_start open_on_start demo events s :
  gui_session long_difference demo_value open_on_start demo events s = (start open_on_start demo;; handled events;; close_database) s.
Proof.
  unfold gui_session, start, mbind, M_bind, this.
  by destruct ((if open_on_start then perform "Database opened" open_database else mret tt) s) as [[u|e|] s1].
Qed.

Lemma draw_session_start open_on_start demo count (s : world * (GuiState * Screen U)) :
  draw_session long_difference demo_value version_string open_on_start demo count s =
  (in_gui (start open_on_start demo);; frames count;; in_gui close_database) s.
Proof.
  set (close := in_gui close_database). unfold draw_session. fold close.
  unfold mbind, M_bind, the_state. rewrite in_gui_if. unfold in_gui at 2, zoom, start, mbind, M_bind, this.
  destruct ((if open_on_start then perform "Database opened" open_database else mret tt) (s.1, s.2.1)) as [[u|e|] s1]; [|done..].
  rewrite in_gui_if. cbn [fst snd]. rewrite <-(surjective_pairing s1).
  match goal with |- context [(if demo && connected s1.2 then ?m else _) s1] => by destruct ((if demo && connected s1.2 then m else mret tt) s1) as [[u'|e|] s2] end.
Qed.

Lemma keeps_start open_on_start demo : keeps (start open_on_start demo).
Proof.
  unfold start. apply keeps_bind; [auto with gui|]. intros _. apply keeps_bind; [auto with gui|].
  intros g. auto using keeps_generate_demo with gui.
Qed.
End Session.

(** ** Theorems *)

(** C38: the frames do what the events do.  Whatever ImGui answers, a run of the window
    over any number of frames does to the files, to the database and to the state what
    some presses, choices and edits do, each of which leaves a text field terminated, and
    ends as they do, with the same exception if any; no drawing reads outside an array;
    and every Begin has met its End unless an exception left the frame. *)
Theorem frames_are_events {U} `{ImGuiLaws U} long_difference demo_value version_string path g w user open_on_start demo count o s :
  make_GuiState path = Ok g ->
  draw_session long_difference demo_value version_string open_on_start demo count (w, (g, MkScreen user [] [] false)) = (o, s) ->
  misused s.2.2 = false /\ (o = Done tt -> scopes s.2.2 = []) /\
  exists events, Forall event_ok events /\
    gui_session long_difference demo_value open_on_start demo events (w, g) = (o, (s.1, s.2.1)).
Proof.
  intros Hg%make_GuiState_ok. rewrite draw_session_start. unfold mbind at 1, M_bind at 1, in_gui at 1, zoom. cbn [fst snd].
  pose proof (fun events => gui_session_start long_difference demo_value open_on_start demo events (w, g)) as Hstart.
  unfold mbind at 1, M_bind at 1 in Hstart.
  destruct (start long_difference demo_value open_on_start demo (w, g)) as [[u|e|] s1] eqn:E.
  2, 3: by intros [= <- <-]; split_and!; [done..|exists []; split; [done|rewrite Hstart; by destruct s1]].
  pose proof (keeps_Done _ (w, g) _ _ (keeps_start long_difference demo_value open_on_start demo) Hg E) as Hg1. intros Hrun.
  destruct (frames_and_close long_difference demo_value version_string count (s1.1, (s1.2, MkScreen user [] [] false)) Hg1 eq_refl eq_refl)
    as (events & He & Hevents & Hmis & Hsc).
  rewrite Hrun in *. cbn [fst snd] in *. rewrite <-surjective_pairing in Hevents. split_and!; [done..|].
  exists events. by rewrite Hstart.
Qed.

(** A user who presses the buttons of a list, each as soon as it is there and enabled,
    and a window that shows everything. *)
#[local] Instance pressing : ImGui (list string) := {
  asked _ u := (true, u);
  pressed d label u :=
    match u with
    | next :: rest => if negb d && bool_decide (next = label) then (true, rest) else (false, u)
    | [] => (false, u)
    end;
  toggled _ _ b u := (b, u);
  typed _ _ f u := (f, u);
  entered _ _ n u := (n, u);
  entered_double _ _ v u := (v, u);
  clipped n u := ([(0, n)], u);
}.

#[local] Instance pressing_laws : ImGuiLaws (list string).
Proof. split; intros; try done; [by destruct u|by repeat constructor]. Qed.

Definition example_frames : outcome unit * (world * (GuiState * Screen (list string))) :=
  draw_session example_difference example_value "1.0.0" false false 2
    (World (Fsys ∅ ∅ 0%nat ∅ ∅) [], (example_gui, MkScreen ["Open"; "Put"; "Run range"] [] [] false)).

(** The sample that is put in the first frame is plotted and listed in the second. *)
Lemma frames_are_events_witness :
  example_frames.1 = Done tt /\
  line "Value" [(MkDouble 0, write_value_ (inputs example_gui))] ∈ drawn example_frames.2.2.2 /\
  (misused example_frames.2.2.2 = false /\ (example_frames.1 = Done tt -> scopes example_frames.2.2.2 = []) /\
   exists events, Forall event_ok events /\
     gui_session example_difference example_value false false events (World (Fsys ∅ ∅ 0%nat ∅ ∅) [], example_gui) =
     (example_frames.1, (example_frames.2.1, example_frames.2.2.1))).
Proof.
  split; [vm_compute; reflexivity|]. split.
  { apply (bool_decide_unpack _). vm_compute. exact I. }
  exact (frames_are_events example_difference example_value "1.0.0" "db" example_gui (World (Fsys ∅ ∅ 0%nat ∅ ∅) [])
    ["Open"; "Put"; "Run range"] false false 2 example_frames.1 example_frames.2 eq_refl (surjective_pairing _)).
Defined.

(** A range is shown as it was read: its number of samples, one point for each sample, at
    the distance from the first, and in the table the samples of the rows in sight. *)
Theorem range_is_drawn {U} `{ImGuiLaws U} long_difference first samples x y (s : world * (GuiState * Screen U)) :
  results s.2.1 = rebuild_plot long_difference (MkResults QueryKind.range None (first :: samples) x y) ->
  (forall u, (asked "##range_plot" u).1 = true) -> (forall u, (asked "range_result" u).1 = true) ->
  size (first :: samples) <= max_int ->
  exists ranges, Forall (fun rows => 0 <= rows.1 /\ rows.2 <= size (first :: samples)) ranges /\
    shows draw_results s
      ([separator_text "Results"; text (show_integer (size (first :: samples)) +:+ " samples");
        axes "Nanoseconds from first sample" "Value";
        line "Value" (map (fun sample => (long_difference (nanoseconds_since_epoch (timestamp sample))
          (nanoseconds_since_epoch (timestamp first)), sample_value sample)) (first :: samples));
        headers ["Timestamp (ns)"; "Value"]] ++
       map sample_row (concat (map (rows_of (first :: samples)) ranges))).
Proof.
  intros Hres Hplot Htable Hn.
  set (points := map _ (first :: samples)). set (table := fun ranges => map sample_row (concat (map (rows_of (first :: samples)) ranges))).
  set (sep := separator_text "Results"). set (count := text (show_integer (size (first :: samples)) +:+ " samples")).
  set (xy := axes "Nanoseconds from first sample" "Value").
  set (wanted := fun items => exists ranges, Forall (fun rows => 0 <= rows.1 /\ rows.2 <= size (first :: samples)) ranges /\
    items = [sep; count; xy; line "Value" points; headers ["Timestamp (ns)"; "Value"]] ++ table ranges).
  cut (exists items, wanted items /\ shows draw_results s items); [by intros (? & (ranges & ? & ->) & ?); exists ranges|].
  unfold draw_results. apply shows_then with (items1 := [sep]); [apply shows_show|]. intros u1.
  apply (shows_state (fun items => wanted ([sep] ++ items))). cbn [fst snd]. rewrite Hres. unfold rebuild_plot. cbn [range_result_ query_kind_ single_result_ plot_x_ plot_y_].
  apply (shows_then (fun items => wanted ([sep] ++ items)) _ _ _ [count]); [apply shows_show|]. intros u2. rewrite bool_decide_false by done.
  apply (shows_then (fun items => wanted ([sep; count] ++ items)) _ _ _ [xy; line "Value" points]).
  { apply shows_begun; [exact Hplot|]. intros u sc. apply (shows_bind _ _ _ [xy] [line "Value" points]); [apply shows_show|]. intros u3.
    assert (forall f : Sample -> double, size (map f (first :: samples)) = size (first :: samples)) as Hmap.
    { intros f. unfold size. by rewrite length_map. }
    rewrite Hmap, Z.min_l, int_of_small by (pose proof (size_nonneg (first :: samples)); lia). unfold plot_line.
    rewrite <-(Hmap (fun sample => long_difference (nanoseconds_since_epoch (timestamp sample)) (nanoseconds_since_epoch (timestamp first)))) at 1.
    rewrite read_first_everything, <-(Hmap sample_value), read_first_everything.
    replace (zip _ _) with points; [apply shows_show|]. subst points. clear. generalize (first :: samples).
    intros l. induction l as [|sample l IH]; [done|]. cbn. by f_equal. }
  intros u3. edestruct (shows_table (first :: samples) "range_result") as (ranges & Hr & Hshows); [exact Htable|exact Hn|].
  eexists. split; [by exists ranges|exact Hshows].
Qed.
