(* ===== verification/Benchmark.v ===== *)
(** * The benchmark (src/tools/chronostore_benchmark/main.cpp)

    [benchmark_main] is [main] on the list of its arguments: it makes a scratch
    directory, writes samples in order, runs range queries over them, prints what it
    read and removes the directory.  The clock, the floating-point arithmetic on its
    readings and on the sample values, the text of a [double] and the default
    directory's name are parameters. *)

From stdpp Require Import base tactics option numbers list strings gmap.
From Stdlib Require Import ZArith Lia.
From S2P Require Import Prelude Errors World Model StorageEngine Database Text Tools.

Definition parse_count (text : string) : result Z :=
  let invalid := invalid_argument "sample count must be a positive integer" in
  match from_chars_u64 text with
  | Some (value, EmptyString) =>
    throw_if ((value =? 0) || (2 ^ 63 - 1 <? value)) invalid;;
    Ok value
  | _ => Err invalid
  end.

(** ** The scratch directory *)

Definition EEXIST : Z := 17.

(** [std::filesystem::create_directory]: [false] if the directory is there already. *)
Definition sys_create_directory (place : string) : M world (sysret bool) :=
  sys_change (fun fs =>
    match places fs !! place with
    | Some true => (SysOk false, fs)
    | Some false => (SysErr EEXIST, fs)
    | None => (SysOk true, Fsys (entries fs) (inodes fs) (next_inode fs) (locks fs) (<[place := true]> (places fs)))
    end).

(** [std::filesystem::remove_all] of a directory of files. *)
Definition remove_directory (place : string) (fs : fsys) : fsys :=
  Fsys (map_imap (fun p h => Some (if decide (parent_path p = place) then push None h else h)) (entries fs))
       (inodes fs) (next_inode fs) (locks fs) (delete place (places fs)).
Definition sys_remove_all (place : string) : M world (sysret unit) :=
  sys_change (fun fs => (SysOk tt, remove_directory place fs)).

(** [ScratchDatabaseDirectory]: its constructor, and its scope with the destructor. *)
Definition scratch_open (path : string) : M world unit :=
  created ← sys_create_directory path;
  match created with
  | SysErr error => throw (system_error error "failed to create benchmark database directory")
  | SysOk created =>
    throw_when (negb created) (invalid_argument ("benchmark database path already exists: " +:+ path));;
    mret tt
  end.

Definition with_scratch {A} (path : string) (body : M (world * Console) A) : M (world * Console) A := fun s =>
  match in_world (scratch_open path) s with
  | (Raised e, s) => (Raised e, s)
  | (Crashed, s) => (Crashed, s)
  | (Done _, s) =>
    match body s with
    | (Crashed, s) => (Crashed, s)
    | (o, s) =>
      match in_world (sys_remove_all path) s with
      | (Crashed, s) => (Crashed, s)
      | (_, s) => (o, s)
      end
    end
  end.

(** ** The workload *)

Definition benchmark_options : DatabaseOptions := MkOptions Durability.buffered 8192.

Definition benchmark_series : result SeriesKey :=
  tag ← make_Tag "source" "sequential"; make_SeriesKey "benchmark" [tag].

Definition query_count : nat := 1000.

(** [start_index] and [width] of a query. *)
Definition query_start (sample_count query : Z) : Z := (query * 97) mod sample_count.
Definition query_width (sample_count query : Z) : Z :=
  let available := sample_count - query_start sample_count query in
  if available <? 100 then available else 100.

Section Benchmark.
(** [static_cast<double>(index) * 0.5] *)
Context (sample_value_of : Z -> double).

(** The loop that writes, from [index] on with [count] turns to go. *)
Fixpoint write_loop (count : nat) (index : Z) (series : SeriesKey) : M (world * Database) unit :=
  match count with
  | O => mret tt
  | S count =>
    sample ← lift (make_Sample (MkTimestamp index) (sample_value_of index));
    database_put series sample;;
    write_loop count (index + 1) series
  end.

(** The loop of the queries: the final [samples_read]. *)
Fixpoint query_loop (count : nat) (query sample_count samples_read : Z) (series : SeriesKey) : M (world * Database) Z :=
  match count with
  | O => mret samples_read
  | S count =>
    let start_index := query_start sample_count query in
    let width := query_width sample_count query in
    samples ← database_range series (MkTimestamp start_index) (MkTimestamp (start_index + width));
    query_loop count (query + 1) sample_count (u64 (samples_read + size samples)) series
  end.

(** What [main] does with the database: [samples_read] and the statistics. *)
Definition workload (sample_count : Z) (series : SeriesKey) : M (world * Database) (Z * DatabaseStats) :=
  write_loop (Z.to_nat sample_count) 0 series;;
  database_flush;;
  samples_read ← query_loop query_count 0 sample_count 0 series;
  stats ← database_stats;
  mret (samples_read, stats).

(** ** [main] *)

(** The two measured durations, a quotient of an integer and a duration, and
    [std::fixed << std::setprecision(3)]. *)
Context (write_seconds query_seconds : double) (per_second : Z -> double -> double) (show_fixed : double -> string).
(** [default_database_path] *)
Context (default_path : string).

Definition report (sample_count samples_read : Z) (stats : DatabaseStats) : string :=
  "samples=" +:+ show_integer sample_count +:+ newline +:+
  "write_seconds=" +:+ show_fixed write_seconds +:+ newline +:+
  "write_samples_per_second=" +:+ show_fixed (per_second sample_count write_seconds) +:+ newline +:+
  "query_seconds=" +:+ show_fixed query_seconds +:+ newline +:+
  "queries_per_second=" +:+ show_fixed (per_second (Z.of_nat query_count) query_seconds) +:+ newline +:+
  "samples_read=" +:+ show_integer samples_read +:+ newline +:+
  "segments=" +:+ show_integer (db_segment_count stats) +:+ newline.

Definition benchmark_body (arguments : list string) : M (world * Console) Z :=
  throw_when (3 <? size arguments)
    (invalid_argument "usage: chronostore-benchmark [sample-count] [new-scratch-directory]");;
  sample_count ←
    (match arguments !! 1%nat with
     | Some text => lift (parse_count text)
     | None => mret 100000
     end : M (world * Console) Z);
  let path := default default_path (arguments !! 2%nat) in
  with_scratch path
    (with_database path benchmark_options
      (series ← lift benchmark_series;
       done_ ← in_database (workload sample_count series);
       let '(samples_read, stats) := done_ in
       print_out (report sample_count samples_read stats);;
       mret 0)).

Definition benchmark_main (arguments : list string) : M (world * Console) Z := fun s =>
  match benchmark_body arguments s with
  | (Raised e, s) => (write_err ("chronostore-benchmark: " +:+ what e +:+ newline);; mret 1) s
  | r => r
  end.
End Benchmark.
