(* ===== verification/BenchmarkTheorems.v ===== *)
(** * The benchmark: the theorem

    The workload runs the whole stack: puts with automatic flushes, a last flush and
    range queries over several segments.  What it prints as read is what the
    half-open intervals of its queries hold. *)

From stdpp Require Import base tactics option numbers list strings gmap.
From Stdlib Require Import ZArith Lia Sorted.
From S2P Require Import Prelude Errors World Hoare Model OrdMap View StorageEngine Database EngineView EngineState EngineFlush EngineSafety EngineContract EngineTheorems DatabaseRules DatabaseOpen DatabaseTheorems Text Tools Benchmark.

(** ** The database's operations on a running database *)

(** What a call that returns leaves and returns. *)
Definition returning {A} (P : A -> world * Database -> Prop) (o : outcome A) (s : world * Database) : Prop :=
  forall a, o = Done a -> P a s.

Lemma wp_returning_bind {A B} (m : M (world * Database) A) (f : A -> M (world * Database) B) s P Q :
  wp m s (returning P) -> (forall a s1, P a s1 -> wp (f a) s1 (returning Q)) -> wp (m ≫= f) s (returning Q).
Proof.
  intros Hm Hf. wp_step. eapply wp_mono; [exact Hm|]. intros o s1 Ho. destruct o as [a|e|]; cbn [and_then]; [|by intros ? [=]..].
  apply Hf. by apply Ho.
Qed.

Lemma wp_put_running dir s x v st :
  dir <> EmptyString -> SeriesKey_ok s -> Sample_ok x -> db_running dir st v ->
  wp (database_put s x) st (returning (fun _ st' => db_running dir st' (view_put s x v))).
Proof.
  intros Hdir Hs Hx (impl & Hi & Hp & bss & records & Hok & Hv).
  eapply wp_mono; [by apply (wp_database_put dir s x v bss records st impl)|].
  intros o st' [Ho _] u ->. apply Ho.
Qed.

Lemma wp_flush_running dir v st :
  dir <> EmptyString -> db_running dir st v ->
  wp database_flush st (returning (fun _ st' => db_running dir st' v)).
Proof.
  intros Hdir (impl & Hi & Hp & bss & records & Hok & Hv). unfold database_flush. wp_step.
  apply (wp_implementation st impl); [exact Hi|]. cbn [and_then]. apply wp_translate, (wp_in_engine _ st impl _ Hi).
  destruct (wp_flush_outcome dir v bss records (st.1, engine impl) Hdir Hok Hv) as (new & _ & Hw).
  eapply wp_mono; [exact Hw|]. intros o st' [[_ Ho] _]. destruct o as [u|e|]; [|by intros ? [=]..].
  intros _ _. eexists. split; [done|]. split; [exact Hp|]. apply Ho.
Qed.

Lemma wp_range_running dir s a c v st :
  db_running dir st v ->
  wp (database_range s a c) st (returning (fun l st' => db_running dir st' v /\ is_range v s a c l)).
Proof.
  intros (impl & Hi & Hp & bss & records & Hok & Hv). unfold database_range. wp_step.
  apply (wp_implementation st impl); [exact Hi|]. cbn [and_then]. apply wp_translate, (wp_in_engine _ st impl _ Hi).
  pose proof (engine_ok_holds _ _ _ _ _ Hok) as Hholds.
  eapply wp_mono; [by apply (wp_engine_range bss s a c (st.1, engine impl))|].
  intros o [w1 e1] (He & Hf & Ho). cbn [fst snd] in *. subst e1. destruct o as [l|e|]; [|by intros ? [=]..].
  intros l' [= <-]. split.
  - eexists. split; [done|]. split; [exact Hp|]. exists bss, records. cbn [fst snd]. by rewrite Hf.
  - destruct Ho as [[_ Hl] _]. by rewrite <-Hv.
Qed.

(** ** What is written, and what a query reads *)

Section Workload.
Context (sample_value_of : Z -> double).
(** A [double] has 64 bits. *)
Hypothesis values : forall index, in_u 64 (bits (sample_value_of index)).

Definition written_sample (index : Z) : Sample := MkSample (MkTimestamp index) (sample_value_of index).

(** The series holds the samples with the indexes below [k]. *)
Definition written (series : SeriesKey) (k : Z) : view := fun s t =>
  if decide (s = series /\ 0 <= nanoseconds_since_epoch t < k)
  then Some (sample_value_of (nanoseconds_since_epoch t)) else None.

Lemma written_none series : written series 0 ≡ view_empty.
Proof. intros s t. unfold written, view_empty. by rewrite decide_False by lia. Qed.

Lemma written_next series k : 0 <= k -> view_put series (written_sample k) (written series k) ≡ written series (k + 1).
Proof.
  intros Hk s t. unfold view_put, written. cbn [timestamp written_sample sample_value].
  destruct (decide (s = series /\ t = MkTimestamp k)) as [[-> ->]|Hne].
  - rewrite decide_True by (simpl; split; [done|lia]). done.
  - apply decide_ext. destruct t as [n]. cbn [nanoseconds_since_epoch]. split; [intros [-> H]; split; [done|lia]|].
    intros [-> H]. split; [done|]. assert (n <> k) by (intros ->; by apply Hne). lia.
Qed.

Lemma samples_sorted_NoDup l : samples_sorted l -> NoDup l.
Proof.
  induction 1 as [|x l _ IH Hall]; constructor; [|exact IH]. intros Hin. rewrite Forall_forall in Hall.
  specialize (Hall x Hin). apply (proj1 (Timestamp_lt _ _)) in Hall. lia.
Qed.

(** An interval of written indexes holds as many samples as it is long. *)
Lemma range_of_written series n a c l :
  0 <= a -> a <= c <= n -> is_range (written series n) series (MkTimestamp a) (MkTimestamp c) l -> size l = c - a.
Proof.
  intros Ha Hc [Hsorted Hin]. unfold size. rewrite (Permutation_length (l' := map written_sample (seqZ a (c - a)))).
  - rewrite length_map, length_seqZ. lia.
  - apply NoDup_Permutation; [by apply samples_sorted_NoDup| |].
    + apply NoDup_fmap_2_strong; [|apply NoDup_seqZ]. by intros i j _ _ [= ->].
    + intros x. rewrite Hin, list_elem_of_fmap. unfold at_, written. split.
      * intros (Hat & H1 & H2). case_decide as Hd; [|done]. destruct Hd as [_ Hd]. injection Hat as Hat.
        destruct x as [[i] v]. simpl in *. subst v. exists i. split; [done|]. apply elem_of_seqZ.
        rewrite Timestamp_lt in *. simpl in *. lia.
      * intros (i & -> & Hi). apply elem_of_seqZ in Hi. cbn [written_sample timestamp sample_value nanoseconds_since_epoch].
        rewrite decide_True by (split; [done|lia]). split; [done|]. rewrite !Timestamp_lt. simpl. lia.
Qed.

(** ** The loops *)

Lemma wp_write_loop dir series count index st :
  dir <> EmptyString -> SeriesKey_ok series -> 0 <= index -> index + Z.of_nat count < 2 ^ 63 ->
  db_running dir st (written series index) ->
  wp (write_loop sample_value_of count index series) st
    (returning (fun _ st' => db_running dir st' (written series (index + Z.of_nat count)))).
Proof using values.
  intros Hdir Hs. revert index st. induction count as [|count IH]; intros index st Hi Hmax Hrun; cbn [write_loop].
  - intros u _. by rewrite Z.add_0_r.
  - wp_step. apply wp_lift; [|by intros e _ ? [=]]. intros x Hx. apply make_Sample_Ok in Hx as [Hf ->]. cbn [and_then].
    eapply wp_returning_bind.
    { apply wp_put_running; [done|done| |exact Hrun]. split; [|split; [apply values|exact Hf]].
      unfold Timestamp_ok, in_i64. simpl. lia. }
    intros u st1 H1. replace (index + Z.of_nat (S count)) with (index + 1 + Z.of_nat count) by lia.
    apply IH; [lia|lia|]. destruct H1 as (impl & Hi1 & Hp1 & bss & records & Hok & Hv). exists impl. split; [done|].
    split; [done|]. exists bss, records. split; [done|]. rewrite Hv. by apply written_next.
Qed.

(** The samples of [count] queries from [query] on. *)
Fixpoint total_width (count : nat) (query sample_count : Z) : Z :=
  match count with
  | O => 0
  | S count => query_width sample_count query + total_width count (query + 1) sample_count
  end.

Lemma query_bounds n q : 0 < n -> 0 <= query_start n q /\ 0 < query_width n q <= 100 /\ query_start n q + query_width n q <= n.
Proof.
  intros Hn. unfold query_width, query_start. pose proof (Z.mod_pos_bound (q * 97) n Hn).
  destruct (_ <? 100) eqn:E; bool_to_prop; lia.
Qed.

Lemma total_width_bounds count q n : 0 < n -> 0 <= total_width count q n <= 100 * Z.of_nat count.
Proof.
  intros Hn. revert q. induction count as [|count IH]; intros q; cbn [total_width]; [lia|].
  pose proof (query_bounds n q Hn). specialize (IH (q + 1)). lia.
Qed.

Lemma wp_query_loop dir series n count query read st :
  0 < n -> 0 <= read -> read + 100 * Z.of_nat count < 2 ^ 64 -> db_running dir st (written series n) ->
  wp (query_loop count query n read series) st
    (returning (fun r st' => r = read + total_width count query n /\ db_running dir st' (written series n))).
Proof.
  intros Hn. revert query read st. induction count as [|count IH]; intros query read st Hr Hmax Hrun; cbn [query_loop].
  - intros r [= <-]. cbn [total_width]. split; [lia|done].
  - eapply wp_returning_bind; [by apply wp_range_running|]. intros l st1 [Hrun1 Hl].
    pose proof (query_bounds n query Hn) as (Ha & Hw & Hc).
    apply range_of_written in Hl; [|lia|lia].
    replace (query_start n query + query_width n query - query_start n query) with (query_width n query) in Hl by lia.
    eapply wp_mono; [apply IH; [|rewrite Hl, u64_small by (unfold in_u; lia); lia|exact Hrun1]|].
    { rewrite Hl, u64_small by (unfold in_u; lia). lia. }
    intros o st2 Ho r ->. destruct (Ho r eq_refl) as [-> Hrun2]. split; [|exact Hrun2].
    rewrite Hl, u64_small by (unfold in_u; lia). cbn [total_width]. lia.
Qed.
End Workload.

Lemma parse_count_range text n : parse_count text = Ok n -> 0 < n < 2 ^ 63.
Proof.
  unfold parse_count. destruct (from_chars_u64 text) as [[m []]|] eqn:E; [|done..]. intros H. result_inv. subst m.
  apply from_chars_u64_range in E. unfold in_u in E. bool_to_prop. lia.
Qed.

Lemma benchmark_series_ok series : benchmark_series = Ok series -> SeriesKey_ok series.
Proof. intros H. vm_compute in H. injection H as <-. split; [discriminate|]. repeat constructor; discriminate. Qed.

Lemma wp_workload value dir series n st :
  (forall index, in_u 64 (bits (value index))) -> dir <> EmptyString -> SeriesKey_ok series -> 0 < n < 2 ^ 63 ->
  db_running dir st view_empty ->
  wp (workload value n series) st (returning (fun r _ => r.1 = total_width query_count 0 n)).
Proof.
  intros Hvalues Hdir Hs Hn Hrun. unfold workload. eapply wp_returning_bind.
  { apply (wp_write_loop value Hvalues dir series (Z.to_nat n) 0 st); [done|done|lia|lia|].
    destruct Hrun as (impl & Hi & Hp & bss & records & Hok & Hv). exists impl. split; [done|]. split; [done|].
    exists bss, records. split; [done|]. rewrite Hv. symmetry. apply written_none. }
  intros u st1 H1. rewrite Z.add_0_l, Z2Nat.id in H1 by lia.
  eapply wp_returning_bind; [by apply (wp_flush_running dir _ st1 Hdir H1)|]. intros u' st2 H2.
  eapply wp_returning_bind; [apply (wp_query_loop value dir series n query_count 0 0 st2); [lia|lia|done|exact H2]|].
  intros r st3 [-> _]. apply (wp_returning_bind _ _ _ (fun _ _ => True)); [by intros ? ?|].
  generalize (total_width query_count 0 n). intros k stats st4 _ x [= <-]. apply Z.add_0_l.
Qed.

(** ** The scratch directory *)

(** Nothing is at the place, and no file has its name. *)
Definition unused (dir : string) (f : fsys) : Prop :=
  places f !! dir = None /\ (forall name, entry f (Path dir name) = settled None) /\ next_inode f ∉ locks f.

Lemma wp_scratch_open dir w (Q : outcome unit -> world -> Prop) :
  fs_ok (fs w) -> unused dir (fs w) ->
  (forall w1, fs_ok (fs w1) -> place_free dir (fs w1) -> lock_free dir (fs w1) ->
     leaves dir (one_view view_empty) (fs w1) -> Q (Done tt) w1) ->
  (forall o w1, o <> Done tt -> Q o w1) ->
  wp (scratch_open dir) w Q.
Proof.
  intros Hok (Hplace & Hnames & Hlock) HQ Hbad. unfold scratch_open. wp_step. apply wp_sys_change; rewrite ?Hplace; cbn [fst snd].
  - intros w1 Hfs _. cbn [and_then]. simpl (negb _). wp_step. rewrite wp_throw_when_false. cbn [and_then]. rewrite wp_ret.
    assert (forall p, entry (fs w1) p = entry (fs w) p) as He by (intros p; by rewrite Hfs).
    apply HQ.
    + destruct Hok as [Hlt Hinj]. split.
      * intros p i. rewrite He, Hfs. apply Hlt.
      * intros p q i. rewrite !He. apply Hinj.
    + unfold place_free. rewrite Hfs. simpl. by rewrite lookup_insert_eq.
    + unfold lock_free. rewrite He. unfold lock_path. rewrite Hnames, Hfs. exact Hlock.
    + apply fresh_leaves; simpl; rewrite He; apply Hnames.
  - intros e w1 _ _. cbn [and_then]. rewrite wp_throw. by apply Hbad.
  - intros w1 _ _. by apply Hbad.
Qed.

Lemma wp_with_scratch {A} path (body : M (world * Console) A) s (Q : outcome A -> Console -> Prop) :
  wp (scratch_open path) s.1 (fun o w =>
    match o with
    | Done _ => wp body (w, s.2) (fun o t => Q o t.2)
    | Raised e => Q (Raised e) s.2
    | Crashed => Q Crashed s.2
    end) ->
  (forall o c, Q o c -> Q Crashed c) ->
  wp (with_scratch path body) s (fun o t => Q o t.2).
Proof.
  unfold wp, with_scratch, in_world, zoom. intros H HQ. destruct (scratch_open path s.1) as [[u|e|] w]; cbn [fst snd] in *; [|exact H..].
  destruct (body (w, s.2)) as [o t]. cbn [fst snd] in *.
  destruct o as [a|e|]; [| |exact H]; destruct (sys_remove_all path t.1) as [[r|e'|] w']; cbn [fst snd]; try exact H; by eapply HQ.
Qed.

(** ** [main] *)

Section Main.
Context (value : Z -> double) (write_seconds query_seconds : double) (per_second : Z -> double -> double)
  (show_fixed : double -> string) (default_path : string).
Hypothesis values : forall index, in_u 64 (bits (value index)).

Abbreviation report_of n r stats := (report write_seconds query_seconds per_second show_fixed n r stats).

Definition benchmark_post (n : Z) (c : Console) (o : outcome Z) (c' : Console) : Prop :=
  match o with
  | Done code => code = 0 /\ cerr c' = cerr c /\
      exists stats, cout c' = cout c +:+ report_of n (total_width query_count 0 n) stats
  | Raised _ => cerr c' = cerr c
  | Crashed => True
  end.

Lemma wp_benchmark_database dir n w c :
  dir <> EmptyString -> 0 < n < 2 ^ 63 -> fs_ok (fs w) -> place_free dir (fs w) -> lock_free dir (fs w) ->
  leaves dir (one_view view_empty) (fs w) ->
  wp (with_database dir benchmark_options
        (series ← lift benchmark_series;
         done_ ← in_database (workload value n series);
         let '(samples_read, stats) := done_ in
         print_out (report_of n samples_read stats);;
         mret 0)) (w, c) (fun o t => benchmark_post n c o t.2).
Proof using values.
  intros Hdir Hn Hok Hplace Hfree Hl. apply wp_with_database. cbn [fst snd].
  eapply wp_mono; [by apply (wp_database_open dir benchmark_options (one_view view_empty) w Hdir (one_view_closed _))|].
  intros o w1 Ho. destruct o as [d|e|]; [|done|done].
  destruct Ho as (i & e & v & bss & records & -> & _ & Hv & Heok & Hview & _).
  wp_step. apply wp_lift; [|intros e' He'; vm_compute in He'; discriminate He']. intros series Hs. cbn [and_then].
  apply benchmark_series_ok in Hs. wp_step. apply wp_in_database. cbn [fst snd].
  eapply wp_mono.
  { apply (wp_workload value dir series n); [done|done|done|done|]. eexists. split; [done|]. split; [by vm_compute|].
    exists bss, records. split; [done|]. transitivity v; [exact Hview|exact Hv]. }
  assert (forall o (t : world * (Database * Console)), o <> Crashed -> benchmark_post n c o t.2.2 ->
    wp database_close (t.1, t.2.1) (fun oc u =>
      match oc with Crashed => benchmark_post n c Crashed t.2.2 | _ => benchmark_post n c o t.2.2 end)) as Hclose.
  { intros o t _ Ht. unfold wp. by destruct (database_close _) as [[u|x|] t']. }
  intros o [w2 d2] Hret. cbn [fst snd]. destruct o as [[r stats]|x|]; cbn [and_then].
  - pose proof (Hret _ eq_refl) as Hr. cbn [fst] in Hr. subst r. wp_step. unfold print_out, modify, wp at 1.
    cbn [fst snd and_then]. rewrite wp_ret. cbn [fst snd].
    apply (Hclose (Done 0) (w2, (d2, MkConsole _ _))); [done|]. split; [done|]. split; [done|]. by exists stats.
  - by apply (Hclose (Raised x) (w2, (d2, c))).
  - done.
Qed.
End Main.

(** ** Theorem *)

(** C20: the benchmark reads what it has written.  On a scratch directory that does not
    exist yet, [main] ends with exit code 0 or 1 unless the power goes.  0 means that
    it has reported as read exactly the samples its query intervals cover, through the
    automatic flushes, the last flush and the segments of the store; 1 comes with a
    message. *)
Theorem benchmark_reads value write_seconds query_seconds per_second show_fixed default_path program text dir n w c o s' :
  (forall index, in_u 64 (bits (value index))) -> dir <> EmptyString -> fs_ok (fs w) -> unused dir (fs w) ->
  parse_count text = Ok n ->
  benchmark_main value write_seconds query_seconds per_second show_fixed default_path [program; text; dir] (w, c) = (o, s') ->
  match o with
  | Done code =>
    (code = 0 /\ cerr s'.2 = cerr c /\ exists stats, cout s'.2 = cout c +:+
       report write_seconds query_seconds per_second show_fixed n (total_width query_count 0 n) stats) \/
    (code = 1 /\ cerr s'.2 <> cerr c)
  | Raised _ => False
  | Crashed => True
  end.
Proof.
  intros Hvalues Hdir Hok Hunused Hcount Hrun.
  assert (0 < n < 2 ^ 63) as Hn by by eapply parse_count_range.
  assert (wp (benchmark_body value write_seconds query_seconds per_second show_fixed default_path [program; text; dir]) (w, c)
    (fun o t => benchmark_post write_seconds query_seconds per_second show_fixed n c o t.2)) as Hw.
  { unfold benchmark_body. wp_step. apply wp_throw_when; [done|]. intros _. cbn [and_then lookup list_lookup default].
    wp_step. rewrite Hcount. unfold lift at 1, wp at 1. cbn [fst snd and_then].
    apply wp_with_scratch; [|by intros [] ?]. apply wp_scratch_open; [exact Hok|exact Hunused| |].
    - intros w1 H1 H2 H3 H4. by apply wp_benchmark_database.
    - by intros [[]|e|] w1 Hne. }
  unfold benchmark_main in Hrun. unfold wp in Hw.
  destruct (benchmark_body _ _ _ _ _ _ _ _) as [[code|e|] [w1 c1]]; cbn [fst snd benchmark_post] in *; injection Hrun as <- <-;
    cbn [snd cerr]; [by left| |done].
  right. split; [done|]. rewrite <-Hw. apply longer_differs. discriminate.
Qed.

(** Three samples of the value 1, in an empty file system. *)
Definition example_one (index : Z) : double := MkDouble 4607182418800017408.
Definition example_benchmark : outcome Z * (world * Console) :=
  benchmark_main example_one (MkDouble 0) (MkDouble 0) (fun _ _ => MkDouble 0) (fun _ => "0.000") "scratch"
    ["chronostore-benchmark"; "3"; "tmp"] (World (Fsys ∅ ∅ 0%nat ∅ ∅) [], MkConsole EmptyString EmptyString).

Lemma benchmark_reads_witness :
  example_benchmark.1 = Done 0 /\ total_width query_count 0 3 = 2001 /\
  exists stats, cout example_benchmark.2.2 =
    report (MkDouble 0) (MkDouble 0) (fun _ _ => MkDouble 0) (fun _ => "0.000") 3 (total_width query_count 0 3) stats.
Proof.
  assert (example_benchmark.1 = Done 0) as Hdone by (vm_compute; reflexivity). split; [exact Hdone|].
  split; [vm_compute; reflexivity|].
  destruct (benchmark_reads example_one (MkDouble 0) (MkDouble 0) (fun _ _ => MkDouble 0) (fun _ => "0.000") "scratch"
    "chronostore-benchmark" "3" "tmp" 3 (World (Fsys ∅ ∅ 0%nat ∅ ∅) []) (MkConsole EmptyString EmptyString) (Done 0)
    example_benchmark.2) as [(_ & _ & H)|([=] & _)].
  - intros index. vm_compute. split; [discriminate|reflexivity].
  - discriminate.
  - split; [intros p i H; vm_compute in H; apply list_elem_of_singleton in H; discriminate H|].
    intros p q i H. vm_compute in H. discriminate H.
  - split; [reflexivity|]. split; [reflexivity|]. apply not_elem_of_empty.
  - vm_compute. reflexivity.
  - rewrite <-Hdone. apply surjective_pairing.
  - exact H.
Defined.
