(* ===== verification/BasicUsage.v ===== *)
(** * The example program (src/examples/basic_usage.cpp)

    [basic_usage_main] is its [main]: two samples are put, the database is flushed and
    the latest sample of the series printed.  An exception leaves [main]; that the
    stack is then unwound, and the database closed, is what the common compilers do.
    [operator<<] of a [double] is a parameter. *)

From stdpp Require Import base tactics option numbers list strings gmap.
From Stdlib Require Import ZArith Lia.
From S2P Require Import Prelude Errors World Hoare Model OrdMap View StorageEngine Database EngineView EngineState EngineFlush EngineSafety EngineContract EngineTheorems DatabaseRules DatabaseOpen DatabaseTheorems Text Tools BenchmarkTheorems.

(** 21.5 and 22.75 *)
Definition first_reading : double := MkDouble 4626744929681408000.
Definition second_reading : double := MkDouble 4627096773402296320.

(** What [main] does with the database. *)
Definition example_calls : M (world * Database) (option Sample) :=
  tag ← lift (make_Tag "room" "lab");
  series ← lift (make_SeriesKey "temperature" [tag]);
  first ← lift (make_Sample (MkTimestamp 100) first_reading);
  database_put series first;;
  second ← lift (make_Sample (MkTimestamp 200) second_reading);
  database_put series second;;
  database_flush;;
  database_latest series.

Section Main.
Context (show_double : double -> string).

Definition latest_line (x : Sample) : string :=
  show_integer (nanoseconds_since_epoch (timestamp x)) +:+ " " +:+ show_double (sample_value x) +:+ newline.

Definition basic_usage_main (arguments : list string) : M (world * Console) Z :=
  let database_path := default "chronostore-example-db" (arguments !! 1%nat) in
  with_database database_path default_options
    (latest ← in_database example_calls;
     (match latest with Some x => print_out (latest_line x) | None => mret tt end : M Session unit);;
     mret 0).
End Main.

(** ** The calls *)

Definition example_series : SeriesKey := MkSeriesKey "temperature" [MkTag "room" "lab"].
Definition first_sample : Sample := MkSample (MkTimestamp 100) first_reading.
Definition second_sample : Sample := MkSample (MkTimestamp 200) second_reading.

Lemma example_series_ok : SeriesKey_ok example_series.
Proof. split; [discriminate|]. repeat constructor; discriminate. Qed.

Lemma first_ok : Sample_ok first_sample.
Proof. vm_compute. repeat (split || discriminate). Qed.

Lemma second_ok : Sample_ok second_sample.
Proof. vm_compute. repeat (split || discriminate). Qed.

(** The contents after the two puts. *)
Definition example_view (v : view) : view := view_put example_series second_sample (view_put example_series first_sample v).

Lemma wp_latest_running dir s v st :
  db_running dir st v ->
  wp (database_latest s) st (returning (fun r st' => db_running dir st' v /\ is_latest v s r)).
Proof.
  intros (impl & Hi & Hp & bss & records & Hok & Hv). unfold database_latest. wp_step.
  apply (wp_implementation st impl); [exact Hi|]. cbn [and_then]. apply wp_translate, (wp_in_engine _ st impl _ Hi).
  pose proof (engine_ok_holds _ _ _ _ _ Hok) as Hholds.
  eapply wp_mono; [by apply (wp_engine_latest bss s (st.1, engine impl))|].
  intros o [w1 e1] (He & Hf & Ho). cbn [fst snd] in *. subst e1. destruct o as [l|e|]; [|by intros ? [=]..].
  intros l' [= <-]. split.
  - eexists. split; [done|]. split; [exact Hp|]. exists bss, records. cbn [fst snd]. by rewrite Hf.
  - rewrite <-Hv. apply Ho.
Qed.

Lemma wp_bind_ok {S A B} (r : result A) a (f : A -> M S B) s Q : r = Ok a -> wp (f a) s Q -> wp (lift r ≫= f) s Q.
Proof. by intros -> H. Qed.

Lemma wp_example_calls dir v st :
  dir <> EmptyString -> db_running dir st v ->
  wp example_calls st (returning (fun r _ => is_latest (example_view v) example_series r)).
Proof.
  intros Hdir Hrun. unfold example_calls. do 3 (eapply wp_bind_ok; [vm_compute; reflexivity|]).
  eapply wp_returning_bind; [apply (wp_put_running dir example_series first_sample v); [done|apply example_series_ok|apply first_ok|exact Hrun]|].
  intros u1 st1 H1. cbn beta in H1. eapply wp_bind_ok; [vm_compute; reflexivity|].
  eapply wp_returning_bind; [apply (wp_put_running dir example_series second_sample (view_put example_series first_sample v)); [done|apply example_series_ok|apply second_ok|exact H1]|].
  intros u2 st2 H2. cbn beta in H2. eapply wp_returning_bind; [by eapply wp_flush_running|]. intros u3 st3 H3. cbn beta in H3.
  eapply wp_mono; [by apply wp_latest_running|]. intros o st4 Ho r ->. by apply (Ho r).
Qed.

(** After the puts the series has a sample, so [latest] has a value. *)
Lemma example_has_latest v r : is_latest (example_view v) example_series r -> exists x, r = Some x.
Proof.
  destruct r as [x|]; [by exists x|]. intros H. specialize (H (MkTimestamp 200)).
  unfold example_view, view_put in H. by rewrite decide_True in H.
Qed.

(** ** Theorem *)

(** The example prints what it has put.  On a database with any contents,
    when [main] returns it returns 0 and has printed one line, the latest sample of the
    series in the contents with its two samples put in, and no other; if it ends with an
    exception it has printed nothing. *)
Theorem basic_usage_prints show_double program dir v w c o s' :
  dir <> EmptyString -> fs_ok (fs w) -> place_free dir (fs w) -> lock_free dir (fs w) -> leaves dir (one_view v) (fs w) ->
  basic_usage_main show_double [program; dir] (w, c) = (o, s') ->
  match o with
  | Done code => code = 0 /\ exists x, is_latest (example_view v) example_series (Some x) /\
      s'.2 = MkConsole (cout c +:+ latest_line show_double x) (cerr c)
  | Raised _ => s'.2 = c
  | Crashed => True
  end.
Proof.
  intros Hdir Hok Hplace Hfree Hl Hrun.
  assert (wp (basic_usage_main show_double [program; dir]) (w, c) (fun o t =>
    match o with
    | Done code => code = 0 /\ exists x, is_latest (example_view v) example_series (Some x) /\
        t.2 = MkConsole (cout c +:+ latest_line show_double x) (cerr c)
    | Raised _ => t.2 = c
    | Crashed => True
    end)) as Hw; [|unfold wp in Hw; by rewrite Hrun in Hw].
  unfold basic_usage_main. apply wp_with_database. cbn [fst snd lookup list_lookup default].
  eapply wp_mono; [by apply (wp_database_open dir default_options (one_view v) w Hdir (one_view_closed _))|].
  intros o1 w1 Ho. destruct o1 as [d|e|]; [|done|done].
  destruct Ho as (i & e & v1 & bss & records & -> & _ & Hv & Heok & Hview & _).
  wp_step. apply wp_in_database. cbn [fst snd]. eapply wp_mono.
  { apply (wp_example_calls dir v); [exact Hdir|]. eexists. split; [done|]. split; [by vm_compute|].
    exists bss, records. split; [exact Heok|]. transitivity v1; [exact Hview|exact Hv]. }
  intros o2 [w2 d2] Hret. cbn [fst snd]. destruct o2 as [r|x|]; cbn [and_then]; [| |done].
  - pose proof (Hret r eq_refl) as Hr. cbn beta in Hr. destruct (example_has_latest v r Hr) as (x & ->). wp_step.
    unfold print_out, modify, wp at 1. cbn [fst snd and_then]. rewrite wp_ret. cbn [fst snd].
    unfold wp. destruct (database_close _) as [[u|e'|] t']; [by split; [|exists x]..|done].
  - unfold wp. by destruct (database_close _) as [[u|e'|] t'].
Qed.

(** On an empty database: the second sample. *)
Definition show_reading (v : double) : string := if bool_decide (v = second_reading) then "22.75" else "21.5".
Definition basic_usage_run : outcome Z * (world * Console) :=
  basic_usage_main show_reading ["basic_usage"; "db"] (World example_disk [], MkConsole EmptyString EmptyString).

Lemma basic_usage_prints_witness :
  cout basic_usage_run.2.2 = "200 22.75" +:+ newline /\
  exists x, is_latest (example_view view_empty) example_series (Some x) /\
    basic_usage_run.2.2 = MkConsole (EmptyString +:+ latest_line show_reading x) EmptyString.
Proof.
  split; [vm_compute; reflexivity|].
  assert (basic_usage_run = (Done 0, basic_usage_run.2)) as Hrun.
  { assert (basic_usage_run.1 = Done 0) as H by (vm_compute; reflexivity). rewrite <-H. apply surjective_pairing. }
  exact (proj2 (basic_usage_prints show_reading "basic_usage" "db" view_empty (World example_disk [])
    (MkConsole EmptyString EmptyString) (Done 0) basic_usage_run.2 ltac:(discriminate) (single_file_ok _ _) eq_refl
    example_lock_free example_left Hrun)).
Defined.
